(* ===== verification/_CoqProject ===== *)
-Q . S2P
Prelude.v
GoRandom.v
GoStrconv.v
GoProcess.v
Commands.v
RaftServer.v
RaftServerFacts.v
RaftCluster.v
RaftInvariants.v
RaftReplication.v
RaftScenarios.v
RaftLogMatching.v
RaftIndex.v
RaftElection.v
RaftProgress.v
RaftTheorems.v
MrCoordinator.v
MrCoordinatorFacts.v
MrCoordinatorTheorems.v
MrProgress.v
MrFineGrained.v
MrWorker.v
MrWorkerFacts.v
MrContents.v
MrSystem.v
MrJson.v
GoRunes.v
MrApps.v
MrTiming.v
MrTheorems.v
MrPrograms.v
MrIoFacts.v
MrAgreement.v
MrProgramsTheorems.v
PorcupineBitset.v
Porcupine.v
PorcupineKv.v
PorcupineList.v
PorcupineLink.v
PorcupineSearch.v
PorcupineRep.v
PorcupineCheck.v
PorcupineParallel.v
PorcupineHistory.v
PorcupineVisual.v
PorcupinePage.v
PorcupinePageLayout.v
PorcupinePagePrep.v
PorcupinePageUi.v
PorcupinePageDraw.v
PorcupinePageSession.v
PorcupineTheorems.v
PorcupineReport.v
PorcupinePageTheorems.v
LabRpc.v
LabRpcTheorems.v
RaftTester.v
HarnessNet.v
RaftTesterTheorems.v
RaftHarness.v
RaftAgree.v
Labgob.v
LabgobTheorems.v
Kvraft.v
Shardctrler.v
Shardkv.v
ShardTheorems.v
ServiceConfig.v
KvraftConfig.v
ShardctrlerConfig.v
ServiceWires.v
ServiceTheorems.v
ServiceView.v
ShardkvConfig.v
ShardkvTheorems.v
