(* ===== verification/Prelude.v ===== *)
(** * Verification of the 6.824 labs

    ** The program

    [src/src] holds the course's Go labs with this author's solutions.  Its parts:

    - [raft/raft.go]: the Raft peer (elections, log replication, delivery to the
      service; the persistence and snapshot hooks are empty);
    - [mr/coordinator.go], [mr/worker.go], [main/mrsequential.go], [mrapps/]: the
      MapReduce coordinator and worker, the sequential reference program and the
      applications;
    - [porcupine/], [models/kv.go]: the linearizability checker, the page that
      shows its result, and its key/value model;
    - [labrpc/labrpc.go]: the simulated network through which Raft peers call
      each other;
    - [raft/config.go], [raft/persister.go]: the Raft test harness, which runs
      peers over labrpc, crashes them and checks what they deliver;
    - [labgob/labgob.go]: a wrapper of the gob encoder that warns about lower-case
      fields and non-default targets;
    - [kvraft], [shardctrler], [shardkv]: the later labs; their servers are stubs,
      the clerks of the last two retry until a leader answers, and each has a test
      harness ([config.go]) that runs servers over labrpc, partitions and restarts
      them;
    - [main]: the commands that start a coordinator, a worker or the sequential
      program with an application, and commands of services of other years that
      are not in the repository.

    ** The files

    [Prelude] has Go slices as lists indexed by [int], the tactics and the generic
    lemmas.  A computation that may panic is an [option] ([None] is the panic).
    [GoStrconv] has the parsers of [strconv], [GoProcess] the outcomes of a program
    (it goes on, exits with a message, or panics) and [DPrintf], [GoRandom] the random
    names and seeds of the harnesses (C22), [Commands] the commands of the services
    of other years, with those services as parameters.

    Raft:
    - [RaftServer]: the state of a peer ([Raft]) and its methods, one function per
      critical section: [RequestVote], [AppendEntries], [Start], [AttemptEletion]
      and the handler of its replies, one iteration of [HeartBeat], the goroutine's
      arguments and reply handler, [apply], [Make];
    - [RaftServerFacts]: what each method does, branch by branch;
    - [RaftCluster]: peers, their goroutines and the messages in flight; [exec]
      and the relation [step];
    - [RaftInvariants]: invariants of reachable clusters by rule induction;
    - [RaftReplication]: leader and follower exchanging heartbeats (C10);
    - [RaftScenarios]: concrete runs; [RaftLogMatching]: the entries each [Start]
      appends, and the logs made of them (C3, C12); [RaftIndex]: the index of terms
      in them; [RaftElection], [RaftProgress]: schedules that elect a leader and
      commit a command (C4); [RaftTheorems]: C1, C2, C5-C9, C11, C13.

    MapReduce:
    - [MrCoordinator]: tasks as shared objects, the handlers and time-outs;
      [MrCoordinatorFacts], [MrCoordinatorTheorems] (C20, C21), [MrProgress];
    - [MrFineGrained]: [HandleWorker] statement by statement (C23);
    - [MrWorker]: [doMap], [doReduce] and [mrsequential] as sequences of writes,
      against the interfaces [SortByKey] ([sort.Sort]) and [JsonCodec]
      ([encoding/json]); [MrWorkerFacts], [MrContents];
    - [MrSystem]: coordinator, workers and files together; [MrJson]: an instance
      of [JsonCodec]; [GoRunes] and [MrApps]: UTF-8 decoding and the applications;
      [MrTiming]: the applications that count workers (C40);
      [MrTheorems]: C24, C25;
    - [MrPrograms]: the commands, and the processes of a job: the coordinator that
      polls [Done] and returns, workers that are started, killed, and end when
      nobody answers, with their tasks system call by system call; [MrIoFacts]: what
      these calls do to files; [MrAgreement]: the invariants of a job;
      [MrProgramsTheorems]: C18, C19.

    porcupine:
    - [PorcupineBitset]; [Porcupine]: the model of [checker.go] with its linked
      list as a store of nodes; [PorcupineKv]; [PorcupineParallel]: the checks of
      whole histories and the visualization data;
    - [PorcupineList] ([lift]/[unlift]), [PorcupineLink] (what
      [makeLinkedEntries] builds), [PorcupineSearch] (linearizability and the paths
      the search explores), [PorcupineRep] (the store against the bit set),
      [PorcupineCheck] (invariant and measure of [checkSingle]),
      [PorcupineHistory], [PorcupineVisual]; [PorcupineTheorems]: C14, C15, C17;
    - [PorcupinePage]: the script of the page that [visualization.go] prints, up to
      the layout; [PorcupinePageUi]: the drawing, the state of the page and the
      handlers of the mouse; [PorcupinePageLayout] (the scan solves its
      constraints), [PorcupinePagePrep] (the tables and the preparation of the
      data), [PorcupinePageDraw], [PorcupinePageSession] (the abstract view);
      [PorcupineReport]: the data of a check is what the page expects;
      [PorcupinePageTheorems]: C16, C36-C39.

    labrpc and the Raft harness:
    - [LabRpc]: tables, administration calls, services and the life of a request;
      [LabRpcTheorems]: C26, C27;
    - [RaftTester]: [config] on top of [LabRpc] and [RaftServer], and [Persister];
      [RaftTesterTheorems]: the apply checks and the connections;
    - [HarnessNet]: the interface [NetHolder] of a harness state that holds a
      network, and the lemmas on fresh ends all harnesses share;
    - [RaftHarness]: the harness watching the peers of [RaftCluster] (C28);
      [RaftAgree]: [one] and [cleanup].

    labgob and the later labs:
    - [Labgob]: types as a graph, the walk over them, the default check and the
      wrappers, with gob as a parameter; [LabgobTheorems]: C32, C33;
    - [Kvraft], [Shardctrler], [Shardkv]: data, clerks and server stubs; RPCs act on
      a world behind the interfaces [Ctrlers] and [KvServers]; [ShardTheorems]: C30,
      C31;
    - [ServiceConfig]: what [kvraft/config.go] and its copy
      [shardctrler/config.go] share, for any server of the class [Replica];
      [KvraftConfig], [ShardctrlerConfig]: the two instances and what differs;
      [ServiceWires]: which ends are open; [ServiceTheorems]: C34; [ServiceView]:
      the abstract view a test has of the network, the refinement (C35), and the
      calls of a client (C29);
    - [ShardkvConfig]: [shardkv/config.go]; [ShardkvTheorems]: which sizes work.

    ** What the theorems show

    Raft.  The safety argument of the election goes through except for one step:
    a winner has a majority of votes (C2), a peer votes once per term, so
    there is one winner per term (C1), as long as no peer clears its vote within a
    term; the code does clear it when a candidate steps down, and C11 is a run with
    two leaders in one term.  With one winner per term logs match (C3), as long as no
    vote request of a later term is delivered to a leader, since the code moves the
    leader to that term and leaves it a leader, granted or not: C12 is a run in which
    it goes on as leader of a term it never won.  After an execution of this kind a
    majority can elect a live, most up-to-date peer of it that does not lead and has
    not delivered beyond its log, and get a new command delivered (C4), whatever is in
    flight.  C5-C7 are invariants
    of all runs; C8 and C9 describe the two handlers completely; C13 is a run in
    which a late heartbeat undoes a commit.  C10 shows that between one leader and
    one follower of its term or an earlier one, with matching logs and an index of
    terms that is in order, the back-off over terms converges, and bounds
    the number of exchanges.

    porcupine.  [checkSingle] is a decision procedure for linearizability, and the
    partial linearization it notes for an operation contains it and is a longest one
    that does (C14), on top of a list surgery that is exactly undone and bit sets; the
    exported check inherits it for any order of arrival of its goroutines, and returns
    exactly if there is a partition (C15), on histories that are faithful to the
    clock (C17).  If operations start strictly before they end, the page of a check can
    be drawn (C36), its layout is the least solution of the constraints the script
    states (C37), so that all points are inside their boxes (C38); what it marks as an illegal next step is what the
    model refuses (C16); and in any session with the mouse it shows what a small
    abstract view says (C39), with a jump link that leads to the first error.

    MapReduce.  The coordinator gives out tasks in the right phase (C20, C21),
    never loses one and ends only when all is done; the unlocked compare-and-swaps do
    no harm (C23).  The commands agree: when [mrcoordinator] has returned, however the
    system calls of workers interleave and wherever they were killed and replaced, the
    files hold the output of [mrsequential] (C18, from the round trip of the
    intermediate files, C24), as long as no task is given up while a process still has
    it; C25 shows what a late worker does otherwise.  Late workers or not, if the inputs
    can be read the job can be brought to the end, coordinator and workers (C19).  The
    timing applications of the tests count processes that were alive and at work when
    they read the directory, all of those that stay alive included, under any
    interleaving of system calls (C40).

    labrpc.  At most one execution per request and truthful replies under any
    interleaving (C26); a positive reply only if at the last check of the request the end was enabled
    and the server neither deleted nor superseded (C27).  Raft harness: its apply
    checks accept exactly the consistent, ordered deliveries, so that they pass a cluster of these peers exactly when no two of them delivered different
    commands at one index (C28); the network is cut as the test says; and what
    [one] returns is an index at which enough servers delivered the command.

    Clerks.  [Get] never panics and only returns what an owner of the key answered
    (C31), and returns within two rounds once the system has settled (C30).

    labgob.  The walk over a type ends on every type graph, cyclic ones too, and
    visits each type once (C32); the default check panics on scalars behind lower-case
    fields, and otherwise counts an error, with one warning that names a non-default
    scalar, exactly if there is one within its depth (C33).

    Service harnesses.  A test sees servers that are up or down and connections
    between servers and from clients; every operation does to the network what it
    means in this view (C35), so that a clerk's call reaches the object that runs as
    the server it is connected to, and nobody otherwise (C29).  [make_partition]
    splits an odd number of servers and puts the leader in the minority.  A restarted
    server gets what its predecessor saved last, although old instances may go on
    saving (C34).  The harness of the sharded service works for groups of three only.
    The names of ends carry six random bits per character and nothing else (C22).

    Commands.  [diskvd] reads its options as they are meant, in any order.

    ** Modelling choices, bounds and assumptions

    - Terms, indices and counters of type [int] are unbounded integers; statistics
      and hashes of 32 and 64 bits wrap around.
    - A Raft step is one critical section.  RPC arguments are values built in it
      (the source encodes them after releasing the lock; [Entries] and
      [TermToIndex] still share memory with the log then).  An election timer may
      fire at any time; messages are lost and reordered at will, delivered at most
      once (C26).  A crashed peer does not come back in [RaftCluster]: [persist] is
      empty, so a restarted peer is a new one.
    - A map or reduce task's writes are one step of [MrSystem], where [Append] is a write
      at the end of the file.  In [MrPrograms] every open, read, create and write of a
      task is a step: a file is read in parts of any size, to its end, and decoded as it
      was read; a write goes to the position of its handle in what the file holds at
      that moment.  Handles are names: no file of a job is removed or renamed.  Reads and writes of one status word
      are atomic.
    - [sort.Sort] is any function that returns a sorted permutation; JSON decoding
      is any left inverse of encoding that leaves the rest of the input; both have
      instances.  [unicode.IsLetter], [unicode.IsUpper], [fmt.Sprintf] of
      arbitrary values, [encoding/gob] and reflection over methods are parameters.
    - Fuel: [checkSingle] gets [budget (length hist)] turns, proved enough in C14;
      the decoding loop gets the length of the file plus one and the grouping loops
      the length of the list, each more than the turns they can make;
      the fine-grained [HandleWorker] has a decreasing measure (C23).
    - The walk over types gets fuel for the types reachable, proved enough in C32.
      The endless loops of the clerks run for a number of rounds, and a result that
      says so when they are still trying; C30 shows that two rounds are enough.
      Loops that end by the clock take the number of their rounds as an argument.
    - The bytes and numbers that [crypto/rand] delivers are arguments of [randstring]
      and [makeSeed]; the harnesses take the names made of them as a list, in the
      order they are drawn, and a repeated one ends the test ([MakeEnd]).
    - In [MrTiming] the listing of a directory is one step, every probe of a process
      another.  [ShutdownServer] of the service harnesses releases the lock of the
      configuration around [Kill], which only sets [dead] flags; it is one step.
    - In [MrPrograms] a call and its handler are one step, and a call is cut only by
      the end of the coordinator's process.  The plug-in that a file name stands for
      and the outcome of listening on the socket are arguments.
    - The numbers of the page are exact: a time stamp below 2^53 is one in
      JavaScript too, and a half-way point between two time stamps is counted in
      halves.  Positions are in units of which a pixel has a given number, and the
      width of a text as the browser draws it is a parameter.  A position that is
      read before it is written is [None], for NaN.
    - The order in which results, random numbers and messages come is an argument
      of the model everywhere, never fixed.

    ** Not modelled

    - The markup, the labels of the background and the scrolling of the page, and the
      helpers that make its SVG elements: they change no state the handlers read.
    - The layout of printed numbers ([end] of the harnesses is modelled by the numbers
      it prints).
    - [raft_sleep.go] and [coordinator_1.go], in which every line is commented out.
    - The packages that commands refer to and the repository does not have ([diskv],
      [lockservice], [pbservice], [viewservice]): parameters of [Commands]. *)

From stdpp Require Export prelude list gmap strings sorting.
From Stdlib Require Export ZArith Lia.

#[global] Set Default Proof Using "Type".

(** ** Go slices indexed by [int]

    A run-time panic of the Go program (index out of range, nil map or nil
    pointer dereference) is [None]; a computation that may panic is an [option]
    and is sequenced with stdpp's [x ← e; k]. *)

Declare Scope go_scope.
Delimit Scope go_scope with go.
Open Scope Z_scope.

Definition len {A} (l : list A) : Z := Z.of_nat (length l).

(** [l[i]] as an expression. *)
Definition idx {A} (l : list A) (i : Z) : option A :=
  if 0 <=? i then l !! Z.to_nat i else None.

(** [l[i] = x] as a statement. *)
Definition upd {A} (l : list A) (i : Z) (x : A) : option (list A) :=
  if (0 <=? i) && (i <? len l) then Some (<[Z.to_nat i := x]> l) else None.

(** [l[:n]] for [n <= len(l)] (the sources never reslice past the length). *)
Definition slice_to {A} (l : list A) (n : Z) : option (list A) :=
  if (0 <=? n) && (n <=? len l) then Some (take (Z.to_nat n) l) else None.

(** [l[n:]]. *)
Definition slice_from {A} (l : list A) (n : Z) : option (list A) :=
  if (0 <=? n) && (n <=? len l) then Some (drop (Z.to_nat n) l) else None.

Notation "l '@[' i ']'" := (idx l i) (at level 1, left associativity) : go_scope.
Open Scope go_scope.

(** [m[k]] on a [map[K]int]: the zero value when the key is absent. *)
Definition map_get `{Countable K} (m : gmap K Z) (k : K) : Z := default 0 (m !! k).

(** ** Automation *)

Create HintDb golib.

(** Turns boolean comparisons of the code into the propositions they decide. *)
Ltac bools :=
  repeat match goal with
  | H : _ && _ = true |- _ => apply andb_true_iff in H as [? ?]
  | H : _ || _ = false |- _ => apply orb_false_iff in H as [? ?]
  | H : negb _ = true |- _ => apply negb_true_iff in H
  | H : negb _ = false |- _ => apply negb_false_iff in H
  | H : (_ <=? _) = true |- _ => apply Z.leb_le in H
  | H : (_ <=? _) = false |- _ => apply Z.leb_gt in H
  | H : (_ <? _) = true |- _ => apply Z.ltb_lt in H
  | H : (_ <? _) = false |- _ => apply Z.ltb_ge in H
  | H : (_ =? _) = true |- _ => apply Z.eqb_eq in H
  | H : (_ =? _) = false |- _ => apply Z.eqb_neq in H
  | H : bool_decide _ = true |- _ => apply bool_decide_eq_true in H
  | H : bool_decide _ = false |- _ => apply bool_decide_eq_false in H
  end.

(** Case analysis on the innermost test or match the goal or a hypothesis
    is stuck on. *)
Ltac split_ifs :=
  repeat match goal with
  | |- context [if ?b then _ else _] =>
      match b with context [if _ then _ else _] => fail 1 | _ => destruct b eqn:? end
  | H : context [if ?b then _ else _] |- _ =>
      match b with context [if _ then _ else _] => fail 1 | _ => destruct b eqn:? end
  end.

(** ** Lemmas on indexing *)

Section Indexing.
Context {A : Type}.
Implicit Types l k : list A.

Lemma len_nonneg l : 0 <= len l.
Proof. unfold len. lia. Qed.

Lemma len_app l k : len (l ++ k) = len l + len k.
Proof. unfold len. rewrite length_app. lia. Qed.

Lemma len_cons x l : len (x :: l) = len l + 1.
Proof. unfold len. simpl. lia. Qed.

Lemma idx_Some_range l i x : l@[i] = Some x → 0 <= i < len l.
Proof.
  unfold idx, len. split_ifs; [|done]. bools.
  intros H%lookup_lt_Some. lia.
Qed.

Lemma idx_in_range l i : 0 <= i < len l → ∃ x, l@[i] = Some x.
Proof.
  unfold idx, len. intros H. rewrite (proj2 (Z.leb_le 0 i)) by lia.
  destruct (lookup_lt_is_Some_2 l (Z.to_nat i)) as [x Hx]; [lia|eauto].
Qed.

Lemma idx_out_range l i : i < 0 ∨ len l <= i → l@[i] = None.
Proof.
  intros H. destruct (l@[i]) eqn:E; [|done]. apply idx_Some_range in E. lia.
Qed.

Lemma idx_nat l (i : nat) : l@[Z.of_nat i] = l !! i.
Proof. unfold idx. rewrite (proj2 (Z.leb_le 0 _)) by lia. by rewrite Nat2Z.id. Qed.

Lemma idx_lookup l i x : l@[i] = Some x → ∃ n : nat, i = Z.of_nat n ∧ l !! n = Some x.
Proof. intros E. pose proof (idx_Some_range _ _ _ E). exists (Z.to_nat i). rewrite <-idx_nat. split; [lia|]. by rewrite Z2Nat.id by lia. Qed.

Lemma idx_elem_of l i x : l@[i] = Some x → x ∈ l.
Proof. unfold idx. split_ifs; [|done]. intros H. by eapply list_elem_of_lookup_2. Qed.

Lemma idx_last l : l@[len l - 1] = last l.
Proof.
  destruct (decide (l = [])) as [->|Hne]; [done|].
  rewrite last_lookup. destruct l; [done|]. unfold idx, len. simpl length.
  rewrite (proj2 (Z.leb_le _ _)) by lia. f_equal. lia.
Qed.

Lemma idx_app_l l k i : i < len l → (l ++ k)@[i] = l@[i].
Proof.
  intros H. unfold idx. split_ifs; [|done]. bools.
  apply lookup_app_l. unfold len in H. lia.
Qed.

Lemma idx_app_r l k i : len l <= i → (l ++ k)@[i] = k@[i - len l].
Proof.
  intros H. pose proof (len_nonneg l). unfold idx.
  rewrite !(proj2 (Z.leb_le _ _)) by lia. unfold len in *.
  rewrite lookup_app_r by lia. f_equal. lia.
Qed.

Lemma slice_to_Some l n k : slice_to l n = Some k → k = take (Z.to_nat n) l ∧ 0 <= n <= len l.
Proof. unfold slice_to. split_ifs; [|done]. bools. intros [= <-]. split; [done|lia]. Qed.

Lemma slice_to_in_range l n : 0 <= n <= len l → slice_to l n = Some (take (Z.to_nat n) l).
Proof.
  intros. unfold slice_to. by rewrite !(proj2 (Z.leb_le _ _)) by lia.
Qed.

Lemma slice_from_Some l n k : slice_from l n = Some k → k = drop (Z.to_nat n) l ∧ 0 <= n <= len l.
Proof. unfold slice_from. split_ifs; [|done]. bools. intros [= <-]. split; [done|lia]. Qed.

Lemma slice_from_in_range l n : 0 <= n <= len l → slice_from l n = Some (drop (Z.to_nat n) l).
Proof.
  intros. unfold slice_from. by rewrite !(proj2 (Z.leb_le _ _)) by lia.
Qed.

Lemma upd_Some l i x k : upd l i x = Some k → k = <[Z.to_nat i := x]> l ∧ 0 <= i < len l.
Proof. unfold upd. split_ifs; [|done]. bools. intros [= <-]. split; [done|lia]. Qed.

Lemma upd_in_range l i x : 0 <= i < len l → upd l i x = Some (<[Z.to_nat i := x]> l).
Proof.
  intros. unfold upd. by rewrite (proj2 (Z.leb_le _ _)), (proj2 (Z.ltb_lt _ _)) by lia.
Qed.

Lemma len_upd l i x k : upd l i x = Some k → len k = len l.
Proof. intros [-> _]%upd_Some. unfold len. by rewrite length_insert. Qed.

Lemma idx_upd l i x k j : upd l i x = Some k → k@[j] = if j =? i then Some x else l@[j].
Proof.
  intros [-> Hi]%upd_Some. unfold idx. destruct (j =? i) eqn:E; bools.
  - subst. rewrite (proj2 (Z.leb_le _ _)) by lia.
    apply list_lookup_insert_eq. unfold len in Hi. lia.
  - split_ifs; [|done]. bools. apply list_lookup_insert_ne. lia.
Qed.

Lemma len_take l n : 0 <= n <= len l → len (take (Z.to_nat n) l) = n.
Proof. unfold len. intros. rewrite length_take. lia. Qed.

Lemma len_drop l n : 0 <= n <= len l → len (drop (Z.to_nat n) l) = len l - n.
Proof. unfold len. intros. rewrite length_drop. lia. Qed.

Lemma idx_take l n i : 0 <= i < n → (take (Z.to_nat n) l)@[i] = l@[i].
Proof.
  intros. unfold idx. split_ifs; [|done]. bools. apply lookup_take_lt. lia.
Qed.
End Indexing.

#[export] Hint Resolve len_nonneg : golib.

(** ** Lists up to permutation *)

#[export] Instance omap_Permutation {A B} (f : A → option B) :
  Proper (Permutation ==> Permutation) (omap f).
Proof.
  intros l k H. induction H as [|x l k H IH|x y l|l k m H1 IH1 H2 IH2]; simpl.
  - done.
  - destruct (f x); [by constructor|done].
  - destruct (f x), (f y); try done. by constructor.
  - by trans (omap f k).
Qed.

Lemma insert_Permutation {A} (l : list A) i x y : l !! i = Some x → <[i := y]> l ≡ₚ y :: delete i l.
Proof.
  intros Hi. rewrite (insert_take_drop l i y) by (by eapply lookup_lt_Some). by rewrite <-Permutation_middle, <-delete_take_drop.
Qed.

(** Two places of a list exchange what they hold. *)
Lemma exchange_Permutation {A} (l : list A) i j x y : l !! i = Some y → l !! j = Some x → <[j := y]> (<[i := x]> l) ≡ₚ l.
Proof.
  intros Hi Hj. assert (Hj' : <[i := x]> l !! j = Some x).
  { destruct (decide (i = j)) as [->|]; [apply list_lookup_insert_eq; by eapply lookup_lt_Some|by rewrite list_lookup_insert_ne]. }
  rewrite (insert_Permutation _ j x y Hj'). etrans; [|symmetry; by apply (delete_Permutation l i y)]. apply Permutation_cons; [done|].
  apply (Permutation_cons_inv (a := x)). by rewrite <-(delete_Permutation _ j x Hj'), (insert_Permutation l i y x Hi).
Qed.

Lemma submseteq_NoDup {A} (l k : list A) : l ⊆+ k → NoDup k → NoDup l.
Proof.
  intros [k' ->]%submseteq_Permutation H. by apply NoDup_app in H as [? _].
Qed.

Lemma sublist_omap {A B} (f : A → option B) (l k : list A) :
  l `sublist_of` k → omap f l `sublist_of` omap f k.
Proof.
  induction 1 as [|x l k _ IH|x l k _ IH]; simpl; [done|..];
    destruct (f x); auto using sublist_skip, sublist_cons.
Qed.

(** Two sets of more than half of [n] peers share a peer. *)
Lemma quorum_intersection (n : nat) (Q1 Q2 : list nat) :
  NoDup Q1 → NoDup Q2 → Q1 ⊆ seq 0 n → Q2 ⊆ seq 0 n →
  Z.of_nat n / 2 < len Q1 → Z.of_nat n / 2 < len Q2 → ∃ q, q ∈ Q1 ∧ q ∈ Q2.
Proof.
  intros H1 H2 S1 S2 L1 L2.
  destruct (decide (Exists (λ q, q ∈ Q2) Q1)) as [HE|HE].
  { apply Exists_exists in HE as (q&?&?). eauto. }
  exfalso. apply not_Exists_Forall in HE; [|apply _]. rewrite Forall_forall in HE.
  assert (Q1 ++ Q2 ⊆+ seq 0 n) as Hle%submseteq_length.
  { apply NoDup_submseteq; [apply NoDup_app; auto|]. intros x [?|?]%elem_of_app; auto. }
  rewrite length_app, length_seq in Hle. unfold len in *.
  pose proof (Z.div_mod (Z.of_nat n) 2 ltac:(lia)). pose proof (Z.mod_pos_bound (Z.of_nat n) 2 ltac:(lia)). lia.
Qed.

(** Positions of a list. *)
Lemma elem_of_positions {A} (l : list A) (i : nat) : i ∈ seq 0 (length l) ↔ is_Some (l !! i).
Proof. rewrite elem_of_seq, lookup_lt_is_Some. lia. Qed.

(** ** Filters *)

Lemma filter_ext_elem {A} (P Q : A → Prop) `{∀ x, Decision (P x), ∀ x, Decision (Q x)} (l : list A) :
  (∀ x, x ∈ l → P x ↔ Q x) → filter P l = filter Q l.
Proof.
  induction l as [|x l IH]; intros HPQ; [done|]. rewrite !filter_cons.
  pose proof (HPQ x ltac:(left)) as Hx. assert (IH' := IH ltac:(intros; apply HPQ; by right)).
  destruct (decide (P x)), (decide (Q x)); [by f_equal|tauto|tauto|done].
Qed.

Lemma filter_all {A} (P : A → Prop) `{∀ x, Decision (P x)} (l : list A) : (∀ x, x ∈ l → P x) → filter P l = l.
Proof.
  intros Hl. induction l as [|x l IH]; [done|]. rewrite filter_cons, decide_True by (apply Hl; by left).
  f_equal. apply IH. intros y Hy. apply Hl. by right.
Qed.

Lemma StronglySorted_filter {A} (R : relation A) (P : A → Prop) `{∀ x, Decision (P x)} (l : list A) :
  StronglySorted R l → StronglySorted R (filter P l).
Proof.
  induction 1 as [|x l Hl IH Hx]; [constructor|]. rewrite filter_cons. case_decide; [|done].
  constructor; [done|]. rewrite Forall_forall in *. intros y [_ ?]%list_elem_of_filter. auto.
Qed.

(** ** Running a partial function on a list *)

Lemma mapM_exists {A B} (f : A → option B) (P : A → B → Prop) (l : list A) :
  Forall (λ x, ∃ y, f x = Some y ∧ P x y) l → ∃ k, mapM f l = Some k ∧ Forall2 P l k.
Proof.
  induction 1 as [|x l (y&Hy&HP) _ (k&Hk&HF)]; [by exists []|].
  exists (y :: k). split; [|by constructor]. apply mapM_Some_2. apply mapM_Some_1 in Hk. by constructor.
Qed.

Lemma mapM_fmap {A B C} (g : A → B) (f : B → option C) (l : list A) : mapM f (g <$> l) = mapM (λ x, f (g x)) l.
Proof. induction l as [|x l IH]; [done|]. cbn. by destruct (f (g x)); cbn; [rewrite IH|]. Qed.
