(* ===== verification/GoRandom.v ===== *)
(** * Random names and seeds: [randstring], [makeSeed] of the test harnesses

    The four harnesses have the same two functions.  [crypto/rand] is an argument:
    the bytes it fills a buffer with, the number below a bound it draws.  The
    URL encoding of [encoding/base64] is the standard library's.

    A name of [n] characters is worth [6 * n] random bits: names are equal exactly
    when those bits are, and every string over the alphabet is a name. *)

From Stdlib Require Import Ascii String.
From S2P Require Import Prelude.

Module GoRandom.

Notation byte := Byte.byte.
Definition b2z (b : byte) : Z := Z.of_N (Byte.to_N b).

(** ** [base64.URLEncoding] *)

Definition encodeURL : list ascii :=
  list_ascii_of_string "ABCDEFGHIJKLMNOPQRSTUVWXYZabcdefghijklmnopqrstuvwxyz0123456789-_".

(** [enc.encode[val>>s&0x3F]] *)
Definition pick (val s : Z) : ascii :=
  nth (Z.to_nat (Z.land (Z.shiftr val s) 63)) encodeURL "000"%char.

(** [EncodeToString]: four characters for three bytes, the last group padded. *)
Fixpoint EncodeToString (src : list byte) : list ascii :=
  match src with
  | b0 :: b1 :: b2 :: src =>
      let val := Z.lor (Z.lor (Z.shiftl (b2z b0) 16) (Z.shiftl (b2z b1) 8)) (b2z b2) in
      pick val 18 :: pick val 12 :: pick val 6 :: pick val 0 :: EncodeToString src
  | [b0; b1] =>
      let val := Z.lor (Z.shiftl (b2z b0) 16) (Z.shiftl (b2z b1) 8) in
      [pick val 18; pick val 12; pick val 6; "="%char]
  | [b0] =>
      let val := Z.shiftl (b2z b0) 16 in
      [pick val 18; pick val 12; "="%char; "="%char]
  | [] => []
  end.

(** ** The harnesses' functions *)

(** [fill] is what [crand.Read] puts into the buffer; a negative length panics. *)
Definition randstring (n : Z) (fill : nat → byte) : option string :=
  if n <? 0 then None else
  let b := fill <$> seq 0 (Z.to_nat (2 * n)) in
  let s := EncodeToString b in
  string_of_list_ascii <$> slice_to s n.

(** [crand.Int(crand.Reader, max)] draws a number below [max]; the conversion to
    [int64] wraps around. *)
Definition Int64 (x : Z) : Z := (x + 2 ^ 63) mod 2 ^ 64 - 2 ^ 63.
Definition makeSeed (draw : Z → Z) : Z :=
  let max := Z.shiftl 1 62 in
  let bigx := draw max in
  Int64 bigx.

(** The copies in the other packages; the clerks have theirs of [makeSeed]. *)
Definition kv_randstring : Z → (nat → byte) → option string := randstring.
Definition sc_randstring : Z → (nat → byte) → option string := randstring.
Definition skv_randstring : Z → (nat → byte) → option string := randstring.
Definition kv_makeSeed : (Z → Z) → Z := makeSeed.
Definition skv_makeSeed : (Z → Z) → Z := makeSeed.
Definition kv_nrand : (Z → Z) → Z := makeSeed.
Definition sc_nrand : (Z → Z) → Z := makeSeed.
Definition skv_nrand : (Z → Z) → Z := makeSeed.

(** ** Bits *)

(** The [i]-th bit of a sequence of bytes, the most significant bit of a byte first. *)
Definition bit (l : list byte) (i : nat) : bool := Z.testbit (b2z (nth (i / 8) l Byte.x00)) (7 - Z.of_nat (i mod 8)).

Lemma b2z_range b : 0 <= b2z b < 2 ^ 8.
Proof. unfold b2z. pose proof (Byte.to_N_bounded b). lia. Qed.

Lemma testbit_small x m k : 0 <= x < 2 ^ m → 0 <= m <= k → Z.testbit x k = false.
Proof.
  intros Hx Hk. destruct (decide (x = 0)) as [->|]; [apply Z.bits_0|]. apply Z.bits_above_log2; [lia|].
  apply Z.lt_le_trans with m; [|lia]. apply Z.log2_lt_pow2; lia.
Qed.

Lemma testbit_b2z_high b k : 8 <= k → Z.testbit (b2z b) k = false.
Proof. intros. apply (testbit_small _ 8); [apply b2z_range|lia]. Qed.

Lemma bit_skip a b c l i : bit (a :: b :: c :: l) (24 + i) = bit l i.
Proof.
  unfold bit. replace (24 + i)%nat with (i + 3 * 8)%nat by lia.
  rewrite Nat.div_add, Nat.Div0.mod_add by lia. by rewrite (Nat.add_comm _ 3).
Qed.

(** The six bits that [pick] reads decide the character. *)
Definition six (val s : Z) : Z := Z.land (Z.shiftr val s) 63.

Lemma six_range val s : 0 <= six val s < 64.
Proof. unfold six. rewrite (Z.land_ones _ 6) by lia. apply Z.mod_pos_bound. lia. Qed.

Lemma six_testbit val s k : 0 <= s → 0 <= k < 6 → Z.testbit (six val s) k = Z.testbit val (k + s).
Proof.
  intros Hs Hk. unfold six. rewrite (Z.land_ones _ 6), Z.mod_pow2_bits_low by lia. by rewrite Z.shiftr_spec by lia.
Qed.

Lemma six_eq x y : 0 <= x < 64 → 0 <= y < 64 → x = y ↔ ∀ k, 0 <= k < 6 → Z.testbit x k = Z.testbit y k.
Proof.
  intros Hx Hy. split; [by intros ->|]. intros Hk. apply Z.bits_inj'. intros k Hk0.
  destruct (decide (k < 6)); [by apply Hk|]. by rewrite !(testbit_small _ 6) by lia.
Qed.

Lemma encodeURL_NoDup : NoDup encodeURL.
Proof. apply (bool_decide_unpack _). vm_compute. done. Qed.

Lemma pick_lookup val s : encodeURL !! Z.to_nat (six val s) = Some (pick val s).
Proof.
  unfold pick. fold (six val s). pose proof (six_range val s).
  destruct (lookup_lt_is_Some_2 encodeURL (Z.to_nat (six val s))) as [a Ha]; [change (List.length encodeURL) with 64%nat; lia|].
  rewrite Ha. f_equal. symmetry. by apply nth_lookup_Some with (d := "000"%char) in Ha.
Qed.

Lemma pick_eq val s val' s' : pick val s = pick val' s' ↔ six val s = six val' s'.
Proof.
  split; [|by unfold pick, six; intros ->]. intros E. pose proof (pick_lookup val s) as H1. pose proof (pick_lookup val' s') as H2.
  rewrite E in H1. pose proof (NoDup_lookup _ _ _ _ encodeURL_NoDup H1 H2). pose proof (six_range val s). pose proof (six_range val' s'). lia.
Qed.

(** The characters of a string without padding, and the bits they stand for. *)
Definition spells (l : list byte) (j : nat) (a : ascii) : Prop :=
  ∃ val s, a = pick val s ∧ 0 <= s ∧ ∀ k, (k < 6)%nat → Z.testbit val (5 - Z.of_nat k + s) = bit l (6 * j + k).

Lemma spells_group l j val s : (j < 4)%nat → s = 18 - 6 * Z.of_nat j →
  (∀ i, (i < 6 * j + 6)%nat → Z.testbit val (23 - Z.of_nat i) = bit l i) → spells l j (pick val s).
Proof.
  intros Hj -> Hb. exists val, (18 - 6 * Z.of_nat j). split_and!; [done|lia|]. intros k Hk. rewrite <-Hb by lia. f_equal. lia.
Qed.

(** Up to three bytes put together. *)
Lemma group3_bits a b c l i : (i < 24)%nat →
  Z.testbit (Z.lor (Z.lor (Z.shiftl (b2z a) 16) (Z.shiftl (b2z b) 8)) (b2z c)) (23 - Z.of_nat i) = bit (a :: b :: c :: l) i.
Proof.
  intros Hi. unfold bit. rewrite !Z.lor_spec, !Z.shiftl_spec by lia.
  assert ((i < 8 ∨ 8 ≤ i < 16 ∨ 16 ≤ i < 24)%nat) as [H|[H|H]] by lia.
  - rewrite Nat.div_small, Nat.mod_small by lia. simpl. rewrite (testbit_b2z_high b), (testbit_b2z_high c), !orb_false_r by lia. f_equal. lia.
  - replace i with (i - 8 + 1 * 8)%nat by lia. rewrite Nat.div_add, Nat.Div0.mod_add, Nat.div_small, Nat.mod_small by lia. simpl.
    rewrite (Z.testbit_neg_r _ (_ - 16)), (testbit_b2z_high c), orb_false_r by lia. simpl. f_equal. lia.
  - replace i with (i - 16 + 2 * 8)%nat by lia. rewrite Nat.div_add, Nat.Div0.mod_add, Nat.div_small, Nat.mod_small by lia. simpl.
    rewrite !(Z.testbit_neg_r _ (_ - _)) by lia. simpl. f_equal. lia.
Qed.

Lemma group2_bits a b i : (i < 16)%nat →
  Z.testbit (Z.lor (Z.shiftl (b2z a) 16) (Z.shiftl (b2z b) 8)) (23 - Z.of_nat i) = bit [a; b] i.
Proof.
  intros Hi. pose proof (group3_bits a b Byte.x00 [] i) as E. change (b2z Byte.x00) with 0 in E. rewrite Z.lor_0_r in E.
  rewrite E by lia. unfold bit. assert (i / 8 < 2)%nat by (apply Nat.Div0.div_lt_upper_bound; lia).
  by destruct (i / 8)%nat as [|[|]]; [..|lia].
Qed.

Lemma spells_skip a b c l j x : spells l j x → spells (a :: b :: c :: l) (4 + j) x.
Proof.
  intros (val&s&->&Hs&Hb). exists val, s. split_and!; [done..|]. intros k Hk. rewrite Hb by done.
  replace (6 * (4 + j) + k)%nat with (24 + (6 * j + k))%nat by lia. by rewrite bit_skip.
Qed.

(** No character in the first half of the length comes near the padding. *)
Lemma Encode_spells l j : (2 * j + 2 ≤ List.length l)%nat → ∃ x, EncodeToString l !! j = Some x ∧ spells l j x.
Proof.
  remember (List.length l) as m eqn:Hm. revert l j Hm. induction (lt_wf m) as [m _ IH]. intros l j -> Hj.
  destruct l as [|a [|b [|c l]]]; simpl in Hj; [lia|lia|..].
  - assert (j = 0%nat) as -> by lia. eexists. split; [done|]. apply spells_group; [lia..|]. intros i Hi. apply group2_bits. lia.
  - destruct (decide (j < 4)%nat) as [Hj4|Hj4].
    + assert (∃ s, s = 18 - 6 * Z.of_nat j ∧ EncodeToString (a :: b :: c :: l) !! j = Some (pick (Z.lor (Z.lor (Z.shiftl (b2z a) 16) (Z.shiftl (b2z b) 8)) (b2z c)) s)) as (s&Hs&E)
        by (destruct j as [|[|[|[|]]]]; [by eexists..|lia]).
      eexists. split; [done|]. apply spells_group; [done..|]. intros i Hi. apply group3_bits. lia.
    + replace j with (4 + (j - 4))%nat by lia. destruct (IH (List.length l)) with (l := l) (j := (j - 4)%nat) as (x&Hx&Hs); [simpl; lia|done|lia|].
      exists x. split; [done|]. by apply spells_skip.
Qed.

Lemma spells_eq l l' j x x' : spells l j x → spells l' j x' → x = x' ↔ ∀ k, (k < 6)%nat → bit l (6 * j + k) = bit l' (6 * j + k).
Proof.
  intros (v&s&->&Hs&Hb) (v'&s'&->&Hs'&Hb'). rewrite pick_eq, six_eq by apply six_range. split; intros Hk k Hk'.
  - rewrite <-Hb, <-Hb' by done. rewrite <-!six_testbit by lia. apply Hk. lia.
  - rewrite !six_testbit by lia. specialize (Hk (Z.to_nat (5 - k))). rewrite <-Hb, <-Hb' in Hk by lia.
    by replace (5 - Z.of_nat (Z.to_nat (5 - k))) with k in Hk by lia; apply Hk; lia.
Qed.

(** ** Names *)

(** The [i]-th random bit. *)
Definition random_bit (fill : nat → byte) (i : nat) : bool := Z.testbit (b2z (fill (i / 8)%nat)) (7 - Z.of_nat (i mod 8)).

Lemma bit_filled fill m i : (i < 8 * m)%nat → bit (fill <$> seq 0 m) i = random_bit fill i.
Proof.
  intros Hi. unfold bit, random_bit. assert (i / 8 < m)%nat by (apply Nat.Div0.div_lt_upper_bound; lia).
  rewrite (nth_lookup_Some _ _ _ (fill (i / 8)%nat)); [done|]. rewrite list_lookup_fmap, lookup_seq_lt by done. done.
Qed.

Lemma randstring_spells n fill : 0 <= n → ∃ cs, randstring n fill = Some (string_of_list_ascii cs) ∧ len cs = n ∧
  ∀ j x, cs !! j = Some x → spells (fill <$> seq 0 (Z.to_nat (2 * n))) j x.
Proof.
  intros Hn. unfold randstring. rewrite (proj2 (Z.ltb_ge _ _)) by lia. set (l := fill <$> seq 0 (Z.to_nat (2 * n))).
  assert (Hl : List.length l = Z.to_nat (2 * n)) by (unfold l; by rewrite length_fmap, length_seq).
  assert (Hlen : n <= len (EncodeToString l)).
  { destruct (decide (n = 0)) as [->|]; [apply len_nonneg|]. destruct (Encode_spells l (Z.to_nat (n - 1))) as (x&Hx%lookup_lt_Some&_); [lia|]. unfold len. lia. }
  rewrite slice_to_in_range by lia. eexists. split; [done|]. split; [rewrite len_take; lia|].
  intros j x [Hx Hj]%lookup_take_Some. destruct (Encode_spells l j) as (y&Hy&?); [lia|]. by simplify_eq.
Qed.

Lemma spells_letter l j x : spells l j x → x ∈ encodeURL.
Proof. intros (val&s&->&_). eapply list_elem_of_lookup_2, pick_lookup. Qed.

(** A byte from its bits, the most significant first. *)
Definition byte_of (f : nat → bool) : byte :=
  Byte.of_bits (f 7%nat, (f 6%nat, (f 5%nat, (f 4%nat, (f 3%nat, (f 2%nat, (f 1%nat, f 0%nat))))))).

Lemma byte_of_bit f k : (k < 8)%nat → Z.testbit (b2z (byte_of f)) (7 - Z.of_nat k) = f k.
Proof.
  intros Hk. unfold byte_of. do 8 (destruct k as [|k]; [destruct (f 0%nat), (f 1%nat), (f 2%nat), (f 3%nat), (f 4%nat), (f 5%nat), (f 6%nat), (f 7%nat); reflexivity|]). lia.
Qed.

Lemma random_bits_exist (beta : nat → bool) : ∃ fill, ∀ i, random_bit fill i = beta i.
Proof.
  exists (λ m, byte_of (λ k, beta (8 * m + k)%nat)). intros i. unfold random_bit.
  rewrite byte_of_bit by (by apply Nat.mod_upper_bound). f_equal. by rewrite <-Nat.div_mod_eq.
Qed.

(** Every row of letters is spelled by some bits. *)
Lemma letters_spelled (cs : list ascii) : Forall (.∈ encodeURL) cs →
  ∃ beta : nat → bool, ∀ l j x, cs !! j = Some x → (∀ k, (k < 6)%nat → bit l (6 * j + k) = beta (6 * j + k)%nat) → spells l j x.
Proof.
  intros Hcs. set (code x := default 0%nat (fst <$> list_find (x =.) encodeURL)).
  exists (λ i, Z.testbit (Z.of_nat (code (nth (i / 6) cs "A"%char))) (5 - Z.of_nat (i mod 6))). intros l j x Hx Hb.
  assert (Hc : encodeURL !! code x = Some x).
  { rewrite Forall_lookup in Hcs. destruct (list_find_elem_of (x =.) encodeURL x (Hcs _ _ Hx) eq_refl) as [[i y] E].
    unfold code. rewrite E. simpl. by apply list_find_Some in E as (?&->&_). }
  assert (Hlt := lookup_lt_Some _ _ _ Hc). change (List.length encodeURL) with 64%nat in Hlt.
  assert (Hsix : six (Z.of_nat (code x)) 0 = Z.of_nat (code x)).
  { unfold six. rewrite Z.shiftr_0_r, (Z.land_ones _ 6) by lia. apply Z.mod_small. lia. }
  exists (Z.of_nat (code x)), 0. split_and!; [|lia|].
  - pose proof (pick_lookup (Z.of_nat (code x)) 0) as E. rewrite Hsix, Nat2Z.id in E. congruence.
  - intros k Hk. rewrite Hb, Z.add_0_r by done. replace (6 * j + k)%nat with (k + j * 6)%nat by lia.
    rewrite Nat.div_add, Nat.Div0.mod_add, Nat.div_small, Nat.mod_small by lia. simpl. by rewrite (nth_lookup_Some _ _ _ x).
Qed.

Lemma length_of_ascii cs : String.length (string_of_list_ascii cs) = List.length cs.
Proof. induction cs as [|c cs IH]; [done|]. simpl. by rewrite IH. Qed.

(** Two rows of as many characters are equal when the bits they spell are. *)
Lemma rows_eq n l l' cs cs' : len cs = n → len cs' = n → (∀ j x, cs !! j = Some x → spells l j x) → (∀ j x, cs' !! j = Some x → spells l' j x) →
  cs = cs' ↔ ∀ i, Z.of_nat i < 6 * n → bit l i = bit l' i.
Proof.
  intros Hn Hn' Hs Hs'. unfold len in *. split.
  - intros -> i Hi. assert (Hj : (i / 6 < List.length cs')%nat) by (apply Nat.Div0.div_lt_upper_bound; lia).
    apply lookup_lt_is_Some_2 in Hj as [x Hx]. pose proof (proj1 (spells_eq _ _ _ _ _ (Hs _ _ Hx) (Hs' _ _ Hx)) eq_refl (i mod 6)%nat) as E.
    rewrite <-Nat.div_mod_eq in E. apply E. by apply Nat.mod_upper_bound.
  - intros Hb. apply (list_eq_same_length _ _ (List.length cs)); [lia|done|]. intros j x y Hj Hx Hy.
    apply (spells_eq l l' j); [eauto..|]. intros k Hk. apply Hb. lia.
Qed.

(** C22: A name of [n] characters is worth [6 * n] random bits: [randstring] returns [n]
    letters of the URL alphabet, names are equal exactly when their first [6 * n]
    bits are, and every string of [n] letters is a name. *)
Theorem randstring_correct n : 0 <= n →
  (∀ fill, ∃ s, randstring n fill = Some s ∧ Z.of_nat (String.length s) = n ∧ Forall (.∈ encodeURL) (list_ascii_of_string s)) ∧
  (∀ fill fill', randstring n fill = randstring n fill' ↔ ∀ i, Z.of_nat i < 6 * n → random_bit fill i = random_bit fill' i) ∧
  (∀ s, Z.of_nat (String.length s) = n → Forall (.∈ encodeURL) (list_ascii_of_string s) → ∃ fill, randstring n fill = Some s).
Proof.
  intros Hn. set (l (fill : nat → byte) := fill <$> seq 0 (Z.to_nat (2 * n))).
  assert (Hl : ∀ (fill : nat → byte) i, Z.of_nat i < 6 * n → bit (l fill) i = random_bit fill i) by (intros; apply bit_filled; lia).
  split_and!.
  - intros fill. destruct (randstring_spells n fill Hn) as (cs&->&Hc&Hs). eexists. split; [done|].
    rewrite length_of_ascii, list_ascii_of_string_of_list_ascii. split; [done|]. apply Forall_lookup. intros j x ?%Hs. by eapply spells_letter.
  - intros fill fill'. destruct (randstring_spells n fill Hn) as (cs&->&Hc&Hs). destruct (randstring_spells n fill' Hn) as (cs'&->&Hc'&Hs').
    transitivity (cs = cs'); [split; [|by intros ->]|].
    + intros [= E]. apply (f_equal list_ascii_of_string) in E. by rewrite !list_ascii_of_string_of_list_ascii in E.
    + rewrite (rows_eq n _ _ _ _ Hc Hc' Hs Hs'). apply forall_proper. intros i. split; intros Hi Hlt; [rewrite <-!Hl by done; by apply Hi|]. fold (l fill) (l fill'). rewrite !Hl by done. by apply Hi.
  - intros s Hlen Hall. destruct (letters_spelled _ Hall) as [beta Hbeta]. destruct (random_bits_exist beta) as [fill Hfill].
    exists fill. destruct (randstring_spells n fill Hn) as (cs&->&Hc&Hs). f_equal. rewrite <-(string_of_list_ascii_of_string s). f_equal.
    rewrite <-(string_of_list_ascii_of_string s), length_of_ascii in Hlen.
    apply (rows_eq n (l fill) (l fill)); [done|done|done| |done]. intros j x Hx. apply Hbeta; [done|]. intros k Hk.
    apply lookup_lt_Some in Hx. rewrite Hl by lia. apply Hfill.
Qed.

(** Fifteen of the forty bytes decide a name of twenty characters. *)
Lemma randstring_correct_witness :
  let fill i := if (i <? 15)%nat then Byte.xff else Byte.x00 in
  let fill' i := if (i <? 15)%nat then Byte.xff else Byte.x61 in
  randstring 20 fill = Some "____________________" ∧ randstring 20 fill = randstring 20 fill' ∧
  ∃ f, randstring 5 f = Some "mr-o1".
Proof.
  intros fill fill'. split; [vm_compute; reflexivity|]. split.
  - apply (proj1 (proj2 (randstring_correct 20 ltac:(lia)))). intros i Hi. unfold random_bit.
    assert (i / 8 < 15)%nat by (apply Nat.Div0.div_lt_upper_bound; lia). unfold fill, fill'. by rewrite (proj2 (Nat.ltb_lt _ _)).
  - apply (proj2 (proj2 (randstring_correct 5 ltac:(lia)))); [done|]. apply (bool_decide_unpack _). vm_compute. done.
Defined.

(** The seed is below 2^62, so that nothing is lost in the conversion. *)
Lemma makeSeed_range draw : (∀ max, 0 < max → 0 <= draw max < max) → makeSeed draw = draw (2 ^ 62) ∧ 0 <= makeSeed draw < 2 ^ 62.
Proof.
  intros Hd. specialize (Hd (2 ^ 62) ltac:(lia)). unfold makeSeed, Int64. change (Z.shiftl 1 62) with (2 ^ 62).
  rewrite Z.mod_small by lia. lia.
Qed.
End GoRandom.
