(* ===== verification/GoStrconv.v ===== *)
(** * Numbers in strings: [strconv]

    Decimal digits and what the sources use of Go's [strconv]: [ParseInt] in base 10
    with 64 bits, [Atoi] with its fast path for short strings, [ParseBool].  Results
    come with their error, which the sources ignore. *)

From stdpp Require Import pretty.
From Stdlib Require Import Ascii.
From S2P Require Import Prelude.

Module GoStrconv.

(** ** Digits *)

Definition digit (a : ascii) : option N :=
  let n := N_of_ascii a in if (48 <=? n)%N && (n <=? 57)%N then Some (n - 48)%N else None.

Fixpoint digits (v : N) (s : string) : N * string :=
  match s with
  | String a s' => match digit a with Some d => digits (v * 10 + d)%N s' | None => (v, s) end
  | EmptyString => (v, s)
  end.

Lemma digit_char d : (d < 10)%N → digit (pretty_N_char d) = Some d.
Proof. intros H. assert (d = 0 ∨ d = 1 ∨ d = 2 ∨ d = 3 ∨ d = 4 ∨ d = 5 ∨ d = 6 ∨ d = 7 ∨ d = 8 ∨ d = 9)%N as Hd by lia. naive_solver. Qed.

Lemma digits_go x s : digits 0 (pretty_N_go x s) = digits x s.
Proof.
  revert s. induction (N.lt_wf_0 x) as [x _ IH]; intros s. destruct (decide (x = 0)%N) as [->|Hx]; [done|].
  rewrite pretty_N_go_step, IH by (lia || (apply N.div_lt; lia)). cbn [digits]. rewrite digit_char by (by apply N.mod_lt).
  f_equal. rewrite (N.div_mod x 10) at 3 by done. lia.
Qed.

Lemma go_app x s t : pretty_N_go x s +:+ t = pretty_N_go x (s +:+ t).
Proof.
  revert s. induction (N.lt_wf_0 x) as [x _ IH]; intros s. destruct (decide (x = 0)%N) as [->|Hx]; [done|].
  rewrite !(pretty_N_go_step x), IH by (lia || (apply N.div_lt; lia)). done.
Qed.

Lemma go_head x s : (0 < x)%N → ∃ a t d, pretty_N_go x s = String a t ∧ digit a = Some d.
Proof.
  revert s. induction (N.lt_wf_0 x) as [x _ IH]; intros s Hx. rewrite pretty_N_go_step by done.
  destruct (decide (x / 10 = 0)%N) as [E|E]; [|apply IH; [by apply N.div_lt|by apply N.neq_0_lt_0]].
  rewrite E, pretty_N_go_0. eexists _, _, _. split; [done|]. apply digit_char. by apply N.mod_lt.
Qed.

(** A number that is followed by something else. *)
Lemma all_digits_pretty (x : Z) t : 0 ≤ x → (∀ a t', t = String a t' → digit a = None) → digits 0 (pretty x +:+ t) = (Z.to_N x, t).
Proof.
  intros Hx Ht. assert (Hend : ∀ v, digits v t = (v, t)).
  { intros v. destruct t as [|a t']; [done|]. cbn [digits]. by rewrite (Ht a t' eq_refl). }
  destruct x as [|x|x]; [|replace (pretty (Zpos x)) with (pretty_N_go (Npos x) "") by done|lia].
  - cbn. apply Hend.
  - rewrite go_app, digits_go. apply Hend.
Qed.

Lemma string_app_nil (s : string) : s +:+ "" = s.
Proof. induction s as [|a s IH]; [done|]. change (String a (s +:+ "") = String a s). by rewrite IH. Qed.

(** ** [ParseInt], [Atoi], [ParseBool] *)

Inductive NumError := ErrSyntax | ErrRange.

Definition maxUint64 : Z := 2 ^ 64 - 1.

(** The loop of [ParseUint]; [n * 10] cannot overflow below the cutoff. *)
Fixpoint uint_loop (n : Z) (s : string) : Z * option NumError :=
  match s with
  | EmptyString => (n, None)
  | String a s =>
      match digit a with
      | None => (0, Some ErrSyntax)
      | Some d =>
          if n >=? maxUint64 / 10 + 1 then (maxUint64, Some ErrRange)
          else
            let n := n * 10 in
            let n1 := (n + Z.of_N d) mod 2 ^ 64 in
            if (n1 <? n) || (n1 >? maxUint64) then (maxUint64, Some ErrRange) else uint_loop n1 s
      end
  end.
Definition ParseUint (s : string) : Z * option NumError :=
  match s with EmptyString => (0, Some ErrSyntax) | _ => uint_loop 0 s end.

(** The sign, and the rest. *)
Definition sign (s : string) : bool * string :=
  match s with String "-" s => (true, s) | String "+" s => (false, s) | s => (false, s) end.

Definition ParseInt (s : string) : Z * option NumError :=
  let '(neg, s) := sign s in
  match ParseUint s with
  | (_, Some ErrSyntax) => (0, Some ErrSyntax)
  | (un, _) =>
      let cutoff := 2 ^ 63 in
      if negb neg && (un >=? cutoff) then (cutoff - 1, Some ErrRange)
      else if neg && (un >? cutoff) then (- cutoff, Some ErrRange)
      else (if neg then - un else un, None)
  end.

(** The fast path of [Atoi]. *)
Fixpoint atoi_loop (n : Z) (s : string) : Z * option NumError :=
  match s with
  | EmptyString => (n, None)
  | String a s => match digit a with None => (0, Some ErrSyntax) | Some d => atoi_loop (n * 10 + Z.of_N d) s end
  end.
Definition Atoi (s : string) : Z * option NumError :=
  if (0 <? String.length s)%nat && (String.length s <? 19)%nat then
    let '(neg, s) := sign s in
    match s with
    | EmptyString => (0, Some ErrSyntax)
    | _ => match atoi_loop 0 s with (n, None) => (if neg then - n else n, None) | r => r end
    end
  else ParseInt s.

(** The result, and whether the string is one of the spellings. *)
Definition ParseBool (s : string) : bool * bool :=
  if bool_decide (s ∈ ["1"; "t"; "T"; "true"; "TRUE"; "True"]) then (true, true)
  else if bool_decide (s ∈ ["0"; "f"; "F"; "false"; "FALSE"; "False"]) then (false, true)
  else (false, false).

(** ** Facts *)

Lemma uint_loop_range s n : 0 <= n <= maxUint64 → 0 <= (uint_loop n s).1 <= maxUint64.
Proof.
  revert n. induction s as [|a s IH]; intros n Hn; simpl; [done|]. destruct (digit a) as [d|]; [|simpl; unfold maxUint64; lia].
  destruct (n >=? _); [simpl; unfold maxUint64; lia|]. pose proof (Z.mod_pos_bound (n * 10 + Z.of_N d) (2 ^ 64) ltac:(lia)).
  destruct (_ || _); [simpl; unfold maxUint64; lia|]. apply IH. unfold maxUint64. lia.
Qed.

Lemma ParseInt_range s : - 2 ^ 63 <= (ParseInt s).1 < 2 ^ 63.
Proof.
  unfold ParseInt. destruct (sign s) as [neg s']. assert (Hr : 0 <= (ParseUint s').1 <= maxUint64).
  { unfold ParseUint. destruct s' eqn:E; [simpl; unfold maxUint64; lia|]. rewrite <-E. apply uint_loop_range. unfold maxUint64. lia. }
  destruct (ParseUint s') as [un [[]|]]; simpl in Hr |- *; [lia|..]; destruct neg; simpl;
    destruct (Z.geb_spec un (2 ^ 63)), (Z.gtb_spec un (2 ^ 63)); simpl; lia.
Qed.

(** All digits, and a value that fits. *)
Lemma digits_ge v s : (v ≤ (digits v s).1)%N.
Proof.
  revert v. induction s as [|a s IH]; intros v; simpl; [lia|]. destruct (digit a) as [d|]; simpl; [|lia]. etrans; [|apply IH]. lia.
Qed.

Lemma digit_small a d : digit a = Some d → (d < 10)%N.
Proof. unfold digit. intros E. case_match eqn:Ec; simplify_eq. apply andb_true_iff in Ec as [H1%N.leb_le H2%N.leb_le]. lia. Qed.

Lemma uint_loop_digits s v w : digits v s = (w, "") → Z.of_N w <= maxUint64 → uint_loop (Z.of_N v) s = (Z.of_N w, None).
Proof.
  unfold maxUint64. revert v. induction s as [|a s IH]; intros v E Hw; simpl in *; [by simplify_eq|].
  destruct (digit a) as [d|] eqn:Ed; [|done]. pose proof (digits_ge (v * 10 + d) s) as Hge. rewrite E in Hge. simpl in Hge.
  change (maxUint64 / 10 + 1) with 1844674407370955162. change maxUint64 with 18446744073709551615.
  destruct (Z.geb_spec (Z.of_N v) 1844674407370955162); [lia|].
  rewrite Z.mod_small by lia. destruct (Z.ltb_spec (Z.of_N v * 10 + Z.of_N d) (Z.of_N v * 10)); [lia|].
  destruct (Z.gtb_spec (Z.of_N v * 10 + Z.of_N d) 18446744073709551615); [lia|]. simpl. replace (Z.of_N v * 10 + Z.of_N d) with (Z.of_N (v * 10 + d)) by lia. by apply IH.
Qed.

Lemma sign_digit a s d : digit a = Some d → sign (String a s) = (false, String a s).
Proof. intros H. unfold sign. destruct a as [[] [] [] [] [] [] [] []]; try done; by vm_compute in H. Qed.

Lemma sign_pretty z : sign (pretty z) = (z <? 0, pretty (Z.abs z)).
Proof.
  destruct z as [|p|p]; [done| |done]. change (pretty (Zpos p)) with (pretty_N_go (Npos p) "").
  destruct (go_head (Npos p) "") as (a&t&d&E&Ed); [lia|].
  change (sign (pretty_N_go (Npos p) "") = (false, pretty_N_go (Npos p) "")). rewrite E. by eapply sign_digit.
Qed.

Lemma ParseUint_pretty z : 0 <= z <= maxUint64 → ParseUint (pretty z) = (z, None).
Proof.
  intros Hz. assert (Hd : digits 0 (pretty z) = (Z.to_N z, "")) by (rewrite <-(string_app_nil (pretty z)); apply all_digits_pretty; [lia|done]).
  unfold ParseUint. destruct (pretty z) as [|a t] eqn:E.
  - exfalso. destruct z as [|p|p]; [done| |lia]. change (pretty (Zpos p)) with (pretty_N_go (Npos p) "") in E.
    destruct (go_head (Npos p) "") as (?&?&?&E'&_); [lia|]. congruence.
  - pose proof (uint_loop_digits _ _ _ Hd) as Hu. rewrite Z2N.id in Hu by lia. apply Hu. lia.
Qed.

(** Numbers are read as they are printed. *)
Lemma ParseInt_pretty z : - 2 ^ 63 <= z < 2 ^ 63 → ParseInt (pretty z) = (z, None).
Proof.
  intros Hz. unfold ParseInt. rewrite sign_pretty. unfold maxUint64. rewrite ParseUint_pretty by (unfold maxUint64; lia).
  destruct (Z.ltb_spec z 0); simpl.
  - destruct (Z.gtb_spec (Z.abs z) (2 ^ 63)); [lia|]. f_equal. lia.
  - destruct (Z.geb_spec (Z.abs z) (2 ^ 63)); [lia|]. f_equal. lia.
Qed.

(** The fast path computes what [ParseInt] does: eighteen digits fit. *)
Lemma atoi_uint s n k : 0 <= n < 10 ^ Z.of_nat k → (String.length s + k <= 18)%nat → atoi_loop n s = uint_loop n s ∧ 0 <= (atoi_loop n s).1 < 10 ^ 18.
Proof.
  revert n k. induction s as [|a s IH]; intros n k Hn Hk; simpl in *.
  { split; [done|]. assert (10 ^ Z.of_nat k <= 10 ^ 18) by (apply Z.pow_le_mono_r; lia). lia. }
  destruct (digit a) as [d|] eqn:Ed; [|done]. apply digit_small in Ed. assert (10 ^ Z.of_nat k <= 10 ^ 17) by (apply Z.pow_le_mono_r; lia).
  change (maxUint64 / 10 + 1) with 1844674407370955162. change maxUint64 with 18446744073709551615.
  destruct (Z.geb_spec n 1844674407370955162); [lia|].
  rewrite Z.mod_small by lia. destruct (Z.ltb_spec (n * 10 + Z.of_N d) (n * 10)); [lia|].
  destruct (Z.gtb_spec (n * 10 + Z.of_N d) 18446744073709551615); [lia|]. simpl. apply (IH _ (S k)); [|lia].
  rewrite Nat2Z.inj_succ, Z.pow_succ_r by lia. lia.
Qed.

Lemma sign_length s : (String.length (sign s).2 <= String.length s)%nat.
Proof. destruct s as [|[[] [] [] [] [] [] [] []] s]; simpl; lia. Qed.

Lemma atoi_error s n m e : atoi_loop n s = (m, Some e) → m = 0 ∧ e = ErrSyntax.
Proof. revert n. induction s as [|a s IH]; intros n E; simpl in E; [done|]. destruct (digit a); [eauto|by simplify_eq]. Qed.

Lemma Atoi_ParseInt s : Atoi s = ParseInt s.
Proof.
  unfold Atoi, ParseInt. destruct (_ && _) eqn:El; [|done]. apply andb_true_iff in El as [_ El%Nat.ltb_lt]. pose proof (sign_length s) as Hl.
  destruct (sign s) as [neg s']. simpl in Hl. unfold ParseUint. destruct s' as [|a s']; [done|].
  destruct (atoi_uint (String a s') 0 0) as [<- Hr]; [lia|lia|].
  destruct (atoi_loop 0 (String a s')) as [n [e|]] eqn:Eu; [by apply atoi_error in Eu as [-> ->]|]. simpl in Hr.
  destruct neg; simpl; [destruct (Z.gtb_spec n (2 ^ 63))|destruct (Z.geb_spec n (2 ^ 63))]; first [reflexivity | exfalso; lia].
Qed.

Lemma ParseBool_spelled b : (ParseBool (if b : bool then "true" else "false")).1 = b.
Proof. by destruct b. Qed.
End GoStrconv.
