(* ===== verification/GoProcess.v ===== *)
(** * Programs that may end

    What a command does with its arguments: it runs on, leaves with a status and a
    message, or panics.  Also the debugging output of the servers. *)

From S2P Require Import Prelude.

Module GoProcess.

Inductive Outcome (A : Type) :=
  | Goes (a : A)                           (* runs on *)
  | Exits (status : Z) (message : string)  (* [os.Exit], [log.Fatal] *)
  | Panics.
Arguments Goes {A} _. Arguments Exits {A} _ _. Arguments Panics {A}.

#[export] Instance Outcome_ret : MRet Outcome := λ A, Goes.
#[export] Instance Outcome_bind : MBind Outcome := λ A B f m,
  match m with Goes a => f a | Exits st msg => Exits st msg | Panics => Panics end.

Definition Fatalf {A} (message : string) : Outcome A := Exits 1 message.

Definition or_fatal {A} (o : option A) (message : string) : Outcome A :=
  match o with Some a => Goes a | None => Fatalf message end.

Lemma Outcome_bind_Goes {A B} (m : Outcome A) (f : A → Outcome B) b : (m ≫= f) = Goes b → ∃ a, m = Goes a ∧ f a = Goes b.
Proof. destruct m; simpl; [eauto|done..]. Qed.

(** ** Debugging output: [raft/util.go], and the copy in [kvraft/server.go] *)

Definition Debug : bool := false.
(** [out] is what has been logged so far. *)
Definition DPrintf (line : string) (out : list string) : list string := if Debug then out ++ [line] else out.
Definition kv_DPrintf : string → list string → list string := DPrintf.
End GoProcess.
