(* ===== verification/Commands.v ===== *)
(** * The service commands: [main/diskvd.go], [lockc.go], [lockd.go], [pbc.go], [pbd.go], [viewd.go]

    The services they start or talk to ([diskv], [lockservice], [pbservice],
    [viewservice]) are not part of the repository: they are parameters.  What is
    modelled is what each command makes of its arguments.

    [diskvd] reads options in pairs and checks what it has read.  Numbers that do not
    parse are not reported: [strconv] returns zero, or the nearest number, with an
    error the program ignores. *)

From stdpp Require Import pretty.
From Stdlib Require Import Ascii.
From S2P Require Import Prelude GoStrconv GoProcess.

Module Commands.
Import GoStrconv.
Export GoProcess.

Definition newline : string := String "010" "".

(** ** [diskvd] *)

Record Diskvd := mkDiskvd {
  gid : Z; masters : list string; replicas : list string; me : Z; unreliable : bool; dir : string; restart : bool
}.
Definition set_gid v f := mkDiskvd v (masters f) (replicas f) (me f) (unreliable f) (dir f) (restart f).
Definition set_masters v f := mkDiskvd (gid f) v (replicas f) (me f) (unreliable f) (dir f) (restart f).
Definition set_replicas v f := mkDiskvd (gid f) (masters f) v (me f) (unreliable f) (dir f) (restart f).
Definition set_me v f := mkDiskvd (gid f) (masters f) (replicas f) v (unreliable f) (dir f) (restart f).
Definition set_unreliable v f := mkDiskvd (gid f) (masters f) (replicas f) (me f) v (dir f) (restart f).
Definition set_dir v f := mkDiskvd (gid f) (masters f) (replicas f) (me f) (unreliable f) v (restart f).
Definition set_restart v f := mkDiskvd (gid f) (masters f) (replicas f) (me f) (unreliable f) (dir f) v.

Definition diskvd_usage {A} : Outcome A :=
  Exits 1 ("Usage: diskvd -g gid -m master... -s server... -i my-index -d dir" +:+ newline).

Definition diskvd_init : Diskvd := mkDiskvd (-1) [] [] (-1) false "" false.

(** One option. *)
Definition diskvd_option (a0 a1 : string) (f : Diskvd) : Outcome Diskvd :=
  if String.eqb a0 "-g" then Goes (set_gid (ParseInt a1).1 f)
  else if String.eqb a0 "-m" then Goes (set_masters (masters f ++ [a1]) f)
  else if String.eqb a0 "-s" then Goes (set_replicas (replicas f ++ [a1]) f)
  else if String.eqb a0 "-i" then Goes (set_me (Atoi a1).1 f)
  else if String.eqb a0 "-u" then Goes (set_unreliable (ParseBool a1).1 f)
  else if String.eqb a0 "-d" then Goes (set_dir a1 f)
  else if String.eqb a0 "-r" then Goes (set_restart (ParseBool a1).1 f)
  else diskvd_usage.

(** The loop, from [Args[i]] on; an argument without a value is ignored. *)
Fixpoint diskvd_options (args : list string) (f : Diskvd) : Outcome Diskvd :=
  match args with
  | a0 :: a1 :: args => f ← diskvd_option a0 a1 f; diskvd_options args f
  | _ => Goes f
  end.

Definition diskvd_bad (f : Diskvd) : bool :=
  (gid f <? 0) || (me f <? 0) || (len (masters f) <? 1) || (me f >=? len (replicas f)) || String.eqb (dir f) "".

(** [main] up to the ten minutes' sleep: the arguments of [diskv.StartServer], and
    the one of [Setunreliable]. *)
Definition diskvd_main (Args : list string) : Outcome Diskvd :=
  f ← diskvd_options (drop 1 Args) diskvd_init;
  if diskvd_bad f then diskvd_usage else Goes f.

(** ** The lock service *)

Section Lock.
Context {Clerk World Server : Type}.
Context (MakeClerk : string → string → Clerk) (Lock Unlock : Clerk → string → World → bool * World).
Context (StartServer : string → string → bool → Server).

Definition lockc_usage {A} : Outcome A := Exits 1 ("Usage: lockc -l|-u primaryport backupport lockname" +:+ newline).

(** What [lockc] prints, and the service after it. *)
Definition lockc_main (Args : list string) (w : World) : Outcome (string * World) :=
  match Args with
  | [_; a1; a2; a3; a4] =>
      let ck := MakeClerk a2 a3 in
      '(ok, w) ← (if String.eqb a1 "-l" then Goes (Lock ck a4 w) else if String.eqb a1 "-u" then Goes (Unlock ck a4 w) else lockc_usage);
      Goes ("reply: " +:+ (if ok : bool then "true" else "false") +:+ newline, w)
  | _ => lockc_usage
  end.

(** The server that [lockd] starts before it sleeps for ever. *)
Definition lockd_main (Args : list string) : Outcome Server :=
  match Args with
  | [_; a1; a2; a3] =>
      if String.eqb a1 "-p" then Goes (StartServer a2 a3 true)
      else if String.eqb a1 "-b" then Goes (StartServer a2 a3 false)
      else Exits 1 ("Usage: lockd -p|-b primaryport backupport" +:+ newline)
  | _ => Exits 1 ("Usage: lockd -p|-b primaryport backupport" +:+ newline)
  end.
End Lock.

(** ** The primary/backup service *)

Section Pb.
Context {Clerk World Server ViewServer : Type}.
Context (MakeClerk : string → string → Clerk) (Get : Clerk → string → World → string * World) (Put : Clerk → string → string → World → World).
Context (StartServer : string → string → Server) (StartView : string → ViewServer).

(** What [pbc] prints, and the service after it. *)
Definition pbc_main (Args : list string) (w : World) : Outcome (string * World) :=
  match Args with
  | [_; view; key] => let ck := MakeClerk view "" in let '(v, w) := Get ck key w in Goes (v +:+ newline, w)
  | [_; view; key; value] => let ck := MakeClerk view "" in Goes ("", Put ck key value w)
  | _ => Exits 1 ("Usage: pbc viewport key" +:+ newline +:+ "       pbc viewport key value" +:+ newline)
  end.

Definition pbd_main (Args : list string) : Outcome Server :=
  match Args with
  | [_; view; port] => Goes (StartServer view port)
  | _ => Exits 1 ("Usage: pbd viewport myport" +:+ newline)
  end.

Definition viewd_main (Args : list string) : Outcome ViewServer :=
  match Args with
  | [_; port] => Goes (StartView port)
  | _ => Exits 1 ("Usage: viewd port" +:+ newline)
  end.
End Pb.

(** ** Command lines of [diskvd] *)

Inductive DiskvdOption :=
  | OptG (v : Z) | OptM (port : string) | OptS (port : string) | OptI (v : Z) | OptU (b : bool) | OptD (d : string) | OptR (b : bool).

Definition spell (b : bool) : string := if b then "true" else "false".

(** The option as it is written. *)
Definition written (o : DiskvdOption) : list string :=
  match o with
  | OptG v => ["-g"; pretty v] | OptM p => ["-m"; p] | OptS p => ["-s"; p] | OptI v => ["-i"; pretty v]
  | OptU b => ["-u"; spell b] | OptD d => ["-d"; d] | OptR b => ["-r"; spell b]
  end.

Definition fits (o : DiskvdOption) : Prop := match o with OptG v | OptI v => - 2 ^ 63 <= v < 2 ^ 63 | _ => True end.

(** What a list of options means: the last value of each kind, and all the ports. *)
Definition meaning (os : list DiskvdOption) : Diskvd := {|
  gid := default (-1) (last (omap (λ o, match o with OptG v => Some v | _ => None end) os));
  masters := omap (λ o, match o with OptM p => Some p | _ => None end) os;
  replicas := omap (λ o, match o with OptS p => Some p | _ => None end) os;
  me := default (-1) (last (omap (λ o, match o with OptI v => Some v | _ => None end) os));
  unreliable := default false (last (omap (λ o, match o with OptU b => Some b | _ => None end) os));
  dir := default "" (last (omap (λ o, match o with OptD d => Some d | _ => None end) os));
  restart := default false (last (omap (λ o, match o with OptR b => Some b | _ => None end) os))
|}.

Lemma diskvd_options_app o args f f' : diskvd_options (written o) f = Goes f' → diskvd_options (written o ++ args) f = diskvd_options args f'.
Proof. destruct o; simpl; by intros [= <-]. Qed.

(** Reading one more option. *)
Lemma meaning_snoc os o : fits o → diskvd_options (written o) (meaning os) = Goes (meaning (os ++ [o])).
Proof.
  intros Hf. destruct o; cbn -[ParseInt Atoi ParseBool pretty]; unfold meaning; rewrite ?Atoi_ParseInt, ?ParseInt_pretty by done;
    rewrite !omap_app; simpl; rewrite ?app_nil_r, ?last_snoc; try done; by destruct b.
Qed.

Lemma options_meaning os : ∀ os0, Forall fits os → diskvd_options (concat (written <$> os)) (meaning os0) = Goes (meaning (os0 ++ os)).
Proof.
  induction os as [|o os IH]; intros os0 Hf; csimpl; [by rewrite app_nil_r|]. inversion_clear Hf.
  rewrite (diskvd_options_app _ _ _ (meaning (os0 ++ [o]))) by (by apply meaning_snoc). rewrite IH by done. by rewrite <-app_assoc.
Qed.

(** Complete, and within bounds. *)
Definition complete (f : Diskvd) : Prop := 0 <= gid f ∧ 0 <= me f < len (replicas f) ∧ masters f ≠ [] ∧ dir f ≠ "".

#[export] Instance complete_dec f : Decision (complete f).
Proof. unfold complete. apply _. Defined.

Lemma diskvd_bad_iff f : diskvd_bad f = false ↔ complete f.
Proof.
  unfold diskvd_bad, complete. rewrite !orb_false_iff, !Z.ltb_ge, Z.geb_leb, Z.leb_gt, String.eqb_neq.
  assert (masters f ≠ [] ↔ 1 <= len (masters f)) as ->; [|intuition lia]. destruct (masters f); unfold len; simpl; split; (done || lia).
Qed.

(** [diskvd] reads its options as they were meant, in whatever order they are
    written and however often: it starts the server they describe if the description
    is complete and within bounds, and shows its usage otherwise. *)
Theorem diskvd_reads_options prog os : Forall fits os →
  diskvd_main (prog :: concat (written <$> os)) = if bool_decide (complete (meaning os)) then Goes (meaning os) else diskvd_usage.
Proof.
  intros Hf. unfold diskvd_main. change (drop 1 (prog :: concat (written <$> os))) with (concat (written <$> os)).
  pose proof (options_meaning os [] Hf) as E. change (meaning []) with diskvd_init in E. rewrite E. cbn [mbind Outcome_bind app].
  destruct (bool_decide_reflect (complete (meaning os))) as [Hv%diskvd_bad_iff|Hv]; [by rewrite Hv|].
  destruct (diskvd_bad (meaning os)) eqn:Eb; [done|]. by apply diskvd_bad_iff in Eb.
Qed.

Lemma diskvd_reads_options_witness :
  let os := [OptD "/tmp/d"; OptG 100; OptM "m1"; OptS "s1"; OptS "s2"; OptI 1; OptG 101; OptU true; OptM "m2"] in
  diskvd_main ("diskvd" :: concat (written <$> os)) = Goes (mkDiskvd 101 ["m1"; "m2"] ["s1"; "s2"] 1 true "/tmp/d" false).
Proof. intros os. apply (diskvd_reads_options "diskvd" os). repeat (apply Forall_cons; split; [simpl; (done || lia)|]). apply Forall_nil_2. Defined.

(** Whatever it is given, the server it starts is one of a group. *)
Lemma diskvd_starts_complete Args f : diskvd_main Args = Goes f → complete f.
Proof.
  unfold diskvd_main. intros (f'&_&E)%Outcome_bind_Goes. destruct (diskvd_bad f') eqn:Eb; [done|]. simplify_eq. by apply diskvd_bad_iff.
Qed.

(** A group number that is not a number is taken for group 0, and an index that is
    not a number for the first server. *)
Lemma diskvd_accepts_nonsense :
  diskvd_main ["diskvd"; "-g"; "one"; "-m"; "m"; "-s"; "s"; "-i"; "x"; "-d"; "/tmp"] = Goes (mkDiskvd 0 ["m"] ["s"] 0 false "/tmp" false).
Proof. reflexivity. Qed.
End Commands.
