(* ===== verification/RaftServer.v ===== *)
(** * One Raft peer: the state and the handlers of [raft/raft.go]

    Every method of [Raft] is a function on the record [Raft].  A critical
    section (the code between [rf.mu.Lock()] and the matching unlock) is one
    function; a method with several critical sections (an election, a heartbeat
    round) is one function per critical section plus a record for the variables
    its closures share.  [None] is a run-time panic.  Goroutines a method starts
    are returned as values of [Go]; [RaftCluster] schedules them.  The result of
    [rand.Intn] is an argument. *)

From S2P Require Import Prelude.

Module RaftServer.
Section Server.
Context {Cmd : Type}.

(** ** Data *)

(** The sentinel entry of [Make] has no command ([nil]). *)
Record LogEntry := mkLogEntry { le_Term : Z; le_Command : option Cmd }.

Inductive State := LEADER | FOLLOWER | CANDIDATE.

#[export] Instance State_eq_dec : EqDecision State.
Proof. solve_decision. Defined.

Record ApplyMsg := mkApplyMsg {
  CommandValid : bool;
  am_Command : option Cmd;
  CommandIndex : Z;
  SnapshotValid : bool;
  am_Snapshot : list Byte.byte;
  SnapshotTerm : Z;
  SnapshotIndex : Z
}.

(** A message with the command fields set and the zero values elsewhere. *)
Definition command_msg (command : option Cmd) (index : Z) : ApplyMsg :=
  mkApplyMsg true command index false [] 0 0.

(** [peers] is used through its length and as the target of RPCs only: it is
    the number of peers.  [electionTimeout] is the duration in milliseconds of
    the last armed timer, [None] for the nil pointer. *)
Record Raft := mkRaft {
  peers : Z;
  me : Z;
  dead : Z;
  currentTerm : Z;
  votedFor : Z;
  log : list LogEntry;
  state : State;
  electionTimeout : option Z;
  commitIndex : Z;
  lastApplied : Z;
  nextIndex : list Z;
  matchIndex : list Z;
  termToIndex : gmap Z Z
}.

Definition set_dead v rf := mkRaft (peers rf) (me rf) v (currentTerm rf) (votedFor rf) (log rf) (state rf) (electionTimeout rf) (commitIndex rf) (lastApplied rf) (nextIndex rf) (matchIndex rf) (termToIndex rf).
Definition set_currentTerm v rf := mkRaft (peers rf) (me rf) (dead rf) v (votedFor rf) (log rf) (state rf) (electionTimeout rf) (commitIndex rf) (lastApplied rf) (nextIndex rf) (matchIndex rf) (termToIndex rf).
Definition set_votedFor v rf := mkRaft (peers rf) (me rf) (dead rf) (currentTerm rf) v (log rf) (state rf) (electionTimeout rf) (commitIndex rf) (lastApplied rf) (nextIndex rf) (matchIndex rf) (termToIndex rf).
Definition set_log v rf := mkRaft (peers rf) (me rf) (dead rf) (currentTerm rf) (votedFor rf) v (state rf) (electionTimeout rf) (commitIndex rf) (lastApplied rf) (nextIndex rf) (matchIndex rf) (termToIndex rf).
Definition set_state v rf := mkRaft (peers rf) (me rf) (dead rf) (currentTerm rf) (votedFor rf) (log rf) v (electionTimeout rf) (commitIndex rf) (lastApplied rf) (nextIndex rf) (matchIndex rf) (termToIndex rf).
Definition set_electionTimeout v rf := mkRaft (peers rf) (me rf) (dead rf) (currentTerm rf) (votedFor rf) (log rf) (state rf) v (commitIndex rf) (lastApplied rf) (nextIndex rf) (matchIndex rf) (termToIndex rf).
Definition set_commitIndex v rf := mkRaft (peers rf) (me rf) (dead rf) (currentTerm rf) (votedFor rf) (log rf) (state rf) (electionTimeout rf) v (lastApplied rf) (nextIndex rf) (matchIndex rf) (termToIndex rf).
Definition set_lastApplied v rf := mkRaft (peers rf) (me rf) (dead rf) (currentTerm rf) (votedFor rf) (log rf) (state rf) (electionTimeout rf) (commitIndex rf) v (nextIndex rf) (matchIndex rf) (termToIndex rf).
Definition set_nextIndex v rf := mkRaft (peers rf) (me rf) (dead rf) (currentTerm rf) (votedFor rf) (log rf) (state rf) (electionTimeout rf) (commitIndex rf) (lastApplied rf) v (matchIndex rf) (termToIndex rf).
Definition set_matchIndex v rf := mkRaft (peers rf) (me rf) (dead rf) (currentTerm rf) (votedFor rf) (log rf) (state rf) (electionTimeout rf) (commitIndex rf) (lastApplied rf) (nextIndex rf) v (termToIndex rf).
Definition set_termToIndex v rf := mkRaft (peers rf) (me rf) (dead rf) (currentTerm rf) (votedFor rf) (log rf) (state rf) (electionTimeout rf) (commitIndex rf) (lastApplied rf) (nextIndex rf) (matchIndex rf) v.

(** Goroutines started by a method. *)
Inductive Go := go_HeartBeat | go_AttemptEletion.

Definition interval : Z := 200.

(** [rand.Intn n] on the random source [r]. *)
Definition Intn (n r : Z) : Z := r mod n.

(** ** Liveness flag and timer *)

Definition Kill (rf : Raft) : Raft := set_dead 1 rf.

Definition killed (rf : Raft) : bool := dead rf =? 1.

(** Re-arms the election timer; [r] is the random source. *)
Definition ticker (r : Z) (rf : Raft) : Raft :=
  if killed rf then rf
  else set_electionTimeout (Some (Intn (2 * interval) r + interval)) rf.

(** The callback of the timer armed by [ticker]. *)
Definition electionTimeout_fired (rf : Raft) : list Go :=
  if decide (state rf = LEADER) then [] else [go_AttemptEletion].

Definition GetState (rf : Raft) : Z * bool :=
  (currentTerm rf, bool_decide (state rf = LEADER)).

(** ** Role changes *)

Definition conevrtToCandidate (rf : Raft) : Raft :=
  set_votedFor (me rf) (set_currentTerm (currentTerm rf + 1) (set_state CANDIDATE rf)).

Definition conevrtToFollower (r term : Z) (rf : Raft) : Raft :=
  ticker r (set_votedFor (-1) (set_currentTerm term (set_state FOLLOWER rf))).

Definition conevrtToLeader (rf : Raft) : Raft * list Go :=
  (set_matchIndex (replicate (Z.to_nat (peers rf)) 0)
     (set_nextIndex (replicate (Z.to_nat (peers rf)) (len (log rf)))
        (set_state LEADER rf)),
   [go_HeartBeat]).

(** ** RPC messages *)

Record RequestVoteArgs := mkRequestVoteArgs {
  rva_Term : Z; rva_CandidateId : Z; rva_LastLogIndex : Z; rva_LastLogTerm : Z
}.

Record RequestVoteReply := mkRequestVoteReply { rvr_Term : Z; rvr_VoteGranted : bool }.

Record AppendEntriesArgs := mkAppendEntriesArgs {
  aea_Term : Z; aea_LeaderId : Z; aea_PrevLogIndex : Z; aea_PrevLogTerm : Z;
  aea_Entries : list LogEntry; aea_LeaderCommit : Z; aea_TermToIndex : gmap Z Z
}.

Record AppendEntriesReply := mkAppendEntriesReply { aer_Term : Z; aer_Success : bool }.

(** ** Elections *)

(** The variables shared by the reply handlers of one [AttemptEletion]. *)
Record Election := mkElection { el_args : RequestVoteArgs; votes : Z; el_done : bool }.

(** The peers a broadcast addresses: every index but [me]. *)
Definition others (rf : Raft) : list Z :=
  filter (λ i, i ≠ me rf) (seqZ 0 (peers rf)).

(** [AttemptEletion] up to the broadcast, and the final [ticker] call; the
    last component lists the peers that get a [RequestVote]. *)
Definition AttemptEletion (r : Z) (rf : Raft) : option (Raft * Election * list Z) :=
  let rf := conevrtToCandidate rf in
  lastEntry ← (log rf)@[len (log rf) - 1];
  let args := mkRequestVoteArgs (currentTerm rf) (me rf) (len (log rf) - 1) (le_Term lastEntry) in
  Some (ticker r rf, mkElection args 1 false, others rf).

(** The goroutine of [AttemptEletion] after its RPC returned [ok]. *)
Definition handleVoteReply (r : Z) (el : Election) (reply : RequestVoteReply) (rf : Raft)
  : Raft * Election * list Go :=
  if rvr_Term reply >? currentTerm rf then
    (conevrtToFollower r (rvr_Term reply) rf, el, [])
  else if negb (rvr_VoteGranted reply) then (rf, el, [])
  else
    let el := mkElection (el_args el) (votes el + 1) (el_done el) in
    if el_done el || (votes el <=? peers rf / 2) then (rf, el, [])
    else if (currentTerm rf =? rva_Term (el_args el)) && bool_decide (state rf = CANDIDATE) then
      let '(rf, gos) := conevrtToLeader rf in
      (rf, mkElection (el_args el) (votes el) true, gos)
    else (rf, el, []).

(** The up-to-date test of [RequestVote]. *)
Definition upToDate (args : RequestVoteArgs) (lastIndex lastTerm : Z) : bool :=
  (rva_LastLogTerm args >? lastTerm) ||
  ((rva_LastLogTerm args =? lastTerm) && (rva_LastLogIndex args >=? lastIndex)).

Definition RequestVote (r : Z) (args : RequestVoteArgs) (rf : Raft)
  : option (Raft * RequestVoteReply) :=
  if currentTerm rf >? rva_Term args then
    Some (rf, mkRequestVoteReply (currentTerm rf) false)
  else
    let rf := if currentTerm rf <? rva_Term args
              then set_votedFor (-1) (set_currentTerm (rva_Term args) rf) else rf in
    if negb (votedFor rf =? -1) && negb (votedFor rf =? rva_CandidateId args) then
      Some (rf, mkRequestVoteReply (currentTerm rf) false)
    else
      lastEntry ← (log rf)@[len (log rf) - 1];
      if upToDate args (len (log rf) - 1) (le_Term lastEntry) then
        Some (ticker r (set_votedFor (rva_CandidateId args) rf),
              mkRequestVoteReply (currentTerm rf) true)
      else
        (* the reply keeps its zero Term *)
        Some (rf, mkRequestVoteReply 0 false).

(** ** Log replication *)

Definition AppendEntries (r : Z) (args : AppendEntriesArgs) (rf : Raft)
  : option (Raft * AppendEntriesReply) :=
  if bool_decide (state rf ≠ FOLLOWER) then
    if currentTerm rf <=? aea_Term args then
      let rf := conevrtToFollower r (aea_Term args) rf in
      Some (rf, mkAppendEntriesReply (currentTerm rf) true)
    else Some (rf, mkAppendEntriesReply (currentTerm rf) false)
  else if currentTerm rf <=? aea_Term args then
    let rf := ticker r (set_currentTerm (aea_Term args) rf) in
    let index := aea_PrevLogIndex args in
    if len (log rf) <=? index then
      Some (rf, mkAppendEntriesReply (currentTerm rf) false)
    else
      e ← (log rf)@[index];
      if negb (le_Term e =? aea_PrevLogTerm args) then
        Some (rf, mkAppendEntriesReply (currentTerm rf) false)
      else
        pre ← slice_to (log rf) (index + 1);
        let rf := set_log (pre ++ aea_Entries args) rf in
        let rf := set_termToIndex (aea_TermToIndex args) rf in
        let rf :=
          if aea_LeaderCommit args >? commitIndex rf then
            if aea_LeaderCommit args <? len (log rf) - 1
            then set_commitIndex (aea_LeaderCommit args) rf
            else set_commitIndex (len (log rf) - 1) rf
          else rf in
        Some (rf, mkAppendEntriesReply (currentTerm rf) true)
  else Some (rf, mkAppendEntriesReply (currentTerm rf) false).

(** Appends a command at a leader; the result is (index, term, isLeader). *)
Definition Start (command : Cmd) (rf : Raft) : option (Raft * (Z * Z * bool)) :=
  let term := currentTerm rf in
  let index := len (log rf) - 1 in
  if bool_decide (state rf = LEADER) then
    lastEntry ← (log rf)@[len (log rf) - 1];
    let rf := if negb (currentTerm rf =? le_Term lastEntry)
              then set_termToIndex (<[currentTerm rf := len (log rf)]> (termToIndex rf)) rf
              else rf in
    let rf := set_log (log rf ++ [mkLogEntry (currentTerm rf) (Some command)]) rf in
    Some (rf, (index + 1, term, true))
  else Some (rf, (index, term, false)).

(** The variables shared by the goroutines of one round of [HeartBeat]. *)
Record Round := mkRound { hb_count : Z; hb_done : bool }.

(** One iteration of the [HeartBeat] loop up to the broadcast: [None] when the
    loop ends, otherwise the round and the peers it addresses. *)
Definition HeartBeat_iteration (rf : Raft) : option (Round * list Z) :=
  if killed rf then None
  else if bool_decide (state rf ≠ LEADER) then None
  else Some (mkRound 1 false, others rf).

(** First critical section of a heartbeat goroutine: the arguments for a peer. *)
Definition HeartBeat_args (index : Z) (rf : Raft) : option AppendEntriesArgs :=
  next ← (nextIndex rf)@[index];
  prev ← (log rf)@[next - 1];
  entries ← slice_from (log rf) next;
  Some (mkAppendEntriesArgs (currentTerm rf) (me rf) (next - 1) (le_Term prev)
          entries (commitIndex rf) (termToIndex rf)).

(** [for i := PrevLogTerm - 1; i > 0; i--]: the start of the latest earlier
    term the leader has entries of, 1 when there is none. *)
Fixpoint backoff (m : gmap Z Z) (i : nat) : Z :=
  match i with
  | O => 1
  | S i' => if map_get m (Z.of_nat i) =? 0 then backoff m i' else map_get m (Z.of_nat i)
  end.

(** Second critical section of a heartbeat goroutine, after the RPC returned
    [ok]. *)
Definition handleHeartBeatReply (r : Z) (rd : Round) (index : Z) (args : AppendEntriesArgs)
    (reply : AppendEntriesReply) (rf : Raft) : option (Raft * Round) :=
  if negb (aer_Success reply) then
    if aer_Term reply >? currentTerm rf then
      Some (conevrtToFollower r (aer_Term reply) rf, rd)
    else
      next ← upd (nextIndex rf) index
               (backoff (termToIndex rf) (Z.to_nat (aea_PrevLogTerm args - 1)));
      Some (set_nextIndex next rf, rd)
  else
    next ← upd (nextIndex rf) index (len (log rf));
    mtch ← upd (matchIndex rf) index (len (log rf) - 1);
    let rf := set_matchIndex mtch (set_nextIndex next rf) in
    let rd := mkRound (hb_count rd + 1) (hb_done rd) in
    if hb_done rd || (hb_count rd <=? peers rf / 2) then Some (rf, rd)
    else Some (set_commitIndex (len (log rf) - 1) rf, mkRound (hb_count rd) true).

(** ** Delivery to the service *)

(** One iteration of the [apply] loop: the message sent on [applyCh], if any. *)
Definition apply (rf : Raft) : option (Raft * option ApplyMsg) :=
  if killed rf then Some (rf, None)
  else if commitIndex rf >? lastApplied rf then
    let rf := set_lastApplied (lastApplied rf + 1) rf in
    e ← (log rf)@[lastApplied rf];
    Some (rf, Some (command_msg (le_Command e) (lastApplied rf)))
  else Some (rf, None).

(** ** Construction *)

(** The persistence hooks are empty in the source. *)
Definition persist (rf : Raft) : Raft := rf.
Definition readPersist (data : list Byte.byte) (rf : Raft) : Raft := rf.
Definition CondInstallSnapshot (lastIncludedTerm lastIncludedIndex : Z)
  (snapshot : list Byte.byte) (rf : Raft) : bool := true.
Definition Snapshot (index : Z) (snapshot : list Byte.byte) (rf : Raft) : Raft := rf.

(** [r] feeds the first [ticker]; [data] is what the persister holds. *)
Definition Make (r npeers i : Z) (data : list Byte.byte) : Raft :=
  ticker r (readPersist data
    (mkRaft npeers i 0 0 (-1) [mkLogEntry 0 None] FOLLOWER None 0 0 [] [] {[0 := 0]})).

End Server.
End RaftServer.

Arguments RaftServer.LogEntry : clear implicits.
Arguments RaftServer.Raft : clear implicits.
Arguments RaftServer.AppendEntriesArgs : clear implicits.
Arguments RaftServer.ApplyMsg : clear implicits.
