(* ===== verification/RaftServerFacts.v ===== *)
(** * Facts about the handlers of one Raft peer

    Field-by-field effects of each handler, the well-formedness of a log and
    its preservation, and the functional specification of voting, replication
    and delivery. *)

From S2P Require Import Prelude RaftServer.

Module RaftServerFacts.
Import RaftServer.

(** ** Fields the timer does not touch *)

Section Fields.
Context {Cmd : Type}.
Implicit Types rf : Raft Cmd.

Lemma ticker_frame r rf :
  ∃ t, ticker r rf = set_electionTimeout t rf.
Proof. unfold ticker. destruct (killed rf); [|eauto]. exists (electionTimeout rf). by destruct rf. Qed.

Lemma ticker_peers r rf : peers (ticker r rf) = peers rf.
Proof. by destruct (ticker_frame r rf) as [t ->]. Qed.
Lemma ticker_me r rf : me (ticker r rf) = me rf.
Proof. by destruct (ticker_frame r rf) as [t ->]. Qed.
Lemma ticker_dead r rf : dead (ticker r rf) = dead rf.
Proof. by destruct (ticker_frame r rf) as [t ->]. Qed.
Lemma ticker_currentTerm r rf : currentTerm (ticker r rf) = currentTerm rf.
Proof. by destruct (ticker_frame r rf) as [t ->]. Qed.
Lemma ticker_votedFor r rf : votedFor (ticker r rf) = votedFor rf.
Proof. by destruct (ticker_frame r rf) as [t ->]. Qed.
Lemma ticker_log r rf : log (ticker r rf) = log rf.
Proof. by destruct (ticker_frame r rf) as [t ->]. Qed.
Lemma ticker_state r rf : state (ticker r rf) = state rf.
Proof. by destruct (ticker_frame r rf) as [t ->]. Qed.
Lemma ticker_commitIndex r rf : commitIndex (ticker r rf) = commitIndex rf.
Proof. by destruct (ticker_frame r rf) as [t ->]. Qed.
Lemma ticker_lastApplied r rf : lastApplied (ticker r rf) = lastApplied rf.
Proof. by destruct (ticker_frame r rf) as [t ->]. Qed.
Lemma ticker_nextIndex r rf : nextIndex (ticker r rf) = nextIndex rf.
Proof. by destruct (ticker_frame r rf) as [t ->]. Qed.
Lemma ticker_matchIndex r rf : matchIndex (ticker r rf) = matchIndex rf.
Proof. by destruct (ticker_frame r rf) as [t ->]. Qed.
Lemma ticker_termToIndex r rf : termToIndex (ticker r rf) = termToIndex rf.
Proof. by destruct (ticker_frame r rf) as [t ->]. Qed.
End Fields.

Create HintDb raft.
#[export] Hint Rewrite @ticker_peers @ticker_me @ticker_dead @ticker_currentTerm
  @ticker_votedFor @ticker_log @ticker_state @ticker_commitIndex @ticker_lastApplied
  @ticker_nextIndex @ticker_matchIndex @ticker_termToIndex : raft.

(** Computes the fields of an updated peer. *)
Ltac raft_simpl :=
  unfold conevrtToFollower, conevrtToCandidate, conevrtToLeader, Kill in *;
  autorewrite with raft in *; simpl in *; autorewrite with raft in *; simpl in *.

(** Follows a handler that returned normally through its branches. *)
Ltac run_handler H :=
  repeat first
    [ progress simplify_eq
    | match type of H with
      | context [mbind _ ?e] => destruct e eqn:?; simpl in H; [|discriminate H]
      | context [if ?b then _ else _] => destruct b eqn:?
      end ];
  bools; raft_simpl.

(** ** Well-formed logs *)

Section Logs.
Context {Cmd : Type}.
Implicit Types l : list (LogEntry Cmd).

Definition terms l : list Z := le_Term <$> l.

(** The log starts with the sentinel entry of [Make], its terms never decrease
    and none is later than [T]. *)
Record log_ok (T : Z) l : Prop := {
  lo_head : terms l !! 0%nat = Some 0;
  lo_sorted : StronglySorted Z.le (terms l);
  lo_bound : Forall (λ t, t ≤ T) (terms l)
}.

Lemma StronglySorted_app_iff (l k : list Z) :
  StronglySorted Z.le (l ++ k) ↔
  StronglySorted Z.le l ∧ StronglySorted Z.le k ∧ (∀ x y, x ∈ l → y ∈ k → x ≤ y).
Proof.
  induction l as [|a l IH]; simpl.
  - split; [intros; split_and!; [constructor|done|set_solver]|tauto].
  - split.
    + intros H. inversion H as [|?? H1 H2]; subst. apply IH in H1 as (?&?&?).
      rewrite Forall_app, !Forall_forall in H2. destruct H2.
      split_and!; [constructor; [done|by apply Forall_forall]|done|set_solver].
    + intros (H&?&H'). inversion H as [|?? H1 H2]; subst. constructor.
      * apply IH. set_solver.
      * rewrite Forall_forall in *. set_solver.
Qed.

Lemma terms_app l k : terms (l ++ k) = terms l ++ terms k.
Proof. apply fmap_app. Qed.

Lemma log_ok_nonempty T l : log_ok T l → 0 < len l.
Proof. intros [H _ _]. destruct l as [|e l]; [done|]. rewrite len_cons. pose proof (len_nonneg l). lia. Qed.

Lemma log_ok_idx_last T l : log_ok T l → ∃ e, l@[len l - 1] = Some e ∧ last l = Some e ∧ le_Term e ≤ T.
Proof.
  intros H. pose proof (log_ok_nonempty _ _ H).
  destruct (idx_in_range l (len l - 1)) as [e He]; [lia|].
  exists e. rewrite <- idx_last. split_and!; [done..|].
  apply idx_elem_of in He. pose proof (lo_bound _ _ H) as Hb. rewrite Forall_forall in Hb.
  apply Hb. by apply list_elem_of_fmap_2.
Qed.

Lemma log_ok_mono T T' l : T ≤ T' → log_ok T l → log_ok T' l.
Proof. intros ? [? ? Hb]. split; [done..|]. eapply Forall_impl; [done|]. simpl. lia. Qed.

(** Every entry of a well-formed log is at most the last one. *)
Lemma log_ok_le_last T l e x : log_ok T l → last l = Some e → x ∈ l → le_Term x ≤ le_Term e.
Proof.
  intros [_ Hs _] [l' ->]%last_Some Hx. unfold terms in *.
  rewrite fmap_app in Hs. apply StronglySorted_app_iff in Hs as (_&_&Hle).
  apply elem_of_app in Hx as [Hx| ->%list_elem_of_singleton]; [|lia].
  apply Hle; [by apply list_elem_of_fmap_2|set_solver].
Qed.

Lemma log_ok_snoc T l c : log_ok T l → log_ok T (l ++ [mkLogEntry T c]).
Proof.
  intros H. pose proof (lo_bound _ _ H) as Hb. destruct H as [Hh Hs _].
  split; rewrite terms_app; simpl.
  - rewrite lookup_app_l; [done|]. by eapply lookup_lt_Some.
  - apply StronglySorted_app_iff. split_and!; [done|repeat constructor|].
    rewrite Forall_forall in Hb. set_solver.
  - apply Forall_app. split; [done|]. apply Forall_singleton. lia.
Qed.

Lemma log_ok_take T l n : (0 < n)%nat → log_ok T l → log_ok T (take n l).
Proof.
  intros ? [Hh Hs Hb]. unfold terms in *.
  rewrite <- (take_drop n l), fmap_app in Hs, Hb.
  apply StronglySorted_app_iff in Hs as (?&_&_). apply Forall_app in Hb as [? _].
  split; [|done..]. unfold terms. rewrite list_lookup_fmap, lookup_take_lt by lia.
  by rewrite <- list_lookup_fmap.
Qed.
End Logs.

(** ** Well-formed [AppendEntries] requests *)

Section Requests.
Context {Cmd : Type}.

Record ae_ok (args : AppendEntriesArgs Cmd) : Prop := {
  ao_prev : 0 ≤ aea_PrevLogIndex args;
  ao_sorted : StronglySorted Z.le (aea_PrevLogTerm args :: terms (aea_Entries args));
  ao_bound : Forall (λ t, t ≤ aea_Term args) (aea_PrevLogTerm args :: terms (aea_Entries args))
}.

(** A suffix of a well-formed log makes a well-formed request. *)
Lemma HeartBeat_args_ok i (rf : Raft Cmd) args :
  log_ok (currentTerm rf) (log rf) → HeartBeat_args i rf = Some args → ae_ok args.
Proof.
  intros [Hh Hs Hb] H. unfold HeartBeat_args in H. run_handler H.
  match goal with H : idx _ _ = Some ?e |- _ => rename H into Hi; rename e into prev end.
  match goal with H : slice_from _ _ = Some _ |- _ => apply slice_from_Some in H as [-> Hn] end.
  pose proof (idx_Some_range _ _ _ Hi) as Hr.
  assert (Hd : drop (Z.to_nat (z - 1)) (log rf) = prev :: drop (Z.to_nat z) (log rf)).
  { unfold idx in Hi. split_ifs; [|done].
    rewrite (drop_S _ _ _ Hi). do 2 f_equal. lia. }
  assert (Ht : terms (log rf) = terms (take (Z.to_nat (z - 1)) (log rf))
             ++ le_Term prev :: terms (drop (Z.to_nat z) (log rf))).
  { rewrite <- (take_drop (Z.to_nat (z - 1)) (log rf)) at 1. rewrite Hd, terms_app. done. }
  rewrite Ht in Hs, Hb. apply StronglySorted_app_iff in Hs as (_&?&_).
  apply Forall_app in Hb as [_ ?]. split; simpl; [lia|done..].
Qed.

(** Appending a well-formed request after the matching entry keeps the log
    well formed. *)
Lemma log_ok_append T (l : list (LogEntry Cmd)) e args :
  log_ok T l → ae_ok args → T ≤ aea_Term args →
  l@[aea_PrevLogIndex args] = Some e → le_Term e = aea_PrevLogTerm args →
  log_ok (aea_Term args) (take (Z.to_nat (aea_PrevLogIndex args + 1)) l ++ aea_Entries args).
Proof.
  intros Hl [Hp Hs Hb] HT Hi He.
  set (n := Z.to_nat (aea_PrevLogIndex args + 1)).
  assert (Hlast : last (take n l) = Some e).
  { unfold n. rewrite last_lookup, length_take. unfold idx in Hi. split_ifs; [|done].
    pose proof (lookup_lt_Some _ _ _ Hi). rewrite lookup_take_lt by lia. rewrite <- Hi. f_equal. lia. }
  pose proof (log_ok_take _ _ n ltac:(lia) Hl) as Ht.
  inversion Hs as [|?? Hs1 Hs2]; subst. apply Forall_cons in Hb as [Hb1 Hb2].
  pose proof (log_ok_mono _ _ _ HT Ht) as [Hh' Hs' Hb'].
  split; rewrite terms_app.
  - rewrite lookup_app_l; [done|]. by eapply lookup_lt_Some.
  - apply StronglySorted_app_iff. split_and!; [done..|].
    intros x y Hx Hy. apply list_elem_of_fmap in Hx as (x'&->&Hx').
    pose proof (log_ok_le_last _ _ _ _ Ht Hlast Hx').
    rewrite Forall_forall in Hs2. specialize (Hs2 y Hy). lia.
  - by apply Forall_app.
Qed.
End Requests.

(** ** Effects of the handlers *)

Section Handlers.
Context {Cmd : Type}.
Implicit Types rf : Raft Cmd.

(** What no handler changes. *)
Record same_peer rf rf' : Prop := {
  sp_peers : peers rf' = peers rf;
  sp_me : me rf' = me rf;
  sp_dead : dead rf' = dead rf
}.

Lemma RequestVote_spec r args rf rf' rep :
  RequestVote r args rf = Some (rf', rep) →
  same_peer rf rf' ∧ log rf' = log rf ∧ state rf' = state rf ∧
  commitIndex rf' = commitIndex rf ∧ lastApplied rf' = lastApplied rf ∧
  nextIndex rf' = nextIndex rf ∧ matchIndex rf' = matchIndex rf ∧
  termToIndex rf' = termToIndex rf ∧
  currentTerm rf' = Z.max (currentTerm rf) (rva_Term args) ∧
  if rvr_VoteGranted rep then
    currentTerm rf' = rva_Term args ∧ votedFor rf' = rva_CandidateId args ∧
    (currentTerm rf = rva_Term args → votedFor rf = -1 ∨ votedFor rf = rva_CandidateId args) ∧
    rvr_Term rep = rva_Term args ∧
    ∃ e, last (log rf) = Some e ∧ upToDate args (len (log rf) - 1) (le_Term e) = true
  else
    votedFor rf' = (if currentTerm rf <? rva_Term args then -1 else votedFor rf) ∧
    (rvr_Term rep = currentTerm rf' ∨ rvr_Term rep = 0).
Proof.
  intros H. unfold RequestVote in H. rewrite ?idx_last in H.
  destruct (Z.gtb_spec (currentTerm rf) (rva_Term args)).
  { simplify_eq. simpl. rewrite (proj2 (Z.ltb_ge _ _)) by lia.
    split_and!; try done; [lia|auto]. }
  set (rf0 := if currentTerm rf <? rva_Term args then _ else _) in H.
  assert (Hrf0 : same_peer rf rf0 ∧ log rf0 = log rf ∧ state rf0 = state rf ∧
     commitIndex rf0 = commitIndex rf ∧ lastApplied rf0 = lastApplied rf ∧
     nextIndex rf0 = nextIndex rf ∧ matchIndex rf0 = matchIndex rf ∧
     termToIndex rf0 = termToIndex rf ∧ currentTerm rf0 = rva_Term args ∧
     votedFor rf0 = (if currentTerm rf <? rva_Term args then -1 else votedFor rf)).
  { subst rf0. destruct (Z.ltb_spec (currentTerm rf) (rva_Term args)); simpl; split_and!; try done. lia. }
  clearbody rf0. destruct Hrf0 as ([? ? ?]&Hl&?&?&?&?&?&?&HT&Hv).
  run_handler H; rewrite ?Hl in *; split_and!; try done; try lia; try (split; raft_simpl; congruence).
  all: try (left; congruence).
  - intros E. destruct (Z.ltb_spec (currentTerm rf) (rva_Term args)); [lia|].
    match goal with H : _ && _ = false |- _ => apply andb_false_iff in H as [?|?] end; bools; lia.
  - eauto.
Qed.

(** The branches of [AppendEntries], each with its condition, the new state of
    the peer and the reply. *)
Definition accepted r args rf : Raft Cmd :=
  let l := take (Z.to_nat (aea_PrevLogIndex args + 1)) (log rf) ++ aea_Entries args in
  set_commitIndex
    (if commitIndex rf <? aea_LeaderCommit args
     then Z.min (aea_LeaderCommit args) (len l - 1) else commitIndex rf)
    (set_termToIndex (aea_TermToIndex args)
       (set_log l (ticker r (set_currentTerm (aea_Term args) rf)))).

Inductive AE_outcome r args rf : Raft Cmd → AppendEntriesReply → Prop :=
  | AE_stale :
      aea_Term args < currentTerm rf →
      AE_outcome r args rf rf (mkAppendEntriesReply (currentTerm rf) false)
  | AE_stepdown :
      state rf ≠ FOLLOWER → currentTerm rf ≤ aea_Term args →
      AE_outcome r args rf (conevrtToFollower r (aea_Term args) rf)
        (mkAppendEntriesReply (aea_Term args) true)
  | AE_mismatch :
      state rf = FOLLOWER → currentTerm rf ≤ aea_Term args →
      (∀ e, (log rf)@[aea_PrevLogIndex args] = Some e → le_Term e ≠ aea_PrevLogTerm args) →
      AE_outcome r args rf (ticker r (set_currentTerm (aea_Term args) rf))
        (mkAppendEntriesReply (aea_Term args) false)
  | AE_accept e :
      state rf = FOLLOWER → currentTerm rf ≤ aea_Term args →
      (log rf)@[aea_PrevLogIndex args] = Some e → le_Term e = aea_PrevLogTerm args →
      AE_outcome r args rf (accepted r args rf) (mkAppendEntriesReply (aea_Term args) true).

Lemma AppendEntries_outcome r args rf rf' rep :
  AppendEntries r args rf = Some (rf', rep) → AE_outcome r args rf rf' rep.
Proof.
  unfold AppendEntries. intros H.
  destruct (decide (state rf = FOLLOWER)) as [Hf|Hf].
  - rewrite bool_decide_eq_false_2 in H by tauto.
    destruct (Z.leb_spec (currentTerm rf) (aea_Term args)); [|simplify_eq; by constructor].
    raft_simpl. destruct (Z.leb_spec (len (log rf)) (aea_PrevLogIndex args)).
    { simplify_eq. apply AE_mismatch; [done..|]. intros e He%idx_Some_range. lia. }
    destruct ((log rf)@[aea_PrevLogIndex args]) as [e|] eqn:He; simpl in H; [|done].
    destruct (Z.eqb_spec (le_Term e) (aea_PrevLogTerm args)); simpl in H.
    + pose proof (idx_Some_range _ _ _ He).
      rewrite slice_to_in_range in H by lia. simpl in H.
      assert (rf' = accepted r args rf ∧ rep = mkAppendEntriesReply (aea_Term args) true) as [-> ->].
      { unfold accepted. raft_simpl. rewrite Z.gtb_ltb in H. split_ifs; bools; simplify_eq; raft_simpl.
        - rewrite Z.min_l by lia. done.
        - rewrite Z.min_r by lia. done.
        - split; [|done]. destruct (ticker_frame r (set_currentTerm (aea_Term args) rf)) as [t ->].
          done. }
      by eapply AE_accept.
    + simplify_eq. apply AE_mismatch; [done..|]. congruence.
  - rewrite bool_decide_eq_true_2 in H by tauto.
    destruct (Z.leb_spec (currentTerm rf) (aea_Term args)); simplify_eq; raft_simpl;
      by constructor.
Qed.

(** [AppendEntries] does not panic on a non-negative index. *)
Lemma AppendEntries_total r args rf :
  0 ≤ aea_PrevLogIndex args → is_Some (AppendEntries r args rf).
Proof.
  intros Hp. unfold AppendEntries. raft_simpl.
  destruct (bool_decide _); [split_ifs; eauto|]. split_ifs; eauto; bools;
  destruct (idx_in_range (log rf) (aea_PrevLogIndex args)) as [e ->]; try lia; simpl;
  split_ifs; eauto; rewrite slice_to_in_range by lia; simpl; eauto.
Qed.

Lemma AppendEntries_log_ok r args rf rf' rep :
  AppendEntries r args rf = Some (rf', rep) →
  ae_ok args → log_ok (currentTerm rf) (log rf) → log_ok (currentTerm rf') (log rf').
Proof.
  intros H%AppendEntries_outcome Ha Hl.
  destruct H; unfold accepted; raft_simpl; eauto using log_ok_mono, log_ok_append.
Qed.

Lemma RequestVote_total r args rf T :
  log_ok T (log rf) → is_Some (RequestVote r args rf).
Proof.
  intros Hl. destruct (log_ok_idx_last _ _ Hl) as (e&He&_).
  unfold RequestVote. split_ifs; simpl; rewrite ?He; simpl; split_ifs; eauto.
Qed.

Lemma AttemptEletion_spec r rf rf' el dsts :
  AttemptEletion r rf = Some (rf', el, dsts) →
  same_peer rf rf' ∧ log rf' = log rf ∧ state rf' = CANDIDATE ∧
  currentTerm rf' = currentTerm rf + 1 ∧ votedFor rf' = me rf ∧
  commitIndex rf' = commitIndex rf ∧ lastApplied rf' = lastApplied rf ∧
  nextIndex rf' = nextIndex rf ∧ matchIndex rf' = matchIndex rf ∧
  termToIndex rf' = termToIndex rf ∧
  rva_Term (el_args el) = currentTerm rf' ∧ rva_CandidateId (el_args el) = me rf ∧
  votes el = 1 ∧ el_done el = false ∧ dsts = others rf.
Proof.
  unfold AttemptEletion. intros H. run_handler H. split_and!; try done; split; by raft_simpl.
Qed.

(** A vote reply makes the peer step down, changes nothing, or makes it leader;
    it becomes leader only as a candidate in the term of the election and with
    more than half of the votes. *)
Lemma handleVoteReply_spec r el rep rf rf' el' gos :
  handleVoteReply r el rep rf = (rf', el', gos) →
  el_args el' = el_args el ∧
  votes el' = (if (rvr_Term rep <=? currentTerm rf) && rvr_VoteGranted rep
               then votes el + 1 else votes el) ∧
  (gos = [] ∧ rf' = rf ∨
   gos = [] ∧ currentTerm rf < rvr_Term rep ∧ rf' = conevrtToFollower r (rvr_Term rep) rf ∨
   gos = [go_HeartBeat] ∧ rf' = fst (conevrtToLeader rf) ∧
     state rf = CANDIDATE ∧ currentTerm rf = rva_Term (el_args el) ∧
     rvr_Term rep ≤ currentTerm rf ∧ rvr_VoteGranted rep = true ∧
     peers rf / 2 < votes el').
Proof.
  unfold handleVoteReply. intros H.
  destruct (Z.gtb_spec (rvr_Term rep) (currentTerm rf)).
  { simplify_eq. rewrite (proj2 (Z.leb_gt _ _)) by lia. auto 10. }
  rewrite (proj2 (Z.leb_le _ _)) by lia. simpl.
  destruct (rvr_VoteGranted rep); simpl in H; [|simplify_eq; auto].
  destruct (el_done el || _) eqn:Hd; [simplify_eq; auto|].
  destruct (_ && _) eqn:Hc; simplify_eq; simpl; bools; auto 12.
Qed.

Lemma Start_spec c rf rf' res :
  Start c rf = Some (rf', res) →
  same_peer rf rf' ∧ state rf' = state rf ∧ currentTerm rf' = currentTerm rf ∧
  votedFor rf' = votedFor rf ∧ commitIndex rf' = commitIndex rf ∧
  lastApplied rf' = lastApplied rf ∧ nextIndex rf' = nextIndex rf ∧ matchIndex rf' = matchIndex rf ∧
  (state rf ≠ LEADER ∧ rf' = rf ∧ res = (len (log rf) - 1, currentTerm rf, false) ∨
   state rf = LEADER ∧ log rf' = log rf ++ [mkLogEntry (currentTerm rf) (Some c)] ∧
   res = (len (log rf), currentTerm rf, true) ∧
   ∃ e, last (log rf) = Some e ∧
     termToIndex rf' = if le_Term e =? currentTerm rf then termToIndex rf
                       else <[currentTerm rf := len (log rf)]> (termToIndex rf)).
Proof.
  unfold Start. intros H. rewrite idx_last in H.
  destruct (decide (state rf = LEADER)) as [Hs|Hs].
  - rewrite bool_decide_eq_true_2 in H by done.
    destruct (last (log rf)) as [e|]; simpl in H; [|done]. rewrite Z.eqb_sym in H.
    destruct (le_Term e =? currentTerm rf) eqn:E; simpl in H; simplify_eq; simpl;
      (split_and!; try done; right; split_and!; try done;
       [do 2 f_equal; lia| eexists; split; [done|]; by rewrite E]).
  - rewrite bool_decide_eq_false_2 in H by done. simplify_eq. split_and!; try done. by left.
Qed.

Lemma handleHeartBeatReply_spec r rd i args rep rf rf' rd' :
  handleHeartBeatReply r rd i args rep rf = Some (rf', rd') →
  (aer_Success rep = false ∧ currentTerm rf < aer_Term rep ∧
     rf' = conevrtToFollower r (aer_Term rep) rf ∧ rd' = rd) ∨
  (aer_Success rep = false ∧ aer_Term rep ≤ currentTerm rf ∧ rd' = rd ∧
     ∃ next, upd (nextIndex rf) i (backoff (termToIndex rf) (Z.to_nat (aea_PrevLogTerm args - 1))) = Some next
       ∧ rf' = set_nextIndex next rf) ∨
  (aer_Success rep = true ∧ ∃ next mtch,
     upd (nextIndex rf) i (len (log rf)) = Some next ∧
     upd (matchIndex rf) i (len (log rf) - 1) = Some mtch ∧
     hb_count rd' = hb_count rd + 1 ∧
     let rf1 := set_matchIndex mtch (set_nextIndex next rf) in
     if hb_done rd || (hb_count rd' <=? peers rf / 2) then rf' = rf1 ∧ hb_done rd' = hb_done rd
     else rf' = set_commitIndex (len (log rf) - 1) rf1 ∧ hb_done rd' = true).
Proof.
  unfold handleHeartBeatReply. intros H.
  destruct (aer_Success rep); simpl in H.
  - right; right. split; [done|].
    destruct (upd (nextIndex rf) _ _) as [next|] eqn:E1; simpl in H; [|done].
    destruct (upd (matchIndex rf) _ _) as [mtch|] eqn:E2; simpl in H; [|done].
    exists next, mtch. destruct (hb_done rd || _) eqn:E; simplify_eq; simpl; rewrite E; auto.
  - destruct (Z.gtb_spec (aer_Term rep) (currentTerm rf)); [simplify_eq; auto 10|].
    destruct (upd _ _ _) as [next|] eqn:E1; simpl in H; [|done]. simplify_eq.
    right; left. split_and!; eauto.
Qed.

Lemma apply_spec rf rf' om :
  apply rf = Some (rf', om) →
  (om = None ∧ rf' = rf ∧ (killed rf = true ∨ commitIndex rf ≤ lastApplied rf)) ∨
  (killed rf = false ∧ lastApplied rf < commitIndex rf ∧
   rf' = set_lastApplied (lastApplied rf + 1) rf ∧
   ∃ e, (log rf)@[lastApplied rf + 1] = Some e ∧
        om = Some (command_msg (le_Command e) (lastApplied rf + 1))).
Proof.
  unfold apply. intros H. destruct (killed rf) eqn:Hk; [simplify_eq; auto 10|].
  destruct (Z.gtb_spec (commitIndex rf) (lastApplied rf)); [|simplify_eq; auto 10].
  simpl in H. destruct (idx _ _) as [e|] eqn:He; simpl in H; [|done]. simplify_eq. right. split_and!; [done..|]. by exists e.
Qed.

(** ** Any critical section of a peer *)

(** What one critical section can do to a peer that only receives well-formed
    [AppendEntries] requests. *)
Inductive peer_step rf : Raft Cmd → Prop :=
  | ps_idle : peer_step rf rf
  | ps_attempt r rf' el ds : AttemptEletion r rf = Some (rf', el, ds) → peer_step rf rf'
  | ps_vote r args rf' rep : RequestVote r args rf = Some (rf', rep) → peer_step rf rf'
  | ps_votereply r el rep rf' el' gos :
      handleVoteReply r el rep rf = (rf', el', gos) → peer_step rf rf'
  | ps_append r args rf' rep :
      ae_ok args → AppendEntries r args rf = Some (rf', rep) → peer_step rf rf'
  | ps_hbreply r rd i args rep rf' rd' :
      handleHeartBeatReply r rd i args rep rf = Some (rf', rd') → peer_step rf rf'
  | ps_start c rf' res : Start c rf = Some (rf', res) → peer_step rf rf'
  | ps_apply rf' om : apply rf = Some (rf', om) → peer_step rf rf'
  | ps_kill : peer_step rf (Kill rf).

(** The three possible outcomes for the log, term and role. *)
Lemma peer_step_effect rf rf' :
  peer_step rf rf' →
  peers rf' = peers rf ∧ me rf' = me rf ∧ currentTerm rf ≤ currentTerm rf' ∧
  (log rf' = log rf ∨
   (state rf = LEADER ∧ state rf' = LEADER ∧ currentTerm rf' = currentTerm rf ∧
    ∃ c, log rf' = log rf ++ [mkLogEntry (currentTerm rf) (Some c)]) ∨
   (state rf = FOLLOWER ∧ state rf' = FOLLOWER ∧ ∃ args e,
    ae_ok args ∧ currentTerm rf' = aea_Term args ∧
    (log rf)@[aea_PrevLogIndex args] = Some e ∧ le_Term e = aea_PrevLogTerm args ∧
    log rf' = take (Z.to_nat (aea_PrevLogIndex args + 1)) (log rf) ++ aea_Entries args)).
Proof.
  destruct 1 as [|r rf' el ds H|r args rf' rep H|r el rep rf' el' gos H|r args rf' rep Ha H
    |r rd i args rep rf' rd' H|c rf' res H|rf' om H|].
  - split_and!; auto. lia.
  - apply AttemptEletion_spec in H as ([? ? ?]&?&?&?&_). split_and!; auto; lia.
  - apply RequestVote_spec in H as ([? ? ?]&?&?&?&?&?&?&?&?&_). split_and!; auto; lia.
  - apply handleVoteReply_spec in H as (_&_&[[_ ->]|[(_&?&->)|(_&->&_)]]);
      raft_simpl; split_and!; auto; lia.
  - apply AppendEntries_outcome in H. destruct H; unfold accepted; raft_simpl; split_and!; auto; try lia.
    right; right. split_and!; auto. eexists _, _. split_and!; eauto.
  - apply handleHeartBeatReply_spec in H as [(_&?&->&_)|[(_&?&_&next&_&->)|(_&next&mtch&_&_&_&H)]];
      [raft_simpl; split_and!; auto; lia..|].
    destruct (_ || _); destruct H as [-> _]; simpl; split_and!; auto; lia.
  - apply Start_spec in H as ([? ? ?]&?&?&?&?&?&?&?&[(?&->&_)|(?&?&_)]); split_and!; auto; try lia.
    right; left. split_and!; eauto; congruence.
  - apply apply_spec in H as [(_&->&_)|(_&_&->&_)]; simpl; split_and!; auto; lia.
  - raft_simpl. split_and!; auto; lia.
Qed.

Lemma peer_step_log_ok rf rf' :
  peer_step rf rf' → log_ok (currentTerm rf) (log rf) → log_ok (currentTerm rf') (log rf').
Proof.
  intros (_&_&HT&H)%peer_step_effect Hl.
  destruct H as [->|[(_&_&->&c&->)|(_&_&args&e&Ha&HA&?&?&->)]];
    eauto using log_ok_mono, log_ok_snoc.
  rewrite HA in *. eauto using log_ok_append.
Qed.
End Handlers.
End RaftServerFacts.
