(* ===== verification/RaftCluster.v ===== *)
(** * A cluster of Raft peers on an unreliable network

    The peers of [raft/raft.go] connected by a network that delivers each RPC
    request and each reply at most once, in any order, or loses it.  A step runs
    one critical section of one peer; which section, on which message and with
    which random number is the [Label].  [exec] is the executable semantics,
    [step] the same as a relation with one rule per label.

    The arguments of an RPC are a value built in the sender's critical section.
    (In the source [Call] encodes them after the lock is released; see the header
    of the development.)  An election timer may fire at any time: [Stop] does not
    recall a callback that already runs.

    Three ghost lists record the history the properties speak of: the votes
    granted, the elections won and the votes a peer forgot without a change of
    term. *)

From S2P Require Import Prelude RaftServer.

Module RaftCluster.
Import RaftServer.
Section Cluster.
Context {Cmd : Type}.

(** A peer with the goroutines it has started. *)
Record Node := mkNode {
  rf : Raft Cmd;
  elections : list Election;   (* shared variables of its elections *)
  rounds : list Round;         (* shared variables of its heartbeat rounds *)
  senders : list (nat * Z);    (* heartbeat goroutines still to send: round, peer *)
  heartbeats : nat;            (* running HeartBeat loops *)
  attempts : nat;              (* started AttemptEletion goroutines still to run *)
  applyCh : list (ApplyMsg Cmd) (* messages sent on applyCh, oldest first *)
}.

Definition set_rf v n := mkNode v (elections n) (rounds n) (senders n) (heartbeats n) (attempts n) (applyCh n).

(** Messages in flight; an RPC carries the election or the round it belongs to. *)
Inductive Msg :=
  | RVReq (src dst el : nat) (args : RequestVoteArgs)
  | RVRep (src dst el : nat) (reply : RequestVoteReply)
  | AEReq (src dst rd : nat) (args : AppendEntriesArgs Cmd)
  | AERep (src dst rd : nat) (args : AppendEntriesArgs Cmd) (reply : AppendEntriesReply).

Record Cluster := mkCluster {
  nodes : list Node;
  net : list Msg;
  grants : list (Z * nat * Z);   (* ghost: term, voter, candidate *)
  leaders : list (Z * nat);      (* ghost: term, winner *)
  resets : list (Z * nat)        (* ghost: term, peer whose vote was cleared in it *)
}.

Inductive Label :=
  | Timer (i : nat)              (* the election timer of peer i fires *)
  | Attempt (i : nat) (r : Z)    (* a started AttemptEletion runs *)
  | DeliverRV (k : nat) (r : Z)  (* message k of the network is handled *)
  | DeliverRVRep (k : nat) (r : Z)
  | Beat (i : nat)               (* an iteration of a HeartBeat loop *)
  | Send (i k : nat)             (* heartbeat goroutine k builds its RPC *)
  | DeliverAE (k : nat) (r : Z)
  | DeliverAERep (k : nat) (r : Z)
  | Drop (k : nat)               (* message k is lost *)
  | ClientStart (i : nat) (c : Cmd)
  | ApplyOne (i : nat)
  | KillPeer (i : nat).

(** Starts the goroutines a handler returned. *)
Definition spawn (gos : list Go) (n : Node) : Node :=
  foldr (λ g n, match g with
    | go_HeartBeat => mkNode (rf n) (elections n) (rounds n) (senders n) (S (heartbeats n)) (attempts n) (applyCh n)
    | go_AttemptEletion => mkNode (rf n) (elections n) (rounds n) (senders n) (heartbeats n) (S (attempts n)) (applyCh n)
    end) n gos.

Definition set_node (i : nat) (n : Node) (c : Cluster) : Cluster :=
  mkCluster (<[i := n]> (nodes c)) (net c) (grants c) (leaders c) (resets c).

Definition set_net (ms : list Msg) (c : Cluster) : Cluster :=
  mkCluster (nodes c) ms (grants c) (leaders c) (resets c).

Definition add_grants gs (c : Cluster) : Cluster :=
  mkCluster (nodes c) (net c) (gs ++ grants c) (leaders c) (resets c).
Definition add_leaders ls (c : Cluster) : Cluster :=
  mkCluster (nodes c) (net c) (grants c) (ls ++ leaders c) (resets c).
Definition add_resets rs (c : Cluster) : Cluster :=
  mkCluster (nodes c) (net c) (grants c) (leaders c) (rs ++ resets c).

(** A handler at peer [i] forgot a vote when it went from a role other than
    follower to follower without a change of term. *)
Definition reset_of (i : nat) (before after : Raft Cmd) : list (Z * nat) :=
  if decide (state before ≠ FOLLOWER ∧ state after = FOLLOWER
             ∧ currentTerm before = currentTerm after)
  then [(currentTerm after, i)] else [].

Definition exec (c : Cluster) (l : Label) : option Cluster :=
  match l with
  | Timer i =>
      n ← nodes c !! i;
      _ ← electionTimeout (rf n);
      Some (set_node i (spawn (electionTimeout_fired (rf n)) n) c)
  | Attempt i r =>
      n ← nodes c !! i;
      match attempts n with
      | O => None
      | S a =>
          '(rf', el, dsts) ← AttemptEletion r (rf n);
          let n' := mkNode rf' (elections n ++ [el]) (rounds n) (senders n) (heartbeats n) a (applyCh n) in
          let reqs := (λ d, RVReq i (Z.to_nat d) (length (elections n)) (el_args el)) <$> dsts in
          Some (add_grants [(rva_Term (el_args el), i, me rf')]
                  (set_net (net c ++ reqs) (set_node i n' c)))
      end
  | DeliverRV k r =>
      m ← net c !! k;
      match m with
      | RVReq src dst el args =>
          n ← nodes c !! dst;
          '(rf', reply) ← RequestVote r args (rf n);
          let c' := set_net (delete k (net c) ++ [RVRep dst src el reply]) (set_node dst (set_rf rf' n) c) in
          Some (add_grants (if rvr_VoteGranted reply
                            then [(currentTerm rf', dst, rva_CandidateId args)] else []) c')
      | _ => None
      end
  | DeliverRVRep k r =>
      m ← net c !! k;
      match m with
      | RVRep src dst e reply =>
          n ← nodes c !! dst;
          el ← elections n !! e;
          let '(rf', el', gos) := handleVoteReply r el reply (rf n) in
          let n' := spawn gos (mkNode rf' (<[e := el']> (elections n)) (rounds n) (senders n) (heartbeats n) (attempts n) (applyCh n)) in
          Some (add_leaders (match gos with [] => [] | _ => [(currentTerm rf', dst)] end)
                  (add_resets (reset_of dst (rf n) rf')
                    (set_net (delete k (net c)) (set_node dst n' c))))
      | _ => None
      end
  | Beat i =>
      n ← nodes c !! i;
      match heartbeats n with
      | O => None
      | S h =>
          match HeartBeat_iteration (rf n) with
          | None => Some (set_node i (mkNode (rf n) (elections n) (rounds n) (senders n) h (attempts n) (applyCh n)) c)
          | Some (rd, dsts) =>
              Some (set_node i (mkNode (rf n) (elections n) (rounds n ++ [rd])
                      (senders n ++ ((λ d, (length (rounds n), d)) <$> dsts)) (S h) (attempts n) (applyCh n)) c)
          end
      end
  | Send i k =>
      n ← nodes c !! i;
      '(rd, d) ← senders n !! k;
      args ← HeartBeat_args d (rf n);
      Some (set_net (net c ++ [AEReq i (Z.to_nat d) rd args])
              (set_node i (mkNode (rf n) (elections n) (rounds n) (delete k (senders n)) (heartbeats n) (attempts n) (applyCh n)) c))
  | DeliverAE k r =>
      m ← net c !! k;
      match m with
      | AEReq src dst rd args =>
          n ← nodes c !! dst;
          '(rf', reply) ← AppendEntries r args (rf n);
          Some (add_resets (reset_of dst (rf n) rf')
                  (set_net (delete k (net c) ++ [AERep dst src rd args reply]) (set_node dst (set_rf rf' n) c)))
      | _ => None
      end
  | DeliverAERep k r =>
      m ← net c !! k;
      match m with
      | AERep src dst d args reply =>
          n ← nodes c !! dst;
          rd ← rounds n !! d;
          '(rf', rd') ← handleHeartBeatReply r rd (Z.of_nat src) args reply (rf n);
          Some (add_resets (reset_of dst (rf n) rf')
                  (set_net (delete k (net c))
                    (set_node dst (mkNode rf' (elections n) (<[d := rd']> (rounds n)) (senders n) (heartbeats n) (attempts n) (applyCh n)) c)))
      | _ => None
      end
  | Drop k => _ ← net c !! k; Some (set_net (delete k (net c)) c)
  | ClientStart i cmd =>
      n ← nodes c !! i;
      '(rf', _) ← Start cmd (rf n);
      Some (set_node i (set_rf rf' n) c)
  | ApplyOne i =>
      n ← nodes c !! i;
      '(rf', om) ← apply (rf n);
      Some (set_node i (mkNode rf' (elections n) (rounds n) (senders n) (heartbeats n) (attempts n)
                          (applyCh n ++ option_list om)) c)
  | KillPeer i => n ← nodes c !! i; Some (set_node i (set_rf (Kill (rf n)) n) c)
  end.

(** The same transitions as a relation. *)
Inductive step (c : Cluster) : Label → Cluster → Prop :=
  | step_Timer i n t :
      nodes c !! i = Some n → electionTimeout (rf n) = Some t →
      step c (Timer i) (set_node i (spawn (electionTimeout_fired (rf n)) n) c)
  | step_Attempt i r n a rf' el dsts :
      nodes c !! i = Some n → attempts n = S a →
      AttemptEletion r (rf n) = Some (rf', el, dsts) →
      step c (Attempt i r)
        (add_grants [(rva_Term (el_args el), i, me rf')]
          (set_net (net c ++ ((λ d, RVReq i (Z.to_nat d) (length (elections n)) (el_args el)) <$> dsts))
            (set_node i (mkNode rf' (elections n ++ [el]) (rounds n) (senders n) (heartbeats n) a (applyCh n)) c)))
  | step_RV k r src dst el args n rf' reply :
      net c !! k = Some (RVReq src dst el args) → nodes c !! dst = Some n →
      RequestVote r args (rf n) = Some (rf', reply) →
      step c (DeliverRV k r)
        (add_grants (if rvr_VoteGranted reply
                     then [(currentTerm rf', dst, rva_CandidateId args)] else [])
          (set_net (delete k (net c) ++ [RVRep dst src el reply]) (set_node dst (set_rf rf' n) c)))
  | step_RVRep k r src dst e reply n el rf' el' gos :
      net c !! k = Some (RVRep src dst e reply) → nodes c !! dst = Some n →
      elections n !! e = Some el →
      handleVoteReply r el reply (rf n) = (rf', el', gos) →
      step c (DeliverRVRep k r)
        (add_leaders (match gos with [] => [] | _ => [(currentTerm rf', dst)] end)
          (add_resets (reset_of dst (rf n) rf')
            (set_net (delete k (net c))
              (set_node dst (spawn gos (mkNode rf' (<[e := el']> (elections n)) (rounds n) (senders n) (heartbeats n) (attempts n) (applyCh n))) c))))
  | step_BeatEnd i n h :
      nodes c !! i = Some n → heartbeats n = S h → HeartBeat_iteration (rf n) = None →
      step c (Beat i) (set_node i (mkNode (rf n) (elections n) (rounds n) (senders n) h (attempts n) (applyCh n)) c)
  | step_Beat i n h rd dsts :
      nodes c !! i = Some n → heartbeats n = S h → HeartBeat_iteration (rf n) = Some (rd, dsts) →
      step c (Beat i) (set_node i (mkNode (rf n) (elections n) (rounds n ++ [rd])
                      (senders n ++ ((λ d, (length (rounds n), d)) <$> dsts)) (S h) (attempts n) (applyCh n)) c)
  | step_Send i k n rd d args :
      nodes c !! i = Some n → senders n !! k = Some (rd, d) →
      HeartBeat_args d (rf n) = Some args →
      step c (Send i k)
        (set_net (net c ++ [AEReq i (Z.to_nat d) rd args])
          (set_node i (mkNode (rf n) (elections n) (rounds n) (delete k (senders n)) (heartbeats n) (attempts n) (applyCh n)) c))
  | step_AE k r src dst rd args n rf' reply :
      net c !! k = Some (AEReq src dst rd args) → nodes c !! dst = Some n →
      AppendEntries r args (rf n) = Some (rf', reply) →
      step c (DeliverAE k r)
        (add_resets (reset_of dst (rf n) rf')
          (set_net (delete k (net c) ++ [AERep dst src rd args reply]) (set_node dst (set_rf rf' n) c)))
  | step_AERep k r src dst d args reply n rd rf' rd' :
      net c !! k = Some (AERep src dst d args reply) → nodes c !! dst = Some n →
      rounds n !! d = Some rd →
      handleHeartBeatReply r rd (Z.of_nat src) args reply (rf n) = Some (rf', rd') →
      step c (DeliverAERep k r)
        (add_resets (reset_of dst (rf n) rf')
          (set_net (delete k (net c))
            (set_node dst (mkNode rf' (elections n) (<[d := rd']> (rounds n)) (senders n) (heartbeats n) (attempts n) (applyCh n)) c)))
  | step_Drop k m : net c !! k = Some m → step c (Drop k) (set_net (delete k (net c)) c)
  | step_Start i cmd n rf' res :
      nodes c !! i = Some n → Start cmd (rf n) = Some (rf', res) →
      step c (ClientStart i cmd) (set_node i (set_rf rf' n) c)
  | step_Apply i n rf' om :
      nodes c !! i = Some n → apply (rf n) = Some (rf', om) →
      step c (ApplyOne i)
        (set_node i (mkNode rf' (elections n) (rounds n) (senders n) (heartbeats n) (attempts n)
                       (applyCh n ++ option_list om)) c)
  | step_Kill i n :
      nodes c !! i = Some n → step c (KillPeer i) (set_node i (set_rf (Kill (rf n)) n) c).

Fixpoint run (c : Cluster) (ls : list Label) : option Cluster :=
  match ls with
  | [] => Some c
  | l :: ls => c' ← exec c l; run c' ls
  end.

(** [n] fresh peers; [r i] feeds the first timer of peer [i]. *)
Definition start (n : nat) (r : nat → Z) : Cluster :=
  mkCluster ((λ i, mkNode (Make (r i) (Z.of_nat n) (Z.of_nat i) []) [] [] [] 0 0 []) <$> seq 0 n)
    [] [] [] [].

Definition reachable (n : nat) (r : nat → Z) (c : Cluster) : Prop :=
  ∃ ls, run (start n r) ls = Some c.

(** ** The two semantics agree *)

Lemma exec_step c l c' : exec c l = Some c' → step c l c'.
Proof.
  intros H. destruct l; unfold exec in H;
  repeat (let E := fresh "E" in match type of H with
  | mbind _ ?e = Some _ => destruct e eqn:E; cbn beta iota delta [mbind option_bind] in H; [|discriminate H]
  | (match ?e with _ => _ end) = Some _ => destruct e eqn:E; try discriminate H
  end); simplify_eq; first
    [ eapply step_Timer | eapply step_Attempt | eapply step_RV | eapply step_RVRep
    | eapply step_Beat | eapply step_BeatEnd | eapply step_Send | eapply step_AE | eapply step_AERep
    | eapply step_Drop | eapply step_Start | eapply step_Apply | eapply step_Kill ]; eassumption.
Qed.

Lemma step_exec c l c' : step c l c' → exec c l = Some c'.
Proof.
  destruct 1; unfold exec;
  repeat match goal with H : _ = ?x |- context [?y] => 
    match type of H with ?lhs = _ => match y with lhs => rewrite H; cbn beta iota delta [mbind option_bind] end end end;
  done.
Qed.

End Cluster.
End RaftCluster.
