(* ===== verification/RaftInvariants.v ===== *)
(** * Invariants of every reachable cluster

    Reachability is induction on the executed labels.  First the invariants
    that hold of every execution (identities, well-formed logs and requests,
    monotone terms, append-only leaders, in-order delivery); then the accounting
    of votes, which shows that an election is won only with a majority of
    grants, and the exact condition under which two peers can win the same
    term. *)

From S2P Require Import Prelude RaftServer RaftServerFacts RaftCluster.

Module RaftInvariants.
Import RaftServer RaftServerFacts RaftCluster.
Section Invariants.
Context {Cmd : Type}.
Implicit Types c : @Cluster Cmd.

(** ** Induction on executions *)

Lemma run_app c ls ls' : run c (ls ++ ls') = c' ← run c ls; run c' ls'.
Proof. revert c. induction ls as [|l ls IH]; intros c; simpl; [done|]. destruct (exec c l); simpl; auto. Qed.

Lemma reachable_step n r c l c' : reachable n r c → step c l c' → reachable n r c'.
Proof.
  intros [ls H] Hs%step_exec. exists (ls ++ [l]).
  rewrite run_app, H. simpl. by rewrite Hs.
Qed.

Lemma reachable_ind n r (P : Cluster → Prop) :
  P (start n r) →
  (∀ c l c', reachable n r c → P c → step c l c' → P c') →
  ∀ c, reachable n r c → P c.
Proof.
  intros H0 HS c [ls H]. revert c H. induction ls as [|l ls IH] using rev_ind; intros c H.
  - simpl in H. by simplify_eq.
  - rewrite run_app in H. destruct (run (start n r) ls) as [c1|] eqn:E; simpl in H; [|done].
    destruct (exec c1 l) as [c2|] eqn:E2; simpl in H; simplify_eq.
    eapply HS; [by exists ls| by apply IH |by apply exec_step].
Qed.

Lemma start_lookup n r i (nd : @Node Cmd) :
  nodes (start n r) !! i = Some nd →
  (i < n)%nat ∧ nd = mkNode (Make (r i) (Z.of_nat n) (Z.of_nat i) []) [] [] [] 0 0 [].
Proof.
  simpl. rewrite list_lookup_fmap. intros (j&Hj&->)%fmap_Some_1.
  apply lookup_seq in Hj as [-> ?]. split; [lia|done].
Qed.

(** ** Goroutine bookkeeping leaves the peer alone *)

Lemma spawn_rf gos (n : @Node Cmd) : rf (spawn gos n) = rf n.
Proof. induction gos as [|[] gos IH]; done. Qed.
Lemma spawn_elections gos (n : @Node Cmd) : elections (spawn gos n) = elections n.
Proof. induction gos as [|[] gos IH]; done. Qed.
Lemma spawn_applyCh gos (n : @Node Cmd) : applyCh (spawn gos n) = applyCh n.
Proof. induction gos as [|[] gos IH]; done. Qed.

(** ** Requests in flight are well formed *)

Definition msg_ok (m : @Msg Cmd) : Prop :=
  match m with
  | AEReq _ _ _ args | AERep _ _ _ args _ => ae_ok args
  | _ => True
  end.

Definition net_ok c : Prop := Forall msg_ok (net c).

Lemma net_ok_lookup c k m : net_ok c → net c !! k = Some m → msg_ok m.
Proof. intros H ?. eapply Forall_lookup_1; eauto. Qed.

(** A step touches one peer, by one of its critical sections. *)
Lemma step_peer c l c' i n' :
  net_ok c → step c l c' → nodes c' !! i = Some n' →
  ∃ n, nodes c !! i = Some n ∧ peer_step (rf n) (rf n').
Proof.
  intros Hnet Hs Hi.
  assert (Hidle : nodes c !! i = Some n' → ∃ n, nodes c !! i = Some n ∧ peer_step (rf n) (rf n'))
    by eauto using ps_idle.
  destruct Hs; simpl in Hi; auto;
    (apply list_lookup_insert_Some in Hi as [(->&<-&_)|[_ ?]]; [|by auto]);
    eexists; (split; [eassumption|]); rewrite ?spawn_rf; simpl; eauto using peer_step.
  eapply ps_append; [|done]. by apply (net_ok_lookup _ _ _ Hnet H).
Qed.

Lemma step_length c l c' : step c l c' → length (nodes c') = length (nodes c).
Proof. destruct 1; simpl; by rewrite ?length_insert. Qed.

(** ** The basic invariant *)

Record wf (n : nat) c : Prop := {
  wf_len : length (nodes c) = n;
  wf_id : ∀ i nd, nodes c !! i = Some nd → me (rf nd) = Z.of_nat i ∧ peers (rf nd) = Z.of_nat n;
  wf_log : ∀ i nd, nodes c !! i = Some nd → log_ok (currentTerm (rf nd)) (log (rf nd));
  wf_net : net_ok c
}.

Lemma wf_start n r : wf n (start n r).
Proof.
  split.
  - simpl. by rewrite length_fmap, length_seq.
  - intros i nd [_ ->]%start_lookup. simpl. unfold Make. by raft_simpl.
  - intros i nd [_ ->]%start_lookup. simpl. unfold Make. raft_simpl.
    split; unfold terms; simpl; [done|repeat constructor..]. lia.
  - by constructor.
Qed.

Lemma net_ok_step n c l c' : wf n c → step c l c' → net_ok c'.
Proof.
  intros [_ _ Hlog Hnet] Hs. unfold net_ok in *.
  assert (Hdel : ∀ k, Forall msg_ok (delete k (net c))) by (intros; by apply Forall_delete).
  destruct Hs; simpl; auto.
  - apply Forall_app. split; [done|]. apply Forall_fmap, Forall_true. done.
  - apply Forall_app. split; [done|]. by apply Forall_singleton.
  - apply Forall_app. split; [done|]. apply Forall_singleton. simpl. eauto using HeartBeat_args_ok.
  - apply Forall_app. split; [done|]. apply Forall_singleton. by apply (Forall_lookup_1 _ _ _ _ Hnet H).
Qed.

Lemma wf_step n c l c' : wf n c → step c l c' → wf n c'.
Proof.
  intros Hwf Hs. pose proof (net_ok_step _ _ _ _ Hwf Hs). destruct Hwf as [Hlen Hid Hlog Hnet].
  split; [by rewrite (step_length _ _ _ Hs)| | |done].
  - intros i nd' Hi. destruct (step_peer _ _ _ _ _ Hnet Hs Hi) as (nd&Hnd&Hp).
    apply peer_step_effect in Hp as (->&->&_). eauto.
  - intros i nd' Hi. destruct (step_peer _ _ _ _ _ Hnet Hs Hi) as (nd&Hnd&Hp).
    eauto using peer_step_log_ok.
Qed.

Lemma wf_reachable n r c : reachable n r c → wf n c.
Proof.
  revert c. apply reachable_ind; [apply wf_start|]. eauto using wf_step.
Qed.

(** ** Accounting of votes *)

(** The peers from which election [e] of peer [i] still has a request or a reply
    in flight. *)
Definition pending_of (i e : nat) (m : @Msg Cmd) : option nat :=
  match m with
  | RVReq src dst el _ => if decide (src = i ∧ el = e) then Some dst else None
  | RVRep src dst el _ => if decide (dst = i ∧ el = e) then Some src else None
  | _ => None
  end.

Definition pending (i e : nat) (ms : list (@Msg Cmd)) : list nat := omap (pending_of i e) ms.

Lemma pending_cons i e m ms :
  pending i e (m :: ms) = option_list (pending_of i e m) ++ pending i e ms.
Proof. unfold pending. simpl. by destruct (pending_of i e m). Qed.

Lemma pending_app i e ms ms' : pending i e (ms ++ ms') = pending i e ms ++ pending i e ms'.
Proof. apply omap_app. Qed.

(** Taking message [k] out removes the peer it stands for, if any. *)
Lemma pending_delete_msg i e ms k m :
  ms !! k = Some m → pending i e ms ≡ₚ option_list (pending_of i e m) ++ pending i e (delete k ms).
Proof.
  intros H. rewrite <- pending_cons. unfold pending. by rewrite <- (delete_Permutation ms k m H).
Qed.

Definition msg_votes_ok c (m : @Msg Cmd) : Prop :=
  match m with
  | RVReq src dst e args =>
      ∃ nd el, nodes c !! src = Some nd ∧ elections nd !! e = Some el ∧ args = el_args el
  | RVRep src dst e reply =>
      ∃ nd el, nodes c !! dst = Some nd ∧ elections nd !! e = Some el ∧
        (rvr_VoteGranted reply = true → (rva_Term (el_args el), src, Z.of_nat dst) ∈ grants c)
  | _ => True
  end.

(** The votes an election has counted come from distinct peers, other than those
    it still waits for, and each of them granted its vote. *)
Definition election_ok c (i e : nat) (el : Election) : Prop :=
  rva_CandidateId (el_args el) = Z.of_nat i ∧
  (rva_Term (el_args el), i, Z.of_nat i) ∈ grants c ∧
  ∃ V, NoDup (i :: V ++ pending i e (net c)) ∧ votes el = 1 + len V ∧
       ∀ v, v ∈ V → (rva_Term (el_args el), v, Z.of_nat i) ∈ grants c.

(** A set of peers that makes [i] the winner of term [T]. *)
Definition quorum_for c (n : nat) (T : Z) (i : nat) (Q : list nat) : Prop :=
  NoDup Q ∧ Z.of_nat n / 2 < len Q ∧ ∀ q, q ∈ Q → (T, q, Z.of_nat i) ∈ grants c.

Record votes_ok (n : nat) c : Prop := {
  vo_net : Forall (msg_votes_ok c) (net c);
  vo_el : ∀ i nd e el, nodes c !! i = Some nd → elections nd !! e = Some el → election_ok c i e el;
  vo_leaders : ∀ T i, (T, i) ∈ leaders c → ∃ Q, quorum_for c n T i Q
}.

(** What is recorded of elections only grows. *)
Definition elections_grow c c' : Prop :=
  ∀ i nd e el, nodes c !! i = Some nd → elections nd !! e = Some el →
  ∃ nd' el', nodes c' !! i = Some nd' ∧ elections nd' !! e = Some el' ∧ el_args el' = el_args el.

Lemma msg_votes_ok_mono c c' m :
  elections_grow c c' → grants c ⊆ grants c' → msg_votes_ok c m → msg_votes_ok c' m.
Proof.
  intros Hg Hs Hm. destruct m; simpl in *; [| |done..];
    destruct Hm as (nd&E&Hnd&HE&H); destruct (Hg _ _ _ _ Hnd HE) as (nd'&E'&?&?&Ha);
    exists nd', E'; rewrite Ha; auto.
Qed.

Lemma election_ok_mono c c' i e el :
  grants c ⊆ grants c' → pending i e (net c') ⊆+ pending i e (net c) →
  election_ok c i e el → election_ok c' i e el.
Proof.
  intros Hs Hp (?&?&V&HV&?&?). split_and!; [done|by apply Hs|].
  exists V. split_and!; [|done|by auto].
  eapply submseteq_NoDup; [|exact HV]. by apply submseteq_skip, submseteq_skips_l.
Qed.

Lemma leaders_ok_mono n c c' :
  grants c ⊆ grants c' →
  (∀ T i, (T, i) ∈ leaders c → ∃ Q, quorum_for c n T i Q) →
  ∀ T i, (T, i) ∈ leaders c → ∃ Q, quorum_for c' n T i Q.
Proof.
  intros Hs H T i HT. destruct (H T i HT) as (Q&?&?&?). exists Q. split_and!; auto.
Qed.

(** Steps that neither start an election nor handle its messages. *)
Lemma votes_ok_frame n c c' :
  votes_ok n c →
  (∀ i, elections <$> nodes c' !! i = elections <$> nodes c !! i) →
  grants c' = grants c → leaders c' = leaders c →
  (∃ k ms, (net c' = net c ∨ net c' = net c ++ ms ∨ net c' = delete k (net c) ++ ms) ∧
     Forall (λ m, match m with AEReq _ _ _ _ | AERep _ _ _ _ _ => True | _ => False end) ms) →
  votes_ok n c'.
Proof.
  intros [Hnet Hel Hld] Hn Hg Hl (k&ms&Hms&Hae).
  assert (Hgrow : elections_grow c c').
  { intros i nd e el Hi He. specialize (Hn i). rewrite Hi in Hn. simpl in Hn.
    apply fmap_Some in Hn as (nd'&?&Heq). exists nd', el. by rewrite <- Heq. }
  assert (Hpm : ∀ i e, pending i e ms = []).
  { intros i e. clear -Hae. induction Hae as [|m ms Hm _ IH]; [done|].
    rewrite pending_cons, IH. by destruct m. }
  assert (Hp : ∀ i e, pending i e (net c') ⊆+ pending i e (net c)).
  { intros i e. destruct Hms as [->|[->| ->]]; rewrite ?pending_app, ?Hpm, ?app_nil_r; try done.
    apply sublist_submseteq, sublist_omap, sublist_delete. }
  assert (Hs : grants c ⊆ grants c') by (by rewrite Hg).
  split.
  - assert (H1 : Forall (msg_votes_ok c') (net c))
      by (eapply Forall_impl; [exact Hnet|]; eauto using msg_votes_ok_mono).
    assert (H2 : Forall (msg_votes_ok c') ms)
      by (eapply Forall_impl; [exact Hae|]; by intros []).
    destruct Hms as [->|[->| ->]]; rewrite ?Forall_app; auto using Forall_delete.
  - intros i nd' e el Hi He. specialize (Hn i). rewrite Hi in Hn. simpl in Hn. symmetry in Hn.
    apply fmap_Some in Hn as (nd&Hnd&Heq). rewrite Heq in He. eauto using election_ok_mono.
  - rewrite Hl. by apply leaders_ok_mono.
Qed.

Lemma others_NoDup (f : Raft Cmd) : NoDup (Z.to_nat <$> others f).
Proof.
  apply NoDup_fmap_2_strong; [|apply NoDup_filter, NoDup_seqZ].
  intros x y [_ Hx%elem_of_seqZ]%list_elem_of_filter [_ Hy%elem_of_seqZ]%list_elem_of_filter. lia.
Qed.

Lemma others_not_me (f : Raft Cmd) i : me f = Z.of_nat i → i ∉ Z.to_nat <$> others f.
Proof.
  intros Hme (x&->&[Hx1 Hx2%elem_of_seqZ]%list_elem_of_filter)%list_elem_of_fmap. lia.
Qed.

(** An election that has not started has nothing in flight. *)
Lemma pending_fresh c i nd e :
  Forall (msg_votes_ok c) (net c) → nodes c !! i = Some nd → elections nd !! e = None →
  pending i e (net c) = [].
Proof.
  intros Hnet Hi He. induction Hnet as [|m ms Hm _ IH]; [done|]. rewrite pending_cons, IH.
  destruct m; simpl in *; [| |done..]; case_decide; try done;
    destruct Hm as (nd'&el'&?&?&_), H as [-> ->]; congruence.
Qed.

Lemma pending_requests i e j e' args dsts :
  pending i e ((λ d, RVReq j (Z.to_nat d) e' args) <$> dsts) =
  if decide (j = i ∧ e' = e) then Z.to_nat <$> dsts else [].
Proof.
  induction dsts as [|d ds IH]; [by case_decide|].
  rewrite fmap_cons, pending_cons, IH. simpl. by case_decide.
Qed.

Lemma votes_ok_Attempt n c i r nd a rf' el dsts :
  wf n c → votes_ok n c →
  nodes c !! i = Some nd → attempts nd = S a →
  AttemptEletion r (rf nd) = Some (rf', el, dsts) →
  votes_ok n (add_grants [(rva_Term (el_args el), i, me rf')]
          (set_net (net c ++ ((λ d, RVReq i (Z.to_nat d) (length (elections nd)) (el_args el)) <$> dsts))
            (set_node i (mkNode rf' (elections nd ++ [el]) (rounds nd) (senders nd) (heartbeats nd) a (applyCh nd)) c))).
Proof.
  intros Hwf [Hnet Hel Hld] Hi _ HA.
  apply AttemptEletion_spec in HA as ([_ Hme' _]&_&_&_&_&_&_&_&_&_&_&Hc&Hv&_&->).
  destruct (wf_id _ _ Hwf _ _ Hi) as [Hme _].
  pose proof (lookup_lt_Some _ _ _ Hi) as Hlt.
  set (n' := mkNode rf' _ _ _ _ _ _).
  set (c' := add_grants _ _).
  assert (Hn' : nodes c' !! i = Some n') by (by apply list_lookup_insert_eq).
  assert (Hs : grants c ⊆ grants c') by (simpl; set_solver).
  assert (Hp : ∀ j e, pending j e (net c') = pending j e (net c) ++
     if decide (i = j ∧ length (elections nd) = e) then Z.to_nat <$> others (rf nd) else [])
     by (intros; simpl; by rewrite pending_app, pending_requests).
  assert (Hgrow : elections_grow c c').
  { intros j nd0 e E Hj HE. destruct (decide (i = j)) as [->|Hne]; simplify_eq.
    - exists n', E. split_and!; [done|by apply lookup_app_l_Some|done].
    - exists nd0, E. simpl. by rewrite list_lookup_insert_ne. }
  split.
  - apply Forall_app. split.
    + eapply Forall_impl; [exact Hnet|]. eauto using msg_votes_ok_mono.
    + apply Forall_fmap, Forall_true. intros d. simpl. exists n', el.
      split_and!; [done|by apply list_lookup_middle|done].
  - intros j nd' e E Hj HE.
    apply list_lookup_insert_Some in Hj as [(->&<-&_)|[Hne Hj]];
      [simpl in HE; apply lookup_app_Some in HE as [HE|[Hge HE]]|].
    + eapply election_ok_mono; [done| |by eauto]. rewrite Hp, decide_False, app_nil_r; [done|].
      intros [_ <-]. apply lookup_lt_Some in HE. lia.
    + apply list_lookup_singleton_Some in HE as [HE <-].
      assert (e = length (elections nd)) as -> by lia. clear HE Hge.
      unfold election_ok. rewrite Hp, (pending_fresh c j nd) by (done || by apply lookup_ge_None_2).
      rewrite decide_True by done. split_and!; [congruence|simpl; rewrite Hme', Hme; set_solver|].
      exists []. split_and!; [|done|set_solver]. simpl. constructor;
      [by apply others_not_me|apply others_NoDup].
    + eapply election_ok_mono; [done| |by eauto]. rewrite Hp, decide_False, app_nil_r; [done|tauto].
  - exact (leaders_ok_mono n c c' Hs Hld).
Qed.

Lemma votes_ok_RV n c k r src dst e args nd rf' reply :
  votes_ok n c →
  net c !! k = Some (RVReq src dst e args) → nodes c !! dst = Some nd →
  RequestVote r args (rf nd) = Some (rf', reply) →
  votes_ok n (add_grants (if rvr_VoteGranted reply
                     then [(currentTerm rf', dst, rva_CandidateId args)] else [])
          (set_net (delete k (net c) ++ [RVRep dst src e reply]) (set_node dst (set_rf rf' nd) c))).
Proof.
  intros [Hnet Hel Hld] Hk Hd HR.
  apply RequestVote_spec in HR as (_&_&_&_&_&_&_&_&_&Hv).
  destruct (Forall_lookup_1 _ _ _ _ Hnet Hk) as (nds&el&Hs&He&->).
  destruct (Hel _ _ _ _ Hs He) as (Hcid&_&_).
  set (c' := add_grants _ _).
  assert (Hg : grants c ⊆ grants c') by (simpl; destruct (rvr_VoteGranted reply); set_solver).
  assert (Hgrow : elections_grow c c').
  { intros j nd0 e0 E Hj HE. destruct (decide (dst = j)) as [->|Hne].
    - assert (nd0 = nd) as -> by congruence. exists (set_rf rf' nd), E. split_and!; [|done..].
      apply list_lookup_insert_eq. by eapply lookup_lt_Some.
    - exists nd0, E. simpl. by rewrite list_lookup_insert_ne. }
  assert (Hp : ∀ j e0, pending j e0 (net c') ≡ₚ pending j e0 (net c)).
  { intros j e0. simpl. rewrite (pending_delete_msg j e0 _ _ _ Hk), pending_app, pending_cons. simpl.
    case_decide; simpl; [|by rewrite !app_nil_r]. by rewrite Permutation_app_comm. }
  split.
  - apply Forall_app. split.
    + apply Forall_delete. eapply Forall_impl; [exact Hnet|]. eauto using msg_votes_ok_mono.
    + apply Forall_singleton. destruct (Hgrow _ _ _ _ Hs He) as (nd'&el'&?&?&Ha).
      exists nd', el'. split_and!; [done..|]. intros Hgr. rewrite Ha. simpl. rewrite Hgr in *.
      destruct Hv as (->&_). rewrite Hcid. set_solver.
  - intros j nd' e0 E Hj HE. eapply election_ok_mono; [done|by rewrite Hp|].
    apply list_lookup_insert_Some in Hj as [(->&<-&_)|[_ Hj]]; eauto.
  - exact (leaders_ok_mono n c c' Hg Hld).
Qed.

(** Counting a granted reply moves its sender from the pending peers to the
    voters; a majority of voters makes a quorum. *)
Lemma election_ok_count c c' i e el el' k src reply :
  election_ok c i e el →
  net c !! k = Some (RVRep src i e reply) → net c' = delete k (net c) → grants c' = grants c →
  (rvr_VoteGranted reply = true → (rva_Term (el_args el), src, Z.of_nat i) ∈ grants c) →
  el_args el' = el_args el →
  (votes el' = votes el ∨ votes el' = votes el + 1 ∧ rvr_VoteGranted reply = true) →
  election_ok c' i e el'.
Proof.
  intros (Hcid&Hself&V&HV&Hvs&HVg) Hk Hn Hg Hgr Ha Hv.
  pose proof (pending_delete_msg i e _ _ _ Hk) as Hp. simpl in Hp.
  rewrite decide_True in Hp by done. simpl in Hp. rewrite Hp in HV. rewrite <- Hn in HV.
  unfold election_ok. rewrite Hg, Ha. split_and!; [done..|].
  destruct Hv as [->|[-> Hgranted]].
  - exists V. split_and!; [|done..]. eapply submseteq_NoDup; [|exact HV].
    apply submseteq_skip, submseteq_skips_l. by apply submseteq_cons.
  - exists (src :: V). split_and!.
    + by rewrite <- Permutation_middle in HV.
    + rewrite len_cons. lia.
    + set_solver.
Qed.

Lemma election_ok_quorum c n i e el :
  election_ok c i e el → Z.of_nat n / 2 < votes el →
  ∃ Q, quorum_for c n (rva_Term (el_args el)) i Q.
Proof.
  intros (_&Hself&V&HV&->&HVg) Hlt. exists (i :: V). split_and!.
  - rewrite app_comm_cons in HV. by apply NoDup_app in HV as [? _].
  - rewrite len_cons. lia.
  - set_solver.
Qed.

Lemma votes_ok_RVRep n c k r src dst e reply nd el rf' el' gos :
  wf n c → votes_ok n c →
  net c !! k = Some (RVRep src dst e reply) → nodes c !! dst = Some nd →
  elections nd !! e = Some el →
  handleVoteReply r el reply (rf nd) = (rf', el', gos) →
  votes_ok n (add_leaders (match gos with [] => [] | _ => [(currentTerm rf', dst)] end)
          (add_resets (reset_of dst (rf nd) rf')
            (set_net (delete k (net c))
              (set_node dst (spawn gos (mkNode rf' (<[e := el']> (elections nd)) (rounds nd) (senders nd) (heartbeats nd) (attempts nd) (applyCh nd))) c)))).
Proof.
  intros Hwf [Hnet Hel Hld] Hk Hd He HR.
  apply handleVoteReply_spec in HR as (Ha&Hv&HR).
  destruct (wf_id _ _ Hwf _ _ Hd) as [_ Hpeers].
  destruct (Forall_lookup_1 _ _ _ _ Hnet Hk) as (nd0&el0&Hs&He0&Hgr).
  assert (nd0 = nd) as -> by congruence. assert (el0 = el) as -> by congruence. clear Hs He0.
  set (c' := add_leaders _ _).
  assert (Hg : grants c ⊆ grants c') by done.
  assert (Hcount : election_ok c' dst e el').
  { apply (election_ok_count c c' dst e el el' k src reply); eauto.
    destruct ((rvr_Term reply <=? currentTerm (rf nd)) && rvr_VoteGranted reply) eqn:E; bools; auto. }
  assert (Hgrow : elections_grow c c').
  { intros j nd0 e0 E Hj HE. destruct (decide (dst = j)) as [->|Hne].
    - assert (nd0 = nd) as -> by congruence.
      eexists. assert (∃ E', <[e:=el']> (elections nd) !! e0 = Some E' ∧ el_args E' = el_args E) as (E'&?&?).
      { destruct (decide (e = e0)) as [->|]; [|rewrite list_lookup_insert_ne by done; eauto].
        rewrite list_lookup_insert_eq by (by eapply lookup_lt_Some). eexists; split; [done|congruence]. }
      exists E'. split_and!; [apply list_lookup_insert_eq; by eapply lookup_lt_Some| |done].
      by rewrite spawn_elections.
    - exists nd0, E. simpl. by rewrite list_lookup_insert_ne. }
  split.
  - apply Forall_delete. eapply Forall_impl; [exact Hnet|]. eauto using msg_votes_ok_mono.
  - intros j nd' e0 E Hj HE.
    assert (Hp : pending j e0 (net c') ⊆+ pending j e0 (net c))
      by apply sublist_submseteq, sublist_omap, sublist_delete.
    apply list_lookup_insert_Some in Hj as [(->&<-&_)|[_ Hj]]; [|by eauto using election_ok_mono].
    rewrite spawn_elections in HE. apply list_lookup_insert_Some in HE as [(->&<-&_)|[_ HE]];
      eauto using election_ok_mono.
  - intros T j HT. simpl in HT. apply elem_of_app in HT as [HT|HT];
      [|by apply (leaders_ok_mono n c c' Hg Hld)].
    destruct HR as [[-> _]|[(->&_)|(->&->&_&HT'&_&_&Hmaj)]]; [by apply elem_of_nil in HT..|].
    apply list_elem_of_singleton in HT. simplify_eq. simpl. rewrite HT', <- Ha.
    rewrite Hpeers in Hmaj. eauto using election_ok_quorum.
Qed.

Lemma votes_ok_reachable n r c : reachable n r c → votes_ok n c.
Proof.
  revert c. apply reachable_ind.
  { split; [by constructor| |set_solver]. by intros i nd e el [_ ->]%start_lookup ?. }
  intros c l c' Hr Hok Hs. pose proof (wf_reachable _ _ _ Hr) as Hwf.
  assert (Hins : ∀ i nd nd' j, nodes c !! i = Some nd → elections nd' = elections nd →
     elections <$> <[i:=nd']> (nodes c) !! j = elections <$> nodes c !! j).
  { intros i nd nd' j Hi He. destruct (decide (i = j)) as [->|];
      [|by rewrite list_lookup_insert_ne].
    rewrite list_lookup_insert_eq by (by eapply lookup_lt_Some). rewrite Hi. simpl. by rewrite He. }
  destruct Hs; eauto using votes_ok_Attempt, votes_ok_RV, votes_ok_RVRep;
    eapply votes_ok_frame; eauto; try (intros; eapply Hins; eauto; apply spawn_elections).
  all: try (exists 0%nat, []; by auto).
  - eexists 0%nat, _. split; [right; left; done|by apply Forall_singleton].
  - eexists _, _. split; [right; right; done|by apply Forall_singleton].
  - eexists _, []. split; [right; right; by rewrite app_nil_r|done].
  - eexists _, []. split; [right; right; by rewrite app_nil_r|done].
    Unshelve. all: exact 0%nat.
Qed.

(** ** A vote is given once per term, unless it is cleared *)

(** A critical section other than the granting of a vote keeps the vote, moves
    to a later term, or makes the peer step down. *)
Definition vote_kept (f f' : Raft Cmd) : Prop :=
  currentTerm f ≤ currentTerm f' ∧
  (currentTerm f' = currentTerm f →
   votedFor f' = votedFor f ∨ state f ≠ FOLLOWER ∧ state f' = FOLLOWER).

Record unique_ok c : Prop := {
  uq_node : ∀ T v cand, (T, v, cand) ∈ grants c → 0 ≤ cand ∧
    ∃ nd, nodes c !! v = Some nd ∧ T ≤ currentTerm (rf nd) ∧
      (T = currentTerm (rf nd) → votedFor (rf nd) = cand ∨ (T, v) ∈ resets c);
  uq_vote : ∀ T v a b, (T, v, a) ∈ grants c → (T, v, b) ∈ grants c → a = b ∨ (T, v) ∈ resets c
}.

(** Steps that grant no vote. *)
Lemma unique_ok_frame c c' i nd nd' :
  unique_ok c → nodes c !! i = Some nd → nodes c' = <[i := nd']> (nodes c) →
  grants c' = grants c → resets c ⊆ resets c' →
  vote_kept (rf nd) (rf nd') →
  (reset_of i (rf nd) (rf nd') ⊆ resets c') →
  unique_ok c'.
Proof.
  intros [Hn Hu] Hi Hnodes Hg Hr [HT Hk] Hreset. split; rewrite Hg.
  - intros T v cand Hin. destruct (Hn _ _ _ Hin) as (?&nd0&Hnd0&HT0&Hv0). split; [done|].
    rewrite Hnodes. destruct (decide (i = v)) as [->|Hne].
    + assert (nd0 = nd) as -> by congruence. exists nd'.
      rewrite list_lookup_insert_eq by (by eapply lookup_lt_Some). split_and!; [done|lia|].
      intros HTe. destruct (Hk ltac:(lia)) as [Hkeep|Hdown].
      * rewrite Hkeep. destruct (Hv0 ltac:(lia)); auto.
      * right. apply Hreset. unfold reset_of. rewrite decide_True by (split_and!; [tauto..|lia]).
        rewrite HTe. set_solver.
    + exists nd0. rewrite list_lookup_insert_ne by done. split_and!; [done..|].
      intros HTe. destruct (Hv0 HTe); auto.
  - intros T v a b Ha Hb. destruct (Hu _ _ _ _ Ha Hb); auto.
Qed.

(** Steps that grant one. *)
Lemma unique_ok_grant c c' i nd nd' T cand :
  unique_ok c → nodes c !! i = Some nd → nodes c' = <[i := nd']> (nodes c) →
  grants c' = (T, i, cand) :: grants c → resets c' = resets c → 0 ≤ cand →
  currentTerm (rf nd') = T → votedFor (rf nd') = cand →
  currentTerm (rf nd) ≤ T →
  (currentTerm (rf nd) = T → votedFor (rf nd) = -1 ∨ votedFor (rf nd) = cand) →
  unique_ok c'.
Proof.
  intros [Hn Hu] Hi Hnodes Hg Hr Hc HT Hv Hle Hfree.
  assert (Hold : ∀ b, (T, i, b) ∈ grants c → cand = b ∨ (T, i) ∈ resets c).
  { intros b Hb. destruct (Hn _ _ _ Hb) as (Hb0&nd0&Hnd0&HT0&Hv0).
    assert (nd0 = nd) as -> by congruence.
    destruct (Hv0 ltac:(lia)) as [Hvb|]; [|by right].
    destruct (Hfree ltac:(lia)); [lia|left; congruence]. }
  split; rewrite Hg, Hr.
  - intros T0 v cand0 [Heq|Hin]%elem_of_cons.
    + simplify_eq. split; [done|]. exists nd'. rewrite Hnodes, list_lookup_insert_eq
        by (by eapply lookup_lt_Some). split_and!; [done|lia|auto].
    + destruct (Hn _ _ _ Hin) as (?&nd0&Hnd0&HT0&Hv0). split; [done|].
      rewrite Hnodes. destruct (decide (i = v)) as [->|Hne].
      * assert (nd0 = nd) as -> by congruence. exists nd'.
        rewrite list_lookup_insert_eq by (by eapply lookup_lt_Some). split_and!; [done|lia|].
        intros ->. rewrite HT in *. destruct (Hold _ Hin); [left; congruence|by right].
      * exists nd0. by rewrite list_lookup_insert_ne.
  - intros T0 v a b [Ha|Ha]%elem_of_cons [Hb|Hb]%elem_of_cons; simplify_eq; auto.
    destruct (Hold _ Ha); auto.
Qed.

Lemma vote_kept_refl (f f' : Raft Cmd) :
  currentTerm f' = currentTerm f → votedFor f' = votedFor f → vote_kept f f'.
Proof. split; [lia|auto]. Qed.

Lemma vote_kept_follower r T (f : Raft Cmd) : currentTerm f < T → vote_kept f (conevrtToFollower r T f).
Proof. split; raft_simpl; lia. Qed.

Lemma vote_kept_AE r args (f f' : Raft Cmd) rep :
  AppendEntries r args f = Some (f', rep) → vote_kept f f'.
Proof.
  intros H%AppendEntries_outcome. destruct H; unfold vote_kept, accepted; raft_simpl; split; auto; lia.
Qed.

Lemma vote_kept_HB r rd i args rep (f f' : Raft Cmd) rd' :
  handleHeartBeatReply r rd i args rep f = Some (f', rd') → vote_kept f f'.
Proof.
  intros [(_&?&->&_)|[(_&_&_&next&_&->)|(_&next&mtch&_&_&_&H)]]%handleHeartBeatReply_spec;
    [by apply vote_kept_follower|by apply vote_kept_refl|].
  destruct (_ || _); destruct H as [-> _]; by apply vote_kept_refl.
Qed.

Lemma vote_kept_vote r el rep (f f' : Raft Cmd) el' gos :
  handleVoteReply r el rep f = (f', el', gos) → vote_kept f f'.
Proof.
  intros (_&_&[[_ ->]|[(_&?&->)|(_&->&_)]])%handleVoteReply_spec;
    [by apply vote_kept_refl|by apply vote_kept_follower|by apply vote_kept_refl].
Qed.

Lemma unique_ok_reachable n r c : reachable n r c → unique_ok c.
Proof.
  revert c. apply reachable_ind; [split; set_solver|].
  intros c l c' Hreach Hu Hs. pose proof (wf_reachable _ _ _ Hreach) as Hwf.
  pose proof (votes_ok_reachable _ _ _ Hreach) as Hvo.
  assert (Hidle : ∀ i nd nd', nodes c !! i = Some nd → rf nd' = rf nd →
     unique_ok (set_node i nd' c)).
  { intros i nd nd' Hi Hrf. eapply (unique_ok_frame c); eauto; rewrite ?Hrf; [by apply vote_kept_refl|].
    unfold reset_of. rewrite decide_False by tauto. set_solver. }
  assert (Hnet : ∀ d ms, unique_ok d → unique_ok (set_net ms d)) by (intros ?? []; split; done).
  destruct Hs as [i nd t Hi|i r0 nd a rf' el dsts Hi _ HA|k r0 src dst e args nd rf' rep Hk Hi HR
    |k r0 src dst e rep nd el rf' el' gos Hk Hi He HR|i nd h Hi|i nd h rd ds Hi|i k nd rd d args Hi
    |k r0 src dst rd args nd rf' rep Hk Hi HR|k r0 src dst d args rep nd rd rf' rd' Hk Hi Hrd HR|k m
    |i cmd nd rf' res Hi HR|i nd rf' om Hi HR|i nd Hi]; eauto using spawn_rf.
  - apply AttemptEletion_spec in HA as ([_ Hme _]&_&_&HT&Hv&_&_&_&_&_&HaT&_).
    destruct (wf_id _ _ Hwf _ _ Hi) as [Hid _].
    eapply (unique_ok_grant c); eauto; simpl; [lia|congruence|lia|lia].
  - apply RequestVote_spec in HR as (_&_&Hst&_&_&_&_&_&HT&Hg).
    destruct (Forall_lookup_1 _ _ _ _ (vo_net _ _ Hvo) Hk) as (nds&el&Hsrc&He&->).
    destruct (vo_el _ _ Hvo _ _ _ _ Hsrc He) as (Hcid&_).
    destruct (rvr_VoteGranted rep).
    + destruct Hg as (HT'&Hv&Hfree&_). eapply (unique_ok_grant c _ dst nd (set_rf rf' nd)); eauto; simpl; [lia|lia|].
      rewrite HT'. auto.
    + destruct Hg as (Hv&_). eapply (unique_ok_frame c _ dst nd (set_rf rf' nd)); eauto; simpl.
      * split; [lia|]. intros HTe. left. rewrite Hv, (proj2 (Z.ltb_ge _ _)) by lia. done.
      * unfold reset_of. rewrite decide_False by (rewrite Hst; tauto). set_solver.
  - eapply (unique_ok_frame c); eauto; simpl; rewrite ?spawn_rf; simpl;
      [set_solver|by eapply vote_kept_vote|set_solver].
  - eapply (unique_ok_frame c); eauto; simpl; [set_solver|by eapply vote_kept_AE|set_solver].
  - eapply (unique_ok_frame c); eauto; simpl; [set_solver|by eapply vote_kept_HB|set_solver].
  - apply Start_spec in HR as (_&Hst&HT&Hv&_).
    eapply (unique_ok_frame c); eauto; simpl; [by apply vote_kept_refl|].
    unfold reset_of. rewrite decide_False by (rewrite Hst; tauto). set_solver.
  - assert (state rf' = state (rf nd) ∧ currentTerm rf' = currentTerm (rf nd) ∧ votedFor rf' = votedFor (rf nd)) as (Hst&?&?)
      by (apply apply_spec in HR as [(_&->&_)|(_&_&->&_)]; done).
    eapply (unique_ok_frame c); eauto; simpl; [by apply vote_kept_refl|].
    unfold reset_of. rewrite decide_False by (rewrite Hst; tauto). set_solver.
  - eapply (unique_ok_frame c); eauto; simpl; [by apply vote_kept_refl|].
    unfold reset_of. rewrite decide_False by (simpl; tauto). set_solver.
Qed.

(** ** Delivery to the service *)

(** A step leaves what a peer delivered alone, or delivers the entry that
    follows the last one, which was committed. *)
Definition delivery (nd nd' : @Node Cmd) : Prop :=
  (applyCh nd' = applyCh nd ∧ lastApplied (rf nd') = lastApplied (rf nd)) ∨
  ∃ e, (log (rf nd))@[lastApplied (rf nd) + 1] = Some e ∧
    lastApplied (rf nd) < commitIndex (rf nd) ∧
    applyCh nd' = applyCh nd ++ [command_msg (le_Command e) (lastApplied (rf nd) + 1)] ∧
    lastApplied (rf nd') = lastApplied (rf nd) + 1.

Lemma step_delivery c l c' i nd' :
  step c l c' → nodes c' !! i = Some nd' →
  ∃ nd, nodes c !! i = Some nd ∧ delivery nd nd'.
Proof.
  intros Hs Hi. destruct Hs as [j nd t Hj|j r0 nd a rf' el dsts Hj _ HA|k r0 src dst e args nd rf' rep Hk Hj HR
    |k r0 src dst e rep nd el rf' el' gos Hk Hj He HR|j nd h Hj|j nd h rd ds Hj|j k nd rd d args Hj
    |k r0 src dst rd args nd rf' rep Hk Hj HR|k r0 src dst d args rep nd rd rf' rd' Hk Hj Hrd HR|k m
    |j cmd nd rf' res Hj HR|j nd rf' om Hj HR|j nd Hj]; simpl in Hi;
    try (apply list_lookup_insert_Some in Hi as [(->&<-&_)|[_ Hi]]; [|by exists nd'; unfold delivery; auto]);
    try (by exists nd'; unfold delivery; auto);
    (exists nd; split; [done|]; unfold delivery; rewrite ?spawn_rf, ?spawn_applyCh; simpl; auto).
  - left. apply AttemptEletion_spec in HA. tauto.
  - left. apply RequestVote_spec in HR. tauto.
  - left. apply handleVoteReply_spec in HR as (_&_&[[_ ->]|[(_&_&->)|(_&->&_)]]); by raft_simpl.
  - left. apply AppendEntries_outcome in HR. destruct HR; unfold accepted; by raft_simpl.
  - left. apply handleHeartBeatReply_spec in HR as [(_&?&->&_)|[(_&_&_&next&_&->)|(_&next&mtch&_&_&_&H)]];
      [by raft_simpl|done|]. destruct (_ || _); destruct H as [-> _]; done.
  - left. apply Start_spec in HR. tauto.
  - apply apply_spec in HR as [(->&->&_)|(_&?&->&e&?&->)]; simpl; [left; by rewrite app_nil_r|].
    right. exists e. auto.
Qed.

Lemma applied_reachable n r c i nd :
  reachable n r c → nodes c !! i = Some nd →
  lastApplied (rf nd) = len (applyCh nd) ∧
  ∀ k m, applyCh nd !! k = Some m → CommandValid m = true ∧ CommandIndex m = Z.of_nat k + 1.
Proof.
  intros Hr. revert nd. revert c Hr. refine (reachable_ind n r _ _ _).
  - intros nd [_ ->]%start_lookup. unfold Make. raft_simpl. split; [done|]. by intros k m ?.
  - intros c l c' _ IH Hs nd' Hi. destruct (step_delivery _ _ _ _ _ Hs Hi) as (nd&Hnd&Hd).
    destruct (IH nd Hnd) as [Hla Hch].
    destruct Hd as [[-> ->]|(e&_&_&->&->)]; [auto|]. split.
    { rewrite len_app, Hla. done. }
    intros k m [Hk|[Hk Hm]]%lookup_app_Some; [auto|].
    apply list_lookup_singleton_Some in Hm as [Hk' <-]. simpl. split; [done|].
    rewrite Hla. unfold len. lia.
Qed.
End Invariants.
End RaftInvariants.
