(* ===== verification/RaftReplication.v ===== *)
(** * Replication to one follower converges

    A leader that keeps sending heartbeats to a live follower of no later term:
    [replicate] chains the three critical sections of one exchange.  The index
    kept in [termToIndex] makes the leader back off by at least one term per
    refusal, so after at most (term of the first previous entry) + 1 exchanges
    the follower's log is the leader's. *)

From S2P Require Import Prelude RaftServer RaftServerFacts.

Module RaftReplication.
Import RaftServer RaftServerFacts.
Section Replication.
Context {Cmd : Type}.
Implicit Types L F : Raft Cmd.

(** One exchange between a leader and its peer [i]. *)
Definition replicate (s i : Z) (LF : Raft Cmd * Raft Cmd) : option (Raft Cmd * Raft Cmd) :=
  let '(L, F) := LF in
  args ← HeartBeat_args i L;
  '(F', reply) ← AppendEntries s args F;
  '(L', _) ← handleHeartBeatReply s (mkRound 1 false) i args reply L;
  Some (L', F').

Fixpoint replicates (s i : Z) (k : nat) (LF : Raft Cmd * Raft Cmd) : option (Raft Cmd * Raft Cmd) :=
  match k with
  | O => Some LF
  | S k => LF' ← replicate s i LF; replicates s i k LF'
  end.

(** [termToIndex] maps a term to the index of its first entry. *)
Definition tti_ok (m : gmap Z Z) (l : list (LogEntry Cmd)) : Prop :=
  ∀ t, 0 < t → map_get m t ≠ 0 →
  ∃ e p, l@[map_get m t] = Some e ∧ le_Term e = t ∧ l@[map_get m t - 1] = Some p ∧ le_Term p < t.

(** A leader ready to replicate to peer [i], with [next] its next index. *)
Record leader_ok (i next : Z) L : Prop := {
  ld_log : log_ok (currentTerm L) (log L);
  ld_pos : ∀ k e, 0 < k → (log L)@[k] = Some e → 0 < le_Term e;
  ld_tti : tti_ok (termToIndex L) (log L);
  ld_next : (nextIndex L)@[i] = Some next;
  ld_range : 1 ≤ next ≤ len (log L);
  ld_match : len (matchIndex L) = len (nextIndex L)
}.

(** A live follower of the leader's term or an earlier one, whose log starts
    with the sentinel and satisfies the log matching property with the
    leader's. *)
Record follower_ok L F : Prop := {
  fo_state : state F = FOLLOWER;
  fo_term : currentTerm F ≤ currentTerm L;
  fo_head : ∃ e, (log F)@[0] = Some e ∧ le_Term e = 0;
  fo_matching : ∀ k e e', (log L)@[k] = Some e → (log F)@[k] = Some e' → le_Term e = le_Term e' →
    take (Z.to_nat (k + 1)) (log F) = take (Z.to_nat (k + 1)) (log L)
}.

Lemma backoff_spec m k :
  backoff m k = 1 ∨
  ∃ t, 0 < t ≤ Z.of_nat k ∧ backoff m k = map_get m t ∧ map_get m t ≠ 0.
Proof.
  induction k as [|k IH]; cbn [backoff]; [by left|].
  destruct (Z.eqb_spec (map_get m (Z.of_nat (S k))) 0).
  - destruct IH as [|(t&?&?&?)]; [by left|right]. exists t. split_and!; [lia..|done|done].
  - right. exists (Z.of_nat (S k)). split_and!; [lia..|done|done].
Qed.

Lemma log_ok_first T (l : list (LogEntry Cmd)) : log_ok T l → ∃ e, l@[0] = Some e ∧ le_Term e = 0.
Proof.
  intros [H _ _]. unfold terms in H. rewrite list_lookup_fmap in H.
  apply fmap_Some in H as (e&He&Ht). exists e. split; [exact He|done].
Qed.

(** After a refusal the leader resumes after an entry of an earlier term. *)
Lemma backoff_progress i next L prev :
  leader_ok i next L → (log L)@[next - 1] = Some prev → 0 < le_Term prev →
  let b := backoff (termToIndex L) (Z.to_nat (le_Term prev - 1)) in
  1 ≤ b ≤ len (log L) ∧ ∃ p, (log L)@[b - 1] = Some p ∧ le_Term p < le_Term prev.
Proof.
  intros [Hlog Hpos Htti _ Hr _] Hprev Ht b.
  destruct (backoff_spec (termToIndex L) (Z.to_nat (le_Term prev - 1))) as [Hb|(t&Hrange&Hb&Hne)];
    fold b in Hb.
  - rewrite Hb. pose proof (log_ok_nonempty _ _ Hlog). split; [lia|].
    destruct (log_ok_first _ _ Hlog) as (e&He&Hz). exists e. split; [done|lia].
  - destruct (Htti t ltac:(lia) Hne) as (e&p&He&_&Hp&Hlt). rewrite <- Hb in *.
    apply idx_Some_range in He. pose proof (idx_Some_range _ _ _ Hp). split; [lia|].
    exists p. split; [done|lia].
Qed.

Lemma HeartBeat_args_spec i next L :
  leader_ok i next L →
  ∃ prev, (log L)@[next - 1] = Some prev ∧
    HeartBeat_args i L = Some (mkAppendEntriesArgs (currentTerm L) (me L) (next - 1) (le_Term prev)
                                 (drop (Z.to_nat next) (log L)) (commitIndex L) (termToIndex L)).
Proof.
  intros [_ _ _ Hnext Hr _]. destruct (idx_in_range (log L) (next - 1)) as [prev Hprev]; [lia|].
  exists prev. split; [done|]. unfold HeartBeat_args. rewrite Hnext. simpl. rewrite Hprev. simpl.
  rewrite slice_from_in_range by lia. done.
Qed.

(** An exchange either makes the logs equal or moves the leader to an entry of
    an earlier term, keeping both logs. *)
Lemma replicate_progress s i next L F prev :
  leader_ok i next L → follower_ok L F → (log L)@[next - 1] = Some prev →
  ∃ L' F', replicate s i (L, F) = Some (L', F') ∧ log L' = log L ∧
    (log F' = log L ∧ (nextIndex L')@[i] = Some (len (log L)) ∨
     ∃ next' prev', leader_ok i next' L' ∧ follower_ok L' F' ∧
       (log L')@[next' - 1] = Some prev' ∧ 0 ≤ le_Term prev' < le_Term prev).
Proof.
  intros HL HF Hprev.
  destruct (HeartBeat_args_spec _ _ _ HL) as (prev0&Hprev0&Hargs). assert (prev0 = prev) as -> by congruence.
  unfold replicate. rewrite Hargs. cbn [mbind option_bind]. set (args := mkAppendEntriesArgs _ _ _ _ _ _ _).
  pose proof (ld_range _ _ _ HL) as Hr. pose proof (idx_Some_range _ _ _ (ld_next _ _ _ HL)) as Hi.
  pose proof (ld_match _ _ _ HL) as Hm.
  destruct (AppendEntries_total s args F) as [[F' rep] HA]; [simpl; lia|]. rewrite HA. cbn [mbind option_bind].
  apply AppendEntries_outcome in HA. pose proof (fo_term _ _ HF). pose proof (fo_state _ _ HF).
  inversion HA as [Hlt|Hst|Hst HT Hmis|e Hst HT He Hte]; subst; simpl in *; [lia|congruence|..].
  - (* refused *)
    assert (Hpos : 0 < le_Term prev).
    { destruct (fo_head _ _ HF) as (e0&He0&Hz). destruct (log_ok_first _ _ (ld_log _ _ _ HL)) as (e1&He1&Hz1).
      destruct (decide (next - 1 = 0)) as [E|E]; [|apply (ld_pos _ _ _ HL (next - 1)); [lia|done]].
      rewrite E in *. exfalso. apply (Hmis _ He0). congruence. }
    destruct (backoff_progress _ _ _ _ HL Hprev Hpos) as (Hb&p&Hp&Hlt).
    set (b := backoff _ _) in *.
    unfold handleHeartBeatReply. cbn [aer_Success aer_Term negb]. rewrite Z.gtb_ltb, Z.ltb_irrefl.
    unfold args at 1. cbn [aea_PrevLogTerm]. fold b. rewrite upd_in_range by lia. cbn [mbind option_bind].
    eexists _, _. split; [done|]. split; [done|]. right. exists b, p. destruct HL as [? ? ? ? ? ?]. split_and!.
    + split; simpl; try done. 
      * erewrite idx_upd by (by apply upd_in_range). by rewrite Z.eqb_refl.
      * unfold len. by rewrite length_insert.
    + destruct HF. split; raft_simpl; done || lia.
    + done.
    + destruct (log_ok_first _ _ ld_log0) as (e0&He0&Hz).
      destruct (decide (b - 1 = 0)) as [E|E]; [rewrite E in Hp; simplify_eq; lia|].
      apply idx_Some_range in Hp as ?. pose proof (ld_pos0 (b - 1) p ltac:(lia) Hp). lia.
    + done.
  - (* accepted *)
    assert (Hlog : log (accepted s args F) = log L).
    { unfold accepted. simpl. rewrite (fo_matching _ _ HF (next - 1) prev e) by congruence.
      replace (next - 1 + 1) with next by lia. apply take_drop. }
    unfold handleHeartBeatReply. cbn [aer_Success negb].
    rewrite !upd_in_range by lia. cbn [mbind option_bind].
    assert (Hnext : (<[Z.to_nat i:=len (log L)]> (nextIndex L))@[i] = Some (len (log L))).
    { erewrite idx_upd by (by apply upd_in_range). by rewrite Z.eqb_refl. }
    destruct (_ || _); eexists _, _; (split; [done|]; split; [done|]; left; split; done).
Qed.

Lemma replicates_converge s i next L F prev :
  leader_ok i next L → follower_ok L F → (log L)@[next - 1] = Some prev →
  ∃ k L' F', (k ≤ S (Z.to_nat (le_Term prev)))%nat ∧
    replicates s i k (L, F) = Some (L', F') ∧
    log F' = log L ∧ log L' = log L ∧ (nextIndex L')@[i] = Some (len (log L)).
Proof.
  remember (Z.to_nat (le_Term prev)) as m eqn:Hm. revert next L F prev Hm.
  induction m as [m IH] using lt_wf_ind. intros next L F prev -> HL HF Hprev.
  destruct (replicate_progress s i next L F prev HL HF Hprev) as (L1&F1&H1&HlogL&[[HlogF Hn]|Hgo]).
  - exists 1%nat, L1, F1. cbn [replicates]. rewrite H1. split_and!; [lia|done|congruence..].
  - destruct Hgo as (next'&prev'&HL1&HF1&Hp&Hlt).
    destruct (IH (Z.to_nat (le_Term prev')) ltac:(lia) next' L1 F1 prev' eq_refl HL1 HF1 Hp)
      as (k&L'&F'&Hk&Hrun&HF'&HL'&Hn).
    exists (S k), L', F'. cbn [replicates]. rewrite H1. split_and!; [lia|done|congruence..].
Qed.

(** C10: replication converges.  Take a leader whose log is in order of terms from the
    sentinel on, whose [termToIndex] points to the first entries of terms and whose
    [nextIndex] for the follower is within its log, and a follower of the same or an
    earlier term whose log starts with the sentinel and matches the leader's.  Then at
    most (term of the entry before [nextIndex]) + 1 heartbeat exchanges make the
    follower's log equal to the leader's, leave the leader's log as it was and set
    [nextIndex] to its length. *)
Theorem replication_converges s i next L F prev :
  leader_ok i next L → follower_ok L F → (log L)@[next - 1] = Some prev →
  ∃ k L' F', (k ≤ S (Z.to_nat (le_Term prev)))%nat ∧
    replicates s i k (L, F) = Some (L', F') ∧
    log F' = log L ∧ log L' = log L ∧ (nextIndex L')@[i] = Some (len (log L)).
Proof. apply replicates_converge. Qed.

(** [Start] keeps [termToIndex]: the first entry of its term is noted. *)
Lemma Start_keeps_tti L L' c res :
  log_ok (currentTerm L) (log L) → tti_ok (termToIndex L) (log L) → Start c L = Some (L', res) →
  tti_ok (termToIndex L') (log L').
Proof.
  intros Hlog Htti HS. apply Start_spec in HS as (_&_&_&_&_&_&_&_&[(_&->&_)|(_&Hl&_&e&He&Htti')]); [done|].
  assert (Hold : ∀ t, 0 < t → map_get (termToIndex L) t ≠ 0 → ∃ x p,
    (log L')@[map_get (termToIndex L) t] = Some x ∧ le_Term x = t ∧
    (log L')@[map_get (termToIndex L) t - 1] = Some p ∧ le_Term p < t).
  { intros t Ht Hne. destruct (Htti t Ht Hne) as (x&p&Hx&?&Hp&?).
    exists x, p. rewrite Hl, !idx_app_l by (apply idx_Some_range in Hx, Hp; lia). done. }
  rewrite Htti'. destruct (Z.eqb_spec (le_Term e) (currentTerm L)); [exact Hold|].
  intros t Ht Hne. unfold map_get in *. destruct (decide (t = currentTerm L)) as [->|];
    [|rewrite lookup_insert_ne in * by done; eauto].
  rewrite lookup_insert_eq. simpl. eexists _, e. split_and!; [by rewrite Hl, idx_app_r, Z.sub_diag by lia|done| |].
  - rewrite Hl, idx_app_l by lia. by rewrite idx_last.
  - destruct (log_ok_idx_last _ _ Hlog) as (e'&_&He'&?). simplify_eq. lia.
Qed.

(** A client command keeps a leader ready to replicate: [Start] appends at
    the index it returns, and [termToIndex] still maps every term to its first
    entry. *)
Theorem Start_keeps_leader_ok i next L L' c res :
  leader_ok i next L → state L = LEADER → 0 < currentTerm L →
  Start c L = Some (L', res) →
  leader_ok i next L' ∧ res = (len (log L), currentTerm L, true) ∧
  (log L')@[len (log L)] = Some (mkLogEntry (currentTerm L) (Some c)).
Proof.
  intros [Hlog Hpos Htti Hnext Hr Hm] Hst HT HS. pose proof (Start_keeps_tti _ _ _ _ Hlog Htti HS) as Htti'.
  apply Start_spec in HS as (_&_&HT'&_&_&_&Hn&Hmi&[[]|(_&Hl&->&_)]); [done|].
  assert (Hnew : (log L')@[len (log L)] = Some (mkLogEntry (currentTerm L) (Some c))).
  { rewrite Hl, idx_app_r, Z.sub_diag by lia. done. }
  split; [|done]. split; rewrite ?HT', ?Hn, ?Hmi; 
    [rewrite Hl; by apply log_ok_snoc| |done|done|unfold len in *; rewrite Hl, length_app; simpl; lia|done].
  intros k x Hk Hx. destruct (decide (k < len (log L))).
  - rewrite Hl, idx_app_l in Hx by done. eauto.
  - apply idx_Some_range in Hx as Hkr. rewrite Hl, len_app in Hkr. unfold len at 2 in Hkr. simpl in Hkr.
    assert (k = len (log L)) as -> by lia. rewrite Hnew in Hx. by simplify_eq.
Qed.
End Replication.

(** ** A concrete leader and a follower with a conflicting suffix *)

Definition entry (t : Z) (c : nat) : LogEntry nat := mkLogEntry t (Some c).
Definition demo_leader : Raft nat :=
  mkRaft 2 0 0 3 0 [mkLogEntry 0 None; entry 1 1; entry 1 2; entry 3 3] LEADER None 0 0 [4; 4] [0; 0]
    {[0 := 0; 1 := 1; 3 := 3]}.
Definition demo_follower : Raft nat :=
  mkRaft 2 1 0 2 (-1) [mkLogEntry 0 None; entry 1 1; entry 2 7; entry 2 8; entry 2 9] FOLLOWER None 0 0 [] [] {[0 := 0]}.

(** Enumerates the entries of a concrete log. *)
Ltac by_index H :=
  let Hr := fresh in pose proof (idx_Some_range _ _ _ H) as Hr; unfold len in Hr; simpl in Hr.

Lemma demo_leader_ok : leader_ok 1 4 demo_leader.
Proof.
  split; try done.
  - split; unfold terms; simpl; [done| |repeat constructor; lia]. repeat constructor; lia.
  - intros k e Hk He. by_index He.
    assert (k = 1 ∨ k = 2 ∨ k = 3) as [->|[->| ->]] by lia; vm_compute in He; by simplify_eq.
  - intros t Ht Hne. unfold map_get in *. simpl in *.
    destruct (decide (t = 3)) as [->|]; [vm_compute; eauto 10|].
    destruct (decide (t = 1)) as [->|]; [vm_compute; eauto 10|].
    exfalso. apply Hne. rewrite !lookup_insert_ne by lia. rewrite lookup_singleton_ne by lia. done.
Qed.

Lemma demo_follower_ok : follower_ok demo_leader demo_follower.
Proof.
  split; [done|done|by eexists|].
  intros k e e' He He' Ht. by_index He.
  assert (k = 0 ∨ k = 1 ∨ k = 2 ∨ k = 3) as [->|[->|[->| ->]]] by lia; vm_compute in He, He'; by simplify_eq.
Qed.

Lemma replication_converges_witness :
  ∃ k L' F', (k ≤ S (Z.to_nat 3))%nat ∧
    replicates 0 1 k (demo_leader, demo_follower) = Some (L', F') ∧
    log F' = log demo_leader ∧ log L' = log demo_leader ∧ (nextIndex L')@[1] = Some (len (log demo_leader)).
Proof.
  apply (replication_converges 0 1 4 demo_leader demo_follower (entry 3 3));
    [apply demo_leader_ok|apply demo_follower_ok|reflexivity].
Defined.

Lemma Start_keeps_leader_ok_witness :
  ∃ L' res, Start 5%nat demo_leader = Some (L', res) ∧ leader_ok 1 4 L' ∧
    res = (len (log demo_leader), currentTerm demo_leader, true) ∧
    (log L')@[len (log demo_leader)] = Some (mkLogEntry (currentTerm demo_leader) (Some 5%nat)).
Proof.
  eexists _, _. split; [reflexivity|].
  eapply (Start_keeps_leader_ok 1 4 demo_leader _ 5%nat); [apply demo_leader_ok|done|done|reflexivity].
Defined.
End RaftReplication.
