(* ===== verification/RaftScenarios.v ===== *)
(** * Executions of a three-peer cluster

    Concrete runs of the executable semantics, used as witnesses of the
    theorems and to exhibit behaviours that the properties of Raft exclude. *)

From S2P Require Import Prelude RaftServer RaftCluster.

Module RaftScenarios.
Import RaftServer RaftCluster.

Definition zero_rand (_ : nat) : Z := 0.
Definition boot : @Cluster nat := start 3 zero_rand.

(** The cluster a list of labels leads to (the initial one if a label is not
    enabled; every use below is with enabled labels). *)
Definition after (ls : list (@Label nat)) : @Cluster nat := default boot (run boot ls).

Lemma after_reachable ls : run boot ls = Some (after ls) → reachable 3 zero_rand (after ls).
Proof. intros H. by exists ls. Qed.

(** Peer 0 is elected in term 1 by peer 1 and peer 2. *)
Definition elect0 : list (@Label nat) :=
  [Timer 0; Attempt 0 0; DeliverRV 0 0; DeliverRVRep 1 0; DeliverRV 0 0; Drop 0].

(** Peers 1 and 2 both become candidates of term 2.  Peer 0, still leader,
    votes for peer 1; a heartbeat of peer 1 makes peer 0 a follower and clears
    its vote, so it votes for peer 2 as well. *)
Definition split_brain : list (@Label nat) :=
  elect0 ++ [Timer 1; Attempt 1 0; Timer 2; Attempt 2 0;
             DeliverRV 0 0; DeliverRVRep 3 0;
             Beat 1; Send 1 0; DeliverAE 3 0;
             DeliverRV 1 0; DeliverRVRep 3 0].

(** Both leaders of term 2 commit a command of their own at index 1: peer 1
    with the acknowledgement of peer 0, peer 2 with that of peer 1, which steps
    down and acknowledges without storing the entry. *)
Definition split_commit : list (@Label nat) :=
  split_brain ++ [ClientStart 1 10%nat; ClientStart 2 20%nat;
                  Beat 1; Send 1 1; DeliverAE 3 0; DeliverAERep 3 0; ApplyOne 1;
                  Beat 2; Send 2 1; DeliverAE 3 0; DeliverAERep 3 0; ApplyOne 2].

(** Peer 1 commits and applies its command and starts another heartbeat round;
    two heartbeats that peer 2 built with an empty log then make peer 1 step
    down and truncate its log. *)
Definition truncated : list (@Label nat) :=
  split_brain ++ [Beat 2; Send 2 1; Beat 2; Send 2 2; (* two empty heartbeats for peer 1 *)
                  ClientStart 1 10%nat; Beat 1; Send 1 1; DeliverAE 5 0; DeliverAERep 5 0; ApplyOne 1;
                  Beat 1;
                  DeliverAE 3 0; DeliverAE 3 0].

(** Peer 1 wins term 2 with the vote of peer 0, which stays in office; both append
    a command at index 1 in term 2.  Peer 2 stores that of peer 0, which commits it;
    peer 0 then acknowledges a heartbeat of peer 1, which commits its own. *)
Definition usurper : list (@Label nat) :=
  elect0 ++ [Timer 1; Attempt 1 0; DeliverRV 0 0; DeliverRVRep 1 0;
             ClientStart 0 10%nat; ClientStart 1 20%nat].
Definition usurper_commit : list (@Label nat) :=
  usurper ++ [Beat 0; Send 0 1; DeliverAE 1 0; DeliverAERep 1 0; ApplyOne 0;
              Beat 1; Send 1 0; DeliverAE 1 0; DeliverAERep 1 0; ApplyOne 1].

End RaftScenarios.
