(* ===== verification/RaftLogMatching.v ===== *)
(** * Log matching

    Which entries can stand at the same index of two logs.  Every entry of a log
    beyond the sentinel was appended by some [Start]; the list of these births, with
    the term of the entry before, is read off an execution.  If no two of them agree
    in index and term, then two logs that agree in the term at an index agree
    up to it (the Log Matching property of Raft), and so do logs and requests in
    flight. *)

From S2P Require Import Prelude RaftServer RaftServerFacts RaftCluster RaftInvariants RaftScenarios.

Module RaftLogMatching.
Import RaftServer RaftServerFacts RaftCluster RaftInvariants RaftScenarios.
Section Matching.
Context {Cmd : Type}.
Implicit Types (c : @Cluster Cmd) (es : list (LogEntry Cmd)).

(** ** Births *)

(** An entry appended by [Start]: where, in which term, what, and the term of the
    entry before it. *)
Record Birth := mkBirth { b_index : Z; b_term : Z; b_cmd : option Cmd; b_prev : Z }.
Definition key (b : Birth) : Z * Z := (b_index b, b_term b).

(** What a label appends at a leader. *)
Definition births_of c (l : Label) : list Birth :=
  match l with
  | ClientStart i cmd =>
      match nodes c !! i with
      | Some nd =>
          if bool_decide (state (rf nd) = LEADER)
          then match last (log (rf nd)) with
               | Some e => [mkBirth (len (log (rf nd))) (currentTerm (rf nd)) (Some cmd) (le_Term e)]
               | None => []
               end
          else []
      | None => []
      end
  | _ => []
  end.

Fixpoint births c (ls : list Label) : list Birth :=
  match ls with
  | [] => []
  | l :: ls => births_of c l ++ match exec c l with Some c' => births c' ls | None => [] end
  end.

Lemma births_app c ls ls' c' : run c ls = Some c' → births c (ls ++ ls') = births c ls ++ births c' ls'.
Proof.
  revert c. induction ls as [|l ls IH]; intros c E; simpl in *; [by simplify_eq|].
  destruct (exec c l) as [c1|]; simpl in E; [|done]. by rewrite (IH c1 E), app_assoc.
Qed.

(** ** Entries that descend from births *)

(** [es] follows an entry of term [t] at index [i]. *)
Fixpoint grown (B : list Birth) (i t : Z) es : Prop :=
  match es with
  | [] => True
  | e :: es => mkBirth (i + 1) (le_Term e) (le_Command e) t ∈ B ∧ grown B (i + 1) (le_Term e) es
  end.

Definition last_term (t : Z) es : Z := default t (le_Term <$> last es).

Lemma grown_app B i t es es' :
  grown B i t (es ++ es') ↔ grown B i t es ∧ grown B (i + len es) (last_term t es) es'.
Proof.
  revert i t. induction es as [|e es IH]; intros i t; simpl.
  - unfold last_term. simpl. replace (i + len []) with i by (unfold len; simpl; lia). tauto.
  - rewrite IH, len_cons. replace (i + 1 + len es) with (i + (len es + 1)) by lia.
    replace (last_term (le_Term e) es) with (last_term t (e :: es)); [tauto|].
    unfold last_term. by destruct es as [|e' es]; [|rewrite last_cons_cons; destruct (last (e' :: es)) eqn:E; [|by apply last_None in E]].
Qed.

Lemma grown_mono B B' i t es : (∀ b, b ∈ B → b ∈ B') → grown B i t es → grown B' i t es.
Proof. intros Hs. revert i t. induction es as [|e es IH]; intros i t; simpl; [done|]. intros [? ?]. split; auto. Qed.

(** The birth of the [k]-th entry. *)
Lemma grown_lookup B i t es k e : grown B i t es → es !! k = Some e →
  mkBirth (i + Z.of_nat k + 1) (le_Term e) (le_Command e) (last_term t (take k es)) ∈ B.
Proof.
  intros Hg Hk. rewrite <-(take_drop_middle _ _ _ Hk) in Hg. apply grown_app in Hg as [_ [Hb _]].
  replace (i + Z.of_nat k) with (i + len (take k es)); [done|].
  unfold len. rewrite length_take. apply lookup_lt_Some in Hk. lia.
Qed.

(** Births that agree in index and term are one. *)
Definition unique (B : list Birth) : Prop := ∀ b b', b ∈ B → b' ∈ B → key b = key b' → b = b'.

Lemma unique_NoDup B : NoDup (key <$> B) → unique B.
Proof.
  intros Hnd b b' (i&Hi)%list_elem_of_lookup (j&Hj)%list_elem_of_lookup E.
  assert (i = j) as ->; [|congruence].
  apply (NoDup_lookup _ _ _ (key b) Hnd); rewrite list_lookup_fmap; [by rewrite Hi|by rewrite Hj, E].
Qed.

Lemma grown_agree B i t es es' k e e' : unique B → grown B i t es → grown B i t es' →
  es !! k = Some e → es' !! k = Some e' → le_Term e = le_Term e' → take (S k) es = take (S k) es'.
Proof.
  intros HB Hg Hg'. revert e e'. induction k as [|k IH]; intros e e' He He' Ht;
    pose proof (grown_lookup _ _ _ _ _ _ Hg He) as Hb; pose proof (grown_lookup _ _ _ _ _ _ Hg' He') as Hb';
    pose proof (HB _ _ Hb Hb' ltac:(unfold key; simpl; congruence)) as E; pose proof (f_equal b_cmd E) as Hc; pose proof (f_equal b_prev E) as Hp; cbn [b_cmd b_prev] in Hc, Hp;
    assert (e = e') as -> by (destruct e, e'; simpl in *; congruence);
    rewrite (take_S_r _ _ _ He), (take_S_r _ _ _ He'); [done|].
  destruct (lookup_lt_is_Some_2 es k) as [d Hd]; [apply lookup_lt_Some in He; lia|].
  destruct (lookup_lt_is_Some_2 es' k) as [d' Hd']; [apply lookup_lt_Some in He'; lia|].
  f_equal. apply (IH d d' Hd Hd'). rewrite (take_S_r _ _ _ Hd), (take_S_r _ _ _ Hd') in Hp.
  unfold last_term in Hp. rewrite !last_snoc in Hp. exact Hp.
Qed.

(** ** Logs and requests *)

Definition sentinel : LogEntry Cmd := mkLogEntry 0 None.
Definition log_grown (B : list Birth) (l : list (LogEntry Cmd)) : Prop := ∃ es, l = sentinel :: es ∧ grown B 0 0 es.

Lemma log_grown_split B l k e : log_grown B l → l !! k = Some e →
  log_grown B (take (S k) l) ∧ grown B (Z.of_nat k) (le_Term e) (drop (S k) l).
Proof.
  intros (es&->&Hg) Hk. destruct k as [|k]; simpl in Hk.
  { injection Hk as <-. split; [by exists []|done]. }
  rewrite <-(take_drop (S k) es) in Hg. apply grown_app in Hg as [Hg1 Hg2]. split; [by exists (take (S k) es)|].
  simpl. rewrite (take_S_r _ _ _ Hk) in Hg2. unfold last_term in Hg2. rewrite last_snoc in Hg2. simpl in Hg2.
  unfold len in Hg2. rewrite length_app, length_take in Hg2. simpl in Hg2. apply lookup_lt_Some in Hk.
  by replace (Z.of_nat (S k)) with (0 + Z.of_nat (k `min` length es + 1)) by lia.
Qed.

Lemma log_grown_extend B l k e es : log_grown B l → l !! k = Some e → grown B (Z.of_nat k) (le_Term e) es →
  log_grown B (take (S k) l ++ es).
Proof.
  intros Hl Hk Hg. destruct (log_grown_split _ _ _ _ Hl Hk) as [(es1&E1&Hg1) _].
  exists (es1 ++ es). rewrite E1. split; [done|]. apply grown_app. split; [done|].
  assert (Hlen : length (take (S k) l) = S k) by (rewrite length_take; apply lookup_lt_Some in Hk; lia).
  assert (Hlast : last (take (S k) l) = Some e) by (by rewrite (take_S_r _ _ _ Hk), last_snoc).
  rewrite E1 in Hlen, Hlast. simpl in Hlen. injection Hlen as Hlen.
  replace (0 + len es1) with (Z.of_nat k) by (unfold len; lia).
  replace (last_term 0 es1) with (le_Term e); [done|]. unfold last_term.
  destruct es1 as [|x es1]; [by injection Hlast as <-|]. rewrite last_cons_cons in Hlast. by rewrite Hlast.
Qed.

Definition msg_grown (B : list Birth) (m : @Msg Cmd) : Prop :=
  match m with
  | AEReq _ _ _ args => grown B (aea_PrevLogIndex args) (aea_PrevLogTerm args) (aea_Entries args)
  | _ => True
  end.

Record cluster_grown (B : list Birth) c : Prop := {
  cg_logs i nd : nodes c !! i = Some nd → log_grown B (log (rf nd));
  cg_net : Forall (msg_grown B) (net c)
}.

(** ** Every step keeps to the births *)

(** What a step does to the log of a peer. *)
Lemma step_log c l c' i nd' : step c l c' → nodes c' !! i = Some nd' →
  ∃ nd, nodes c !! i = Some nd ∧
    (log (rf nd') = log (rf nd) ∨
     (∃ cmd e, l = ClientStart i cmd ∧ state (rf nd) = LEADER ∧ last (log (rf nd)) = Some e ∧
        log (rf nd') = log (rf nd) ++ [mkLogEntry (currentTerm (rf nd)) (Some cmd)]) ∨
     (∃ k src rd args e, net c !! k = Some (AEReq src i rd args) ∧ (log (rf nd))@[aea_PrevLogIndex args] = Some e ∧
        le_Term e = aea_PrevLogTerm args ∧
        log (rf nd') = take (Z.to_nat (aea_PrevLogIndex args + 1)) (log (rf nd)) ++ aea_Entries args)).
Proof.
  intros Hs Hi. destruct Hs; simpl in Hi; try (by eauto);
    (apply list_lookup_insert_Some in Hi as [(->&<-&_)|[_ ?]]; [|by eauto]);
    (eexists; split; [eassumption|]); rewrite ?spawn_rf; simpl; try (by left).
  - apply AttemptEletion_spec in H1 as ([? ? ?]&?&?&?&_). by left.
  - apply RequestVote_spec in H1 as ([? ? ?]&?&?&?&?&?&?&?&?&_). by left.
  - apply handleVoteReply_spec in H2 as (_&_&[[_ ->]|[(_&?&->)|(_&->&_)]]); raft_simpl; by left.
  - apply AppendEntries_outcome in H1. destruct H1; unfold accepted; raft_simpl; try (by left).
    right; right. by eexists _, _, _, _, _.
  - apply handleHeartBeatReply_spec in H2 as [(_&?&->&_)|[(_&?&_&next&_&->)|(_&next&mtch&_&_&_&H2)]]; [raft_simpl; by left..|].
    left. by destruct (_ || _); destruct H2 as [-> _].
  - apply Start_spec in H0 as (_&_&_&_&_&_&_&_&[(_&->&_)|(?&?&_&e&?&_)]); [by left|]. right; left. by exists cmd, e.
  - apply apply_spec in H0 as [(_&->&_)|(_&_&->&_)]; by left.
Qed.

Lemma msg_grown_mono B B' m : (∀ b, b ∈ B → b ∈ B') → msg_grown B m → msg_grown B' m.
Proof. destruct m; simpl; eauto using grown_mono. Qed.

(** A request holds a part of its sender's log. *)
Lemma HeartBeat_args_grown B d (p : Raft Cmd) args : log_grown B (log p) → HeartBeat_args d p = Some args →
  grown B (aea_PrevLogIndex args) (aea_PrevLogTerm args) (aea_Entries args).
Proof.
  intros Hl H. unfold HeartBeat_args in H. run_handler H.
  match goal with H : idx _ _ = Some ?e |- _ => rename H into Hi; rename e into prev end.
  match goal with H : slice_from _ _ = Some _ |- _ => apply slice_from_Some in H as [-> Hn] end.
  simpl. apply idx_lookup in Hi as (k&Hz&Hk). rewrite Hz. replace (Z.to_nat z) with (S k) by lia.
  by apply (log_grown_split _ _ _ _ Hl Hk).
Qed.

Lemma step_grown B c l c' : cluster_grown B c → step c l c' → cluster_grown (B ++ births_of c l) c'.
Proof.
  intros [Hlogs Hnet] Hs. assert (Hsub : ∀ b, b ∈ B → b ∈ B ++ births_of c l) by (intros; apply elem_of_app; by left). split.
  - intros i nd' Hi. destruct (step_log _ _ _ _ _ Hs Hi) as (nd&Hnd&[->|[(cmd&e&->&Hst&He&->)|(k&src&rd&args&e&Hm&He&Ht&->)]]).
    + destruct (Hlogs _ _ Hnd) as (es&->&Hg). exists es. split; [done|]. by eapply grown_mono.
    + pose proof (Hlogs _ _ Hnd) as (es&El&Hg). exists (es ++ [mkLogEntry (currentTerm (rf nd)) (Some cmd)]).
      rewrite El. split; [done|]. apply grown_app. split; [by eapply grown_mono|]. split; [|done]. apply elem_of_app. right.
      unfold births_of. rewrite Hnd, bool_decide_eq_true_2, He by done. apply list_elem_of_singleton. simpl.
      rewrite El, len_cons. f_equal. rewrite El in He. unfold last_term.
      destruct es as [|x es]; [by injection He as <-|]. rewrite last_cons_cons in He. by rewrite He.
    + apply idx_lookup in He as (k0&Hz&Hk0). rewrite Hz. replace (Z.to_nat (Z.of_nat k0 + 1)) with (S k0) by lia.
      assert (Hg : grown B (aea_PrevLogIndex args) (aea_PrevLogTerm args) (aea_Entries args)) by apply (Forall_lookup_1 _ _ _ _ Hnet Hm).
      rewrite Hz, <-Ht in Hg. destruct (log_grown_extend B _ k0 e (aea_Entries args) (Hlogs _ _ Hnd) Hk0 Hg) as (es&->&Hg').
      exists es. split; [done|]. by eapply grown_mono.
  - assert (Hnet' : Forall (msg_grown (B ++ births_of c l)) (net c)).
    { eapply Forall_impl; [exact Hnet|]. intros m. by apply msg_grown_mono. }
    assert (Hdel : ∀ k, Forall (msg_grown (B ++ births_of c l)) (delete k (net c))) by (intros; by apply Forall_delete).
    destruct Hs; simpl; try done; try (apply Forall_app; split; [done|]); try (by apply Forall_singleton).
    + apply Forall_fmap, Forall_true. done.
    + apply Forall_singleton. simpl. eapply grown_mono; [exact Hsub|]. eapply HeartBeat_args_grown; [|done]. eauto.
Qed.

Lemma run_grown n r ls c : run (start n r) ls = Some c → cluster_grown (births (start n r) ls) c.
Proof.
  revert c. induction ls as [|l ls IH] using rev_ind; intros c E.
  - simpl in E. simplify_eq. split; [|constructor]. intros i nd [_ ->]%start_lookup. simpl. unfold Make. raft_simpl. by exists [].
  - rewrite run_app in E. destruct (run (start n r) ls) as [c1|] eqn:E1; simpl in E; [|done].
    rewrite (births_app _ _ _ _ E1). destruct (exec c1 l) as [c2|] eqn:E2; simpl in E; simplify_eq.
    simpl. rewrite E2, app_nil_r. apply step_grown; [by apply IH|by apply exec_step].
Qed.

(** ** Leaders and births *)

(** No term has had two winners. *)
Definition one_winner_per_term c : Prop := ∀ T i j, (T, i) ∈ leaders c → (T, j) ∈ leaders c → i = j.

Lemma one_winner_NoDup c : NoDup (fst <$> leaders c) → one_winner_per_term c.
Proof.
  intros Hnd T i j (k&Hk)%list_elem_of_lookup (k'&Hk')%list_elem_of_lookup.
  assert (k = k') as ->; [|congruence].
  by apply (NoDup_lookup _ _ _ T Hnd); rewrite list_lookup_fmap; [rewrite Hk|rewrite Hk'].
Qed.

(** The label delivers a vote request of a later term to a leader, which
    [RequestVote] then leaves in office in a term it has not won. *)
Definition usurps c (l : @Label Cmd) : bool :=
  match l with
  | DeliverRV k _ =>
      match net c !! k with
      | Some (RVReq _ dst _ args) =>
          match nodes c !! dst with
          | Some nd => bool_decide (state (rf nd) = LEADER) && (currentTerm (rf nd) <? rva_Term args)
          | None => false
          end
      | _ => false
      end
  | _ => false
  end.

Fixpoint no_usurper c (ls : list (@Label Cmd)) : bool :=
  match ls with
  | [] => true
  | l :: ls => negb (usurps c l) && match exec c l with Some c' => no_usurper c' ls | None => true end
  end.

Lemma no_usurper_snoc c ls l c' : run c ls = Some c' → no_usurper c (ls ++ [l]) = true →
  no_usurper c ls = true ∧ usurps c' l = false.
Proof.
  revert c. induction ls as [|l0 ls IH]; intros c E; simpl in *.
  - simplify_eq. intros [Hu _]%andb_true_iff. split; [done|]. by apply negb_true_iff.
  - destruct (exec c l0) as [c1|]; simpl in E; [|done]. intros [Hu H]%andb_true_iff. destruct (IH _ E H) as [H1 ?].
    by rewrite Hu, H1.
Qed.

(** What a step does to the role of a peer: it leads only if it led before, with
    a log that has only grown, or has just won; it is a candidate of its term
    only if it was one or has just entered the term. *)
Definition role_kept c c' (i : nat) (f f' : Raft Cmd) : Prop :=
  currentTerm f ≤ currentTerm f' ∧
  (state f' = LEADER → currentTerm f' = currentTerm f ∧
     (state f = LEADER ∧ log f `prefix_of` log f' ∨
      state f = CANDIDATE ∧ leaders c' = (currentTerm f', i) :: leaders c)) ∧
  (state f' = CANDIDATE → currentTerm f' = currentTerm f → state f = CANDIDATE).

Lemma step_role c l c' i nd' : step c l c' → usurps c l = false → nodes c' !! i = Some nd' →
  ∃ nd, nodes c !! i = Some nd ∧ role_kept c c' i (rf nd) (rf nd').
Proof.
  intros Hs Hus Hi.
  assert (Hidle : ∀ f f', currentTerm f' = currentTerm f → state f' = state f → log f `prefix_of` log f' → role_kept c c' i f f').
  { unfold role_kept. intros f f' -> -> ?. split_and!; auto. lia. }
  assert (Hfoll : ∀ f f', currentTerm f ≤ currentTerm f' → state f' = FOLLOWER → role_kept c c' i f f').
  { unfold role_kept. intros f f' ? ->. done. }
  destruct Hs; simpl in Hi; try (by eauto);
    (apply list_lookup_insert_Some in Hi as [(->&<-&_)|[_ ?]]; [|by eauto]);
    (eexists; split; [eassumption|]); rewrite ?spawn_rf; simpl; try (by apply Hidle).
  - apply AttemptEletion_spec in H1 as (_&?&?&HT&_). split_and!; [lia|congruence|lia].
  - simpl in Hus. rewrite H, H0 in Hus. apply RequestVote_spec in H1 as (_&Hl&Hst&?&?&?&?&?&HT&_).
    unfold role_kept. rewrite Hst. split_and!; [lia| |done]. intros HL. rewrite bool_decide_eq_true_2 in Hus by done.
    simpl in Hus. apply Z.ltb_ge in Hus. split; [lia|]. left. by rewrite Hl.
  - apply handleVoteReply_spec in H2 as (_&_&[[-> ->]|[(->&?&->)|(->&->&Hst&_)]]);
      [by apply Hidle|apply Hfoll; raft_simpl; [lia|done]|].
    unfold role_kept. raft_simpl. split_and!; auto. lia.
  - apply AppendEntries_outcome in H1. destruct H1; [by apply Hidle|apply Hfoll; unfold accepted; raft_simpl; (done || lia)..].
  - apply handleHeartBeatReply_spec in H2 as [(_&?&->&_)|[(_&?&_&next&_&->)|(_&next&mtch&_&_&_&H2)]];
      [apply Hfoll; raft_simpl; (done || lia)|by apply Hidle|]. destruct (_ || _); destruct H2 as [-> _]; by apply Hidle.
  - apply Start_spec in H0 as (_&?&?&_&_&_&_&_&[(_&->&_)|(_&E&_)]); apply Hidle; try done. rewrite E. by apply prefix_app_r.
  - apply apply_spec in H0 as [(_&->&_)|(_&_&->&_)]; by apply Hidle.
Qed.

Lemma step_leaders c l c' T i : step c l c' → (T, i) ∈ leaders c' → (T, i) ∉ leaders c →
  ∃ nd', nodes c' !! i = Some nd' ∧ state (rf nd') = LEADER ∧ currentTerm (rf nd') = T.
Proof.
  intros Hs Hin Hn. destruct Hs; simpl in *; try done. apply handleVoteReply_spec in H2 as (_&_&[[-> _]|[(->&_)|(->&->&_)]]); try done.
  simpl in Hin. apply elem_of_cons in Hin as [Hin|]; [|done]. simplify_eq. eexists.
  split; [apply list_lookup_insert_eq; by eapply lookup_lt_Some|]. simpl. by raft_simpl.
Qed.

Lemma step_leaders_mono c l c' : step c l c' → leaders c ⊆ leaders c'.
Proof. destruct 1; simpl; try done. intros x ?. apply elem_of_app. by right. Qed.

(** Births and the leaders that made them. *)
Record ruled (B : list Birth) c : Prop := {
  ru_leader i nd : nodes c !! i = Some nd → state (rf nd) = LEADER → (currentTerm (rf nd), i) ∈ leaders c;
  ru_past T i : (T, i) ∈ leaders c →
    ∃ nd, nodes c !! i = Some nd ∧ T ≤ currentTerm (rf nd) ∧ (T = currentTerm (rf nd) → state (rf nd) ≠ CANDIDATE);
  ru_birth b : b ∈ B → ∃ p, (b_term b, p) ∈ leaders c;
  ru_below b i nd : b ∈ B → nodes c !! i = Some nd → state (rf nd) = LEADER → currentTerm (rf nd) = b_term b →
    b_index b < len (log (rf nd));
  ru_nodup : NoDup (key <$> B)
}.

(** The one birth a label can make. *)
Lemma births_of_cases c l :
  births_of c l = [] ∨
  ∃ i cmd nd e, l = ClientStart i cmd ∧ nodes c !! i = Some nd ∧ state (rf nd) = LEADER ∧
    births_of c l = [mkBirth (len (log (rf nd))) (currentTerm (rf nd)) (Some cmd) e].
Proof.
  unfold births_of. destruct l; auto. destruct (nodes c !! _) as [nd|] eqn:E; [|by left].
  case_bool_decide; [|by left]. destruct (last (log (rf nd))); [|by left]. right. by eexists _, _, _, _.
Qed.

Lemma ruled_step B c l c' : one_winner_per_term c' → usurps c l = false → ruled B c → step c l c' → ruled B c'.
Proof.
  intros H1 Hus [Hld Hpast Hb Hbel Hnd] Hs. pose proof (step_leaders_mono _ _ _ Hs) as Hmono. split; [| | | |done].
  - intros i nd' Hi Hst. destruct (step_role _ _ _ _ _ Hs Hus Hi) as (nd&Hi0&_&Hl&_).
    destruct (Hl Hst) as [-> [[? _]|[_ ->]]]; [by apply Hmono, Hld|]. apply elem_of_cons. by left.
  - intros T i Hin. destruct (decide ((T, i) ∈ leaders c)) as [Hold|Hnew].
    + destruct (Hpast _ _ Hold) as (nd&Hi&HT&Hc).
      destruct (lookup_lt_is_Some_2 (nodes c') i) as [nd' Hi'].
      { rewrite (step_length _ _ _ Hs). by eapply lookup_lt_Some. }
      destruct (step_role _ _ _ _ _ Hs Hus Hi') as (nd0&?&HT'&_&Hcand). simplify_eq. exists nd'. split_and!; [done|lia|].
      intros HTe Hst. apply (Hc ltac:(lia)), (Hcand Hst). lia.
    + destruct (step_leaders _ _ _ _ _ Hs Hin Hnew) as (nd'&Hi&Hst&<-). exists nd'. split_and!; [done|lia|]. by rewrite Hst.
  - intros b Hin. destruct (Hb b Hin) as [p ?]. eauto.
  - intros b i nd' Hin Hi Hst HT. destruct (step_role _ _ _ _ _ Hs Hus Hi) as (nd&Hi0&_&Hl&_).
    destruct (Hl Hst) as [HTe [[Hst0 Hpre]|[Hc E]]].
    + apply (Z.lt_le_trans _ (len (log (rf nd)))); [eapply Hbel; [done..|congruence]|].
      apply prefix_length in Hpre. unfold len. lia.
    + destruct (Hb b Hin) as [p Hp]. assert (p = i) as ->.
      { eapply H1; [by apply Hmono|]. rewrite E, HT. apply elem_of_cons. by left. }
      destruct (Hpast _ _ Hp) as (nd0&?&_&Hno). simplify_eq. by destruct (Hno ltac:(congruence)).
Qed.

(** [Start] appends at the end of the log of the leader of the term. *)
Lemma ruled_birth B c l c' : one_winner_per_term c' → step c l c' → ruled B c → ruled B c' → ruled (B ++ births_of c l) c'.
Proof.
  intros H1 Hs [Hld0 _ _ Hbel0 _] Hr. pose proof Hr as [Hld Hpast Hb Hbel Hnd].
  destruct (births_of_cases c l) as [->|(i&cmd&nd&t&->&Hi&Hst&->)]; [by rewrite app_nil_r|].
  inversion Hs as [| | | | | | | | | |i0 cmd0 nd0 f' res Hi0 HS| |]; subst. simplify_eq.
  apply Start_spec in HS as (_&Hst'&HT'&_&_&_&_&_&[[? _]|(_&Hlog&_)]); [done|].
  split; [done..| | |].
  - intros b [Hin|Hin]%elem_of_app; [by apply Hb|]. apply list_elem_of_singleton in Hin as ->. simpl. eauto.
  - intros b j ndj [Hin|Hin]%elem_of_app Hj HstJ HTJ; [by eapply Hbel|]. apply list_elem_of_singleton in Hin as ->. simpl in *.
    assert (j = i) as ->.
    { eapply H1; [eapply (Hld j ndj Hj HstJ)|]. rewrite HTJ. by apply Hld0. }
    rewrite list_lookup_insert_eq in Hj by (by eapply lookup_lt_Some). injection Hj as <-. simpl. rewrite Hlog, len_app.
    unfold len. simpl. lia.
  - rewrite fmap_app. apply NoDup_app. split_and!; [done| |apply NoDup_singleton].
    intros k (b&->&Hin)%list_elem_of_fmap Hk%list_elem_of_singleton. unfold key in Hk. simpl in Hk. injection Hk as Hk1 Hk2.
    pose proof (Hbel0 b i nd Hin Hi Hst (eq_sym Hk2)). lia.
Qed.

Lemma run_ruled n r ls c : run (start n r) ls = Some c → no_usurper (start n r) ls = true → one_winner_per_term c →
  ruled (births (start n r) ls) c.
Proof.
  revert c. induction ls as [|l ls IH] using rev_ind; intros c E Hus H1.
  - simpl in E. simplify_eq. split; try by (simpl; set_solver || constructor).
    intros i nd [_ ->]%start_lookup. simpl. unfold Make. by raft_simpl.
  - rewrite run_app in E. destruct (run (start n r) ls) as [c1|] eqn:E1; simpl in E; [|done].
    destruct (no_usurper_snoc _ _ _ _ E1 Hus) as [Hus1 Hus2].
    rewrite (births_app _ _ _ _ E1). destruct (exec c1 l) as [c2|] eqn:E2; simpl in E; simplify_eq.
    simpl. rewrite E2, app_nil_r. apply exec_step in E2. pose proof (step_leaders_mono _ _ _ E2) as Hm.
    assert (Hr : ruled (births (start n r) ls) c1) by (apply IH; [done..|]; intros T i j ??; eapply H1; by apply Hm).
    apply ruled_birth; [done..|]. by eapply ruled_step.
Qed.

Lemma logs_match n r ls c i j nd nd' k e e' :
  run (start n r) ls = Some c → one_winner_per_term c → no_usurper (start n r) ls = true →
  nodes c !! i = Some nd → nodes c !! j = Some nd' →
  (log (rf nd))@[k] = Some e → (log (rf nd'))@[k] = Some e' → le_Term e = le_Term e' →
  take (Z.to_nat (k + 1)) (log (rf nd)) = take (Z.to_nat (k + 1)) (log (rf nd')).
Proof.
  intros E H1 Hus Hi Hj (m&->&Hm)%idx_lookup (m'&Hmm&Hm')%idx_lookup Ht. apply Nat2Z.inj in Hmm as <-.
  pose proof (run_grown _ _ _ _ E) as [Hlogs _].
  destruct (Hlogs _ _ Hi) as (es&El&Hg), (Hlogs _ _ Hj) as (es'&El'&Hg'). rewrite El, El' in *.
  replace (Z.to_nat (Z.of_nat m + 1)) with (S m) by lia. simpl. f_equal. destruct m as [|m]; [done|]. simpl in Hm, Hm'.
  eapply grown_agree; [by apply unique_NoDup, (run_ruled n r ls c)|done..].
Qed.
(** C3: log matching, up to the two ways the code breaks it: in an execution in
    which no term has two winners and no vote request of a later term is delivered to
    a leader, whether the leader grants it or not, two logs that have entries of the
    same term at an index are equal up to that index, commands included. *)
Theorem log_matching n r ls c i j nd nd' k e e' :
  run (start n r) ls = Some c → one_winner_per_term c → no_usurper (start n r) ls = true →
  nodes c !! i = Some nd → nodes c !! j = Some nd' →
  (log (rf nd))@[k] = Some e → (log (rf nd'))@[k] = Some e' → le_Term e = le_Term e' →
  take (Z.to_nat (k + 1)) (log (rf nd)) = take (Z.to_nat (k + 1)) (log (rf nd')).
Proof. apply logs_match. Qed.
End Matching.

(** C12: log matching fails when a leader stays in office in a term it has not won,
    although every term has one winner: in the run [usurper_commit] peers 0 and 1
    have different commands at index 1 in the same term, and both deliver theirs. *)
Theorem usurper_breaks_log_matching :
  ∃ c n0 n1 e0 e1, run boot usurper_commit = Some c ∧ one_winner_per_term c ∧ (2, 0%nat) ∉ leaders c ∧
    nodes c !! 0%nat = Some n0 ∧ nodes c !! 1%nat = Some n1 ∧
    (log (rf n0))@[1] = Some e0 ∧ (log (rf n1))@[1] = Some e1 ∧
    le_Term e0 = le_Term e1 ∧ le_Command e0 ≠ le_Command e1 ∧
    am_Command <$> applyCh n0 = [le_Command e0] ∧ am_Command <$> applyCh n1 = [le_Command e1].
Proof.
  eexists (after usurper_commit), _, _, (mkLogEntry 2 (Some 10%nat)), (mkLogEntry 2 (Some 20%nat)).
  split; [vm_compute; reflexivity|]. split; [apply one_winner_NoDup, (bool_decide_unpack _); vm_compute; exact I|].
  split; [apply (bool_decide_unpack _); vm_compute; exact I|]. do 7 (split; [vm_compute; (reflexivity || discriminate)|]); vm_compute; reflexivity.
Qed.

(** Peer 0 leads term 1, appends two commands and sends them to peer 1. *)
Definition replicated : list (@Label nat) :=
  elect0 ++ [ClientStart 0 10%nat; ClientStart 0 20%nat; Beat 0; Send 0 0; DeliverAE 0 0].
Definition peer_after (i : nat) : @Node nat :=
  default (mkNode (Make 0 0 0 []) [] [] [] 0 0 []) (nodes (after replicated) !! i).

Lemma log_matching_witness :
  take (Z.to_nat (2 + 1)) (log (rf (peer_after 0))) = take (Z.to_nat (2 + 1)) (log (rf (peer_after 1))).
Proof.
  apply (log_matching 3 zero_rand replicated (after replicated) 0 1 _ _ 2 (mkLogEntry 1 (Some 20%nat)) (mkLogEntry 1 (Some 20%nat)));
    [vm_compute; reflexivity| |vm_compute; reflexivity..].
  apply one_winner_NoDup, (bool_decide_unpack _); vm_compute; exact I.
Defined.
End RaftLogMatching.
