(* ===== verification/RaftIndex.v ===== *)
(** * The index of terms

    [termToIndex] maps a term to the index of its first entry, at every peer and in
    every request, whenever logs match; and every entry beyond the sentinel has a
    positive term.  This is what the back-off of a leader relies on. *)

From S2P Require Import Prelude RaftServer RaftServerFacts RaftCluster RaftInvariants RaftReplication RaftLogMatching.

Module RaftIndex.
Import RaftServer RaftServerFacts RaftCluster RaftInvariants RaftReplication RaftLogMatching.
Section Index.
Context {Cmd : Type}.
Implicit Types (c : @Cluster Cmd).

(** ** Terms are positive *)

Definition term_pos (f : Raft Cmd) : Prop := 0 ≤ currentTerm f ∧ (state f ≠ FOLLOWER → 1 ≤ currentTerm f).

Lemma peer_step_term_pos f f' : peer_step f f' → term_pos f → term_pos f'.
Proof.
  intros Hs [H0 H1]. unfold term_pos. destruct Hs as [|r f' el ds H|r args f' rep H|r el rep f' el' gos H|r args f' rep Ha H
    |r rd i args rep f' rd' H|c f' res H|f' om H|]; [done|..].
  - apply AttemptEletion_spec in H as (_&_&_&->&_). split; lia.
  - apply RequestVote_spec in H as (_&_&->&_&_&_&_&_&->&_). split; [lia|]. intros Hf. specialize (H1 Hf). lia.
  - apply handleVoteReply_spec in H as (_&_&[[_ ->]|[(_&?&->)|(_&->&Hc&_)]]); raft_simpl; [done|split; [lia|done]|].
    split; [done|]. intros _. apply H1. by rewrite Hc.
  - apply AppendEntries_outcome in H. destruct H as [|Hf|Hf|e Hf]; unfold accepted; raft_simpl; [done|split; [lia|done]|split; [lia|congruence]..].
  - apply handleHeartBeatReply_spec in H as [(_&?&->&_)|[(_&?&_&next&_&->)|(_&next&mtch&_&_&_&H)]];
      raft_simpl; [split; [lia|done]|done|]. destruct (_ || _); destruct H as [-> _]; simpl; done.
  - apply Start_spec in H as (_&->&->&_). done.
  - apply apply_spec in H as [(_&->&_)|(_&_&->&_)]; done.
  - raft_simpl. done.
Qed.

Lemma term_pos_reachable n r c i nd : reachable n r c → nodes c !! i = Some nd → term_pos (rf nd).
Proof.
  intros Hr. revert i nd. revert c Hr. apply (reachable_ind n r (λ c, ∀ i nd, nodes c !! i = Some nd → term_pos (rf nd))).
  - intros i nd [_ ->]%start_lookup. simpl. unfold Make, term_pos. raft_simpl. split; [lia|done].
  - intros c l c' Hr IH Hs i nd' Hi. destruct (step_peer _ _ _ _ _ (wf_net _ _ (wf_reachable _ _ _ Hr)) Hs Hi) as (nd&Hnd&Hp).
    eapply peer_step_term_pos; eauto.
Qed.

Lemma births_pos n r ls c b : run (start n r) ls = Some c → b ∈ births (start n r) ls → 0 < b_term (Cmd := Cmd) b.
Proof.
  revert c. induction ls as [|l ls IH] using rev_ind; intros c E Hb; [by apply elem_of_nil in Hb|].
  rewrite run_app in E. destruct (run (start n r) ls) as [c1|] eqn:E1; simpl in E; [|done].
  rewrite (births_app _ _ _ _ E1) in Hb. destruct (exec c1 l) as [c2|] eqn:E2; simpl in E; simplify_eq.
  simpl in Hb. rewrite E2, app_nil_r in Hb. apply elem_of_app in Hb as [Hb|Hb]; [by eapply IH|].
  destruct (births_of_cases c1 l) as [El|(i&cmd&nd&e&->&Hi&Hst&El)]; rewrite El in Hb; [by apply elem_of_nil in Hb|].
  apply list_elem_of_singleton in Hb as ->. simpl. destruct (term_pos_reachable n r c1 i nd) as [_ Hp]; [by exists ls|done|].
  rewrite Hst in Hp. specialize (Hp ltac:(done)). lia.
Qed.

(** ** Births determine a log *)

Lemma log_grown_agree B (l l' : list (LogEntry Cmd)) k e e' : unique B → log_grown B l → log_grown B l' →
  l !! k = Some e → l' !! k = Some e' → le_Term e = le_Term e' → take (S k) l = take (S k) l'.
Proof.
  intros HB (es&->&Hg) (es'&->&Hg') Hk Hk' Ht. simpl. f_equal. destruct k as [|k]; [done|]. simpl in *. by eapply grown_agree.
Qed.

Lemma log_grown_mono B B' (l : list (LogEntry Cmd)) : (∀ b, b ∈ B → b ∈ B') → log_grown B l → log_grown B' l.
Proof. intros Hs (es&->&Hg). exists es. split; [done|]. by eapply grown_mono. Qed.

(** ** The index at peers and in requests *)

(** A request is a part of a log, with the index of that log. *)
Definition msg_indexed (B : list Birth) (m : @Msg Cmd) : Prop :=
  match m with
  | AEReq _ _ _ args => ∃ l k e, aea_PrevLogIndex args = Z.of_nat k ∧ log_grown B l ∧ tti_ok (aea_TermToIndex args) l ∧
      l !! k = Some e ∧ le_Term e = aea_PrevLogTerm args ∧ drop (S k) l = aea_Entries args
  | _ => True
  end.

Record indexed (B : list Birth) c : Prop := {
  ix_nodes i nd : nodes c !! i = Some nd → tti_ok (termToIndex (rf nd)) (log (rf nd));
  ix_net : Forall (msg_indexed B) (net c)
}.

(** What a step does to the index of a peer. *)
Lemma step_index c l c' i nd' : step c l c' → nodes c' !! i = Some nd' →
  ∃ nd, nodes c !! i = Some nd ∧
    (log (rf nd') = log (rf nd) ∧ termToIndex (rf nd') = termToIndex (rf nd) ∨
     (∃ cmd res, Start cmd (rf nd) = Some (rf nd', res)) ∨
     (∃ k src rd args e, net c !! k = Some (AEReq src i rd args) ∧ (log (rf nd))@[aea_PrevLogIndex args] = Some e ∧
        le_Term e = aea_PrevLogTerm args ∧ termToIndex (rf nd') = aea_TermToIndex args ∧
        log (rf nd') = take (Z.to_nat (aea_PrevLogIndex args + 1)) (log (rf nd)) ++ aea_Entries args)).
Proof.
  intros Hs Hi. destruct Hs; simpl in Hi; try (by eauto);
    (apply list_lookup_insert_Some in Hi as [(->&<-&_)|[_ ?]]; [|by eauto]);
    (eexists; split; [eassumption|]); rewrite ?spawn_rf; simpl; try (by left).
  - apply AttemptEletion_spec in H1 as (_&?&_&_&_&_&_&_&_&?&_). by left.
  - apply RequestVote_spec in H1 as (_&?&_&_&_&_&_&?&_). by left.
  - apply handleVoteReply_spec in H2 as (_&_&[[_ ->]|[(_&?&->)|(_&->&_)]]); raft_simpl; by left.
  - apply AppendEntries_outcome in H1. destruct H1; unfold accepted; raft_simpl; try (by left).
    right; right. by eexists _, _, _, _, _.
  - apply handleHeartBeatReply_spec in H2 as [(_&?&->&_)|[(_&?&_&next&_&->)|(_&next&mtch&_&_&_&H2)]]; [raft_simpl; by left..|].
    left. by destruct (_ || _); destruct H2 as [-> _].
  - right; left. by eexists _, _.
  - apply apply_spec in H0 as [(_&->&_)|(_&_&->&_)]; by left.
Qed.

Lemma HeartBeat_args_indexed B d (p : Raft Cmd) args : log_grown B (log p) → tti_ok (termToIndex p) (log p) →
  HeartBeat_args d p = Some args → msg_indexed B (AEReq 0 0 0 args).
Proof.
  intros Hl Ht H. unfold HeartBeat_args in H. run_handler H.
  match goal with H : idx _ _ = Some ?e |- _ => rename H into Hi; rename e into prev end.
  match goal with H : slice_from _ _ = Some _ |- _ => apply slice_from_Some in H as [-> Hn] end.
  apply idx_lookup in Hi as (k&Hz&Hk). exists (log p), k, prev. split_and!; [done..|]. by replace (Z.to_nat z) with (S k) by lia.
Qed.

Lemma step_indexed n B c l c' : wf n c → unique B → cluster_grown B c → indexed B c → step c l c' → indexed B c'.
Proof.
  intros Hwf HB [Hlogs _] [Hn Hnet] Hs. split.
  - intros i nd' Hi. destruct (step_index _ _ _ _ _ Hs Hi) as (nd&Hnd&[[-> ->]|[(cmd&res&HS)|(k&src&rd&args&e&Hm&He&Ht&->&->)]]); [by eapply Hn| |].
    + eapply Start_keeps_tti; [by eapply (wf_log _ _ Hwf)|by eapply Hn|done].
    + pose proof (Forall_lookup_1 _ _ _ _ Hnet Hm) as (l0&k0&e0&Hk0&Hg&Htti&Hl0&Hte&Hd). simpl in *. rewrite Hk0, idx_nat in He.
      assert (E : take (S k0) (log (rf nd)) = take (S k0) l0) by (eapply log_grown_agree; [done|by eapply Hlogs|done..|congruence]).
      rewrite Hk0. replace (Z.to_nat (Z.of_nat k0 + 1)) with (S k0) by lia. by rewrite E, <-Hd, take_drop.
  - assert (Hdel : ∀ k, Forall (msg_indexed B) (delete k (net c))) by (intros; by apply Forall_delete).
    destruct Hs; simpl; try done; try (apply Forall_app; split; [done|]); try (by apply Forall_singleton).
    + apply Forall_fmap, Forall_true. done.
    + apply Forall_singleton. by eapply HeartBeat_args_indexed; [eapply Hlogs|eapply Hn|].
Qed.

Lemma indexed_mono B B' c : (∀ b, b ∈ B → b ∈ B') → indexed B c → indexed B' c.
Proof.
  intros Hs [Hn Hnet]. split; [done|]. eapply Forall_impl; [exact Hnet|]. intros [] Hm; simpl in *; try done.
  destruct Hm as (l&k&e&?&?&?&?&?&?). exists l, k, e. split_and!; try done. by eapply log_grown_mono.
Qed.

Lemma run_indexed n r ls c : run (start n r) ls = Some c → no_usurper (start n r) ls = true → one_winner_per_term c →
  indexed (births (start n r) ls) c.
Proof.
  revert c. induction ls as [|l ls IH] using rev_ind; intros c E Hus H1.
  - simpl in E. simplify_eq. split; [|constructor]. intros i nd [_ ->]%start_lookup t Ht Hne. simpl in *. unfold Make in *. raft_simpl.
    exfalso. apply Hne. unfold map_get. by rewrite lookup_singleton_ne by lia.
  - pose proof (run_ruled _ _ _ _ E Hus H1) as Hru. rewrite run_app in E. destruct (run (start n r) ls) as [c1|] eqn:E1; simpl in E; [|done].
    destruct (no_usurper_snoc _ _ _ _ E1 Hus) as [Hus1 Hus2].
    destruct (exec c1 l) as [c2|] eqn:E2; simpl in E; simplify_eq. apply exec_step in E2. pose proof (step_leaders_mono _ _ _ E2) as Hm.
    assert (H1' : one_winner_per_term c1) by (intros T i j ??; eapply H1; by apply Hm).
    rewrite (births_app _ _ _ _ E1) in *. set (B := births (start n r) ls) in *. apply (indexed_mono B); [intros b Hb; apply elem_of_app; by left|].
    eapply (step_indexed n); [apply (wf_reachable n r); by exists ls| |by apply run_grown|by apply IH|done].
    apply unique_NoDup, (run_ruled n r ls c1); done.
Qed.

(** What replication needs of a log. *)
Lemma log_pos n r ls c i nd k e : run (start n r) ls = Some c → nodes c !! i = Some nd → 0 < k → (log (rf nd))@[k] = Some e →
  0 < le_Term e.
Proof.
  intros E Hi Hk (m&->&Hm)%idx_lookup. destruct (run_grown _ _ _ _ E) as [Hlogs _]. destruct (Hlogs _ _ Hi) as (es&El&Hg). rewrite El in Hm.
  destruct m as [|m]; [lia|]. simpl in Hm. apply (births_pos n r ls c (mkBirth _ _ _ _) E (grown_lookup _ _ _ _ _ _ Hg Hm)).
Qed.
End Index.
End RaftIndex.
