(* ===== verification/RaftElection.v ===== *)
(** * A majority can elect a leader

    Schedules of the cluster that lead to a leader, whatever state the cluster is
    in: the election timer fires, requests and replies are delivered.  A peer that
    is not a leader first learns of later terms ([catch_up]), then wins the votes
    of any majority whose logs are not ahead of its own ([win]). *)

From S2P Require Import Prelude RaftServer RaftServerFacts RaftCluster RaftInvariants.

Module RaftElection.
Import RaftServer RaftServerFacts RaftCluster RaftInvariants.
Section Election.
Context {Cmd : Type}.
Implicit Types (c : @Cluster Cmd) (Q : list nat).

Lemma reachable_run n r c ls c' : reachable n r c → run c ls = Some c' → reachable n r c'.
Proof. intros [ls0 E0] E. exists (ls0 ++ ls). by rewrite run_app, E0. Qed.

Lemma run_trans c ls c1 ls' c2 : run c ls = Some c1 → run c1 ls' = Some c2 → run c (ls ++ ls') = Some c2.
Proof. intros E1 E2. by rewrite run_app, E1. Qed.

(** ** The election timer is always armed *)

Definition armed (f : Raft Cmd) : Prop := is_Some (electionTimeout f).

Lemma ticker_armed r f : armed f → armed (ticker r f).
Proof. unfold armed, ticker. destruct (killed f); [done|]. simpl. eauto. Qed.

Lemma peer_step_armed f f' : peer_step f f' → armed f → armed f'.
Proof.
  intros Hs H. destruct Hs as [|r f' el ds E|r args f' rep E|r el rep f' el' gos E|r args f' rep Ha E
    |r rd i args rep f' rd' E|c f' res E|f' om E|]; [done|..].
  - unfold AttemptEletion in E. destruct (idx _ _); [|done]. simpl in E. simplify_eq. by apply ticker_armed.
  - unfold RequestVote in E. destruct (currentTerm f >? rva_Term args); [by simplify_eq|].
    assert (H' : armed (if currentTerm f <? rva_Term args then set_votedFor (-1) (set_currentTerm (rva_Term args) f) else f)) by (by destruct (_ <? _)).
    revert E H'. generalize (if currentTerm f <? rva_Term args then set_votedFor (-1) (set_currentTerm (rva_Term args) f) else f). intros g E H'.
    destruct (_ && _); [by simplify_eq|]. destruct (idx _ _); [|done]. simpl in E. destruct (upToDate _ _ _); simplify_eq; [|done]. by apply ticker_armed.
  - apply handleVoteReply_spec in E as (_&_&[[_ ->]|[(_&?&->)|(_&->&_)]]); [done|by apply ticker_armed|done].
  - apply AppendEntries_outcome in E. destruct E; [done|by apply ticker_armed|by apply ticker_armed|].
    unfold accepted, armed. cbn [electionTimeout set_commitIndex set_termToIndex set_log]. by apply ticker_armed.
  - apply handleHeartBeatReply_spec in E as [(_&?&->&_)|[(_&?&_&next&_&->)|(_&next&mtch&_&_&_&E)]]; [by apply ticker_armed|done|].
    destruct (_ || _); by destruct E as [-> _].
  - unfold Start in E. case_bool_decide; [|by simplify_eq]. destruct (idx _ _); [|done]. simpl in E. destruct (negb _); by simplify_eq.
  - apply apply_spec in E as [(_&->&_)|(_&_&->&_)]; done.
  - done.
Qed.

Lemma armed_reachable n r c i nd : reachable n r c → nodes c !! i = Some nd → armed (rf nd).
Proof.
  intros Hr. revert i nd. revert c Hr. apply (reachable_ind n r (λ c, ∀ i nd, nodes c !! i = Some nd → armed (rf nd))).
  - intros i nd [_ ->]%start_lookup. simpl. unfold Make, readPersist, ticker, killed, armed. simpl. eauto.
  - intros c l c' Hr IH Hs i nd' Hi. destruct (step_peer _ _ _ _ _ (wf_net _ _ (wf_reachable _ _ _ Hr)) Hs Hi) as (nd&Hnd&Hp).
    eapply peer_step_armed; eauto.
Qed.

(** ** A peer stands for election *)

Definition requests i (nd : @Node Cmd) (args : RequestVoteArgs) : list (@Msg Cmd) :=
  (λ d, RVReq i (Z.to_nat d) (length (elections nd)) args) <$> others (rf nd).

Lemma stand n r c i nd : reachable n r c → nodes c !! i = Some nd → state (rf nd) ≠ LEADER →
  ∃ c' nd' el e, run c [Timer i; Attempt i 0] = Some c' ∧ last (log (rf nd)) = Some e ∧
    nodes c' = <[i := nd']> (nodes c) ∧ net c' = net c ++ requests i nd (el_args el) ∧
    AttemptEletion 0 (rf nd) = Some (rf nd', el, others (rf nd)) ∧
    el_args el = mkRequestVoteArgs (currentTerm (rf nd) + 1) (Z.of_nat i) (len (log (rf nd)) - 1) (le_Term e) ∧
    elections nd' = elections nd ++ [el] ∧ heartbeats nd' = heartbeats nd ∧ applyCh nd' = applyCh nd.
Proof.
  intros Hr Hi Hst. destruct (wf_reachable _ _ _ Hr) as [Hlen Hid Hlog _]. destruct (Hid i nd Hi) as [Hme _].
  destruct (log_ok_idx_last _ _ (Hlog i nd Hi)) as (e&He&Hl&_). destruct (armed_reachable _ _ _ _ _ Hr Hi) as [t Ht].
  cbn [run exec]. rewrite Hi. cbn [mbind option_bind]. rewrite Ht. cbn [mbind option_bind].
  unfold electionTimeout_fired. rewrite decide_False by done. cbn [set_node nodes spawn foldr].
  rewrite list_lookup_insert_eq by (by eapply lookup_lt_Some). cbn [mbind option_bind attempts rf].
  set (args := mkRequestVoteArgs (currentTerm (rf nd) + 1) (Z.of_nat i) (len (log (rf nd)) - 1) (le_Term e)).
  assert (HA : AttemptEletion 0 (rf nd) = Some (ticker 0 (conevrtToCandidate (rf nd)), mkElection args 1 false, others (rf nd))).
  { unfold AttemptEletion, args. raft_simpl. rewrite He. simpl. by rewrite Hme. }
  rewrite HA. cbn [mbind option_bind]. eexists _, (mkNode (ticker 0 (conevrtToCandidate (rf nd))) (elections nd ++ [mkElection args 1 false])
    (rounds nd) (senders nd) (heartbeats nd) (attempts nd) (applyCh nd)), (mkElection args 1 false), e.
  split; [reflexivity|]. cbn [nodes add_grants set_net set_node net elections heartbeats applyCh rf el_args]. rewrite list_insert_insert_eq. by split_and!.
Qed.

(** One request and its reply; nothing else moves. *)
Lemma vote_exchange c i j e args ni nj el rfj reply rfi el' gos :
  i ≠ j → RVReq i j e args ∈ net c → nodes c !! i = Some ni → nodes c !! j = Some nj → elections ni !! e = Some el →
  RequestVote 0 args (rf nj) = Some (rfj, reply) → handleVoteReply 0 el reply (rf ni) = (rfi, el', gos) →
  ∃ ls c', run c ls = Some c' ∧
    nodes c' = <[i := spawn gos (mkNode rfi (<[e := el']> (elections ni)) (rounds ni) (senders ni) (heartbeats ni) (attempts ni) (applyCh ni))]>
                 (<[j := set_rf rfj nj]> (nodes c)) ∧
    ∀ m, m ∈ net c → m ≠ RVReq i j e args → m ∈ net c'.
Proof.
  intros Hij (k&Hk)%list_elem_of_lookup Hi Hj He HR HV. exists [DeliverRV k 0; DeliverRVRep (length (delete k (net c))) 0].
  cbn [run exec]. rewrite Hk. cbn [mbind option_bind]. rewrite Hj. cbn [mbind option_bind]. rewrite HR. cbn [mbind option_bind].
  cbn [add_grants set_net set_node nodes net]. rewrite list_lookup_middle by done. cbn [mbind option_bind].
  rewrite list_lookup_insert_ne, Hi by done. cbn [mbind option_bind]. rewrite He. cbn [mbind option_bind]. rewrite HV.
  eexists. split; [reflexivity|]. cbn [add_leaders add_resets set_net set_node nodes net]. split; [done|].
  intros m Hm Hne. rewrite delete_middle, app_nil_r. rewrite (delete_Permutation _ _ _ Hk) in Hm.
  by apply elem_of_cons in Hm as [|].
Qed.

(** ** Learning of later terms *)

(** What elections leave as it is. *)
Record kept (nd nd' : @Node Cmd) : Prop := {
  kp_log : log (rf nd') = log (rf nd);
  kp_dead : dead (rf nd') = dead (rf nd);
  kp_applied : lastApplied (rf nd') = lastApplied (rf nd);
  kp_index : termToIndex (rf nd') = termToIndex (rf nd);
  kp_peers : peers (rf nd') = peers (rf nd);
  kp_me : me (rf nd') = me (rf nd);
  kp_applyCh : applyCh nd' = applyCh nd
}.

#[local] Instance kept_refl : Reflexive kept.
Proof. by intros nd. Qed.
#[local] Instance kept_trans : Transitive kept.
Proof. intros a b d [] []. split; congruence. Qed.

Lemma stand_kept nd nd' el ds : AttemptEletion 0 (rf nd) = Some (rf nd', el, ds) → applyCh nd' = applyCh nd → kept nd nd'.
Proof. intros H Ha. apply AttemptEletion_spec in H as ([? ? ?]&?&_&_&_&_&?&_&_&?&_). by split. Qed.

Lemma request_sent n (nd : @Node Cmd) i j args : peers (rf nd) = Z.of_nat n → me (rf nd) = Z.of_nat i → i ≠ j → (j < n)%nat →
  RVReq i j (length (elections nd)) args ∈ requests i nd args.
Proof.
  intros Hp Hm Hij Hj. apply list_elem_of_fmap. exists (Z.of_nat j). rewrite Nat2Z.id. split; [done|].
  apply list_elem_of_filter. rewrite elem_of_seqZ. lia.
Qed.

Lemma lookup_node n c i nd : wf n c → nodes c !! i = Some nd → (i < n)%nat.
Proof. intros Hwf Hi. rewrite <-(wf_len _ _ Hwf). by eapply lookup_lt_Some. Qed.

(** A peer that is not a leader can reach the term of another one. *)
Lemma catch_up n r c i nd j nj : reachable n r c → nodes c !! i = Some nd → state (rf nd) ≠ LEADER → i ≠ j → nodes c !! j = Some nj →
  ∃ ls c' nd', run c ls = Some c' ∧ nodes c' = <[i := nd']> (nodes c) ∧ kept nd nd' ∧ state (rf nd') ≠ LEADER ∧
    Z.max (currentTerm (rf nd)) (currentTerm (rf nj)) ≤ currentTerm (rf nd').
Proof.
  intros Hr Hi Hst Hij Hj. destruct (Z_le_gt_dec (currentTerm (rf nj)) (currentTerm (rf nd))) as [Hle|Hgt].
  { exists [], c, nd. split; [done|]. split; [by rewrite list_insert_id|]. split; [done|]. split; [done|lia]. }
  destruct (stand n r c i nd Hr Hi Hst) as (c1&nd1&el&e&E1&He&Hn1&Hnet1&HA&Hargs&Hel&Hhb&Hch).
  pose proof (stand_kept _ _ _ _ HA Hch) as Hk1. pose proof (AttemptEletion_spec _ _ _ _ _ HA) as (_&_&Hst1&HT1&_).
  destruct (decide (currentTerm (rf nj) = currentTerm (rf nd) + 1)) as [Heq|Hne].
  { exists [Timer i; Attempt i 0], c1, nd1. split_and!; [done..|by rewrite Hst1|lia]. }
  destruct (wf_id _ _ (wf_reachable _ _ _ Hr) i nd Hi) as [Hme Hpeers].
  assert (Hi1 : nodes c1 !! i = Some nd1) by (rewrite Hn1; apply list_lookup_insert_eq; by eapply lookup_lt_Some).
  assert (Hj1 : nodes c1 !! j = Some nj) by (by rewrite Hn1, list_lookup_insert_ne).
  destruct (vote_exchange c1 i j (length (elections nd)) (el_args el) nd1 nj el (rf nj) (mkRequestVoteReply (currentTerm (rf nj)) false)
    (conevrtToFollower 0 (currentTerm (rf nj)) (rf nd1)) el []) as (ls&c2&E2&Hn2&_); [done| |done..| | | |].
  - rewrite Hnet1. apply elem_of_app. right. by eapply request_sent, lookup_node, Hj; [..|by apply (wf_reachable n r)].
  - rewrite Hel. by apply list_lookup_middle.
  - unfold RequestVote. rewrite Hargs. cbn [rva_Term]. rewrite (proj2 (Z.gtb_lt _ _)) by lia. done.
  - unfold handleVoteReply. cbn [rvr_Term]. rewrite (proj2 (Z.gtb_lt _ _)) by lia. done.
  - eexists ([Timer i; Attempt i 0] ++ ls), c2, _. split; [by eapply run_trans|]. split.
    { rewrite Hn2. assert (Hs : set_rf (rf nj) nj = nj) by (by destruct nj). rewrite Hs, (list_insert_id _ j) by done. by rewrite Hn1, list_insert_insert_eq. }
    split; [etrans; [exact Hk1|]; split; cbn [rf applyCh spawn foldr]; by raft_simpl|].
    cbn [rf spawn foldr]. raft_simpl. split; [done|lia].
Qed.

Lemma catch_up_all n r c i nd Q : reachable n r c → nodes c !! i = Some nd → state (rf nd) ≠ LEADER → i ∉ Q →
  (∀ j, j ∈ Q → (j < n)%nat) →
  ∃ ls c' nd', run c ls = Some c' ∧ nodes c' = <[i := nd']> (nodes c) ∧ kept nd nd' ∧ state (rf nd') ≠ LEADER ∧
    currentTerm (rf nd) ≤ currentTerm (rf nd') ∧
    ∀ j nj, j ∈ Q → nodes c !! j = Some nj → currentTerm (rf nj) ≤ currentTerm (rf nd').
Proof.
  intros Hr Hi Hst. induction Q as [|j Q IH]; intros Hni Hlt.
  { exists [], c, nd. split; [done|]. split; [by rewrite list_insert_id|]. split_and!; [done..|lia|]. intros ? ? ?%elem_of_nil. done. }
  apply not_elem_of_cons in Hni as [Hij Hni].
  destruct (IH Hni) as (ls&c1&nd1&E1&Hn1&Hk1&Hst1&HT1&HQ1); [intros; apply Hlt; by right|].
  assert (Hi1 : nodes c1 !! i = Some nd1) by (rewrite Hn1; apply list_lookup_insert_eq; by eapply lookup_lt_Some).
  destruct (lookup_lt_is_Some_2 (nodes c) j) as [nj Hj]; [rewrite (wf_len _ _ (wf_reachable _ _ _ Hr)); apply Hlt; by left|].
  destruct (catch_up n r c1 i nd1 j nj) as (ls2&c2&nd2&E2&Hn2&Hk2&Hst2&HT2); [by eapply reachable_run|done..| |].
  { by rewrite Hn1, list_lookup_insert_ne. }
  exists (ls ++ ls2), c2, nd2. split; [by eapply run_trans|]. split; [by rewrite Hn2, Hn1, list_insert_insert_eq|].
  split; [by etrans|]. split; [done|]. split; [lia|]. intros j' nj' [->|Hin]%elem_of_cons Hj'; [simplify_eq; lia|].
  specialize (HQ1 _ _ Hin Hj'). lia.
Qed.

(** ** Winning *)

(** The log of [f] is at least as up to date as that of [f'], as [RequestVote]
    compares them. *)
Definition ahead (f f' : Raft Cmd) : Prop :=
  ∃ e e', last (log f) = Some e ∧ last (log f') = Some e' ∧
    upToDate (mkRequestVoteArgs 0 0 (len (log f) - 1) (le_Term e)) (len (log f') - 1) (le_Term e') = true.

(** A vote in a term that is later than the voter's. *)
Lemma vote_given args (f : Raft Cmd) e : currentTerm f < rva_Term args → last (log f) = Some e →
  upToDate args (len (log f) - 1) (le_Term e) = true →
  ∃ f', RequestVote 0 args f = Some (f', mkRequestVoteReply (rva_Term args) true) ∧ currentTerm f' = rva_Term args ∧ log f' = log f.
Proof.
  intros HT He Hu. unfold RequestVote. rewrite Z.gtb_ltb, (proj2 (Z.ltb_ge _ _)), (proj2 (Z.ltb_lt _ _)) by lia.
  cbn [votedFor set_votedFor log set_currentTerm currentTerm]. rewrite Z.eqb_refl. cbn [negb andb]. rewrite idx_last, He. cbn [mbind option_bind].
  rewrite Hu. eexists. split; [done|]. by raft_simpl.
Qed.

(** The candidate of an election, or its winner. *)
Definition standing (n : nat) (nd : @Node Cmd) (el : Election) : Prop :=
  currentTerm (rf nd) = rva_Term (el_args el) ∧
  if el_done el
  then state (rf nd) = LEADER ∧ heartbeats nd ≠ 0%nat ∧
       nextIndex (rf nd) = replicate n (len (log (rf nd))) ∧ matchIndex (rf nd) = replicate n 0
  else state (rf nd) = CANDIDATE ∧ votes el ≤ Z.of_nat n / 2.

Lemma standing_vote n nd el e : peers (rf nd) = Z.of_nat n → standing n nd el → elections nd !! e = Some el →
  ∃ rfi el' gos, handleVoteReply 0 el (mkRequestVoteReply (rva_Term (el_args el)) true) (rf nd) = (rfi, el', gos) ∧
    let nd' := spawn gos (mkNode rfi (<[e := el']> (elections nd)) (rounds nd) (senders nd) (heartbeats nd) (attempts nd) (applyCh nd)) in
    standing n nd' el' ∧ kept nd nd' ∧ elections nd' !! e = Some el' ∧ el_args el' = el_args el ∧ votes el' = votes el + 1.
Proof.
  intros Hp [HT Hs] He. assert (Hlt : (e < length (elections nd))%nat) by (by eapply lookup_lt_Some).
  unfold handleVoteReply. cbn [rvr_Term rvr_VoteGranted negb]. rewrite HT, Z.gtb_ltb, Z.ltb_irrefl. cbn [el_args votes el_done].
  destruct (el_done el) eqn:Hd; cbn [orb].
  - eexists _, _, _. split; [reflexivity|]. cbn [spawn foldr elections]. split; [split; [done|exact Hs]|].
    split; [by split|]. split; [by apply list_lookup_insert_eq|done].
  - destruct Hs as [Hst Hv]. rewrite Hp. destruct (Z.leb_spec (votes el + 1) (Z.of_nat n / 2)) as [Hle|Hgt].
    + eexists _, _, _. split; [reflexivity|]. cbn [spawn foldr elections]. split; [split; [done|split; [done|exact Hle]]|].
      split; [by split|]. split; [by apply list_lookup_insert_eq|done].
    + rewrite Z.eqb_refl, bool_decide_eq_true_2 by done. cbn [andb conevrtToLeader]. eexists _, _, _. split; [reflexivity|].
      cbn [spawn foldr elections rf heartbeats applyCh]. split; [|split; [by split|split; [by apply list_lookup_insert_eq|done]]].
      split; [done|]. cbn [el_done rf state nextIndex matchIndex log heartbeats set_matchIndex set_nextIndex set_state]. rewrite Hp, Nat2Z.id. done.
Qed.

(** What the voters are left with. *)
Definition voted (T : Z) (nj nj' : @Node Cmd) : Prop := log (rf nj') = log (rf nj) ∧ currentTerm (rf nj') = T.

Lemma collect n c i nd e el Q :
  nodes c !! i = Some nd → peers (rf nd) = Z.of_nat n → elections nd !! e = Some el → standing n nd el → NoDup Q → i ∉ Q →
  (∀ j, j ∈ Q → RVReq i j e (el_args el) ∈ net c ∧ ∃ nj ej, nodes c !! j = Some nj ∧ currentTerm (rf nj) < rva_Term (el_args el) ∧
     last (log (rf nj)) = Some ej ∧ upToDate (el_args el) (len (log (rf nj)) - 1) (le_Term ej) = true) →
  ∃ ls c' nd' el', run c ls = Some c' ∧ nodes c' !! i = Some nd' ∧ standing n nd' el' ∧ kept nd nd' ∧
    el_args el' = el_args el ∧ votes el' = votes el + len Q ∧
    (∀ j nj, j ∈ Q → nodes c !! j = Some nj → ∃ nj', nodes c' !! j = Some nj' ∧ voted (rva_Term (el_args el)) nj nj') ∧
    ∀ k, k ≠ i → k ∉ Q → nodes c' !! k = nodes c !! k.
Proof.
  intros Hi Hp He Hs Hnd. revert c nd el Hi Hp He Hs. induction Hnd as [|j Q Hj Hnd IH]; intros c nd el Hi Hp He Hs Hni HQ.
  { exists [], c, nd, el. split_and!; [done..|unfold len; simpl; lia|by intros ? ? ?%elem_of_nil|done]. }
  apply not_elem_of_cons in Hni as [Hij Hni]. destruct (HQ j ltac:(left)) as (Hreq&nj&ej&Hnj&HTj&Hlj&Huj).
  destruct (vote_given _ _ _ HTj Hlj Huj) as (fj&HRV&HTj'&Hlogj). destruct (standing_vote n nd el e Hp Hs He) as (rfi&el1&gos&HV&Hs1&Hk1&He1&Ha1&Hv1).
  destruct (vote_exchange c i j e (el_args el) nd nj el fj _ rfi el1 gos Hij Hreq Hi Hnj He HRV HV) as (ls1&c1&E1&Hn1&Hnet1).
  set (nd1 := spawn gos _) in *. assert (Hlen : (i < length (nodes c))%nat) by (by eapply lookup_lt_Some).
  assert (Hi1 : nodes c1 !! i = Some nd1) by (rewrite Hn1; apply list_lookup_insert_eq; by rewrite length_insert).
  assert (Hoth : ∀ k, k ∈ Q → nodes c1 !! k = nodes c !! k).
  { intros k Hk. rewrite Hn1, !list_lookup_insert_ne; [done|congruence..]. }
  destruct (IH c1 nd1 el1 Hi1) as (ls2&c2&nd2&el2&E2&Hi2&Hs2&Hk2&Ha2&Hv2&HQ2&Hfr2); [by rewrite (kp_peers _ _ Hk1)|done..| |].
  { intros k Hk. destruct (HQ k ltac:(by right)) as (Hreqk&Hnk). rewrite Ha1. split; [|rewrite Hoth by done; done].
    apply Hnet1; [done|]. intros [= ->]. done. }
  exists (ls1 ++ ls2), c2, nd2, el2. split; [by eapply run_trans|]. split; [done|]. split; [done|]. split; [by etrans|].
  split; [congruence|]. split; [rewrite len_cons; lia|]. split.
  - intros k nk [->|Hk]%elem_of_cons Hnk; [|rewrite Ha1 in HQ2; apply (HQ2 k nk Hk); by rewrite Hoth].
    simplify_eq. exists (set_rf fj nj). split; [|done]. rewrite Hfr2, Hn1 by done.
    rewrite list_lookup_insert_ne by done. apply list_lookup_insert_eq. by eapply lookup_lt_Some.
  - intros k Hki [Hkj HkQ]%not_elem_of_cons. rewrite Hfr2, Hn1 by done. by rewrite !list_lookup_insert_ne.
Qed.

(** ** A leader *)

(** A majority: distinct peers that with [i] are more than half. *)
Record majority (n i : nat) Q : Prop := {
  mj_nodup : NoDup Q;
  mj_other : i ∉ Q;
  mj_peers : ∀ j, j ∈ Q → (j < n)%nat;
  mj_some : Q ≠ [];
  mj_more : Z.of_nat n / 2 < 1 + len Q
}.

(** A leader that has just been elected. *)
Record elected (n : nat) (nd : @Node Cmd) : Prop := {
  et_state : state (rf nd) = LEADER;
  et_heartbeats : heartbeats nd ≠ 0%nat;
  et_next : nextIndex (rf nd) = replicate n (len (log (rf nd)));
  et_match : matchIndex (rf nd) = replicate n 0
}.

Lemma election_wins n r c i nd Q : reachable n r c → nodes c !! i = Some nd → state (rf nd) ≠ LEADER → majority n i Q →
  (∀ j nj, j ∈ Q → nodes c !! j = Some nj → ahead (rf nd) (rf nj)) →
  ∃ ls c' nd', run c ls = Some c' ∧ nodes c' !! i = Some nd' ∧ elected n nd' ∧ kept nd nd' ∧
    ∀ j nj, j ∈ Q → nodes c !! j = Some nj → currentTerm (rf nj) < currentTerm (rf nd') ∧
      ∃ nj', nodes c' !! j = Some nj' ∧ voted (currentTerm (rf nd')) nj nj'.
Proof.
  intros Hr Hi Hst [HQn HQi HQp HQs HQm] Hah.
  destruct (catch_up_all n r c i nd Q Hr Hi Hst HQi HQp) as (ls1&c1&nd1&E1&Hn1&Hk1&Hst1&_&HT1).
  pose proof (reachable_run _ _ _ _ _ Hr E1) as Hr1.
  assert (Hi1 : nodes c1 !! i = Some nd1) by (rewrite Hn1; apply list_lookup_insert_eq; by eapply lookup_lt_Some).
  destruct (stand n r c1 i nd1 Hr1 Hi1 Hst1) as (c2&nd2&el&e&E2&He&Hn2&Hnet2&HA&Hargs&Hel&Hhb&Hch).
  pose proof (stand_kept _ _ _ _ HA Hch) as Hk2. pose proof (AttemptEletion_spec _ _ _ _ _ HA) as (_&_&Hst2&HT2&_&_&_&_&_&_&_&_&Hv&Hd&_).
  destruct (wf_id _ _ (wf_reachable _ _ _ Hr1) i nd1 Hi1) as [Hme Hpeers].
  assert (Hi2 : nodes c2 !! i = Some nd2) by (rewrite Hn2; apply list_lookup_insert_eq; by eapply lookup_lt_Some).
  assert (Hj2 : ∀ j, j ∈ Q → nodes c2 !! j = nodes c !! j).
  { intros j Hj. rewrite Hn2, Hn1, !list_lookup_insert_ne by congruence. done. }
  assert (Hn : 1 ≤ Z.of_nat n / 2).
  { destruct Q as [|j Q]; [done|]. pose proof (HQp j ltac:(left)) as Hlt. pose proof (lookup_node _ _ _ _ (wf_reachable _ _ _ Hr) Hi) as Hlt'.
    apply not_elem_of_cons in HQi as [? _]. apply Z.div_le_lower_bound; lia. }
  destruct (collect n c2 i nd2 (length (elections nd1)) el Q) as (ls3&c3&nd3&el3&E3&Hi3&[HT3 Hs3]&Hk3&Ha3&Hv3&HQ3&_); [done| | | |done|done| |].
  - by rewrite (kp_peers _ _ Hk2).
  - rewrite Hel. by apply list_lookup_middle.
  - split; [rewrite Hargs; simpl; lia|]. rewrite Hd. split; [done|lia].
  - intros j Hj. split; [rewrite Hnet2; apply elem_of_app; right; eapply request_sent; [done..|congruence|by apply HQp]|].
    destruct (lookup_lt_is_Some_2 (nodes c) j) as [nj Hnj]; [rewrite (wf_len _ _ (wf_reachable _ _ _ Hr)); by apply HQp|].
    destruct (Hah j nj Hj Hnj) as (e0&ej&He0&Hej&Hup). exists nj, ej. rewrite Hj2 by done. rewrite Hargs. cbn [rva_Term].
    pose proof (HT1 j nj Hj Hnj). split_and!; [done|lia|done|]. rewrite (kp_log _ _ Hk1) in *. simplify_eq. exact Hup.
  - exists (ls1 ++ [Timer i; Attempt i 0] ++ ls3), c3, nd3. split; [by eapply run_trans, run_trans|]. split; [done|].
    destruct (el_done el3); [|lia]. destruct Hs3 as (?&?&?&?). split; [by split|]. split; [by etrans; [|etrans]|].
    intros j nj Hj Hnj. rewrite HT3, Ha3. split; [pose proof (HT1 j nj Hj Hnj); rewrite Hargs; simpl; lia|].
    apply HQ3; [done|]. by rewrite Hj2.
Qed.
End Election.
End RaftElection.
