(* ===== verification/RaftProgress.v ===== *)
(** * A majority can make progress

    Schedules that follow an election: the leader appends a command, brings the
    logs of the majority up to its own, confirms them in one round of heartbeats
    and delivers the command. *)

From S2P Require Import Prelude RaftServer RaftServerFacts RaftCluster RaftInvariants RaftReplication RaftScenarios RaftLogMatching RaftIndex RaftElection.

Module RaftProgress.
Import RaftServer RaftServerFacts RaftCluster RaftInvariants RaftReplication RaftScenarios RaftLogMatching RaftIndex RaftElection.
Section Progress.
Context {Cmd : Type}.
Implicit Types (c : @Cluster Cmd) (Q : list nat) (L F : Raft Cmd).

(** ** Exchanges in a cluster *)

Lemma insert_two {A} (l : list A) i j x y z : i ≠ j → <[i := x]> (<[j := y]> (<[i := z]> l)) = <[i := x]> (<[j := y]> l).
Proof. intros Hij. rewrite (list_insert_insert_ne l j i) by done. by rewrite list_insert_insert_eq. Qed.
Lemma insert_pairs {A} (l : list A) i j x y x' y' : i ≠ j →
  <[i := x]> (<[j := y]> (<[i := x']> (<[j := y']> l))) = <[i := x]> (<[j := y]> l).
Proof. intros Hij. by rewrite insert_two, list_insert_insert_eq. Qed.

Definition after_beat (nd : @Node Cmd) : @Node Cmd :=
  mkNode (rf nd) (elections nd) (rounds nd ++ [mkRound 1 false])
    (senders nd ++ ((λ d, (length (rounds nd), d)) <$> others (rf nd))) (heartbeats nd) (attempts nd) (applyCh nd).

Lemma beat c i nd : nodes c !! i = Some nd → state (rf nd) = LEADER → killed (rf nd) = false → heartbeats nd ≠ 0%nat →
  run c [Beat i] = Some (set_node i (after_beat nd) c).
Proof.
  intros Hi Hst Hk Hh. cbn [run exec]. rewrite Hi. cbn [mbind option_bind]. unfold after_beat. destruct (heartbeats nd) as [|h]; [done|].
  unfold HeartBeat_iteration. rewrite Hk, bool_decide_eq_false_2 by (intros H; by apply H). done.
Qed.

(** One request of a round and its reply. *)
Lemma send_exchange c i j ni nj k R rd args F' rep L' rd' :
  i ≠ j → nodes c !! i = Some ni → nodes c !! j = Some nj → senders ni !! k = Some (R, Z.of_nat j) → rounds ni !! R = Some rd →
  HeartBeat_args (Z.of_nat j) (rf ni) = Some args → AppendEntries 0 args (rf nj) = Some (F', rep) →
  handleHeartBeatReply 0 rd (Z.of_nat j) args rep (rf ni) = Some (L', rd') →
  ∃ ls c', run c ls = Some c' ∧
    nodes c' = <[i := mkNode L' (elections ni) (<[R := rd']> (rounds ni)) (delete k (senders ni)) (heartbeats ni) (attempts ni) (applyCh ni)]>
                 (<[j := set_rf F' nj]> (nodes c)).
Proof.
  intros Hij Hi Hj Hk HR HA HE HH. exists [Send i k; DeliverAE (length (net c)) 0; DeliverAERep (length (net c)) 0].
  cbn [run exec]. rewrite Hi. cbn [mbind option_bind]. rewrite Hk. cbn [mbind option_bind]. rewrite HA. cbn [mbind option_bind].
  cbn [set_net set_node nodes net]. rewrite list_lookup_middle by done. cbn [mbind option_bind]. rewrite Nat2Z.id.
  rewrite list_lookup_insert_ne, Hj by done. cbn [mbind option_bind]. rewrite HE. cbn [mbind option_bind].
  cbn [add_resets set_net set_node nodes net]. rewrite delete_middle, app_nil_r, list_lookup_middle by done. cbn [mbind option_bind].
  rewrite list_lookup_insert_ne, list_lookup_insert_eq by (done || by eapply lookup_lt_Some). cbn [mbind option_bind rounds]. rewrite HR.
  cbn [mbind option_bind rf]. rewrite HH. cbn [mbind option_bind]. eexists. split; [reflexivity|].
  cbn [add_resets set_net set_node nodes elections senders rounds heartbeats attempts applyCh].
  by rewrite insert_two.
Qed.

(** What the leader keeps while it replicates to peer [j]. *)
Record lead_kept (j : Z) L L' : Prop := {
  lk_state : state L' = LEADER;
  lk_term : currentTerm L' = currentTerm L;
  lk_log : log L' = log L;
  lk_index : termToIndex L' = termToIndex L;
  lk_dead : dead L' = dead L;
  lk_peers : peers L' = peers L;
  lk_me : me L' = me L;
  lk_applied : lastApplied L' = lastApplied L;
  lk_next : ∀ k, k ≠ j → (nextIndex L')@[k] = (nextIndex L)@[k];
  lk_len : len (nextIndex L') = len (nextIndex L);
  lk_mlen : len (matchIndex L') = len (matchIndex L)
}.

Lemma lead_kept_trans j L L1 L2 : lead_kept j L L1 → lead_kept j L1 L2 → lead_kept j L L2.
Proof. intros [] []. split; try congruence. intros k Hk. rewrite lk_next1 by done. by apply lk_next0. Qed.

Lemma reply_kept j rd args rep L L' rd' : state L = LEADER → aer_Term rep ≤ currentTerm L →
  handleHeartBeatReply 0 rd j args rep L = Some (L', rd') → lead_kept j L L'.
Proof.
  intros Hst HT H. apply handleHeartBeatReply_spec in H as [(_&?&_)|[(_&_&_&next&Hu&->)|(_&next&mtch&Hu&Hm&_&H)]]; [lia|..].
  - split; try done; cbn [nextIndex set_nextIndex]; [|by apply len_upd in Hu]. intros k Hk. rewrite (idx_upd _ _ _ _ _ Hu).
    by destruct (Z.eqb_spec k j).
  - assert (Hk : lead_kept j L (set_matchIndex mtch (set_nextIndex next L))).
    { split; try done; cbn [nextIndex matchIndex set_matchIndex set_nextIndex]; [|by apply len_upd in Hu|by apply len_upd in Hm].
      intros k Hk. rewrite (idx_upd _ _ _ _ _ Hu). by destruct (Z.eqb_spec k j). }
    destruct (_ || _); destruct H as [-> _]; [done|]. by destruct Hk; split.
Qed.

(** A follower after a request of the leader. *)
Lemma append_follows args F F' rep : currentTerm F ≤ aea_Term args → AppendEntries 0 args F = Some (F', rep) →
  state F' = FOLLOWER ∧ currentTerm F' = aea_Term args ∧ aer_Term rep = aea_Term args.
Proof.
  intros HT H. apply AppendEntries_outcome in H. destruct H; [lia|..]; unfold accepted; raft_simpl; done.
Qed.

Lemma HeartBeat_args_term j L args : HeartBeat_args j L = Some args → aea_Term args = currentTerm L.
Proof. intros H. unfold HeartBeat_args in H. run_handler H. done. Qed.

Lemma replicate_kept j L F L' F' : replicate 0 j (L, F) = Some (L', F') → state L = LEADER → currentTerm F ≤ currentTerm L →
  lead_kept j L L' ∧ state F' = FOLLOWER ∧ currentTerm F' = currentTerm L.
Proof.
  unfold replicate. intros H Hst HT. destruct (HeartBeat_args j L) as [args|] eqn:HA; [|done]. cbn [mbind option_bind] in H.
  pose proof (HeartBeat_args_term _ _ _ HA) as Hargs.
  destruct (AppendEntries 0 args F) as [[F1 rep]|] eqn:HE; [|done]. cbn [mbind option_bind] in H.
  destruct (append_follows args F F1 rep) as (?&?&?); [lia|done|].
  destruct (handleHeartBeatReply _ _ _ _ _ _) as [[L1 rd]|] eqn:HH; [|done]. cbn [mbind option_bind] in H. simplify_eq.
  split; [eapply reply_kept; [done| |done]; lia|]. split; [done|lia].
Qed.

(** ** The exchange of [RaftReplication] in a cluster *)

Definition same_goroutines (nd nd' : @Node Cmd) : Prop := heartbeats nd' = heartbeats nd ∧ applyCh nd' = applyCh nd.

Lemma replicate_run n c i j ni nj L' F' : nodes c !! i = Some ni → nodes c !! j = Some nj → i ≠ j → (j < n)%nat →
  peers (rf ni) = Z.of_nat n → me (rf ni) = Z.of_nat i → state (rf ni) = LEADER → killed (rf ni) = false → heartbeats ni ≠ 0%nat →
  replicate 0 (Z.of_nat j) (rf ni, rf nj) = Some (L', F') →
  ∃ ls c' ni', run c ls = Some c' ∧ nodes c' = <[i := ni']> (<[j := set_rf F' nj]> (nodes c)) ∧ rf ni' = L' ∧ same_goroutines ni ni'.
Proof.
  intros Hi Hj Hij Hjn Hp Hm Hst Hk Hh H. unfold replicate in H. destruct (HeartBeat_args _ (rf ni)) as [args|] eqn:HA; [|done]. cbn [mbind option_bind] in H.
  destruct (AppendEntries 0 args (rf nj)) as [[F1 rep]|] eqn:HE; [|done]. cbn [mbind option_bind] in H.
  destruct (handleHeartBeatReply _ _ _ _ _ _) as [[L1 rd]|] eqn:HH; [|done]. cbn [mbind option_bind] in H. simplify_eq.
  pose proof (beat c i ni Hi Hst Hk Hh) as HB. assert (Hil : (i < length (nodes c))%nat) by (by eapply lookup_lt_Some).
  assert (Hs : (length (rounds ni), Z.of_nat j) ∈ senders (after_beat ni)).
  { simpl. apply elem_of_app. right. apply list_elem_of_fmap. exists (Z.of_nat j). split; [done|]. apply list_elem_of_filter. rewrite elem_of_seqZ. lia. }
  apply list_elem_of_lookup in Hs as [k Hsk].
  destruct (send_exchange (set_node i (after_beat ni) c) i j (after_beat ni) nj k (length (rounds ni)) (mkRound 1 false) args F' rep L' rd)
    as (ls&c'&E&Hn); [done|by apply list_lookup_insert_eq|by simpl; rewrite list_lookup_insert_ne|done|by apply list_lookup_middle|done..|].
  eexists ([Beat i] ++ ls), c', _. split; [by eapply run_trans|].
  rewrite Hn. cbn [set_node nodes]. rewrite insert_two by done. split; [done|]. by split.
Qed.

Lemma replicates_run n i j m : i ≠ j → (j < n)%nat → ∀ c ni nj L' F', nodes c !! i = Some ni → nodes c !! j = Some nj →
  peers (rf ni) = Z.of_nat n → me (rf ni) = Z.of_nat i → state (rf ni) = LEADER → killed (rf ni) = false → heartbeats ni ≠ 0%nat →
  currentTerm (rf nj) ≤ currentTerm (rf ni) → replicates 0 (Z.of_nat j) m (rf ni, rf nj) = Some (L', F') →
  ∃ ls c' ni', run c ls = Some c' ∧ nodes c' = <[i := ni']> (<[j := set_rf F' nj]> (nodes c)) ∧ rf ni' = L' ∧ same_goroutines ni ni' ∧
    lead_kept (Z.of_nat j) (rf ni) L' ∧ currentTerm F' ≤ currentTerm L' ∧ (m ≠ 0%nat → state F' = FOLLOWER).
Proof.
  intros Hij Hjn. induction m as [|m IH]; intros c ni nj L' F' Hi Hj Hp Hm Hst Hk Hh HT H.
  - cbn [replicates] in H. simplify_eq. exists [], c, ni. split; [done|].
    assert (Hs : set_rf (rf nj) nj = nj) by (by destruct nj). rewrite Hs, (list_insert_id _ j), (list_insert_id _ i) by done.
    split_and!; done.
  - cbn [replicates] in H. destruct (replicate _ _ _) as [[L1 F1]|] eqn:H1; [|done]. cbn [mbind option_bind] in H.
    destruct (replicate_kept _ _ _ _ _ H1 Hst HT) as (Hk1&HF1&HT1).
    destruct (replicate_run n c i j ni nj L1 F1) as (ls1&c1&ni1&E1&Hn1&Hrf1&[Hh1 Ha1]); [done..|]. subst L1.
    assert (Hil : (i < length (nodes c))%nat) by (by eapply lookup_lt_Some). assert (Hjl : (j < length (nodes c))%nat) by (by eapply lookup_lt_Some).
    destruct (IH c1 ni1 (set_rf F1 nj) L' F') as (ls2&c2&ni2&E2&Hn2&Hrf2&[Hh2 Ha2]&Hk2&HT2&HF2); rewrite ?Hn1.
    + apply list_lookup_insert_eq. by rewrite length_insert.
    + rewrite list_lookup_insert_ne by done. by apply list_lookup_insert_eq.
    + by rewrite (lk_peers _ _ _ Hk1).
    + by rewrite (lk_me _ _ _ Hk1).
    + apply (lk_state _ _ _ Hk1).
    + unfold killed. rewrite (lk_dead _ _ _ Hk1). exact Hk.
    + by rewrite Hh1.
    + simpl. rewrite HT1, (lk_term _ _ _ Hk1). lia.
    + done.
    + exists (ls1 ++ ls2), c2, ni2. split; [by eapply run_trans|]. split.
      { by rewrite Hn2, Hn1, insert_pairs. }
      split; [done|]. split; [split; congruence|]. split; [by eapply lead_kept_trans|]. split; [done|]. intros _.
      destruct m; [|by apply HF2]. cbn [replicates] in H. by simplify_eq.
Qed.

(** ** Bringing a peer up to date *)

(** A leader whose next indices are in its log. *)
Record leading (n i : nat) L : Prop := {
  ldg_state : state L = LEADER;
  ldg_alive : killed L = false;
  ldg_peers : peers L = Z.of_nat n;
  ldg_me : me L = Z.of_nat i;
  ldg_log : log_ok (currentTerm L) (log L);
  ldg_pos : ∀ k e, 0 < k → (log L)@[k] = Some e → 0 < le_Term e;
  ldg_index : tti_ok (termToIndex L) (log L);
  ldg_len : len (nextIndex L) = Z.of_nat n;
  ldg_mlen : len (matchIndex L) = Z.of_nat n;
  ldg_next : ∀ k next, (nextIndex L)@[k] = Some next → 1 ≤ next ≤ len (log L)
}.

(** A peer of no later term whose log matches the leader's. *)
Record behind L F : Prop := {
  bh_term : currentTerm F ≤ currentTerm L;
  bh_head : ∃ e, (log F)@[0] = Some e ∧ le_Term e = 0;
  bh_matching : ∀ k e e', (log L)@[k] = Some e → (log F)@[k] = Some e' → le_Term e = le_Term e' →
    take (Z.to_nat (k + 1)) (log F) = take (Z.to_nat (k + 1)) (log L)
}.

Lemma leading_ok n i L j : leading n i L → (j < n)%nat → ∃ next, leader_ok (Z.of_nat j) next L.
Proof.
  intros [] Hj. destruct (idx_in_range (nextIndex L) (Z.of_nat j)) as [next Hnext]; [lia|]. exists next. split; try done; [by eapply ldg_next0|lia].
Qed.

Lemma leading_kept n i j L L' next : leading n i L → lead_kept j L L' → (nextIndex L')@[j] = Some next → 1 ≤ next ≤ len (log L) → leading n i L'.
Proof.
  intros [] [] Hn Hr. split; unfold killed in *; rewrite ?lk_term0, ?lk_log0, ?lk_index0, ?lk_dead0, ?lk_peers0, ?lk_me0; try done; try congruence.
  intros k x Hx. destruct (decide (k = j)) as [->|Hne]; [by simplify_eq|]. rewrite lk_next0 in Hx by done. by eapply ldg_next0.
Qed.

(** A peer that is not a follower steps down and reports success. *)
Lemma replicate_wake j next L F : leader_ok j next L → state F ≠ FOLLOWER → currentTerm F ≤ currentTerm L →
  ∃ L' F', replicate 0 j (L, F) = Some (L', F') ∧ log F' = log F ∧ (nextIndex L')@[j] = Some (len (log L)).
Proof.
  intros HL Hst HT. destruct (HeartBeat_args_spec _ _ _ HL) as (prev&_&Hargs). unfold replicate. rewrite Hargs. cbn [mbind option_bind].
  unfold AppendEntries. rewrite bool_decide_eq_true_2 by done. cbn [aea_Term]. rewrite (proj2 (Z.leb_le _ _)) by done. cbn [mbind option_bind].
  unfold handleHeartBeatReply. cbn [aer_Success negb]. pose proof (idx_Some_range _ _ _ (ld_next _ _ _ HL)) as Hi. pose proof (ld_match _ _ _ HL) as Hm.
  rewrite !upd_in_range by lia. cbn [mbind option_bind].
  assert (Hn : (<[Z.to_nat j:=len (log L)]> (nextIndex L))@[j] = Some (len (log L))).
  { erewrite idx_upd by (by apply upd_in_range). by rewrite Z.eqb_refl. }
  destruct (_ || _); eexists _, _; (split; [done|]; split; [by raft_simpl|exact Hn]).
Qed.

Lemma converge n i j L F : leading n i L → behind L F → (j < n)%nat →
  ∃ m L' F', replicates 0 (Z.of_nat j) m (L, F) = Some (L', F') ∧ (m = 0%nat → state F = FOLLOWER) ∧
    log F' = log L ∧ (nextIndex L')@[Z.of_nat j] = Some (len (log L)).
Proof.
  assert (Hf : ∀ L F, leading n i L → behind L F → (j < n)%nat → state F = FOLLOWER →
    ∃ m L' F', replicates 0 (Z.of_nat j) m (L, F) = Some (L', F') ∧ log F' = log L ∧ (nextIndex L')@[Z.of_nat j] = Some (len (log L))).
  { clear L F. intros L F HL [HT Hh Hm] Hj Hst. destruct (leading_ok _ _ _ _ HL Hj) as [next Hok].
    destruct (HeartBeat_args_spec _ _ _ Hok) as (prev&Hprev&_).
    destruct (replicates_converge 0 (Z.of_nat j) next L F prev Hok) as (m&L'&F'&_&?&?&_&?); [by split|done|]. by exists m, L', F'. }
  intros HL HF Hj. destruct (decide (state F = FOLLOWER)) as [Hst|Hst].
  { destruct (Hf L F HL HF Hj Hst) as (m&L'&F'&?&?&?). by exists m, L', F'. }
  destruct (leading_ok _ _ _ _ HL Hj) as [next Hok]. destruct HF as [HT Hh Hm].
  destruct (replicate_wake _ _ _ _ Hok Hst HT) as (L1&F1&H1&Hl1&Hn1). destruct (replicate_kept _ _ _ _ _ H1 (ldg_state _ _ _ HL) HT) as (Hk1&Hst1&HT1).
  pose proof (log_ok_nonempty _ _ (ldg_log _ _ _ HL)) as Hne.
  pose proof (leading_kept _ _ _ _ _ _ HL Hk1 Hn1 ltac:(lia)) as HL1. destruct (Hf L1 F1 HL1) as (m&L'&F'&E&?&?); [|done..|].
  { split; [rewrite HT1, (lk_term _ _ _ Hk1); lia|by rewrite Hl1|]. by rewrite Hl1, (lk_log _ _ _ Hk1). }
  rewrite (lk_log _ _ _ Hk1) in *. exists (S m), L', F'. cbn [replicates]. rewrite H1. by split_and!.
Qed.

(** What holds of the leader's node all along. *)
Record led (nd nd' : @Node Cmd) : Prop := {
  ld_same : same_goroutines nd nd';
  ld_term' : currentTerm (rf nd') = currentTerm (rf nd);
  ld_log' : log (rf nd') = log (rf nd);
  ld_applied : lastApplied (rf nd') = lastApplied (rf nd)
}.
#[local] Instance led_trans : Transitive led.
Proof. intros a b d [[] ? ? ?] [[] ? ? ?]. split; [split|..]; congruence. Qed.
#[local] Instance led_refl : Reflexive led.
Proof. intros a. by split. Qed.

(** A follower that has the leader's log. *)
Definition synced L F : Prop := state F = FOLLOWER ∧ currentTerm F ≤ currentTerm L ∧ log F = log L.

Lemma converge_all n i Q : NoDup Q → i ∉ Q → ∀ c ni, nodes c !! i = Some ni → leading n i (rf ni) → heartbeats ni ≠ 0%nat →
  (∀ j, j ∈ Q → (j < n)%nat ∧ ∃ nj, nodes c !! j = Some nj ∧ behind (rf ni) (rf nj)) →
  ∃ ls c' ni', run c ls = Some c' ∧ nodes c' !! i = Some ni' ∧ leading n i (rf ni') ∧ led ni ni' ∧
    (∀ j, j ∈ Q → (nextIndex (rf ni'))@[Z.of_nat j] = Some (len (log (rf ni))) ∧ ∃ nj, nodes c' !! j = Some nj ∧ synced (rf ni') (rf nj)) ∧
    (∀ k, k ∉ Q → (nextIndex (rf ni'))@[Z.of_nat k] = (nextIndex (rf ni))@[Z.of_nat k]) ∧
    ∀ k, k ≠ i → k ∉ Q → nodes c' !! k = nodes c !! k.
Proof.
  induction 1 as [|j Q Hj Hnd IH]; intros Hni c ni Hi HL Hh HQ.
  { exists [], c, ni. split_and!; try done. by intros ? ?%elem_of_nil. }
  apply not_elem_of_cons in Hni as [Hij Hni]. destruct (HQ j ltac:(left)) as (Hjn&nj&Hnj&HF).
  destruct (converge n i j _ _ HL HF Hjn) as (m&L'&F'&E&H0&Hlog&Hnext). pose proof HL as [Hst Hal Hp Hm Hlo _ _ _ _ _].
  destruct (replicates_run n i j m Hij Hjn c ni nj L' F') as (ls1&c1&ni1&E1&Hn1&<-&Hsg&Hk1&HT1&HF1); [done..|apply HF|done|].
  pose proof (log_ok_nonempty _ _ Hlo) as Hne. pose proof (leading_kept _ _ _ _ _ _ HL Hk1 Hnext ltac:(lia)) as HL1.
  assert (Hil : (i < length (nodes c))%nat) by (by eapply lookup_lt_Some). assert (Hjl : (j < length (nodes c))%nat) by (by eapply lookup_lt_Some).
  assert (Hi1 : nodes c1 !! i = Some ni1) by (rewrite Hn1; apply list_lookup_insert_eq; by rewrite length_insert).
  assert (Hled : led ni ni1) by (split; [done|apply Hk1..]).
  destruct (IH Hni c1 ni1 Hi1 HL1) as (ls2&c2&ni2&E2&Hi2&HL2&Hled2&HQ2&Hnx2&Hfr2).
  { by destruct Hsg as [-> _]. }
  { intros k Hk. destruct (HQ k ltac:(by right)) as (Hkn&nk&Hnk&[H1 H2 H3]). split; [done|]. exists nk.
    split; [rewrite Hn1, !list_lookup_insert_ne; [done|congruence..]|].
    split; rewrite ?(lk_term _ _ _ Hk1), ?(lk_log _ _ _ Hk1); done. }
  exists (ls1 ++ ls2), c2, ni2. split; [by eapply run_trans|]. split; [done|]. split; [done|]. split; [by etrans|].
  rewrite (lk_log _ _ _ Hk1) in HQ2. split; [|split].
  - intros k [->|Hk]%elem_of_cons; [|by apply HQ2]. split; [by rewrite Hnx2|]. exists (set_rf F' nj).
    split; [rewrite Hfr2, Hn1, list_lookup_insert_ne, list_lookup_insert_eq by done; done|].
    split; [|split; [|by rewrite (ld_log' _ _ Hled2), (lk_log _ _ _ Hk1)]]; [|by rewrite (ld_term' _ _ Hled2)].
    simpl. destruct m; [|by apply HF1]. cbn [replicates] in E. simplify_eq. auto.
  - intros k [Hkj HkQ]%not_elem_of_cons. rewrite Hnx2, (lk_next _ _ _ Hk1) by (done || lia). done.
  - intros k Hki [Hkj HkQ]%not_elem_of_cons. rewrite Hfr2, Hn1, !list_lookup_insert_ne by done. done.
Qed.

(** ** A round that confirms the log *)

(** The leader has committed its log, or the round has no majority yet. *)
Definition counted (n : nat) L (rd : Round) : Prop :=
  if hb_done rd then commitIndex L = len (log L) - 1 else hb_count rd ≤ Z.of_nat n / 2.

Lemma confirm n i j L F rd : leading n i L → (j < n)%nat → (nextIndex L)@[Z.of_nat j] = Some (len (log L)) → synced L F → counted n L rd →
  ∃ args F' rep L' rd', HeartBeat_args (Z.of_nat j) L = Some args ∧ AppendEntries 0 args F = Some (F', rep) ∧
    handleHeartBeatReply 0 rd (Z.of_nat j) args rep L = Some (L', rd') ∧
    lead_kept (Z.of_nat j) L L' ∧ leading n i L' ∧ synced L' F' ∧ hb_count rd' = hb_count rd + 1 ∧ counted n L' rd'.
Proof.
  intros HL Hj Hn (HF&HT&Hlog) Hc. destruct (leading_ok _ _ _ _ HL Hj) as [next Hok]. pose proof (ld_next _ _ _ Hok) as Hn'. rewrite Hn in Hn'. injection Hn' as <-.
  pose proof (ld_match _ _ _ Hok) as Hm. pose proof (ld_range _ _ _ Hok) as Hr.
  destruct (HeartBeat_args_spec _ _ _ Hok) as (prev&Hprev&Hargs). set (args := mkAppendEntriesArgs _ _ _ _ _ _ _) in Hargs.
  destruct (AppendEntries_total 0 args F) as [[F' rep] HA]; [simpl; lia|]. pose proof (AppendEntries_outcome _ _ _ _ _ HA) as HO.
  pose proof (idx_Some_range _ _ _ Hn) as Hi.
  assert (HF' : rep = mkAppendEntriesReply (aea_Term args) true ∧ synced L F').
  { inversion HO as [?|?|? ? Hmis|e ? ? He Hte]; subst; simpl in *; [lia|done|exfalso; eapply Hmis; [by rewrite Hlog|done]|].
    split; [done|]. unfold synced, accepted. raft_simpl. split_and!; [done|lia|]. rewrite Hlog, (drop_ge (log L)) by (unfold len; lia).
    rewrite app_nil_r. apply take_ge. unfold len. lia. }
  destruct HF' as [-> Hsy].
  destruct (handleHeartBeatReply 0 rd (Z.of_nat j) args (mkAppendEntriesReply (aea_Term args) true) L) as [[L' rd']|] eqn:HH.
  2:{ unfold handleHeartBeatReply in HH. cbn [aer_Success negb] in HH. rewrite !upd_in_range in HH by lia. cbn [mbind option_bind] in HH. by destruct (_ || _). }
  assert (Hk : lead_kept (Z.of_nat j) L L') by (eapply reply_kept; [apply HL| |exact HH]; unfold args; simpl; lia).
  pose proof (handleHeartBeatReply_spec _ _ _ _ _ _ _ _ HH) as [(?&_)|[(?&_)|(_&nx&mt&Hu&_&Hcount&Hrest)]]; [done..|].
  exists args, F', (mkAppendEntriesReply (aea_Term args) true), L', rd'. split_and!; try done.
  - eapply (leading_kept n i (Z.of_nat j) L L' (len (log L))); [done..| |lia].
    assert (nextIndex L' = nx) as -> by (by destruct (_ || _); destruct Hrest as [-> _]).
    rewrite (idx_upd _ _ _ _ _ Hu). by rewrite Z.eqb_refl.
  - destruct Hsy as (?&?&?). split; [done|]. by rewrite (lk_term _ _ _ Hk), (lk_log _ _ _ Hk).
  - unfold counted in *. rewrite (ldg_peers _ _ _ HL) in Hrest. destruct (hb_done rd) eqn:Hd; cbn [orb] in Hrest; [by destruct Hrest as [-> ->]|].
    destruct (Z.leb_spec (hb_count rd') (Z.of_nat n / 2)); [by destruct Hrest as [_ ->]|]. by destruct Hrest as [-> ->].
Qed.

Lemma confirm_all n i R Q : NoDup Q → i ∉ Q → ∀ c ni rd, nodes c !! i = Some ni → leading n i (rf ni) →
  rounds ni !! R = Some rd → counted n (rf ni) rd →
  (∀ j, j ∈ Q → (j < n)%nat ∧ (R, Z.of_nat j) ∈ senders ni ∧ (nextIndex (rf ni))@[Z.of_nat j] = Some (len (log (rf ni))) ∧
     ∃ nj, nodes c !! j = Some nj ∧ synced (rf ni) (rf nj)) →
  ∃ ls c' ni' rd', run c ls = Some c' ∧ nodes c' !! i = Some ni' ∧ leading n i (rf ni') ∧ led ni ni' ∧
    hb_count rd' = hb_count rd + len Q ∧ counted n (rf ni') rd' ∧
    (∀ j, j ∈ Q → ∃ nj, nodes c' !! j = Some nj ∧ synced (rf ni') (rf nj)) ∧
    ∀ k, k ≠ i → k ∉ Q → nodes c' !! k = nodes c !! k.
Proof.
  induction 1 as [|j Q Hj Hnd IH]; intros Hni c ni rd Hi HL HR Hc HQ.
  { exists [], c, ni, rd. split_and!; try done; [unfold len; simpl; lia|by intros ? ?%elem_of_nil]. }
  apply not_elem_of_cons in Hni as [Hij Hni]. destruct (HQ j ltac:(left)) as (Hjn&(k&Hk)%list_elem_of_lookup&Hnx&nj&Hnj&HF).
  destruct (confirm n i j _ _ rd HL Hjn Hnx HF Hc) as (args&F'&rep&L'&rd1&HA&HE&HH&Hkept&HL1&Hsy&Hct&Hc1).
  destruct (send_exchange c i j ni nj k R rd args F' rep L' rd1 Hij Hi Hnj Hk HR HA HE HH) as (ls1&c1&E1&Hn1). set (ni1 := mkNode L' _ _ _ _ _ _) in *.
  assert (Hil : (i < length (nodes c))%nat) by (by eapply lookup_lt_Some). assert (Hjl : (j < length (nodes c))%nat) by (by eapply lookup_lt_Some).
  assert (Hi1 : nodes c1 !! i = Some ni1) by (rewrite Hn1; apply list_lookup_insert_eq; by rewrite length_insert).
  assert (Hled : led ni ni1) by (split; [by split|apply Hkept..]).
  destruct (IH Hni c1 ni1 rd1 Hi1 HL1) as (ls2&c2&ni2&rd2&E2&Hi2&HL2&Hled2&Hct2&Hc2&HQ2&Hfr2); [|done| |].
  { apply list_lookup_insert_eq. by eapply lookup_lt_Some. }
  { intros j' Hj'. destruct (HQ j' ltac:(by right)) as (?&Hs&Hnx'&nk&Hnk&(?&?&?)). split; [done|]. split; [|split].
    - rewrite (delete_Permutation _ _ _ Hk) in Hs. apply elem_of_cons in Hs as [[= Hs]|?]; [|done]. by assert (j' = j) as -> by lia.
    - simpl. rewrite (lk_next _ _ _ Hkept), (lk_log _ _ _ Hkept) by (intros ?; apply Hj; by assert (j = j') as -> by lia). done.
    - exists nk. split; [rewrite Hn1, !list_lookup_insert_ne; [done|congruence..]|]. split; [done|]. simpl.
      by rewrite (lk_term _ _ _ Hkept), (lk_log _ _ _ Hkept). }
  exists (ls1 ++ ls2), c2, ni2, rd2. split; [by eapply run_trans|]. split; [done|]. split; [done|]. split; [by etrans|].
  split; [rewrite len_cons; lia|]. split; [done|]. split.
  - intros j' [->|Hj']%elem_of_cons; [|by apply HQ2]. exists (set_rf F' nj).
    split; [rewrite Hfr2, Hn1, list_lookup_insert_ne, list_lookup_insert_eq by done; done|].
    destruct Hsy as (?&?&?). split; [done|]. by rewrite (ld_term' _ _ Hled2), (ld_log' _ _ Hled2).
  - intros j' Hki [Hkj HkQ]%not_elem_of_cons. rewrite Hfr2, Hn1, !list_lookup_insert_ne by done. done.
Qed.

(** ** Delivery *)

Definition applied_one (nd : @Node Cmd) (e : LogEntry Cmd) : @Node Cmd :=
  mkNode (set_lastApplied (lastApplied (rf nd) + 1) (rf nd)) (elections nd) (rounds nd) (senders nd) (heartbeats nd) (attempts nd)
    (applyCh nd ++ [command_msg (le_Command e) (lastApplied (rf nd) + 1)]).

Lemma deliver_one c i nd e : nodes c !! i = Some nd → killed (rf nd) = false → lastApplied (rf nd) < commitIndex (rf nd) →
  (log (rf nd))@[lastApplied (rf nd) + 1] = Some e → run c [ApplyOne i] = Some (set_node i (applied_one nd e) c).
Proof.
  intros Hi Hk Hlt He. cbn [run exec]. rewrite Hi. cbn [mbind option_bind]. unfold apply. rewrite Hk, (proj2 (Z.gtb_lt _ _)) by lia.
  cbn [lastApplied set_lastApplied log mbind option_bind]. by rewrite He.
Qed.

Lemma deliver_all i m : ∀ c nd, nodes c !! i = Some nd → killed (rf nd) = false → 0 ≤ lastApplied (rf nd) →
  lastApplied (rf nd) + Z.of_nat (S m) = commitIndex (rf nd) → commitIndex (rf nd) = len (log (rf nd)) - 1 →
  ∃ ls c' nd' e, run c ls = Some c' ∧ nodes c' = <[i := nd']> (nodes c) ∧ state (rf nd') = state (rf nd) ∧ log (rf nd') = log (rf nd) ∧
    last (log (rf nd)) = Some e ∧ last (applyCh nd') = Some (command_msg (le_Command e) (len (log (rf nd)) - 1)).
Proof.
  induction m as [|m IH]; intros c nd Hi Hk H0 Hm Hc;
    (destruct (idx_in_range (log (rf nd)) (lastApplied (rf nd) + 1)) as [e He]; [lia|]);
    pose proof (deliver_one c i nd e Hi Hk ltac:(lia) He) as E1.
  - exists [ApplyOne i], (set_node i (applied_one nd e) c), (applied_one nd e), e. split_and!; [done..| |].
    + rewrite <-idx_last. replace (len (log (rf nd)) - 1) with (lastApplied (rf nd) + 1) by lia. done.
    + unfold applied_one. cbn [applyCh]. rewrite last_snoc. do 2 f_equal. lia.
  - destruct (IH (set_node i (applied_one nd e) c) (applied_one nd e)) as (ls&c'&nd'&e'&E2&Hn&Hst&Hl&He'&Hlast).
    + apply list_lookup_insert_eq. by eapply lookup_lt_Some.
    + done.
    + simpl. lia.
    + cbn [applied_one rf lastApplied set_lastApplied commitIndex]. lia.
    + done.
    + exists ([ApplyOne i] ++ ls), c', nd', e'. split; [by eapply run_trans|]. split; [|done].
      rewrite Hn. cbn [set_node nodes]. by rewrite list_insert_insert_eq.
Qed.

(** ** Progress *)

(** A new leader is ready to replicate. *)
Lemma elected_leads n i nd T (cmd : Cmd) : elected n nd → killed (rf nd) = false → peers (rf nd) = Z.of_nat n → me (rf nd) = Z.of_nat i →
  currentTerm (rf nd) = T → log_ok T (log (rf nd)) → 0 < T → (∀ k e, 0 < k → (log (rf nd))@[k] = Some e → 0 < le_Term e) →
  tti_ok (termToIndex (rf nd)) (log (rf nd)) →
  ∃ L res, Start cmd (rf nd) = Some (L, res) ∧ leading n i L ∧ log L = log (rf nd) ++ [mkLogEntry T (Some cmd)] ∧
    currentTerm L = T ∧ lastApplied L = lastApplied (rf nd).
Proof.
  intros [Hst Hh Hnx Hmt] Hk Hp Hm <- Hlog HT Hpos Htti. pose proof (log_ok_nonempty _ _ Hlog) as Hne.
  destruct (Start cmd (rf nd)) as [[L res]|] eqn:HS.
  2:{ unfold Start in HS. rewrite bool_decide_eq_true_2 in HS by done. destruct (log_ok_idx_last _ _ Hlog) as (e&He&_). by rewrite He in HS. }
  exists L, res. split; [done|]. pose proof (Start_keeps_tti _ _ _ _ Hlog Htti HS) as Htti'.
  apply Start_spec in HS as ([? ? Hd]&Hst'&HT'&_&_&Hla&Hn&Hmi&[[]|(_&Hl&_)]); [done|].
  split; [|done]. split; unfold killed in *; rewrite ?Hd, ?Hn, ?Hmi, ?Hnx, ?Hmt, ?HT'; try done; try congruence.
  - rewrite Hl. by apply log_ok_snoc.
  - intros k x Hk0 Hx. destruct (decide (k < len (log (rf nd)))) as [|Hge]; [rewrite Hl, idx_app_l in Hx by done; eauto|].
    apply idx_elem_of in Hx as Hin. pose proof (idx_Some_range _ _ _ Hx) as Hkr. rewrite Hl, len_app in Hkr. unfold len at 2 in Hkr. simpl in Hkr.
    rewrite Hl, idx_app_r in Hx by lia. replace (k - len (log (rf nd))) with 0 in Hx by lia. simpl in Hx. by injection Hx as <-.
  - unfold len. rewrite length_replicate. done.
  - unfold len. rewrite length_replicate. done.
  - intros k next Hnext%idx_elem_of%elem_of_replicate. destruct Hnext as [-> _]. rewrite Hl, len_app. unfold len. simpl. unfold len in Hne. lia.
Qed.

(** A log that matched the leader's before the command matches it after. *)
Lemma behind_new T cmd l L F : log L = l ++ [mkLogEntry T (Some cmd)] → currentTerm L = T → currentTerm F ≤ T →
  (∃ T', T' < T ∧ log_ok T' (log F)) →
  (∀ k e e', l@[k] = Some e → (log F)@[k] = Some e' → le_Term e = le_Term e' → take (Z.to_nat (k + 1)) (log F) = take (Z.to_nat (k + 1)) l) →
  behind L F.
Proof.
  intros HL HT HF (T'&HT'&Hlog) Hm. split; [lia|by eapply log_ok_first|]. rewrite HL. intros k e e' He He' Ht.
  destruct (decide (k < len l)) as [Hlt|Hge].
  - rewrite idx_app_l in He by done. rewrite (Hm _ _ _ He He' Ht). pose proof (idx_Some_range _ _ _ He). symmetry. apply take_app_le. unfold len in *. lia.
  - exfalso. pose proof (idx_Some_range _ _ _ He) as Hr. rewrite len_app in Hr. unfold len at 2 in Hr. simpl in Hr.
    rewrite idx_app_r in He by lia. replace (k - len l) with 0 in He by lia. simpl in He. injection He as <-. simpl in Ht.
    pose proof (lo_bound _ _ Hlog) as Hb. rewrite Forall_forall in Hb. specialize (Hb (le_Term e')).
    apply idx_elem_of in He'. specialize (Hb ltac:(by apply list_elem_of_fmap_2)). simpl in Hb. lia.
Qed.

(** One round of heartbeats commits the log, and the leader delivers it. *)
Lemma commit_and_deliver n c i ni Q e : majority n i Q → nodes c !! i = Some ni → leading n i (rf ni) → heartbeats ni ≠ 0%nat →
  (∀ j, j ∈ Q → (nextIndex (rf ni))@[Z.of_nat j] = Some (len (log (rf ni))) ∧ ∃ nj, nodes c !! j = Some nj ∧ synced (rf ni) (rf nj)) →
  (i < n)%nat → 0 ≤ lastApplied (rf ni) < len (log (rf ni)) - 1 → last (log (rf ni)) = Some e →
  ∃ ls c' ni', run c ls = Some c' ∧ nodes c' !! i = Some ni' ∧ state (rf ni') = LEADER ∧ log (rf ni') = log (rf ni) ∧
    (∀ j, j ∈ Q → ∃ nj, nodes c' !! j = Some nj ∧ log (rf nj) = log (rf ni)) ∧
    last (applyCh ni') = Some (command_msg (le_Command e) (len (log (rf ni)) - 1)).
Proof.
  intros [HQn HQi HQp HQs HQm] Hi HL Hh HQ Hin Hla He. pose proof HL as [Hst Hal Hp Hm _ _ _ _ _ _].
  pose proof (beat c i ni Hi Hst Hal Hh) as E1. assert (Hil : (i < length (nodes c))%nat) by (by eapply lookup_lt_Some).
  assert (Hn : 1 ≤ Z.of_nat n / 2).
  { destruct Q as [|j Q]; [done|]. pose proof (HQp j ltac:(left)). apply not_elem_of_cons in HQi as [? _]. apply Z.div_le_lower_bound; lia. }
  destruct (confirm_all n i (length (rounds ni)) Q HQn HQi (set_node i (after_beat ni) c) (after_beat ni) (mkRound 1 false))
    as (ls2&c2&ni2&rd2&E2&Hi2&HL2&Hled2&Hct&Hc2&HQ2&_); [by apply list_lookup_insert_eq|done|by apply list_lookup_middle|done| |].
  { intros j Hj. destruct (HQ j Hj) as (Hnx&nj&Hnj&Hsy). split; [by apply HQp|]. split; [|split; [done|]].
    - simpl. apply elem_of_app. right. apply list_elem_of_fmap. exists (Z.of_nat j). split; [done|]. apply list_elem_of_filter.
      rewrite elem_of_seqZ. specialize (HQp j Hj). assert (i ≠ j) by congruence. lia.
    - exists nj. split; [simpl; rewrite list_lookup_insert_ne by congruence; done|done]. }
  unfold counted in Hc2. simpl in Hct. destruct (hb_done rd2); [|lia]. destruct Hled2 as [_ _ Hlog2 Hla2]. simpl in Hlog2, Hla2. rewrite Hlog2 in Hc2.
  destruct (deliver_all i (Z.to_nat (len (log (rf ni)) - 2 - lastApplied (rf ni))) c2 ni2 Hi2) as (ls3&c3&ni3&e3&E3&Hn3&Hst3&Hlog3&He3&Hlast).
  { apply HL2. } { lia. } { lia. } { congruence. }
  exists ([Beat i] ++ ls2 ++ ls3), c3, ni3. split; [by eapply run_trans, run_trans|]. rewrite Hlog2 in *. assert (e3 = e) as -> by congruence.
  split; [rewrite Hn3; apply list_lookup_insert_eq; by eapply lookup_lt_Some|]. split; [rewrite Hst3; apply HL2|]. split; [done|]. split; [|done].
  intros j Hj. destruct (HQ2 j Hj) as (nj&Hnj&_&_&Hl). exists nj. split; [rewrite Hn3, list_lookup_insert_ne by congruence; done|]. congruence.
Qed.

(** C4: after an execution in which no term has two winners and no vote request of a
    later term was delivered to a leader, a live peer that is not a leader and whose
    [lastApplied] is an index of its log, together with any other peers that make a
    majority with it and whose logs are not ahead of its own, can be scheduled, whatever
    is in flight, so that it becomes leader, appends a new command to its log, every
    peer of the majority has that log, and it delivers the command. *)
Theorem majority_makes_progress n r ls c i nd Q cmd :
  run (start n r) ls = Some c → one_winner_per_term c → no_usurper (start n r) ls = true →
  nodes c !! i = Some nd → state (rf nd) ≠ LEADER → killed (rf nd) = false → lastApplied (rf nd) < len (log (rf nd)) →
  majority n i Q → (∀ j nj, j ∈ Q → nodes c !! j = Some nj → ahead (rf nd) (rf nj)) →
  ∃ ls' c' nd' T, run c ls' = Some c' ∧ nodes c' !! i = Some nd' ∧ state (rf nd') = LEADER ∧
    log (rf nd') = log (rf nd) ++ [mkLogEntry T (Some cmd)] ∧
    (∀ j, j ∈ Q → ∃ nj, nodes c' !! j = Some nj ∧ log (rf nj) = log (rf nd')) ∧
    last (applyCh nd') = Some (command_msg (Some cmd) (len (log (rf nd)))).
Proof.
  intros E H1 Hus Hi Hst Hal Hla HQ Hah. assert (Hr : reachable n r c) by (by exists ls). pose proof HQ as [HQn HQi HQp HQs HQm].
  destruct (election_wins n r c i nd Q Hr Hi Hst HQ Hah) as (ls1&c1&nd1&E1&Hi1&Hel&Hk1&HQ1). pose proof (reachable_run _ _ _ _ _ Hr E1) as Hr1.
  pose proof (wf_reachable _ _ _ Hr1) as Hwf1. destruct (wf_id _ _ Hwf1 i nd1 Hi1) as [Hme1 Hp1].
  assert (Hnd1 : ∀ j, j ∈ Q → ∃ nj, nodes c !! j = Some nj).
  { intros j Hj. apply lookup_lt_is_Some_2. rewrite (wf_len _ _ (wf_reachable _ _ _ Hr)). by apply HQp. }
  destruct (elected_leads n i nd1 (currentTerm (rf nd1)) cmd) as (L&res&HS&HL&HlogL&HTL&HlaL); [done|by unfold killed; rewrite (kp_dead _ _ Hk1)|done..| | | | |].
  { by apply (wf_log _ _ Hwf1 i). }
  { destruct (term_pos_reachable _ _ _ _ _ Hr1 Hi1) as [_ Hpos]. specialize (Hpos ltac:(by rewrite (et_state _ _ Hel))). lia. }
  { rewrite (kp_log _ _ Hk1). intros k e. by apply (log_pos n r ls c i nd). }
  { rewrite (kp_log _ _ Hk1), (kp_index _ _ Hk1). by eapply (ix_nodes _ _ (run_indexed n r ls c E Hus H1)). }
  assert (E2 : run c1 [ClientStart i cmd] = Some (set_node i (set_rf L nd1) c1)) by (cbn [run exec]; rewrite Hi1; cbn [mbind option_bind]; by rewrite HS).
  destruct (converge_all n i Q HQn HQi (set_node i (set_rf L nd1) c1) (set_rf L nd1)) as (ls3&c3&nd3&E3&Hi3&HL3&Hled3&HQ3&_&_).
  { apply list_lookup_insert_eq. by eapply lookup_lt_Some. }
  { done. }
  { apply Hel. }
  { intros j Hj. split; [by apply HQp|]. destruct (Hnd1 j Hj) as [nj Hnj]. destruct (HQ1 j nj Hj Hnj) as (HTj&nj'&Hnj'&Hlogj&HTj').
    exists nj'. split; [simpl; rewrite list_lookup_insert_ne by congruence; done|]. eapply (behind_new _ cmd (log (rf nd)) L (rf nj')).
    - by rewrite <-(kp_log _ _ Hk1).
    - done.
    - lia.
    - exists (currentTerm (rf nj)). split; [lia|]. rewrite Hlogj. by eapply (wf_log _ _ (wf_reachable _ _ _ Hr)).
    - rewrite Hlogj. intros k e e' He He' Ht. symmetry. by eapply (logs_match n r ls c i j). }
  destruct Hled3 as [[Hh3 _] _ Hlog3 Hla3]. simpl in Hh3, Hlog3, Hla3. cbn [rf set_rf] in HQ3. rewrite <-Hlog3 in HQ3. rewrite HlogL, (kp_log _ _ Hk1) in Hlog3.
  assert (Hlen : len (log (rf nd3)) = len (log (rf nd)) + 1) by (rewrite Hlog3, len_app; done).
  destruct (applied_reachable n r c i nd Hr Hi) as [Hcount _]. pose proof (len_nonneg (applyCh nd)). pose proof (kp_applied _ _ Hk1) as Hka.
  destruct (commit_and_deliver n c3 i nd3 Q (mkLogEntry (currentTerm (rf nd1)) (Some cmd))) as (ls4&c4&nd4&E4&Hi4&Hst4&Hlog4&HQ4&Hlast); [done..| | | | | |].
  { rewrite Hh3. apply Hel. }
  { intros j Hj. by apply HQ3. }
  { by eapply lookup_node, Hi; apply (wf_reachable n r). }
  { lia. }
  { by rewrite Hlog3, last_snoc. }
  exists (ls1 ++ [ClientStart i cmd] ++ ls3 ++ ls4), c4, nd4, (currentTerm (rf nd1)). split; [by eapply run_trans, run_trans, run_trans|].
  split; [done|]. split; [done|]. split; [congruence|]. split; [by setoid_rewrite Hlog4|]. rewrite Hlast. do 2 f_equal. lia.
Qed.
End Progress.

(** ** A concrete cluster *)

(** After [replicated] the leader 0 has sent two commands to peer 1, which is then
    elected by the other two. *)
Lemma replicated_majority : majority 3 1 [0%nat; 2%nat].
Proof.
  split; [apply (bool_decide_unpack _); vm_compute; exact I..| |done|by vm_compute].
  intros j. rewrite !elem_of_cons, elem_of_nil. intros [->|[->|[]]]; lia.
Qed.

Lemma majority_makes_progress_witness :
  ∃ ls' c' nd' T, run (after replicated) ls' = Some c' ∧ nodes c' !! 1%nat = Some nd' ∧ state (rf nd') = LEADER ∧
    log (rf nd') = [mkLogEntry 0 None; mkLogEntry 1 (Some 10%nat); mkLogEntry 1 (Some 20%nat)] ++ [mkLogEntry T (Some 30%nat)] ∧
    (∀ j, j ∈ [0%nat; 2%nat] → ∃ nj, nodes c' !! j = Some nj ∧ log (rf nj) = log (rf nd')) ∧
    last (applyCh nd') = Some (command_msg (Some 30%nat) 3).
Proof.
  apply (majority_makes_progress 3 zero_rand replicated (after replicated) 1 (peer_after 1) [0%nat; 2%nat] 30%nat);
    [vm_compute; reflexivity|apply one_winner_NoDup, (bool_decide_unpack _); vm_compute; exact I|vm_compute; reflexivity..| | | |apply replicated_majority|].
  - by vm_compute.
  - vm_compute. reflexivity.
  - vm_compute. reflexivity.
  - intros j nj. rewrite !elem_of_cons, elem_of_nil. intros [->|[->|[]]] Hj;
      (assert (nj = peer_after 0 ∨ nj = peer_after 2) as [->| ->] by (vm_compute in Hj; injection Hj as <-; vm_compute; auto));
      eexists _, _; (split; [vm_compute; reflexivity|]); (split; [vm_compute; reflexivity|]); vm_compute; reflexivity.
Defined.
End RaftProgress.
