(* ===== verification/RaftTheorems.v ===== *)
(** * Properties of the Raft cluster

    The theorems of the Raft part, each with a witness on a run of
    [RaftScenarios] where it has hypotheses. *)

From S2P Require Import Prelude RaftServer RaftServerFacts RaftCluster RaftInvariants RaftScenarios.

Module RaftTheorems.
Import RaftServer RaftServerFacts RaftCluster RaftInvariants RaftScenarios.

(** Discharges [reachable 3 zero_rand (after ls)] by running [ls]. *)
Ltac by_run := apply after_reachable; vm_compute; reflexivity.

Section Theorems.
Context {Cmd : Type}.
Implicit Types c : @Cluster Cmd.

(** Induction on a run between two reachable clusters. *)
Lemma run_ind n r (P : Cluster → Cluster → Prop) :
  (∀ c, reachable n r c → P c c) →
  (∀ c l c1 c2, reachable n r c → step c l c1 → P c1 c2 → P c c2) →
  ∀ ls c c', reachable n r c → run c ls = Some c' → P c c'.
Proof.
  intros H0 HS ls. induction ls as [|l ls IH]; intros c c' Hr H; simpl in H.
  - simplify_eq. auto.
  - destruct (exec c l) as [c1|] eqn:E; simpl in H; [|done]. apply exec_step in E.
    eauto using reachable_step.
Qed.

(** C1: election safety, up to the one way the code breaks it: in every reachable
    cluster two peers that won an election of the same term are the same peer,
    unless some peer cleared its vote within that term. *)
Theorem election_safety_without_reset n r c T i j :
  reachable n r c → (T, i) ∈ leaders c → (T, j) ∈ leaders c →
  (∀ v, (T, v) ∉ resets c) → i = j.
Proof.
  intros Hr Hi Hj Hno.
  pose proof (votes_ok_reachable _ _ _ Hr) as Hvo. pose proof (unique_ok_reachable _ _ _ Hr) as Huq.
  destruct (vo_leaders _ _ Hvo _ _ Hi) as (Q1&HN1&HL1&HG1).
  destruct (vo_leaders _ _ Hvo _ _ Hj) as (Q2&HN2&HL2&HG2).
  assert (Hin : ∀ Q k, (∀ q, q ∈ Q → (T, q, Z.of_nat k) ∈ grants c) → Q ⊆ seq 0 n).
  { intros Q k HG q Hq. destruct (uq_node _ Huq _ _ _ (HG q Hq)) as (_&nd&Hnd&_).
    apply lookup_lt_Some in Hnd. rewrite (wf_len _ _ (wf_reachable _ _ _ Hr)) in Hnd.
    apply elem_of_seq. lia. }
  destruct (quorum_intersection n Q1 Q2) as (q&Hq1&Hq2); eauto.
  destruct (uq_vote _ Huq _ _ _ _ (HG1 q Hq1) (HG2 q Hq2)) as [|Hres]; [lia|].
  by destruct (Hno q).
Qed.

(** C2: an election is won only with the votes of a majority: the winner of term
    [T] was granted the vote of more than half of the peers in [T]. *)
Theorem winner_has_majority n r c T i :
  reachable n r c → (T, i) ∈ leaders c →
  ∃ Q, NoDup Q ∧ Z.of_nat n / 2 < len Q ∧
       ∀ q, q ∈ Q → (q < n)%nat ∧ (T, q, Z.of_nat i) ∈ grants c.
Proof.
  intros Hr Hi. destruct (vo_leaders _ _ (votes_ok_reachable _ _ _ Hr) _ _ Hi) as (Q&?&?&HG).
  exists Q. split_and!; [done..|]. intros q Hq. split; [|by auto].
  destruct (uq_node _ (unique_ok_reachable _ _ _ Hr) _ _ _ (HG q Hq)) as (_&nd&Hnd&_).
  apply lookup_lt_Some in Hnd. by rewrite (wf_len _ _ (wf_reachable _ _ _ Hr)) in Hnd.
Qed.

(** A peer grants its vote to at most one candidate per term, unless it
    cleared its vote in that term. *)
Theorem one_vote_per_term n r c T v a b :
  reachable n r c → (T, v, a) ∈ grants c → (T, v, b) ∈ grants c → a = b ∨ (T, v) ∈ resets c.
Proof. intros Hr. apply (uq_vote _ (unique_ok_reachable _ _ _ Hr)). Qed.

(** C5: in every reachable cluster every peer's log starts with the sentinel,
    has non-decreasing terms and no term later than the peer's current term;
    and every [AppendEntries] request in flight carries a non-negative index and
    sorted terms bounded by its own term. *)
Theorem logs_well_formed n r c :
  reachable n r c →
  (∀ i nd, nodes c !! i = Some nd → log_ok (currentTerm (rf nd)) (log (rf nd))) ∧
  (∀ src dst rd args, AEReq src dst rd args ∈ net c → ae_ok args).
Proof.
  intros Hwf%wf_reachable. split; [apply (wf_log _ _ Hwf)|].
  intros src dst rd args Hin. pose proof (wf_net _ _ Hwf) as Hn. unfold net_ok in Hn.
  rewrite Forall_forall in Hn. apply (Hn _ Hin).
Qed.

(** C6: in a reachable cluster no vote request, no [AppendEntries] request in
    flight, no election and no client call makes a peer panic. *)
Theorem handlers_never_panic n r c i nd :
  reachable n r c → nodes c !! i = Some nd →
  (∀ s args, is_Some (RequestVote s args (rf nd))) ∧
  (∀ s src dst rd args, AEReq src dst rd args ∈ net c → is_Some (AppendEntries s args (rf nd))) ∧
  (∀ s, is_Some (AttemptEletion s (rf nd))) ∧
  (∀ cmd, is_Some (Start cmd (rf nd))).
Proof.
  intros Hwf%wf_reachable Hi. pose proof (wf_log _ _ Hwf _ _ Hi) as Hl.
  destruct (log_ok_idx_last _ _ Hl) as (e&He&_). split_and!.
  - intros. eapply RequestVote_total, Hl.
  - intros s src dst rd args Hin. apply AppendEntries_total.
    pose proof (wf_net _ _ Hwf) as Hn. unfold net_ok in Hn. rewrite Forall_forall in Hn.
    apply ao_prev, (Hn _ Hin).
  - intros s. unfold AttemptEletion. simpl. rewrite He. simpl. eauto.
  - intros cmd. unfold Start. case_bool_decide; [|by eauto]. rewrite He. simpl. eauto.
Qed.

(** A peer's current term never decreases along an execution. *)
Theorem term_monotone n r c ls c' i nd nd' :
  reachable n r c → run c ls = Some c' →
  nodes c !! i = Some nd → nodes c' !! i = Some nd' →
  currentTerm (rf nd) ≤ currentTerm (rf nd').
Proof.
  intros Hr Hrun. revert nd. pattern c, c'. eapply (run_ind n r); [| |done..]; clear.
  - intros c _ nd Hi Hi'. simplify_eq. lia.
  - intros c l c1 c2 Hr Hs IH nd Hi Hi2.
    assert (is_Some (nodes c1 !! i)) as [nd1 Hi1].
    { apply lookup_lt_is_Some. rewrite (step_length _ _ _ Hs). by eapply lookup_lt_Some. }
    destruct (step_peer _ _ _ _ _ (wf_net _ _ (wf_reachable _ _ _ Hr)) Hs Hi1) as (nd0&?&Hp).
    apply peer_step_effect in Hp as (_&_&?&_). simplify_eq. specialize (IH _ Hi1 Hi2). lia.
Qed.

(** C7: a leader never overwrites or deletes entries of its log: whatever step
    is taken while a peer is leader, its old log is a prefix of its new one. *)
Theorem leader_append_only n r c l c' i nd nd' :
  reachable n r c → step c l c' →
  nodes c !! i = Some nd → nodes c' !! i = Some nd' → state (rf nd) = LEADER →
  log (rf nd) `prefix_of` log (rf nd').
Proof.
  intros Hr Hs Hi Hi' Hlead.
  destruct (step_peer _ _ _ _ _ (wf_net _ _ (wf_reachable _ _ _ Hr)) Hs Hi') as (nd0&?&Hp).
  simplify_eq. apply peer_step_effect in Hp as (_&_&_&[->|[(_&_&_&x&->)|(Hf&_)]]);
    [done|by apply prefix_app_r|congruence].
Qed.

(** Each peer delivers to its service the indices 1, 2, 3, ... in order and
    without gaps, all as valid commands, and [lastApplied] counts them. *)
Theorem applied_in_order n r c i nd :
  reachable n r c → nodes c !! i = Some nd →
  lastApplied (rf nd) = len (applyCh nd) ∧
  ∀ k m, applyCh nd !! k = Some m → CommandValid m = true ∧ CommandIndex m = Z.of_nat k + 1.
Proof. apply applied_reachable. Qed.

(** C9: a vote is granted exactly when the request is not from an earlier term,
    the voter is free to vote for the candidate in the request's term, and the
    candidate's log is at least as up to date as the voter's (later last term, or
    same last term and an index at least as large). *)
Theorem vote_granted_iff s args (f f' : Raft Cmd) rep e :
  last (log f) = Some e → RequestVote s args f = Some (f', rep) →
  rvr_VoteGranted rep = true ↔
  currentTerm f ≤ rva_Term args ∧
  (currentTerm f < rva_Term args ∨ votedFor f = -1 ∨ votedFor f = rva_CandidateId args) ∧
  (le_Term e < rva_LastLogTerm args ∨
   le_Term e = rva_LastLogTerm args ∧ len (log f) - 1 ≤ rva_LastLogIndex args).
Proof.
  intros He H. unfold RequestVote in H. rewrite ?idx_last in H. split.
  - intros Hg. pose proof H as HS. rewrite <- ?idx_last in HS. apply RequestVote_spec in HS.
    rewrite Hg in HS. destruct HS as (_&_&_&_&_&_&_&_&HT&HT'&_&Hfree&_&e'&He'&Hup).
    assert (e' = e) as -> by congruence. unfold upToDate in Hup.
    apply orb_true_iff in Hup. rewrite Z.gtb_ltb, Z.geb_leb in Hup.
    split_and!; [lia|destruct (decide (currentTerm f < rva_Term args)); [auto|right; apply Hfree; lia]|].
    destruct Hup; bools; auto with lia.
  - intros (HT&Hfree&Hup). rewrite Z.gtb_ltb, (proj2 (Z.ltb_ge _ _)) in H by lia.
    assert (Hu : upToDate args (len (log f) - 1) (le_Term e) = true).
    { unfold upToDate. rewrite Z.gtb_ltb, Z.geb_leb. apply orb_true_iff.
      destruct Hup as [?|[-> ?]]; [left; lia|right]. rewrite Z.eqb_refl. simpl. lia. }
    destruct (Z.ltb_spec (currentTerm f) (rva_Term args)); simpl in H.
    + rewrite He in H. simpl in H. rewrite Hu in H. by simplify_eq.
    + rewrite He in H. simpl in H. rewrite Hu in H.
      destruct Hfree as [?|[Hv|Hv]]; [lia|..]; rewrite Hv in H; simpl in H;
        rewrite ?Z.eqb_refl, ?andb_false_r in H; simpl in H; by simplify_eq.
Qed.

(** C8: [AppendEntries] returns on every non-negative index, and takes exactly
    one of its four branches: refuse a stale leader, step down, refuse a
    mismatch, or replace everything after the matching entry, take over the term
    index and move the commit index to the smaller of the leader's commit index
    and the new last index. *)
Theorem AppendEntries_refines s args (f : Raft Cmd) :
  0 ≤ aea_PrevLogIndex args →
  ∃ f' rep, AppendEntries s args f = Some (f', rep) ∧ AE_outcome s args f f' rep.
Proof.
  intros Hp. destruct (AppendEntries_total s args f Hp) as [[f' rep] H].
  exists f', rep. eauto using AppendEntries_outcome.
Qed.
End Theorems.

(** ** Behaviours of the code that break the guarantees of Raft *)

(** C11: two peers can win an election of the same term: the run [split_brain]
    ends with peers 1 and 2 both elected in term 2 and both leaders, with peer 0
    having cleared its vote in that term. *)
Theorem two_winners_in_one_term :
  ∃ c n1 n2, run boot split_brain = Some c ∧
    (2, 1%nat) ∈ leaders c ∧ (2, 2%nat) ∈ leaders c ∧ (2, 0%nat) ∈ resets c ∧
    nodes c !! 1%nat = Some n1 ∧ nodes c !! 2%nat = Some n2 ∧
    GetState (rf n1) = (2, true) ∧ GetState (rf n2) = (2, true).
Proof.
  eexists (after split_brain), _, _.
  split_and!; first [vm_compute; reflexivity|apply (bool_decide_unpack _); vm_compute; exact I].
Qed.

(** State machine safety fails: the run [split_commit] makes peers 1 and 2
    deliver different commands at index 1.  (Peer 1 steps down on the heartbeat
    of peer 2 and reports success without storing the entry, which peer 2 counts
    towards its majority.) *)
Theorem different_commands_applied :
  ∃ c n1 n2 m1 m2, run boot split_commit = Some c ∧
    nodes c !! 1%nat = Some n1 ∧ nodes c !! 2%nat = Some n2 ∧
    m1 ∈ applyCh n1 ∧ m2 ∈ applyCh n2 ∧
    CommandIndex m1 = CommandIndex m2 ∧ am_Command m1 ≠ am_Command m2.
Proof.
  eexists (after split_commit), _, _, (command_msg (Some 10%nat) 1), (command_msg (Some 20%nat) 1).
  split_and!; try (vm_compute; reflexivity); try done;
    (apply (list_elem_of_lookup_2 _ 0%nat); vm_compute; reflexivity).
Qed.

(** C13: a heartbeat goroutine can panic: the run [truncated] ends with peer 1
    having a heartbeat goroutine to run whose [nextIndex] points past its log,
    because two late heartbeats made it step down and removed the entry it had
    committed and delivered. *)
Theorem late_heartbeat_truncates :
  ∃ c nd, run boot truncated = Some c ∧ nodes c !! 1%nat = Some nd ∧
    len (log (rf nd)) ≤ commitIndex (rf nd) ∧ lastApplied (rf nd) = commitIndex (rf nd) ∧
    ∃ rd d, (rd, d) ∈ senders nd ∧ HeartBeat_args d (rf nd) = None.
Proof.
  eexists (after truncated), _.
  split_and!; try (vm_compute; reflexivity); [vm_compute; discriminate|].
  exists 2%nat, 0. split; [|vm_compute; reflexivity].
  apply (bool_decide_unpack _). vm_compute. exact I.
Qed.

(** ** Witnesses *)

(** Peer 0, the leader of [elect0], as a concrete node. *)
Definition elected : @Node nat := default (mkNode (Make 0 0 0 []) [] [] [] 0 0 []) (nodes (after elect0) !! 0%nat).

Lemma election_safety_without_reset_witness : (1, 0%nat) ∈ leaders (after elect0) ∧ 0%nat = 0%nat.
Proof.
  split; [apply (bool_decide_unpack _); vm_compute; exact I|].
  apply (election_safety_without_reset 3 zero_rand (after elect0) 1); [by_run|..];
    try (apply (bool_decide_unpack _); vm_compute; exact I).
  intros v. vm_compute. apply not_elem_of_nil.
Defined.

Lemma winner_has_majority_witness :
  ∃ Q, NoDup Q ∧ Z.of_nat 3 / 2 < len Q ∧
    ∀ q, q ∈ Q → (q < 3)%nat ∧ (1, q, Z.of_nat 0) ∈ grants (after elect0).
Proof.
  apply (winner_has_majority 3 zero_rand); [by_run|].
  apply (bool_decide_unpack _); vm_compute; exact I.
Defined.

Lemma one_vote_per_term_witness : (1 : Z) = 2 ∨ (2, 0%nat) ∈ resets (after split_brain).
Proof.
  apply (one_vote_per_term 3 zero_rand (after split_brain) 2 0); [by_run|..];
    apply (bool_decide_unpack _); vm_compute; exact I.
Defined.

Lemma logs_well_formed_witness :
  (∀ i nd, nodes (after split_commit) !! i = Some nd → log_ok (currentTerm (rf nd)) (log (rf nd))) ∧
  (∀ src dst rd args, AEReq src dst rd args ∈ net (after split_commit) → ae_ok args).
Proof. apply (logs_well_formed 3 zero_rand). by_run. Defined.

Lemma handlers_never_panic_witness :
  (∀ s args, is_Some (RequestVote s args (rf elected))) ∧
  (∀ s src dst rd args, AEReq src dst rd args ∈ net (after elect0) → is_Some (AppendEntries s args (rf elected))) ∧
  (∀ s, is_Some (AttemptEletion s (rf elected))) ∧
  (∀ cmd, is_Some (Start cmd (rf elected))).
Proof. apply (handlers_never_panic 3 zero_rand (after elect0) 0); [by_run|vm_compute; reflexivity]. Defined.

Lemma term_monotone_witness :
  ∃ n0 n0', nodes boot !! 0%nat = Some n0 ∧ nodes (after elect0) !! 0%nat = Some n0' ∧
    currentTerm (rf n0) ≤ currentTerm (rf n0').
Proof.
  eexists _, _. split_and!; [reflexivity|vm_compute; reflexivity|].
  apply (term_monotone 3 zero_rand boot elect0 (after elect0) 0); [by exists []|vm_compute; reflexivity..].
Defined.

Lemma leader_append_only_witness :
  log (rf elected) `prefix_of` log (rf (default elected (nodes (after (elect0 ++ [ClientStart 0 5%nat])) !! 0%nat))).
Proof.
  apply (leader_append_only 3 zero_rand (after elect0) (ClientStart 0 5%nat)
           (after (elect0 ++ [ClientStart 0 5%nat])) 0); [by_run| |vm_compute; reflexivity..].
  apply exec_step. vm_compute. reflexivity.
Defined.

Lemma applied_in_order_witness :
  ∃ nd, nodes (after split_commit) !! 1%nat = Some nd ∧ lastApplied (rf nd) = len (applyCh nd) ∧
  ∀ k m, applyCh nd !! k = Some m → CommandValid m = true ∧ CommandIndex m = Z.of_nat k + 1.
Proof.
  eexists. split; [vm_compute; reflexivity|].
  apply (applied_in_order 3 zero_rand (after split_commit) 1); [by_run|vm_compute; reflexivity].
Defined.

(** A fresh peer asked for its vote in term 1. *)
Definition vote_args : RequestVoteArgs := mkRequestVoteArgs 1 0 0 0.

Lemma vote_granted_iff_witness :
  ∃ f' rep, RequestVote 0 vote_args (Make 0 3 1 [] : Raft nat) = Some (f', rep) ∧
    rvr_VoteGranted rep = true.
Proof.
  eexists _, _. split; [vm_compute; reflexivity|].
  eapply (vote_granted_iff 0 vote_args (Make 0 3 1 [] : Raft nat) _ _ (mkLogEntry 0 None));
    [reflexivity|vm_compute; reflexivity|]. vm_compute. intuition congruence.
Defined.

(** An empty heartbeat of a leader of term 1. *)
Definition beat_args : AppendEntriesArgs nat := mkAppendEntriesArgs 1 0 0 0 [] 0 {[0 := 0]}.

Lemma AppendEntries_refines_witness :
  ∃ f' rep, AppendEntries 0 beat_args (Make 0 3 1 []) = Some (f', rep) ∧
            AE_outcome 0 beat_args (Make 0 3 1 []) f' rep.
Proof. apply AppendEntries_refines. vm_compute. discriminate. Defined.
End RaftTheorems.
