(* ===== verification/MrCoordinator.v ===== *)
(** * The MapReduce coordinator: [mr/coordinator.go]

    Tasks are shared objects: the task lists and the id maps of the coordinator,
    and the time-out goroutines, all hold pointers to the same task.  The model
    keeps the tasks in two stores and uses their positions as pointers.  A step
    is one RPC handler or one time-out; the handlers run under the mutex or are
    a single compare-and-swap, see [MrFineGrained] for the interleaving inside
    [HandleWorker].  [None] is a nil-pointer panic. *)

From stdpp Require Import pretty.
From S2P Require Import Prelude.

Module MrCoordinator.

(** ** Data *)

Definition NOTRUN : Z := 0.
Definition RUNNNING : Z := 1.
Definition FINISHED : Z := 2.

Record MapTask := mkMapTask { mt_TaskId : Z; mt_FileName : string; mt_Status : Z }.
Record ReduceTask := mkReduceTask { rt_TaskId : Z; rt_FileName : list string; rt_Status : Z }.

Definition set_mt_Status v t := mkMapTask (mt_TaskId t) (mt_FileName t) v.
Definition set_rt_Status v t := mkReduceTask (rt_TaskId t) (rt_FileName t) v.

(** A goroutine that will time out a task. *)
Inductive Timer := MapTimer (p : nat) | ReduceTimer (p : nat).

Record Coordinator := mkCoordinator {
  mheap : list MapTask;             (* the map tasks, by pointer *)
  rheap : list ReduceTask;          (* the reduce tasks, by pointer *)
  MapTaskMap : gmap Z nat;
  ReduceTaskMap : gmap Z nat;
  ActiveMapTasks : list nat;
  ActiveReduceTasks : list nat;
  ReduceN : Z;
  timers : list Timer
}.

Definition set_mheap v c := mkCoordinator v (rheap c) (MapTaskMap c) (ReduceTaskMap c) (ActiveMapTasks c) (ActiveReduceTasks c) (ReduceN c) (timers c).
Definition set_rheap v c := mkCoordinator (mheap c) v (MapTaskMap c) (ReduceTaskMap c) (ActiveMapTasks c) (ActiveReduceTasks c) (ReduceN c) (timers c).
Definition set_timers v c := mkCoordinator (mheap c) (rheap c) (MapTaskMap c) (ReduceTaskMap c) (ActiveMapTasks c) (ActiveReduceTasks c) (ReduceN c) v.

(** The RPC messages of [mr/rpc.go]. *)
Record CoordinatorReply := mkCoordinatorReply {
  cr_FileName : list string; cr_TaskType : string; cr_TaskId : Z; cr_ReduceN : Z
}.
Record CoordinatorFinishArgs := mkCoordinatorFinishArgs { cf_Id : Z; cf_TaskType : string }.

Definition zero_reply : CoordinatorReply := mkCoordinatorReply [] "" 0 0.

(** ** Operations *)

(** First task of the list that is not running; [None] is the nil result. *)
Definition getMapTask (heap : list MapTask) (active : list nat) : option nat :=
  snd <$> list_find (λ p, mt_Status <$> heap !! p = Some NOTRUN) active.

Definition mapFinished (heap : list MapTask) (active : list nat) : bool :=
  bool_decide (Forall (λ p, mt_Status <$> heap !! p = Some FINISHED) active).

Definition getReduceTask (mh : list MapTask) (rh : list ReduceTask) (amap ared : list nat) : option nat :=
  if mapFinished mh amap then
    snd <$> list_find (λ p, rt_Status <$> rh !! p = Some NOTRUN) ared
  else None.

(** [atomic.CompareAndSwapInt32] on the status of a task. *)
Definition cas_map (p : nat) (old new : Z) (c : Coordinator) : option Coordinator :=
  t ← mheap c !! p;
  Some (if mt_Status t =? old then set_mheap (<[p := set_mt_Status new t]> (mheap c)) c else c).
Definition cas_reduce (p : nat) (old new : Z) (c : Coordinator) : option Coordinator :=
  t ← rheap c !! p;
  Some (if rt_Status t =? old then set_rheap (<[p := set_rt_Status new t]> (rheap c)) c else c).

Definition HandleWorker (c : Coordinator) : option (Coordinator * CoordinatorReply) :=
  match getMapTask (mheap c) (ActiveMapTasks c) with
  | Some p =>
      t ← mheap c !! p;
      Some (set_timers (timers c ++ [MapTimer p])
              (set_mheap (<[p := set_mt_Status RUNNNING t]> (mheap c)) c),
            mkCoordinatorReply [mt_FileName t] "MAP" (mt_TaskId t) (ReduceN c))
  | None =>
      match getReduceTask (mheap c) (rheap c) (ActiveMapTasks c) (ActiveReduceTasks c) with
      | Some _ =>
          (* the code looks for the task a second time *)
          p ← getReduceTask (mheap c) (rheap c) (ActiveMapTasks c) (ActiveReduceTasks c);
          t ← rheap c !! p;
          Some (set_timers (timers c ++ [ReduceTimer p])
                  (set_rheap (<[p := set_rt_Status RUNNNING t]> (rheap c)) c),
                mkCoordinatorReply (rt_FileName t) "REDUCE" (rt_TaskId t) (ReduceN c))
      | None => Some (c, zero_reply)
      end
  end.

Definition HandleFinish (args : CoordinatorFinishArgs) (c : Coordinator) : option Coordinator :=
  if String.eqb (cf_TaskType args) "MAP" then
    p ← MapTaskMap c !! cf_Id args; cas_map p RUNNNING FINISHED c
  else if String.eqb (cf_TaskType args) "REDUCE" then
    p ← ReduceTaskMap c !! cf_Id args; cas_reduce p RUNNNING FINISHED c
  else Some c.

(** The body of time-out goroutine [k] after its ten seconds. *)
Definition timeout (k : nat) (c : Coordinator) : option Coordinator :=
  tm ← timers c !! k;
  let c := set_timers (delete k (timers c)) c in
  match tm with
  | MapTimer p => cas_map p RUNNNING NOTRUN c
  | ReduceTimer p => cas_reduce p RUNNNING NOTRUN c
  end.

Definition Done (c : Coordinator) : bool :=
  bool_decide (Forall (λ p, rt_Status <$> rheap c !! p = Some FINISHED) (ActiveReduceTasks c)).

(** The example RPC handler. *)
Definition Example_handler (x : Z) : Z := x + 1.

(** [fmt.Sprintf("mr-%d-%d", m, r)]. *)
Definition mr_file (m r : Z) : string := "mr-" +:+ pretty m +:+ "-" +:+ pretty r.

Definition MakeCoordinator (files : list string) (nReduce : Z) : Coordinator :=
  let mtasks := imap (λ i f, mkMapTask (Z.of_nat i + 1) f NOTRUN) files in
  let rtasks := (λ i : nat, mkReduceTask (Z.of_nat i + 1)
                  ((λ j : nat, mr_file (Z.of_nat j + 1) (Z.of_nat i + 1)) <$> seq 0 (length files))
                  NOTRUN) <$> seq 0 (Z.to_nat nReduce) in
  mkCoordinator mtasks rtasks
    (list_to_map ((λ i : nat, (Z.of_nat i + 1, i)) <$> seq 0 (length files)))
    (list_to_map ((λ i : nat, (Z.of_nat i + 1, i)) <$> seq 0 (Z.to_nat nReduce)))
    (seq 0 (length files)) (seq 0 (Z.to_nat nReduce)) nReduce [].

(** One turn of the loop of [Worker] ([mr/worker.go]) as the coordinator sees it,
    when the task it is given succeeds: ask, work, report. *)
Definition worker_round (c : Coordinator) : option Coordinator :=
  '(c, reply) ← HandleWorker c;
  if String.eqb (cr_TaskType reply) "MAP" then
    HandleFinish (mkCoordinatorFinishArgs (cr_TaskId reply) (cr_TaskType reply)) c
  else if String.eqb (cr_TaskType reply) "REDUCE" then
    HandleFinish (mkCoordinatorFinishArgs (cr_TaskId reply) (cr_TaskType reply)) c
  else Some c.

Fixpoint worker_rounds (n : nat) (c : Coordinator) : option Coordinator :=
  match n with O => Some c | S n => c ← worker_round c; worker_rounds n c end.

(** All the time-outs that are pending run, in the order they were started. *)
Fixpoint fire_all (n : nat) (c : Coordinator) : option Coordinator :=
  match n with O => Some c | S n => c ← timeout 0 c; fire_all n c end.

(** ** Executions *)

Inductive Label := Assign | Finish (args : CoordinatorFinishArgs) | Timeout (k : nat).

Definition exec (c : Coordinator) (l : Label) : option Coordinator :=
  match l with
  | Assign => fst <$> HandleWorker c
  | Finish args => HandleFinish args c
  | Timeout k => timeout k c
  end.

Fixpoint run (c : Coordinator) (ls : list Label) : option Coordinator :=
  match ls with [] => Some c | l :: ls => c' ← exec c l; run c' ls end.

Definition reachable (files : list string) (nReduce : Z) (c : Coordinator) : Prop :=
  ∃ ls, run (MakeCoordinator files nReduce) ls = Some c.
End MrCoordinator.
