(* ===== verification/MrCoordinatorFacts.v ===== *)
(** * Facts about the coordinator

    The invariant of every reachable coordinator: the shape of the job, the
    statuses and their pending time-outs, and its preservation by every step. *)

From stdpp Require Import pretty.
From S2P Require Import Prelude MrCoordinator.

Module MrCoordinatorFacts.
Import MrCoordinator.

#[export] Instance Timer_eq_dec : EqDecision Timer.
Proof. solve_decision. Defined.

(** Closes contradictions between statuses. *)
Ltac status := unfold NOTRUN, RUNNNING, FINISHED in *; (lia || congruence).

(** ** The invariant *)

Definition pending (tm : Timer) (c : Coordinator) : nat := length (filter (λ t, t = tm) (timers c)).

(** The time-outs that may be pending for a task, by its status. *)
Definition timers_for (status : Z) (k : nat) : Prop :=
  (status = NOTRUN ∧ k = 0%nat) ∨ (status = RUNNNING ∧ k = 1%nat) ∨ (status = FINISHED ∧ (k ≤ 1)%nat).

(** Everything but the statuses and the timers is as [MakeCoordinator] left it. *)
Record static (files : list string) (nReduce : Z) (c : Coordinator) : Prop := {
  st_maps : (λ t, (mt_TaskId t, mt_FileName t)) <$> mheap c =
            (λ t, (mt_TaskId t, mt_FileName t)) <$> mheap (MakeCoordinator files nReduce);
  st_reduces : (λ t, (rt_TaskId t, rt_FileName t)) <$> rheap c =
               (λ t, (rt_TaskId t, rt_FileName t)) <$> rheap (MakeCoordinator files nReduce);
  st_rest : (MapTaskMap c, ReduceTaskMap c, ActiveMapTasks c, ActiveReduceTasks c, ReduceN c) =
            let m := MakeCoordinator files nReduce in
            (MapTaskMap m, ReduceTaskMap m, ActiveMapTasks m, ActiveReduceTasks m, ReduceN m)
}.

Definition maps_finished (c : Coordinator) : Prop :=
  ∀ p t, mheap c !! p = Some t → mt_Status t = FINISHED.

Record ok (files : list string) (nReduce : Z) (c : Coordinator) : Prop := {
  ok_static : static files nReduce c;
  ok_map : ∀ p t, mheap c !! p = Some t → timers_for (mt_Status t) (pending (MapTimer p) c);
  ok_reduce : ∀ p t, rheap c !! p = Some t → timers_for (rt_Status t) (pending (ReduceTimer p) c);
  ok_timers : ∀ tm, tm ∈ timers c →
    match tm with MapTimer p => is_Some (mheap c !! p) | ReduceTimer p => is_Some (rheap c !! p) end;
  ok_phases : ∀ p t, rheap c !! p = Some t → rt_Status t ≠ NOTRUN → maps_finished c
}.

Lemma list_find_Some_elem {A} (P : A → Prop) `{∀ x, Decision (P x)} l x :
  snd <$> list_find P l = Some x → x ∈ l ∧ P x.
Proof.
  intros ([i y]&(?&?&_)%list_find_Some&->)%fmap_Some. eauto using list_elem_of_lookup_2.
Qed.

Lemma list_find_None_elem {A} (P : A → Prop) `{∀ x, Decision (P x)} l :
  snd <$> list_find P l = None → ∀ x, x ∈ l → ¬ P x.
Proof.
  intros Hf x Hx Hp. destruct (list_find_elem_of P l x Hx Hp) as [y Hy]. by rewrite Hy in Hf.
Qed.

Lemma getMapTask_Some mh active p :
  getMapTask mh active = Some p → p ∈ active ∧ ∃ t, mh !! p = Some t ∧ mt_Status t = NOTRUN.
Proof. intros [? (t&?&Ht)%fmap_Some]%list_find_Some_elem. symmetry in Ht. eauto. Qed.

Lemma getReduceTask_Some mh rh amap ared p :
  getReduceTask mh rh amap ared = Some p →
  mapFinished mh amap = true ∧ p ∈ ared ∧ ∃ t, rh !! p = Some t ∧ rt_Status t = NOTRUN.
Proof.
  unfold getReduceTask. destruct (mapFinished mh amap); [|done].
  intros [? (t&?&Ht)%fmap_Some]%list_find_Some_elem. symmetry in Ht. eauto.
Qed.

Section Job.
Context (files : list string) (nReduce : Z).

Lemma static_active c :
  static files nReduce c →
  ActiveMapTasks c = seq 0 (length (mheap c)) ∧ ActiveReduceTasks c = seq 0 (length (rheap c)) ∧
  length (mheap c) = length files ∧ length (rheap c) = Z.to_nat nReduce.
Proof.
  intros [Hm Hr Hrest]. simplify_eq. simpl in *.
  apply (f_equal length) in Hm, Hr. rewrite !length_fmap, length_imap in Hm.
  rewrite !length_fmap, length_seq in Hr. rewrite Hm, Hr. by simplify_eq.
Qed.

(** The scans of the code cover every task. *)
Lemma mapFinished_spec c :
  static files nReduce c → mapFinished (mheap c) (ActiveMapTasks c) = true ↔ maps_finished c.
Proof.
  intros (->&_)%static_active. unfold mapFinished, maps_finished.
  rewrite bool_decide_eq_true, Forall_forall. split.
  - intros H p t Hp. specialize (H p (proj2 (elem_of_positions _ _) (mk_is_Some _ _ Hp))).
    rewrite Hp in H. simpl in H. congruence.
  - intros H p [t Ht]%elem_of_positions. rewrite Ht. simpl. f_equal. eauto.
Qed.

Lemma Done_spec c :
  static files nReduce c → Done c = true ↔ ∀ p t, rheap c !! p = Some t → rt_Status t = FINISHED.
Proof.
  intros (_&Ha&_)%static_active. unfold Done. rewrite Ha, bool_decide_eq_true, Forall_forall. split.
  - intros H p t Hp. specialize (H p (proj2 (elem_of_positions _ _) (mk_is_Some _ _ Hp))).
    rewrite Hp in H. simpl in H. congruence.
  - intros H p [t Ht]%elem_of_positions. rewrite Ht. simpl. f_equal. eauto.
Qed.

(** A status change that respects the life cycle of a task keeps the static part. *)
Lemma static_set_map c p t v :
  static files nReduce c → mheap c !! p = Some t →
  static files nReduce (set_mheap (<[p := set_mt_Status v t]> (mheap c)) c).
Proof.
  intros [Hm Hr Hrest] Hp. split; [|exact Hr|exact Hrest]. rewrite <- Hm.
  cbn [mheap set_mheap]. rewrite list_fmap_insert. apply list_insert_id.
  by rewrite list_lookup_fmap, Hp.
Qed.

Lemma static_set_reduce c p t v :
  static files nReduce c → rheap c !! p = Some t →
  static files nReduce (set_rheap (<[p := set_rt_Status v t]> (rheap c)) c).
Proof.
  intros [Hm Hr Hrest] Hp. split; [exact Hm| |exact Hrest]. rewrite <- Hr.
  cbn [rheap set_rheap]. rewrite list_fmap_insert. apply list_insert_id.
  by rewrite list_lookup_fmap, Hp.
Qed.

Lemma static_set_timers c v : static files nReduce c → static files nReduce (set_timers v c).
Proof. by intros []. Qed.

(** ** Preservation *)

Lemma pending_snoc tm tm' c : 
  pending tm (set_timers (timers c ++ [tm']) c) = ((if decide (tm' = tm) then 1 else 0) + pending tm c)%nat.
Proof.
  unfold pending. simpl. rewrite filter_app, length_app, filter_cons, filter_nil.
  case_decide; simpl; lia.
Qed.

Lemma pending_delete tm tm' k c :
  timers c !! k = Some tm' →
  pending tm c = ((if decide (tm' = tm) then 1 else 0) + pending tm (set_timers (delete k (timers c)) c))%nat.
Proof.
  intros Hk. unfold pending. simpl. rewrite (delete_Permutation _ _ _ Hk) at 1.
  rewrite filter_cons. case_decide; simpl; lia.
Qed.

Lemma ok_MakeCoordinator : ok files nReduce (MakeCoordinator files nReduce).
Proof.
  split; simpl; try done.
  - intros p t Hp. rewrite list_lookup_imap in Hp. apply fmap_Some in Hp as (f&_&->).
    left. split; done.
  - intros p t Hp. rewrite list_lookup_fmap in Hp. apply fmap_Some in Hp as (f&_&->).
    left. split; done.
  - intros tm []%not_elem_of_nil.
  - intros p t Hp Hne. rewrite list_lookup_fmap in Hp. apply fmap_Some in Hp as (f&_&->). done.
Qed.

(** A change of status of one task, with the timers adjusted to it, keeps the
    invariant. *)
Lemma ok_update_map c p t v tms :
  ok files nReduce c → mheap c !! p = Some t →
  let c' := set_timers tms (set_mheap (<[p := set_mt_Status v t]> (mheap c)) c) in
  timers_for v (pending (MapTimer p) c') →
  (∀ tm, tm ≠ MapTimer p → pending tm c' = pending tm c) →
  (∀ tm, tm ∈ tms → tm ∈ timers c ∨ tm = MapTimer p) →
  (mt_Status t = FINISHED → v = FINISHED) →
  ok files nReduce c'.
Proof.
  intros [Hst Hm Hr Htm Hph] Hp c' Hv Hpend Htms Hfin. split.
  - by apply static_set_timers, static_set_map.
  - intros q u Hq. apply list_lookup_insert_Some in Hq as [(->&<-&_)|[Hne Hq]]; [done|].
    rewrite Hpend by congruence. by apply Hm.
  - intros q u Hq. rewrite Hpend by congruence. by apply Hr.
  - intros tm Hin.
    assert (Hs : match tm with MapTimer q => is_Some (mheap c !! q) | ReduceTimer q => is_Some (rheap c !! q) end).
    { destruct (Htms tm Hin) as [Hin'| ->]; [by apply Htm|eauto]. }
    destruct tm; [|done]. simpl. rewrite lookup_lt_is_Some, length_insert. by apply lookup_lt_is_Some.
  - intros q u Hq Hne x y Hx. apply list_lookup_insert_Some in Hx as [(->&<-&_)|[_ Hx]].
    + simpl. apply Hfin. exact (Hph q u Hq Hne _ _ Hp).
    + exact (Hph q u Hq Hne _ _ Hx).
Qed.

Lemma ok_update_reduce c p t v tms :
  ok files nReduce c → rheap c !! p = Some t →
  let c' := set_timers tms (set_rheap (<[p := set_rt_Status v t]> (rheap c)) c) in
  timers_for v (pending (ReduceTimer p) c') →
  (∀ tm, tm ≠ ReduceTimer p → pending tm c' = pending tm c) →
  (∀ tm, tm ∈ tms → tm ∈ timers c ∨ tm = ReduceTimer p) →
  (v ≠ NOTRUN → rt_Status t = NOTRUN → maps_finished c) →
  ok files nReduce c'.
Proof.
  intros [Hst Hm Hr Htm Hph] Hp c' Hv Hpend Htms Hfin. split.
  - by apply static_set_timers, static_set_reduce.
  - intros q u Hq. rewrite Hpend by congruence. by apply Hm.
  - intros q u Hq. apply list_lookup_insert_Some in Hq as [(->&<-&_)|[Hne Hq]]; [done|].
    rewrite Hpend by congruence. by apply Hr.
  - intros tm Hin.
    assert (Hs : match tm with MapTimer q => is_Some (mheap c !! q) | ReduceTimer q => is_Some (rheap c !! q) end).
    { destruct (Htms tm Hin) as [Hin'| ->]; [by apply Htm|eauto]. }
    destruct tm; [done|]. simpl. rewrite lookup_lt_is_Some, length_insert. by apply lookup_lt_is_Some.
  - intros q u Hq Hne. apply list_lookup_insert_Some in Hq as [(->&<-&_)|[_ Hq]]; [|by apply (Hph q u)].
    destruct (decide (rt_Status t = NOTRUN)); [by apply Hfin|by apply (Hph q t)].
Qed.

(** Giving out an idle task. *)
Lemma ok_assign_map c p t :
  ok files nReduce c → mheap c !! p = Some t → mt_Status t = NOTRUN →
  ok files nReduce (set_timers (timers c ++ [MapTimer p]) (set_mheap (<[p := set_mt_Status RUNNNING t]> (mheap c)) c)).
Proof.
  intros Hok Hp Hs. apply ok_update_map; auto; [| |set_solver|status].
  - rewrite (pending_snoc _ _ (set_mheap _ c)), decide_True by done.
    destruct (ok_map _ _ _ Hok _ _ Hp) as [[? Hz]|[[? ?]|[? ?]]]; [|status..].
    right; left. split; [done|]. unfold pending in *. simpl. lia.
  - intros tm Hne. by rewrite (pending_snoc _ _ (set_mheap _ c)), decide_False by congruence.
Qed.

Lemma ok_assign_reduce c p t :
  ok files nReduce c → rheap c !! p = Some t → rt_Status t = NOTRUN → maps_finished c →
  ok files nReduce (set_timers (timers c ++ [ReduceTimer p]) (set_rheap (<[p := set_rt_Status RUNNNING t]> (rheap c)) c)).
Proof.
  intros Hok Hp Hs Hf. apply ok_update_reduce; auto; [| |set_solver].
  - rewrite (pending_snoc _ _ (set_rheap _ c)), decide_True by done.
    destruct (ok_reduce _ _ _ Hok _ _ Hp) as [[? Hz]|[[? ?]|[? ?]]]; [|status..].
    right; left. split; [done|]. unfold pending in *. simpl. lia.
  - intros tm Hne. by rewrite (pending_snoc _ _ (set_rheap _ c)), decide_False by congruence.
Qed.

Lemma ok_HandleWorker c c' reply :
  ok files nReduce c → HandleWorker c = Some (c', reply) → ok files nReduce c'.
Proof.
  intros Hok H. unfold HandleWorker in H.
  destruct (getMapTask _ _) as [p|] eqn:Eg; [|destruct (getReduceTask _ _ _ _) as [p|] eqn:Egr].
  - apply getMapTask_Some in Eg as (_&t&Hp&Hs). rewrite Hp in H. simpl in H. simplify_eq.
    by apply ok_assign_map.
  - apply getReduceTask_Some in Egr as (Hfin&_&t&Hp&Hs). cbn [mbind option_bind] in H.
    rewrite Hp in H. simpl in H. simplify_eq.
    apply ok_assign_reduce; [done..|]. by apply (mapFinished_spec c (ok_static _ _ _ Hok)).
  - by simplify_eq.
Qed.

Lemma ok_HandleFinish args c c' :
  ok files nReduce c → HandleFinish args c = Some c' → ok files nReduce c'.
Proof.
  intros Hok H. unfold HandleFinish, cas_map, cas_reduce in H.
  destruct (String.eqb _ "MAP"); [|destruct (String.eqb _ "REDUCE"); [|by simplify_eq]].
  - destruct (MapTaskMap c !! cf_Id args) as [p|]; simpl in H; [|done].
    destruct (mheap c !! p) as [t|] eqn:Hp; simpl in H; [|done].
    destruct (Z.eqb_spec (mt_Status t) RUNNNING) as [Hs|]; simplify_eq; [|done].
    destruct c as [mh rh mm rm am ar rn tms]. simpl in *.
    apply (ok_update_map _ p t FINISHED tms Hok Hp); auto; [|intros; status..].
    destruct (ok_map _ _ _ Hok _ _ Hp) as [[? Hz]|[[? Hz]|[? Hz]]]; [status| |status].
    right; right. split; [done|]. unfold pending in *. simpl in *. lia.
  - destruct (ReduceTaskMap c !! cf_Id args) as [p|]; simpl in H; [|done].
    destruct (rheap c !! p) as [t|] eqn:Hp; simpl in H; [|done].
    destruct (Z.eqb_spec (rt_Status t) RUNNNING) as [Hs|]; simplify_eq; [|done].
    destruct c as [mh rh mm rm am ar rn tms]. simpl in *.
    apply (ok_update_reduce _ p t FINISHED tms Hok Hp); auto.
    + destruct (ok_reduce _ _ _ Hok _ _ Hp) as [[? Hz]|[[? Hz]|[? Hz]]]; [status| |status].
      right; right. split; [done|]. unfold pending in *. simpl in *. lia.
    + status.
Qed.

Lemma ok_timeout k c c' : ok files nReduce c → timeout k c = Some c' → ok files nReduce c'.
Proof.
  intros Hok H. unfold timeout, cas_map, cas_reduce in H.
  destruct (timers c !! k) as [tm|] eqn:Hk; simpl in H; [|done].
  assert (Hsub : ∀ x, x ∈ delete k (timers c) → x ∈ timers c ∨ x = tm)
    by (intros x Hx; left; by eapply sublist_subseteq, Hx; apply sublist_delete).
  destruct tm as [p|p].
  - destruct (mheap c !! p) as [t|] eqn:Hp; simpl in H; [|done]. pose proof (ok_map _ _ _ Hok _ _ Hp) as Ht.
    rewrite (pending_delete _ _ _ _ Hk), decide_True in Ht by done.
    assert (Hoth : ∀ x, x ≠ MapTimer p → pending x (set_timers (delete k (timers c)) c) = pending x c)
      by (intros x Hx; by rewrite (pending_delete x _ _ _ Hk), decide_False by congruence).
    destruct (Z.eqb_spec (mt_Status t) RUNNNING) as [Hs|Hs]; simplify_eq.
    + apply (ok_update_map c p t NOTRUN); auto; [|status].
      destruct Ht as [[? Hz]|[[? Hz]|[? Hz]]]; [status| |status].
      left. split; [done|]. unfold pending in *. simpl in *. lia.
    + assert (mheap c = <[p := set_mt_Status (mt_Status t) t]> (mheap c)) as Hid
        by (symmetry; apply list_insert_id; by destruct t).
      replace (set_timers _ c) with
        (set_timers (delete k (timers c)) (set_mheap (<[p := set_mt_Status (mt_Status t) t]> (mheap c)) c))
        by (rewrite <- Hid; by destruct c).
      apply (ok_update_map c p t); auto. destruct Ht as [[? Hz]|[[? Hz]|[? Hz]]]; [status..|].
      right; right. split; [done|]. unfold pending in *. simpl in *. lia.
  - destruct (rheap c !! p) as [t|] eqn:Hp; simpl in H; [|done]. pose proof (ok_reduce _ _ _ Hok _ _ Hp) as Ht.
    rewrite (pending_delete _ _ _ _ Hk), decide_True in Ht by done.
    assert (Hoth : ∀ x, x ≠ ReduceTimer p → pending x (set_timers (delete k (timers c)) c) = pending x c)
      by (intros x Hx; by rewrite (pending_delete x _ _ _ Hk), decide_False by congruence).
    destruct (Z.eqb_spec (rt_Status t) RUNNNING) as [Hs|Hs]; simplify_eq.
    + apply (ok_update_reduce c p t NOTRUN); auto; [|done].
      destruct Ht as [[? Hz]|[[? Hz]|[? Hz]]]; [status| |status].
      left. split; [done|]. unfold pending in *. simpl in *. lia.
    + assert (rheap c = <[p := set_rt_Status (rt_Status t) t]> (rheap c)) as Hid
        by (symmetry; apply list_insert_id; by destruct t).
      replace (set_timers _ c) with
        (set_timers (delete k (timers c)) (set_rheap (<[p := set_rt_Status (rt_Status t) t]> (rheap c)) c))
        by (rewrite <- Hid; by destruct c).
      apply (ok_update_reduce c p t); auto; [|congruence]. destruct Ht as [[? Hz]|[[? Hz]|[? Hz]]]; [status..|].
      right; right. split; [done|]. unfold pending in *. simpl in *. lia.
Qed.

Lemma ok_exec c l c' : ok files nReduce c → exec c l = Some c' → ok files nReduce c'.
Proof.
  intros Hok. destruct l; simpl; eauto using ok_HandleFinish, ok_timeout.
  intros ([c1 r]&H&->)%fmap_Some. eauto using ok_HandleWorker.
Qed.

Lemma run_ok c ls c' : ok files nReduce c → run c ls = Some c' → ok files nReduce c'.
Proof.
  revert c. induction ls as [|l ls IH]; intros c Hok H; simpl in H; [by simplify_eq|].
  destruct (exec c l) as [c1|] eqn:E; simpl in H; [|done]. eauto using ok_exec.
Qed.

Lemma reachable_ok c : reachable files nReduce c → ok files nReduce c.
Proof. intros [ls H]. eauto using run_ok, ok_MakeCoordinator. Qed.

(** ** What [HandleWorker] does *)

Lemma getMapTask_None c p t :
  static files nReduce c → getMapTask (mheap c) (ActiveMapTasks c) = None →
  mheap c !! p = Some t → mt_Status t ≠ NOTRUN.
Proof.
  intros (->&_)%static_active Hg Hp Hs.
  apply (list_find_None_elem _ _ Hg p); [apply elem_of_positions; eauto|]. by rewrite Hp, <- Hs.
Qed.

Lemma getReduceTask_None c p t :
  static files nReduce c →
  getReduceTask (mheap c) (rheap c) (ActiveMapTasks c) (ActiveReduceTasks c) = None →
  maps_finished c → rheap c !! p = Some t → rt_Status t ≠ NOTRUN.
Proof.
  intros Hst Hg Hf%(mapFinished_spec _ Hst) Hp Hs. unfold getReduceTask in Hg. rewrite Hf in Hg.
  apply static_active in Hst as (_&Ha&_). rewrite Ha in Hg.
  apply (list_find_None_elem _ _ Hg p); [apply elem_of_positions; eauto|]. by rewrite Hp, <- Hs.
Qed.

Lemma HandleWorker_cases c :
  ok files nReduce c →
  ∃ c' reply, HandleWorker c = Some (c', reply) ∧
  ((∃ p t, mheap c !! p = Some t ∧ mt_Status t = NOTRUN ∧
      c' = set_timers (timers c ++ [MapTimer p]) (set_mheap (<[p := set_mt_Status RUNNNING t]> (mheap c)) c) ∧
      reply = mkCoordinatorReply [mt_FileName t] "MAP" (mt_TaskId t) (ReduceN c)) ∨
   (maps_finished c ∧ ∃ p t, rheap c !! p = Some t ∧ rt_Status t = NOTRUN ∧
      c' = set_timers (timers c ++ [ReduceTimer p]) (set_rheap (<[p := set_rt_Status RUNNNING t]> (rheap c)) c) ∧
      reply = mkCoordinatorReply (rt_FileName t) "REDUCE" (rt_TaskId t) (ReduceN c)) ∨
   (reply = zero_reply ∧ c' = c ∧
      (∀ p t, mheap c !! p = Some t → mt_Status t ≠ NOTRUN) ∧
      (maps_finished c → ∀ p t, rheap c !! p = Some t → rt_Status t ≠ NOTRUN))).
Proof.
  intros Hst%ok_static. unfold HandleWorker. destruct (getMapTask _ _) as [p|] eqn:Eg.
  - apply getMapTask_Some in Eg as (_&t&Hp&Hs). rewrite Hp. simpl. eexists _, _. split; [done|]. left. eauto 10.
  - destruct (getReduceTask _ _ _ _) as [p|] eqn:Eg'.
    + apply getReduceTask_Some in Eg' as (Hfin&_&t&Hp&Hs). apply (mapFinished_spec _ Hst) in Hfin.
      cbn [mbind option_bind]. rewrite Hp. simpl. eexists _, _. split; [done|]. right; left. eauto 10.
    + eexists _, _. split; [done|]. right; right. split_and!; eauto using getMapTask_None, getReduceTask_None.
Qed.

Lemma HandleWorker_reduce c c' reply :
  ok files nReduce c → HandleWorker c = Some (c', reply) → cr_TaskType reply = "REDUCE" → maps_finished c.
Proof.
  intros Hok H Ht.
  destruct (HandleWorker_cases c Hok) as (c1&r&H'&[(p&t&_&_&_&->)|[(?&_)|(->&_)]]); rewrite H' in H; by simplify_eq.
Qed.

(** ** Statuses along an execution *)

(** A finished task stays finished. *)
Definition keeps_finished c c' : Prop :=
  (∀ p t, mheap c !! p = Some t → mt_Status t = FINISHED →
     ∃ t', mheap c' !! p = Some t' ∧ mt_Status t' = FINISHED) ∧
  (∀ p t, rheap c !! p = Some t → rt_Status t = FINISHED →
     ∃ t', rheap c' !! p = Some t' ∧ rt_Status t' = FINISHED).

Lemma keeps_finished_refl c : keeps_finished c c.
Proof. split; eauto. Qed.

Lemma keeps_finished_trans c1 c2 c3 : keeps_finished c1 c2 → keeps_finished c2 c3 → keeps_finished c1 c3.
Proof.
  intros [A1 B1] [A2 B2]. split; intros p t Hp Hs.
  - destruct (A1 p t Hp Hs) as (t'&?&?). eauto.
  - destruct (B1 p t Hp Hs) as (t'&?&?). eauto.
Qed.

Lemma keeps_finished_map c p t v tms :
  mheap c !! p = Some t → (mt_Status t = FINISHED → v = FINISHED) →
  keeps_finished c (set_timers tms (set_mheap (<[p := set_mt_Status v t]> (mheap c)) c)).
Proof.
  intros Hp Hv. split; simpl; [|eauto]. intros q u Hq Hs. destruct (decide (p = q)) as [->|].
  - simplify_eq. rewrite list_lookup_insert_eq by (by eapply lookup_lt_Some). eexists. split; [done|]. simpl. auto.
  - rewrite list_lookup_insert_ne by done. eauto.
Qed.

Lemma keeps_finished_reduce c p t v tms :
  rheap c !! p = Some t → (rt_Status t = FINISHED → v = FINISHED) →
  keeps_finished c (set_timers tms (set_rheap (<[p := set_rt_Status v t]> (rheap c)) c)).
Proof.
  intros Hp Hv. split; simpl; [eauto|]. intros q u Hq Hs. destruct (decide (p = q)) as [->|].
  - simplify_eq. rewrite list_lookup_insert_eq by (by eapply lookup_lt_Some). eexists. split; [done|]. simpl. auto.
  - rewrite list_lookup_insert_ne by done. eauto.
Qed.

Lemma set_timers_id c : set_timers (timers c) c = c.
Proof. by destruct c. Qed.

Lemma keeps_finished_cas_map p a b c c' :
  a ≠ FINISHED → cas_map p a b c = Some c' → keeps_finished c c'.
Proof.
  unfold cas_map. intros Ha H. destruct (mheap c !! p) as [t|] eqn:Hp; simpl in H; [|done]. simplify_eq.
  destruct (Z.eqb_spec (mt_Status t) a); [|apply keeps_finished_refl].
  rewrite <- (set_timers_id (set_mheap _ c)). apply keeps_finished_map; [done|congruence].
Qed.

Lemma keeps_finished_cas_reduce p a b c c' :
  a ≠ FINISHED → cas_reduce p a b c = Some c' → keeps_finished c c'.
Proof.
  unfold cas_reduce. intros Ha H. destruct (rheap c !! p) as [t|] eqn:Hp; simpl in H; [|done]. simplify_eq.
  destruct (Z.eqb_spec (rt_Status t) a); [|apply keeps_finished_refl].
  rewrite <- (set_timers_id (set_rheap _ c)). apply keeps_finished_reduce; [done|congruence].
Qed.

Lemma keeps_finished_exec c l c' : exec c l = Some c' → keeps_finished c c'.
Proof.
  destruct l as [|args|k]; simpl.
  - intros ([c1 r]&H&->)%fmap_Some. unfold HandleWorker in H.
    destruct (getMapTask _ _) as [p|] eqn:Eg; [|destruct (getReduceTask _ _ _ _) as [p|] eqn:Eg'].
    + apply getMapTask_Some in Eg as (_&t&Hp&Hs). rewrite Hp in H. simpl in H. simplify_eq.
      apply keeps_finished_map; [done|status].
    + apply getReduceTask_Some in Eg' as (_&_&t&Hp&Hs). cbn [mbind option_bind] in H. rewrite Hp in H. simpl in H. simplify_eq.
      apply keeps_finished_reduce; [done|status].
    + simplify_eq. apply keeps_finished_refl.
  - unfold HandleFinish. intros H.
    destruct (String.eqb _ "MAP"); [|destruct (String.eqb _ "REDUCE")].
    + destruct (MapTaskMap c !! _); simpl in H; [|done]. eapply keeps_finished_cas_map; [|exact H]; status.
    + destruct (ReduceTaskMap c !! _); simpl in H; [|done]. eapply keeps_finished_cas_reduce; [|exact H]; status.
    + simplify_eq. apply keeps_finished_refl.
  - unfold timeout. intros H. destruct (timers c !! k) as [[p|p]|]; simpl in H; [| |done].
    + apply (keeps_finished_trans c (set_timers (delete k (timers c)) c));
        [split; simpl; eauto|eapply keeps_finished_cas_map; [|exact H]; status].
    + apply (keeps_finished_trans c (set_timers (delete k (timers c)) c));
        [split; simpl; eauto|eapply keeps_finished_cas_reduce; [|exact H]; status].
Qed.

Lemma keeps_finished_run c ls c' : run c ls = Some c' → keeps_finished c c'.
Proof.
  revert c. induction ls as [|l ls IH]; intros c H; simpl in H; [simplify_eq; apply keeps_finished_refl|].
  destruct (exec c l) as [c1|] eqn:E; simpl in H; [|done].
  eauto using keeps_finished_trans, keeps_finished_exec.
Qed.

Lemma maps_finished_keeps c c' :
  ok files nReduce c → ok files nReduce c' → keeps_finished c c' → maps_finished c → maps_finished c'.
Proof.
  intros Hok Hok' [Hk _] Hf p t Hp.
  apply ok_static in Hok, Hok'. apply static_active in Hok as (_&_&Hl&_), Hok' as (_&_&Hl'&_).
  destruct (lookup_lt_is_Some_2 (mheap c) p) as [u Hu]; [rewrite Hl, <- Hl'; by eapply lookup_lt_Some|].
  destruct (Hk p u Hu (Hf p u Hu)) as (t'&?&?). congruence.
Qed.

Lemma reduces_finished_keeps c c' :
  ok files nReduce c → ok files nReduce c' → keeps_finished c c' →
  (∀ p t, rheap c !! p = Some t → rt_Status t = FINISHED) →
  ∀ p t, rheap c' !! p = Some t → rt_Status t = FINISHED.
Proof.
  intros Hok Hok' [_ Hk] Hf p t Hp.
  apply ok_static in Hok, Hok'. apply static_active in Hok as (_&_&_&Hl), Hok' as (_&_&_&Hl').
  destruct (lookup_lt_is_Some_2 (rheap c) p) as [u Hu]; [rewrite Hl, <- Hl'; by eapply lookup_lt_Some|].
  destruct (Hk p u Hu (Hf p u Hu)) as (t'&?&?). congruence.
Qed.

(** ** Identities of the tasks *)

Lemma map_task_id c p t :
  static files nReduce c → mheap c !! p = Some t →
  mt_TaskId t = Z.of_nat p + 1 ∧ files !! p = Some (mt_FileName t).
Proof.
  intros [Hm _ _] Hp. apply (f_equal (.!! p)) in Hm. rewrite !list_lookup_fmap, Hp in Hm.
  cbn [mheap MakeCoordinator] in Hm. rewrite list_lookup_imap in Hm. simpl in Hm.
  destruct (files !! p); simpl in Hm; by simplify_eq.
Qed.

Lemma reduce_task_id c p t :
  static files nReduce c → rheap c !! p = Some t →
  rt_TaskId t = Z.of_nat p + 1 ∧
  rt_FileName t = (λ j : nat, mr_file (Z.of_nat j + 1) (Z.of_nat p + 1)) <$> seq 0 (length files).
Proof.
  intros [_ Hr _] Hp. apply (f_equal (.!! p)) in Hr. rewrite !list_lookup_fmap, Hp in Hr.
  cbn [rheap MakeCoordinator] in Hr. rewrite list_lookup_fmap in Hr.
  destruct (seq _ _ !! p) as [q|] eqn:Hq; simpl in Hr; [|done].
  apply lookup_seq in Hq as [-> _]. by simplify_eq.
Qed.

Lemma id_map_lookup (n : nat) (id : Z) p :
  (list_to_map ((λ i : nat, (Z.of_nat i + 1, i)) <$> seq 0 n) : gmap Z nat) !! id = Some p ↔
  id = Z.of_nat p + 1 ∧ (p < n)%nat.
Proof.
  rewrite <- elem_of_list_to_map.
  - rewrite list_elem_of_fmap. split.
    + intros (i&?&Hi%elem_of_seq). simplify_eq. lia.
    + intros [-> ?]. exists p. split; [done|]. apply elem_of_seq. lia.
  - rewrite <- list_fmap_compose. apply NoDup_fmap_2_strong; [|apply NoDup_seq].
    intros i j _ _. simpl. lia.
Qed.

Lemma MapTaskMap_lookup c id p :
  static files nReduce c → MapTaskMap c !! id = Some p ↔ id = Z.of_nat p + 1 ∧ (p < length files)%nat.
Proof. intros [_ _ Hrest]. injection Hrest as -> _ _ _ _. apply id_map_lookup. Qed.

Lemma ReduceTaskMap_lookup c id p :
  static files nReduce c → ReduceTaskMap c !! id = Some p ↔ id = Z.of_nat p + 1 ∧ (p < Z.to_nat nReduce)%nat.
Proof. intros [_ _ Hrest]. injection Hrest as _ -> _ _ _. apply id_map_lookup. Qed.
End Job.
End MrCoordinatorFacts.
