(* ===== verification/MrCoordinatorTheorems.v ===== *)
(** * Theorems about the coordinator *)

From stdpp Require Import pretty.
From S2P Require Import Prelude MrCoordinator MrCoordinatorFacts.

Module MrCoordinatorTheorems.
Import MrCoordinator MrCoordinatorFacts.

Section Theorems.
Context (files : list string) (nReduce : Z).

(** C20: what [HandleWorker] hands out.  It always returns, and either gives an
    idle map task (now running) with its file, or, when no map task is idle and
    all are finished, an idle reduce task with its [mr-*] files, or nothing when
    there is no task to give; the reply carries the id of the task given. *)
Theorem HandleWorker_spec c :
  reachable files nReduce c →
  ∃ c' reply, HandleWorker c = Some (c', reply) ∧
  ((cr_TaskType reply = "MAP" ∧ ∃ p t f,
      mheap c !! p = Some t ∧ mt_Status t = NOTRUN ∧ files !! p = Some f ∧
      reply = mkCoordinatorReply [f] "MAP" (Z.of_nat p + 1) nReduce ∧
      mheap c' = <[p := set_mt_Status RUNNNING t]> (mheap c) ∧ rheap c' = rheap c) ∨
   (cr_TaskType reply = "REDUCE" ∧ maps_finished c ∧ ∃ p t,
      rheap c !! p = Some t ∧ rt_Status t = NOTRUN ∧
      reply = mkCoordinatorReply
        ((λ j : nat, mr_file (Z.of_nat j + 1) (Z.of_nat p + 1)) <$> seq 0 (length files))
        "REDUCE" (Z.of_nat p + 1) nReduce ∧
      rheap c' = <[p := set_rt_Status RUNNNING t]> (rheap c) ∧ mheap c' = mheap c) ∨
   (reply = zero_reply ∧ c' = c ∧
      (∀ p t, mheap c !! p = Some t → mt_Status t ≠ NOTRUN) ∧
      (maps_finished c → ∀ p t, rheap c !! p = Some t → rt_Status t ≠ NOTRUN))).
Proof.
  intros Hok%reachable_ok. pose proof (ok_static _ _ _ Hok) as Hst.
  assert (HN : ReduceN c = nReduce) by (by destruct Hst as [_ _ [=]]).
  destruct (HandleWorker_cases _ _ _ Hok) as (c'&reply&H&[(p&t&Hp&Hs&->&->)|[(Hf&p&t&Hp&Hs&->&->)|(->&->&Hm&Hr)]]);
    eexists _, _; (split; [exact H|]).
  - left. split; [done|]. destruct (map_task_id _ _ _ _ _ Hst Hp) as [Hid Hf].
    exists p, t, (mt_FileName t). rewrite Hid, HN. done.
  - right; left. split; [done|]. destruct (reduce_task_id _ _ _ _ _ Hst Hp) as [Hid Hfn].
    split; [done|]. exists p, t. rewrite Hid, Hfn, HN. done.
  - right; right. done.
Qed.

(** C21: the phases do not overlap: when a reduce task is handed out every map
    task is finished, and stays so in every continuation. *)
Theorem reduce_only_after_map c c' reply ls c'' :
  reachable files nReduce c → HandleWorker c = Some (c', reply) → cr_TaskType reply = "REDUCE" →
  run c' ls = Some c'' → maps_finished c ∧ maps_finished c''.
Proof.
  intros Hr H Ht Hrun.
  pose proof (reachable_ok _ _ _ Hr) as Hok.
  assert (Hf : maps_finished c) by eauto using HandleWorker_reduce.
  pose proof (ok_HandleWorker _ _ _ _ _ Hok H) as Hok1.
  split; [done|]. apply (maps_finished_keeps files nReduce c c''); [done|by eapply run_ok| |done].
  eapply keeps_finished_trans; [|by eapply keeps_finished_run].
  apply (keeps_finished_exec c Assign). simpl. by rewrite H.
Qed.

(** [Done] means done: when it returns true every reduce task is finished,
    every map task too unless the job has no reduce task, and it returns true
    ever after. *)
Theorem Done_correct c ls c' :
  reachable files nReduce c → Done c = true → run c ls = Some c' →
  (∀ p t, rheap c !! p = Some t → rt_Status t = FINISHED) ∧
  (0 < nReduce → maps_finished c) ∧ Done c' = true.
Proof.
  intros Hok%reachable_ok HD Hrun. pose proof (ok_static _ _ _ Hok) as Hst.
  pose proof (proj1 (Done_spec _ _ _ Hst) HD) as HF. clear HD. split; [done|split].
  - intros HN. pose proof (static_active _ _ _ Hst) as (_&_&_&Hlen).
    destruct (lookup_lt_is_Some_2 (rheap c) 0) as [t Ht]; [lia|].
    apply (ok_phases _ _ _ Hok _ _ Ht). by rewrite (HF _ _ Ht).
  - pose proof (run_ok _ _ _ _ _ Hok Hrun) as Hok'. apply (Done_spec _ _ _ (ok_static _ _ _ Hok')).
    apply (reduces_finished_keeps files nReduce c c' Hok Hok' (keeps_finished_run _ _ _ Hrun) HF).
Qed.

(** No task is lost: a running task has exactly one time-out pending, an
    idle one none, a finished one at most one, and every status is one of the
    three. *)
Theorem running_task_has_one_timer c :
  reachable files nReduce c →
  (∀ p t, mheap c !! p = Some t → timers_for (mt_Status t) (pending (MapTimer p) c)) ∧
  (∀ p t, rheap c !! p = Some t → timers_for (rt_Status t) (pending (ReduceTimer p) c)).
Proof. intros Hok%reachable_ok. split; [apply (ok_map _ _ _ Hok)|apply (ok_reduce _ _ _ Hok)]. Qed.

(** [HandleFinish] panics exactly on an id that is not one of the job's
    tasks of the given type. *)
Theorem HandleFinish_panics_iff c args :
  reachable files nReduce c →
  HandleFinish args c = None ↔
  (cf_TaskType args = "MAP" ∧ ¬ (1 ≤ cf_Id args ≤ len files)) ∨
  (cf_TaskType args = "REDUCE" ∧ ¬ (1 ≤ cf_Id args ≤ nReduce)).
Proof.
  intros Hok%reachable_ok. pose proof (ok_static _ _ _ Hok) as Hst.
  destruct (static_active _ _ _ Hst) as (_&_&Hlm&Hlr). unfold HandleFinish, cas_map, cas_reduce.
  destruct (String.eqb_spec (cf_TaskType args) "MAP") as [Em|Em];
    [|destruct (String.eqb_spec (cf_TaskType args) "REDUCE") as [Er|Er]].
  - destruct (MapTaskMap c !! cf_Id args) as [p|] eqn:E; simpl.
    + apply (MapTaskMap_lookup _ _ _ _ _ Hst) in E as [Hid Hp].
      destruct (lookup_lt_is_Some_2 (mheap c) p) as [t ->]; [lia|]. simpl. unfold len.
      split; [done|]. intros [[_ H]|[H _]]; [lia|congruence].
    + split; [|done]. intros _. left. split; [done|]. intros H.
      assert (MapTaskMap c !! cf_Id args = Some (Z.to_nat (cf_Id args - 1))); [|congruence].
      apply (MapTaskMap_lookup _ _ _ _ _ Hst). unfold len in H. lia.
  - destruct (ReduceTaskMap c !! cf_Id args) as [p|] eqn:E; simpl.
    + apply (ReduceTaskMap_lookup _ _ _ _ _ Hst) in E as [Hid Hp].
      destruct (lookup_lt_is_Some_2 (rheap c) p) as [t ->]; [lia|]. simpl.
      split; [done|]. intros [[H _]|[_ H]]; [congruence|lia].
    + split; [|done]. intros _. right. split; [done|]. intros H.
      assert (ReduceTaskMap c !! cf_Id args = Some (Z.to_nat (cf_Id args - 1))); [|congruence].
      apply (ReduceTaskMap_lookup _ _ _ _ _ Hst). lia.
  - split; [done|]. intros [[? _]|[? _]]; congruence.
Qed.
End Theorems.

(** ** The theorems at work: a job of two files and one reduce task *)

Definition job : Coordinator := MakeCoordinator ["a"; "b"] 1.
Definition both_maps : list Label :=
  [Assign; Assign; Finish (mkCoordinatorFinishArgs 2 "MAP"); Timeout 0; Assign;
   Finish (mkCoordinatorFinishArgs 1 "MAP")].
Definition whole_job : list Label := both_maps ++ [Assign; Finish (mkCoordinatorFinishArgs 1 "REDUCE")].
Definition at_end (ls : list Label) : Coordinator := default job (run job ls).

Ltac by_run := match goal with |- reachable _ _ (at_end ?ls) => exists ls; vm_compute; reflexivity end.

Lemma HandleWorker_spec_witness :
  ∃ c' reply, HandleWorker (at_end both_maps) = Some (c', reply) ∧ cr_TaskType reply = "REDUCE".
Proof.
  destruct (HandleWorker_spec ["a"; "b"] 1 (at_end both_maps)) as (c'&reply&H&Hcase); [by_run|].
  exists c', reply. split; [exact H|]. vm_compute in H. injection H as _ <-. reflexivity.
Defined.

Lemma reduce_only_after_map_witness : maps_finished (at_end both_maps) ∧ maps_finished (at_end whole_job).
Proof.
  eapply (reduce_only_after_map ["a"; "b"] 1 (at_end both_maps) _ _ [Finish (mkCoordinatorFinishArgs 1 "REDUCE")]);
    [by_run|vm_compute; reflexivity..].
Defined.

Lemma Done_correct_witness :
  Done (at_end whole_job) = true ∧ maps_finished (at_end whole_job).
Proof.
  split; [vm_compute; reflexivity|].
  apply (Done_correct ["a"; "b"] 1 (at_end whole_job) [] (at_end whole_job)); [by_run|vm_compute; reflexivity..].
Defined.

Lemma running_task_has_one_timer_witness :
  timers_for RUNNNING (pending (MapTimer 0) (at_end [Assign])).
Proof.
  destruct (running_task_has_one_timer ["a"; "b"] 1 (at_end [Assign])) as [Hm _]; [by_run|].
  exact (Hm 0%nat (mkMapTask 1 "a" RUNNNING) eq_refl).
Defined.

Lemma HandleFinish_panics_iff_witness :
  HandleFinish (mkCoordinatorFinishArgs 3 "MAP") (at_end both_maps) = None.
Proof.
  apply (HandleFinish_panics_iff ["a"; "b"] 1); [by_run|]. left. split; [reflexivity|]. unfold len. simpl. lia.
Defined.
End MrCoordinatorTheorems.
