(* ===== verification/MrProgress.v ===== *)
(** * Progress of a MapReduce job

    Whatever happened so far, once the pending time-outs have run a single
    worker finishes the job, and the number of its requests is bounded by the
    number of tasks. *)

From stdpp Require Import pretty.
From S2P Require Import Prelude MrCoordinator MrCoordinatorFacts.

Module MrProgress.
Import MrCoordinator MrCoordinatorFacts.

(** Tasks still to be finished. *)
Definition unfinished (c : Coordinator) : nat :=
  length (filter (λ t, mt_Status t ≠ FINISHED) (mheap c)) +
  length (filter (λ t, rt_Status t ≠ FINISHED) (rheap c)).

Definition idle (c : Coordinator) : Prop :=
  (∀ p t, mheap c !! p = Some t → mt_Status t ≠ RUNNNING) ∧
  (∀ p t, rheap c !! p = Some t → rt_Status t ≠ RUNNNING).

Lemma filter_insert_drop {A} (P : A → Prop) `{∀ x, Decision (P x)} l i x y :
  l !! i = Some x → P x → ¬ P y →
  length (filter P l) = S (length (filter P (<[i := y]> l))).
Proof.
  intros Hi Hx Hy. rewrite (insert_take_drop l i y) by (by eapply lookup_lt_Some).
  rewrite <- (take_drop_middle l i x Hi) at 1.
  rewrite !filter_app, !filter_cons, decide_True, decide_False by done. rewrite !length_app. simpl. lia.
Qed.

Lemma length_filter_0 {A} (P : A → Prop) `{∀ x, Decision (P x)} l :
  length (filter P l) = 0%nat ↔ ∀ x, x ∈ l → ¬ P x.
Proof.
  induction l as [|y l IH]; [set_solver|]. rewrite filter_cons. destruct (decide (P y)); simpl.
  - split; [done|]. intros Hn. by destruct (Hn y); [left|].
  - rewrite IH. set_solver.
Qed.

Section Job.
Context (files : list string) (nReduce : Z).

Lemma timeout_first tm c :
  ok files nReduce c → timers c !! 0%nat = Some tm → ∃ c', timeout 0 c = Some c' ∧ timers c' = tail (timers c).
Proof.
  intros Hok Ht. pose proof (ok_timers _ _ _ Hok tm (list_elem_of_lookup_2 _ _ _ Ht)) as Hp.
  unfold timeout, cas_map, cas_reduce. rewrite Ht. simpl.
  destruct (timers c) as [|x tms]; [done|].
  destruct tm as [p|p]; destruct Hp as [t ->]; simpl; eexists; (split; [done|]); by case_match.
Qed.

(** Time-outs always run, and leave no task running. *)
Lemma fire_all_idle c :
  ok files nReduce c →
  ∃ c', fire_all (length (timers c)) c = Some c' ∧ ok files nReduce c' ∧ timers c' = [].
Proof.
  remember (length (timers c)) as n eqn:E. revert c E. induction n as [|n IH]; intros c E Hok.
  - exists c. split_and!; [done..|]. by apply nil_length_inv.
  - destruct (timers c) as [|tm tms] eqn:Et; [done|].
    destruct (timeout_first tm c Hok) as (c'&H&Ht); [by rewrite Et|].
    simpl. rewrite H. simpl. apply IH; [by rewrite Ht, Et; injection E|]. by eapply ok_timeout.
Qed.

Lemma no_timer_idle c : ok files nReduce c → timers c = [] → idle c.
Proof.
  intros Hok Ht. split; intros p t Hp Hs.
  - destruct (ok_map _ _ _ Hok _ _ Hp) as [[? _]|[[_ Hk]|[? _]]]; [status| |status].
    unfold pending in Hk. by rewrite Ht in Hk.
  - destruct (ok_reduce _ _ _ Hok _ _ Hp) as [[? _]|[[_ Hk]|[? _]]]; [status| |status].
    unfold pending in Hk. by rewrite Ht in Hk.
Qed.

(** Setting a running task to finished through its id. *)
Lemma finish_map c p t :
  static files nReduce c → mheap c !! p = Some t → mt_Status t = RUNNNING →
  HandleFinish (mkCoordinatorFinishArgs (Z.of_nat p + 1) "MAP") c =
  Some (set_mheap (<[p := set_mt_Status FINISHED t]> (mheap c)) c).
Proof.
  intros Hst Hp Hs. unfold HandleFinish, cas_map. simpl.
  rewrite (proj2 (MapTaskMap_lookup _ _ c (Z.of_nat p + 1) p Hst)); simpl.
  - rewrite Hp. simpl. by rewrite Hs.
  - split; [done|]. apply static_active in Hst as (_&_&<-&_). by eapply lookup_lt_Some.
Qed.

Lemma finish_reduce c p t :
  static files nReduce c → rheap c !! p = Some t → rt_Status t = RUNNNING →
  HandleFinish (mkCoordinatorFinishArgs (Z.of_nat p + 1) "REDUCE") c =
  Some (set_rheap (<[p := set_rt_Status FINISHED t]> (rheap c)) c).
Proof.
  intros Hst Hp Hs. unfold HandleFinish, cas_reduce. simpl.
  rewrite (proj2 (ReduceTaskMap_lookup _ _ c (Z.of_nat p + 1) p Hst)); simpl.
  - rewrite Hp. simpl. by rewrite Hs.
  - split; [done|]. apply static_active in Hst as (_&_&_&<-). by eapply lookup_lt_Some.
Qed.

(** A turn of a worker finishes a task, or there was none left. *)
Lemma worker_round_map c p t :
  ok files nReduce c → mheap c !! p = Some t → mt_Status t = NOTRUN → idle c →
  let c' := set_mheap (<[p := set_mt_Status FINISHED t]> (mheap c)) (set_timers (timers c ++ [MapTimer p]) c) in
  HandleFinish (mkCoordinatorFinishArgs (mt_TaskId t) "MAP")
    (set_timers (timers c ++ [MapTimer p]) (set_mheap (<[p := set_mt_Status RUNNNING t]> (mheap c)) c)) = Some c' ∧
  idle c' ∧ unfinished c' = pred (unfinished c).
Proof.
  intros Hok Hp Hs [Hm Hr] c'. pose proof (ok_static _ _ _ Hok) as Hst. split_and!.
  - destruct (map_task_id _ _ _ _ _ Hst Hp) as [-> _]. rewrite (finish_map _ p (set_mt_Status RUNNNING t)).
    + f_equal. unfold c'. unfold set_mheap, set_timers. simpl. by rewrite list_insert_insert_eq.
    + by apply static_set_timers, static_set_map.
    + apply list_lookup_insert_eq. by eapply lookup_lt_Some.
    + done.
  - split; [|done]. intros q u Hq. apply list_lookup_insert_Some in Hq as [(->&<-&_)|[_ Hq]]; [done|by eapply Hm].
  - unfold unfinished. simpl.
    rewrite (filter_insert_drop (λ t, mt_Status t ≠ FINISHED) _ p t (set_mt_Status FINISHED t) Hp);
      [done|status|simpl; status].
Qed.

Lemma worker_round_reduce c p t :
  ok files nReduce c → rheap c !! p = Some t → rt_Status t = NOTRUN → idle c →
  let c' := set_rheap (<[p := set_rt_Status FINISHED t]> (rheap c)) (set_timers (timers c ++ [ReduceTimer p]) c) in
  HandleFinish (mkCoordinatorFinishArgs (rt_TaskId t) "REDUCE")
    (set_timers (timers c ++ [ReduceTimer p]) (set_rheap (<[p := set_rt_Status RUNNNING t]> (rheap c)) c)) = Some c' ∧
  idle c' ∧ unfinished c' = pred (unfinished c).
Proof.
  intros Hok Hp Hs [Hm Hr] c'. pose proof (ok_static _ _ _ Hok) as Hst. split_and!.
  - destruct (reduce_task_id _ _ _ _ _ Hst Hp) as [-> _]. rewrite (finish_reduce _ p (set_rt_Status RUNNNING t)).
    + f_equal. unfold c'. unfold set_rheap, set_timers. simpl. by rewrite list_insert_insert_eq.
    + by apply static_set_timers, static_set_reduce.
    + apply list_lookup_insert_eq. by eapply lookup_lt_Some.
    + done.
  - split; [done|]. intros q u Hq. apply list_lookup_insert_Some in Hq as [(->&<-&_)|[_ Hq]]; [done|by eapply Hr].
  - unfold unfinished. simpl.
    rewrite (filter_insert_drop (λ t, rt_Status t ≠ FINISHED) _ p t (set_rt_Status FINISHED t) Hp);
      [lia|status|simpl; status].
Qed.

Lemma unfinished_0 c :
  unfinished c = 0%nat ↔
  maps_finished c ∧ ∀ p t, rheap c !! p = Some t → rt_Status t = FINISHED.
Proof.
  unfold unfinished, maps_finished. rewrite Nat.eq_add_0, !length_filter_0. split.
  - intros [Hm Hr]. split; intros p t Hp; apply dec_stable; eauto using list_elem_of_lookup_2.
  - intros [Hm Hr]. split; intros t [p Hp]%list_elem_of_lookup; eauto.
Qed.

Lemma nothing_left c :
  ok files nReduce c → idle c →
  (∀ p t, mheap c !! p = Some t → mt_Status t ≠ NOTRUN) →
  (maps_finished c → ∀ p t, rheap c !! p = Some t → rt_Status t ≠ NOTRUN) → unfinished c = 0%nat.
Proof.
  intros Hok [Hm Hr] Hnm Hnr.
  assert (Hf : maps_finished c).
  { intros p t Hp. specialize (Hm p t Hp). specialize (Hnm p t Hp).
    destruct (ok_map _ _ _ Hok _ _ Hp) as [[? _]|[[? _]|[? _]]]; [status|status|done]. }
  apply unfinished_0. split; [done|]. intros p t Hp. specialize (Hr p t Hp). specialize (Hnr Hf p t Hp).
  destruct (ok_reduce _ _ _ Hok _ _ Hp) as [[? _]|[[? _]|[? _]]]; [status|status|done].
Qed.

Lemma worker_round_progress c :
  ok files nReduce c → idle c →
  ∃ c', worker_round c = Some c' ∧ ok files nReduce c' ∧ idle c' ∧ unfinished c' = pred (unfinished c).
Proof.
  intros Hok Hidle. destruct (HandleWorker_cases _ _ _ Hok) as (c1&reply&H&Hc).
  pose proof (ok_HandleWorker _ _ _ _ _ Hok H) as Hok1.
  unfold worker_round. rewrite H. cbn [mbind option_bind].
  destruct Hc as [(p&t&Hp&Hs&->&->)|[(_&p&t&Hp&Hs&->&->)|(->&->&Hm&Hr)]].
  - destruct (worker_round_map c p t Hok Hp Hs Hidle) as (HF&?&?). eexists. split; [exact HF|]. split; [by eapply ok_HandleFinish|done].
  - destruct (worker_round_reduce c p t Hok Hp Hs Hidle) as (HF&?&?). eexists. split; [exact HF|]. split; [by eapply ok_HandleFinish|done].
  - exists c. rewrite (nothing_left c) by done. done.
Qed.

Lemma worker_rounds_finish n c :
  ok files nReduce c → idle c → (unfinished c ≤ n)%nat →
  ∃ c', worker_rounds n c = Some c' ∧ ok files nReduce c' ∧ unfinished c' = 0%nat.
Proof.
  revert c. induction n as [|n IH]; intros c Hok Hidle Hn; simpl.
  - exists c. split_and!; [done..|lia].
  - destruct (worker_round_progress c Hok Hidle) as (c'&->&Hok'&Hidle'&Hu). simpl. apply IH; [done..|lia].
Qed.

(** No crash can block a job: from every reachable state, whoever holds the
    running tasks, the pending time-outs run without failure and then one worker
    finishes every task and makes [Done] true in at most as many turns as there
    are tasks. *)
Theorem job_completes c :
  reachable files nReduce c →
  ∃ c1 c2, fire_all (length (timers c)) c = Some c1 ∧
    worker_rounds (length files + Z.to_nat nReduce) c1 = Some c2 ∧ maps_finished c2 ∧ Done c2 = true.
Proof.
  intros Hok%reachable_ok. destruct (fire_all_idle c Hok) as (c1&H1&Hok1&Ht).
  destruct (worker_rounds_finish (length files + Z.to_nat nReduce) c1) as (c2&H2&Hok2&Hu);
    [done|by apply no_timer_idle| |].
  - destruct (static_active _ _ _ (ok_static _ _ _ Hok1)) as (_&_&<-&<-). unfold unfinished.
    apply Nat.add_le_mono; apply length_filter.
  - apply unfinished_0 in Hu as [Hf Hr]. exists c1, c2. split_and!; [done..|].
    by apply (Done_spec _ _ _ (ok_static _ _ _ Hok2)).
Qed.
End Job.

Lemma job_completes_witness :
  ∃ c1 c2, fire_all 1 (default (MakeCoordinator ["a"] 1) (run (MakeCoordinator ["a"] 1) [Assign])) = Some c1 ∧
    worker_rounds 2 c1 = Some c2 ∧ maps_finished c2 ∧ Done c2 = true.
Proof.
  exact (job_completes ["a"] 1 (default (MakeCoordinator ["a"] 1) (run (MakeCoordinator ["a"] 1) [Assign]))
    (ex_intro _ [Assign] eq_refl)).
Defined.
End MrProgress.
