(* ===== verification/MrFineGrained.v ===== *)
(** * [HandleWorker] interleaved with the compare-and-swaps

    [HandleWorker] holds the mutex while it scans the statuses, but
    [HandleFinish] and the time-outs change them with compare-and-swaps that do
    not take it ("data race may occur ... I think race will not happen in fact",
    [mr/coordinator.go]).  Here every read and write of a status by
    [HandleWorker] is a step of its own, and any number of finishes and
    time-outs happen between two of them.  Reads and writes of one status word
    are taken to be atomic. *)

From stdpp Require Import pretty.
From S2P Require Import Prelude MrCoordinator MrCoordinatorFacts.

Module MrFineGrained.
Import MrCoordinator MrCoordinatorFacts.

(** Where the request that holds the mutex is: outside, or about to read or write
    a status.  The flag tells the second call of [getReduceTask] from the first. *)
Inductive Pc :=
  | Out
  | ScanMap (i : nat)
  | WriteMap (p : nat)
  | CheckMaps (second : bool) (i : nat)
  | ScanReduce (second : bool) (i : nat)
  | WriteReduce (p : nat).

Definition Fine : Type := Coordinator * Pc.

(** [getReduceTask] returned nil: the first call ends the request, and the second
    one makes it dereference nil. *)
Definition reduce_nil (second : bool) (c : Coordinator) : option Fine :=
  if second then None else Some (c, Out).

Definition thread_step (s : Fine) : option Fine :=
  let '(c, pc) := s in
  match pc with
  | Out => Some (c, ScanMap 0)
  | ScanMap i =>
      match ActiveMapTasks c !! i with
      | None => Some (c, CheckMaps false 0)
      | Some p => t ← mheap c !! p;
          Some (c, if mt_Status t =? NOTRUN then WriteMap p else ScanMap (S i))
      end
  | WriteMap p =>
      t ← mheap c !! p;
      Some (set_timers (timers c ++ [MapTimer p])
              (set_mheap (<[p := set_mt_Status RUNNNING t]> (mheap c)) c), Out)
  | CheckMaps b i =>
      match ActiveMapTasks c !! i with
      | None => Some (c, ScanReduce b 0)
      | Some p => t ← mheap c !! p;
          if mt_Status t =? FINISHED then Some (c, CheckMaps b (S i)) else reduce_nil b c
      end
  | ScanReduce b i =>
      match ActiveReduceTasks c !! i with
      | None => reduce_nil b c
      | Some p => t ← rheap c !! p;
          Some (c, if rt_Status t =? NOTRUN then (if b then WriteReduce p else CheckMaps true 0)
                   else ScanReduce b (S i))
      end
  | WriteReduce p =>
      t ← rheap c !! p;
      Some (set_timers (timers c ++ [ReduceTimer p])
              (set_rheap (<[p := set_rt_Status RUNNNING t]> (rheap c)) c), Out)
  end.

Inductive FLabel := Thread | EnvFinish (args : CoordinatorFinishArgs) | EnvTimeout (k : nat).

Definition fine_exec (s : Fine) (l : FLabel) : option Fine :=
  match l with
  | Thread => thread_step s
  | EnvFinish args => c ← HandleFinish args (s.1); Some (c, s.2)
  | EnvTimeout k => c ← timeout k (s.1); Some (c, s.2)
  end.

Fixpoint fine_run (s : Fine) (ls : list FLabel) : option Fine :=
  match ls with [] => Some s | l :: ls => s ← fine_exec s l; fine_run s ls end.

Definition fine_reachable (files : list string) (nReduce : Z) (s : Fine) : Prop :=
  ∃ ls, fine_run (MakeCoordinator files nReduce, Out) ls = Some s.

(** ** What the scan knows *)

Definition reduce_idle (c : Coordinator) (p : nat) : Prop := rt_Status <$> rheap c !! p = Some NOTRUN.
Definition map_idle (c : Coordinator) (p : nat) : Prop := mt_Status <$> mheap c !! p = Some NOTRUN.
Definition map_done (c : Coordinator) (p : nat) : Prop := mt_Status <$> mheap c !! p = Some FINISHED.

Definition all_done (c : Coordinator) : Prop := ∀ p, p ∈ ActiveMapTasks c → map_done c p.
Definition idle_from (c : Coordinator) (i : nat) : Prop :=
  ∃ j p, (i ≤ j)%nat ∧ ActiveReduceTasks c !! j = Some p ∧ reduce_idle c p.

Definition pc_ok (c : Coordinator) (pc : Pc) : Prop :=
  match pc with
  | Out | ScanMap _ => True
  | WriteMap p => map_idle c p
  | CheckMaps false i => ∀ j p, (j < i)%nat → ActiveMapTasks c !! j = Some p → map_done c p
  | ScanReduce false _ => all_done c
  | CheckMaps true _ => all_done c ∧ idle_from c 0
  | ScanReduce true i => all_done c ∧ idle_from c i
  | WriteReduce p => all_done c ∧ reduce_idle c p
  end.

(** The compare-and-swaps take no task out of NOTRUN or FINISHED. *)
Record stable (c c' : Coordinator) : Prop := {
  sb_maps : ActiveMapTasks c' = ActiveMapTasks c;
  sb_reduces : ActiveReduceTasks c' = ActiveReduceTasks c;
  sb_map_idle : ∀ p, map_idle c p → map_idle c' p;
  sb_map_done : ∀ p, map_done c p → map_done c' p;
  sb_reduce_idle : ∀ p, reduce_idle c p → reduce_idle c' p
}.

Lemma stable_refl c : stable c c.
Proof. by split. Qed.

Lemma stable_cas_map p v c c' : cas_map p RUNNNING v c = Some c' → stable c c'.
Proof.
  unfold cas_map. intros H. destruct (mheap c !! p) as [t|] eqn:Hp; simpl in H; [|done]. simplify_eq.
  destruct (Z.eqb_spec (mt_Status t) RUNNNING) as [Hs|]; [|apply stable_refl].
  split; try done; intros q; unfold map_idle, map_done; simpl; (destruct (decide (p = q)) as [->|];
    [rewrite Hp; simpl; intros [=]; status|by rewrite list_lookup_insert_ne]).
Qed.

Lemma stable_cas_reduce p v c c' : cas_reduce p RUNNNING v c = Some c' → stable c c'.
Proof.
  unfold cas_reduce. intros H. destruct (rheap c !! p) as [t|] eqn:Hp; simpl in H; [|done]. simplify_eq.
  destruct (Z.eqb_spec (rt_Status t) RUNNNING) as [Hs|]; [|apply stable_refl].
  split; try done; intros q; unfold reduce_idle; simpl; (destruct (decide (p = q)) as [->|];
    [rewrite Hp; simpl; intros [=]; status|by rewrite list_lookup_insert_ne]).
Qed.

Lemma stable_HandleFinish args c c' : HandleFinish args c = Some c' → stable c c'.
Proof.
  unfold HandleFinish. intros H. repeat case_match; [..|by simplify_eq; apply stable_refl].
  - destruct (MapTaskMap c !! _); simpl in H; [|done]. eauto using stable_cas_map.
  - destruct (ReduceTaskMap c !! _); simpl in H; [|done]. eauto using stable_cas_reduce.
Qed.

Lemma stable_timeout k c c' : timeout k c = Some c' → stable c c'.
Proof.
  unfold timeout. intros H. destruct (timers c !! k) as [tm|]; simpl in H; [|done].
  destruct tm; [apply stable_cas_map in H as []|apply stable_cas_reduce in H as []]; by split.
Qed.

Lemma pc_ok_stable c c' pc : stable c c' → pc_ok c pc → pc_ok c' pc.
Proof.
  intros [Ha Hr Hi Hd Hri].
  assert (Hall : all_done c → all_done c') by (unfold all_done; rewrite Ha; eauto).
  assert (Hid : ∀ i, idle_from c i → idle_from c' i)
    by (intros i (j&p&?&?&?); exists j, p; rewrite Hr; auto).
  destruct pc as [| | |[]|[]|]; simpl; rewrite ?Ha; naive_solver.
Qed.

Section Job.
Context (files : list string) (nReduce : Z).

Lemma all_done_spec c : static files nReduce c → all_done c ↔ maps_finished c.
Proof.
  intros (Ha&_)%static_active. unfold all_done, maps_finished, map_done. rewrite Ha. split.
  - intros H p t Hp. specialize (H p (proj2 (elem_of_positions _ _) (mk_is_Some _ _ Hp))).
    rewrite Hp in H. by injection H.
  - intros H p [t Ht]%elem_of_positions. rewrite Ht. simpl. f_equal. eauto.
Qed.

(** The scans read existing tasks. *)
Lemma active_map_task c i p :
  static files nReduce c → ActiveMapTasks c !! i = Some p → ∃ t, mheap c !! p = Some t.
Proof. intros (->&_)%static_active [-> ?]%lookup_seq. by apply lookup_lt_is_Some_2. Qed.
Lemma active_reduce_task c i p :
  static files nReduce c → ActiveReduceTasks c !! i = Some p → ∃ t, rheap c !! p = Some t.
Proof. intros (_&->&_)%static_active [-> ?]%lookup_seq. by apply lookup_lt_is_Some_2. Qed.

Definition fine_ok (s : Fine) : Prop := ok files nReduce (s.1) ∧ pc_ok (s.1) (s.2).

(** A step of the request succeeds and keeps the invariant. *)
Lemma thread_step_maps c pc :
  fine_ok (c, pc) → match pc with ScanMap _ | CheckMaps _ _ => True | _ => False end →
  ∃ pc', thread_step (c, pc) = Some (c, pc') ∧ pc_ok c pc'.
Proof.
  intros [Hok Hpc] Hk. simpl in Hok, Hpc. pose proof (ok_static _ _ _ Hok) as Hst.
  destruct pc as [|i| |b i| |]; try done; simpl.
  - destruct (ActiveMapTasks c !! i) as [p|] eqn:Ei; [|eexists; split; [done|simpl; lia]].
    destruct (active_map_task c i p Hst Ei) as [t Ht]. rewrite Ht. simpl. eexists. split; [done|].
    destruct (Z.eqb_spec (mt_Status t) NOTRUN) as [Hs|]; [|done]. simpl. unfold map_idle. rewrite Ht. simpl. congruence.
  - destruct (ActiveMapTasks c !! i) as [p|] eqn:Ei.
    + destruct (active_map_task c i p Hst Ei) as [t Ht]. rewrite Ht. simpl.
      assert (Hd : mt_Status t = FINISHED → map_done c p) by (unfold map_done; rewrite Ht; simpl; congruence).
      destruct (Z.eqb_spec (mt_Status t) FINISHED) as [Hs|Hs].
      * eexists. split; [done|]. destruct b; [done|]. simpl in *. intros j q Hj Hq.
        destruct (decide (j = i)) as [->|]; [by simplify_eq; apply Hd|]. apply (Hpc j); [lia|done].
      * destruct b; [|eexists; split; [done|done]].
        destruct Hpc as [Hall _]. specialize (Hall p (list_elem_of_lookup_2 _ _ _ Ei)).
        unfold map_done in Hall. rewrite Ht in Hall. by injection Hall.
    + eexists. split; [done|]. destruct b; [done|]. simpl in *. intros p [j Hj]%list_elem_of_lookup.
      apply (Hpc j); [|done]. apply lookup_ge_None in Ei. apply lookup_lt_Some in Hj. lia.
Qed.

Lemma thread_step_reduces c b i :
  fine_ok (c, ScanReduce b i) → ∃ pc', thread_step (c, ScanReduce b i) = Some (c, pc') ∧ pc_ok c pc'.
Proof.
  intros [Hok Hpc]. simpl in Hok, Hpc. pose proof (ok_static _ _ _ Hok) as Hst. simpl.
  destruct (ActiveReduceTasks c !! i) as [p|] eqn:Ei.
  - destruct (active_reduce_task c i p Hst Ei) as [t Ht]. rewrite Ht. simpl. eexists. split; [done|].
    assert (Hd : rt_Status t = NOTRUN ↔ reduce_idle c p)
      by (unfold reduce_idle; rewrite Ht; simpl; split; congruence).
    destruct (Z.eqb_spec (rt_Status t) NOTRUN) as [Hs%Hd|Hs]; destruct b; simpl.
    + by destruct Hpc.
    + split; [done|]. exists i, p. split_and!; [lia|done..].
    + destruct Hpc as [? (j&q&?&Hq&Hi)]. split; [done|]. exists j, q. split; [|done].
      destruct (decide (i = j)) as [->|]; [|lia]. simplify_eq. by apply Hd in Hi.
    + done.
  - destruct b; [|by eexists]. destruct Hpc as [_ (j&q&?&Hq&_)].
    apply lookup_ge_None in Ei. apply lookup_lt_Some in Hq. lia.
Qed.

Lemma thread_step_ok s : fine_ok s → ∃ s', thread_step s = Some s' ∧ fine_ok s'.
Proof.
  destruct s as [c pc]. intros Hf. destruct pc as [|i|p|b i|b i|p].
  - exists (c, ScanMap 0). by destruct Hf.
  - destruct (thread_step_maps _ _ Hf I) as (pc'&->&?). exists (c, pc'). by destruct Hf.
  - destruct Hf as [Hok (t&Ht&Hs)%fmap_Some]. simpl in *. rewrite Ht. eexists. split; [done|].
    split; [by apply ok_assign_map|done].
  - destruct (thread_step_maps _ _ Hf I) as (pc'&->&?). exists (c, pc'). by destruct Hf.
  - destruct (thread_step_reduces _ _ _ Hf) as (pc'&->&?). exists (c, pc'). by destruct Hf.
  - destruct Hf as [Hok [Hall (t&Ht&Hs)%fmap_Some]]. simpl in *. rewrite Ht. eexists. split; [done|].
    split; [|done]. apply ok_assign_reduce; [done..|]. by apply all_done_spec; [apply ok_static|].
Qed.

Lemma fine_exec_ok s l s' : fine_ok s → fine_exec s l = Some s' → fine_ok s'.
Proof.
  intros Hf H. destruct l as [|args|k]; simpl in H.
  - destruct (thread_step_ok s Hf) as (s1&H1&?). by rewrite H1 in H; simplify_eq.
  - destruct Hf as [Hok Hpc]. destruct (HandleFinish _ _) as [c|] eqn:E; simpl in H; [|done]. simplify_eq.
    split; simpl; [by eapply ok_HandleFinish|]. eauto using pc_ok_stable, stable_HandleFinish.
  - destruct Hf as [Hok Hpc]. destruct (timeout _ _) as [c|] eqn:E; simpl in H; [|done]. simplify_eq.
    split; simpl; [by eapply ok_timeout|]. eauto using pc_ok_stable, stable_timeout.
Qed.

Lemma fine_reachable_ok s : fine_reachable files nReduce s → fine_ok s.
Proof.
  intros [ls H]. assert (Hi : fine_ok (MakeCoordinator files nReduce, Out)) by (split; [apply ok_MakeCoordinator|done]).
  revert Hi H. generalize (MakeCoordinator files nReduce, Out). induction ls as [|l ls IH]; intros s0 Hi H; simpl in H.
  - by simplify_eq.
  - destruct (fine_exec s0 l) as [s1|] eqn:E; simpl in H; [|done]. eauto using fine_exec_ok.
Qed.

(** Steps a request still makes before it leaves, an upper bound. *)
Definition steps_left (s : Fine) : nat :=
  let m := length (ActiveMapTasks (s.1)) in
  let r := length (ActiveReduceTasks (s.1)) in
  match s.2 with
  | Out => 0
  | WriteMap _ | WriteReduce _ => 1
  | ScanReduce true i => (r - i) + 2
  | CheckMaps true i => (m - i) + r + 3
  | ScanReduce false i => (r - i) + m + r + 5
  | CheckMaps false i => (m - i) + m + 2 * r + 6
  | ScanMap i => (m - i) + 2 * m + 2 * r + 7
  end%nat.

Lemma steps_left_decreases s s' :
  s.2 ≠ Out → thread_step s = Some s' → (steps_left s' < steps_left s)%nat.
Proof.
  destruct s as [c pc]. unfold steps_left. intros Hne H.
  destruct pc as [|i|p|b i|b i|p]; simpl in *; [done|..].
  - destruct (ActiveMapTasks c !! i) eqn:E; simpl in H; [|simplify_eq; simpl; lia].
    apply lookup_lt_Some in E. destruct (mheap c !! _); simpl in H; [|done].
    case_match; simplify_eq; simpl; lia.
  - destruct (mheap c !! p); simpl in H; simplify_eq. simpl. lia.
  - destruct (ActiveMapTasks c !! i) eqn:E; simpl in H; [|simplify_eq; destruct b; simpl; lia].
    apply lookup_lt_Some in E. destruct (mheap c !! _); simpl in H; [|done].
    case_match; destruct b; simpl in H; simplify_eq; simpl; lia.
  - destruct (ActiveReduceTasks c !! i) eqn:E; simpl in H; [|destruct b; simpl in H; simplify_eq; simpl; lia].
    apply lookup_lt_Some in E. destruct (rheap c !! _); simpl in H; [|done].
    destruct b; case_match; simpl in H; simplify_eq; simpl; lia.
  - destruct (rheap c !! p); simpl in H; simplify_eq. simpl. lia.
Qed.

(** C23: the race is benign.  In every interleaving of the statement-level
    [HandleWorker] with finishes and time-outs, the request never dereferences
    nil (its second [getReduceTask] finds a task too), the task it overwrites
    with RUNNING is idle at that very moment and, for a reduce task, all maps are
    finished; the invariant of the atomic handlers holds throughout; and the
    request leaves the mutex after a bounded number of steps. *)
Theorem race_is_benign c pc :
  fine_reachable files nReduce (c, pc) →
  ok files nReduce c ∧
  (∃ s', thread_step (c, pc) = Some s' ∧ (pc ≠ Out → (steps_left s' < steps_left (c, pc))%nat)) ∧
  (steps_left (c, pc) ≤ 3 * length files + 2 * Z.to_nat nReduce + 7)%nat ∧
  match pc with
  | WriteMap p => map_idle c p
  | WriteReduce p => reduce_idle c p ∧ maps_finished c
  | _ => True
  end.
Proof.
  intros Hf%fine_reachable_ok. destruct (thread_step_ok _ Hf) as (s'&Hs'&_). destruct Hf as [Hok Hpc].
  pose proof (ok_static _ _ _ Hok) as Hst. simpl in *. split_and!; [done|..].
  - exists s'. split; [done|]. intros. by apply steps_left_decreases.
  - destruct (static_active _ _ _ Hst) as (Ha&Hr&Hlm&Hlr). unfold steps_left. simpl.
    rewrite Ha, Hr, !length_seq, Hlm, Hlr. repeat case_match; lia.
  - destruct pc; try done. simpl in Hpc. destruct Hpc. split; [done|]. by apply all_done_spec.
Qed.
End Job.

(** A time-out and a late finish strike while a request scans. *)
Lemma race_is_benign_witness :
  ∃ c, fine_run (MakeCoordinator ["a"] 1, Out)
    [Thread; Thread; Thread; Thread; Thread; EnvFinish (mkCoordinatorFinishArgs 1 "MAP");
     Thread; Thread; Thread; EnvTimeout 0; Thread; Thread; Thread; Thread] = Some (c, WriteReduce 0)
  ∧ reduce_idle c 0 ∧ maps_finished c.
Proof.
  eexists. split; [vm_compute; reflexivity|].
  refine (proj2 (proj2 (proj2 (race_is_benign ["a"] 1 _ (WriteReduce 0) _)))).
  eexists [Thread; Thread; Thread; Thread; Thread; EnvFinish (mkCoordinatorFinishArgs 1 "MAP");
     Thread; Thread; Thread; EnvTimeout 0; Thread; Thread; Thread; Thread]. vm_compute. reflexivity.
Defined.
End MrFineGrained.
