(* ===== verification/MrWorker.v ===== *)
(** * The MapReduce worker: [mr/worker.go], [main/mrsequential.go]

    [doMap] and [doReduce] compute the sequence of writes they make to the file
    system, so that a worker can be stopped between any two of them.  [sort.Sort]
    and [encoding/json] are interfaces with the laws the code relies on; both
    have instances at the end of the file. *)

From stdpp Require Import pretty.
From Stdlib Require Import Ascii.
From S2P Require Import Prelude MrCoordinator.

Module MrWorker.
Import MrCoordinator.

(** ** Data *)

Record KeyValue := mkKeyValue { Key : string; Value : string }.

#[export] Instance KeyValue_eq_dec : EqDecision KeyValue.
Proof. solve_decision. Defined.

(** [ByKey]: the order [sort.Sort] is given, [Less] being strict. *)
Definition Less (a b : KeyValue) : bool := String.ltb (Key a) (Key b).
Definition ByKey (a b : KeyValue) : Prop := String.le (Key a) (Key b).

(** What the code relies on of [sort.Sort(ByKey(l))], which is not stable: the
    result is some arrangement of [l] in the order. *)
Class SortByKey := {
  sort : list KeyValue → list KeyValue;
  sort_permutation : ∀ l, sort l ≡ₚ l;
  sort_sorted : ∀ l, Sorted ByKey (sort l)
}.

Definition nl : string := String "010" "".

(** What the code relies on of [encoding/json] for a [KeyValue]: [Encode] writes a
    value and a newline, [Decode] reads the next value of a stream, past white
    space, and leaves the rest; it fails at the end of the input.  Strings that
    are not valid UTF-8 do not survive, hence [json_valid]. *)
Class JsonCodec := {
  json_valid : KeyValue → Prop;
  Encode : KeyValue → string;
  Decode : string → option (KeyValue * string);
  Decode_Encode : ∀ kv rest, json_valid kv → Decode (Encode kv +:+ rest) = Some (kv, nl +:+ rest);
  Decode_nl : ∀ s, Decode (nl +:+ s) = Decode s;
  Decode_eof : Decode "" = None;
  Decode_consumes : ∀ s kv rest, Decode s = Some (kv, rest) → (String.length rest < String.length s)%nat
}.

(** ** [ihash]: 32-bit FNV-1a *)

Definition fnv_step (h : Z) (b : ascii) : Z := Z.lxor h (Z.of_N (N_of_ascii b)) * 16777619 mod 2 ^ 32.
Definition Sum32 (s : string) : Z := fold_left fnv_step (String.list_ascii_of_string s) 2166136261.
Definition ihash (key : string) : Z := Z.land (Sum32 key) 0x7fffffff.

(** ** The file system *)

Notation FS := (gmap string string).

(** [Append] is a write through the handle [Create] returned, while no one else
    writes the file. *)
Inductive FsOp := Create (name : string) | Append (name : string) (data : string).

Definition fs_op (fs : FS) (op : FsOp) : FS :=
  match op with
  | Create f => <[f := ""]> fs
  | Append f s => alter (λ c, c +:+ s) f fs
  end.

Definition fs_ops (ops : list FsOp) (fs : FS) : FS := fold_left fs_op ops fs.

(** ** [doMap] *)

Section Worker.
Context `{SortByKey, JsonCodec}.
Context (mapf : string → string → list KeyValue) (reducef : string → list string → string).

(** Reads and maps the inputs; [None] when one cannot be opened ([log.Fatalf]). *)
Fixpoint map_inputs (fs : FS) (fileNames : list string) : option (list KeyValue) :=
  match fileNames with
  | [] => Some []
  | f :: fns => content ← fs !! f; rest ← map_inputs fs fns; Some (mapf f content ++ rest)
  end.

Definition add_to_bulk (reduceN : Z) (bulks : gmap Z (list KeyValue)) (value : KeyValue) :=
  let reduceNumber := Z.rem (ihash (Key value)) reduceN in
  match bulks !! reduceNumber with
  | Some bulk => <[reduceNumber := bulk ++ [value]]> bulks
  | None => <[reduceNumber := [value]]> bulks
  end.

(** The pairs by reduce task, each group sorted; [None] is a division by zero. *)
Definition split_bulks (reduceN : Z) (intermediate : list KeyValue) : option (gmap Z (list KeyValue)) :=
  if (reduceN =? 0) && negb (bool_decide (intermediate = [])) then None
  else Some (sort <$> fold_left (add_to_bulk reduceN) intermediate ∅).

Definition write_bulk (taskId : Z) (bulks : gmap Z (list KeyValue)) (r : nat) : list FsOp :=
  let fileName := mr_file taskId (Z.of_nat r + 1) in
  Create fileName ::
  match bulks !! Z.of_nat r with
  | Some bulk => (λ kv, Append fileName (Encode kv)) <$> bulk
  | None => []
  end.

Definition doMap (fs : FS) (fileNames : list string) (taskId reduceN : Z) : option (list FsOp) :=
  intermediate ← map_inputs fs fileNames;
  bulks ← split_bulks reduceN intermediate;
  Some (concat (write_bulk taskId bulks <$> seq 0 (Z.to_nat reduceN))).

(** ** [doReduce] *)

Definition mr_out (taskId : Z) : string := "mr-out-" +:+ pretty taskId.

(** The decoding loop on one file; the fuel is the length of the file, and a
    file that cannot be opened reads as an empty one. *)
Fixpoint decode_loop (fuel : nat) (s : string) : list KeyValue :=
  match fuel with
  | O => []
  | S fuel => match Decode s with None => [] | Some (kv, rest) => kv :: decode_loop fuel rest end
  end.
Definition decode_file (fs : FS) (fileName : string) : list KeyValue :=
  let s := default "" (fs !! fileName) in decode_loop (S (String.length s)) s.

(** [j] runs from [i+1] to the end of the group of [i]. *)
Fixpoint group_end (fuel : nat) (l : list KeyValue) (i j : nat) : nat :=
  match fuel with
  | O => j
  | S fuel =>
      match l !! j, l !! i with
      | Some b, Some a => if String.eqb (Key b) (Key a) then group_end fuel l i (S j) else j
      | _, _ => j
      end
  end.

(** [fmt.Fprintf(ofile, "%v %v\n", key, output)]. *)
Definition out_line (key output : string) : string := key +:+ " " +:+ output +:+ nl.

(** The loop on the groups: the lines written; the fuel is the length of the list. *)
Fixpoint reduce_loop (fuel : nat) (l : list KeyValue) (i : nat) : list string :=
  match fuel with
  | O => []
  | S fuel =>
      match l !! i with
      | None => []
      | Some a =>
          let j := group_end (length l) l i (S i) in
          let values := Value <$> take (j - i) (drop i l) in
          out_line (Key a) (reducef (Key a) values) :: reduce_loop fuel l j
      end
  end.
Definition reduce_lines (intermediate : list KeyValue) : list string :=
  let l := sort intermediate in reduce_loop (length l) l 0.

Definition doReduce (fs : FS) (fileNames : list string) (taskId : Z) : list FsOp :=
  let fileName := mr_out taskId in
  let fs := fs_op fs (Create fileName) in
  let intermediate := concat (decode_file fs <$> fileNames) in
  Create fileName :: (Append fileName <$> reduce_lines intermediate).

(** ** [main/mrsequential.go] *)

Definition mrsequential (fs : FS) (files : list string) : option (list FsOp) :=
  intermediate ← map_inputs fs files;
  Some (Create "mr-out-0" :: (Append "mr-out-0" <$> reduce_lines intermediate)).

(** ** What a worker does with the task it is given *)

Definition worker_task (fs : FS) (reply : CoordinatorReply) : option (list FsOp) :=
  if String.eqb (cr_TaskType reply) "MAP" then
    doMap fs (cr_FileName reply) (cr_TaskId reply) (cr_ReduceN reply)
  else if String.eqb (cr_TaskType reply) "REDUCE" then
    Some (doReduce fs (cr_FileName reply) (cr_TaskId reply))
  else Some [].
End Worker.

(** ** Instances *)

#[export] Instance ByKey_dec : RelDecision ByKey.
Proof. intros a b. unfold ByKey. apply _. Defined.
#[export] Instance ByKey_total : Total ByKey.
Proof. intros a b. apply (total String.le). Qed.
#[export] Instance ByKey_trans : Transitive ByKey.
Proof. intros a b c. apply (transitivity (R := String.le)). Qed.

(** Sorted for [Less] is sorted for [ByKey]. *)
Lemma Less_ByKey a b : Less b a = false ↔ ByKey a b.
Proof.
  unfold Less, ByKey, String.le, String.ltb, String.leb. rewrite (String.compare_antisym (Key a)).
  destruct (Key b ?= Key a)%string; simpl; split; (done || by intros [] || by intros ?).
Qed.

(** A stable merge sort is one of the allowed sorts. *)
Definition merge_sort_by_key : SortByKey := {|
  sort := merge_sort ByKey;
  sort_permutation := merge_sort_Permutation ByKey;
  sort_sorted := Sorted_merge_sort ByKey
|}.
End MrWorker.
