(* ===== verification/MrWorkerFacts.v ===== *)
(** * Facts about the MapReduce worker

    The grouping loop against its reference, the contents [doMap] and [doReduce]
    leave in the files, and the names of those files. *)

From stdpp Require Import pretty.
From Stdlib Require Import Ascii.
From S2P Require Import Prelude MrCoordinator MrWorker.

Module MrWorkerFacts.
Import MrCoordinator MrWorker.

(** ** Reference definitions *)

(** The values of one key, in the order of the list. *)
Definition values_of (k : string) (l : list KeyValue) : list string :=
  Value <$> filter (λ kv, Key kv = k) l.

(** The distinct keys, in order. *)
Definition sorted_keys (l : list KeyValue) : list string :=
  merge_sort String.le (elements (list_to_set (Key <$> l) : gset string)).

Lemma elem_of_sorted_keys k l : k ∈ sorted_keys l ↔ k ∈ Key <$> l.
Proof. unfold sorted_keys. rewrite merge_sort_Permutation. set_solver. Qed.

Lemma NoDup_sorted_keys l : NoDup (sorted_keys l).
Proof. unfold sorted_keys. rewrite merge_sort_Permutation. apply NoDup_elements. Qed.

Lemma sorted_keys_sorted l : StronglySorted String.le (sorted_keys l).
Proof. apply (StronglySorted_merge_sort _). Qed.

(** It is the only list with these properties. *)
Lemma sorted_keys_unique ks l :
  StronglySorted String.le ks → NoDup ks → (∀ k, k ∈ ks ↔ k ∈ Key <$> l) → ks = sorted_keys l.
Proof.
  intros Hs Hn Hk. apply (StronglySorted_unique String.le); [done|apply sorted_keys_sorted|].
  apply NoDup_Permutation; [done|apply NoDup_sorted_keys|]. intros k. by rewrite Hk, elem_of_sorted_keys.
Qed.

#[export] Instance sorted_keys_Permutation : Proper ((≡ₚ) ==> (=)) sorted_keys.
Proof.
  intros l l' E. apply sorted_keys_unique;
    [apply sorted_keys_sorted|apply NoDup_sorted_keys|]. intros k. rewrite elem_of_sorted_keys. by rewrite E.
Qed.

Lemma values_of_app k l l' : values_of k (l ++ l') = values_of k l ++ values_of k l'.
Proof. unfold values_of. by rewrite filter_app, fmap_app. Qed.

#[export] Instance values_of_Permutation k : Proper ((≡ₚ) ==> (≡ₚ)) (values_of k).
Proof. intros l l' E. unfold values_of. by rewrite E. Qed.

Lemma values_of_all k l : (∀ kv, kv ∈ l → Key kv = k) → values_of k l = Value <$> l.
Proof.
  intros Hl. unfold values_of. f_equal. induction l as [|a l IH]; [done|].
  rewrite filter_cons, decide_True by (apply Hl; set_solver). f_equal. apply IH. set_solver.
Qed.

Lemma values_of_none k l : (∀ kv, kv ∈ l → Key kv ≠ k) → values_of k l = [].
Proof.
  intros Hl. unfold values_of. induction l as [|a l IH]; [done|].
  rewrite filter_cons, decide_False by (apply Hl; set_solver). apply IH. set_solver.
Qed.

(** ** The grouping loop *)

(** The inner loop stops at the first key that differs. *)
Lemma group_end_spec fuel l i j a :
  l !! i = Some a → (i < j)%nat → (length l - j ≤ fuel)%nat → 
  (∀ k b, (i ≤ k < j)%nat → l !! k = Some b → Key b = Key a) →
  let e := group_end fuel l i j in
  (j ≤ e)%nat ∧ (∀ k b, (i ≤ k < e)%nat → l !! k = Some b → Key b = Key a) ∧
  (∀ b, l !! e = Some b → Key b ≠ Key a).
Proof.
  revert j. induction fuel as [|fuel IH]; intros j Hi Hij Hf Hall; simpl.
  - split_and!; [lia|done|]. intros b Hb%lookup_lt_Some. lia.
  - destruct (l !! j) as [b|] eqn:Ej; [|by split_and!; [lia|done|rewrite Ej]]. rewrite Hi.
    destruct (String.eqb_spec (Key b) (Key a)) as [He|He].
    + destruct (IH (S j)) as (?&?&?); [done|lia|lia| |split_and!; [lia|done..]].
      intros k c Hk Hc. destruct (decide (k = j)) as [->|]; [by simplify_eq|]. apply (Hall k); [lia|done].
    + split_and!; [lia|done|]. intros c Hc. by simplify_eq.
Qed.

(** A group followed by strictly larger keys. *)
Lemma sorted_keys_group k g r :
  g ≠ [] → (∀ kv, kv ∈ g → Key kv = k) → (∀ kv, kv ∈ r → String.le k (Key kv) ∧ Key kv ≠ k) →
  sorted_keys (g ++ r) = k :: sorted_keys r.
Proof.
  intros Hne Hg Hr. symmetry. apply sorted_keys_unique.
  - apply SSorted_cons; [apply sorted_keys_sorted|]. apply Forall_forall.
    intros x (kv&->&?)%elem_of_sorted_keys%list_elem_of_fmap. by apply Hr.
  - constructor; [|apply NoDup_sorted_keys].
    intros (kv&->&?)%elem_of_sorted_keys%list_elem_of_fmap. by destruct (Hr kv).
  - intros x. rewrite elem_of_cons, elem_of_sorted_keys, fmap_app, elem_of_app. split; [|].
    + intros [->|?]; [|by right]. left. destruct g as [|b g]; [done|]. rewrite <- (Hg b) by set_solver. set_solver.
    + intros [(b&->&Hb)%list_elem_of_fmap|?]; [left|right]; auto.
Qed.

Lemma sorted_rest l i j a :
  StronglySorted ByKey l → l !! i = Some a → (i < j)%nat →
  (∀ b, l !! j = Some b → Key b ≠ Key a) →
  ∀ kv, kv ∈ drop j l → String.le (Key a) (Key kv) ∧ Key kv ≠ Key a.
Proof.
  intros Hs Hi Hij Hj kv [k Hk]%list_elem_of_lookup. rewrite lookup_drop in Hk.
  destruct (l !! j) as [b|] eqn:Eb.
  2: { apply lookup_ge_None in Eb. apply lookup_lt_Some in Hk. lia. }
  assert (Hle : ∀ x y (m n : nat), (m < n)%nat → l !! m = Some x → l !! n = Some y → ByKey x y).
  { clear -Hs. intros x y m n Hmn Hx Hy. rewrite <- (take_drop_middle l m x Hx) in Hs.
    apply (StronglySorted_app_1_r ByKey), StronglySorted_cons in Hs as [Hf _].
    rewrite Forall_forall in Hf. apply Hf. apply (list_elem_of_lookup_2 _ (n - S m)%nat).
    rewrite lookup_drop. by replace (S m + (n - S m))%nat with n by lia. }
  pose proof (Hle a b i j Hij Hi Eb) as Hab.
  assert (Hbk : ByKey b kv).
  { destruct k as [|k]; [rewrite Nat.add_0_r in Hk; simplify_eq; by unfold ByKey|].
    apply (Hle b kv j (j + S k)%nat); [lia|done..]. }
  split; [exact (transitivity Hab Hbk)|]. intros E. apply (Hj b); [done|].
  apply (anti_symm String.le); [|exact Hab]. rewrite <- E. exact Hbk.
Qed.

Section Grouping.
Context (reducef : string → list string → string).

Definition reduce_reference (l : list KeyValue) : list string :=
  (λ k, out_line k (reducef k (values_of k l))) <$> sorted_keys l.

Lemma reduce_loop_spec fuel l i :
  StronglySorted ByKey l → (length l - i ≤ fuel)%nat →
  reduce_loop reducef fuel l i = reduce_reference (drop i l).
Proof.
  intros Hs. revert i. induction fuel as [|fuel IH]; intros i Hf; simpl.
  - rewrite drop_ge by lia. done.
  - destruct (l !! i) as [a|] eqn:Ei; [|by rewrite drop_ge by (by apply lookup_ge_None)].
    pose proof (lookup_lt_Some _ _ _ Ei) as Hlt.
    destruct (group_end_spec (length l) l i (S i) a) as (Hj&Hgrp&Hend); [done|lia|lia| |].
    { intros k b Hk Hb. assert (k = i) as -> by lia. by simplify_eq. }
    set (j := group_end (length l) l i (S i)) in *. clearbody j.
    rewrite IH by lia. unfold reduce_reference.
    pose proof (sorted_rest l i j a Hs Ei ltac:(lia) Hend) as Hrest.
    assert (Hsplit : drop i l = take (j - i) (drop i l) ++ drop j l).
    { rewrite <- (take_drop (j - i) (drop i l)) at 1. rewrite drop_drop. do 2 f_equal. lia. }
    set (g := take (j - i) (drop i l)) in *.
    assert (Hg : ∀ kv, kv ∈ g → Key kv = Key a).
    { intros kv [k Hk]%list_elem_of_lookup. unfold g in Hk.
      apply lookup_take_Some in Hk as [Hk ?]. rewrite lookup_drop in Hk. apply (Hgrp (i + k)%nat); [lia|done]. }
    assert (Hne : g ≠ []).
    { intros E. apply (f_equal length) in E. unfold g in E. rewrite length_take, length_drop in E. simpl in E. lia. }
    rewrite Hsplit. rewrite (sorted_keys_group (Key a) g (drop j l)) by done. simpl. f_equal.
    + rewrite values_of_app, (values_of_all _ g), (values_of_none _ (drop j l)), app_nil_r; [done| |done].
      intros kv Hkv. by apply Hrest.
    + apply list_fmap_ext. intros n k Hk. f_equal. f_equal. rewrite values_of_app, (values_of_none k g); [done|].
      intros kv Hkv E. apply list_elem_of_lookup_2, elem_of_sorted_keys, list_elem_of_fmap in Hk as (kv'&->&Hkv').
      rewrite (Hg kv Hkv) in E. by destruct (Hrest kv' Hkv').
Qed.

Context `{SortByKey}.

Lemma reduce_lines_reference l : reduce_lines reducef l = reduce_reference (sort l).
Proof.
  unfold reduce_lines. apply reduce_loop_spec; [|lia].
  apply (Sorted_StronglySorted ByKey), sort_sorted.
Qed.

(** A reduce function that does not look at the order of the values. *)
Definition order_insensitive : Prop := ∀ k vs vs', vs ≡ₚ vs' → reducef k vs = reducef k vs'.

Lemma reduce_reference_Permutation l l' :
  order_insensitive → l ≡ₚ l' → reduce_reference l = reduce_reference l'.
Proof.
  intros Ho E. unfold reduce_reference. rewrite E. apply list_fmap_ext. intros n k _. f_equal.
  apply Ho. by rewrite E.
Qed.

Lemma reduce_lines_correct l : order_insensitive → reduce_lines reducef l = reduce_reference l.
Proof. intros Ho. rewrite reduce_lines_reference. apply reduce_reference_Permutation, sort_permutation. done. Qed.
End Grouping.

(** ** Hashing and partitioning *)

Lemma ihash_range k : 0 ≤ ihash k < 2 ^ 31.
Proof. unfold ihash. change 0x7fffffff with (Z.ones 31). rewrite Z.land_ones by lia. apply Z.mod_pos_bound. lia. Qed.

(** The reduce task of a key, of [n]. *)
Definition bucket (n : Z) (kv : KeyValue) : Z := Z.rem (ihash (Key kv)) n.

Lemma bucket_range n kv : 0 < n → 0 ≤ bucket n kv < n.
Proof. intros Hn. pose proof (ihash_range (Key kv)). apply Z.rem_bound_pos; lia. Qed.

Lemma add_to_bulk_lookup n l m r :
  default [] (fold_left (add_to_bulk n) l m !! r) = default [] (m !! r) ++ filter (λ kv, bucket n kv = r) l.
Proof.
  revert m. induction l as [|kv l IH]; intros m; simpl; [by rewrite app_nil_r|].
  rewrite IH, filter_cons. unfold add_to_bulk, bucket at 1.
  destruct (m !! Z.rem (ihash (Key kv)) n) as [b|] eqn:E;
    destruct (decide (Z.rem (ihash (Key kv)) n = r)) as [<-|Hne].
  - rewrite lookup_insert_eq, E, decide_True by done. simpl. by rewrite <- app_assoc.
  - by rewrite lookup_insert_ne, decide_False by done.
  - rewrite lookup_insert_eq, E, decide_True by done. done.
  - by rewrite lookup_insert_ne, decide_False by done.
Qed.

(** ** Files *)

Fixpoint cat (ss : list string) : string := match ss with [] => "" | s :: ss => s +:+ cat ss end.

Lemma app_String c s t : String c s +:+ t = String c (s +:+ t).
Proof. done. Qed.
Lemma app_empty s : s +:+ "" = s.
Proof. induction s as [|c s IH]; [done|]. by rewrite app_String, IH. Qed.
Lemma app_assoc' s t u : s +:+ (t +:+ u) = (s +:+ t) +:+ u.
Proof. induction s as [|c s IH]; [done|]. by rewrite !app_String, IH. Qed.

Lemma fs_ops_app ops ops' fs : fs_ops (ops ++ ops') fs = fs_ops ops' (fs_ops ops fs).
Proof. apply fold_left_app. Qed.

Lemma fs_ops_append f c ss fs :
  fs_ops (Append f <$> ss) (<[f := c]> fs) = <[f := c +:+ cat ss]> fs.
Proof.
  revert c. induction ss as [|s ss IH]; intros c; simpl; [by rewrite app_empty|].
  change (fs_ops (Append f <$> ss) (alter (λ c0, c0 +:+ s) f (<[f:=c]> fs)) = <[f:=c +:+ (s +:+ cat ss)]> fs).
  rewrite alter_insert_eq, IH. by rewrite app_assoc'.
Qed.

(** Creating a file and writing to it. *)
Lemma fs_ops_write f ss fs : fs_ops (Create f :: (Append f <$> ss)) fs = <[f := cat ss]> fs.
Proof. unfold fs_ops. simpl. fold (fs_ops (Append f <$> ss) (<[f:=""]> fs)). by rewrite fs_ops_append. Qed.

(** ** File names *)

Fixpoint string_forall (p : ascii → bool) (s : string) : bool :=
  match s with EmptyString => true | String c s => p c && string_forall p s end.
Definition digit (c : ascii) : bool := bool_decide (is_Some (Ascii.is_nat c)).
Definition not_dash (c : ascii) : bool := negb (Ascii.eqb c "-").

Lemma digits_pretty_N_go x s : string_forall digit s = true → string_forall digit (pretty_N_go x s) = true.
Proof.
  revert s. induction (N.lt_wf_0 x) as [x _ IH]; intros s Hs.
  assert (x = 0 ∨ 0 < x)%N as [->|?] by lia; [done|].
  rewrite pretty_N_go_step by done. apply IH; [by apply N.div_lt|]. simpl. rewrite Hs, andb_true_r.
  destruct (x mod 10)%N as [|d]; [done|]. by do 4 (destruct d as [d|d|]; try done).
Qed.

Lemma digits_pretty z : 0 ≤ z → string_forall digit (pretty z) = true.
Proof.
  intros Hz. unfold pretty, pretty_Z. destruct z as [|p|p]; [done| |lia].
  change (string_forall digit (pretty_N (Npos p)) = true). unfold pretty_N.
  rewrite decide_False by done. by apply digits_pretty_N_go.
Qed.

Lemma no_dash_pretty z : 0 ≤ z → string_forall not_dash (pretty z) = true.
Proof.
  intros Hz%digits_pretty. induction (pretty z) as [|c s IH]; [done|]. simpl in *. bools.
  rewrite IH, andb_true_r by done. unfold not_dash. destruct (Ascii.eqb_spec c "-") as [->|]; [|done].
  by vm_compute in H.
Qed.

Lemma split_at_dash a a' b b' :
  string_forall not_dash a = true → string_forall not_dash a' = true → a +:+ "-" +:+ b = a' +:+ "-" +:+ b' → a = a' ∧ b = b'.
Proof.
  revert a'. induction a as [|c a IH]; intros [|c' a'] Ha Ha' H; simpl in Ha, Ha'.
  - change (String "-" b = String "-" b') in H. by injection H as ->.
  - change (String "-" b = String c' (a' +:+ "-" +:+ b')) in H. by injection H as <- _.
  - change (String c (a +:+ "-" +:+ b) = String "-" b') in H. by injection H as -> _.
  - rewrite !app_String in H. injection H as -> H. bools. destruct (IH a') as [-> ->]; done.
Qed.

Lemma mr_file_inj m r m' r' :
  0 ≤ m → 0 ≤ m' → mr_file m r = mr_file m' r' → m = m' ∧ r = r'.
Proof.
  intros Hm Hm' H. unfold mr_file in H. apply (inj (String.append "mr-")) in H.
  apply split_at_dash in H as [?%(inj pretty) ?%(inj pretty)]; auto using no_dash_pretty.
Qed.

Lemma mr_file_not_out m r k : 0 ≤ m → mr_file m r ≠ mr_out k.
Proof.
  intros Hm H. unfold mr_file, mr_out in H.
  change ("mr-out-" +:+ pretty k) with ("mr-" +:+ ("out" +:+ "-" +:+ pretty k)) in H.
  apply (inj (String.append "mr-")) in H. apply split_at_dash in H as [E _]; [|by apply no_dash_pretty|done].
  pose proof (digits_pretty m Hm) as Hd. rewrite E in Hd. by vm_compute in Hd.
Qed.

Lemma mr_out_inj k k' : mr_out k = mr_out k' → k = k'.
Proof. unfold mr_out. by intros ?%(inj _)%(inj pretty). Qed.
End MrWorkerFacts.
