(* ===== verification/MrContents.v ===== *)
(** * What the worker leaves in the files

    The contents of the intermediate and output files after [doMap] and
    [doReduce], and the output of all reduce tasks against the sequential
    program's. *)

From stdpp Require Import pretty.
From S2P Require Import Prelude MrCoordinator MrWorker MrWorkerFacts.

Module MrContents.
Import MrCoordinator MrWorker MrWorkerFacts.

(** The pairs of reduce task [r] (counted from 0) of [n]. *)
Definition part (n r : Z) (l : list KeyValue) : list KeyValue := filter (λ kv, bucket n kv = r) l.

#[export] Instance part_Permutation n r : Proper ((≡ₚ) ==> (≡ₚ)) (part n r).
Proof. intros l l' E. unfold part. by rewrite E. Qed.

Lemma part_app n r l l' : part n r (l ++ l') = part n r l ++ part n r l'.
Proof. apply filter_app. Qed.

(** ** [doMap] *)

Section Map.
Context `{SortByKey, JsonCodec}.

Definition bulk_contents (bulks : gmap Z (list KeyValue)) (r : nat) : string :=
  cat (Encode <$> default [] (bulks !! Z.of_nat r)).

Lemma write_bulk_ops t bulks r fs :
  fs_ops (write_bulk t bulks r) fs = <[mr_file t (Z.of_nat r + 1) := bulk_contents bulks r]> fs.
Proof.
  unfold write_bulk, bulk_contents. rewrite <- fs_ops_write. f_equal. f_equal.
  destruct (bulks !! Z.of_nat r) as [b|]; [|done]. simpl. by rewrite <- list_fmap_compose.
Qed.

Lemma write_bulks_snoc t bulks rs r fs :
  fs_ops (concat (write_bulk t bulks <$> (rs ++ [r]))) fs =
  <[mr_file t (Z.of_nat r + 1) := bulk_contents bulks r]> (fs_ops (concat (write_bulk t bulks <$> rs)) fs).
Proof. rewrite fmap_app, concat_app, fs_ops_app. cbn [fmap list_fmap concat]. by rewrite app_nil_r, write_bulk_ops. Qed.

Lemma write_bulks_lookup t bulks rs r fs :
  0 ≤ t → r ∈ rs →
  fs_ops (concat (write_bulk t bulks <$> rs)) fs !! mr_file t (Z.of_nat r + 1) = Some (bulk_contents bulks r).
Proof.
  intros Ht Hr. induction rs as [|x rs IH] using rev_ind; [set_solver|]. rewrite write_bulks_snoc.
  destruct (decide (r = x)) as [->|Hne]; [by rewrite lookup_insert_eq|].
  rewrite lookup_insert_ne; [apply IH; set_solver|]. intros [_ ?]%mr_file_inj; lia.
Qed.

Lemma write_bulks_lookup_ne t bulks rs f fs :
  (∀ r, f ≠ mr_file t r) → fs_ops (concat (write_bulk t bulks <$> rs)) fs !! f = fs !! f.
Proof.
  intros Hf. induction rs as [|x rs IH] using rev_ind; [done|]. rewrite write_bulks_snoc.
  by rewrite lookup_insert_ne by (symmetry; apply Hf).
Qed.

Lemma sort_nil : sort [] = [].
Proof. apply Permutation_nil_r, sort_permutation. Qed.

Lemma split_bulks_lookup n l :
  0 < n → ∃ bulks, split_bulks n l = Some bulks ∧ ∀ r, default [] (bulks !! r) = sort (part n r l).
Proof.
  intros Hn. unfold split_bulks. destruct (Z.eqb_spec n 0); [lia|]. simpl. eexists. split; [done|].
  intros r. rewrite lookup_fmap. pose proof (add_to_bulk_lookup n l ∅ r) as E. rewrite lookup_empty in E.
  simpl in E. unfold part. rewrite <- E. destruct (_ !! r); simpl; [done|]. by rewrite sort_nil.
Qed.

Context (mapf : string → string → list KeyValue).

(** The writes of a successful [doMap]: file [r] holds the pairs of reduce task
    [r], and no other file changes. *)
Lemma doMap_spec fs fns t n kvs :
  0 ≤ t → 0 < n → map_inputs mapf fs fns = Some kvs →
  ∃ ops, doMap mapf fs fns t n = Some ops ∧
  (∀ fs' r, 0 ≤ r < n → fs_ops ops fs' !! mr_file t (r + 1) = Some (cat (Encode <$> sort (part n r kvs)))) ∧
  (∀ fs' f, (∀ r, f ≠ mr_file t r) → fs_ops ops fs' !! f = fs' !! f).
Proof.
  intros Ht Hn Hkvs. destruct (split_bulks_lookup n kvs Hn) as (bulks&Hb&Hl).
  unfold doMap. rewrite Hkvs. simpl. rewrite Hb. simpl. eexists. split; [done|]. split.
  - intros fs' r Hr. rewrite <- (Z2Nat.id r) at 1 by lia. rewrite write_bulks_lookup; [|done|].
    + unfold bulk_contents. by rewrite Hl, Z2Nat.id by lia.
    + apply elem_of_seq. lia.
  - intros fs' f Hf. by apply write_bulks_lookup_ne.
Qed.

(** ** The decoding loop *)

Lemma decode_loop_nl fuel s : decode_loop fuel (nl +:+ s) = decode_loop fuel s.
Proof. destruct fuel; simpl; [done|]. by rewrite Decode_nl. Qed.

Lemma decode_loop_cat fuel kvs :
  Forall json_valid kvs → (String.length (cat (Encode <$> kvs)) < fuel)%nat →
  decode_loop fuel (cat (Encode <$> kvs)) = kvs.
Proof.
  revert fuel. induction kvs as [|kv kvs IH]; intros fuel Hv Hf; (destruct fuel as [|fuel]; [lia|]); csimpl.
  - by rewrite Decode_eof.
  - apply Forall_cons in Hv as [Hkv Hv]. csimpl in *.
    pose proof (Decode_Encode kv (cat (Encode <$> kvs)) Hkv) as E. rewrite E, decode_loop_nl.
    f_equal. apply IH; [done|]. apply Decode_consumes in E.
    change (S (String.length (cat (Encode <$> kvs))) < String.length (Encode kv +:+ cat (Encode <$> kvs)))%nat in E. lia.
Qed.

Lemma decode_file_cat (fs : FS) f kvs :
  Forall json_valid kvs → fs !! f = Some (cat (Encode <$> kvs)) → decode_file fs f = kvs.
Proof. intros Hv Hf. unfold decode_file. rewrite Hf. apply decode_loop_cat; [done|simpl; lia]. Qed.

(** ** [doReduce] *)

Context (reducef : string → list string → string).

Lemma doReduce_spec fs fns t fs' :
  mr_out t ∉ fns →
  fs_ops (doReduce reducef fs fns t) fs' =
  <[mr_out t := cat (reduce_lines reducef (concat (decode_file fs <$> fns)))]> fs'.
Proof.
  intros Hnin. unfold doReduce. rewrite fs_ops_write.
  assert (decode_file (fs_op fs (Create (mr_out t))) <$> fns = decode_file fs <$> fns) as ->; [|done].
  apply list_fmap_ext. intros i f Hf. unfold decode_file, fs_op.
  rewrite lookup_insert_ne; [done|]. intros <-. apply Hnin. by eapply list_elem_of_lookup_2.
Qed.
End Map.

(** ** All the reduce tasks together *)

Lemma fmap_concat {A B} (f : A → B) (ls : list (list A)) : f <$> concat ls = concat ((λ l : list A, f <$> l) <$> ls).
Proof. induction ls as [|l ls IH]; csimpl; [done|]. by rewrite fmap_app, IH. Qed.

Lemma sorted_keys_part n r l :
  sorted_keys (part n r l) = filter (λ k, bucket n (mkKeyValue k "") = r) (sorted_keys l).
Proof.
  symmetry. apply sorted_keys_unique.
  - apply StronglySorted_filter, sorted_keys_sorted.
  - apply NoDup_filter, NoDup_sorted_keys.
  - intros k. rewrite list_elem_of_filter, elem_of_sorted_keys, !list_elem_of_fmap. unfold part.
    setoid_rewrite list_elem_of_filter. unfold bucket. simpl. naive_solver.
Qed.

Lemma values_of_part n k l : values_of k (part n (bucket n (mkKeyValue k "")) l) = values_of k l.
Proof.
  unfold values_of, part. f_equal. rewrite list_filter_filter. apply list_filter_iff.
  intros kv. unfold bucket. simpl. naive_solver.
Qed.

(** Splitting a list by a function with values below [n] loses nothing. *)
Lemma filter_partition {A} (f : A → nat) (n : nat) (l : list A) :
  (∀ x, x ∈ l → (f x < n)%nat) → concat ((λ r : nat, filter (λ x, f x = r) l) <$> seq 0 n) ≡ₚ l.
Proof.
  revert l. induction n as [|n IH]; intros l Hl.
  - destruct l as [|x l]; [done|]. specialize (Hl x). set_solver by lia.
  - rewrite seq_S, fmap_app, concat_app. simpl. rewrite app_nil_r.
    assert (Hc : concat ((λ r : nat, filter (λ x, f x = r) l) <$> seq 0 n) =
                 concat ((λ r : nat, filter (λ x, f x = r) (filter (λ x, f x ≠ n) l)) <$> seq 0 n)).
    { f_equal. apply list_fmap_ext. intros i r Hr. apply lookup_seq in Hr as [-> Hi].
      rewrite list_filter_filter. apply list_filter_iff. intros x. lia. }
    rewrite Hc, IH.
    + rewrite Permutation_app_comm. apply (filter_app_complement (λ x, f x = n)).
    + intros x [Hne Hx]%list_elem_of_filter. specialize (Hl x Hx). lia.
Qed.

Section Together.
Context (reducef : string → list string → string).

Lemma reduce_reference_part n r l :
  reduce_reference reducef (part n r l) =
  (λ k, out_line k (reducef k (values_of k l))) <$>
    filter (λ k, bucket n (mkKeyValue k "") = r) (sorted_keys l).
Proof.
  unfold reduce_reference. rewrite sorted_keys_part. apply list_fmap_ext. intros i k Hk.
  apply list_elem_of_lookup_2, list_elem_of_filter in Hk as [<- _]. by rewrite values_of_part.
Qed.

Lemma reduce_reference_partition (n : Z) l :
  0 < n →
  concat ((λ p : nat, reduce_reference reducef (part n (Z.of_nat p) l)) <$> seq 0 (Z.to_nat n)) ≡ₚ
  reduce_reference reducef l.
Proof.
  intros Hn. unfold reduce_reference at 2.
  rewrite <- (filter_partition (λ k, Z.to_nat (bucket n (mkKeyValue k ""))) (Z.to_nat n) (sorted_keys l)).
  - rewrite fmap_concat, <- list_fmap_compose. match goal with |- ?a ≡ₚ ?b => enough (a = b) as -> by done end. apply f_equal, list_fmap_ext. intros i p _. simpl.
    rewrite reduce_reference_part. f_equal. apply list_filter_iff. intros k.
    pose proof (bucket_range n (mkKeyValue k "") Hn). lia.
  - intros k _. pose proof (bucket_range n (mkKeyValue k "") Hn). lia.
Qed.
End Together.
End MrContents.
