(* ===== verification/MrSystem.v ===== *)
(** * The MapReduce job: coordinator, workers and files

    Any number of workers ask the coordinator for tasks, run them on the shared
    file system and report; workers crash at any point, run late after their
    task was given to another worker, and time-outs strike at any time.  The
    writes of one task are one step here; [zombie_map_corrupts_output] shows that
    this is needed. *)

From stdpp Require Import pretty.
From S2P Require Import Prelude MrCoordinator MrCoordinatorFacts MrWorker MrWorkerFacts MrContents.

Module MrSystem.
Import MrCoordinator MrCoordinatorFacts MrWorker MrWorkerFacts MrContents.

(** A worker inside its loop: it has a task to run, or has run it and is about to
    call [HandleFinish].  A worker that waits for a task has no state. *)
Inductive WorkerState := Working (reply : CoordinatorReply) | Reporting (reply : CoordinatorReply).

Definition task_of (w : WorkerState) : CoordinatorReply :=
  match w with Working r | Reporting r => r end.

Record System := mkSystem { coord : Coordinator; files_of : FS; workers : list WorkerState }.

Inductive SLabel :=
  | Ask                     (* a worker calls HandleWorker *)
  | Work (k : nat)          (* worker k runs its task *)
  | Report (k : nat)        (* worker k calls HandleFinish and loops *)
  | Crash (k : nat)         (* worker k dies *)
  | Expire (k : nat).       (* a time-out goroutine of the coordinator *)

(** What the inputs map to, input by input. *)
Lemma map_inputs_pairs (mapf : string → string → list KeyValue) fs fns kvs :
  map_inputs mapf fs fns = Some kvs →
  kvs = concat ((λ f, default [] (c ← fs !! f; Some (mapf f c))) <$> fns) ∧ ∀ f, f ∈ fns → is_Some (fs !! f).
Proof.
  revert kvs. induction fns as [|f fns IH]; intros kvs Hk; simpl in Hk; [simplify_eq; set_solver|].
  destruct (fs !! f) as [c|] eqn:Ef; simpl in Hk; [|done].
  destruct (map_inputs mapf fs fns) as [rest|]; simpl in Hk; [|done]. simplify_eq.
  destruct (IH rest eq_refl) as [-> Hf]. csimpl. rewrite Ef. split; [done|]. set_solver.
Qed.

Section Job.
Context `{SortByKey, JsonCodec}.
Context (mapf : string → string → list KeyValue) (reducef : string → list string → string).

Definition is_task (reply : CoordinatorReply) : bool :=
  String.eqb (cr_TaskType reply) "MAP" || String.eqb (cr_TaskType reply) "REDUCE".

(** [Worker] of [mr/worker.go] as steps; a task that ends in [log.Fatalf] ends its
    worker. *)
Definition sys_exec (s : System) (l : SLabel) : option System :=
  match l with
  | Ask =>
      '(c, reply) ← HandleWorker (coord s);
      Some (mkSystem c (files_of s) (if is_task reply then workers s ++ [Working reply] else workers s))
  | Work k =>
      match workers s !! k with
      | Some (Working reply) =>
          match worker_task mapf reducef (files_of s) reply with
          | Some ops => Some (mkSystem (coord s) (fs_ops ops (files_of s)) (<[k := Reporting reply]> (workers s)))
          | None => Some (mkSystem (coord s) (files_of s) (delete k (workers s)))
          end
      | _ => None
      end
  | Report k =>
      match workers s !! k with
      | Some (Reporting reply) =>
          c ← HandleFinish (mkCoordinatorFinishArgs (cr_TaskId reply) (cr_TaskType reply)) (coord s);
          Some (mkSystem c (files_of s) (delete k (workers s)))
      | _ => None
      end
  | Crash k => Some (mkSystem (coord s) (files_of s) (delete k (workers s)))
  | Expire k => c ← timeout k (coord s); Some (mkSystem c (files_of s) (workers s))
  end.

Fixpoint sys_run (s : System) (ls : list SLabel) : option System :=
  match ls with [] => Some s | l :: ls => s ← sys_exec s l; sys_run s ls end.

Context (files : list string) (nReduce : Z) (fs0 : FS) (all : list KeyValue).

Definition sys_start : System := mkSystem (MakeCoordinator files nReduce) fs0 [].
Definition sys_reachable (s : System) : Prop := ∃ ls, sys_run sys_start ls = Some s.

(** The inputs exist and are not named like files of the job; the pairs they map
    to survive JSON; there is a reduce task. *)
Record job_ok : Prop := {
  jo_inputs : map_inputs mapf fs0 files = Some all;
  jo_names : ∀ f, f ∈ files → ∀ m r, f ≠ mr_file m r ∧ f ≠ mr_out r;
  jo_valid : Forall json_valid all;
  jo_reduces : 0 < nReduce
}.

Context (job : job_ok).

(** ** The invariant *)

(** The pairs of input [p]. *)
Definition pairs_of (p : nat) : list KeyValue :=
  default [] (f ← files !! p; c ← fs0 !! f; Some (mapf f c)).

Definition map_written (fs : FS) (p : nat) : Prop :=
  ∀ r, 0 ≤ r < nReduce →
    fs !! mr_file (Z.of_nat p + 1) (r + 1) = Some (cat (Encode <$> sort (part nReduce r (pairs_of p)))).

(** What reduce task [p] reads when every map task is written. *)
Definition reduce_input (p : nat) : list KeyValue :=
  concat ((λ m, sort (part nReduce (Z.of_nat p) (pairs_of m))) <$> seq 0 (length files)).

Definition reduce_written (fs : FS) (p : nat) : Prop :=
  fs !! mr_out (Z.of_nat p + 1) = Some (cat (reduce_lines reducef (reduce_input p))).

Definition map_reply (p : nat) (reply : CoordinatorReply) : Prop :=
  ∃ f, files !! p = Some f ∧ reply = mkCoordinatorReply [f] "MAP" (Z.of_nat p + 1) nReduce.
Definition reduce_reply (p : nat) (reply : CoordinatorReply) : Prop :=
  (p < Z.to_nat nReduce)%nat ∧
  reply = mkCoordinatorReply ((λ j : nat, mr_file (Z.of_nat j + 1) (Z.of_nat p + 1)) <$> seq 0 (length files))
            "REDUCE" (Z.of_nat p + 1) nReduce.

Definition worker_ok (s : System) (w : WorkerState) : Prop :=
  match w with
  | Working reply =>
      (∃ p, map_reply p reply) ∨ ((∃ p, reduce_reply p reply) ∧ maps_finished (coord s))
  | Reporting reply =>
      (∃ p, map_reply p reply ∧ map_written (files_of s) p) ∨
      (∃ p, reduce_reply p reply ∧ reduce_written (files_of s) p)
  end.

Record sys_ok (s : System) : Prop := {
  so_coord : ok files nReduce (coord s);
  so_inputs : ∀ f, f ∈ files → files_of s !! f = fs0 !! f;
  so_maps : ∀ p t, mheap (coord s) !! p = Some t → mt_Status t = FINISHED → map_written (files_of s) p;
  so_reduces : ∀ p t, rheap (coord s) !! p = Some t → rt_Status t = FINISHED → reduce_written (files_of s) p;
  so_workers : ∀ w, w ∈ workers s → worker_ok s w
}.

Lemma all_pairs : all = concat (pairs_of <$> seq 0 (length files)).
Proof using job.
  destruct (map_inputs_pairs _ _ _ _ (jo_inputs job)) as [-> _]. f_equal.
  apply list_eq. intros p. rewrite !list_lookup_fmap. unfold pairs_of.
  destruct (files !! p) as [f|] eqn:Ef; simpl.
  - rewrite lookup_seq_lt by (by eapply lookup_lt_Some). simpl. by rewrite Ef.
  - apply lookup_ge_None in Ef. by rewrite lookup_seq_ge.
Qed.

Lemma pairs_valid p : (p < length files)%nat → Forall json_valid (pairs_of p).
Proof using job.
  intros Hp. pose proof (jo_valid job) as Hv. rewrite all_pairs in Hv. apply Forall_concat in Hv.
  rewrite Forall_fmap, Forall_forall in Hv. apply Hv, elem_of_seq. lia.
Qed.

Lemma map_input_content s f :
  sys_ok s → f ∈ files → ∃ c, files_of s !! f = Some c ∧ fs0 !! f = Some c.
Proof using job.
  intros Hok Hf. destruct (map_inputs_pairs _ _ _ _ (jo_inputs job)) as [_ Hs]. destruct (Hs f Hf) as [c Hc].
  exists c. by rewrite (so_inputs s Hok f Hf).
Qed.

(** ** Running a task *)

(** A map task writes its files and touches nothing else. *)
Lemma work_map s p reply :
  sys_ok s → map_reply p reply →
  ∃ ops, worker_task mapf reducef (files_of s) reply = Some ops ∧
    let fs' := fs_ops ops (files_of s) in
    map_written fs' p ∧ (∀ q, map_written (files_of s) q → map_written fs' q) ∧
    (∀ q, fs' !! mr_out q = files_of s !! mr_out q) ∧ (∀ f, f ∈ files → fs' !! f = files_of s !! f).
Proof using job.
  intros Hok (f&Hf&->). unfold worker_task. simpl.
  destruct (map_input_content s f Hok) as (c&Hc&Hc0); [by eapply list_elem_of_lookup_2|].
  assert (Hin : map_inputs mapf (files_of s) [f] = Some (pairs_of p)).
  { simpl. rewrite Hc. simpl. unfold pairs_of. rewrite Hf. simpl. rewrite Hc0. simpl. by rewrite app_nil_r. }
  destruct (doMap_spec mapf (files_of s) [f] (Z.of_nat p + 1) nReduce (pairs_of p)) as (ops&->&Hw&Hne);
    [lia|apply (jo_reduces job)|done|].
  exists ops. split; [done|]. cbn zeta.
  assert (Hp : map_written (fs_ops ops (files_of s)) p) by (intros r Hr; by apply Hw).
  split_and!; [done|..].
  - intros q Hq. destruct (decide (q = p)) as [->|Hqp]; [done|]. intros r Hr. rewrite Hne; [by apply Hq|].
    intros r' [? _]%mr_file_inj; lia.
  - intros q. apply Hne. intros r E. symmetry in E. revert E. apply mr_file_not_out. lia.
  - intros g Hg. apply Hne. intros r. by apply (jo_names job).
Qed.

(** A reduce task, once every map task is finished, writes its output and touches
    nothing else. *)
Lemma work_reduce s p reply :
  sys_ok s → maps_finished (coord s) → reduce_reply p reply →
  ∃ ops, worker_task mapf reducef (files_of s) reply = Some ops ∧
    let fs' := fs_ops ops (files_of s) in
    reduce_written fs' p ∧ (∀ q, reduce_written (files_of s) q → reduce_written fs' q) ∧
    (∀ q, map_written (files_of s) q → map_written fs' q) ∧ (∀ f, f ∈ files → fs' !! f = files_of s !! f).
Proof using job.
  intros Hok Hfin (Hp&->). unfold worker_task. simpl. eexists. split; [done|]. cbn zeta.
  rewrite doReduce_spec.
  2: { intros (j&E&_)%list_elem_of_fmap. symmetry in E. revert E. apply mr_file_not_out. lia. }
  set (lines := reduce_lines _ _).
  assert (Hl : lines = reduce_lines reducef (reduce_input p)).
  { unfold lines. f_equal. unfold reduce_input. f_equal. rewrite <- list_fmap_compose. apply list_fmap_ext.
    intros i m Hm. apply lookup_seq in Hm as [-> Hi]. simpl. apply decode_file_cat.
    - rewrite sort_permutation, Forall_forall. intros kv [_ Hkv]%list_elem_of_filter.
      assert (Hv := pairs_valid i ltac:(lia)). rewrite Forall_forall in Hv. auto.
    - pose proof (static_active _ _ _ (ok_static _ _ _ (so_coord s Hok))) as (_&_&Hlen&_).
      destruct (lookup_lt_is_Some_2 (mheap (coord s)) i) as [t Ht]; [lia|].
      apply (so_maps s Hok i t Ht (Hfin i t Ht)). lia. }
  rewrite Hl. clear Hl lines.
  assert (Hq : reduce_written (<[mr_out (Z.of_nat p + 1):=cat (reduce_lines reducef (reduce_input p))]> (files_of s)) p)
    by (unfold reduce_written; by rewrite lookup_insert_eq).
  split_and!; [done|..].
  - intros q Hw. destruct (decide (q = p)) as [->|Hqp]; [done|]. unfold reduce_written.
    rewrite lookup_insert_ne; [done|]. intros ?%mr_out_inj. lia.
  - intros q Hw r Hr. rewrite lookup_insert_ne; [by apply Hw|]. intros E. symmetry in E. revert E.
    apply mr_file_not_out. lia.
  - intros f Hf. rewrite lookup_insert_ne; [done|]. intros E. by destruct (jo_names job f Hf 0 (Z.of_nat p + 1)).
Qed.

(** ** Preservation *)

Lemma worker_ok_mono s s' w :
  (maps_finished (coord s) → maps_finished (coord s')) →
  (∀ q, map_written (files_of s) q → map_written (files_of s') q) →
  (∀ q, reduce_written (files_of s) q → reduce_written (files_of s') q) →
  worker_ok s w → worker_ok s' w.
Proof.
  intros Hf Hm Hr. destruct w as [reply|reply]; simpl.
  - intros [?|[? ?]]; [by left|right; auto].
  - intros [(p&?&?)|(p&?&?)]; [left|right]; exists p; auto.
Qed.

(** A task was run: the files change, and worker [k] goes on to report. *)
Lemma sys_ok_files s fs' k w :
  sys_ok s →
  (∀ q, map_written (files_of s) q → map_written fs' q) →
  (∀ q, reduce_written (files_of s) q → reduce_written fs' q) →
  (∀ f, f ∈ files → fs' !! f = files_of s !! f) →
  worker_ok (mkSystem (coord s) fs' []) w →
  sys_ok (mkSystem (coord s) fs' (<[k := w]> (workers s))).
Proof.
  intros Hok Hm Hr Hi Hw. split; simpl.
  - apply (so_coord s Hok).
  - intros f Hf. rewrite Hi by done. by apply (so_inputs s Hok).
  - intros p t Hp Hs. by eapply Hm, (so_maps s Hok).
  - intros p t Hp Hs. by eapply Hr, (so_reduces s Hok).
  - intros v [j Hj]%list_elem_of_lookup. apply list_lookup_insert_Some in Hj as [(_&<-&_)|[_ Hj]].
    + by destruct w.
    + eapply (worker_ok_mono s); [done..|]. by eapply (so_workers s Hok), list_elem_of_lookup_2.
Qed.

(** The coordinator moved and some workers left: what is newly finished was
    written. *)
Lemma sys_ok_coord s c ws :
  sys_ok s → ok files nReduce c → keeps_finished (coord s) c →
  (∀ p t, mheap c !! p = Some t → mt_Status t = FINISHED →
     (∃ u, mheap (coord s) !! p = Some u ∧ mt_Status u = FINISHED) ∨ map_written (files_of s) p) →
  (∀ p t, rheap c !! p = Some t → rt_Status t = FINISHED →
     (∃ u, rheap (coord s) !! p = Some u ∧ rt_Status u = FINISHED) ∨ reduce_written (files_of s) p) →
  (∀ w, w ∈ ws → w ∈ workers s ∨ worker_ok (mkSystem c (files_of s) []) w) →
  sys_ok (mkSystem c (files_of s) ws).
Proof.
  intros Hok Hc Hk Hm Hr Hws. split; simpl; [done|apply (so_inputs s Hok)|..].
  - intros p t Hp Hs. destruct (Hm p t Hp Hs) as [(u&?&?)|?]; [by eapply (so_maps s Hok)|done].
  - intros p t Hp Hs. destruct (Hr p t Hp Hs) as [(u&?&?)|?]; [by eapply (so_reduces s Hok)|done].
  - intros w Hw. destruct (Hws w Hw) as [Hin|Hw']; [|by destruct w].
    eapply (worker_ok_mono s); [|done|done|by apply (so_workers s Hok)].
    intros Hf. eapply maps_finished_keeps; [apply (so_coord s Hok)|done..].
Qed.

Lemma elem_of_delete_list {A} (l : list A) k x : x ∈ delete k l → x ∈ l.
Proof. intros Hx. eapply sublist_subseteq, Hx. apply sublist_delete. Qed.

Lemma sys_ok_Work s k s' : sys_ok s → sys_exec s (Work k) = Some s' → sys_ok s'.
Proof using job.
  intros Hok Hx. simpl in Hx. destruct (workers s !! k) as [[reply|reply]|] eqn:Ek; [|done..].
  destruct (so_workers s Hok _ (list_elem_of_lookup_2 _ _ _ Ek)) as [[p Hp]|[[p Hp] Hfin]].
  - destruct (work_map s p reply Hok Hp) as (ops&E&Hw&Hm&Ho&Hi). rewrite E in Hx. simplify_eq.
    apply sys_ok_files; [done|done| |done|].
    + intros q Hq. unfold reduce_written. by rewrite Ho.
    + left. eauto.
  - destruct (work_reduce s p reply Hok Hfin Hp) as (ops&E&Hw&Hr&Hm&Hi). rewrite E in Hx. simplify_eq.
    apply sys_ok_files; [done..|]. right. eauto.
Qed.

(** Who becomes finished: nobody but the target of a swap to FINISHED. *)
Lemma cas_map_finished a v p c c' :
  cas_map p a v c = Some c' → rheap c' = rheap c ∧
  ∀ q t, mheap c' !! q = Some t → mt_Status t = FINISHED →
    (∃ u, mheap c !! q = Some u ∧ mt_Status u = FINISHED) ∨ (q = p ∧ v = FINISHED).
Proof.
  unfold cas_map. intros Hx. destruct (mheap c !! p) as [t|]; simpl in Hx; [|done]. simplify_eq.
  destruct (mt_Status t =? a); [|eauto]. split; [done|]. simpl.
  intros q u [(->&<-&_)|[_ Hq]]%list_lookup_insert_Some Hs; eauto.
Qed.

Lemma cas_reduce_finished a v p c c' :
  cas_reduce p a v c = Some c' → mheap c' = mheap c ∧
  ∀ q t, rheap c' !! q = Some t → rt_Status t = FINISHED →
    (∃ u, rheap c !! q = Some u ∧ rt_Status u = FINISHED) ∨ (q = p ∧ v = FINISHED).
Proof.
  unfold cas_reduce. intros Hx. destruct (rheap c !! p) as [t|]; simpl in Hx; [|done]. simplify_eq.
  destruct (rt_Status t =? a); [|eauto]. split; [done|]. simpl.
  intros q u [(->&<-&_)|[_ Hq]]%list_lookup_insert_Some Hs; eauto.
Qed.

Lemma sys_ok_Ask s s' : sys_ok s → sys_exec s Ask = Some s' → sys_ok s'.
Proof.
  intros Hok Hx. pose proof (so_coord s Hok) as Hc. simpl in Hx.
  assert (HN : ReduceN (coord s) = nReduce) by (by destruct (ok_static _ _ _ Hc) as [_ _ [=]]).
  destruct (HandleWorker_cases _ _ _ Hc) as (c'&reply&E&Hcase). rewrite E in Hx. simpl in Hx. simplify_eq.
  apply sys_ok_coord; [done|by eapply ok_HandleWorker|apply (keeps_finished_exec _ Assign); simpl; by rewrite E|..].
  - intros p t Hp Hs. left. destruct Hcase as [(q&u&Hq&Hu&->&_)|[(_&q&u&_&_&->&_)|(_&->&_)]]; [|eauto..].
    apply list_lookup_insert_Some in Hp as [(->&<-&_)|[_ Hp]]; [done|eauto].
  - intros p t Hp Hs. left. destruct Hcase as [(q&u&Hq&Hu&->&_)|[(_&q&u&_&_&->&_)|(_&->&_)]]; [eauto| |eauto].
    apply list_lookup_insert_Some in Hp as [(->&<-&_)|[_ Hp]]; [done|eauto].
  - intros w Hw. destruct (is_task reply) eqn:Et; [|by left].
    apply elem_of_app in Hw as [Hw| ->%list_elem_of_singleton]; [by left|right]. simpl.
    destruct Hcase as [(q&u&Hq&Hu&->&->)|[(Hf&q&u&Hq&Hu&->&->)|(->&->&_)]].
    + left. exists q. destruct (map_task_id _ _ _ _ _ (ok_static _ _ _ Hc) Hq) as [-> Hfn]. rewrite HN. eexists; eauto.
    + right. split; [|done]. exists q. destruct (reduce_task_id _ _ _ _ _ (ok_static _ _ _ Hc) Hq) as [-> ->].
      rewrite HN. split; [|done]. destruct (static_active _ _ _ (ok_static _ _ _ Hc)) as (_&_&_&<-).
      by eapply lookup_lt_Some.
    + done.
Qed.

Lemma sys_ok_Report s k s' : sys_ok s → sys_exec s (Report k) = Some s' → sys_ok s'.
Proof.
  intros Hok Hx. pose proof (so_coord s Hok) as Hc. simpl in Hx.
  destruct (workers s !! k) as [[reply|reply]|] eqn:Ek; [done| |done].
  destruct (HandleFinish _ _) as [c|] eqn:E; simpl in Hx; [|done]. simplify_eq.
  pose proof (ok_HandleFinish _ _ _ _ _ Hc E) as Hc'.
  pose proof (keeps_finished_exec _ (Finish _) _ E) as Hk.
  assert (Hws : ∀ w, w ∈ delete k (workers s) → w ∈ workers s ∨ worker_ok (mkSystem c (files_of s) []) w)
    by (left; by eapply elem_of_delete_list).
  unfold HandleFinish in E.
  destruct (so_workers s Hok _ (list_elem_of_lookup_2 _ _ _ Ek)) as [(p&(f&_&->)&Hw)|(p&(_&->)&Hw)]; simpl in E.
  - destruct (MapTaskMap _ !! _) as [q|] eqn:Eq; simpl in E; [|done].
    apply (MapTaskMap_lookup _ _ _ _ _ (ok_static _ _ _ Hc)) in Eq as [Eq _]. assert (q = p) as -> by lia.
    apply cas_map_finished in E as [Er Em]. apply sys_ok_coord; [done..| | |done].
    + intros q t Hq Hs. destruct (Em q t Hq Hs) as [?|[-> _]]; auto.
    + rewrite Er. eauto.
  - destruct (ReduceTaskMap _ !! _) as [q|] eqn:Eq; simpl in E; [|done].
    apply (ReduceTaskMap_lookup _ _ _ _ _ (ok_static _ _ _ Hc)) in Eq as [Eq _]. assert (q = p) as -> by lia.
    apply cas_reduce_finished in E as [Er Em]. apply sys_ok_coord; [done..| | |done].
    + rewrite Er. eauto.
    + intros q t Hq Hs. destruct (Em q t Hq Hs) as [?|[-> _]]; auto.
Qed.

Lemma sys_ok_Crash s k s' : sys_ok s → sys_exec s (Crash k) = Some s' → sys_ok s'.
Proof.
  intros Hok Hx. simpl in Hx. simplify_eq.
  apply sys_ok_coord; [done|apply (so_coord s Hok)|apply keeps_finished_refl|eauto..].
  left. by eapply elem_of_delete_list.
Qed.

Lemma sys_ok_Expire s k s' : sys_ok s → sys_exec s (Expire k) = Some s' → sys_ok s'.
Proof.
  intros Hok Hx. pose proof (so_coord s Hok) as Hc. simpl in Hx.
  destruct (timeout k (coord s)) as [c|] eqn:E; simpl in Hx; [|done]. simplify_eq.
  pose proof (ok_timeout _ _ _ _ _ Hc E) as Hc'. pose proof (keeps_finished_exec _ (Timeout k) _ E) as Hk.
  unfold timeout in E. destruct (timers (coord s) !! k) as [[p|p]|]; simpl in E; [| |done].
  - apply cas_map_finished in E as [Er Em]. apply sys_ok_coord; [done..| | |by left].
    + intros q t Hq Hs. destruct (Em q t Hq Hs) as [?|[_ ?]]; [by left|status].
    + rewrite Er. eauto.
  - apply cas_reduce_finished in E as [Er Em]. apply sys_ok_coord; [done..| | |by left].
    + rewrite Er. eauto.
    + intros q t Hq Hs. destruct (Em q t Hq Hs) as [?|[_ ?]]; [by left|status].
Qed.

Lemma sys_reachable_ok s : sys_reachable s → sys_ok s.
Proof using job.
  intros [ls Hr]. assert (Hi : sys_ok sys_start).
  { split; simpl; [apply ok_MakeCoordinator|done|..].
    - intros p t Hp. rewrite list_lookup_imap in Hp. apply fmap_Some in Hp as (f&_&->). done.
    - intros p t Hp. rewrite list_lookup_fmap in Hp. apply fmap_Some in Hp as (f&_&->). done.
    - intros w []%not_elem_of_nil. }
  revert Hi Hr. generalize sys_start. induction ls as [|l ls IH]; intros s0 Hi Hr; simpl in Hr; [by simplify_eq|].
  destruct (sys_exec s0 l) as [s1|] eqn:E; simpl in Hr; [|done]. apply (IH s1); [|done].
  destruct l; eauto using sys_ok_Ask, sys_ok_Work, sys_ok_Report, sys_ok_Crash, sys_ok_Expire.
Qed.
End Job.
End MrSystem.
