(* ===== verification/MrJson.v ===== *)
(** * A JSON codec for pairs of ASCII strings

    The interface [JsonCodec] of the worker has an implementation: the text
    [encoding/json] produces for ASCII strings (with its HTML escapes), and a
    reader of that text. *)

From Stdlib Require Import Ascii.
From S2P Require Import Prelude MrWorker MrWorkerFacts.

Module MrJson.
Import MrWorker MrWorkerFacts.

Definition quote : ascii := "034".
Definition backslash : ascii := "092".

Definition hex_digit (n : N) : ascii := ascii_of_N (if (n <? 10)%N then 48 + n else 87 + n).
Definition unhex (c : ascii) : option N :=
  let n := N_of_ascii c in
  if ((48 <=? n) && (n <=? 57))%N then Some (n - 48)%N
  else if ((97 <=? n) && (n <=? 102))%N then Some (n - 87)%N else None.

(** One byte inside a JSON string. *)
Definition esc_char (c : ascii) : string :=
  let n := N_of_ascii c in
  if Ascii.eqb c quote || Ascii.eqb c backslash then String backslash (String c "")
  else if (n =? 10)%N then String backslash "n"
  else if (n =? 13)%N then String backslash "r"
  else if (n =? 9)%N then String backslash "t"
  else if (n <? 32)%N || (n =? 60)%N || (n =? 62)%N || (n =? 38)%N then
    String backslash (String "u" (String "0" (String "0"
      (String (hex_digit (n / 16)) (String (hex_digit (n mod 16)) "")))))
  else String c "".

Fixpoint esc (s : string) : string :=
  match s with EmptyString => EmptyString | String c s => esc_char c +:+ esc s end.

(** The rest of a JSON string, up to its closing quote. *)
Definition prepend (c : ascii) (o : option (string * string)) : option (string * string) :=
  '(s, rest) ← o; Some (String c s, rest).

Fixpoint unesc (s : string) : option (string * string) :=
  match s with
  | EmptyString => None
  | String c s1 =>
      if Ascii.eqb c quote then Some ("", s1)
      else if Ascii.eqb c backslash then
        match s1 with
        | EmptyString => None
        | String e s2 =>
            if Ascii.eqb e quote || Ascii.eqb e backslash then prepend e (unesc s2)
            else if Ascii.eqb e "n" then prepend "010" (unesc s2)
            else if Ascii.eqb e "r" then prepend "013" (unesc s2)
            else if Ascii.eqb e "t" then prepend "009" (unesc s2)
            else if Ascii.eqb e "u" then
              match s2 with
              | String _ (String _ (String h (String l s3))) =>
                  match unhex h, unhex l with
                  | Some a, Some b => prepend (ascii_of_N (16 * a + b)) (unesc s3)
                  | _, _ => None
                  end
              | _ => None
              end
            else None
        end
      else prepend c (unesc s1)
  end.

(** Reads a fixed text. *)
Fixpoint expect (t s : string) : option string :=
  match t, s with
  | EmptyString, _ => Some s
  | String a t, String b s => if Ascii.eqb a b then expect t s else None
  | String _ _, EmptyString => None
  end.

Fixpoint skip_space (s : string) : string :=
  match s with
  | String c s' =>
      let n := N_of_ascii c in
      if ((n =? 10) || (n =? 13) || (n =? 9) || (n =? 32))%N then skip_space s' else s
  | EmptyString => EmptyString
  end.

(** The three fixed texts around the two strings, quotes included. *)
Definition text1 : string := "{" +:+ String quote "Key" +:+ String quote (":" +:+ String quote "").
Definition text2 : string := "," +:+ String quote "Value" +:+ String quote (":" +:+ String quote "").
Definition text3 : string := "}".

Definition encode_kv (kv : KeyValue) : string :=
  text1 +:+ esc (Key kv) +:+ String quote (text2 +:+ esc (Value kv) +:+ String quote (text3 +:+ nl)).

Definition decode_kv (s : string) : option (KeyValue * string) :=
  s ← expect text1 (skip_space s);
  '(k, s) ← unesc s;
  s ← expect text2 s;
  '(v, s) ← unesc s;
  s ← expect text3 s;
  Some (mkKeyValue k v, s).

Definition ascii7 (c : ascii) : bool := (N_of_ascii c <? 128)%N.
Definition ascii_kv (kv : KeyValue) : Prop :=
  string_forall ascii7 (Key kv) = true ∧ string_forall ascii7 (Value kv) = true.

(** ** The laws *)

Lemma unesc_esc_char c t : ascii7 c = true → unesc (esc_char c +:+ t) = prepend c (unesc t).
Proof. destruct c as [[] [] [] [] [] [] [] []]; try discriminate; intros _; reflexivity. Qed.

Lemma unesc_esc s t : string_forall ascii7 s = true → unesc (esc s +:+ String quote t) = Some (s, t).
Proof.
  induction s as [|c s IH]; simpl; [done|]. intros Hs. bools.
  rewrite <- app_assoc', unesc_esc_char, IH by done. done.
Qed.

Lemma expect_app t s : expect t (t +:+ s) = Some s.
Proof. induction t as [|c t IH]; [done|]. rewrite app_String. simpl. by rewrite Ascii.eqb_refl. Qed.

Lemma skip_space_text1 s : skip_space (text1 +:+ s) = text1 +:+ s.
Proof. done. Qed.

Lemma decode_encode kv rest : ascii_kv kv → decode_kv (encode_kv kv +:+ rest) = Some (kv, nl +:+ rest).
Proof.
  intros [Hk Hv]. destruct kv as [k v]. unfold encode_kv, decode_kv. cbn [Key Value] in *.
  rewrite <- !app_assoc', skip_space_text1, expect_app. cbn [mbind option_bind].
  rewrite app_String, unesc_esc by done. cbn [mbind option_bind]. rewrite <- app_assoc', expect_app.
  cbn [mbind option_bind]. rewrite <- app_assoc', app_String, unesc_esc by done. cbn [mbind option_bind].
  by rewrite <- app_assoc', expect_app.
Qed.

Lemma skip_space_length s : (String.length (skip_space s) ≤ String.length s)%nat.
Proof. induction s as [|c s IH]; simpl; [lia|]. case_match; simpl; lia. Qed.

Lemma expect_length t s r : expect t s = Some r → (String.length r + String.length t = String.length s)%nat.
Proof.
  revert s. induction t as [|a t IH]; intros s E; simpl in E; [simplify_eq; simpl; lia|].
  destruct s as [|b s]; [done|]. case_match; [|done]. apply IH in E. simpl. lia.
Qed.

Lemma prepend_length c o a r m :
  prepend c o = Some (a, r) → (∀ a' r', o = Some (a', r') → (String.length r' < m)%nat) →
  (String.length r < m)%nat.
Proof. unfold prepend. intros E Hm. destruct o as [[a' r']|]; simpl in E; [|done]. simplify_eq. by eapply Hm. Qed.

Lemma unesc_length n s a r :
  (String.length s ≤ n)%nat → unesc s = Some (a, r) → (String.length r < String.length s)%nat.
Proof.
  revert s a r. induction n as [|n IH]; intros s a r Hn E; (destruct s as [|c s1]; [done|]); simpl in *; [lia|].
  repeat (case_match; [|try done]); simplify_eq; try done; simpl in *; try lia;
    (eapply prepend_length; [exact E|]; intros a' r' E'; apply IH in E'; [lia|simpl in *; lia]).
Qed.

Lemma decode_length s kv rest : decode_kv s = Some (kv, rest) → (String.length rest < String.length s)%nat.
Proof.
  unfold decode_kv. intros E. pose proof (skip_space_length s) as H0.
  destruct (expect text1 _) as [s1|] eqn:E1; cbn [mbind option_bind] in E; [|done]. apply expect_length in E1.
  destruct (unesc s1) as [[k s2]|] eqn:E2; cbn [mbind option_bind] in E; [|done]. apply (unesc_length _ _ _ _ (le_n _)) in E2.
  destruct (expect text2 _) as [s3|] eqn:E3; cbn [mbind option_bind] in E; [|done]. apply expect_length in E3.
  destruct (unesc s3) as [[v s4]|] eqn:E4; cbn [mbind option_bind] in E; [|done]. apply (unesc_length _ _ _ _ (le_n _)) in E4.
  destruct (expect text3 _) as [s5|] eqn:E5; cbn [mbind option_bind] in E; [|done]. apply expect_length in E5. simplify_eq. lia.
Qed.

Lemma decode_nl s : decode_kv (nl +:+ s) = decode_kv s.
Proof. done. Qed.
Lemma decode_eof : decode_kv "" = None.
Proof. done. Qed.

Definition ascii_json : JsonCodec := {|
  json_valid := ascii_kv; Encode := encode_kv; Decode := decode_kv;
  Decode_Encode := decode_encode; Decode_nl := decode_nl; Decode_eof := decode_eof;
  Decode_consumes := decode_length
|}.

Example encode_pair : encode_kv (mkKeyValue "a<b" "1") =
  "{" +:+ String quote "Key" +:+ String quote ":" +:+ String quote "a\u003cb" +:+ String quote "," +:+
  String quote "Value" +:+ String quote ":" +:+ String quote "1" +:+ String quote "}" +:+ nl.
Proof. reflexivity. Qed.
End MrJson.
