(* ===== verification/GoRunes.v ===== *)
(** * Runes of a Go string

    Strings are byte sequences; [range] and package [unicode/utf8] decode them as
    UTF-8, an invalid byte standing for the replacement character. *)

From Stdlib Require Import Ascii.
From S2P Require Import Prelude.

Module GoRunes.

Definition byte (a : ascii) : Z := Z.of_N (N_of_ascii a).
Definition within (lo b hi : Z) : bool := (lo <=? b) && (b <=? hi).
Definition cont (b : Z) : bool := within 0x80 b 0xBF.
Definition low6 (b : Z) : Z := Z.land b 0x3F.

Definition is2 (b0 b1 : Z) : bool := within 0xC2 b0 0xDF && cont b1.
Definition is3 (b0 b1 b2 : Z) : bool :=
  within 0xE0 b0 0xEF &&
  within (if b0 =? 0xE0 then 0xA0 else 0x80) b1 (if b0 =? 0xED then 0x9F else 0xBF) && cont b2.
Definition is4 (b0 b1 b2 b3 : Z) : bool :=
  within 0xF0 b0 0xF4 &&
  within (if b0 =? 0xF0 then 0x90 else 0x80) b1 (if b0 =? 0xF4 then 0x8F else 0xBF) && cont b2 && cont b3.

Definition RuneError : Z := 0xFFFD.

(** [for _, r := range s], each rune with its bytes. *)
Fixpoint runes (s : string) : list (Z * string) :=
  match s with
  | EmptyString => []
  | String a s1 =>
      let bad := (RuneError, String a "") in
      if byte a <? 0x80 then (byte a, String a "") :: runes s1
      else match s1 with
      | EmptyString => [bad]
      | String b s2 =>
          if is2 (byte a) (byte b) then
            (Z.land (byte a) 0x1F * 2 ^ 6 + low6 (byte b), String a (String b "")) :: runes s2
          else match s2 with
          | EmptyString => bad :: runes s1
          | String c s3 =>
              if is3 (byte a) (byte b) (byte c) then
                (Z.land (byte a) 0x0F * 2 ^ 12 + low6 (byte b) * 2 ^ 6 + low6 (byte c),
                 String a (String b (String c ""))) :: runes s3
              else match s3 with
              | EmptyString => bad :: runes s1
              | String d s4 =>
                  if is4 (byte a) (byte b) (byte c) (byte d) then
                    (Z.land (byte a) 0x07 * 2 ^ 18 + low6 (byte b) * 2 ^ 12 + low6 (byte c) * 2 ^ 6 + low6 (byte d),
                     String a (String b (String c (String d "")))) :: runes s4
                  else bad :: runes s1
              end
          end
      end
  end.

(** [utf8.DecodeRuneInString], without the width. *)
Definition DecodeRune (s : string) : Z := match runes s with [] => RuneError | (r, _) :: _ => r end.

End GoRunes.
