(* ===== verification/MrApps.v ===== *)
(** * MapReduce applications: [mrapps/*.go]

    The word count, the indexer and the test applications whose Map and Reduce
    are functions of their arguments.  Strings are bytes; [FieldsFunc] splits them
    at runes, decoded as Go does.  [unicode.IsLetter] is a parameter: its tables
    are not part of the repository. *)

From stdpp Require Import pretty.
From Stdlib Require Import Ascii.
From S2P Require Import Prelude GoRunes MrWorker MrWorkerFacts.

Module MrApps.
Export GoRunes.
Import MrWorker MrWorkerFacts.

(** ** [strings.FieldsFunc] *)

(** [strings.FieldsFunc(s, f)]: the maximal runs of runes that do not satisfy [f];
    [cur] is the run being read. *)
Fixpoint fields_loop (f : Z → bool) (cur : option string) (rs : list (Z * string)) : list string :=
  match rs with
  | [] => option_list cur
  | (r, bs) :: rs =>
      if f r then option_list cur ++ fields_loop f None rs
      else fields_loop f (Some (default "" cur +:+ bs)) rs
  end.
Definition FieldsFunc (s : string) (f : Z → bool) : list string := fields_loop f None (runes s).

Lemma runes_cat n s : (String.length s ≤ n)%nat → cat (snd <$> runes s) = s.
Proof.
  revert s. induction n as [|n IH]; intros s Hn; (destruct s as [|a s1]; [done|]); simpl in Hn; [lia|].
  cbn [runes]. destruct (byte a <? 128); [rewrite fmap_cons; cbn [cat snd]; by rewrite IH by lia|].
  destruct s1 as [|b s2]; [done|]. destruct (is2 _ _); [rewrite fmap_cons; cbn [cat snd]; rewrite IH by (simpl in *; lia); done|].
  destruct s2 as [|c s3]; [rewrite fmap_cons; cbn [cat snd]; rewrite IH by (simpl in *; lia); done|].
  destruct (is3 _ _ _); [rewrite fmap_cons; cbn [cat snd]; rewrite IH by (simpl in *; lia); done|].
  destruct s3 as [|d s4]; [rewrite fmap_cons; cbn [cat snd]; rewrite IH by (simpl in *; lia); done|].
  destruct (is4 _ _ _ _); rewrite fmap_cons; cbn [cat snd]; rewrite IH by (simpl in *; lia); done.
Qed.

(** Nothing but separators is dropped. *)
Lemma fields_loop_cat f cur rs :
  cat (fields_loop f cur rs) = default "" cur +:+ cat (snd <$> filter (λ r, f (r.1) = false) rs).
Proof.
  revert cur. induction rs as [|[r bs] rs IH]; intros cur; simpl.
  - destruct cur; simpl; by rewrite ?app_empty.
  - rewrite filter_cons. cbn [fst]. destruct (f r) eqn:E.
    + rewrite decide_False by done. destruct cur as [c|]; csimpl; rewrite IH; done.
    + rewrite decide_True, IH by done. csimpl. by rewrite app_assoc'.
Qed.

(** ** The applications *)

Section Apps.
Context (IsLetter : Z → bool).

Definition ff (r : Z) : bool := negb (IsLetter r).

Definition wc_Map (filename contents : string) : list KeyValue :=
  (λ w, mkKeyValue w "1") <$> FieldsFunc contents ff.
Definition wc_Reduce (key : string) (values : list string) : string := pretty (len values).

(** [range m] visits a map in any order. *)
Context (range : gset string → list string).

Definition indexer_Map (document value : string) : list KeyValue :=
  (λ w, mkKeyValue w document) <$> range (list_to_set (FieldsFunc value ff)).
End Apps.

(** [sort.Strings] and [strings.Join]. *)
Definition sort_strings (vs : list string) : list string := merge_sort String.le vs.
Fixpoint Join (sep : string) (vs : list string) : string :=
  match vs with
  | [] => ""
  | [v] => v
  | v :: vs => v +:+ sep +:+ Join sep vs
  end.

Definition indexer_Reduce (key : string) (values : list string) : string :=
  pretty (len values) +:+ " " +:+ Join "," (sort_strings values).

(** What [maybeCrash] does with its random numbers: the process exits, or goes on
    after a while. *)
Inductive Fate := Exits (code : Z) | Returns (milliseconds : Z).
Definition maybeCrash (rr ms : Z) : Fate :=
  if rr <? 330 then Exits 1 else if rr <? 660 then Returns ms else Returns 0.
Definition nocrash_maybeCrash (rr : Z) : Fate := if false && (rr <? 500) then Exits 1 else Returns 0.

(** When [maybeCrash] returns. *)
Definition crash_Map (filename contents : string) : list KeyValue :=
  [mkKeyValue "a" filename;
   mkKeyValue "b" (pretty (Z.of_nat (String.length filename)));
   mkKeyValue "c" (pretty (Z.of_nat (String.length contents)));
   mkKeyValue "d" "xyzzy"].
Definition crash_Reduce (key : string) (values : list string) : string := Join " " (sort_strings values).

(** [maybeCrash] of nocrash.go always returns. *)
Definition nocrash_Map (filename contents : string) : list KeyValue := crash_Map filename contents.
Definition nocrash_Reduce (key : string) (values : list string) : string := crash_Reduce key values.
Definition mtiming_Reduce (key : string) (values : list string) : string := Join " " (sort_strings values).

Definition early_exit_Map (filename contents : string) : list KeyValue := [mkKeyValue filename "1"].
Definition early_exit_Reduce (key : string) (values : list string) : string := pretty (len values).

Definition rtiming_Map (filename contents : string) : list KeyValue :=
  (λ k, mkKeyValue k "1") <$> ["a"; "b"; "c"; "d"; "e"; "f"; "g"; "h"; "i"; "j"].

(** ** The Reduce functions ignore the order of the values *)

Lemma sort_strings_Permutation vs vs' : vs ≡ₚ vs' → sort_strings vs = sort_strings vs'.
Proof.
  intros E. apply (StronglySorted_unique String.le).
  - apply (StronglySorted_merge_sort _).
  - apply (StronglySorted_merge_sort _).
  - unfold sort_strings. by rewrite !merge_sort_Permutation.
Qed.

Lemma len_Permutation {A} (l l' : list A) : l ≡ₚ l' → len l = len l'.
Proof. intros E. unfold len. by rewrite E. Qed.

Lemma wc_Reduce_ok : order_insensitive wc_Reduce.
Proof. intros k vs vs' E. unfold wc_Reduce. by rewrite (len_Permutation _ _ E). Qed.
Lemma early_exit_Reduce_ok : order_insensitive early_exit_Reduce.
Proof. intros k vs vs' E. unfold early_exit_Reduce. by rewrite (len_Permutation _ _ E). Qed.
Lemma crash_Reduce_ok : order_insensitive crash_Reduce.
Proof. intros k vs vs' E. unfold crash_Reduce. by rewrite (sort_strings_Permutation _ _ E). Qed.
Lemma indexer_Reduce_ok : order_insensitive indexer_Reduce.
Proof.
  intros k vs vs' E. unfold indexer_Reduce. by rewrite (len_Permutation _ _ E), (sort_strings_Permutation _ _ E).
Qed.

(** ** What the applications compute *)

Lemma wc_values w words :
  len (values_of w ((λ w, mkKeyValue w "1") <$> words)) = len (filter (λ v, v = w) words).
Proof.
  unfold values_of, len. rewrite length_fmap. induction words as [|v words IH]; [done|].
  csimpl. rewrite !filter_cons. simpl. destruct (decide (v = w)); simpl; lia.
Qed.

Lemma wc_keys words : sorted_keys ((λ w, mkKeyValue w "1") <$> words) = sort_strings (remove_dups words).
Proof.
  symmetry. apply sorted_keys_unique.
  - apply (StronglySorted_merge_sort _).
  - unfold sort_strings. rewrite merge_sort_Permutation. apply NoDup_remove_dups.
  - intros k. unfold sort_strings. rewrite merge_sort_Permutation, elem_of_remove_dups.
    rewrite <- list_fmap_compose. simpl. by rewrite list_fmap_id.
Qed.
End MrApps.
