(* ===== verification/MrTiming.v ===== *)
(** * The applications that count workers: [mrapps/mtiming.go], [rtiming.go], [jobcount.go]

    Workers are processes that share a directory.  [nparallel] announces its process
    by a file, counts the announced processes that are alive, and takes its file
    back a second later; the map and reduce functions of the timing applications
    report the count.  [jobcount] leaves a file per call of Map and counts the
    files.  A process runs one system call at a time (the listing of a directory is
    one), and may end at any moment; process ids are not used again.

    [Readdirnames] lists the directory in any order.  [Kill] with signal 0 tells
    whether a process is alive; for ids that are not positive it asks about process
    groups, which are left open.  A directory has fewer than a million files. *)

From stdpp Require Import pretty.
From Stdlib Require Import Ascii.
From S2P Require Import Prelude GoStrconv MrWorker MrApps.

Module MrTiming.
Import GoStrconv MrWorker MrApps.

(** ** [fmt.Sscanf] with one [%d] at the end of the format *)

Fixpoint strip (p s : string) : option string :=
  match p, s with
  | EmptyString, _ => Some s
  | String a p, String b s => if Ascii.eqb a b then strip p s else None
  | String _ _, EmptyString => None
  end.

(** ASCII white space other than a line feed, which is an error. *)
Definition is_space (a : ascii) : bool := existsb (N.eqb (N_of_ascii a)) [9; 11; 12; 13; 32]%N.
Fixpoint skip_space (s : string) : string :=
  match s with String a s' => if is_space a then skip_space s' else s | EmptyString => s end.

(** An optional sign and at least one digit, of a value that fits [int]. *)
Definition scan_int (s : string) : option Z :=
  let '(neg, s) := match skip_space s with
                   | String "-" s => (true, s)
                   | String "+" s => (false, s)
                   | s => (false, s)
                   end in
  match s with
  | String a _ =>
      _ ← digit a;
      let v := Z.of_N (fst (digits 0 s)) in
      let v := if (neg : bool) then - v else v in
      if (- 2 ^ 63 <=? v) && (v <? 2 ^ 63) then Some v else None
  | EmptyString => None
  end.

Definition Sscanf (pat name : string) : option Z := rest ← strip pat name; scan_int rest.

(** ** Processes and their directory *)

Record World := mkWorld { files : gset string; alive : gset Z; groups : Z → bool }.
Definition set_files (fs : gset string) (w : World) : World := mkWorld fs (alive w) (groups w).

(** [syscall.Kill(xpid, 0) == nil]. *)
Definition Kill (w : World) (xpid : Z) : bool :=
  if 0 <? xpid then bool_decide (xpid ∈ alive w) else groups w xpid.

(** ** [nparallel] *)

Definition pattern (phase : string) : string := "mr-worker-" +:+ phase +:+ "-".
Definition myfilename (phase : string) (pid : Z) : string := pattern phase +:+ pretty pid.

(** One turn of the loop over the names. *)
Definition probe (phase : string) (w : World) (name : string) (ret : Z) : Z :=
  match Sscanf (pattern phase) name with
  | Some xpid => if Kill w xpid then ret + 1 else ret
  | None => ret
  end.

(** Where a process is: about to call [nparallel], announced, in the loop with the
    names that are left, or returned. *)
Inductive Pc := Calling | Announced | Probing (names : list string) (ret : Z) | Returned (ret : Z).

(** The next system call of a process: it creates its file, reads the directory,
    asks for one process, or removes its file; [None] is a panic.  [names] is what
    [Readdirnames] returns. *)
Definition nparallel (phase : string) (pid : Z) (names : list string) (w : World) (pc : Pc) : option (World * Pc) :=
  match pc with
  | Calling => Some (set_files ({[ myfilename phase pid ]} ∪ files w) w, Announced)
  | Announced => Some (w, Probing names 0)
  | Probing (name :: names) ret => Some (w, Probing names (probe phase w name ret))
  | Probing [] ret =>
      if bool_decide (myfilename phase pid ∈ files w)
      then Some (set_files (files w ∖ {[ myfilename phase pid ]}) w, Returned ret) else None
  | Returned ret => Some (w, Returned ret)
  end.

(** What Map of mtiming and Reduce of rtiming make of the count; [time] is the text
    of the time. *)
Definition mtiming_Map (pid : Z) (time : string) (n : Z) : list KeyValue :=
  [mkKeyValue ("times-" +:+ pretty pid) time; mkKeyValue ("parallel-" +:+ pretty pid) (pretty n)].
Definition rtiming_Reduce (n : Z) : string := pretty n.

(** The two applications call it with the name of their phase; rtiming.go has a copy
    of it. *)
Definition mtiming_nparallel := nparallel "map".
Definition rtiming_nparallel := nparallel "reduce".

(** ** Workers *)

Record Workers := mkWorkers { world : World; procs : gmap Z Pc }.

Inductive work (phase : string) : Workers → Workers → Prop :=
  | work_spawn s pid : 0 < pid < 2 ^ 63 → procs s !! pid = None →
      work phase s (mkWorkers (mkWorld (files (world s)) ({[ pid ]} ∪ alive (world s)) (groups (world s))) (<[pid := Calling]> (procs s)))
  | work_exit s pid : work phase s (mkWorkers (mkWorld (files (world s)) (alive (world s) ∖ {[ pid ]}) (groups (world s))) (procs s))
  | work_run s pid names pc w' pc' : procs s !! pid = Some pc → pid ∈ alive (world s) → names ≡ₚ elements (files (world s)) →
      nparallel phase pid names (world s) pc = Some (w', pc') → work phase s (mkWorkers w' (<[pid := pc']> (procs s)))
  | work_again s pid ret : procs s !! pid = Some (Returned ret) → pid ∈ alive (world s) → work phase s (mkWorkers (world s) (<[pid := Calling]> (procs s))).

(** A directory in which nobody is announced. *)
Definition fresh (phase : string) (s : Workers) : Prop :=
  procs s = ∅ ∧ alive (world s) = ∅ ∧ ∀ f, f ∈ files (world s) → Sscanf (pattern phase) f = None.

(** The processes that run [nparallel] at this moment. *)
Definition inside (pc : Pc) : bool := match pc with Announced | Probing _ _ => true | _ => false end.
Definition parallel (s : Workers) : gset Z :=
  filter (λ pid, pid ∈ alive (world s) ∧ inside <$> procs s !! pid = Some true) (dom (procs s)).

(** ** [jobcount] *)

Definition jobcount_prefix : string := "mr-worker-jobcount".
Definition jobcount_file (me count : Z) : string := jobcount_prefix +:+ "-" +:+ pretty me +:+ "-" +:+ pretty count.

(** Map at process [me], whose variable [count] has the given value. *)
Definition jobcount_Map (me count : Z) (fs : gset string) : gset string * Z * list KeyValue :=
  ({[ jobcount_file me count ]} ∪ fs, count + 1, [mkKeyValue "a" "x"]).

Fixpoint invocations (names : list string) (n : Z) : Z :=
  match names with
  | [] => n
  | f :: names => invocations names (if bool_decide (is_Some (strip jobcount_prefix f)) then n + 1 else n)
  end.
Definition jobcount_Reduce (names : list string) : string := pretty (invocations names 0).

(** ** Numbers are read back *)

Lemma strip_app p s : strip p (p +:+ s) = Some s.
Proof. induction p as [|a p IH]; [done|]. simpl. by rewrite Ascii.eqb_refl. Qed.

Lemma digit_plain a d : digit a = Some d → is_space a = false ∧ a ≠ "-"%char ∧ a ≠ "+"%char.
Proof.
  unfold digit, is_space. intros H. assert (48 ≤ N_of_ascii a)%N by (destruct ((48 <=? N_of_ascii a)%N) eqn:E; [by apply N.leb_le|done]).
  split_and!; [|intros ->; done..]. simpl. repeat (rewrite (proj2 (N.eqb_neq _ _)) by lia). done.
Qed.

Lemma Sscanf_file phase pid : 0 < pid < 2 ^ 63 → Sscanf (pattern phase) (myfilename phase pid) = Some pid.
Proof.
  intros Hp. unfold Sscanf, myfilename. rewrite strip_app. cbn [mbind option_bind].
  assert (Hd : digits 0 (pretty pid) = (Z.to_N pid, "")) by (rewrite <-(string_app_nil (pretty pid)); apply all_digits_pretty; [lia|done]).
  destruct pid as [|x|x]; [lia| |lia]. destruct (go_head (Npos x) "") as (a&t&d&E&Ha); [lia|].
  replace (pretty (Zpos x)) with (pretty_N_go (Npos x) "") in * by done. rewrite E in *. unfold scan_int.
  destruct (digit_plain a d Ha) as (Hs&Hm&Hpl). cbn [skip_space]. rewrite Hs.
  assert (Hsg : match String a t with String "-" s => (true, s) | String "+" s => (false, s) | s => (false, s) end = (false, String a t)).
  { destruct a as [[] [] [] [] [] [] [] []]; done. }
  rewrite Hsg, Ha. cbn [mbind option_bind]. rewrite Hd. cbn [fst Z.to_N Z.of_N].
  by rewrite (proj2 (Z.leb_le _ _)), (proj2 (Z.ltb_lt _ _)) by lia.
Qed.

(** ** The count *)

Record tidy (phase : string) (s : Workers) : Prop := {
  td_pid pid pc : procs s !! pid = Some pc → 0 < pid < 2 ^ 63;
  td_alive pid : pid ∈ alive (world s) → is_Some (procs s !! pid);
  td_file f x : f ∈ files (world s) → Sscanf (pattern phase) f = Some x → ∃ pc, procs s !! x = Some pc ∧ f = myfilename phase x ∧
    (x ∈ alive (world s) → inside pc = true);
  td_inside pid pc : procs s !! pid = Some pc → inside pc = true → myfilename phase pid ∈ files (world s)
}.

Lemma myfilename_inj phase x y : 0 < x < 2 ^ 63 → 0 < y < 2 ^ 63 → myfilename phase x = myfilename phase y → x = y.
Proof. intros Hx Hy E. pose proof (Sscanf_file phase x Hx) as H. rewrite E, Sscanf_file in H by done. congruence. Qed.

Lemma tidy_work phase s s' : tidy phase s → work phase s s' → tidy phase s'.
Proof.
  intros [Hp Ha Hf Hi] Hw. destruct Hw as [s pid Hpid Hnew|s pid|s pid names pc w' pc' Hpc Hal Hn E|s pid ret Hpc Hal]; simpl.
  - split; simpl.
    + intros x pc [[<- _]|[_ Hx]]%lookup_insert_Some; [done|eauto].
    + intros x [->%elem_of_singleton|Hx]%elem_of_union; [rewrite lookup_insert_eq; eauto|]. destruct (decide (x = pid)) as [->|]; [rewrite lookup_insert_eq; eauto|].
      rewrite lookup_insert_ne by done. auto.
    + intros f x Hfx Hs. destruct (Hf f x Hfx Hs) as (pc&Hx&->&Hin). exists pc. rewrite lookup_insert_ne by congruence. split_and!; [done..|].
      intros [->%elem_of_singleton|?]%elem_of_union; [congruence|auto].
    + intros x pc [[<- <-]|[_ Hx]]%lookup_insert_Some Hin; [done|eauto].
  - split; simpl; [done|intros x [? _]%elem_of_difference; auto| |done].
    intros f x Hfx Hs. destruct (Hf f x Hfx Hs) as (pc&Hx&->&Hin). exists pc. split_and!; [done..|]. intros [? _]%elem_of_difference. auto.
  - assert (Hpid : 0 < pid < 2 ^ 63) by eauto.
    assert (Hal' : ∀ x, x ∈ alive (world s) → is_Some (<[pid:=pc']> (procs s) !! x)).
    { intros x Hx. destruct (decide (x = pid)) as [->|]; [rewrite lookup_insert_eq; eauto|]. rewrite lookup_insert_ne by done. auto. }
    assert (Hp' : ∀ x pcx, <[pid:=pc']> (procs s) !! x = Some pcx → 0 < x < 2 ^ 63) by (intros x pcx [[<- _]|[_ Hx]]%lookup_insert_Some; eauto).
    destruct pc as [| |[|name todo] ret|ret]; simpl in E.
    + simplify_eq. split; simpl; [done..| |].
      * intros f x [->%elem_of_singleton|Hfx]%elem_of_union Hs.
        -- rewrite Sscanf_file in Hs by done. injection Hs as <-. exists Announced. rewrite lookup_insert_eq. done.
        -- destruct (Hf f x Hfx Hs) as (pc&Hx&->&Hin). destruct (decide (x = pid)) as [->|]; [exists Announced; by rewrite lookup_insert_eq|].
           exists pc. by rewrite lookup_insert_ne by done.
      * intros x pc [[<- <-]|[_ Hx]]%lookup_insert_Some Hin; [set_solver|]. apply elem_of_union. right. eauto.
    + simplify_eq. split; simpl; [done..| |].
      * intros f x Hfx Hs. destruct (Hf f x Hfx Hs) as (pc&Hx&->&Hin). destruct (decide (x = pid)) as [->|]; [eexists; by rewrite lookup_insert_eq|].
        exists pc. by rewrite lookup_insert_ne by done.
      * intros x pc [[<- <-]|[_ Hx]]%lookup_insert_Some Hin; [by eapply Hi|eauto].
    + case_bool_decide; [|done]. simplify_eq. split; simpl; [done..| |].
      * intros f x [Hfx Hne]%elem_of_difference Hs. destruct (Hf f x Hfx Hs) as (pc&Hx&->&Hin). exists pc.
        rewrite lookup_insert_ne; [done|]. intros ->. set_solver.
      * intros x pc [[<- <-]|[Hne Hx]]%lookup_insert_Some Hin; [done|]. apply elem_of_difference. split; [eauto|].
        intros E%elem_of_singleton. apply Hne. symmetry. eapply (myfilename_inj phase); eauto.
    + simplify_eq. split; simpl; [done..| |].
      * intros f x Hfx Hs. destruct (Hf f x Hfx Hs) as (pc&Hx&->&Hin). destruct (decide (x = pid)) as [->|]; [eexists; by rewrite lookup_insert_eq|].
        exists pc. by rewrite lookup_insert_ne by done.
      * intros x pc [[<- <-]|[_ Hx]]%lookup_insert_Some Hin; [by eapply Hi|eauto].
    + simplify_eq. split; simpl; [done..| |].
      * intros f x Hfx Hs. destruct (Hf f x Hfx Hs) as (pc&Hx&->&Hin). destruct (decide (x = pid)) as [->|]; [|exists pc; by rewrite lookup_insert_ne by done].
        simplify_eq. exists (Returned ret). rewrite lookup_insert_eq. split_and!; auto.
      * intros x pc [[<- <-]|[_ Hx]]%lookup_insert_Some Hin; [done|eauto].
  - split; simpl.
    + intros x pc [[<- _]|[_ Hx]]%lookup_insert_Some; eauto.
    + intros x Hx. destruct (decide (x = pid)) as [->|]; [rewrite lookup_insert_eq; eauto|]. rewrite lookup_insert_ne by done. auto.
    + intros f x Hfx Hs. destruct (Hf f x Hfx Hs) as (pc&Hx&->&Hin). destruct (decide (x = pid)) as [->|]; [|exists pc; by rewrite lookup_insert_ne by done].
      simplify_eq. exists Calling. rewrite lookup_insert_eq. split_and!; auto.
    + intros x pc [[<- <-]|[_ Hx]]%lookup_insert_Some Hin; [done|eauto].
Qed.

Lemma tidy_fresh phase s : fresh phase s → tidy phase s.
Proof.
  intros (Hp&Ha&Hf). split.
  - intros pid pc Hpid. rewrite Hp in Hpid. by apply lookup_empty_Some in Hpid.
  - intros pid Hpid. rewrite Ha in Hpid. set_solver.
  - intros f x Hfx Hs. rewrite Hf in Hs by done. done.
  - intros pid pc Hpid. rewrite Hp in Hpid. by apply lookup_empty_Some in Hpid.
Qed.

Lemma tidy_reachable phase s0 s : fresh phase s0 → rtc (work phase) s0 s → tidy phase s.
Proof. intros Hf Hr. apply tidy_fresh in Hf. induction Hr; eauto using tidy_work. Qed.

Lemma elem_of_parallel s pid : pid ∈ parallel s ↔ pid ∈ alive (world s) ∧ ∃ pc, procs s !! pid = Some pc ∧ inside pc = true.
Proof.
  unfold parallel. rewrite elem_of_filter, elem_of_dom, fmap_Some. split; [|naive_solver].
  intros [[? (pc&?&?)] _]. split; [done|]. by exists pc.
Qed.

(** ** The count *)

(** A step of the workers in which process [pid] stays in the loop. *)
Definition probing (phase : string) (pid : Z) (s s' : Workers) : Prop :=
  work phase s s' ∧ ∃ names ret, procs s' !! pid = Some (Probing names ret).

(** Nobody comes back to life: a process id is not used again. *)
Lemma work_alive phase s s' x : work phase s s' → is_Some (procs s !! x) → is_Some (procs s' !! x) ∧ (x ∈ alive (world s') → x ∈ alive (world s)).
Proof.
  intros Hw Hx. destruct Hw as [s pid Hpid Hnew|s pid|s pid names pc w' pc' Hpc Hal Hn E|s pid ret Hpc Hal]; simpl.
  - rewrite lookup_insert_is_Some'. split; [by right|]. intros [->%elem_of_singleton|?]%elem_of_union; [|done]. rewrite Hnew in Hx. by destruct Hx.
  - set_solver.
  - rewrite lookup_insert_is_Some'. split; [by right|]. assert (alive w' = alive (world s)) as ->; [|done].
    destruct pc as [| |[|name todo] ret|ret]; simpl in E; [..|by simplify_eq]; [by simplify_eq|by simplify_eq| |by simplify_eq].
    case_bool_decide; by simplify_eq.
  - rewrite lookup_insert_is_Some'. auto.
Qed.

(** The step is one of process [pid], or leaves it where it is. *)
Lemma work_other phase s s' pid names ret : work phase s s' → procs s !! pid = Some (Probing names ret) →
  procs s' !! pid = Some (Probing names ret) ∨
  (pid ∈ alive (world s) ∧ world s' = world s ∧ ∃ name todo, names = name :: todo ∧ procs s' !! pid = Some (Probing todo (probe phase (world s) name ret))) ∨
  procs s' !! pid = Some (Returned ret).
Proof.
  intros Hw Hpid. destruct Hw as [s x Hx Hnew|s x|s x ns pc w' pc' Hpc Hal Hn E|s x r Hpc Hal]; simpl.
  - left. by rewrite lookup_insert_ne by congruence.
  - by left.
  - destruct (decide (x = pid)) as [->|]; [|left; by rewrite lookup_insert_ne]. rewrite lookup_insert_eq. simplify_eq.
    destruct names as [|name todo]; simpl in E; [case_bool_decide; simplify_eq; by do 2 right|]. simplify_eq. right. left. eauto 10.
  - left. destruct (decide (x = pid)) as [->|]; [congruence|by rewrite lookup_insert_ne].
Qed.

Section Counting.
Context (phase : string) (s : Workers) (pid : Z) (names : list string).
Context (Htidy : tidy phase s) (Hnames : names ≡ₚ elements (files (world s))).

(** While the directory listing is gone through: who has been counted. *)
Definition counting (s' : Workers) : Prop :=
  (∀ x, is_Some (procs s !! x) → is_Some (procs s' !! x) ∧ (x ∈ alive (world s') → x ∈ alive (world s))) ∧
  ∃ past todo ret (C : gset Z), names = past ++ todo ∧ procs s' !! pid = Some (Probing todo ret) ∧ ret = Z.of_nat (size C) ∧
    (∀ x, x ∈ C → x ∈ parallel s ∧ myfilename phase x ∈ past) ∧
    (∀ x, x ∈ parallel s → x ∈ alive (world s') → myfilename phase x ∈ past → x ∈ C).

Lemma parallel_pid x : x ∈ parallel s → 0 < x < 2 ^ 63.
Proof using Htidy. intros (_&pc&Hx&_)%elem_of_parallel. by eapply td_pid. Qed.

(** The next name is that of a process which was inside and still lives, and it is
    counted, or it is not counted. *)
Lemma counting_probe s' name todo past ret (C : gset Z) :
  (∀ x, is_Some (procs s !! x) → x ∈ alive (world s') → x ∈ alive (world s)) →
  names = past ++ name :: todo → ret = Z.of_nat (size C) → (∀ x, x ∈ C → x ∈ parallel s ∧ myfilename phase x ∈ past) →
  (∀ x, x ∈ parallel s → x ∈ alive (world s') → myfilename phase x ∈ past → x ∈ C) →
  ∃ C' : gset Z, probe phase (world s') name ret = Z.of_nat (size C') ∧ (∀ x, x ∈ C' → x ∈ parallel s ∧ myfilename phase x ∈ past ++ [name]) ∧
    (∀ x, x ∈ parallel s → x ∈ alive (world s') → myfilename phase x ∈ past ++ [name] → x ∈ C').
Proof using All.
  intros Hal E Hret HC Hall. assert (Hnd : NoDup (past ++ name :: todo)) by (rewrite <-E, Hnames; apply NoDup_elements).
  assert (Hfile : name ∈ files (world s)) by (apply elem_of_elements; rewrite <-Hnames, E; set_solver).
  assert (Hold : (∀ x, x ∈ parallel s → x ∈ alive (world s') → myfilename phase x ≠ name) → probe phase (world s') name ret = ret →
    ∃ C' : gset Z, probe phase (world s') name ret = Z.of_nat (size C') ∧ (∀ x, x ∈ C' → x ∈ parallel s ∧ myfilename phase x ∈ past ++ [name]) ∧
      (∀ x, x ∈ parallel s → x ∈ alive (world s') → myfilename phase x ∈ past ++ [name] → x ∈ C')).
  { intros Hno Ep. exists C. split_and!; [congruence|intros x Hx; destruct (HC x Hx); set_solver|].
    intros x Hx Hx' [Hp|Hp%list_elem_of_singleton]%elem_of_app; [auto|]. by destruct (Hno x Hx Hx'). }
  unfold probe in *. destruct (Sscanf (pattern phase) name) as [x|] eqn:Es.
  2: { apply Hold; [|done]. intros x Hx _ Ex. rewrite <-Ex, Sscanf_file in Es by (by apply parallel_pid). done. }
  destruct (td_file _ _ Htidy name x Hfile Es) as (pc&Hpc&->&Hins). pose proof (td_pid _ _ Htidy x pc Hpc) as Hx.
  unfold Kill in *. rewrite (proj2 (Z.ltb_lt _ _)) in * by lia. case_bool_decide as Hlive.
  2: { apply Hold; [|done]. intros y Hy Hly Ey. apply myfilename_inj in Ey as ->; [done|by apply parallel_pid|done]. }
  assert (Hwas : x ∈ alive (world s)) by (apply Hal; [by exists pc|done]).
  assert (Hpar : x ∈ parallel s) by (apply elem_of_parallel; eauto).
  assert (Hnew : x ∉ C). { intros [_ Hin]%HC. apply NoDup_app in Hnd as (_&Hd&_). apply (Hd _ Hin). by left. }
  exists ({[x]} ∪ C). split_and!.
  - rewrite size_union, size_singleton by set_solver. lia.
  - intros y [->%elem_of_singleton|Hy]%elem_of_union; [set_solver|]. destruct (HC y Hy); set_solver.
  - intros y Hy Hly [Hp|Hp%list_elem_of_singleton]%elem_of_app; [set_solver|].
    apply myfilename_inj in Hp as ->; [set_solver|by apply parallel_pid|done].
Qed.

Lemma counting_step s1 s2 : counting s1 → probing phase pid s1 s2 → counting s2.
Proof using All.
  intros [Hal (past&todo&ret&C&E&Hpc&Hret&HC&Hall)] [Hw (ns&r&Hpc2)].
  assert (Hal2 : ∀ x, is_Some (procs s !! x) → is_Some (procs s2 !! x) ∧ (x ∈ alive (world s2) → x ∈ alive (world s))).
  { intros x Hx. destruct (Hal x Hx) as [Hx1 ?]. destruct (work_alive _ _ _ x Hw Hx1). auto. }
  split; [done|]. destruct (work_other _ _ _ _ _ _ Hw Hpc) as [Hsame|[(_&Ew&name&todo'&->&Hpc')|?]]; [| |congruence].
  - exists past, todo, ret, C. split_and!; [done..|]. intros x Hx Hlive. apply Hall; [done|].
    assert (Hs : is_Some (procs s !! x)) by (apply elem_of_parallel in Hx as (_&pc&?&_); eauto).
    destruct (Hal x Hs) as [Hx1 _]. by apply (work_alive _ _ _ x Hw Hx1).
  - destruct (counting_probe s1 name todo' past ret C) as (C'&Ep&HC'&Hall'); [intros x Hx; by apply Hal|done..|].
    exists (past ++ [name]), todo', (probe phase (world s1) name ret), C'. rewrite <-app_assoc. split_and!; [done..|]. by rewrite Ew.
Qed.

Lemma counting_run s1 s2 : counting s1 → rtc (probing phase pid) s1 s2 → counting s2.
Proof using All. intros Hc Hr. induction Hr; eauto using counting_step. Qed.
End Counting.

(** C40: [nparallel] counts what it promises, in a directory that was fresh at the start,
    in every interleaving of the workers, one system call at a time (the listing of the
    directory is one), with processes that end at any moment.  When the loop
    over the names is through, the count is that of a set of processes which were all
    alive and inside [nparallel] when the directory was read, and to which every such
    process belongs that is still alive; so does the process itself unless it has
    ended.  Taking the file back does not panic. *)
Theorem nparallel_counts phase s0 s pid names s1 s2 ret : fresh phase s0 → rtc (work phase) s0 s →
  procs s !! pid = Some Announced → pid ∈ alive (world s) → names ≡ₚ elements (files (world s)) →
  s1 = mkWorkers (world s) (<[pid := Probing names 0]> (procs s)) → rtc (probing phase pid) s1 s2 → procs s2 !! pid = Some (Probing [] ret) →
  (∃ C : gset Z, ret = Z.of_nat (size C) ∧ C ⊆ parallel s ∧ parallel s ∩ alive (world s2) ⊆ C ∧ (pid ∈ alive (world s2) → pid ∈ C)) ∧
  ∃ w', nparallel phase pid [] (world s2) (Probing [] ret) = Some (w', Returned ret).
Proof.
  intros Hf Hr Hpc Hal Hn E1 Hrun Hpc2. pose proof (tidy_reachable _ _ _ Hf Hr) as Ht.
  assert (Hread : work phase s s1) by (subst s1; by eapply work_run).
  assert (Hc1 : counting phase s pid names s1).
  { split; [intros x Hx; by apply (work_alive phase s s1)|]. exists [], names, 0, ∅. subst s1. simpl. rewrite lookup_insert_eq. split_and!; (done || set_solver). }
  pose proof (counting_run phase s pid names Ht Hn s1 s2 Hc1 Hrun) as [_ (past&todo&r&C&E&Hp&->&HC&Hall)].
  rewrite Hpc2 in Hp. simplify_eq. rewrite app_nil_r in Hn.
  assert (Hfile : ∀ x, x ∈ parallel s → myfilename phase x ∈ past).
  { intros x (_&pc&Hx&Hin)%elem_of_parallel. rewrite Hn. apply elem_of_elements. by eapply td_inside. }
  assert (Hpid : pid ∈ parallel s) by (apply elem_of_parallel; eauto). split.
  - exists C. split_and!; [done|intros x Hx; by apply HC|intros x [Hx Hlx]%elem_of_intersection; auto|auto].
  - assert (Ht2 : tidy phase s2). { apply (tidy_reachable phase s0); [done|]. etrans; [exact Hr|]. eapply rtc_l; [exact Hread|]. eapply rtc_subrel, Hrun. by intros ?? []. }
    cbn [nparallel]. rewrite bool_decide_eq_true_2 by (by eapply (td_inside _ _ Ht2)). eauto.
Qed.

(** ** [jobcount] counts the calls of Map *)

(** The directory, the variable [count] of every process, and the number of calls of
    Map so far. *)
Record Jobs := mkJobs { jfiles : gset string; counts : gmap Z Z; calls : Z }.

Definition is_job (f : string) : Prop := is_Some (strip jobcount_prefix f).

(** Processes start, call Map, and write and remove other files. *)
Inductive job_step : Jobs → Jobs → Prop :=
  | job_spawn s pid : 0 ≤ pid → counts s !! pid = None → job_step s (mkJobs (jfiles s) (<[pid := 0]> (counts s)) (calls s))
  | job_map s pid k fs k' kva : counts s !! pid = Some k → jobcount_Map pid k (jfiles s) = (fs, k', kva) →
      job_step s (mkJobs fs (<[pid := k']> (counts s)) (calls s + 1))
  | job_write s f : ¬ is_job f → job_step s (mkJobs ({[ f ]} ∪ jfiles s) (counts s) (calls s))
  | job_remove s f : ¬ is_job f → job_step s (mkJobs (jfiles s ∖ {[ f ]}) (counts s) (calls s)).

Lemma invocations_spec names n : invocations names n = n + len (filter is_job names).
Proof.
  revert n. induction names as [|f names IH]; intros n; [unfold len; simpl; lia|]. cbn [invocations]. rewrite IH, filter_cons. unfold is_job at 2.
  case_decide; [rewrite bool_decide_eq_true_2, len_cons by done; lia|by rewrite bool_decide_eq_false_2 by done].
Qed.

Lemma string_app_assoc (a b c : string) : (a +:+ b) +:+ c = a +:+ (b +:+ c).
Proof. induction a as [|x a IH]; [done|]. change (String x ((a +:+ b) +:+ c) = String x (a +:+ (b +:+ c))). by rewrite IH. Qed.

Lemma jobcount_file_inj p k p' k' : 0 ≤ p → 0 ≤ p' → jobcount_file p k = jobcount_file p' k' → p = p' ∧ k = k'.
Proof.
  intros Hp Hp' E. unfold jobcount_file in E. apply (f_equal (strip (jobcount_prefix +:+ "-"))) in E.
  rewrite <-!(string_app_assoc jobcount_prefix), !strip_app in E. apply Some_inj, (f_equal (digits 0)) in E. rewrite !all_digits_pretty in E by (done || (by intros a t' [= <- _])). injection E as E1 E2.
  split; [lia|]. by apply (inj pretty).
Qed.

Lemma jobcount_file_is_job p k : is_job (jobcount_file p k).
Proof. unfold is_job, jobcount_file. rewrite strip_app. eauto. Qed.

Record jobs_ok (s : Jobs) : Prop := {
  jo_counts pid k : counts s !! pid = Some k → 0 ≤ pid;
  jo_files f : f ∈ jfiles s → is_job f → ∃ pid k n, f = jobcount_file pid k ∧ counts s !! pid = Some n ∧ k < n;
  jo_calls : calls s = Z.of_nat (size (filter is_job (jfiles s)))
}.

Lemma jobs_ok_step s s' : jobs_ok s → job_step s s' → jobs_ok s'.
Proof.
  intros [Hc Hf Ht] Hs. destruct Hs as [s pid Hp Hn|s pid k fs k' kva Hk E|s f Hj|s f Hj].
  - split; cbn [jfiles counts calls]; [|intros f Hin Hj|done].
    + intros x k [[<- _]|[_ Hx]]%lookup_insert_Some; [done|eauto].
    + destruct (Hf f Hin Hj) as (x&k&n&->&Hx&Hlt). exists x, k, n. rewrite lookup_insert_ne by congruence. done.
  - unfold jobcount_Map in E. injection E as <- <- _. split; cbn [jfiles counts calls].
    + intros x n [[<- _]|[_ Hx]]%lookup_insert_Some; eauto.
    + intros f [->%elem_of_singleton|Hin]%elem_of_union Hj; [exists pid, k, (k + 1); rewrite lookup_insert_eq; split_and!; [done..|lia]|].
      destruct (Hf f Hin Hj) as (x&m&n&->&Hx&Hlt). destruct (decide (x = pid)) as [->|Hne].
      * exists pid, m, (k + 1). rewrite lookup_insert_eq. simplify_eq. split_and!; [done..|lia].
      * exists x, m, n. by rewrite lookup_insert_ne by done.
    + assert (Hnew : jobcount_file pid k ∉ jfiles s).
      { intros Hin. destruct (Hf _ Hin (jobcount_file_is_job pid k)) as (x&m&n&E&Hx&Hlt).
        apply jobcount_file_inj in E as [-> ->]; [|by eapply Hc..]. simplify_eq. lia. }
      pose proof (jobcount_file_is_job pid k) as Hj.
      assert (filter is_job ({[jobcount_file pid k]} ∪ jfiles s) = {[jobcount_file pid k]} ∪ filter is_job (jfiles s)) as ->
        by (apply set_eq; intros x; rewrite elem_of_union, !elem_of_filter, elem_of_union, elem_of_singleton; naive_solver).
      rewrite size_union by set_solver. rewrite size_singleton. lia.
  - assert (E : filter is_job ({[f]} ∪ jfiles s) = filter is_job (jfiles s)) by (apply set_eq; intros x; rewrite !elem_of_filter, elem_of_union, elem_of_singleton; naive_solver).
    split; cbn [jfiles counts calls]; [done| |by rewrite E]. intros f' [->%elem_of_singleton|Hin]%elem_of_union Hj'; [done|auto].
  - assert (E : filter is_job (jfiles s ∖ {[f]}) = filter is_job (jfiles s)) by (apply set_eq; intros x; rewrite !elem_of_filter, elem_of_difference, elem_of_singleton; naive_solver).
    split; cbn [jfiles counts calls]; [done| |by rewrite E]. intros f' [Hin _]%elem_of_difference Hj'. auto.
Qed.

(** Reduce of [jobcount] tells how often Map was called, in all processes together,
    whatever other files come and go. *)
Theorem jobcount_counts_calls s0 s names : counts s0 = ∅ → calls s0 = 0 → (∀ f, f ∈ jfiles s0 → ¬ is_job f) → rtc job_step s0 s →
  names ≡ₚ elements (jfiles s) → jobcount_Reduce names = pretty (calls s).
Proof.
  intros H0 H1 H2 Hr Hn. assert (Hok : jobs_ok s0).
  { split; [intros pid k Hk; rewrite H0 in Hk; by apply lookup_empty_Some in Hk|intros f Hf Hj; by destruct (H2 f Hf)|].
    assert (filter is_job (jfiles s0) = ∅) as -> by (apply set_eq; intros x; rewrite elem_of_filter; set_solver). by rewrite size_empty. }
  assert (Hs : jobs_ok s) by (clear - Hok Hr; induction Hr; eauto using jobs_ok_step). unfold jobcount_Reduce. f_equal. rewrite invocations_spec, (jo_calls _ Hs).
  unfold len. rewrite Hn, Z.add_0_l. f_equal. unfold size, set_size, compose. apply Permutation_length. apply NoDup_Permutation; [apply NoDup_filter, NoDup_elements|apply NoDup_elements|].
  intros x. rewrite list_elem_of_filter, !elem_of_elements, elem_of_filter. done.
Qed.

(** ** Two workers *)

Definition two_workers : Workers :=
  mkWorkers (mkWorld {[ "mr-1-1"; myfilename "map" 11; myfilename "map" 22 ]} {[ 11; 22 ]} (λ _, false)) {[ 11 := Announced; 22 := Announced ]}.
Definition empty_dir : Workers := mkWorkers (mkWorld {[ "mr-1-1" ]} ∅ (λ _, false)) ∅.

(** Process 22 reads the directory, 11 ends before it is asked for. *)
Definition two_reading : Workers := mkWorkers (world two_workers) (<[22 := Probing (elements (files (world two_workers))) 0]> (procs two_workers)).
Definition one_left : Workers :=
  mkWorkers (mkWorld (files (world two_workers)) {[ 22 ]} (λ _, false)) {[ 11 := Announced; 22 := Probing [] 1 ]}.

Lemma nparallel_counts_witness :
  parallel two_workers = {[ 11; 22 ]} ∧
  ∃ C : gset Z, 1 = Z.of_nat (size C) ∧ C ⊆ parallel two_workers ∧ 22 ∈ C.
Proof.
  split; [vm_compute; reflexivity|].
  destruct (nparallel_counts "map" empty_dir two_workers 22 (elements (files (world two_workers))) two_reading one_left 1) as [(C&Hs&Hsub&_&Hin) _].
  - split_and!; [done..|]. intros f Hf. change (f ∈ ({[ "mr-1-1" ]} : gset string)) in Hf. apply elem_of_singleton in Hf as ->. vm_compute. reflexivity.
  - eapply rtc_l; [apply (work_spawn _ _ 11); [lia|done]|]. eapply rtc_l; [apply (work_spawn _ _ 22); [lia|done]|].
    eapply rtc_l; [eapply (work_run _ _ 11 (elements _)); [vm_compute; reflexivity|set_solver|done|reflexivity]|].
    eapply rtc_l; [eapply (work_run _ _ 22 (elements _)); [vm_compute; reflexivity|set_solver|done|reflexivity]|].
    refine (eq_ind_r (λ z, rtc (work "map") z two_workers) (rtc_refl _ _) _). vm_compute. reflexivity.
  - vm_compute. reflexivity.
  - set_solver.
  - done.
  - reflexivity.
  - eapply rtc_l; [split; [apply (work_exit _ _ 11)|vm_compute; eauto]|].
    do 3 (eapply rtc_l; [split; [eapply (work_run _ _ 22 (elements _)); [vm_compute; reflexivity|vm_compute; reflexivity|done|reflexivity]|vm_compute; eauto]|]).
    refine (eq_ind_r (λ z, rtc (probing "map" 22) z one_left) (rtc_refl _ _) _). vm_compute. reflexivity.
  - vm_compute. reflexivity.
  - exists C. split; [exact Hs|]. split; [exact Hsub|]. apply Hin. vm_compute. reflexivity.
Defined.
End MrTiming.
