(* ===== verification/MrTheorems.v ===== *)
(** * Theorems about MapReduce jobs *)

From stdpp Require Import pretty.
From S2P Require Import Prelude MrCoordinator MrCoordinatorFacts MrWorker MrWorkerFacts MrContents MrSystem MrJson MrApps.

Module MrTheorems.
Import MrCoordinator MrCoordinatorFacts MrWorker MrWorkerFacts MrContents MrSystem MrJson MrApps.

Section Job.
Context `{SortByKey, JsonCodec}.
Context (mapf : string → string → list KeyValue) (reducef : string → list string → string).
Context (files : list string) (nReduce : Z) (fs0 : FS).

Lemma reduce_input_part all p :
  job_ok mapf files nReduce fs0 all →
  reduce_input mapf files nReduce fs0 p ≡ₚ part nReduce (Z.of_nat p) all.
Proof.
  intros Hj. rewrite (all_pairs _ _ _ _ _ Hj). unfold reduce_input.
  induction (seq 0 (length files)) as [|m ms IH]; csimpl; [done|].
  by rewrite part_app, sort_permutation, IH.
Qed.

(** Output files that are all written hold together what the sequential program
    writes. *)
Lemma outputs_agree all fs :
  job_ok mapf files nReduce fs0 all → order_insensitive reducef →
  (∀ p, (p < Z.to_nat nReduce)%nat → reduce_written mapf reducef files nReduce fs0 fs p) →
  ∃ outs lines,
    mrsequential mapf reducef fs0 files = Some (Create "mr-out-0" :: (Append "mr-out-0" <$> lines)) ∧
    length outs = Z.to_nat nReduce ∧
    (∀ p l, outs !! p = Some l → fs !! mr_out (Z.of_nat p + 1) = Some (cat l)) ∧
    concat outs ≡ₚ lines.
Proof.
  intros Hj Ho Hw.
  exists ((λ p : nat, reduce_reference reducef (part nReduce (Z.of_nat p) all)) <$> seq 0 (Z.to_nat nReduce)),
    (reduce_lines reducef all). split_and!.
  - unfold mrsequential. by rewrite (jo_inputs _ _ _ _ _ Hj).
  - by rewrite length_fmap, length_seq.
  - intros p l Hl. rewrite list_lookup_fmap in Hl. apply fmap_Some in Hl as (q&[-> Hq]%lookup_seq&->). simpl.
    rewrite (Hw p Hq), reduce_lines_correct by done. do 2 f_equal.
    apply reduce_reference_Permutation, reduce_input_part; done.
  - rewrite reduce_lines_correct by done. apply reduce_reference_partition, (jo_reduces _ _ _ _ _ Hj).
Qed.

(** A finished job produced the right output.  However workers crash, time
    out and are replaced, when [Done] holds the files [mr-out-1 .. mr-out-n] hold
    lines that are together exactly those the sequential program writes, provided
    Reduce ignores the order of its values. *)
Theorem job_output_correct all s :
  job_ok mapf files nReduce fs0 all → order_insensitive reducef →
  sys_reachable mapf reducef files nReduce fs0 s → Done (coord s) = true →
  ∃ outs lines,
    mrsequential mapf reducef fs0 files = Some (Create "mr-out-0" :: (Append "mr-out-0" <$> lines)) ∧
    length outs = Z.to_nat nReduce ∧
    (∀ p l, outs !! p = Some l → files_of s !! mr_out (Z.of_nat p + 1) = Some (cat l)) ∧
    concat outs ≡ₚ lines.
Proof.
  intros Hj Ho Hr HD. pose proof (sys_reachable_ok _ _ _ _ _ _ Hj s Hr) as Hok. apply (outputs_agree all); [done..|].
  intros p Hp. pose proof (ok_static _ _ _ (so_coord _ _ _ _ _ s Hok)) as Hst. pose proof (static_active _ _ _ Hst) as (_&_&_&Hlen).
  destruct (lookup_lt_is_Some_2 (rheap (coord s)) p) as [t Ht]; [lia|].
  exact (so_reduces _ _ _ _ _ s Hok p t Ht (proj1 (Done_spec _ _ _ Hst) HD p t Ht)).
Qed.

(** The grouping loop of [doReduce] and of the sequential program calls Reduce
    once for each distinct key, in key order, with all the values of the key and
    nothing else, and writes one line for it. *)
Theorem reduce_lines_groups l :
  reduce_lines reducef l =
  (λ k, out_line k (reducef k (values_of k (sort l)))) <$> sorted_keys l ∧
  (∀ k, values_of k (sort l) ≡ₚ values_of k l).
Proof.
  split; [|intros k; by rewrite sort_permutation].
  rewrite reduce_lines_reference. unfold reduce_reference. by rewrite sort_permutation.
Qed.

(** C24: what a map task writes, the reduce tasks read, if its pairs survive JSON (they
    are valid UTF-8): whatever was in the directory, after the writes of [doMap] decoding file [mr-t-r] gives the pairs
    of the inputs whose key hashes to [r], sorted by key and nothing else, and
    every pair goes to one of the [n] files. *)
Theorem intermediate_roundtrip fs fns t n kvs :
  0 ≤ t → 0 < n → map_inputs mapf fs fns = Some kvs → Forall json_valid kvs →
  ∃ ops, doMap mapf fs fns t n = Some ops ∧
  (∀ fs' r, 0 ≤ r < n →
     let got := decode_file (fs_ops ops fs') (mr_file t (r + 1)) in
     Sorted ByKey got ∧ got ≡ₚ filter (λ kv, Z.rem (ihash (Key kv)) n = r) kvs) ∧
  (∀ kv, kv ∈ kvs → 0 ≤ Z.rem (ihash (Key kv)) n < n).
Proof.
  intros Ht Hn Hk Hv. destruct (doMap_spec mapf fs fns t n kvs Ht Hn Hk) as (ops&Ho&Hw&_).
  exists ops. split; [done|]. split; [|intros kv _; by apply bucket_range].
  intros fs' r Hr. rewrite (decode_file_cat _ _ (sort (part n r kvs))); [|..|by apply Hw].
  - split; [apply sort_sorted|by rewrite sort_permutation].
  - rewrite sort_permutation, Forall_forall. rewrite Forall_forall in Hv.
    intros kv [_ ?]%list_elem_of_filter. auto.
Qed.
End Job.

(** The word count counts words: run sequentially on one file, it writes for
    each distinct word, in order, the number of its occurrences, and the words
    are the letters of the file with nothing else dropped. *)
Theorem wc_counts `{SortByKey} (IsLetter : Z → bool) (f content : string) :
  let words := FieldsFunc content (ff IsLetter) in
  mrsequential (wc_Map IsLetter) wc_Reduce {[f := content]} [f] =
    Some (Create "mr-out-0" :: (Append "mr-out-0" <$>
      ((λ w, out_line w (pretty (len (filter (λ v, v = w) words)))) <$> sort_strings (remove_dups words)))) ∧
  cat words = cat (snd <$> filter (λ r, ff IsLetter (r.1) = false) (runes content)) ∧
  cat (snd <$> runes content) = content.
Proof.
  intros words. split_and!.
  - unfold mrsequential. simpl. rewrite lookup_singleton_eq. simpl. rewrite app_nil_r. do 3 f_equal.
    rewrite (reduce_lines_correct _ _ wc_Reduce_ok). unfold reduce_reference, wc_Map.
    rewrite wc_keys. apply list_fmap_ext. intros i w _. unfold wc_Reduce. by rewrite wc_values.
  - apply fields_loop_cat.
  - by apply (runes_cat (String.length content)).
Qed.

(** ** The theorems at work *)

Definition demo_fs : FS := {["x" := "a b a"; "y" := "b c"]}.
Definition ascii_letter (r : Z) : bool := (within 65 r 90) || (within 97 r 122).
Definition demo_all : list KeyValue :=
  (λ w, mkKeyValue w "1") <$> ["a"; "b"; "a"; "b"; "c"].

#[local] Existing Instances merge_sort_by_key ascii_json.

(** The first worker stalls and times out, a second one redoes its task, and both
    write; a third one crashes. *)
Definition demo_run : list SLabel :=
  [Ask; Ask; Expire 0; Ask; Work 2; Report 2; Work 1; Report 1; Work 0; Ask; Crash 1; Report 0;
   Expire 2; Ask; Work 0; Report 0; Ask; Work 0; Report 0].

Definition demo_end : System :=
  default (sys_start [] 0 ∅) (sys_run (wc_Map ascii_letter) wc_Reduce (sys_start ["x"; "y"] 2 demo_fs) demo_run).

Lemma demo_job : job_ok (wc_Map ascii_letter) ["x"; "y"] 2 demo_fs demo_all.
Proof.
  split; [vm_compute; reflexivity| |by repeat constructor|lia].
  intros f Hf m r. assert (f = "x" ∨ f = "y") as [-> | ->] by set_solver; split; intros E; discriminate E.
Qed.

Lemma job_output_correct_witness :
  ∃ outs lines, mrsequential (wc_Map ascii_letter) wc_Reduce demo_fs ["x"; "y"] =
      Some (Create "mr-out-0" :: (Append "mr-out-0" <$> lines)) ∧
    length outs = 2%nat ∧
    (∀ p l, outs !! p = Some l → files_of demo_end !! mr_out (Z.of_nat p + 1) = Some (cat l)) ∧ concat outs ≡ₚ lines.
Proof.
  apply (job_output_correct (wc_Map ascii_letter) wc_Reduce ["x"; "y"] 2 demo_fs demo_all demo_end);
    [apply demo_job|apply wc_Reduce_ok| |vm_compute; reflexivity].
  exists demo_run. vm_compute. reflexivity.
Defined.

Lemma intermediate_roundtrip_witness :
  ∃ ops, doMap (wc_Map ascii_letter) demo_fs ["x"] 1 2 = Some ops ∧
    decode_file (fs_ops ops ∅) (mr_file 1 1) ≡ₚ
      filter (λ kv, Z.rem (ihash (Key kv)) 2 = 0) (wc_Map ascii_letter "x" "a b a").
Proof.
  destruct (intermediate_roundtrip (wc_Map ascii_letter) demo_fs ["x"] 1 2
    (wc_Map ascii_letter "x" "a b a")) as (ops&Ho&Hr&_); [lia|lia|vm_compute; reflexivity|by repeat constructor|].
  exists ops. split; [exact Ho|]. apply (Hr ∅ 0). lia.
Defined.

(** C25: the writes of a map task are not atomic, and a worker that was given up can
    spoil a finished job: from the state where every map task is finished and a
    reduce task is being run, the late worker's first write (it truncates its
    file) makes the reduce task lose pairs. *)
Theorem zombie_map_corrupts_output :
  ∃ s ops,
    sys_run (wc_Map ascii_letter) wc_Reduce (sys_start ["x"] 1 demo_fs)
      [Ask; Expire 0; Ask; Work 1; Report 1; Ask] = Some s ∧
    maps_finished (coord s) ∧
    worker_task (wc_Map ascii_letter) wc_Reduce (files_of s) (mkCoordinatorReply ["x"] "MAP" 1 1) =
      Some (Create (mr_file 1 1) :: ops) ∧
    workers s !! 0%nat = Some (Working (mkCoordinatorReply ["x"] "MAP" 1 1)) ∧
    workers s !! 1%nat = Some (Working (mkCoordinatorReply [mr_file 1 1] "REDUCE" 1 1)) ∧
    reduce_lines wc_Reduce (decode_file (files_of s) (mr_file 1 1)) = [out_line "a" "2"; out_line "b" "1"] ∧
    reduce_lines wc_Reduce
      (decode_file (fs_op (files_of s) (Create (mr_file 1 1))) (mr_file 1 1)) = [].
Proof.
  eexists _, _. split; [vm_compute; reflexivity|]. split_and!.
  - intros p t Hp. destruct p as [|p]; [|done]. vm_compute in Hp. by injection Hp as <-.
  - vm_compute. reflexivity.
  - reflexivity.
  - vm_compute. reflexivity.
  - vm_compute. reflexivity.
  - vm_compute. reflexivity.
Qed.
End MrTheorems.
