(* ===== verification/MrPrograms.v ===== *)
(** * The MapReduce programs: [main/mrcoordinator.go], [main/mrworker.go], [main/mrsequential.go]

    What the commands do with their arguments, how they load an application, and how
    the processes of a job live and die: the coordinator serves calls while it polls
    [Done] and for a second longer, a worker ends when nobody answers its calls.

    A worker runs its task system call by system call: it opens a file, reads a part
    of it, creates a file, writes at its position in the file.  The steps of workers
    interleave, and a process may be killed between any two of them.

    [plugin.Open] and the outcome of [net.Listen] are arguments.  The processes of a
    job run for one user, who starts one coordinator.  A call and its handler are one
    step; a call is cut only by the end of the coordinator's process. *)

From stdpp Require Import pretty.
From S2P Require Import Prelude GoProcess MrCoordinator MrWorker.

Module MrPrograms.
Export GoProcess.
Import MrCoordinator MrWorker.

(** ** Plug-ins *)

Definition MapFunc : Type := string → string → list KeyValue.
Definition ReduceFunc : Type := string → list string → string.
Definition App : Type := MapFunc * ReduceFunc.

(** What a plug-in exports under a name. *)
Inductive Symbol := SymMap (f : MapFunc) | SymReduce (f : ReduceFunc) | SymOther.
Definition Plugin : Type := string → option Symbol.

(** A type assertion; the wrong type panics. *)
Definition as_map (x : Symbol) : Outcome MapFunc := match x with SymMap f => Goes f | _ => Panics end.
Definition as_reduce (x : Symbol) : Outcome ReduceFunc := match x with SymReduce f => Goes f | _ => Panics end.

(** ** Tasks, system call by system call *)

(** What [doMap] and [doReduce] do with files: read one from beginning to end ([None]
    if it cannot be opened), create one or write to the one created last, return, or
    end the process ([log.Fatalf], a panic). *)
Inductive Prog :=
  | IORead (name : string) (k : option string → Prog)
  | IODo (op : FsOp) (p : Prog)
  | IODone
  | IOFatal.

Definition do_ops (ops : list FsOp) (p : Prog) : Prog := foldr IODo p ops.

Section Tasks.
Context `{SortByKey, JsonCodec}.

Fixpoint map_prog (mapf : MapFunc) (taskId reduceN : Z) (intermediate : list KeyValue) (fileNames : list string) : Prog :=
  match fileNames with
  | filename :: fileNames =>
      IORead filename (λ content,
        match content with
        | None => IOFatal
        | Some content => map_prog mapf taskId reduceN (intermediate ++ mapf filename content) fileNames
        end)
  | [] =>
      match split_bulks reduceN intermediate with
      | None => IOFatal
      | Some bulks => do_ops (concat (write_bulk taskId bulks <$> seq 0 (Z.to_nat reduceN))) IODone
      end
  end.

(** A file that cannot be opened decodes to nothing. *)
Definition decode_text (content : option string) : list KeyValue :=
  let s := default "" content in decode_loop (S (String.length s)) s.

Fixpoint reduce_reads (reducef : ReduceFunc) (taskId : Z) (intermediate : list KeyValue) (fileNames : list string) : Prog :=
  match fileNames with
  | fileName :: fileNames =>
      IORead fileName (λ content, reduce_reads reducef taskId (intermediate ++ decode_text content) fileNames)
  | [] => do_ops (Append (mr_out taskId) <$> reduce_lines reducef intermediate) IODone
  end.
Definition reduce_prog (reducef : ReduceFunc) (taskId : Z) (fileNames : list string) : Prog :=
  IODo (Create (mr_out taskId)) (reduce_reads reducef taskId [] fileNames).

(** What [Worker] does with a reply. *)
Definition task_prog (app : App) (reply : CoordinatorReply) : Prog :=
  if String.eqb (cr_TaskType reply) "MAP" then
    map_prog app.1 (cr_TaskId reply) (cr_ReduceN reply) [] (cr_FileName reply)
  else if String.eqb (cr_TaskType reply) "REDUCE" then reduce_prog app.2 (cr_TaskId reply) (cr_FileName reply)
  else IODone.
End Tasks.

(** A process in a task: what is left, what it has read of the file it has open, and
    its position in the file it writes. *)
Record Io := mkIo { todo : Prog; got : option string; offset : nat }.

Fixpoint zeros (n : nat) : string := match n with O => "" | S n => String Ascii.zero (zeros n) end.

(** A write at a position: what was there is overwritten, and a gap is filled. *)
Definition write_at (pos : nat) (data content : string) : string :=
  String.substring 0 pos content +:+ zeros (pos - String.length content) +:+ data +:+
  String.substring (pos + String.length data) (String.length content) content.

(** One system call; a read returns at most [S size] bytes, and none at the end. *)
Definition io_step (size : nat) (io : Io) (fs : FS) : Io * FS :=
  match todo io with
  | IORead name k =>
      match got io, fs !! name with
      | None, None => (mkIo (k None) None (offset io), fs)
      | None, Some _ => (mkIo (todo io) (Some "") (offset io), fs)
      | Some s, content =>
          match String.substring (String.length s) (S size) (default "" content) with
          | EmptyString => (mkIo (k (Some s)) None (offset io), fs)
          | chunk => (mkIo (todo io) (Some (s +:+ chunk)) (offset io), fs)
          end
      end
  | IODo (Create name) p => (mkIo p None 0, <[name := ""]> fs)
  | IODo (Append name data) p => (mkIo p None (offset io + String.length data), alter (write_at (offset io) data) name fs)
  | IODone | IOFatal => (io, fs)
  end.

Section Programs.
Context `{SortByKey, JsonCodec}.
Context (Open : string → option Plugin).

Definition loadPlugin (filename : string) : Outcome App :=
  p ← or_fatal (Open filename) ("cannot load plugin " +:+ filename);
  xmapf ← or_fatal (p "Map") ("cannot find Map in " +:+ filename);
  mapf ← as_map xmapf;
  xreducef ← or_fatal (p "Reduce") ("cannot find Reduce in " +:+ filename);
  reducef ← as_reduce xreducef;
  Goes (mapf, reducef).

(** [mrsequential.go] has its own copy. *)
Definition seq_loadPlugin : string → Outcome App := loadPlugin.

(** ** The commands *)

(** [main] of [mrsequential.go]: what it writes. *)
Definition mrsequential_main (Args : list string) (fs : FS) : Outcome (list FsOp) :=
  match Args with
  | _ :: so :: ((_ :: _) as files) =>
      '(mapf, reducef) ← seq_loadPlugin so;
      match mrsequential mapf reducef fs files with
      | Some ops => Goes ops
      | None => Fatalf ("cannot open " +:+ default "" (snd <$> list_find (λ f, fs !! f = None) files))
      end
  | _ => Exits 1 ("Usage: mrsequential xxx.so inputfiles..." +:+ nl)
  end.

(** [main] of [mrworker.go] up to the call of [mr.Worker]. *)
Definition mrworker_main (Args : list string) : Outcome App :=
  match Args with
  | [_; so] => loadPlugin so
  | _ => Exits 1 ("Usage: mrworker xxx.so" +:+ nl)
  end.

(** [coordinatorSock], for the user with number [uid]. *)
Definition coordinatorSock (uid : Z) : string := "/var/tmp/824-mr-" +:+ pretty uid.

(** [server]: [listen] is the error of [net.Listen], if there is one. *)
Definition server (listen : option string) (c : Coordinator) : Outcome Coordinator :=
  match listen with Some e => Fatalf ("listen error:" +:+ e) | None => Goes c end.

(** [main] of [mrcoordinator.go] up to the loop. *)
Definition mrcoordinator_main (Args : list string) (listen : option string) : Outcome Coordinator :=
  match Args with
  | _ :: ((_ :: _) as files) => server listen (MakeCoordinator files 10)
  | _ => Exits 1 ("Usage: mrcoordinator inputfiles..." +:+ nl)
  end.

(** ** Processes *)

(** The coordinator's process: in the loop on [Done], in the last second, or no
    longer there. *)
Inductive Host := Polling (c : Coordinator) | Leaving (c : Coordinator) | Gone.

(** The coordinator that answers calls. *)
Definition serving (h : Host) : option Coordinator :=
  match h with Polling c | Leaving c => Some c | Gone => None end.
Definition set_coord (c : Coordinator) (h : Host) : Host :=
  match h with Polling _ => Polling c | Leaving _ => Leaving c | Gone => Gone end.

(** [call]: the coordinator's process after it, and the result: [None] is the
    [log.Fatal] when dialing fails, [Some None] is [false].  [cut] tells whether the
    connection was made before the coordinator's process ended.  A handler that
    panics takes the process with it. *)
Definition call {R} (h : Host) (cut : bool) (handler : Coordinator → option (Coordinator * R)) : Host * option (option R) :=
  match serving h with
  | None => (h, if cut then Some None else None)
  | Some c =>
      match handler c with
      | Some (c, r) => (set_coord c h, Some (Some r))
      | None => (Gone, Some None)
      end
  end.

(** What [CallExample] prints. *)
Definition CallExample (h : Host) (cut : bool) : Outcome string :=
  match (call h cut (λ c, Some (c, Example_handler 99))).2 with
  | None => Fatalf "dialing:"
  | Some (Some y) => Goes ("reply.Y " +:+ pretty y +:+ nl)
  | Some None => Goes ("call failed!" +:+ nl)
  end.

(** A worker's process: asleep at the top of the loop of [Worker], in a task, with a
    task to report, or ended. *)
Inductive Proc :=
  | Asleep (app : App) | Busy (app : App) (reply : CoordinatorReply) (io : Io) | Reporting (app : App) (reply : CoordinatorReply)
  | Ended.

Record World := mkWorld { host : Host; disk : FS; procs : list Proc }.

Inductive Event :=
  | Poll | Leave                      (* the coordinator calls Done; it returns *)
  | Timeout (i : nat)                 (* a time-out goroutine of the coordinator *)
  | Spawn (Args : list string)        (* mrworker is started *)
  | Ask (k : nat) (cut : bool)        (* worker k calls HandleWorker *)
  | Run (k size : nat)                (* worker k makes the next system call of its task *)
  | Report (k : nat) (cut : bool)     (* worker k calls HandleFinish *)
  | Kill (k : nat).                   (* process k is killed *)

Definition set_proc (k : nat) (p : Proc) (w : World) : World := mkWorld (host w) (disk w) (<[k := p]> (procs w)).

(** One turn of the loop of [Worker], call by call. *)
Definition ask (k : nat) (cut : bool) (app : App) (w : World) : World :=
  let '(h, res) := call (host w) cut HandleWorker in
  let w := mkWorld h (disk w) (procs w) in
  match res with
  | None => set_proc k Ended w
  | Some None => set_proc k Ended w                       (* break *)
  | Some (Some reply) =>
      if String.eqb (cr_TaskType reply) "MAP" then set_proc k (Busy app reply (mkIo (task_prog app reply) None 0)) w
      else if String.eqb (cr_TaskType reply) "REDUCE" then set_proc k (Busy app reply (mkIo (task_prog app reply) None 0)) w
      else set_proc k (Asleep app) w
  end.

(** The process after a system call of its task. *)
Definition after (app : App) (reply : CoordinatorReply) (io : Io) : Proc :=
  match todo io with IODone => Reporting app reply | IOFatal => Ended | _ => Busy app reply io end.

Definition run_task (k size : nat) (app : App) (reply : CoordinatorReply) (io : Io) (w : World) : World :=
  let '(io, fs) := io_step size io (disk w) in
  mkWorld (host w) fs (<[k := after app reply io]> (procs w)).

(** The result of the second call is not looked at. *)
Definition report (k : nat) (cut : bool) (app : App) (reply : CoordinatorReply) (w : World) : World :=
  let args := mkCoordinatorFinishArgs (cr_TaskId reply) (cr_TaskType reply) in
  let '(h, res) := call (host w) cut (λ c, c ← HandleFinish args c; Some (c, tt)) in
  let w := mkWorld h (disk w) (procs w) in
  match res with None => set_proc k Ended w | Some _ => set_proc k (Asleep app) w end.

Definition step (w : World) (e : Event) : option World :=
  match e with
  | Poll => match host w with Polling c => Some (mkWorld (if Done c then Leaving c else Polling c) (disk w) (procs w)) | _ => None end
  | Leave => match host w with Leaving _ => Some (mkWorld Gone (disk w) (procs w)) | _ => None end
  | Timeout i => c ← serving (host w); c ← timeout i c; Some (mkWorld (set_coord c (host w)) (disk w) (procs w))
  | Spawn Args => Some (mkWorld (host w) (disk w) (procs w ++ [match mrworker_main Args with Goes app => Asleep app | _ => Ended end]))
  | Ask k cut => match procs w !! k with Some (Asleep app) => Some (ask k cut app w) | _ => None end
  | Run k size => match procs w !! k with Some (Busy app reply io) => Some (run_task k size app reply io w) | _ => None end
  | Report k cut => match procs w !! k with Some (Reporting app reply) => Some (report k cut app reply w) | _ => None end
  | Kill k => match procs w !! k with Some _ => Some (set_proc k Ended w) | None => None end
  end.

Fixpoint steps (w : World) (es : list Event) : option World :=
  match es with [] => Some w | e :: es => w ← step w e; steps w es end.
End Programs.
End MrPrograms.
