(* ===== verification/MrIoFacts.v ===== *)
(** * Tasks, system call by system call: facts

    Which files a task writes, reading a file in parts, and writing at the position
    of a handle: while nobody else writes the file, that is appending to it.  A task
    comes to an end if its process goes on. *)

From stdpp Require Import pretty.
From S2P Require Import Prelude MrCoordinator MrWorker MrWorkerFacts MrPrograms.

Module MrIoFacts.
Import MrCoordinator MrWorker MrWorkerFacts MrPrograms.

(** ** Parts of strings *)

Lemma substring_skip s t n : String.substring (String.length s) n (s +:+ t) = String.substring 0 n t.
Proof. induction s as [|a s IH]; [done|]. rewrite app_String. done. Qed.

Lemma substring_take n t : ∃ u, t = String.substring 0 n t +:+ u.
Proof.
  revert n. induction t as [|a t IH]; intros n; [by exists ""; destruct n|]. destruct n as [|n]; [by exists (String a t)|].
  destruct (IH n) as [u E]. exists u. simpl. rewrite app_String. by rewrite <-E.
Qed.

Lemma substring_all n t : (String.length t ≤ n)%nat → String.substring 0 n t = t.
Proof. revert n. induction t as [|a t IH]; intros [|n] Hn; simpl in *; [done..|lia|]. f_equal. apply IH. lia. Qed.

Lemma substring_beyond n m t : (String.length t ≤ n)%nat → String.substring n m t = "".
Proof. revert n. induction t as [|a t IH]; intros [|n] Hn; simpl in *; [by destruct m..|lia|]. apply IH. lia. Qed.

Lemma substring_none n t : String.substring 0 (S n) t = "" → t = "".
Proof. by destruct t. Qed.

Lemma length_app_string s t : String.length (s +:+ t) = (String.length s + String.length t)%nat.
Proof. induction s as [|a s IH]; [done|]. rewrite app_String. simpl. by rewrite IH. Qed.

Lemma write_at_end data c : write_at (String.length c) data c = c +:+ data.
Proof. unfold write_at. rewrite substring_all, Nat.sub_diag, substring_beyond by lia. simpl. by rewrite app_empty. Qed.

(** ** The files a task writes *)

Definition op_file (op : FsOp) : string := match op with Create f | Append f _ => f end.

Fixpoint writes_to (P : string → Prop) (p : Prog) : Prop :=
  match p with
  | IORead _ k => ∀ c, writes_to P (k c)
  | IODo op p => P (op_file op) ∧ writes_to P p
  | IODone | IOFatal => True
  end.

Lemma writes_do_ops (P : string → Prop) ops p : Forall (λ op, P (op_file op)) ops → writes_to P p → writes_to P (do_ops ops p).
Proof. induction 1; simpl; auto. Qed.

Lemma writes_to_imp (P Q : string → Prop) p : (∀ f, P f → Q f) → writes_to P p → writes_to Q p.
Proof. intros HPQ. induction p; simpl; naive_solver. Qed.

Lemma io_step_frame (P : string → Prop) size io fs io' fs' : writes_to P (todo io) → io_step size io fs = (io', fs') →
  writes_to P (todo io') ∧ ∀ f, ¬ P f → fs' !! f = fs !! f.
Proof.
  intros Hw E. unfold io_step in E. destruct io as [[name k|[name|name data] p| |] g off]; simpl in *.
  - destruct g as [s|]; [destruct (String.substring _ _ _)|destruct (fs !! name)]; by simplify_eq/=.
  - simplify_eq/=. destruct Hw as [Hn Hw]. split; [done|]. intros f Hf. rewrite lookup_insert_ne; [done|by intros ->].
  - simplify_eq/=. destruct Hw as [Hn Hw]. split; [done|]. intros f Hf. rewrite lookup_alter_ne; [done|by intros ->].
  - by simplify_eq/=.
  - by simplify_eq/=.
Qed.

Section Programs.
Context `{SortByKey, JsonCodec}.

Lemma write_bulks_files t bulks rs : Forall (λ op, ∃ r, op_file op = mr_file t r) (concat (write_bulk t bulks <$> rs)).
Proof.
  apply Forall_concat, Forall_fmap, Forall_true. intros r. simpl. unfold write_bulk. apply Forall_cons. split; [by eexists|].
  destruct (bulks !! Z.of_nat r); [|done]. apply Forall_fmap, Forall_true. intros kv. by eexists.
Qed.

Lemma map_prog_writes mapf t n acc fns : writes_to (λ f, ∃ r, f = mr_file t r) (map_prog mapf t n acc fns).
Proof.
  revert acc. induction fns as [|f fns IH]; intros acc; simpl; [|by intros [c|]; [apply IH|]].
  destruct (split_bulks n acc) as [bulks|]; [|done]. apply writes_do_ops; [apply write_bulks_files|done].
Qed.

Lemma reduce_prog_writes reducef t fns : writes_to (λ f, f = mr_out t) (reduce_prog reducef t fns).
Proof.
  split; [done|]. generalize (@nil KeyValue) as acc. induction fns as [|f fns IH]; intros acc; simpl; [|auto].
  apply writes_do_ops; [|done]. by apply Forall_fmap, Forall_true.
Qed.

(** ** Writing *)

(** The position of the process in the file it created last. *)
Definition at_end (cur : option string) (off : nat) (fs : FS) : Prop :=
  match cur with None => True | Some f => ∃ c, fs !! f = Some c ∧ off = String.length c end.

(** Every write goes to the file created last. *)
Fixpoint ordered (cur : option string) (ops : list FsOp) : Prop :=
  match ops with
  | [] => True
  | Create f :: ops => ordered (Some f) ops
  | Append f _ :: ops => cur = Some f ∧ ordered cur ops
  end.

Lemma ordered_appends f ss : ordered (Some f) (Append f <$> ss).
Proof. induction ss; by split. Qed.

Lemma ordered_bulks t bulks rs : ∀ cur, ordered cur (concat (write_bulk t bulks <$> rs)).
Proof.
  induction rs as [|r rs IH]; intros cur; [done|]. csimpl. unfold write_bulk at 1. simpl.
  destruct (bulks !! Z.of_nat r) as [kvs|]; [|apply IH]. induction kvs as [|kv kvs IHk]; [apply IH|by split].
Qed.

(** A write at the position of the process appends. *)
Lemma io_step_op size op p g off fs cur ops : ordered cur (op :: ops) → at_end cur off fs →
  ∃ off', io_step size (mkIo (IODo op p) g off) fs = (mkIo p None off', fs_op fs op) ∧
    ordered (Some (op_file op)) ops ∧ at_end (Some (op_file op)) off' (fs_op fs op).
Proof.
  intros Ho Hc. destruct op as [f|f data]; simpl in *.
  - exists 0%nat. split_and!; [done..|]. exists "". by rewrite lookup_insert_eq.
  - destruct Ho as [-> Ho]. destruct Hc as (c&Hf&->). exists (String.length c + String.length data)%nat. unfold io_step. simpl. split_and!; [|done|].
    + f_equal. apply alter_ext. intros c' Hc'. simplify_eq. apply write_at_end.
    + exists (c +:+ data). rewrite lookup_alter_eq, Hf. split; [done|]. by rewrite length_app_string.
Qed.

(** Files that agree still agree after an operation on both. *)
Lemma fs_op_agree (P : string → Prop) op (fs fs' : FS) : (∀ f, P f → fs !! f = fs' !! f) → ∀ f, P f → fs_op fs op !! f = fs_op fs' op !! f.
Proof.
  intros Ha f Hf. destruct op as [g|g data]; simpl; destruct (decide (g = f)) as [->|Hne].
  - by rewrite !lookup_insert_eq.
  - rewrite !lookup_insert_ne by done. auto.
  - rewrite !lookup_alter_eq. by rewrite Ha.
  - rewrite !lookup_alter_ne by done. auto.
Qed.

(** The process has made the first of the writes [ops], to files nobody else touches,
    and the rest is to come. *)
Definition writing (P : string → Prop) (ops : list FsOp) (io : Io) (fs : FS) : Prop :=
  ∃ past rest cur fs1, ops = past ++ rest ∧ todo io = do_ops rest IODone ∧ ordered cur rest ∧ at_end cur (offset io) fs ∧
    (∀ f, cur = Some f → P f) ∧ ∀ f, P f → fs !! f = fs_ops past fs1 !! f.

Lemma writing_start (P : string → Prop) ops io fs : todo io = do_ops ops IODone → ordered None ops → writing P ops io fs.
Proof. intros. by exists [], ops, None, fs. Qed.

Lemma writing_step (P : string → Prop) ops size io fs io' fs' : Forall (λ op, P (op_file op)) ops →
  writing P ops io fs → io_step size io fs = (io', fs') → writing P ops io' fs'.
Proof.
  intros HP (past&rest&cur&fs1&->&Ht&Ho&He&Hc&Ha) E. destruct io as [p g off]. simpl in *. subst p. destruct rest as [|op rest]; simpl in E.
  { unfold io_step in E. simplify_eq/=. by exists past, [], cur, fs1. }
  apply Forall_app in HP as [_ HP]. inversion_clear HP as [|?? Hop HP'].
  destruct (io_step_op size op (do_ops rest IODone) g off fs cur rest Ho He) as (off'&E'&Ho'&He'). rewrite E in E'. simplify_eq.
  exists (past ++ [op]), rest, (Some (op_file op)), fs1. rewrite <-app_assoc. split_and!; [done..|by intros f [= <-]|].
  intros f Hf. rewrite fs_ops_app. by apply (fs_op_agree P).
Qed.

Lemma writing_frame (P : string → Prop) ops io (fs fs' : FS) : (∀ f, P f → fs' !! f = fs !! f) → writing P ops io fs → writing P ops io fs'.
Proof.
  intros Hf (past&rest&cur&fs1&->&Ht&Ho&He&Hc&Ha). exists past, rest, cur, fs1. split_and!; [done..| |done|].
  - destruct cur as [g|]; [|done]. simpl. rewrite Hf by (by apply Hc). done.
  - intros f HPf. rewrite Hf by done. auto.
Qed.

Lemma writing_done (P : string → Prop) ops io fs : writing P ops io fs → todo io = IODone → ∃ fs1, ∀ f, P f → fs !! f = fs_ops ops fs1 !! f.
Proof.
  intros (past&rest&cur&fs1&->&Ht&_&_&_&Ha) Hd. exists fs1. destruct rest; [|rewrite Ht in Hd; done]. by rewrite app_nil_r.
Qed.

Lemma do_ops_not_fatal ops : do_ops ops IODone ≠ IOFatal.
Proof. by destruct ops. Qed.

(** ** Reading *)

(** What a process has read of a file with the given content. *)
Definition reading (g : option string) (content : string) : Prop := match g with None => True | Some s => ∃ t, content = s +:+ t end.

(** One system call on a file that does not change: part of it, or all. *)
Lemma io_step_read size name k g off fs content : fs !! name = Some content → reading g content →
  ∃ io', io_step size (mkIo (IORead name k) g off) fs = (io', fs) ∧ offset io' = off ∧
    ((todo io' = IORead name k ∧ reading (got io') content) ∨ io' = mkIo (k (Some content)) None off).
Proof.
  intros Hf Hr. unfold io_step. simpl. rewrite Hf. destruct g as [s|]; simpl in *.
  - destruct Hr as [t ->]. rewrite substring_skip. destruct (substring_take (S size) t) as [u Hu].
    destruct (String.substring 0 (S size) t) as [|a x] eqn:E.
    + apply substring_none in E as ->. rewrite app_empty. eexists. split_and!; [done..|]. by right.
    + eexists. split_and!; [done..|]. left. split; [done|]. exists u. simpl. by rewrite Hu, app_assoc'.
  - eexists. split_and!; [done..|]. left. split; [done|]. by exists content.
Qed.
End Programs.

(** ** Running a task to its end *)

(** A system call of the process, with the files it acts on. *)
Definition io_rel (x y : Io * FS) : Prop := ∃ size, io_step size x.1 x.2 = y.

Lemma length_substring n m s : (String.length s ≤ n + m)%nat → String.length (String.substring n m s) = (String.length s - n)%nat.
Proof.
  revert n m. induction s as [|a s IH]; intros [|n] [|m] Hl; simpl in *; [done..|lia|rewrite IH; lia|rewrite IH; lia|rewrite IH; lia].
Qed.

(** A read comes to the end of the file; from the beginning it gives the content. *)
Lemma read_ends name k g off (fs : FS) :
  ∃ c, rtc io_rel (mkIo (IORead name k) g off, fs) (mkIo (k c) None off, fs) ∧ (g = None → c = fs !! name).
Proof.
  assert (Hrest : ∀ s, ∃ t, rtc io_rel (mkIo (IORead name k) (Some s) off, fs) (mkIo (k (Some (s +:+ t))) None off, fs) ∧ (s = "" → t = default "" (fs !! name))).
  { intros s. set (content := default "" (fs !! name)). set (n := String.length content).
    exists (String.substring (String.length s) (S n) content). split; [|intros ->; apply substring_all; subst n; lia].
    destruct (String.substring (String.length s) (S n) content) as [|a t] eqn:E.
    - rewrite app_empty. apply rtc_once. exists n. unfold io_step. simpl. fold content. by rewrite E.
    - eapply rtc_l; [exists n; unfold io_step; simpl; fold content; by rewrite E|]. apply rtc_once. exists n. unfold io_step. simpl. fold content.
      rewrite <-E, substring_beyond; [done|]. rewrite length_app_string, length_substring by lia. lia. }
  destruct g as [s|]; [destruct (Hrest s) as (t&Hr&_); by exists (Some (s +:+ t))|]. destruct (fs !! name) as [content|] eqn:Ef.
  - destruct (Hrest "") as (t&Hr&Ht). exists (Some content). split; [|done]. eapply rtc_l; [exists 0%nat; unfold io_step; simpl; by rewrite Ef|].
    specialize (Ht eq_refl). simpl in Ht. subst t. exact Hr.
  - exists None. split; [|done]. apply rtc_once. exists 0%nat. unfold io_step. simpl. by rewrite Ef.
Qed.

(** A write is one system call. *)
Lemma write_ends size op p g off (fs : FS) :
  ∃ off' fs', io_step size (mkIo (IODo op p) g off) fs = (mkIo p None off', fs') ∧ ∀ f, f ≠ op_file op → fs' !! f = fs !! f.
Proof.
  destruct op as [name|name data]; (do 2 eexists; split; [done|]); simpl; intros f Hf; [by rewrite lookup_insert_ne|by rewrite lookup_alter_ne].
Qed.

(** Every task comes to an end. *)
Lemma task_ends p : ∀ g off (fs : FS), ∃ io' fs', rtc io_rel (mkIo p g off, fs) (io', fs') ∧ (todo io' = IODone ∨ todo io' = IOFatal).
Proof.
  induction p as [name k IH|op p IH| |]; intros g off fs.
  - destruct (read_ends name k g off fs) as (c&Hr&_). destruct (IH c None off fs) as (io'&fs'&Hr'&?). exists io', fs'. split; [by etrans|done].
  - destruct (write_ends 0 op p g off fs) as (off1&fs1&E&_). destruct (IH None off1 fs1) as (io'&fs'&Hr&?).
    exists io', fs'. split; [|done]. eapply rtc_l; [by exists 0%nat|done].
  - do 2 eexists. split; [done|]. by left.
  - do 2 eexists. split; [done|]. by right.
Qed.

(** The task does not fail as long as the files [files] are as in [fs0]. *)
Fixpoint safe (files : list string) (fs0 : FS) (p : Prog) : Prop :=
  match p with
  | IORead f k => (f ∈ files → safe files fs0 (k (fs0 !! f))) ∧ (f ∉ files → ∀ c, safe files fs0 (k c))
  | IODo _ p => safe files fs0 p
  | IODone => True
  | IOFatal => False
  end.

Lemma safe_do_ops files fs0 ops p : safe files fs0 p → safe files fs0 (do_ops ops p).
Proof. by induction ops. Qed.

Lemma task_succeeds files (fs0 : FS) p : ∀ off (fs : FS), safe files fs0 p → writes_to (λ f, f ∉ files) p → (∀ f, f ∈ files → fs !! f = fs0 !! f) →
  ∃ io' fs', rtc io_rel (mkIo p None off, fs) (io', fs') ∧ todo io' = IODone.
Proof.
  induction p as [name k IH|op p IH| |]; intros off fs Hs Hw Hfs; simpl in Hs, Hw; [| | |done].
  - destruct (read_ends name k None off fs) as (c&Hr&Hc). specialize (Hc eq_refl).
    destruct (IH c off fs) as (io'&fs'&Hr'&?); [|apply Hw|done|exists io', fs'; split; [by etrans|done]].
    destruct Hs as [H1 H2]. destruct (decide (name ∈ files)) as [Hin|Hin]; [rewrite Hc, Hfs by done; auto|auto].
  - destruct (write_ends 0 op p None off fs) as (off1&fs1&E&Hf). destruct (IH off1 fs1) as (io'&fs'&Hr&?); [done|apply Hw| |].
    + intros f Hin. rewrite Hf; [auto|]. intros ->. by destruct Hw.
    + exists io', fs'. split; [|done]. eapply rtc_l; [by exists 0%nat|done].
  - do 2 eexists. split; done.
Qed.
End MrIoFacts.
