(* ===== verification/MrAgreement.v ===== *)
(** * The processes of a MapReduce job keep their files in order

    The invariants behind the theorems on the MapReduce programs.  [winv] holds of
    every state of a job: the coordinator is in order, the inputs are untouched, and
    every process writes the files of the task it was given.  [ainv] holds as long as
    no task is given up while a process still works on it: then a task has one
    process at most, whose files are as far as its program is, and finished tasks
    have written what they should. *)

From stdpp Require Import pretty.
From S2P Require Import Prelude MrCoordinator MrCoordinatorFacts MrWorker MrWorkerFacts MrContents MrSystem MrPrograms MrIoFacts.

Module MrAgreement.
Import MrCoordinator MrCoordinatorFacts MrWorker MrWorkerFacts MrContents MrSystem MrPrograms MrIoFacts.

(** ** Tasks *)

Inductive Task := TMap (p : nat) | TReduce (p : nat).

#[export] Instance Task_eq_dec : EqDecision Task.
Proof. solve_decision. Defined.

Definition status (c : Coordinator) (t : Task) : option Z :=
  match t with TMap p => mt_Status <$> mheap c !! p | TReduce p => rt_Status <$> rheap c !! p end.

(** The files of a task. *)
Definition own (t : Task) (f : string) : Prop :=
  match t with TMap p => ∃ r, f = mr_file (Z.of_nat p + 1) r | TReduce p => f = mr_out (Z.of_nat p + 1) end.

Lemma own_disjoint t t' f : own t f → own t' f → t = t'.
Proof.
  destruct t as [p|p], t' as [q|q]; simpl.
  - intros [r ->] [r' [? _]%mr_file_inj]; [f_equal; lia|lia..].
  - intros [r ->] E. destruct (mr_file_not_out (Z.of_nat p + 1) r (Z.of_nat q + 1)); [lia|done].
  - intros -> [r E]. symmetry in E. destruct (mr_file_not_out (Z.of_nat q + 1) r (Z.of_nat p + 1)); [lia|done].
  - intros -> E%mr_out_inj. f_equal. lia.
Qed.

(** The task a time-out is for. *)
Definition timed (tm : Timer) : Task := match tm with MapTimer p => TMap p | ReduceTimer p => TReduce p end.

(** The task a process has, as the reply that gave it. *)
Definition held (pr : Proc) : option CoordinatorReply :=
  match pr with Busy _ reply _ | Reporting _ reply => Some reply | _ => None end.

(** The process has the task the time-out is for; tasks are numbered from 1. *)
Definition holds (tm : Timer) (pr : Proc) : bool :=
  match held pr, tm with
  | Some reply, MapTimer p => String.eqb (cr_TaskType reply) "MAP" && (cr_TaskId reply =? Z.of_nat p + 1)
  | Some reply, ReduceTimer p => String.eqb (cr_TaskType reply) "REDUCE" && (cr_TaskId reply =? Z.of_nat p + 1)
  | None, _ => false
  end.

(** A task is not given up while a process has it: within the ten seconds its worker
    reports the task or ends. *)
Definition prompt_at (w : World) (e : Event) : bool :=
  match e with
  | MrPrograms.Timeout i =>
      match c ← serving (host w); timers c !! i with
      | Some tm => forallb (λ pr, negb (holds tm pr)) (procs w)
      | None => true
      end
  | _ => true
  end.

Section Run.
Context `{SortByKey, JsonCodec} (Open : string → option Plugin).

Fixpoint prompt (w : World) (es : list Event) : bool :=
  match es with
  | [] => true
  | e :: es => prompt_at w e && match step Open w e with Some w => prompt w es | None => true end
  end.
End Run.

Section Job.
Context `{SortByKey, JsonCodec}.
Context (Open : string → option Plugin) (app : App).
Context (files : list string) (fs0 : FS) (all : list KeyValue).
Context (inputs : map_inputs app.1 fs0 files = Some all).
Context (names : ∀ f, f ∈ files → ∀ m r, f ≠ mr_file m r ∧ f ≠ mr_out r).

Notation step := (step Open).
Notation steps := (steps Open).

Definition reply_of (t : Task) (reply : CoordinatorReply) : Prop :=
  match t with TMap p => map_reply files 10 p reply | TReduce p => reduce_reply files 10 p reply end.

Lemma reply_of_task t t' reply : reply_of t reply → reply_of t' reply → t = t'.
Proof.
  destruct t as [p|p], t' as [q|q]; simpl.
  - intros (f&_&->) (g&_&[=]). f_equal. lia.
  - by intros (f&_&->) (_&[=]).
  - by intros (_&->) (f&_&[=]).
  - intros (_&->) (_&[=]). f_equal. lia.
Qed.

Lemma reply_of_fun t reply reply' : reply_of t reply → reply_of t reply' → reply = reply'.
Proof. destruct t as [p|p]; simpl; [intros (f&?&->) (g&?&->); by simplify_eq|by intros (_&->) (_&->)]. Qed.

Lemma reply_of_is_task t reply : reply_of t reply → is_task reply = true.
Proof. destruct t; simpl; [by intros (f&_&->)|by intros (_&->)]. Qed.

Lemma holds_spec tm pr reply t : held pr = Some reply → reply_of t reply → holds tm pr = bool_decide (timed tm = t).
Proof.
  intros Hh Hr. unfold holds. rewrite Hh. destruct tm as [p|p], t as [q|q]; simpl in *.
  - destruct Hr as (f&_&->). simpl. symmetry. destruct (Z.eqb_spec (Z.of_nat q + 1) (Z.of_nat p + 1)); [apply bool_decide_eq_true_2; f_equal; lia|apply bool_decide_eq_false_2; congruence].
  - by destruct Hr as (_&->).
  - by destruct Hr as (f&_&->).
  - destruct Hr as (_&->). simpl. symmetry. destruct (Z.eqb_spec (Z.of_nat q + 1) (Z.of_nat p + 1)); [apply bool_decide_eq_true_2; f_equal; lia|apply bool_decide_eq_false_2; congruence].
Qed.

(** ** The coordinator's handlers, task by task *)

Lemma status_map c p t v q : mheap c !! p = Some t → TMap p ≠ q → status (set_mheap (<[p := set_mt_Status v t]> (mheap c)) c) q = status c q.
Proof. intros Hp Hne. destruct q as [q|q]; simpl; [|done]. by rewrite list_lookup_insert_ne by congruence. Qed.
Lemma status_reduce c p t v q : rheap c !! p = Some t → TReduce p ≠ q → status (set_rheap (<[p := set_rt_Status v t]> (rheap c)) c) q = status c q.
Proof. intros Hp Hne. destruct q as [q|q]; simpl; [done|]. by rewrite list_lookup_insert_ne by congruence. Qed.
Lemma status_timers c v t : status (set_timers v c) t = status c t.
Proof. by destruct t. Qed.

Lemma ask_gives c : ok files 10 c → ∃ c' reply, HandleWorker c = Some (c', reply) ∧ ok files 10 c' ∧ keeps_finished c c' ∧
  ((∃ t, reply_of t reply ∧ status c t = Some NOTRUN ∧ status c' t = Some RUNNNING ∧ ∀ t', t ≠ t' → status c' t' = status c t') ∨
   (is_task reply = false ∧ c' = c)).
Proof.
  intros Hok. destruct (HandleWorker_cases _ _ _ Hok) as (c'&reply&E&Hc). exists c', reply.
  assert (HN : ReduceN c = 10) by (by destruct (ok_static _ _ _ Hok) as [_ _ [=]]).
  split; [done|]. split; [by eapply ok_HandleWorker|]. split; [apply (keeps_finished_exec _ Assign); simpl; by rewrite E|].
  destruct Hc as [(p&t&Hp&Hs&->&->)|[(_&p&t&Hp&Hs&->&->)|(->&->&_)]]; [left; exists (TMap p)|left; exists (TReduce p)|by right].
  - destruct (map_task_id _ _ _ _ _ (ok_static _ _ _ Hok) Hp) as [-> Hf]. rewrite HN. split_and!.
    + by eexists.
    + simpl. by rewrite Hp, <-Hs.
    + simpl. by rewrite list_lookup_insert_eq by (by eapply lookup_lt_Some).
    + intros t' Hne. rewrite status_timers. by apply status_map.
  - destruct (reduce_task_id _ _ _ _ _ (ok_static _ _ _ Hok) Hp) as [-> ->]. rewrite HN. split_and!.
    + split; [|done]. destruct (static_active _ _ _ (ok_static _ _ _ Hok)) as (_&_&_&<-). by eapply lookup_lt_Some.
    + simpl. by rewrite Hp, <-Hs.
    + simpl. by rewrite list_lookup_insert_eq by (by eapply lookup_lt_Some).
    + intros t' Hne. rewrite status_timers. by apply status_reduce.
Qed.

Lemma cas_map_status p a v c c' : cas_map p a v c = Some c' → ∀ t, TMap p ≠ t → status c' t = status c t.
Proof.
  unfold cas_map. intros E t Hne. destruct (mheap c !! p) as [u|] eqn:Hp; simpl in E; [|done]. simplify_eq.
  destruct (mt_Status u =? a); [by apply status_map|done].
Qed.
Lemma cas_reduce_status p a v c c' : cas_reduce p a v c = Some c' → ∀ t, TReduce p ≠ t → status c' t = status c t.
Proof.
  unfold cas_reduce. intros E t Hne. destruct (rheap c !! p) as [u|] eqn:Hp; simpl in E; [|done]. simplify_eq.
  destruct (rt_Status u =? a); [by apply status_reduce|done].
Qed.

Lemma report_finishes c t reply : ok files 10 c → reply_of t reply →
  ∃ c', HandleFinish (mkCoordinatorFinishArgs (cr_TaskId reply) (cr_TaskType reply)) c = Some c' ∧ ok files 10 c' ∧
    keeps_finished c c' ∧ ∀ t', t ≠ t' → status c' t' = status c t'.
Proof.
  intros Hok Hr. pose proof (ok_static _ _ _ Hok) as Hst. destruct (static_active _ _ _ Hst) as (_&_&Hlm&Hlr).
  assert (Hx : ∃ c', HandleFinish (mkCoordinatorFinishArgs (cr_TaskId reply) (cr_TaskType reply)) c = Some c' ∧ ∀ t', t ≠ t' → status c' t' = status c t').
  { unfold HandleFinish. destruct t as [p|p].
    - destruct Hr as (f&Hf%lookup_lt_Some&->). simpl. rewrite (proj2 (MapTaskMap_lookup _ _ _ (Z.of_nat p + 1) p Hst)) by done. simpl.
      destruct (lookup_lt_is_Some_2 (mheap c) p) as [u Hu]; [lia|]. destruct (cas_map p RUNNNING FINISHED c) as [c'|] eqn:E; [|unfold cas_map in E; by rewrite Hu in E].
      exists c'. split; [done|]. by eapply cas_map_status.
    - destruct Hr as (Hp&->). simpl. rewrite (proj2 (ReduceTaskMap_lookup _ _ _ (Z.of_nat p + 1) p Hst)) by done. simpl.
      destruct (lookup_lt_is_Some_2 (rheap c) p) as [u Hu]; [lia|]. destruct (cas_reduce p RUNNNING FINISHED c) as [c'|] eqn:E; [|unfold cas_reduce in E; by rewrite Hu in E].
      exists c'. split; [done|]. by eapply cas_reduce_status. }
  destruct Hx as (c'&E&Hs). exists c'. split_and!; [done|by eapply ok_HandleFinish|by eapply (keeps_finished_exec _ (Finish _))|done].
Qed.

Lemma timeout_gives_up c i c' : ok files 10 c → timeout i c = Some c' →
  ok files 10 c' ∧ keeps_finished c c' ∧ ∃ tm, timers c !! i = Some tm ∧ (∀ t, timed tm ≠ t → status c' t = status c t) ∧
    (∀ t, status c' t = Some FINISHED → status c t = Some FINISHED).
Proof.
  intros Hok E. split; [by eapply ok_timeout|]. split; [by eapply (keeps_finished_exec _ (MrCoordinator.Timeout i))|].
  unfold timeout in E. destruct (timers c !! i) as [tm|]; simpl in E; [|done]. exists tm. split; [done|].
  set (c1 := set_timers (delete i (timers c)) c) in *. destruct tm as [p|p]; simpl.
  - split; [intros t Ht; rewrite (cas_map_status _ _ _ _ _ E t Ht); apply status_timers|]. apply cas_map_finished in E as [Er Em].
    intros [q|q] Hq; simpl in *; [|by rewrite Er in Hq]. apply fmap_Some in Hq as (u&Hu&Hs). destruct (Em q u Hu (eq_sym Hs)) as [(v&Hv&Hvs)|[_ ?]]; [|status].
    simpl in Hv. by rewrite Hv, <-Hvs.
  - split; [intros t Ht; rewrite (cas_reduce_status _ _ _ _ _ E t Ht); apply status_timers|]. apply cas_reduce_finished in E as [Er Em].
    intros [q|q] Hq; simpl in *; [by rewrite Er in Hq|]. apply fmap_Some in Hq as (u&Hu&Hs). destruct (Em q u Hu (eq_sym Hs)) as [(v&Hv&Hvs)|[_ ?]]; [|status].
    simpl in Hv. by rewrite Hv, <-Hvs.
Qed.
(** ** Every state of a job *)

(** Every worker of the job is started with the plug-in of the job. *)
Definition same_app (e : Event) : Prop := match e with Spawn Args => ∀ app', mrworker_main Open Args = Goes app' → app' = app | _ => True end.

(** A process runs the application, and writes the files of its task only. *)
Definition proc_ok (pr : Proc) : Prop :=
  match pr with
  | Asleep a => a = app
  | Busy a reply io => a = app ∧ ∃ t, reply_of t reply ∧ writes_to (own t) (todo io)
  | Reporting a reply => a = app ∧ ∃ t, reply_of t reply
  | Ended => True
  end.

(** [c] is the coordinator, also when its process has ended, which happens only when
    the job is done. *)
Record winv (w : World) (c : Coordinator) : Prop := {
  wv_host : serving (host w) = Some c ∨ host w = Gone;
  wv_done : (∀ d, host w ≠ Polling d) → Done c = true;
  wv_coord : ok files 10 c;
  wv_inputs f : f ∈ files → disk w !! f = fs0 !! f;
  wv_procs k pr : procs w !! k = Some pr → proc_ok pr
}.

Lemma own_not_input t f : own t f → f ∉ files.
Proof using names. destruct t; simpl; [intros [r ->]|intros ->]; intros Hf; by destruct (names _ Hf (Z.of_nat p + 1) r) || by destruct (names _ Hf 0 (Z.of_nat p + 1)). Qed.

Lemma task_writes t reply : reply_of t reply → writes_to (own t) (task_prog app reply).
Proof. destruct t; simpl; [intros (f&_&->); apply map_prog_writes|intros (_&->); apply reduce_prog_writes]. Qed.

Lemma winv_proc w c k pr' h' fs' c' : winv w c → (serving h' = Some c' ∨ h' = Gone) → ((∀ d, h' ≠ Polling d) → Done c' = true) →
  ok files 10 c' → (∀ f, f ∈ files → fs' !! f = disk w !! f) → proc_ok pr' → winv (mkWorld h' fs' (<[k := pr']> (procs w))) c'.
Proof.
  intros [Hh Hd Hc Hi Hp] Hh' Hd' Hc' Hi' Hp'. split; simpl; [done..| |].
  - intros f Hf. rewrite Hi' by done. auto.
  - intros j q [(->&<-&_)|[_ Hj]]%list_lookup_insert_Some; eauto.
Qed.

Lemma serving_coord w c d : winv w c → serving (host w) = Some d → d = c.
Proof. intros Hw Hd. destruct (wv_host _ _ Hw) as [E|E]; [congruence|by rewrite E in Hd]. Qed.

Lemma Done_kept c c' : ok files 10 c → ok files 10 c' → keeps_finished c c' → Done c = true → Done c' = true.
Proof.
  intros Hc Hc' Hk HD. apply (Done_spec _ _ _ (ok_static _ _ _ Hc')). apply (reduces_finished_keeps files 10 _ _ Hc Hc' Hk).
  by apply (Done_spec _ _ _ (ok_static _ _ _ Hc)).
Qed.

(** The host with the new coordinator is as far as before. *)
Lemma winv_host w c c' : winv w c → serving (host w) = Some c → ok files 10 c' → keeps_finished c c' →
  (serving (set_coord c' (host w)) = Some c' ∨ set_coord c' (host w) = Gone) ∧
  ((∀ d, set_coord c' (host w) ≠ Polling d) → Done c' = true).
Proof.
  intros Hw Hs Hc' Hk. split; [left; by destruct (host w)|]. intros Hn. apply (Done_kept c); [apply Hw|done..|].
  apply (wv_done _ _ Hw). intros d E. rewrite E in Hn. by eapply Hn.
Qed.

(** A worker asks: it is given an idle task, none, or there is nobody to answer. *)
Lemma winv_ask w c k cut : winv w c → procs w !! k = Some (Asleep app) →
  ∃ c' pr', winv (ask k cut app w) c' ∧ disk (ask k cut app w) = disk w ∧ procs (ask k cut app w) = <[k := pr']> (procs w) ∧
    ((c' = c ∧ held pr' = None) ∨
     ∃ t reply, reply_of t reply ∧ pr' = Busy app reply (mkIo (task_prog app reply) None 0) ∧
       status c t = Some NOTRUN ∧ status c' t = Some RUNNNING ∧ ∀ t', t ≠ t' → status c' t' = status c t').
Proof using names.
  intros Hw Hk. unfold ask, call. destruct (serving (host w)) as [d|] eqn:Es.
  - pose proof (serving_coord _ _ _ Hw Es) as ->. destruct (ask_gives c (wv_coord _ _ Hw)) as (c'&reply&->&Hc'&Hkf&Hcase).
    destruct (winv_host _ _ _ Hw Es Hc' Hkf) as [Hh Hd].
    destruct Hcase as [(t&Hr&Hst)|[Ht ->]].
    + exists c', (Busy app reply (mkIo (task_prog app reply) None 0)). pose proof (reply_of_is_task _ _ Hr) as Hit. unfold is_task in Hit.
      assert (Hp : proc_ok (Busy app reply (mkIo (task_prog app reply) None 0))) by (split; [done|]; exists t; split; [done|by apply task_writes]).
      destruct (String.eqb _ "MAP"); [|destruct (String.eqb _ "REDUCE"); [|done]]; simpl; (split_and!; [by apply (winv_proc w c)|done..|]); right; eauto 10.
    + exists c, (Asleep app). unfold is_task in Ht. destruct (String.eqb _ "MAP"); [done|]. destruct (String.eqb _ "REDUCE"); [done|]. simpl.
      split_and!; [by apply (winv_proc w c)|done..|by left].
  - exists c, Ended. destruct cut; simpl; (split_and!; [apply (winv_proc w c); [done|apply Hw|apply Hw|apply Hw|done|done]|done..|by left]).
Qed.

(** A worker runs: it writes files of its task. *)
Lemma winv_run w c k size app' reply io : winv w c → procs w !! k = Some (Busy app' reply io) →
  winv (run_task k size app' reply io w) c ∧ ∃ t, reply_of t reply ∧ ∀ f, ¬ own t f → disk (run_task k size app' reply io w) !! f = disk w !! f.
Proof using names.
  intros Hw Hk. destruct (wv_procs _ _ Hw _ _ Hk) as [-> (t&Hr&Hwr)]. unfold run_task. destruct (io_step size io (disk w)) as [io' fs'] eqn:E.
  destruct (io_step_frame _ _ _ _ _ _ Hwr E) as [Hwr' Hf]. split; [|by exists t].
  apply (winv_proc w c); [done|apply Hw|apply Hw|apply Hw| |].
  - intros f Hin. apply Hf. intros Ho. by apply (own_not_input t f).
  - unfold after. destruct (todo io') eqn:Et; simpl; rewrite ?Et; eauto 10.
Qed.

(** A worker reports: its task is finished, or given up, or nobody answers. *)
Lemma winv_report w c k cut app' reply : winv w c → procs w !! k = Some (Reporting app' reply) →
  ∃ c' pr' t, winv (report k cut app' reply w) c' ∧ disk (report k cut app' reply w) = disk w ∧
    procs (report k cut app' reply w) = <[k := pr']> (procs w) ∧ held pr' = None ∧ reply_of t reply ∧ ∀ t', t ≠ t' → status c' t' = status c t'.
Proof using names.
  intros Hw Hk. destruct (wv_procs _ _ Hw _ _ Hk) as [-> (t&Hr)]. unfold report, call. destruct (serving (host w)) as [d|] eqn:Es.
  - pose proof (serving_coord _ _ _ Hw Es) as ->. destruct (report_finishes c t reply (wv_coord _ _ Hw) Hr) as (c'&->&Hc'&Hkf&Hst).
    destruct (winv_host _ _ _ Hw Es Hc' Hkf) as [Hh Hd]. exists c', (Asleep app), t. simpl. split_and!; [by apply (winv_proc w c)|done..].
  - exists c, (if cut then Asleep app else Ended), t. destruct cut; simpl; (split_and!; [apply (winv_proc w c); [done|apply Hw|apply Hw|apply Hw|done|done]|done..]).
Qed.

Lemma winv_timeout w c i w' : winv w c → step w (MrPrograms.Timeout i) = Some w' →
  ∃ c' tm, winv w' c' ∧ disk w' = disk w ∧ procs w' = procs w ∧ serving (host w) = Some c ∧ timers c !! i = Some tm ∧
    (∀ t, timed tm ≠ t → status c' t = status c t) ∧ (∀ t, status c' t = Some FINISHED → status c t = Some FINISHED).
Proof using names.
  intros Hw E. simpl in E. destruct (serving (host w)) as [d|] eqn:Es; simpl in E; [|done]. pose proof (serving_coord _ _ _ Hw Es) as ->.
  destruct (timeout i c) as [c'|] eqn:Et; simpl in E; [|done]. simplify_eq.
  destruct (timeout_gives_up c i c' (wv_coord _ _ Hw) Et) as (Hc'&Hkf&tm&Htm&Hst&Hfin). destruct (winv_host _ _ _ Hw Es Hc' Hkf) as [Hh Hd].
  exists c', tm. split_and!; try done. destruct Hw. by split.
Qed.

(** The other steps leave the coordinator and the files alone, and nobody gets a task. *)
Definition plain (e : Event) : bool := match e with Poll | Leave | Spawn _ | Kill _ => true | _ => false end.

Lemma winv_plain w c e w' : winv w c → same_app e → plain e = true → step w e = Some w' →
  winv w' c ∧ disk w' = disk w ∧ ∀ k pr, procs w' !! k = Some pr → procs w !! k = Some pr ∨ held pr = None.
Proof using names.
  intros Hw Hsame Hpl E. destruct e as [| |i|Args|k cut|k size|k cut|k]; try done; simpl in E.
  - pose proof (serving_coord w c) as Hsc. destruct (host w) as [d| |] eqn:Eh; [|done..]. specialize (Hsc d Hw eq_refl) as ->. simplify_eq.
    split; [|split; [done|by left]]. destruct Hw as [Hh Hd Hc Hi Hp]. destruct (Done c) eqn:ED; split; simpl; try done; [by left..|]. intros Hn. by destruct (Hn c).
  - destruct (host w) as [|d|] eqn:Eh; [done| |done]. simplify_eq. split; [|split; [done|by left]].
    destruct Hw as [Hh Hd Hc Hi Hp]. split; simpl; try done; [by right|]. intros _. apply Hd. by rewrite Eh.
  - simplify_eq. simpl. assert (Hn : ∀ k pr, (procs w ++ [match mrworker_main Open Args with Goes a => Asleep a | _ => Ended end]) !! k = Some pr →
      procs w !! k = Some pr ∨ (held pr = None ∧ proc_ok pr)).
    { intros k pr [?|[_ Hx]]%lookup_app_Some; [by left|right]. destruct (k - length (procs w))%nat; [|done]. simpl in Hx. simplify_eq.
      simpl in Hsame. destruct (mrworker_main Open Args); simpl; auto. }
    split; [|split; [done|intros k pr Hk; destruct (Hn k pr Hk) as [|[? _]]; auto]].
    destruct Hw as [Hh Hd Hc Hi Hp]. split; simpl; [done..|]. intros k pr Hk. destruct (Hn k pr Hk) as [?|[_ ?]]; eauto.
  - destruct (procs w !! k) as [p0|] eqn:Ek; [|done]. simplify_eq. simpl. split; [|split; [done|]].
    + apply (winv_proc w c); [done|apply Hw|apply Hw|apply Hw|done|done].
    + intros j pr [(->&<-&_)|[_ Hj]]%list_lookup_insert_Some; auto.
Qed.

Lemma winv_step w c e w' : winv w c → same_app e → step w e = Some w' → ∃ c', winv w' c'.
Proof using names.
  intros Hw Hsame E. destruct (plain e) eqn:Hpl; [exists c; by eapply winv_plain|].
  destruct e as [| |i|Args|k cut|k size|k cut|k]; try done.
  - destruct (winv_timeout _ _ _ _ Hw E) as (c'&tm&?&_). eauto.
  - simpl in E. destruct (procs w !! k) as [[a| | |]|] eqn:Ek; simplify_eq. pose proof (wv_procs _ _ Hw _ _ Ek) as Ha. simpl in Ha. subst a.
    destruct (winv_ask w c k cut Hw Ek) as (c'&pr'&?&_). eauto.
  - simpl in E. destruct (procs w !! k) as [[|a reply io| |]|] eqn:Ek; simplify_eq. exists c. by apply winv_run.
  - simpl in E. destruct (procs w !! k) as [[| |a reply|]|] eqn:Ek; simplify_eq. destruct (winv_report w c k cut a reply Hw Ek) as (c'&pr'&t&?&_). eauto.
Qed.

Definition start : World := mkWorld (Polling (MakeCoordinator files 10)) fs0 [].

Lemma winv_start : winv start (MakeCoordinator files 10).
Proof. split; simpl; [by left| |apply ok_MakeCoordinator|done|done]. intros Hn. by destruct (Hn (MakeCoordinator files 10)). Qed.

Lemma winv_steps es : ∀ w c w', winv w c → Forall same_app es → steps w es = Some w' → ∃ c', winv w' c'.
Proof using names.
  induction es as [|e es IH]; intros w c w' Hw Hall E; simpl in E; [simplify_eq; eauto|].
  destruct (step w e) as [w1|] eqn:E1; simpl in E; [|done]. inversion_clear Hall. destruct (winv_step w c e w1 Hw) as [c1 Hw1]; [done..|]. eauto.
Qed.
End Job.

(** ** How far a task is *)

Section Track.
Context `{SortByKey, JsonCodec}.
Context (app : App) (files : list string) (fs0 : FS) (all : list KeyValue).
Context (job : job_ok app.1 files 10 fs0 all).

Notation pairs_of := (pairs_of app.1 files fs0).
Notation map_written := (map_written app.1 files 10 fs0).
Notation reduce_written := (reduce_written app.1 app.2 files 10 fs0).
Notation reply_of := (reply_of files).

(** What map task [m] writes for reduce task [p]. *)
Definition bulk (p m : nat) : list KeyValue := sort (part 10 (Z.of_nat p) (pairs_of m)).
Definition bulk_text (p m : nat) : string := cat (Encode <$> bulk p m).

(** The files a reduce task has still to read. *)
Definition names_from (p i : nat) : list string := (λ j : nat, mr_file (Z.of_nat j + 1) (Z.of_nat p + 1)) <$> seq i (length files - i).

Definition reduce_ops (p : nat) : list FsOp :=
  let out := mr_out (Z.of_nat p + 1) in Create out :: (Append out <$> reduce_lines app.2 (reduce_input app.1 files 10 fs0 p)).

(** The files are as far as the program of the task is. *)
Definition on_track (t : Task) (io : Io) (fs : FS) : Prop :=
  match t with
  | TMap p =>
      ∃ f content, files !! p = Some f ∧ fs0 !! f = Some content ∧
        ((todo io = map_prog app.1 (Z.of_nat p + 1) 10 [] [f] ∧ reading (got io) content) ∨
         ∃ ops, doMap app.1 fs0 [f] (Z.of_nat p + 1) 10 = Some ops ∧ Forall (λ op, own t (op_file op)) ops ∧ writing (own t) ops io fs)
  | TReduce p =>
      (p < 10)%nat ∧
      (todo io = reduce_prog app.2 (Z.of_nat p + 1) (names_from p 0) ∨
      (∃ i, (i < length files)%nat ∧ todo io = reduce_reads app.2 (Z.of_nat p + 1) (concat (bulk p <$> seq 0 i)) (names_from p i) ∧
         reading (got io) (bulk_text p i) ∧ fs !! mr_out (Z.of_nat p + 1) = Some "" ∧ offset io = 0%nat) ∨
      writing (own t) (reduce_ops p) io fs)
  end.

Definition written (t : Task) (fs : FS) : Prop := match t with TMap p => map_written fs p | TReduce p => reduce_written fs p end.

(** What the task reads does not change. *)
Definition stable (t : Task) (fs : FS) : Prop :=
  match t with TMap _ => ∀ f, f ∈ files → fs !! f = fs0 !! f | TReduce _ => ∀ m, (m < length files)%nat → map_written fs m end.

Lemma track_start t reply fs : reply_of t reply → on_track t (mkIo (task_prog app reply) None 0) fs.
Proof using job.
  destruct t as [p|p]; simpl.
  - intros (f&Hf&->). destruct (map_inputs_pairs _ _ _ _ (jo_inputs _ _ _ _ _ job)) as [_ Hs].
    destruct (Hs f) as [content Hc]; [by eapply list_elem_of_lookup_2|]. exists f, content. by repeat split; [..|left].
  - intros (Hp&->). split; [lia|]. left. unfold names_from. by rewrite Nat.sub_0_r.
Qed.

Lemma track_frame t io (fs fs' : FS) : (∀ f, own t f → fs' !! f = fs !! f) → on_track t io fs → on_track t io fs'.
Proof.
  intros Hf. destruct t as [p|p]; simpl.
  - intros (f&content&?&?&[?|(ops&?&?&Hw)]); exists f, content; (split_and!; [done..|]); [by left|right]. exists ops. split_and!; [done..|]. by eapply writing_frame.
  - intros [? [?|[(i&?&?&?&Hout&?)|Hw]]]; (split; [done|]); [by left|right; left; exists i; split_and!; [done..| |done]|right; right; by eapply writing_frame].
    rewrite Hf; done.
Qed.

Lemma written_frame t (fs fs' : FS) : (∀ f, own t f → fs' !! f = fs !! f) → written t fs → written t fs'.
Proof.
  intros Hf. destruct t as [p|p]; simpl; [intros Hw r Hr; rewrite Hf by (by eexists); by apply Hw|unfold MrSystem.reduce_written; by rewrite Hf].
Qed.

(** The next file of a reduce task, or the writes. *)
Lemma track_reads p i off fs : (p < 10)%nat → (i ≤ length files)%nat → fs !! mr_out (Z.of_nat p + 1) = Some "" → off = 0%nat →
  on_track (TReduce p) (mkIo (reduce_reads app.2 (Z.of_nat p + 1) (concat (bulk p <$> seq 0 i)) (names_from p i)) None off) fs.
Proof.
  intros Hp Hi Hout ->. split; [done|]. right. destruct (decide (i < length files)%nat) as [Hlt|]; [left; by exists i|right].
  assert (i = length files) as -> by lia. set (out := mr_out (Z.of_nat p + 1)) in *. set (lines := reduce_lines app.2 (reduce_input app.1 files 10 fs0 p)).
  exists [Create out], (Append out <$> lines), (Some out), fs. unfold names_from. rewrite Nat.sub_diag. simpl.
  split_and!; [done..|apply ordered_appends|by exists ""|by intros f [= <-]|]. intros f ->. by rewrite lookup_insert_eq.
Qed.

Lemma bulk_valid p m : (m < length files)%nat → Forall json_valid (bulk p m).
Proof using job.
  intros Hm. unfold bulk. rewrite sort_permutation, Forall_forall. intros kv [_ Hkv]%list_elem_of_filter.
  pose proof (pairs_valid _ _ _ _ _ job m Hm) as Hv. rewrite Forall_forall in Hv. auto.
Qed.

Lemma decode_bulk p m : (m < length files)%nat → decode_text (Some (bulk_text p m)) = bulk p m.
Proof using job. intros Hm. unfold decode_text. simpl default. apply decode_loop_cat; [by apply bulk_valid|unfold bulk_text; lia]. Qed.

Lemma names_from_cons p i : (i < length files)%nat → names_from p i = mr_file (Z.of_nat i + 1) (Z.of_nat p + 1) :: names_from p (S i).
Proof. intros Hi. unfold names_from. replace (length files - i)%nat with (S (length files - S i)) by lia. done. Qed.

Lemma reduce_ops_own p : Forall (λ op, own (TReduce p) (op_file op)) (reduce_ops p).
Proof. apply Forall_cons. split; [done|]. by apply Forall_fmap, Forall_true. Qed.

(** A map task has read its input: it goes on to write. *)
Lemma track_mapped p f content off fs : files !! p = Some f → fs0 !! f = Some content →
  on_track (TMap p) (mkIo (map_prog app.1 (Z.of_nat p + 1) 10 ([] ++ app.1 f content) []) None off) fs ∧
  map_prog app.1 (Z.of_nat p + 1) 10 ([] ++ app.1 f content) [] ≠ IOFatal.
Proof.
  intros Hf Hc. destruct (split_bulks_lookup 10 (app.1 f content) ltac:(lia)) as (bulks&Hb&_). change ([] ++ app.1 f content) with (app.1 f content). cbn [map_prog]. rewrite Hb.
  split; [|apply do_ops_not_fatal]. exists f, content. split_and!; [done..|]. right.
  exists (concat (write_bulk (Z.of_nat p + 1) bulks <$> seq 0 (Z.to_nat 10))). split; [|split].
  - unfold doMap. cbn [map_inputs]. rewrite Hc. cbn [mbind option_bind]. rewrite app_nil_r, Hb. done.
  - apply write_bulks_files.
  - apply writing_start; [done|apply ordered_bulks].
Qed.

Lemma track_step t size io fs io' fs' : on_track t io fs → stable t fs → io_step size io fs = (io', fs') →
  on_track t io' fs' ∧ todo io' ≠ IOFatal.
Proof using job.
  intros Ht Hs E. destruct io as [prog g off]. destruct t as [p|p]; cbn [on_track stable todo got offset] in Ht, Hs.
  - destruct Ht as (f&content&Hf&Hc&[[-> Hr]|(ops&Hops&Hown&Hw)]).
    + set (k := λ content, match content with None => IOFatal | Some content => map_prog app.1 (Z.of_nat p + 1) 10 ([] ++ app.1 f content) [] end).
      change (map_prog app.1 (Z.of_nat p + 1) 10 [] [f]) with (IORead f k) in E.
      destruct (io_step_read size f k g off fs content ltac:(rewrite Hs; [done|by eapply list_elem_of_lookup_2]) Hr) as (io1&E1&_&Hcase).
      rewrite E1 in E. simplify_eq. destruct Hcase as [[Et Hg]| ->]; [|by apply (track_mapped p f content)].
      rewrite Et. split; [|done]. exists f, content. split_and!; [done..|]. by left.
    + pose proof (writing_step _ _ _ _ _ _ _ Hown Hw E) as Hw'. split; [exists f, content; split_and!; [done..|]; right; by exists ops|].
      destruct Hw' as (past&rest&cur&fs1&_&->&_). apply do_ops_not_fatal.
  - destruct Ht as [Hp [->|[(i&Hi&->&Hr&Hout&Ho)|Hw]]].
    + unfold reduce_prog, io_step in E. simpl in E. simplify_eq. split; [|by destruct (names_from p 0); [apply do_ops_not_fatal|]].
      apply (track_reads p 0); [done|lia|by rewrite lookup_insert_eq|done].
    + rewrite names_from_cons in E by done. simpl in Ho.
      pose proof (Hs i Hi (Z.of_nat p) ltac:(lia)) as Hfile.
      set (k := λ content, reduce_reads app.2 (Z.of_nat p + 1) (concat (bulk p <$> seq 0 i) ++ decode_text content) (names_from p (S i))).
      destruct (io_step_read size (mr_file (Z.of_nat i + 1) (Z.of_nat p + 1)) k g off fs (bulk_text p i) Hfile Hr) as (io1&E1&Hoff&Hcase).
      change (reduce_reads _ _ _ _) with (IORead (mr_file (Z.of_nat i + 1) (Z.of_nat p + 1)) k) in E. rewrite E1 in E. simplify_eq. destruct Hcase as [[Et Hg]| ->].
      * rewrite Et. split; [|done]. split; [done|]. right. left. exists i. rewrite names_from_cons by done. split_and!; [done..|lia].
      * unfold k. rewrite decode_bulk by done.
        replace (concat (bulk p <$> seq 0 i) ++ bulk p i) with (concat (bulk p <$> seq 0 (S i))) by (rewrite seq_S, fmap_app, concat_app; simpl; by rewrite app_nil_r).
        split; [by apply track_reads; [done|lia|..]|]. simpl. by destruct (names_from p (S i)); [apply do_ops_not_fatal|].
    + pose proof (writing_step _ _ _ _ _ _ _ (reduce_ops_own p) Hw E) as Hw'. split; [by split; [|right; right]|].
      destruct Hw' as (past&rest&cur&fs1&_&->&_). apply do_ops_not_fatal.
Qed.

Lemma track_done t io fs : on_track t io fs → todo io = IODone → written t fs.
Proof using job.
  intros Ht Hd. destruct t as [p|p]; simpl in *.
  - destruct Ht as (f&content&Hf&Hc&[[E _]|(ops&Hops&_&Hw)]); [rewrite E in Hd; done|].
    destruct (writing_done _ _ _ _ Hw Hd) as [fs1 Hfs]. intros r Hr. rewrite Hfs by (by eexists).
    assert (Hin : map_inputs app.1 fs0 [f] = Some (pairs_of p)).
    { simpl. rewrite Hc. simpl. unfold MrSystem.pairs_of. rewrite Hf. simpl. rewrite Hc. simpl. by rewrite app_nil_r. }
    destruct (doMap_spec app.1 fs0 [f] (Z.of_nat p + 1) 10 (pairs_of p)) as (ops'&E'&Hops'&_); [lia|lia|done|].
    rewrite Hops in E'. simplify_eq. by apply Hops'.
  - destruct Ht as [_ [E|[(i&Hi&E&_)|Hw]]]; [rewrite E in Hd; done|rewrite names_from_cons in E by done; rewrite E in Hd; done|].
    destruct (writing_done _ _ _ _ Hw Hd) as [fs1 Hfs]. unfold MrSystem.reduce_written. rewrite Hfs by done.
    unfold reduce_ops. by rewrite fs_ops_write, lookup_insert_eq.
Qed.
End Track.

(** ** Prompt jobs *)

Section Prompt.
Context `{SortByKey, JsonCodec}.
Context (Open : string → option Plugin) (app : App).
Context (files : list string) (fs0 : FS) (all : list KeyValue).
Context (job : job_ok app.1 files 10 fs0 all).

Notation step := (step Open).
Notation steps := (steps Open).
Notation reply_of := (reply_of files).
Notation winv := (winv app files fs0).
Notation on_track := (on_track app files fs0).
Notation written := (written app files fs0).
Notation same_app := (same_app Open app).

(** The files of the task of a process are as far as the process is. *)
Definition good (t : Task) (pr : Proc) (fs : FS) : Prop := match pr with Busy _ _ io => on_track t io fs | _ => written t fs end.

Record ainv (w : World) (c : Coordinator) : Prop := {
  ai_finished t : status c t = Some FINISHED → written t (disk w);
  ai_holders k pr reply t : procs w !! k = Some pr → held pr = Some reply → reply_of t reply →
    status c t = Some RUNNNING ∧ good t pr (disk w);
  ai_alone k k' pr pr' reply : procs w !! k = Some pr → procs w !! k' = Some pr' → held pr = Some reply → held pr' = Some reply → k = k'
}.

Lemma good_frame t pr (fs fs' : FS) : (∀ f, own t f → fs' !! f = fs !! f) → good t pr fs → good t pr fs'.
Proof. intros Hf. destruct pr; simpl; first [by apply track_frame|by apply written_frame]. Qed.

(** A process with a task has one that was given to it. *)
Lemma held_reply w c k pr reply : winv w c → procs w !! k = Some pr → held pr = Some reply → ∃ t, reply_of t reply.
Proof. intros Hw Hk Hh. pose proof (wv_procs _ _ _ _ _ Hw k pr Hk) as Hp. destruct pr; simplify_eq/=; destruct Hp as [_ (t&Hr)]; [exists t; by destruct Hr|by exists t]. Qed.

(** Process [k] goes on; nothing happens to the tasks of the others. *)
Lemma ainv_proc w c k pr pr' h' fs' c' : ainv w c → procs w !! k = Some pr →
  (∀ t, status c' t = Some FINISHED → written t fs') →
  (∀ reply t, held pr' = Some reply → reply_of t reply → status c' t = Some RUNNNING ∧ good t pr' fs') →
  (∀ j q reply t, j ≠ k → procs w !! j = Some q → held q = Some reply → reply_of t reply →
     status c' t = status c t ∧ (∀ f, own t f → fs' !! f = disk w !! f)) →
  (∀ j q reply, j ≠ k → procs w !! j = Some q → held q = Some reply → held pr' ≠ Some reply) →
  ainv (mkWorld h' fs' (<[k := pr']> (procs w))) c'.
Proof.
  intros [Hfin Hh Ha] Hk Hfin' Hnew Hoth Hdiff. split; simpl; [done|..].
  - intros j q reply t [(->&<-&_)|[Hne Hj]]%list_lookup_insert_Some Hq Hr; [by eapply Hnew|].
    destruct (Hh j q reply t Hj Hq Hr) as [Hs Hg]. destruct (Hoth j q reply t) as [Es Hf]; [done..|]. split; [congruence|]. by eapply good_frame.
  - intros j j' q q' reply Hj Hj' Hq Hq'. apply list_lookup_insert_Some in Hj as [(->&<-&_)|[Hne Hj]], Hj' as [(->&<-&_)|[Hne' Hj']]; [done|..].
    + by destruct (Hdiff j' q' reply).
    + by destruct (Hdiff j q reply).
    + by eapply Ha.
Qed.

(** Nobody gets a task, and nothing happens to the tasks that are held. *)
Lemma ainv_quiet w c w' c' : ainv w c → disk w' = disk w → (∀ k pr, procs w' !! k = Some pr → procs w !! k = Some pr ∨ held pr = None) →
  (∀ t, status c' t = Some FINISHED → status c t = Some FINISHED) →
  (∀ k pr reply t, procs w !! k = Some pr → held pr = Some reply → reply_of t reply → status c' t = status c t) → ainv w' c'.
Proof.
  intros [Hfin Hh Ha] Hd Hp Hst Hhold. split; rewrite ?Hd; [auto|..].
  - intros k pr reply t Hk Hr Ht. destruct (Hp k pr Hk) as [Hk'|?]; [|congruence]. destruct (Hh k pr reply t Hk' Hr Ht). split; [|done].
    by rewrite (Hhold k pr reply t).
  - intros k k' pr pr' reply Hk Hk' Hr Hr'. destruct (Hp k pr Hk) as [?|?]; [|congruence]. destruct (Hp k' pr' Hk') as [?|?]; [|congruence]. by eapply Ha.
Qed.

(** The tasks of two processes are different. *)
Lemma other_task w c k pr reply t j q reply' t' : ainv w c → procs w !! k = Some pr → held pr = Some reply → reply_of t reply →
  j ≠ k → procs w !! j = Some q → held q = Some reply' → reply_of t' reply' → t ≠ t'.
Proof.
  intros Ha Hk Hp Hr Hne Hj Hq Hr' <-. apply Hne. eapply (ai_alone _ _ Ha j k); [done..|]. by rewrite (reply_of_fun files t reply' reply).
Qed.

Lemma ainv_ask w c k cut c' pr' : winv w c → ainv w c → procs w !! k = Some (Asleep app) →
  disk (ask k cut app w) = disk w → procs (ask k cut app w) = <[k := pr']> (procs w) →
  ((c' = c ∧ held pr' = None) ∨
   ∃ t reply, reply_of t reply ∧ pr' = Busy app reply (mkIo (task_prog app reply) None 0) ∧
     status c t = Some NOTRUN ∧ status c' t = Some RUNNNING ∧ ∀ t', t ≠ t' → status c' t' = status c t') →
  ainv (ask k cut app w) c'.
Proof using job.
  intros Hw Ha Hk Hd Hp Hcase. destruct (ask k cut app w) as [h' fs' ps']. simpl in Hd, Hp. subst fs' ps'.
  destruct Hcase as [[-> Hn]|(t&reply&Hr&->&Hidle&Hrun&Hst)].
  - eapply (ainv_proc w c k); [done|done|apply Ha|intros; congruence|done|intros; congruence].
  - assert (Hne : ∀ j q reply' t', procs w !! j = Some q → held q = Some reply' → reply_of t' reply' → t ≠ t').
    { intros j q reply' t' Hj Hq Hr' <-. destruct (ai_holders _ _ Ha j q reply' t) as [Hs _]; [done..|]. rewrite Hidle in Hs. by injection Hs. }
    eapply (ainv_proc w c k); [done|done|..].
    + intros t' Ht'. destruct (decide (t = t')) as [<-|Hn]; [rewrite Hrun in Ht'; by injection Ht'|]. rewrite Hst in Ht' by done. by apply (ai_finished _ _ Ha).
    + simpl. intros ? t' [= <-] Hr'. assert (t' = t) as -> by (by eapply reply_of_task). split; [done|]. by apply (track_start _ _ _ _ job).
    + intros j q reply' t' _ Hj Hq Hr'. split; [by apply Hst, (Hne j q reply')|done].
    + intros j q reply' _ Hj Hq [= <-]. by destruct (Hne j q reply t).
Qed.

Lemma finished_files w c t : winv w c → ainv w c → status c t = Some RUNNNING → stable app files fs0 t (disk w).
Proof.
  intros Hw Ha Hs. pose proof (wv_coord _ _ _ _ _ Hw) as Hok. destruct t as [p|p]; simpl.
  - by apply (wv_inputs _ _ _ _ _ Hw).
  - intros m Hm. simpl in Hs. apply fmap_Some in Hs as (u&Hu&Hs).
    assert (Hf : maps_finished c) by (eapply (ok_phases _ _ _ Hok p u Hu); rewrite <-Hs; status).
    destruct (static_active _ _ _ (ok_static _ _ _ Hok)) as (_&_&Hlen&_). destruct (lookup_lt_is_Some_2 (mheap c) m) as [v Hv]; [lia|].
    apply (ai_finished _ _ Ha (TMap m)). simpl. by rewrite Hv, <-(Hf m v Hv).
Qed.

Lemma ainv_run w c k size app' reply io : winv w c → ainv w c → procs w !! k = Some (Busy app' reply io) →
  ainv (run_task k size app' reply io w) c.
Proof using job.
  intros Hw Ha Hk. destruct (wv_procs _ _ _ _ _ Hw _ _ Hk) as [-> (t&Hr&Hwr)]. destruct (ai_holders _ _ Ha k _ reply t Hk eq_refl Hr) as [Hs Hg]. simpl in Hg.
  unfold run_task. destruct (io_step size io (disk w)) as [io' fs'] eqn:E. destruct (io_step_frame _ _ _ _ _ _ Hwr E) as [_ Hframe].
  destruct (track_step _ _ _ _ job t size io _ io' fs' Hg (finished_files w c t Hw Ha Hs) E) as [Ht' Hnf].
  assert (Hoth : ∀ t', t ≠ t' → ∀ f, own t' f → fs' !! f = disk w !! f).
  { intros t' Hne f Hf. apply Hframe. intros Ho. by destruct (Hne (own_disjoint _ _ _ Ho Hf)). }
  eapply (ainv_proc w c k); [done|done|..].
  - intros t' Ht. assert (t ≠ t') by (intros <-; rewrite Hs in Ht; by injection Ht). eapply written_frame; [by apply Hoth|]. by apply (ai_finished _ _ Ha).
  - intros reply' t'. unfold after. destruct (todo io') eqn:Et; simpl; intros [= <-] Hr'; (assert (t' = t) as -> by (by eapply reply_of_task)); (split; [done|]);
      [done..|]. by eapply (track_done _ _ _ _ job).
  - intros j q reply' t' Hne Hj Hq Hr'. split; [done|]. apply Hoth. by eapply (other_task w c k).
  - intros j q reply' Hne Hj Hq Hh. destruct (held_reply w c j q reply' Hw Hj Hq) as [t' Hr'].
    assert (Hrr : reply' = reply) by (unfold after in Hh; destruct (todo io'); simpl in Hh; congruence). subst reply'.
    assert (t' = t) as -> by (by eapply reply_of_task). by destruct (other_task w c k _ reply t j q reply t Ha Hk eq_refl Hr Hne Hj Hq Hr).
Qed.

Lemma ainv_report w c k cut app' reply c' pr' t : winv w c → ainv w c → procs w !! k = Some (Reporting app' reply) →
  disk (report k cut app' reply w) = disk w → procs (report k cut app' reply w) = <[k := pr']> (procs w) → held pr' = None → reply_of t reply →
  (∀ t', t ≠ t' → status c' t' = status c t') → ainv (report k cut app' reply w) c'.
Proof.
  intros Hw Ha Hk Hd Hp Hn Hr Hst. destruct (report k cut app' reply w) as [h' fs' ps']. simpl in Hd, Hp. subst fs' ps'.
  destruct (ai_holders _ _ Ha k _ reply t Hk eq_refl Hr) as [Hs Hg]. eapply (ainv_proc w c k); [done|done|..].
  - intros t' Ht'. destruct (decide (t = t')) as [<-|Hne]; [done|]. rewrite Hst in Ht' by done. by apply (ai_finished _ _ Ha).
  - intros; congruence.
  - intros j q reply' t' Hne Hj Hq Hr'. split; [|done]. apply Hst. by eapply (other_task w c k).
  - intros; congruence.
Qed.

Lemma ainv_step w c e w' : winv w c → ainv w c → same_app e → prompt_at w e = true → step w e = Some w' → ∃ c', winv w' c' ∧ ainv w' c'.
Proof using job.
  pose proof (jo_names _ _ _ _ _ job) as names. intros Hw Ha Hsame Hpr E. destruct (plain e) eqn:Hpl.
  { destruct (winv_plain Open app files fs0 names w c e w' Hw Hsame Hpl E) as (Hw'&Hd&Hp). exists c. split; [done|]. by eapply ainv_quiet. }
  destruct e as [| |i|Args|k cut|k size|k cut|k]; try done.
  - destruct (winv_timeout Open app files fs0 names _ _ _ _ Hw E) as (c'&tm&Hw'&Hd&Hp&Hs&Htm&Hst&Hfin). exists c'. split; [done|].
    eapply ainv_quiet; [done|done|intros k pr; rewrite Hp; by left|done|]. intros k pr reply t Hk Hh Hr. apply Hst. intros <-.
    unfold prompt_at in Hpr. rewrite Hs in Hpr. cbn [mbind option_bind] in Hpr. rewrite Htm in Hpr. rewrite forallb_forall in Hpr.
    specialize (Hpr pr (proj1 (list_elem_of_In _ _) (list_elem_of_lookup_2 _ _ _ Hk))).
    rewrite (holds_spec files tm pr reply (timed tm) Hh Hr), bool_decide_eq_true_2 in Hpr by done. done.
  - simpl in E. destruct (procs w !! k) as [[a| | |]|] eqn:Ek; simplify_eq. pose proof (wv_procs _ _ _ _ _ Hw _ _ Ek) as Hok. simpl in Hok. subst a.
    destruct (winv_ask app files fs0 names w c k cut Hw Ek) as (c'&pr'&Hw'&Hd&Hp&Hcase). exists c'. split; [done|]. by eapply ainv_ask.
  - simpl in E. destruct (procs w !! k) as [[|a reply io| |]|] eqn:Ek; simplify_eq. exists c. split; [by apply winv_run|by apply ainv_run].
  - simpl in E. destruct (procs w !! k) as [[| |a reply|]|] eqn:Ek; simplify_eq.
    destruct (winv_report app files fs0 names w c k cut a reply Hw Ek) as (c'&pr'&t&Hw'&Hd&Hp&Hn&Hr&Hst). exists c'. split; [done|]. by eapply ainv_report.
Qed.

Lemma ainv_start : ainv (start files fs0) (MakeCoordinator files 10).
Proof.
  split; [|done..]. intros [p|p] Hs; cbn [status mheap rheap MakeCoordinator] in Hs; apply fmap_Some in Hs as (u&Hu&Hs).
  - rewrite list_lookup_imap in Hu. apply fmap_Some in Hu as (f&_&->). done.
  - rewrite list_lookup_fmap in Hu. apply fmap_Some in Hu as (f&_&->). done.
Qed.

Lemma ainv_steps es : ∀ w c w', winv w c → ainv w c → Forall same_app es → prompt Open w es = true → steps w es = Some w' → ∃ c', winv w' c' ∧ ainv w' c'.
Proof using job.
  induction es as [|e es IH]; intros w c w' Hw Ha Hall Hpr E; simpl in E; [simplify_eq; eauto|]. simpl in Hpr. apply andb_true_iff in Hpr as [Hpe Hpr].
  destruct (step w e) as [w1|] eqn:E1; simpl in E; [|done]. inversion_clear Hall. destruct (ainv_step w c e w1) as (c1&?&?); [done..|]. eauto.
Qed.

(** When the coordinator has returned every output file is written. *)
Lemma outputs_written es w : Forall same_app es → prompt Open (start files fs0) es = true → steps (start files fs0) es = Some w → host w = Gone →
  ∀ p, (p < 10)%nat → reduce_written app.1 app.2 files 10 fs0 (disk w) p.
Proof using job.
  intros Hall Hpr E Hg p Hp. destruct (ainv_steps es _ _ w (winv_start _ _ _) ainv_start Hall Hpr E) as (c&Hw&Ha).
  pose proof (wv_coord _ _ _ _ _ Hw) as Hok. destruct (static_active _ _ _ (ok_static _ _ _ Hok)) as (_&_&_&Hlen).
  destruct (lookup_lt_is_Some_2 (rheap c) p) as [u Hu]; [lia|]. apply (ai_finished _ _ Ha (TReduce p)). simpl. rewrite Hu. simpl. f_equal.
  apply (proj1 (Done_spec _ _ _ (ok_static _ _ _ Hok))) with p; [|done]. apply (wv_done _ _ _ _ _ Hw). by rewrite Hg.
Qed.
End Prompt.
End MrAgreement.
