(* ===== verification/MrProgramsTheorems.v ===== *)
(** * Theorems about the MapReduce programs

    When the coordinator has returned, and no task was given up while a process still
    worked on it, the files of the job hold what the sequential program writes; and
    from any moment on a job whose inputs can be read can be brought to its end, with
    no worker left. *)

From stdpp Require Import pretty.
From S2P Require Import Prelude MrCoordinator MrCoordinatorFacts MrProgress MrWorker MrWorkerFacts MrContents MrSystem MrJson MrApps MrTheorems MrPrograms MrIoFacts MrAgreement.

Module MrProgramsTheorems.
Import MrCoordinator MrCoordinatorFacts MrProgress MrWorker MrWorkerFacts MrContents MrSystem MrJson MrApps MrTheorems MrPrograms MrIoFacts MrAgreement.

Section Job.
Context `{SortByKey, JsonCodec}.
Context (Open : string → option Plugin) (so : string) (app : App).
Context (loads : loadPlugin Open so = Goes app).
Context (files : list string) (fs0 : FS) (all : list KeyValue).
Context (inputs : map_inputs app.1 fs0 files = Some all).
Context (names : ∀ f, f ∈ files → ∀ m r, f ≠ mr_file m r ∧ f ≠ mr_out r).

Notation step := (step Open).
Notation steps := (steps Open).
Notation same_app := (same_app Open app).
Notation reply_of := (reply_of files).
Notation winv := (winv app files fs0).

(** ** A job can always be brought to its end *)

Lemma steps_app w es es' : steps w (es ++ es') = (w' ← steps w es; steps w' es').
Proof. revert w. induction es as [|e es IH]; intros w; simpl; [done|]. destruct (step w e); simpl; [apply IH|done]. Qed.

Definition killing (e : Event) : bool := match e with Kill _ => true | _ => false end.
(** Events that need no luck: nothing is killed, and workers are started properly. *)
Definition fair (e : Event) : Prop := killing e = false ∧ same_app e.

Definition leads_to (w : World) (P : World → Prop) : Prop := ∃ es w', Forall fair es ∧ steps w es = Some w' ∧ P w'.

Lemma leads_now w (P : World → Prop) : P w → leads_to w P.
Proof. by exists [], w. Qed.

Lemma leads_trans w (P Q : World → Prop) : leads_to w P → (∀ w', P w' → leads_to w' Q) → leads_to w Q.
Proof.
  intros (es&w1&Hf&E&HP) HQ. destruct (HQ w1 HP) as (es'&w2&Hf'&E'&HQ'). exists (es ++ es'), w2.
  split_and!; [by apply Forall_app| |done]. by rewrite steps_app, E.
Qed.

Lemma leads_step w e w' (P : World → Prop) : fair e → step w e = Some w' → leads_to w' P → leads_to w P.
Proof.
  intros He E. intros (es&w2&Hf&E'&HP). exists (e :: es), w2. split_and!; [by constructor| |done]. simpl. by rewrite E.
Qed.

Lemma leads_imp w (P Q : World → Prop) : leads_to w P → (∀ w', P w' → Q w') → leads_to w Q.
Proof. intros HP HQ. eapply leads_trans; [done|]. intros w' Hw'. by apply leads_now, HQ. Qed.

(** The world is a state of the job, and the coordinator polls. *)
Definition at_work (c : Coordinator) (w : World) : Prop := winv w c ∧ host w = Polling c.

Lemma at_work_winv c w' d : winv w' d → host w' = Polling c → at_work c w'.
Proof. intros Hw Hc. split; [|done]. assert (c = d) as -> by (eapply serving_coord; [done|by rewrite Hc]). done. Qed.

Lemma at_work_step e c w w' c' : at_work c w → same_app e → step w e = Some w' → host w' = Polling c' → at_work c' w'.
Proof using names. intros [Hw _] Hsame E Hc'. destruct (winv_step Open app files fs0 names w c e w' Hw Hsame E) as [d Hd]. by eapply at_work_winv. Qed.

Lemma at_work_ok c w : at_work c w → ok files 10 c.
Proof. intros [Hw _]. by apply (wv_coord _ _ _ _ _ Hw). Qed.

(** The pending time-outs go off. *)
Lemma fire_timers c c1 n w : at_work c w → fire_all n c = Some c1 → leads_to w (at_work c1).
Proof using names.
  revert c w. induction n as [|n IH]; intros c w Hw E; simpl in E; [simplify_eq; by apply leads_now|].
  destruct (timeout 0 c) as [c'|] eqn:Et; simpl in E; [|done]. pose proof Hw as [_ Hc].
  assert (Es : step w (MrPrograms.Timeout 0) = Some (mkWorld (Polling c') (disk w) (procs w))) by (simpl; rewrite Hc; simpl; by rewrite Et).
  eapply leads_step; [|exact Es|]; [done|]. apply (IH c'); [|done]. by apply (at_work_step (MrPrograms.Timeout 0) _ _ _ c' Hw I Es).
Qed.

(** *** A process goes on with its task *)

(** The process is in the task, or has just come out of it. *)
Definition in_task (a : App) (reply : CoordinatorReply) (io : Io) (p : Proc) : Prop := p = Busy a reply io ∨ p = after a reply io.

Lemma after_busy a reply io : (todo io = IODone ∨ todo io = IOFatal) ∨ after a reply io = Busy a reply io.
Proof. unfold after. destruct (todo io); auto. Qed.

Lemma io_step_stays size io fs : todo io = IODone ∨ todo io = IOFatal → io_step size io fs = (io, fs).
Proof. unfold io_step. by intros [-> | ->]. Qed.

Lemma run_step k size a reply io w : procs w !! k = Some (Busy a reply io) → step w (Run k size) = Some (run_task k size a reply io w).
Proof. simpl. by intros ->. Qed.

(** The system calls of a task as steps of its process. *)
Lemma run_calls a reply k x y : rtc io_rel x y → ∀ w p, disk w = x.2 → procs w !! k = Some p → in_task a reply x.1 p →
  leads_to w (λ w', w' = mkWorld (host w) y.2 (<[k := after a reply y.1]> (procs w))).
Proof.
  induction 1 as [x|x [io1 fs1] y [size E] _ IH]; intros w p Hd Hk Hp.
  - destruct Hp as [-> | ->].
    + destruct (after_busy a reply x.1) as [Ht|Hb].
      * eapply (leads_step w (Run k 0)); [done|by apply run_step|]. apply leads_now. unfold run_task. by rewrite io_step_stays, Hd.
      * apply leads_now. rewrite Hb, list_insert_id by done. rewrite <-Hd. by destruct w.
    + apply leads_now. rewrite list_insert_id by done. rewrite <-Hd. by destruct w.
  - assert (Hb : p = Busy a reply x.1 ∨ ((todo x.1 = IODone ∨ todo x.1 = IOFatal) ∧ p = after a reply x.1)).
    { destruct Hp as [-> | ->]; [by left|]. destruct (after_busy a reply x.1) as [Ht|Hb]; [by right|by left]. }
    destruct Hb as [->|[Ht ->]].
    + eapply (leads_step w (Run k size)); [done|by apply run_step|]. unfold run_task. rewrite Hd, E.
      eapply leads_imp; [eapply IH; [done| |by right]; simpl; apply list_lookup_insert_eq; by eapply lookup_lt_Some|].
      intros w' ->. simpl. by rewrite list_insert_insert_eq.
    + rewrite io_step_stays in E by done. simplify_eq. eapply IH; [done..|]. by right.
Qed.

(** Run on, the process comes out of its task. *)
Lemma process_ends a reply k io w : procs w !! k = Some (Busy a reply io) →
  leads_to w (λ w', ∃ fs p, w' = mkWorld (host w) fs (<[k := p]> (procs w)) ∧ (p = Reporting a reply ∨ p = Ended)).
Proof.
  intros Hk. destruct io as [p g off]. destruct (task_ends p g off (disk w)) as (io'&fs'&Hr&Ht).
  eapply leads_imp; [by eapply (run_calls a reply k _ _ Hr); [..|left]|]. intros w' ->. do 2 eexists. split; [done|].
  unfold after. simpl. destruct Ht as [-> | ->]; auto.
Qed.

(** The task of a worker that was just given it succeeds. *)
Lemma given_safe t reply : reply_of t reply → safe files fs0 (task_prog app reply).
Proof using inputs names.
  destruct t as [p|p]; simpl.
  - intros (f&Hf&->). apply list_elem_of_lookup_2 in Hf. destruct (map_inputs_pairs _ _ _ _ inputs) as [_ Hs]. destruct (Hs f Hf) as [content Hc].
    change (task_prog _ _) with (map_prog app.1 (Z.of_nat p + 1) 10 [] [f]). split; [intros _|done]. rewrite Hc. cbn [map_prog]. rewrite app_nil_l.
    destruct (split_bulks_lookup 10 (app.1 f content)) as (bulks&->&_); [lia|].
    by apply safe_do_ops.
  - intros (Hp&->). unfold task_prog, reduce_prog. cbn [cr_TaskType String.eqb Ascii.eqb Bool.eqb cr_FileName cr_TaskId safe]. generalize (@nil KeyValue) as acc.
    induction (_ <$> _) as [|f fns IH]; intros acc; simpl; [by apply safe_do_ops|]. split; intros; apply IH.
Qed.

Lemma task_runs c w k t reply : at_work c w → procs w !! k = Some (Busy app reply (mkIo (task_prog app reply) None 0)) → reply_of t reply →
  leads_to w (λ w', at_work c w' ∧ procs w' = <[k := Reporting app reply]> (procs w)).
Proof using inputs names.
  intros [Hw Hc] Hk Hr. destruct (task_succeeds files fs0 (task_prog app reply) 0 (disk w)) as (io'&fs'&Hrun&Hd).
  - by eapply given_safe.
  - eapply writes_to_imp; [|by eapply task_writes]. intros f. by apply own_not_input.
  - apply (wv_inputs _ _ _ _ _ Hw).
  - destruct (run_calls app reply k _ _ Hrun w _ eq_refl Hk (or_introl eq_refl)) as (es&w'&Hf&E&Ew). exists es, w'. split; [done|]; split; [done|].
    destruct (winv_steps Open app files fs0 names es w c w' Hw) as [d Hd']; [eapply Forall_impl; [exact Hf|by intros e [_ ?]]|done|].
    split; [|subst w'; simpl; unfold after; by rewrite Hd]. eapply (at_work_winv c w'); [done|]. by subst w'.
Qed.

(** One turn of a worker. *)
Lemma turn c c' w k : at_work c w → procs w !! k = Some (Asleep app) → worker_round c = Some c' →
  leads_to w (λ w', at_work c' w' ∧ procs w' !! k = Some (Asleep app)).
Proof using inputs names.
  intros Hw Hk E. pose proof Hw as [_ Hc]. assert (Hlt := lookup_lt_Some _ _ _ Hk). unfold worker_round in E.
  destruct (HandleWorker c) as [[c1 reply]|] eqn:EH; simpl in E; [|done].
  set (args := mkCoordinatorFinishArgs (cr_TaskId reply) (cr_TaskType reply)) in *. set (busy := Busy app reply (mkIo (task_prog app reply) None 0)).
  assert (Ea : ask k false app w = set_proc k (if is_task reply then busy else Asleep app) (mkWorld (Polling c1) (disk w) (procs w))).
  { unfold ask, call. rewrite Hc. simpl. rewrite EH. unfold is_task. by destruct (String.eqb _ "MAP"), (String.eqb _ "REDUCE"). }
  assert (Es : step w (Ask k false) = Some (ask k false app w)) by (simpl; by rewrite Hk). rewrite Ea in Es.
  assert (Hw1 := at_work_step (Ask k false) _ _ _ c1 Hw I Es eq_refl). eapply leads_step; [|exact Es|]; [done|]. destruct (is_task reply) eqn:Et.
  - set (w1 := set_proc k _ _) in *. assert (Hk1 : procs w1 !! k = Some busy) by (by apply list_lookup_insert_eq).
    assert (EF : HandleFinish args c1 = Some c') by (unfold is_task in Et; by destruct (String.eqb _ "MAP"), (String.eqb _ "REDUCE")).
    destruct (wv_procs _ _ _ _ _ (proj1 Hw1) k _ Hk1) as [_ (t&Hr&_)].
    eapply leads_trans; [by eapply task_runs|]. intros w2 [Hw2 Hp2]. pose proof Hw2 as [_ Hc2].
    assert (Hk2 : procs w2 !! k = Some (Reporting app reply)) by (rewrite Hp2; apply list_lookup_insert_eq; simpl; by rewrite length_insert).
    set (w3 := set_proc k (Asleep app) (mkWorld (Polling c') (disk w2) (procs w2))).
    assert (Es3 : step w2 (Report k false) = Some w3) by (unfold MrPrograms.step; rewrite Hk2; unfold report, call; rewrite Hc2; simpl; fold args; by rewrite EF).
    eapply leads_step; [|exact Es3|]; [done|]. apply leads_now. split; [by apply (at_work_step (Report k false) _ _ _ c' Hw2 I Es3)|].
    apply list_lookup_insert_eq. by eapply lookup_lt_Some.
  - assert (c1 = c') as -> by (unfold is_task in Et; destruct (String.eqb _ "MAP"), (String.eqb _ "REDUCE"); simplify_eq/=; done).
    apply leads_now. split; [done|]. by apply list_lookup_insert_eq.
Qed.

Lemma turns n c w k : at_work c w → idle c → procs w !! k = Some (Asleep app) → (unfinished c ≤ n)%nat →
  leads_to w (λ w', ∃ c', at_work c' w' ∧ unfinished c' = 0%nat).
Proof using inputs names.
  revert c w. induction n as [|n IH]; intros c w Hw Hi Hk Hn; [apply leads_now; exists c; split; [done|lia]|].
  destruct (worker_round_progress _ _ c (at_work_ok _ _ Hw) Hi) as (c'&E&_&Hi'&Hu).
  eapply leads_trans; [by apply (turn c c' w k)|]. intros w' [Hw' Hk']. apply (IH c'); [done..|lia].
Qed.

(** The coordinator returns. *)
Lemma coordinator_returns c w : at_work c w → leads_to w (λ w', host w' = Gone).
Proof using inputs names loads.
  intros Hw. destruct (fire_all_idle _ _ c (at_work_ok _ _ Hw)) as (c1&Ef&Hok1&Ht). eapply leads_trans; [by eapply fire_timers|].
  intros w1 Hw1. pose proof Hw1 as [_ Hc1]. set (Args := ["mrworker"; so]).
  set (w2 := mkWorld (Polling c1) (disk w1) (procs w1 ++ [Asleep app])).
  assert (Em : mrworker_main Open Args = Goes app) by done.
  assert (Hs : same_app (Spawn Args)) by (intros app' E; congruence).
  assert (Es : step w1 (Spawn Args) = Some w2) by (unfold MrPrograms.step; by rewrite Em, Hc1).
  eapply leads_step; [|exact Es|]; [by split|]. pose proof (at_work_step (Spawn Args) _ _ _ c1 Hw1 Hs Es eq_refl) as Hw2.
  eapply leads_trans.
  - apply (turns (unfinished c1) c1 w2 (length (procs w1)) Hw2); [by eapply no_timer_idle| |done]. simpl. by rewrite lookup_app_r, Nat.sub_diag by lia.
  - intros w3 (c3&Hw3&Hu). pose proof Hw3 as [_ Hc3]. apply unfinished_0 in Hu as [_ Hr].
    assert (HD : Done c3 = true) by (by apply (Done_spec _ _ _ (ok_static _ _ _ (at_work_ok _ _ Hw3)))).
    eapply (leads_step _ Poll); [done|simpl; by rewrite Hc3, HD|]. eapply (leads_step _ Leave); [done..|]. by apply leads_now.
Qed.

(** ** No worker outlives the coordinator *)

(** Once the coordinator has gone every worker can come to its end by itself. *)
Lemma worker_leaves w k p : host w = Gone → procs w !! k = Some p → leads_to w (λ w', host w' = Gone ∧ procs w' = <[k := Ended]> (procs w)).
Proof.
  intros Hg Hk. assert (Hrep : ∀ a reply v, host v = Gone → procs v !! k = Some (Reporting a reply) →
    leads_to v (λ w', host w' = Gone ∧ procs w' = <[k := Ended]> (procs v))).
  { intros a reply v Hv Hkv. eapply (leads_step _ (Report k false)); [done|simpl; by rewrite Hkv|]. apply leads_now.
    unfold report, call. by rewrite Hv. }
  destruct p as [a|a reply io|a reply|].
  - eapply (leads_step _ (Ask k false)); [done|simpl; by rewrite Hk|]. apply leads_now. unfold ask, call. by rewrite Hg.
  - eapply leads_trans; [by eapply process_ends|]. intros w1 (fs&p&->&[-> | ->]).
    + eapply leads_imp; [apply (Hrep a reply); simpl; [done|apply list_lookup_insert_eq; by eapply lookup_lt_Some]|].
      simpl. intros w' [? Hp]. split; [done|]. by rewrite Hp, list_insert_insert_eq.
    + by apply leads_now.
  - by eapply Hrep.
  - apply leads_now. by rewrite list_insert_id.
Qed.

Lemma workers_leave w : host w = Gone → leads_to w (λ w', host w' = Gone ∧ Forall (λ p, p = Ended) (procs w')).
Proof.
  intros Hg. assert (Hn : ∀ n, (n ≤ length (procs w))%nat →
    leads_to w (λ w', host w' = Gone ∧ length (procs w') = length (procs w) ∧ ∀ j, (j < n)%nat → procs w' !! j = Some Ended)).
  { induction n as [|n IH]; intros Hn; [apply leads_now; split_and!; [done..|lia]|].
    eapply leads_trans; [apply IH; lia|]. intros w1 (Hg1&Hl&Hall). destruct (lookup_lt_is_Some_2 (procs w1) n) as [p Hp]; [lia|].
    eapply leads_imp; [by apply (worker_leaves w1 n p)|]. intros w2 [Hg2 Hp2]. split_and!; [done|by rewrite Hp2, length_insert|].
    intros j Hj. rewrite Hp2. destruct (decide (j = n)) as [->|]; [apply list_lookup_insert_eq; lia|]. rewrite list_lookup_insert_ne by done. apply Hall. lia. }
  eapply leads_imp; [by apply Hn|]. intros w' (?&Hl&Hall). split; [done|]. apply Forall_lookup_2. intros j p Hj.
  rewrite Hall in Hj; [congruence|]. rewrite <-Hl. by eapply lookup_lt_Some.
Qed.
End Job.

(** ** The programs *)

Section Programs.
Context `{SortByKey, JsonCodec}.
Context (Open : string → option Plugin).

(** The inputs are not named like files of the job, the pairs they map to survive
    JSON, and Reduce ignores the order of its values. *)
Record suits (app : App) (files : list string) (fs : FS) : Prop := {
  su_names : ∀ f, f ∈ files → ∀ m r, f ≠ mr_file m r ∧ f ≠ mr_out r;
  su_valid : ∀ all, map_inputs app.1 fs files = Some all → Forall json_valid all;
  su_order : order_insensitive app.2
}.

(** Whoever starts a worker with a plug-in, starts it with that of the job. *)
Definition started_with (so : string) (e : Event) : Prop := match e with Spawn [_; so'] => so' = so | _ => True end.

Lemma mrsequential_loads p0 so files fs ops : mrsequential_main Open (p0 :: so :: files) fs = Goes ops →
  ∃ app all, loadPlugin Open so = Goes app ∧ map_inputs app.1 fs files = Some all ∧
    ops = Create "mr-out-0" :: (Append "mr-out-0" <$> reduce_lines app.2 all).
Proof.
  intros E. destruct files as [|f files]; [done|]. simpl in E. unfold seq_loadPlugin in E. destruct (loadPlugin Open so) as [[mapf reducef]| |]; simpl in E; [|done..].
  exists (mapf, reducef). unfold mrsequential in E. destruct (map_inputs _ _ _) as [all|] eqn:Em; simpl in E; [|done]. simplify_eq. by exists all.
Qed.

Lemma started_same so app e : loadPlugin Open so = Goes app → started_with so e → same_app Open app e.
Proof.
  intros Hl He. destruct e as [| | |Args| | | |]; try done. intros app' E. destruct Args as [|p [|so' [|]]]; try done. simpl in He, E. simplify_eq. congruence.
Qed.

Lemma job_of app all files fs : suits app files fs → map_inputs app.1 fs files = Some all → job_ok app.1 files 10 fs all.
Proof. intros Hs Hm. split; [done|apply Hs|by apply (su_valid _ _ _ Hs)|lia]. Qed.

(** C18: The programs agree, system call by system call: suppose the sequential program
    runs through, the inputs are not named like files of the job, the pairs survive
    JSON, Reduce ignores the order of its values, workers are started with the plug-in
    of the job, and no task is given up while a process still has it (a worker ends or
    reports in time).  Then, however workers were started, interleaved, killed in the
    middle of a write and replaced, when the coordinator has returned the ten files
    [mr-out-1 .. mr-out-10] hold together exactly the lines of its [mr-out-0]. *)
Theorem programs_agree p0 p1 so files fs ops c0 app es w :
  mrsequential_main Open (p0 :: so :: files) fs = Goes ops → mrcoordinator_main (p1 :: files) None = Goes c0 →
  loadPlugin Open so = Goes app → suits app files fs →
  Forall (started_with so) es → prompt Open (mkWorld (Polling c0) fs []) es = true →
  steps Open (mkWorld (Polling c0) fs []) es = Some w → host w = Gone →
  ∃ outs lines, fs_ops ops fs !! "mr-out-0" = Some (cat lines) ∧ length outs = 10%nat ∧
    (∀ p l, outs !! p = Some l → disk w !! mr_out (Z.of_nat p + 1) = Some (cat l)) ∧ concat outs ≡ₚ lines.
Proof.
  intros Eq Ec El Hsu Hes Hpr Hst Hg. destruct (mrsequential_loads _ _ _ _ _ Eq) as (app'&all&El'&Em&->). rewrite El in El'. simplify_eq.
  assert (c0 = MakeCoordinator files 10) as -> by (by destruct files; simplify_eq/=). pose proof (job_of _ _ _ _ Hsu Em) as job.
  destruct (outputs_agree _ _ _ _ _ _ (disk w) job (su_order _ _ _ Hsu)) as (outs&lines&E&Hl&Ho&Hp).
  { apply (outputs_written Open app' files fs all job es w); [|done..]. eapply Forall_impl; [done|]. intros e. by apply started_same. }
  exists outs, lines. unfold mrsequential in E. rewrite Em in E. simpl in E. injection E as E.
  by rewrite E, fs_ops_write, lookup_insert_eq.
Qed.

(** C19: A job whose inputs can be read and are not named like its own files, and whose
    workers run one plug-in that loads, can always be brought to its end: whatever has
    happened so far, be it that all workers are gone or that tasks were given up while
    processes still write, without killing a process the coordinator returns and
    every worker ends. *)
Theorem job_ends p1 so files fs all c0 app es w :
  mrcoordinator_main (p1 :: files) None = Goes c0 → loadPlugin Open so = Goes app →
  (∀ f, f ∈ files → ∀ m r, f ≠ mr_file m r ∧ f ≠ mr_out r) → map_inputs app.1 fs files = Some all →
  Forall (started_with so) es → steps Open (mkWorld (Polling c0) fs []) es = Some w →
  ∃ es' w', Forall (λ e, killing e = false) es' ∧ steps Open w es' = Some w' ∧ host w' = Gone ∧ Forall (λ p, p = Ended) (procs w').
Proof.
  intros Ec El Hn Em Hes Hst. assert (c0 = MakeCoordinator files 10) as -> by (by destruct files; simplify_eq/=).
  destruct (winv_steps Open app files fs Hn es _ _ w (winv_start app files fs)) as [c Hw]; [|done|].
  { eapply Forall_impl; [done|]. intros e. by apply started_same. }
  assert (Hgone : leads_to Open app w (λ w', host w' = Gone)).
  { destruct (host w) as [d|d|] eqn:Eh; [|by eapply (leads_step _ _ _ Leave); [done|simpl; by rewrite Eh|by apply leads_now]|by apply leads_now].
    apply (coordinator_returns Open so app El files fs all Em Hn d). by eapply (at_work_winv app files fs d w). }
  destruct (leads_trans _ _ _ _ _ Hgone (λ w', workers_leave Open app w')) as (es'&w'&Hf&E&?&?).
  exists es', w'. split_and!; [|done..]. eapply Forall_impl; [done|]. by intros e [? _].
Qed.
End Programs.

(** ** The theorems at work *)

#[local] Existing Instances merge_sort_by_key ascii_json.

Definition demo_open (filename : string) : option Plugin :=
  if String.eqb filename "wc.so" then
    Some (λ name, if String.eqb name "Map" then Some (SymMap (wc_Map ascii_letter)) else if String.eqb name "Reduce" then Some (SymReduce wc_Reduce) else None)
  else None.

Definition demo_app : App := (wc_Map ascii_letter, wc_Reduce).

(** The next event of process [k], if it goes on; reads give at most three bytes. *)
Definition demo_next (w : World) (k : nat) : option Event :=
  match procs w !! k with Some (Asleep _) => Some (Ask k false) | Some (Busy _ _ _) => Some (Run k 2) | Some (Reporting _ _) => Some (Report k false) | _ => None end.
Fixpoint demo_drive (w : World) (ks : list nat) : list Event :=
  match ks with
  | [] => []
  | k :: ks => match demo_next w k with Some e => e :: demo_drive (default w (step demo_open w e)) ks | None => demo_drive w ks end
  end.

(** A worker is killed while it writes, and its task is given to the next one; two
    workers make their system calls in turns. *)
Definition demo_start : World := mkWorld (Polling (MakeCoordinator ["x"; "y"] 10)) demo_fs [].
Definition demo_prefix : list Event :=
  [Spawn ["mrworker"; "wc.so"]; Spawn ["mrworker"]; Spawn ["mrworker"; "wc.so"]; Spawn ["mrworker"; "wc.so"]; Ask 0 false] ++
  replicate 15 (Run 0 1) ++ [Kill 0; Poll; Ask 2 false; MrPrograms.Timeout 0].
Definition demo_events : list Event :=
  demo_prefix ++ demo_drive (default demo_start (steps demo_open demo_start demo_prefix)) (concat (replicate 150 [2%nat; 3%nat])) ++
  [Poll; Ask 3 false; Leave; Ask 3 false; Ask 2 true].
Definition demo_world : World := default demo_start (steps demo_open demo_start demo_events).

Lemma default_Some {A} (d : A) o : bool_decide (is_Some o) = true → o = Some (default d o).
Proof. by intros [a ->]%bool_decide_eq_true. Qed.

Lemma demo_suits : suits demo_app ["x"; "y"] demo_fs.
Proof.
  split; [|intros all E; vm_compute in E; injection E as <-; by repeat constructor|apply wc_Reduce_ok].
  intros f Hf m r. assert (f = "x" ∨ f = "y") as [-> | ->] by set_solver; split; intros E; discriminate E.
Qed.

Lemma programs_agree_witness : host demo_world = Gone ∧
  ∃ outs lines, fs_ops (default [] (mrsequential (wc_Map ascii_letter) wc_Reduce demo_fs ["x"; "y"])) demo_fs !! "mr-out-0" = Some (cat lines) ∧
    length outs = 10%nat ∧ (∀ p l, outs !! p = Some l → disk demo_world !! mr_out (Z.of_nat p + 1) = Some (cat l)) ∧ concat outs ≡ₚ lines.
Proof.
  split; [vm_compute; reflexivity|].
  apply (programs_agree demo_open "mrsequential" "mrcoordinator" "wc.so" ["x"; "y"] demo_fs _ (MakeCoordinator ["x"; "y"] 10) demo_app demo_events demo_world).
  - vm_compute. reflexivity.
  - reflexivity.
  - reflexivity.
  - apply demo_suits.
  - assert (E : forallb (λ e, match e with Spawn [_; so] => String.eqb so "wc.so" | _ => true end) demo_events = true) by (vm_compute; reflexivity).
    apply Forall_forall. intros e He. rewrite forallb_forall in E. specialize (E e (proj1 (list_elem_of_In _ _) He)).
    destruct e as [| | |[|? [|so' [|]]]| | | |]; try done. by apply String.eqb_eq.
  - vm_compute. reflexivity.
  - apply default_Some. vm_compute. reflexivity.
  - vm_compute. reflexivity.
Defined.

(** The only worker has been killed while it wrote. *)
Lemma job_ends_witness :
  let es := Spawn ["mrworker"; "wc.so"] :: Ask 0 false :: replicate 15 (Run 0 1) ++ [Kill 0] in
  let w := default demo_start (steps demo_open demo_start es) in
  ∃ es' w', Forall (λ e, killing e = false) es' ∧ steps demo_open w es' = Some w' ∧ host w' = Gone ∧ Forall (λ p, p = Ended) (procs w').
Proof.
  intros es w. apply (job_ends demo_open "mrcoordinator" "wc.so" ["x"; "y"] demo_fs demo_all (MakeCoordinator ["x"; "y"] 10) demo_app es w).
  - reflexivity.
  - reflexivity.
  - apply demo_suits.
  - vm_compute. reflexivity.
  - repeat constructor.
  - apply default_Some. vm_compute. reflexivity.
Defined.
End MrProgramsTheorems.
