(* ===== verification/PorcupineBitset.v ===== *)
(** * Bit sets of the linearizability checker: [porcupine/bitset.go]

    A bit set is a list of 64-bit words, kept as integers below [2^64].  The
    methods that index it may panic. *)

From S2P Require Import Prelude.

Module Bitset.

Notation bitset := (list Z).

Definition newBitset (bits : Z) : bitset :=
  let extra := if bits mod 64 =? 0 then 0 else 1 in
  replicate (Z.to_nat (bits / 64 + extra)) 0.

Definition clone (b : bitset) : bitset := b.

Definition bitsetIndex (pos : Z) : Z * Z := (pos / 64, pos mod 64).

Definition set (b : bitset) (pos : Z) : option bitset :=
  let '(major, minor) := bitsetIndex pos in
  w ← b@[major]; upd b major (Z.lor w (Z.shiftl 1 minor)).

Definition clear (b : bitset) (pos : Z) : option bitset :=
  let '(major, minor) := bitsetIndex pos in
  w ← b@[major]; upd b major (Z.ldiff w (Z.shiftl 1 minor)).

Definition get (b : bitset) (pos : Z) : option bool :=
  let '(major, minor) := bitsetIndex pos in
  w ← b@[major]; Some (negb (Z.land w (Z.shiftl 1 minor) =? 0)).

(** [bits.OnesCount64]. *)
Definition OnesCount64 (w : Z) : Z := len (filter (λ i : nat, Z.testbit w (Z.of_nat i) = true) (seq 0 64)).

Definition popcnt (b : bitset) : Z := fold_left (λ total v, total + OnesCount64 v) b 0.

Definition hash (b : bitset) : Z := fold_left Z.lxor b (popcnt b).

Fixpoint equals_loop (b b2 : bitset) : bool :=
  match b, b2 with
  | v :: b, v2 :: b2 => if v =? v2 then equals_loop b b2 else false
  | _, _ => true
  end.
Definition equals (b b2 : bitset) : bool := if len b =? len b2 then equals_loop b b2 else false.

(** ** The set a bit set stands for *)

Definition bit (b : bitset) (pos : Z) : bool := default false (get b pos).

Record wf (n : Z) (b : bitset) : Prop := {
  wf_len : length b = length (newBitset n);
  wf_words : Forall (λ w, 0 ≤ w < 2 ^ 64) b
}.

Lemma length_newBitset n : 0 ≤ n → n ≤ 64 * Z.of_nat (length (newBitset n)).
Proof.
  intros Hn. unfold newBitset. rewrite length_replicate.
  pose proof (Z.div_mod n 64). pose proof (Z.mod_pos_bound n 64). pose proof (Z.div_pos n 64).
  destruct (Z.eqb_spec (n mod 64) 0); lia.
Qed.

Lemma wf_newBitset n : wf n (newBitset n).
Proof. split; [done|]. apply Forall_replicate. lia. Qed.

Lemma testbit_shiftl_1 i j : 0 ≤ i → 0 ≤ j → Z.testbit (Z.shiftl 1 i) j = (j =? i).
Proof. intros Hi Hj. rewrite Z.shiftl_1_l, Z.pow2_bits_eqb, Z.eqb_sym by lia. done. Qed.

Lemma land_shiftl_testbit w i : 0 ≤ i → negb (Z.land w (Z.shiftl 1 i) =? 0) = Z.testbit w i.
Proof.
  intros Hi. destruct (Z.testbit w i) eqn:E.
  - apply negb_true_iff, Z.eqb_neq. intros H. apply (f_equal (λ x, Z.testbit x i)) in H.
    rewrite Z.land_spec, E, testbit_shiftl_1, Z.eqb_refl, Z.bits_0 in H by lia. done.
  - apply negb_false_iff, Z.eqb_eq. apply Z.bits_inj'. intros j Hj.
    rewrite Z.land_spec, testbit_shiftl_1, Z.bits_0 by lia.
    destruct (Z.eqb_spec j i) as [->|]; [by rewrite E|apply andb_false_r].
Qed.

(** A position is a word and a bit of it. *)
Lemma bit_word b pos :
  0 ≤ pos → bit b pos = match b !! Z.to_nat (pos / 64) with Some w => Z.testbit w (pos mod 64) | None => false end.
Proof.
  intros Hp. unfold bit, get, idx. simpl. pose proof (Z.div_pos pos 64).
  destruct (Z.leb_spec 0 (pos / 64)); [|lia].
  destruct (b !! _); simpl; [|done]. rewrite land_shiftl_testbit; [done|]. pose proof (Z.mod_pos_bound pos 64). lia.
Qed.

Lemma bit_newBitset n pos : 0 ≤ pos → bit (newBitset n) pos = false.
Proof.
  intros Hp. rewrite bit_word by done. unfold newBitset.
  destruct (_ !! _) as [w|] eqn:E; [|done]. apply lookup_replicate in E as [-> _]. apply Z.bits_0.
Qed.

Lemma word_in_range n b pos :
  wf n b → 0 ≤ pos < n → ∃ w, b !! Z.to_nat (pos / 64) = Some w ∧ 0 ≤ w < 2 ^ 64.
Proof.
  intros [Hl Hw] Hp. pose proof (length_newBitset n ltac:(lia)) as Hn.
  destruct (lookup_lt_is_Some_2 b (Z.to_nat (pos / 64))) as [w E].
  - pose proof (Z.div_mod pos 64). pose proof (Z.mod_pos_bound pos 64). pose proof (Z.div_pos pos 64). lia.
  - exists w. split; [done|]. rewrite Forall_forall in Hw. apply Hw. by eapply list_elem_of_lookup_2.
Qed.

Lemma div_mod_unique' p q : p / 64 = q / 64 → p mod 64 = q mod 64 → p = q.
Proof. intros E E'. rewrite (Z.div_mod p 64), (Z.div_mod q 64) by lia. congruence. Qed.

(** Replacing the word of [pos] by one that differs at most at its bit. *)
Lemma bit_insert b pos w v q :
  0 ≤ pos → 0 ≤ q → b !! Z.to_nat (pos / 64) = Some w →
  (∀ i, 0 ≤ i → i ≠ pos mod 64 → Z.testbit v i = Z.testbit w i) →
  bit (<[Z.to_nat (pos / 64) := v]> b) q = if q =? pos then Z.testbit v (pos mod 64) else bit b q.
Proof.
  intros Hp Hq Hw Hv. rewrite !bit_word by done. pose proof (Z.div_pos pos 64). pose proof (Z.div_pos q 64).
  pose proof (Z.mod_pos_bound q 64).
  destruct (decide (pos / 64 = q / 64)) as [E|E].
  - rewrite E, list_lookup_insert_eq by (rewrite <- E; by eapply lookup_lt_Some).
    destruct (Z.eqb_spec q pos) as [->|Hne]; [done|]. rewrite <- E, Hw. apply Hv; [lia|].
    intros E'. by destruct Hne; apply div_mod_unique'.
  - rewrite list_lookup_insert_ne by lia. destruct (Z.eqb_spec q pos) as [->|]; [lia|done].
Qed.

Lemma idx_div (b : bitset) pos : 0 ≤ pos → b@[pos / 64] = b !! Z.to_nat (pos / 64).
Proof. intros Hp. unfold idx. pose proof (Z.div_pos pos 64). by destruct (Z.leb_spec 0 (pos / 64)); [|lia]. Qed.

Lemma upd_div (b : bitset) pos w v :
  0 ≤ pos → b !! Z.to_nat (pos / 64) = Some w → upd b (pos / 64) v = Some (<[Z.to_nat (pos / 64) := v]> b).
Proof.
  intros Hp Hw%lookup_lt_Some. unfold upd, len. pose proof (Z.div_pos pos 64).
  destruct (Z.leb_spec 0 (pos / 64)); [|lia]. by destruct (Z.ltb_spec (pos / 64) (Z.of_nat (length b))); [|lia].
Qed.

Lemma wf_insert n b i v : wf n b → 0 ≤ v < 2 ^ 64 → wf n (<[i := v]> b).
Proof. intros [Hl Hw] Hv. split; [by rewrite length_insert|]. by apply Forall_insert. Qed.

(** Bits at and above the width are clear. *)
Lemma word_range w : 0 ≤ w → (∀ i, 64 ≤ i → Z.testbit w i = false) → 0 ≤ w < 2 ^ 64.
Proof.
  intros Hw Hb. split; [done|]. destruct (decide (w = 0)) as [->|]; [lia|].
  apply Z.log2_lt_pow2; [lia|]. destruct (decide (Z.log2 w < 64)); [done|].
  specialize (Hb (Z.log2 w) ltac:(lia)). rewrite Z.bit_log2 in Hb by lia. done.
Qed.

Lemma word_bits w i : 0 ≤ w < 2 ^ 64 → 64 ≤ i → Z.testbit w i = false.
Proof.
  intros Hw Hi. destruct (decide (w = 0)) as [->|]; [apply Z.bits_0|]. apply Z.bits_above_log2; [lia|].
  assert (Z.log2 w < 64) by (apply Z.log2_lt_pow2; lia). lia.
Qed.

Lemma set_spec n b pos :
  wf n b → 0 ≤ pos < n →
  ∃ b', set b pos = Some b' ∧ wf n b' ∧ ∀ q, 0 ≤ q → bit b' q = (q =? pos) || bit b q.
Proof.
  intros Hwf Hp. destruct (word_in_range n b pos Hwf Hp) as (w&Hw&Hr). unfold set. simpl.
  rewrite idx_div, Hw by lia. simpl. rewrite (upd_div _ _ w) by (done || lia).
  pose proof (Z.mod_pos_bound pos 64) as Hm.
  eexists. split; [done|]. split.
  - apply wf_insert; [done|]. apply word_range; [apply Z.lor_nonneg; split; [lia|apply Z.shiftl_nonneg; lia]|].
    intros i Hi. rewrite Z.lor_spec, testbit_shiftl_1, (word_bits w) by lia.
    destruct (Z.eqb_spec i (pos mod 64)); [lia|done].
  - intros q Hq. rewrite (bit_insert b pos w); [|lia..|done|].
    + destruct (Z.eqb_spec q pos); [|done]. rewrite Z.lor_spec, testbit_shiftl_1, Z.eqb_refl by lia. apply orb_true_r.
    + intros i Hi Hne. rewrite Z.lor_spec, testbit_shiftl_1 by lia.
      destruct (Z.eqb_spec i (pos mod 64)); [done|]. apply orb_false_r.
Qed.

Lemma clear_spec n b pos :
  wf n b → 0 ≤ pos < n →
  ∃ b', clear b pos = Some b' ∧ wf n b' ∧ ∀ q, 0 ≤ q → bit b' q = negb (q =? pos) && bit b q.
Proof.
  intros Hwf Hp. destruct (word_in_range n b pos Hwf Hp) as (w&Hw&Hr). unfold clear. simpl.
  rewrite idx_div, Hw by lia. simpl. rewrite (upd_div _ _ w) by (done || lia).
  pose proof (Z.mod_pos_bound pos 64) as Hm.
  eexists. split; [done|]. split.
  - apply wf_insert; [done|]. apply word_range; [apply Z.ldiff_nonneg; lia|].
    intros i Hi. rewrite Z.ldiff_spec, (word_bits w) by lia. done.
  - intros q Hq. rewrite (bit_insert b pos w); [|lia..|done|].
    + destruct (Z.eqb_spec q pos); [|done]. rewrite Z.ldiff_spec, testbit_shiftl_1, Z.eqb_refl by lia. apply andb_false_r.
    + intros i Hi Hne. rewrite Z.ldiff_spec, testbit_shiftl_1 by lia.
      destruct (Z.eqb_spec i (pos mod 64)); [done|]. apply andb_true_r.
Qed.

(** Bit sets of one size are equal when they have the same elements. *)
Lemma bitset_ext n b b' : wf n b → wf n b' → (∀ q, 0 ≤ q → bit b q = bit b' q) → b = b'.
Proof.
  intros [Hl Hw] [Hl' Hw'] Hq. apply (list_eq_same_length _ _ (length b)); [congruence|done|].
  intros i x y Hi Hx Hy. rewrite Forall_forall in Hw, Hw'.
  pose proof (Hw x (list_elem_of_lookup_2 _ _ _ Hx)) as Hrx. pose proof (Hw' y (list_elem_of_lookup_2 _ _ _ Hy)) as Hry.
  apply Z.bits_inj'. intros j Hj. destruct (decide (j < 64)) as [Hlt|Hge].
  - specialize (Hq (64 * Z.of_nat i + j) ltac:(lia)). rewrite !bit_word in Hq by lia.
    replace ((64 * Z.of_nat i + j) / 64) with (Z.of_nat i) in Hq by (apply (Z.div_unique _ 64 _ j); lia).
    replace ((64 * Z.of_nat i + j) mod 64) with j in Hq by (apply (Z.mod_unique _ 64 (Z.of_nat i)); lia).
    by rewrite Nat2Z.id, Hx, Hy in Hq.
  - rewrite !word_bits by lia. done.
Qed.

Lemma equals_loop_spec b b2 : length b = length b2 → equals_loop b b2 = true ↔ b = b2.
Proof.
  revert b2. induction b as [|v b IH]; intros [|v2 b2] Hl; simpl in *; try done.
  destruct (Z.eqb_spec v v2) as [->|]; [|split; [done|congruence]].
  rewrite IH by lia. split; [by intros ->|by intros [=]].
Qed.

Lemma equals_spec b b2 : equals b b2 = true ↔ b = b2.
Proof.
  unfold equals, len. destruct (Z.eqb_spec (Z.of_nat (length b)) (Z.of_nat (length b2))).
  - apply equals_loop_spec. lia.
  - split; [done|]. intros ->. done.
Qed.

(** [clear] undoes [set]. *)
Lemma clear_set n b pos b' :
  wf n b → 0 ≤ pos < n → bit b pos = false → set b pos = Some b' → clear b' pos = Some b.
Proof.
  intros Hwf Hp Hb Hs. destruct (set_spec n b pos Hwf Hp) as (b1&Hs1&Hwf1&Hq1). simplify_eq.
  destruct (clear_spec n b' pos Hwf1 Hp) as (b2&->&Hwf2&Hq2). f_equal. apply (bitset_ext n); [done..|].
  intros q Hq. rewrite Hq2, Hq1 by done. destruct (Z.eqb_spec q pos) as [->|]; [by rewrite Hb|done].
Qed.

(** The elements, and their number. *)
Definition elems (b : bitset) : list nat := filter (λ i : nat, bit b (Z.of_nat i) = true) (seq 0 (64 * length b)).

Lemma popcnt_acc (f : Z → Z) (l : bitset) a : fold_left (λ t v, t + f v) l a = a + fold_left (λ t v, t + f v) l 0.
Proof.
  revert a. induction l as [|v l IH]; intros a; simpl; [lia|]. rewrite IH, (IH (0 + f v)). lia.
Qed.

Lemma length_filter_fmap {A B} (P : B → Prop) `{∀ x, Decision (P x)} (f : A → B) l :
  length (filter P (f <$> l)) = length (filter (λ x, P (f x)) l).
Proof. induction l as [|x l IH]; [done|]. csimpl. rewrite !filter_cons. case_decide; simpl; lia. Qed.

Lemma bit_cons_low w b (i : nat) : (i < 64)%nat → bit (w :: b) (Z.of_nat i) = Z.testbit w (Z.of_nat i).
Proof. intros Hi. rewrite bit_word, Z.div_small, Z.mod_small by lia. done. Qed.

Lemma bit_cons_high w b (i : nat) : bit (w :: b) (Z.of_nat (64 + i)) = bit b (Z.of_nat i).
Proof.
  rewrite !bit_word by lia. replace (Z.of_nat (64 + i)) with (Z.of_nat i + 1 * 64) by lia.
  rewrite Z.div_add, Z_mod_plus_full by lia. pose proof (Z.div_pos (Z.of_nat i) 64).
  by replace (Z.to_nat (Z.of_nat i / 64 + 1)) with (S (Z.to_nat (Z.of_nat i / 64))) by lia.
Qed.

Lemma length_elems_cons w b : len (elems (w :: b)) = OnesCount64 w + len (elems b).
Proof.
  unfold elems, OnesCount64, len. cbn [length]. replace (64 * S (length b))%nat with (64 + 64 * length b)%nat by lia.
  rewrite seq_app, filter_app, length_app, Nat2Z.inj_add. f_equal.
  - f_equal. f_equal. apply filter_ext_elem. intros i Hi%elem_of_seq. by rewrite bit_cons_low by lia.
  - change (0 + 64)%nat with (64 + 0)%nat. rewrite <- fmap_add_seq, length_filter_fmap. f_equal.
    f_equal. apply filter_ext_elem. intros i _. by rewrite bit_cons_high.
Qed.

Lemma popcnt_elems b : popcnt b = len (elems b).
Proof.
  induction b as [|w b IH]; [done|]. rewrite length_elems_cons, <- IH. unfold popcnt. simpl.
  rewrite popcnt_acc. lia.
Qed.
End Bitset.
