(* ===== verification/Porcupine.v ===== *)
(** * The linearizability checker: [porcupine/model.go], [checker.go], [porcupine.go]

    The linked list of the checker is kept as the code has it: a store of nodes
    with [next] and [prev] pointers that [lift] and [unlift] cut and restore.  The
    node of [entries[i]] is pointer [i]; the head node is the next free pointer.
    [interface{}] values are a type [V], states a type [St].  [None] is a panic. *)

From stdpp Require Import pretty.
From S2P Require Import Prelude PorcupineBitset.

Module Porcupine.
Import Bitset.

(** ** Histories and models ([model.go]) *)

Record Operation (V : Type) := mkOperation {
  op_ClientId : Z; op_Input : V; op_Call : Z; op_Output : V; op_Return : Z
}.
Arguments mkOperation {V}. Arguments op_ClientId {V}. Arguments op_Input {V}. Arguments op_Call {V}.
Arguments op_Output {V}. Arguments op_Return {V}.

Inductive EventKind := CallEvent | ReturnEvent.

Record Event (V : Type) := mkEvent { ev_ClientId : Z; ev_Kind : EventKind; ev_Value : V; ev_Id : Z }.
Arguments mkEvent {V}. Arguments ev_ClientId {V}. Arguments ev_Kind {V}. Arguments ev_Value {V}. Arguments ev_Id {V}.

(** The optional functions of a model are nil when they are [None].  The others
    return [None] when a type assertion on a value fails. *)
Record Model (V St : Type) := mkModel {
  Partition : option (list (Operation V) → option (list (list (Operation V))));
  PartitionEvent : option (list (Event V) → option (list (list (Event V))));
  Init : St;
  Step : St → V → V → option (bool * St);
  Equal : option (St → St → bool);
  DescribeOperation : option (V → V → option string);
  DescribeState : option (St → string)
}.
Arguments mkModel {V St}. Arguments Partition {V St}. Arguments PartitionEvent {V St}. Arguments Init {V St}.
Arguments Step {V St}. Arguments Equal {V St}. Arguments DescribeOperation {V St}. Arguments DescribeState {V St}.

Inductive CheckResult := Unknown | Ok | Illegal.

Definition NoPartition {V} (history : list (Operation V)) : option (list (list (Operation V))) := Some [history].
Definition NoPartitionEvent {V} (history : list (Event V)) : option (list (list (Event V))) := Some [history].
Definition ShallowEqual `{EqDecision St} (s1 s2 : St) : bool := bool_decide (s1 = s2).

(** ** Entries ([checker.go]) *)

Inductive entryKind := callEntry | returnEntry.

#[export] Instance entryKind_eq_dec : EqDecision entryKind.
Proof. solve_decision. Defined.

Record entry (V : Type) := mkEntry { en_kind : entryKind; en_value : V; en_id : Z; en_time : Z; en_clientId : Z }.
Arguments mkEntry {V}. Arguments en_kind {V}. Arguments en_value {V}. Arguments en_id {V}.
Arguments en_time {V}. Arguments en_clientId {V}.

(** [byTime]: calls come before returns of the same time. *)
Definition Less {V} (a b : entry V) : bool :=
  if negb (en_time a =? en_time b) then en_time a <? en_time b
  else bool_decide (en_kind a = callEntry) && bool_decide (en_kind b = returnEntry).

Definition byTime {V} (a b : entry V) : Prop := Less b a = false.

(** What the code relies on of [sort.Sort(byTime(entries))], which is not stable. *)
Class SortByTime (V : Type) := {
  sort_entries : list (entry V) → list (entry V);
  sort_entries_permutation : ∀ l, sort_entries l ≡ₚ l;
  sort_entries_sorted : ∀ l, Sorted byTime (sort_entries l)
}.

Fixpoint make_loop {V} (id : Z) (history : list (Operation V)) : list (entry V) :=
  match history with
  | [] => []
  | elem :: history =>
      mkEntry callEntry (op_Input elem) id (op_Call elem) (op_ClientId elem) ::
      mkEntry returnEntry (op_Output elem) id (op_Return elem) (op_ClientId elem) ::
      make_loop (id + 1) history
  end.
Definition makeEntries `{SortByTime V} (history : list (Operation V)) : list (entry V) :=
  sort_entries (make_loop 0 history).

Fixpoint renumber_loop {V} (m : gmap Z Z) (id : Z) (events : list (Event V)) : list (Event V) :=
  match events with
  | [] => []
  | v :: events =>
      match m !! ev_Id v with
      | Some r => mkEvent (ev_ClientId v) (ev_Kind v) (ev_Value v) r :: renumber_loop m id events
      | None => mkEvent (ev_ClientId v) (ev_Kind v) (ev_Value v) id ::
                renumber_loop (<[ev_Id v := id]> m) (id + 1) events
      end
  end.
Definition renumber {V} (events : list (Event V)) : list (Event V) := renumber_loop ∅ 0 events.

Definition convertEntries {V} (events : list (Event V)) : list (entry V) :=
  imap (λ i elem, mkEntry match ev_Kind elem with ReturnEvent => returnEntry | CallEvent => callEntry end
                    (ev_Value elem) (ev_Id elem) (Z.of_nat i) (ev_ClientId elem)) events.

(** ** The linked list *)

Record node (V : Type) := mkNode {
  nd_value : option V; nd_match : option nat; nd_id : Z; nd_next : option nat; nd_prev : option nat
}.
Arguments mkNode {V}. Arguments nd_value {V}. Arguments nd_match {V}. Arguments nd_id {V}.
Arguments nd_next {V}. Arguments nd_prev {V}.

Notation heap V := (gmap nat (node V)).

Section List.
Context {V : Type}.

Definition with_next (v : option nat) (n : node V) : node V :=
  mkNode (nd_value n) (nd_match n) (nd_id n) v (nd_prev n).
Definition with_prev (v : option nat) (n : node V) : node V :=
  mkNode (nd_value n) (nd_match n) (nd_id n) (nd_next n) v.

(** [p.next = v] and [p.prev = v]. *)
Definition set_next (p : nat) (v : option nat) (h : heap V) : option (heap V) :=
  n ← h !! p; Some (<[p := with_next v n]> h).
Definition set_prev (p : nat) (v : option nat) (h : heap V) : option (heap V) :=
  n ← h !! p; Some (<[p := with_prev v n]> h).

Definition insertBefore (n : nat) (mark : option nat) (h : heap V) : option (heap V) :=
  match mark with
  | None => Some h
  | Some mark =>
      mn ← h !! mark;
      let beforeMark := nd_prev mn in
      h ← set_prev mark (Some n) h;
      h ← set_next n (Some mark) h;
      match beforeMark with
      | None => Some h
      | Some b => h ← set_prev n (Some b) h; set_next b (Some n) h
      end
  end.

(** [length]; the fuel bounds the nodes visited. *)
Fixpoint list_length (fuel : nat) (n : option nat) (h : heap V) : option Z :=
  match n with
  | None => Some 0
  | Some p => match fuel with
              | O => None
              | S fuel => nd ← h !! p; l ← list_length fuel (nd_next nd) h; Some (l + 1)
              end
  end.

(** The loop from the last entry to the first: entries [0 .. i-1] remain. *)
Fixpoint link_loop (entries : list (entry V)) (i : nat) (root : option nat) (matches : gmap Z nat) (h : heap V)
    : option (option nat * heap V) :=
  match i with
  | O => Some (root, h)
  | S i =>
      elem ← entries !! i;
      match en_kind elem with
      | returnEntry =>
          let h := <[i := mkNode (Some (en_value elem)) None (en_id elem) None None]> h in
          h ← insertBefore i root h;
          link_loop entries i (Some i) (<[en_id elem := i]> matches) h
      | callEntry =>
          let h := <[i := mkNode (Some (en_value elem)) (matches !! en_id elem) (en_id elem) None None]> h in
          h ← insertBefore i root h;
          link_loop entries i (Some i) matches h
      end
  end.
Definition makeLinkedEntries (entries : list (entry V)) : option (option nat * heap V) :=
  link_loop entries (length entries) None ∅ ∅.

Definition lift (entry : nat) (h : heap V) : option (heap V) :=
  e ← h !! entry;
  p ← nd_prev e; h ← set_next p (nd_next e) h;
  e ← h !! entry;
  q ← nd_next e; h ← set_prev q (nd_prev e) h;
  e ← h !! entry;
  mtch ← nd_match e;
  m ← h !! mtch;
  p ← nd_prev m; h ← set_next p (nd_next m) h;
  m ← h !! mtch;
  match nd_next m with
  | None => Some h
  | Some q => set_prev q (nd_prev m) h
  end.

Definition unlift (entry : nat) (h : heap V) : option (heap V) :=
  e ← h !! entry;
  mtch ← nd_match e;
  m ← h !! mtch;
  p ← nd_prev m; h ← set_next p (Some mtch) h;
  m ← h !! mtch;
  h ← match nd_next m with
      | None => Some h
      | Some q => set_prev q (Some mtch) h
      end;
  e ← h !! entry;
  p ← nd_prev e; h ← set_next p (Some entry) h;
  e ← h !! entry;
  q ← nd_next e; set_prev q (Some entry) h.
End List.

(** ** The search *)

Section Check.
Context {V St : Type}.

Record cacheEntry := mkCacheEntry { ce_linearized : bitset; ce_state : St }.
Notation Cache := (gmap Z (list cacheEntry)).

Fixpoint bucket_contains (eq : St → St → bool) (bucket : list cacheEntry) (e : cacheEntry) : bool :=
  match bucket with
  | [] => false
  | elem :: bucket =>
      if equals (ce_linearized e) (ce_linearized elem) && eq (ce_state e) (ce_state elem) then true
      else bucket_contains eq bucket e
  end.

(** [cacheContains]; a nil [Equal] panics when it is called. *)
Definition cacheContains (model : Model V St) (cache : Cache) (e : cacheEntry) : option bool :=
  eq ← Equal model;
  Some (bucket_contains eq (default [] (cache !! hash (ce_linearized e))) e).

Record callsEntry := mkCallsEntry { cl_entry : nat; cl_state : St }.

(** The variables of [checkSingle].  [longest] holds pointers into [seqs], the
    slices that were allocated. *)
Record CheckState := mkCheckState {
  cs_heap : heap V; cs_entry : option nat; cs_state : St; cs_linearized : bitset; cs_cache : Cache;
  cs_calls : list callsEntry; cs_longest : list (option nat); cs_seqs : list (list Z)
}.

Definition advance (v : option nat) (s : CheckState) : CheckState :=
  mkCheckState (cs_heap s) v (cs_state s) (cs_linearized s) (cs_cache s) (cs_calls s) (cs_longest s) (cs_seqs s).

(** The ids of the calls made so far, in order. *)
Definition call_ids (h : heap V) (calls : list callsEntry) : option (list Z) :=
  mapM (λ c, nd_id <$> h !! cl_entry c) calls.

(** The partial linearizations: every call whose longest one is shorter than the
    present sequence gets it; the sequence is allocated at most once. *)
Definition improves (seq : list Z) (old : option nat) (seqs : list (list Z)) : option bool :=
  match old with None => Some true | Some p => l ← seqs !! p; Some (len l <? len seq) end.

Fixpoint longest_loop (seq : list Z) (ids : list Z) (longest : list (option nat)) (seqs : list (list Z))
    (fresh : bool) : option (list (option nat) * list (list Z)) :=
  match ids with
  | [] => Some (longest, seqs)
  | id :: ids =>
      old ← longest@[id];
      better ← improves seq old seqs;
      if (better : bool) then
        let seqs := if fresh then seqs ++ [seq] else seqs in
        longest ← upd longest id (Some (length seqs - 1)%nat);
        longest_loop seq ids longest seqs false
      else longest_loop seq ids longest seqs fresh
  end.

Definition update_longest (s : CheckState) : option CheckState :=
  ids ← call_ids (cs_heap s) (cs_calls s);
  '(longest, seqs) ← longest_loop ids ids (cs_longest s) (cs_seqs s) true;
  Some (mkCheckState (cs_heap s) (cs_entry s) (cs_state s) (cs_linearized s) (cs_cache s) (cs_calls s) longest seqs).

(** A call that can be linearized next: remember it and start over. *)
Definition push (head e : nat) (en : node V) (newLinearized : bitset) (newState : St) (s : CheckState)
    : option CheckState :=
  let k := hash newLinearized in
  let cache := <[k := default [] (cs_cache s !! k) ++ [mkCacheEntry newLinearized newState]]> (cs_cache s) in
  linearized ← set (cs_linearized s) (nd_id en);
  h ← lift e (cs_heap s);
  hd ← h !! head;
  Some (mkCheckState h (nd_next hd) newState linearized cache
          (cs_calls s ++ [mkCallsEntry e (cs_state s)]) (cs_longest s) (cs_seqs s)).

(** A return entry: take back the last call. *)
Definition pop (s : CheckState) : option CheckState :=
  callsTop ← last (cs_calls s);
  let e := cl_entry callsTop in
  en ← cs_heap s !! e;
  linearized ← clear (cs_linearized s) (nd_id en);
  h ← unlift e (cs_heap s);
  en ← h !! e;
  Some (mkCheckState h (nd_next en) (cl_state callsTop) linearized (cs_cache s)
          (take (length (cs_calls s) - 1) (cs_calls s)) (cs_longest s) (cs_seqs s)).

(** One turn of the loop: the next state, or the result. *)
Definition check_step (model : Model V St) (computePartial killed : bool) (head : nat) (s : CheckState)
    : option (CheckState + bool) :=
  hd ← cs_heap s !! head;
  match nd_next hd with
  | None => Some (inr true)
  | Some _ =>
      if killed then Some (inr false) else
      e ← cs_entry s;
      en ← cs_heap s !! e;
      match nd_match en with
      | Some m =>
          mn ← cs_heap s !! m;
          cv ← nd_value en; rv ← nd_value mn;
          '(ok, newState) ← Step model (cs_state s) cv rv;
          if (ok : bool) then
            newLinearized ← set (clone (cs_linearized s)) (nd_id en);
            found ← cacheContains model (cs_cache s) (mkCacheEntry newLinearized newState);
            if negb found then s ← push head e en newLinearized newState s; Some (inl s)
            else Some (inl (advance (nd_next en) s))
          else Some (inl (advance (nd_next en) s))
      | None =>
          if len (cs_calls s) =? 0 then Some (inr false) else
          s ← (if computePartial then update_longest s else Some s);
          s ← pop s; Some (inl s)
      end
  end.

(** The end of [checkSingle] after the loop: every longest is the whole sequence. *)
Definition finish (s : CheckState) : option CheckState :=
  seq ← call_ids (cs_heap s) (cs_calls s);
  Some (mkCheckState (cs_heap s) (cs_entry s) (cs_state s) (cs_linearized s) (cs_cache s) (cs_calls s)
          (replicate (length (cs_longest s)) (Some (length (cs_seqs s)))) (cs_seqs s ++ [seq])).

Inductive Outcome := Finished (ok : bool) (s : CheckState) | Panic | OutOfFuel.

(** [kill i] tells whether the kill flag is set when turn [i] looks at it. *)
Fixpoint check_loop (model : Model V St) (computePartial : bool) (kill : nat → bool) (head : nat)
    (fuel i : nat) (s : CheckState) : Outcome :=
  match fuel with
  | O => OutOfFuel
  | S fuel =>
      match check_step model computePartial (kill i) head s with
      | None => Panic
      | Some (inl s) => check_loop model computePartial kill head fuel (S i) s
      | Some (inr true) => match finish s with Some s => Finished true s | None => Panic end
      | Some (inr false) => Finished false s
      end
  end.

(** Everything before the loop. *)
Definition check_start (model : Model V St) (history : list (entry V)) : option CheckState :=
  '(root, h) ← makeLinkedEntries history;
  l ← list_length (length history) root h;
  let n := l / 2 in
  let head := length history in
  let h := <[head := mkNode None None (-1) None None]> h in
  h ← insertBefore head root h;
  Some (mkCheckState h root (Init model) (newBitset n) ∅ [] (replicate (Z.to_nat n) None) []).

Definition checkSingle (model : Model V St) (history : list (entry V)) (computePartial : bool)
    (kill : nat → bool) (fuel : nat) : Outcome :=
  match check_start model history with
  | None => Panic
  | Some s => check_loop model computePartial kill (length history) fuel 0 s
  end.
End Check.
Arguments cacheEntry : clear implicits. Arguments callsEntry : clear implicits.
Arguments CheckState : clear implicits. Arguments Outcome : clear implicits.
End Porcupine.
