(* ===== verification/PorcupineKv.v ===== *)
(** * The key/value model: [models/kv.go] *)

From stdpp Require Import pretty.
From S2P Require Import Prelude PorcupineBitset Porcupine.

Module PorcupineKv.
Import Porcupine.

Record KvInput := mkKvInput { ki_Op : Z; ki_Key : string; ki_Value : string }.
Record KvOutput := mkKvOutput { ko_Value : string }.

(** The dynamic values of a history. *)
Inductive KvVal := VIn (i : KvInput) | VOut (o : KvOutput).

(** [v.Input.(KvInput).Key]. *)
Definition op_key (v : Operation KvVal) : option string :=
  match op_Input v with VIn i => Some (ki_Key i) | VOut _ => None end.

Definition kv_Step (state : string) (input output : KvVal) : option (bool * string) :=
  match input, output with
  | VIn inp, VOut out =>
      if ki_Op inp =? 0 then Some (bool_decide (ko_Value out = state), state)
      else if ki_Op inp =? 1 then Some (true, ki_Value inp)
      else Some (true, state +:+ ki_Value inp)
  | _, _ => None
  end.

Fixpoint partition_loop (m : gmap string (list (Operation KvVal))) (history : list (Operation KvVal))
    : option (gmap string (list (Operation KvVal))) :=
  match history with
  | [] => Some m
  | v :: history => key ← op_key v; partition_loop (<[key := default [] (m !! key) ++ [v]]> m) history
  end.

(** The keys in order, each with its operations in the order of the history. *)
Definition kv_Partition (history : list (Operation KvVal)) : option (list (list (Operation KvVal))) :=
  m ← partition_loop ∅ history;
  let keys := merge_sort String.le (elements (dom m : gset string)) in
  Some ((λ k, default [] (m !! k)) <$> keys).

Definition kv_DescribeOperation (input output : KvVal) : option string :=
  match input, output with
  | VIn inp, VOut out =>
      Some (if ki_Op inp =? 0 then "get('" +:+ ki_Key inp +:+ "') -> '" +:+ ko_Value out +:+ "'"
            else if ki_Op inp =? 1 then "put('" +:+ ki_Key inp +:+ "', '" +:+ ki_Value inp +:+ "')"
            else if ki_Op inp =? 2 then "append('" +:+ ki_Key inp +:+ "', '" +:+ ki_Value inp +:+ "')"
            else "<invalid>")
  | _, _ => None
  end.

Definition KvModel : Model KvVal string :=
  mkModel (Some kv_Partition) None "" kv_Step None (Some kv_DescribeOperation) None.

(** ** Facts *)

Definition of_key (k : string) (history : list (Operation KvVal)) : list (Operation KvVal) :=
  filter (λ o, op_key o = Some k) history.

Lemma partition_loop_spec history m :
  (∀ o, o ∈ history → is_Some (op_key o)) →
  ∃ m', partition_loop m history = Some m' ∧
    ∀ k, m' !! k = match of_key k history with [] => m !! k | ops => Some (default [] (m !! k) ++ ops) end.
Proof.
  revert m. induction history as [|o history IH]; intros m Hk; [by exists m|].
  destruct (Hk o ltac:(left)) as [key Hkey]. simpl. rewrite Hkey. cbn [mbind option_bind].
  destruct (IH (<[key := default [] (m !! key) ++ [o]]> m)) as (m'&E&Hm'); [intros x Hx; apply Hk; by right|].
  exists m'. split; [done|]. intros k. rewrite Hm'. unfold of_key. rewrite filter_cons, Hkey.
  destruct (decide (k = key)) as [->|Hne].
  - rewrite decide_True, lookup_insert_eq by done. simpl. destruct (filter _ history); [done|]. by rewrite <- app_assoc.
  - rewrite decide_False, lookup_insert_ne by congruence. done.
Qed.

Lemma partition_loop_panic history m o : o ∈ history → op_key o = None → partition_loop m history = None.
Proof.
  intros Ho Hn. revert m. induction history as [|x history IH]; intros m; [by apply not_elem_of_nil in Ho|]. simpl.
  apply elem_of_cons in Ho as [<-|Ho]; [by rewrite Hn|]. destruct (op_key x); simpl; [by apply IH|done].
Qed.

Lemma concat_of_key keys history :
  NoDup keys → (∀ o, o ∈ history → ∃ k, op_key o = Some k ∧ k ∈ keys) →
  concat ((λ k, of_key k history) <$> keys) ≡ₚ history.
Proof.
  intros Hn. induction history as [|o history IH]; intros Hk.
  { clear. induction keys as [|k keys IH]; [done|]. csimpl. apply IH. }
  destruct (Hk o ltac:(left)) as (k&Hko&Hin). apply list_elem_of_split in Hin as (K1&K2&->).
  etrans; [|constructor; apply IH; intros; apply Hk; by right]. rewrite NoDup_app, NoDup_cons in Hn.
  assert (Hother : ∀ K : list string, k ∉ K → (λ k, of_key k (o :: history)) <$> K = (λ k, of_key k history) <$> K).
  { intros K HK. apply list_fmap_ext. intros i k' Hk'. unfold of_key. rewrite filter_cons, decide_False; [done|].
    intros E. rewrite Hko in E. simplify_eq. apply HK. by eapply list_elem_of_lookup_2. }
  rewrite !fmap_app, !concat_app. csimpl. rewrite !Hother by set_solver.
  assert (of_key k (o :: history) = o :: of_key k history) as -> by (unfold of_key; by rewrite filter_cons, decide_True).
  simpl. by rewrite <- Permutation_middle.
Qed.
End PorcupineKv.
