(* ===== verification/PorcupineList.v ===== *)
(** * The linked list of the checker

    A store represents a list of pointers when the [next] and [prev] fields of its
    nodes link them up.  [lift] takes an entry and its match out of the list, and
    [unlift] puts them back: the store is then exactly what it was. *)

From S2P Require Import Prelude PorcupineBitset Porcupine.

Module PorcupineList.
Import Porcupine.

Section List.
Context {V : Type}.
Implicit Types h : heap V.
Implicit Types l : list nat.

Definition first l (d : option nat) : option nat := match l with [] => d | q :: _ => Some q end.
Definition final l (d : option nat) : option nat := match last l with None => d | Some p => Some p end.

(** The nodes of [l] are linked, [pv] before them and [nx] after. *)
Fixpoint seg h (pv : option nat) l (nx : option nat) : Prop :=
  match l with
  | [] => True
  | p :: l' => (∃ n, h !! p = Some n ∧ nd_prev n = pv ∧ nd_next n = first l' nx) ∧ seg h (Some p) l' nx
  end.

Definition links h l : Prop := seg h None l None.

(** Everything but the links. *)
Definition skel h : gmap nat (option V * option nat * Z) := (λ n, (nd_value n, nd_match n, nd_id n)) <$> h.

Lemma final_snoc l p d : final (l ++ [p]) d = Some p.
Proof. unfold final. by rewrite last_snoc. Qed.
Lemma final_cons p l d : final (p :: l) d = final l (Some p).
Proof. unfold final. rewrite last_cons. by destruct (last l). Qed.
Lemma first_app l l' d : first (l ++ l') d = first l (first l' d).
Proof. by destruct l. Qed.

Lemma seg_app h pv l1 l2 nx :
  seg h pv (l1 ++ l2) nx ↔ seg h pv l1 (first l2 nx) ∧ seg h (final l1 pv) l2 nx.
Proof.
  revert pv. induction l1 as [|p l1 IH]; intros pv; simpl; [unfold final; simpl; tauto|].
  rewrite IH, final_cons. rewrite first_app. tauto.
Qed.

Lemma seg_frame h h' pv l nx : (∀ p, p ∈ l → h' !! p = h !! p) → seg h pv l nx → seg h' pv l nx.
Proof.
  revert pv. induction l as [|p l IH]; intros pv Hf; simpl; [done|]. intros [Hn Hl]. split.
  - rewrite Hf by (by left). done.
  - apply IH; [|done]. intros q Hq. apply Hf. by right.
Qed.

(** A write to one node. *)
Definition wrote (p : nat) h h' : Prop := (∀ q, q ≠ p → h' !! q = h !! q) ∧ skel h' = skel h.

Lemma wrote_frame p h h' pv l nx : wrote p h h' → p ∉ l → seg h pv l nx → seg h' pv l nx.
Proof. intros [Hw _] Hp. apply seg_frame. intros q Hq. apply Hw. by intros ->. Qed.

Lemma wrote_insert p n n' h :
  h !! p = Some n → (nd_value n', nd_match n', nd_id n') = (nd_value n, nd_match n, nd_id n) →
  wrote p h (<[p := n']> h).
Proof.
  intros Hp Hn. split; [intros q Hq; by rewrite lookup_insert_ne|].
  unfold skel. rewrite fmap_insert, Hn. apply insert_id. by rewrite lookup_fmap, Hp.
Qed.

Lemma set_next_last h pv l a nx v :
  seg h pv (l ++ [a]) nx → a ∉ l → ∃ h', set_next a v h = Some h' ∧ wrote a h h' ∧ seg h' pv (l ++ [a]) v.
Proof.
  intros [Hl [[n (Hn&Hp&_)] _]]%seg_app Ha. simpl in *.
  exists (<[a := with_next v n]> h). unfold set_next. rewrite Hn. split; [done|].
  assert (Hw : wrote a h (<[a := with_next v n]> h)) by (by eapply wrote_insert).
  split; [done|]. apply seg_app. split; [by eapply wrote_frame|].
  split; [|done]. exists (with_next v n). by rewrite lookup_insert_eq.
Qed.

Lemma set_prev_first h pv l b nx v :
  seg h pv (b :: l) nx → b ∉ l → ∃ h', set_prev b v h = Some h' ∧ wrote b h h' ∧ seg h' v (b :: l) nx.
Proof.
  intros [[n (Hn&_&Hx)] Hl] Hb. exists (<[b := with_prev v n]> h). unfold set_prev. rewrite Hn. split; [done|].
  assert (Hw : wrote b h (<[b := with_prev v n]> h)) by (by eapply wrote_insert).
  split; [done|]. split; [|by eapply wrote_frame]. exists (with_prev v n). by rewrite lookup_insert_eq.
Qed.

(** The store is determined by its links and the rest. *)
Lemma seg_lookup h pv l nx p :
  seg h pv l nx → p ∈ l → NoDup l →
  ∃ n l1 l2, l = l1 ++ p :: l2 ∧ h !! p = Some n ∧ nd_prev n = final l1 pv ∧ nd_next n = first l2 nx.
Proof.
  intros Hs Hp Hn. apply list_elem_of_split in Hp as (l1&l2&->). apply seg_app in Hs as [_ [[n (?&?&?)] _]].
  by exists n, l1, l2.
Qed.

Lemma seg_inj h h' l :
  NoDup l → links h l → links h' l → skel h = skel h' → (∀ p, p ∉ l → h !! p = h' !! p) → h = h'.
Proof.
  intros Hn Hl Hl' Hs Hf. apply map_eq. intros p. destruct (decide (p ∈ l)) as [Hp|]; [|by apply Hf].
  destruct (list_elem_of_split _ _ Hp) as (l1&l2&->).
  apply seg_app in Hl as [_ [[n (Hn1&Hp1&Hx1)] _]], Hl' as [_ [[n' (Hn2&Hp2&Hx2)] _]].
  apply (f_equal (.!! p)) in Hs. unfold skel in Hs. rewrite !lookup_fmap, Hn1, Hn2 in Hs. simpl in Hs.
  rewrite Hn1, Hn2. destruct n, n'. simpl in *. congruence.
Qed.

Lemma skel_match h h' p : skel h' = skel h → nd_match <$> h' !! p = nd_match <$> h !! p.
Proof.
  intros Hs. apply (f_equal (.!! p)) in Hs. unfold skel in Hs. rewrite !lookup_fmap in Hs.
  destruct (h !! p), (h' !! p); simpl in *; congruence.
Qed.

(** ** Taking one node out and putting it back *)

(** Sets [prev] of a node, if it is not nil. *)
Definition set_prev_opt (q : option nat) (v : option nat) h : option (heap V) :=
  match q with None => Some h | Some q => set_prev q v h end.

Definition unlink (x : nat) h : option (heap V) :=
  n ← h !! x; p ← nd_prev n; h ← set_next p (nd_next n) h;
  n ← h !! x; set_prev_opt (nd_next n) (nd_prev n) h.
Definition relink (x : nat) h : option (heap V) :=
  n ← h !! x; p ← nd_prev n; h ← set_next p (Some x) h;
  n ← h !! x; set_prev_opt (nd_next n) (Some x) h.

Lemma set_prev_opt_first h pv R v :
  seg h pv R None → NoDup R →
  ∃ h', set_prev_opt (first R None) v h = Some h' ∧ seg h' v R None ∧ skel h' = skel h ∧
    (∀ q, q ∉ R → h' !! q = h !! q).
Proof.
  intros Hs Hn. destruct R as [|c R]; simpl in *; [by exists h|].
  apply NoDup_cons in Hn as [Hc _]. destruct (set_prev_first h pv R c None v Hs Hc) as (h'&?&[Hw ?]&?).
  exists h'. do 3 (split; [done|]). intros q Hq. apply Hw. set_solver.
Qed.

(** The two writes both do: the node before now points to [u] and the one after
    to [w]. *)
Lemma rewire h L a R x1 x2 u w :
  NoDup (L ++ [a] ++ R) → seg h None (L ++ [a]) x1 → seg h x2 R None →
  ∃ h1 h2, set_next a u h = Some h1 ∧ (∀ q, q ≠ a → h1 !! q = h !! q) ∧
    set_prev_opt (first R None) w h1 = Some h2 ∧
    seg h2 None (L ++ [a]) u ∧ seg h2 w R None ∧ skel h2 = skel h ∧
    (∀ q, q ∉ L ++ [a] ++ R → h2 !! q = h !! q).
Proof.
  intros Hn HL HR. rewrite NoDup_app in Hn. destruct Hn as (HnL&HLR&HnR). rewrite NoDup_app in HnR.
  destruct HnR as (_&HaR&HnR).
  destruct (set_next_last h None L a x1 u HL) as (h1&E1&[Hw1 Hs1]&HL1); [set_solver|].
  assert (HR1 : seg h1 x2 R None) by (eapply wrote_frame; [by split|set_solver|done]).
  destruct (set_prev_opt_first h1 x2 R w HR1 HnR) as (h2&E2&HR2&Hs2&Hw2).
  exists h1, h2. split_and!; [done..| |done|congruence|].
  - eapply seg_frame; [|done]. intros q Hq. apply Hw2. set_solver.
  - intros q Hq. rewrite Hw2, Hw1 by set_solver. done.
Qed.

Lemma unlink_spec h L a x R :
  NoDup (L ++ [a] ++ x :: R) → links h (L ++ [a] ++ x :: R) →
  ∃ h', unlink x h = Some h' ∧ links h' (L ++ [a] ++ R) ∧ skel h' = skel h ∧
    h' !! x = h !! x ∧ (∀ q, q ∉ L ++ [a] ++ x :: R → h' !! q = h !! q).
Proof.
  unfold links. rewrite !(app_assoc L [a]), !(seg_app _ _ (L ++ [a])). cbn [first]. rewrite final_snoc. intros Hn [HL [[n (Hx&Hp&Hnx)] HR]].
  assert (Hx' : x ∉ L ++ [a] ++ R) by (rewrite NoDup_app, NoDup_cons in Hn; set_solver).
  destruct (rewire h L a R (Some x) (Some x) (first R None) (Some a)) as (h1&h2&E1&Hw1&E2&HL2&HR2&Hs2&Hf2);
    [|done|done|].
  { rewrite NoDup_app, NoDup_cons in Hn. rewrite (app_assoc L [a]), NoDup_app. set_solver. }
  exists h2. unfold unlink. rewrite Hx. cbn [mbind option_bind]. rewrite Hp. cbn [mbind option_bind]. rewrite Hnx, E1.
  cbn [mbind option_bind]. rewrite Hw1, Hx by set_solver. cbn [mbind option_bind]. rewrite Hp, Hnx, E2.
  split_and!; [done| |done|by rewrite Hf2|].
  - rewrite seg_app, final_snoc. done.
  - intros q Hq. apply Hf2. set_solver.
Qed.

Lemma relink_spec h L a x R :
  NoDup (L ++ [a] ++ x :: R) → links h (L ++ [a] ++ R) → seg h (Some a) [x] (first R None) →
  ∃ h', relink x h = Some h' ∧ links h' (L ++ [a] ++ x :: R) ∧ skel h' = skel h ∧
    (∀ q, q ∉ L ++ [a] ++ x :: R → h' !! q = h !! q).
Proof.
  unfold links. rewrite !(app_assoc L [a]), !(seg_app _ _ (L ++ [a])). cbn [first]. rewrite final_snoc. intros Hn [HL HR] [[n (Hx&Hp&Hnx)] _].
  assert (Hx' : x ∉ L ++ [a] ++ R) by (rewrite NoDup_app, NoDup_cons in Hn; set_solver).
  destruct (rewire h L a R (first R None) (Some a) (Some x) (Some x)) as (h1&h2&E1&Hw1&E2&HL2&HR2&Hs2&Hf2);
    [|done|done|].
  { rewrite NoDup_app, NoDup_cons in Hn. rewrite (app_assoc L [a]), NoDup_app. set_solver. }
  exists h2. unfold relink. rewrite Hx. cbn [mbind option_bind]. rewrite Hp. cbn [mbind option_bind]. rewrite E1.
  cbn [mbind option_bind]. rewrite Hw1, Hx by set_solver. cbn [mbind option_bind]. rewrite Hnx.
  split_and!; [done| |done|].
  - rewrite seg_app, final_snoc. split; [done|]. split; [|done]. exists n. rewrite Hf2 by done. done.
  - intros q Hq. apply Hf2. set_solver.
Qed.

(** ** [lift] and [unlift] *)

Lemma NoDup_middle (A R : list nat) a e : NoDup (A ++ [a] ++ e :: R) → e ∉ A ++ [a] ++ R.
Proof. rewrite !(app_assoc A [a]), NoDup_app, NoDup_cons. set_solver. Qed.

Lemma lift_unlink e h h1 q m :
  unlink e h = Some h1 → h !! e = h1 !! e → nd_next <$> h !! e = Some (Some q) →
  nd_match <$> h !! e = Some (Some m) → lift e h = unlink m h1.
Proof.
  intros Hu He Hq Hm. unfold unlink in Hu. unfold lift.
  destruct (h !! e) as [n|] eqn:En; [|done]. cbn [mbind option_bind fmap option_fmap option_map] in *.
  injection Hq as Hq. injection Hm as Hm.
  destruct (nd_prev n) as [p|]; [|done]. cbn [mbind option_bind] in *.
  destruct (set_next p (nd_next n) h) as [h2|]; [|done]. cbn [mbind option_bind] in *.
  destruct (h2 !! e) as [n2|] eqn:En2; [|done]. cbn [mbind option_bind] in *.
  destruct (nd_next n2) as [q2|] eqn:Eq2.
  - cbn [set_prev_opt mbind option_bind] in *. rewrite Hu. cbn [mbind option_bind]. rewrite <- He.
    cbn [mbind option_bind]. rewrite Hm. done.
  - cbn [set_prev_opt] in Hu. simplify_eq. congruence.
Qed.

Lemma unlift_relink e h h1 q m :
  relink m h = Some h1 → nd_match <$> h !! e = Some (Some m) → nd_next <$> h1 !! e = Some (Some q) →
  (∀ h2, set_next (default 0%nat (n ← h1 !! e; nd_prev n)) (Some e) h1 = Some h2 → h2 !! e = h1 !! e) →
  unlift e h = relink e h1.
Proof.
  intros Hu Hm Hq He. unfold relink in Hu. unfold unlift.
  destruct (h !! e) as [n|] eqn:En; [|done]. cbn [mbind option_bind fmap option_fmap option_map] in *.
  injection Hm as Hm. rewrite Hm. cbn [mbind option_bind].
  destruct (h !! m) as [nm|]; [|done]. cbn [mbind option_bind] in *.
  destruct (nd_prev nm) as [p|]; [|done]. cbn [mbind option_bind] in *.
  destruct (set_next p (Some m) h) as [h2|]; [|done]. cbn [mbind option_bind] in *.
  destruct (h2 !! m) as [nm2|]; [|done]. cbn [mbind option_bind] in *.
  unfold set_prev_opt in Hu. rewrite Hu. cbn [mbind option_bind]. unfold relink.
  destruct (h1 !! e) as [n1|] eqn:En1; [|done]. cbn [mbind option_bind fmap option_fmap option_map default] in *.
  injection Hq as Hq. destruct (nd_prev n1) as [p1|] eqn:Ep1; [|done]. cbn [mbind option_bind default] in *.
  destruct (set_next p1 (Some e) h1) as [h3|] eqn:E3; [|done]. cbn [mbind option_bind].
  rewrite (He h3 E3). cbn [mbind option_bind]. rewrite Hq. done.
Qed.

(** What [lift] leaves: the list without [e] and [m], and the two nodes still
    pointing to the places they had. *)
Record lifted h (A : list nat) (a e : nat) (B : list nat) (m : nat) (C : list nat) : Prop := {
  lf_links : links h (A ++ [a] ++ B ++ C);
  lf_entry : seg h (Some a) [e] (first (B ++ m :: C) None);
  lf_match : seg h (final B (Some a)) [m] (first C None)
}.

Lemma snoc_decompose (a : nat) B : ∃ B' b, [a] ++ B = B' ++ [b] ∧ final B (Some a) = Some b.
Proof.
  destruct B as [|b B _] using rev_ind; [by exists [], a|]. exists (a :: B), b. by rewrite final_snoc.
Qed.

Lemma lift_spec h A a e B m C :
  NoDup (A ++ [a] ++ e :: B ++ m :: C) → links h (A ++ [a] ++ e :: B ++ m :: C) →
  nd_match <$> h !! e = Some (Some m) →
  ∃ h', lift e h = Some h' ∧ lifted h' A a e B m C ∧ skel h' = skel h ∧
    (∀ q, q ∉ A ++ [a] ++ e :: B ++ m :: C → h' !! q = h !! q).
Proof.
  intros Hn Hl Hm. destruct (unlink_spec h A a e (B ++ m :: C) Hn Hl) as (h1&E1&Hl1&Hs1&He1&Hf1).
  assert (Hse : seg h (Some a) [e] (first (B ++ m :: C) None)).
  { unfold links in Hl. rewrite (app_assoc A [a]), seg_app, final_snoc in Hl. by destruct Hl as [_ [? _]]. }
  assert (Hq : ∃ q, nd_next <$> h !! e = Some (Some q)).
  { destruct Hse as [[n (->&_&Hx)] _]. simpl in *. rewrite Hx. destruct B; eauto. }
  destruct Hq as [q Hq].
  destruct (snoc_decompose a B) as (B'&b&EB&Hfin).
  assert (Hlist : A ++ [a] ++ B ++ m :: C = (A ++ B') ++ [b] ++ m :: C).
  { rewrite (app_assoc [a] B), EB. by rewrite <- !app_assoc. }
  assert (Hn2 : NoDup ((A ++ B') ++ [b] ++ m :: C)).
  { rewrite <- Hlist. eapply sublist_NoDup; [exact Hn|]. apply sublist_app; [done|]. simpl.
    by do 2 constructor. }
  rewrite Hlist in Hl1. destruct (unlink_spec h1 (A ++ B') b m C Hn2 Hl1) as (h2&E2&Hl2&Hs2&Hm2&Hf2).
  assert (He2 : h2 !! e = h !! e).
  { rewrite Hf2, He1; [done|]. rewrite <- Hlist. by apply NoDup_middle. }
  exists h2. split; [|split; [split|split]].
  - rewrite (lift_unlink e h h1 q m); [done..|by rewrite He1|done|done].
  - replace (A ++ [a] ++ B ++ C) with ((A ++ B') ++ [b] ++ C); [done|].
    rewrite (app_assoc [a] B), EB. by rewrite <- !app_assoc.
  - destruct Hse as [[n Hx] _]. split; [|done]. exists n. by rewrite He2.
  - rewrite Hfin. unfold links in Hl1. rewrite (app_assoc _ [b]), seg_app, final_snoc in Hl1.
    destruct Hl1 as [_ [[n Hx] _]]. split; [|done]. exists n. by rewrite Hm2.
  - congruence.
  - intros p Hp. rewrite Hf2, Hf1; [done|done|]. rewrite <- Hlist. set_solver.
Qed.

Lemma unlift_spec h A a e B m C :
  NoDup (A ++ [a] ++ e :: B ++ m :: C) → lifted h A a e B m C → nd_match <$> h !! e = Some (Some m) →
  ∃ h', unlift e h = Some h' ∧ links h' (A ++ [a] ++ e :: B ++ m :: C) ∧ skel h' = skel h ∧
    (∀ q, q ∉ A ++ [a] ++ e :: B ++ m :: C → h' !! q = h !! q).
Proof.
  intros Hn [Hl He Hmm] Hm. destruct (snoc_decompose a B) as (B'&b&EB&Hfin).
  assert (Hlist : ∀ X, A ++ [a] ++ B ++ X = (A ++ B') ++ [b] ++ X).
  { intros X. rewrite (app_assoc [a] B), EB. by rewrite <- !app_assoc. }
  assert (Hn2 : NoDup ((A ++ B') ++ [b] ++ m :: C)).
  { rewrite <- Hlist. eapply sublist_NoDup; [exact Hn|]. apply sublist_app; [done|]. simpl. by do 2 constructor. }
  rewrite Hlist in Hl. rewrite Hfin in Hmm.
  destruct (relink_spec h (A ++ B') b m C Hn2 Hl Hmm) as (h1&E1&Hl1&Hs1&Hf1). rewrite <- Hlist in Hl1.
  assert (Hnin : e ∉ A ++ [a] ++ B ++ m :: C) by (by apply NoDup_middle).
  assert (He1 : h1 !! e = h !! e) by (apply Hf1; by rewrite <- Hlist).
  assert (Hse : seg h1 (Some a) [e] (first (B ++ m :: C) None)).
  { destruct He as [[n Hx] _]. split; [|done]. exists n. by rewrite He1. }
  destruct (relink_spec h1 A a e (B ++ m :: C) Hn Hl1 Hse) as (h2&E2&Hl2&Hs2&Hf2).
  exists h2. split; [|split; [done|split; [congruence|]]].
  - destruct He as [[n (Hx&Hp&Hnx)] _]. destruct (first (B ++ m :: C) None) as [q|] eqn:Eq; [|by destruct B].
    rewrite (unlift_relink e h h1 q m); [done..| |].
    + rewrite He1, Hx. simpl. by rewrite Hnx.
    + rewrite He1, Hx. cbn [mbind option_bind]. rewrite Hp. change (default 0%nat (Some a)) with a. unfold set_next.
      intros h3 H3. destruct (h1 !! a); simpl in H3; [|done]. simplify_eq. rewrite lookup_insert_ne; [congruence|].
      intros ->. apply Hnin. set_solver.
  - intros p Hp. rewrite Hf2, Hf1; [done| |done]. rewrite <- Hlist. set_solver.
Qed.

(** The store is restored exactly. *)
Lemma unlift_lift h A a e B m C h' :
  NoDup (A ++ [a] ++ e :: B ++ m :: C) → links h (A ++ [a] ++ e :: B ++ m :: C) →
  nd_match <$> h !! e = Some (Some m) → lift e h = Some h' → unlift e h' = Some h.
Proof.
  intros Hn Hl Hm E. destruct (lift_spec h A a e B m C Hn Hl Hm) as (h1&E1&Hlf&Hs&Hf). simplify_eq.
  destruct (unlift_spec h' A a e B m C Hn Hlf) as (h2&->&Hl2&Hs2&Hf2).
  { by rewrite <- Hm; apply skel_match. }
  f_equal. apply (seg_inj h2 h _ Hn Hl2 Hl); [congruence|]. intros p Hp. by rewrite Hf2, Hf.
Qed.
End List.
End PorcupineList.
