(* ===== verification/PorcupineLink.v ===== *)
(** * Histories and the list [makeLinkedEntries] builds from them *)

From S2P Require Import Prelude PorcupineBitset Porcupine PorcupineList.

Module PorcupineLink.
Import Porcupine PorcupineList.

Section Link.
Context {V : Type}.
Implicit Types hist : list (entry V).
Implicit Types h : heap V.

(** ** Well-formed histories *)

Definition is_call hist (p : nat) : Prop := ∃ e, hist !! p = Some e ∧ en_kind e = callEntry.
Definition is_ret hist (p : nat) : Prop := ∃ e, hist !! p = Some e ∧ en_kind e = returnEntry.
Definition id_at hist (p : nat) : Z := match hist !! p with Some e => en_id e | None => -1 end.

(** Every id is below the number of operations and has one call, followed by one
    return. *)
Record wf_history hist : Prop := {
  wh_ids : ∀ p, (p < length hist)%nat → 0 ≤ id_at hist p < len hist / 2;
  wh_call_unique : ∀ p q, is_call hist p → is_call hist q → id_at hist p = id_at hist q → p = q;
  wh_ret_unique : ∀ p q, is_ret hist p → is_ret hist q → id_at hist p = id_at hist q → p = q;
  wh_call_ret : ∀ p, is_call hist p → ∃ q, is_ret hist q ∧ id_at hist q = id_at hist p ∧ (p < q)%nat;
  wh_ret_call : ∀ q, is_ret hist q → ∃ p, is_call hist p ∧ id_at hist q = id_at hist p ∧ (p < q)%nat
}.

Lemma call_or_ret hist p : (p < length hist)%nat → is_call hist p ∨ is_ret hist p.
Proof.
  intros [e He]%lookup_lt_is_Some. destruct (en_kind e) eqn:E; [left|right]; by exists e.
Qed.
Lemma call_not_ret hist p : is_call hist p → is_ret hist p → False.
Proof. intros (e&He&Hc) (e'&He'&Hr). congruence. Qed.
Lemma is_call_lt hist p : is_call hist p → (p < length hist)%nat.
Proof. intros (e&He&_). by eapply lookup_lt_Some. Qed.
Lemma is_ret_lt hist p : is_ret hist p → (p < length hist)%nat.
Proof. intros (e&He&_). by eapply lookup_lt_Some. Qed.

(** The return of a call. *)
Definition mate hist (p : nat) : option nat :=
  e ← hist !! p;
  match en_kind e with
  | returnEntry => None
  | callEntry => fst <$> list_find (λ e', en_kind e' = returnEntry ∧ en_id e' = en_id e) hist
  end.

Lemma mate_call hist p q :
  wf_history hist → is_call hist p → is_ret hist q → id_at hist q = id_at hist p → mate hist p = Some q.
Proof.
  intros Hwf Hc Hr Hid. pose proof Hc as (e&He&Hk). pose proof Hr as (e'&He'&Hk').
  unfold mate. rewrite He. simpl. rewrite Hk.
  destruct (list_find _ hist) as [[r e'']|] eqn:Ef.
  - apply list_find_Some in Ef as (Hr'&[Hk'' Hid'']&_). simpl. f_equal.
    apply (wh_ret_unique hist Hwf); [by exists e''|done|].
    unfold id_at in *. rewrite Hr', He, He' in *. congruence.
  - apply list_find_None in Ef. rewrite Forall_forall in Ef. destruct (Ef e'); [by eapply list_elem_of_lookup_2|].
    split; [done|]. unfold id_at in Hid. by rewrite He, He' in Hid.
Qed.

Lemma mate_ret hist p : is_ret hist p → mate hist p = None.
Proof. intros (e&He&Hk). unfold mate. rewrite He. simpl. by rewrite Hk. Qed.

Lemma mate_Some hist p q :
  wf_history hist → is_call hist p → mate hist p = Some q →
  is_ret hist q ∧ id_at hist q = id_at hist p ∧ (p < q)%nat.
Proof.
  intros Hwf Hc Hm. destruct (wh_call_ret hist Hwf p Hc) as (r&Hr&Hid&Hlt).
  rewrite (mate_call hist p r Hwf Hc Hr Hid) in Hm. by simplify_eq.
Qed.

Lemma mate_exists hist p : wf_history hist → is_call hist p → ∃ q, mate hist p = Some q.
Proof. intros Hwf Hc. destruct (wh_call_ret hist Hwf p Hc) as (r&Hr&Hid&_). eauto using mate_call. Qed.

(** ** The list *)

Lemma insertBefore_spec h n l nd :
  links h l → NoDup (n :: l) → h !! n = Some nd → nd_next nd = None → nd_prev nd = None →
  ∃ h', insertBefore n (first l None) h = Some h' ∧ links h' (n :: l) ∧ skel h' = skel h ∧
    (∀ q, q ∉ n :: l → h' !! q = h !! q).
Proof.
  intros Hl [Hn Hd]%NoDup_cons Hnd Hx Hp. destruct l as [|m l]; simpl.
  - exists h. split; [done|]. split; [|split; done]. split; [|done]. exists nd. done.
  - destruct Hl as [[mn (Hm&Hmp&Hmx)] Hl]. rewrite Hm. cbn [mbind option_bind]. rewrite Hmp.
    apply NoDup_cons in Hd as [Hml _]. unfold set_prev, set_next. rewrite Hm. cbn [mbind option_bind].
    rewrite lookup_insert_ne, Hnd by set_solver. cbn [mbind option_bind]. eexists. split; [done|].
    assert (Hw1 : wrote m h (<[m := with_prev (Some n) mn]> h)) by (by eapply wrote_insert).
    assert (Hw2 : wrote n (<[m := with_prev (Some n) mn]> h)
                    (<[n := with_next (Some m) nd]> (<[m := with_prev (Some n) mn]> h))).
    { eapply wrote_insert; [rewrite lookup_insert_ne by set_solver; exact Hnd|done]. }
    split; [|split].
    + split; [exists (with_next (Some m) nd); rewrite lookup_insert_eq; done|]. split.
      * exists (with_prev (Some n) mn). rewrite lookup_insert_ne, lookup_insert_eq by set_solver. done.
      * eapply wrote_frame; [done|set_solver|by eapply wrote_frame].
    + destruct Hw1, Hw2. congruence.
    + intros q Hq. rewrite !lookup_insert_ne by set_solver. done.
Qed.

(** What the node of entry [p] holds besides its links. *)
Definition node_data hist (p : nat) : option (option V * option nat * Z) :=
  e ← hist !! p; Some (Some (en_value e), mate hist p, en_id e).

Lemma link_loop_spec hist i root matches h :
  wf_history hist → (i ≤ length hist)%nat →
  root = first (seq i (length hist - i)) None → links h (seq i (length hist - i)) →
  (∀ p, (i ≤ p)%nat → skel h !! p = node_data hist p) →
  (∀ id r, matches !! id = Some r ↔ (i ≤ r)%nat ∧ is_ret hist r ∧ id_at hist r = id) →
  ∃ h', link_loop hist i root matches h = Some (first (seq 0 (length hist)) None, h') ∧
    links h' (seq 0 (length hist)) ∧ ∀ p, skel h' !! p = node_data hist p.
Proof.
  intros Hwf. revert root matches h. induction i as [|i IH]; intros root matches h Hi -> Hl Hd Hm; simpl.
  { exists h. rewrite Nat.sub_0_r in *. split_and!; [done..|]. intros p. apply Hd. lia. }
  destruct (lookup_lt_is_Some_2 hist i) as [e He]; [lia|]. rewrite He. cbn [mbind option_bind].
  assert (Hseq : seq i (length hist - i) = i :: seq (S i) (length hist - S i))
    by (replace (length hist - i)%nat with (S (length hist - S i)) by lia; done).
  assert (Hnin : NoDup (i :: seq (S i) (length hist - S i))) by (rewrite <- Hseq; apply NoDup_seq).
  assert (Hgo : ∀ mt, mt = mate hist i →
    ∃ h', insertBefore i (first (seq (S i) (length hist - S i)) None)
            (<[i := mkNode (Some (en_value e)) mt (en_id e) None None]> h) = Some h' ∧
      links h' (seq i (length hist - i)) ∧ ∀ p, (i ≤ p)%nat → skel h' !! p = node_data hist p).
  { intros mt ->. set (nd := mkNode _ _ _ _ _).
    destruct (insertBefore_spec (<[i := nd]> h) i (seq (S i) (length hist - S i)) nd) as (h'&E&Hl'&Hs&_).
    - eapply seg_frame; [|exact Hl]. intros q [? _]%elem_of_seq. by rewrite lookup_insert_ne by lia.
    - done.
    - by rewrite lookup_insert_eq.
    - done.
    - done.
    - exists h'. rewrite Hseq. split_and!; [done..|]. intros p Hp. rewrite Hs. unfold skel.
      rewrite fmap_insert. destruct (decide (p = i)) as [->|].
      + rewrite lookup_insert_eq. unfold node_data. rewrite He. done.
      + rewrite lookup_insert_ne by done. apply Hd. lia. }
  destruct (en_kind e) eqn:Ek.
  - assert (Hc : is_call hist i) by (by exists e).
    destruct (wh_call_ret hist Hwf i Hc) as (r&Hr&Hid&Hlt).
    destruct (Hgo (matches !! en_id e)) as (h'&->&Hl'&Hd').
    { rewrite (mate_call hist i r) by done. apply Hm. split; [lia|]. split; [done|].
      rewrite Hid. unfold id_at. by rewrite He. }
    cbn [mbind option_bind]. apply IH; [lia|by rewrite Hseq|done|done|].
    intros id q. rewrite Hm. split; [intros (?&?&?); split_and!; [lia|done..]|]. intros (?&Hq&?).
    split_and!; [|done..]. destruct (decide (q = i)) as [->|]; [by destruct (call_not_ret hist i)|lia].
  - assert (Hr : is_ret hist i) by (by exists e).
    destruct (Hgo None) as (h'&->&Hl'&Hd'); [by rewrite mate_ret|].
    cbn [mbind option_bind]. apply IH; [lia|by rewrite Hseq|done|done|].
    intros id q. destruct (decide (en_id e = id)) as [<-|Hne].
    + rewrite lookup_insert_eq. assert (Hidi : id_at hist i = en_id e) by (unfold id_at; by rewrite He).
      split; [intros [= <-]; split_and!; [lia|done..]|]. intros (_&Hq&Hid). f_equal.
      apply (wh_ret_unique hist Hwf); [done..|congruence].
    + rewrite lookup_insert_ne by done. rewrite Hm. split; [intros (?&?&?); split_and!; [lia|done..]|].
      intros (?&Hq&Hid). split_and!; [|done..]. destruct (decide (q = i)) as [->|]; [|lia].
      unfold id_at in Hid. by rewrite He in Hid.
Qed.

Lemma makeLinkedEntries_spec hist :
  wf_history hist →
  ∃ h, makeLinkedEntries hist = Some (first (seq 0 (length hist)) None, h) ∧
    links h (seq 0 (length hist)) ∧ ∀ p, skel h !! p = node_data hist p.
Proof.
  intros Hwf. apply link_loop_spec; try done.
  - by rewrite Nat.sub_diag.
  - by rewrite Nat.sub_diag.
  - intros p Hp. unfold node_data. rewrite lookup_ge_None_2 by done. unfold skel. by rewrite fmap_empty, lookup_empty.
  - intros id r. rewrite lookup_empty. split; [done|]. intros (?&?%is_ret_lt&_). lia.
Qed.

Lemma list_length_spec h pv l fuel :
  seg h pv l None → (length l ≤ fuel)%nat → list_length fuel (first l None) h = Some (len l).
Proof.
  revert pv fuel. induction l as [|p l IH]; intros pv fuel Hs Hf; [by destruct fuel|].
  destruct fuel as [|fuel]; simpl in *; [lia|]. destruct Hs as [[n (->&_&Hx)] Hs]. cbn [mbind option_bind].
  rewrite Hx, (IH (Some p)) by (done || lia). cbn [mbind option_bind]. unfold len. simpl. f_equal. lia.
Qed.
End Link.
End PorcupineLink.
