(* ===== verification/PorcupineSearch.v ===== *)
(** * Linearizations as paths

    The specification of the checker, and the form the search explores: from the
    set of operations already linearized, the next one may be any call that no
    remaining return precedes. *)

From S2P Require Import Prelude PorcupineBitset Porcupine PorcupineList PorcupineLink.

Module PorcupineSearch.
Import Bitset Porcupine PorcupineList PorcupineLink.

Section Search.
Context {V St : Type} (model : Model V St) (hist : list (entry V)).
Notation num := (len hist / 2).

(** ** The specification *)

(** The operation called at [p], from a state: [None] when the model refuses it. *)
Definition apply_op (st : St) (p : nat) : option St :=
  e ← hist !! p; q ← mate hist p; r ← hist !! q;
  '(ok, st') ← Step model st (en_value e) (en_value r);
  if (ok : bool) then Some st' else None.

Fixpoint apply_ops (st : St) (ps : list nat) : option St :=
  match ps with [] => Some st | p :: ps => st ← apply_op st p; apply_ops st ps end.

#[export] Instance is_call_dec p : Decision (is_call hist p).
Proof.
  refine (match hist !! p as o return hist !! p = o → _ with
          | Some e => λ E, match decide (en_kind e = callEntry) with left H => left _ | right H => right _ end
          | None => λ E, right _ end eq_refl).
  - by exists e.
  - intros (e'&E'&?). congruence.
  - intros (e'&E'&?). congruence.
Defined.

Definition call_positions : list nat := filter (is_call hist) (seq 0 (length hist)).

(** A linearization: an order of all the operations that the model accepts and in
    which no operation comes before one that returned before its call. *)
Record linearization (ps : list nat) : Prop := {
  ln_all : ps ≡ₚ call_positions;
  ln_legal : is_Some (apply_ops (Init model) ps);
  ln_order : ∀ i j p q r, (i < j)%nat → ps !! i = Some p → ps !! j = Some q → mate hist q = Some r → (p < r)%nat
}.
Definition linearizable : Prop := ∃ ps, linearization ps.

(** ** Paths *)

(** What remains of the history. *)
Definition rem (b : bitset) : list nat := filter (λ p, bit b (id_at hist p) = false) (seq 0 (length hist)).

Definition avail (b : bitset) (p : nat) : Prop :=
  p ∈ rem b ∧ is_call hist p ∧ ∀ q, q ∈ rem b → (q < p)%nat → is_call hist q.

(** One operation is linearized. *)
Definition extend (b : bitset) (st : St) (p : nat) (b' : bitset) (st' : St) : Prop :=
  avail b p ∧ apply_op st p = Some st' ∧ set b (id_at hist p) = Some b'.

Inductive path : bitset → St → list nat → bitset → St → Prop :=
  | path_nil b st : path b st [] b st
  | path_cons b st p b1 st1 ps b2 st2 :
      extend b st p b1 st1 → path b1 st1 ps b2 st2 → path b st (p :: ps) b2 st2.

Lemma path_snoc b st ps b1 st1 p b2 st2 :
  path b st ps b1 st1 → extend b1 st1 p b2 st2 → path b st (ps ++ [p]) b2 st2.
Proof. induction 1 as [|b st q b3 st3 ps b4 st4 He Hp IH]; intros Hx; simpl; econstructor; eauto. constructor. Qed.

Lemma path_ops b st ps b' st' : path b st ps b' st' → apply_ops st ps = Some st'.
Proof. induction 1 as [|b st p b1 st1 ps b2 st2 (_&Ha&_) Hp IH]; simpl; [done|]. by rewrite Ha. Qed.

Lemma elem_of_rem b p : p ∈ rem b ↔ (p < length hist)%nat ∧ bit b (id_at hist p) = false.
Proof. unfold rem. rewrite list_elem_of_filter, elem_of_seq. intuition lia. Qed.

Lemma NoDup_rem b : NoDup (rem b).
Proof. apply NoDup_filter, NoDup_seq. Qed.

Context (Hwf : wf_history hist).

Lemma id_range p : (p < length hist)%nat → 0 ≤ id_at hist p < num.
Proof using Hwf. apply (wh_ids hist Hwf). Qed.

(** Two positions with one id are a call and its return. *)
Lemma same_id p q m :
  is_call hist p → mate hist p = Some m → (q < length hist)%nat → id_at hist q = id_at hist p → q = p ∨ q = m.
Proof using Hwf.
  intros Hp Hm Hq Hid. destruct (call_or_ret hist q Hq) as [Hc|Hr]; [left|right].
  - by apply (wh_call_unique hist Hwf).
  - apply mate_Some in Hm as (?&?&_); [|done..]. apply (wh_ret_unique hist Hwf); [done..|congruence].
Qed.

(** The bit sets along a path. *)
Lemma extend_bits b st p b' st' :
  wf num b → extend b st p b' st' → wf num b' ∧ ∀ q, 0 ≤ q → bit b' q = (q =? id_at hist p) || bit b q.
Proof using Hwf.
  intros Hb ((Hp&_&_)&_&Hs). apply elem_of_rem in Hp as [Hlt _].
  destruct (set_spec num b (id_at hist p) Hb (id_range p Hlt)) as (b1&E&?&?). by simplify_eq.
Qed.

Lemma path_bits b st ps b' st' :
  wf num b → path b st ps b' st' →
  wf num b' ∧ ∀ q, 0 ≤ q → bit b' q = true ↔ bit b q = true ∨ ∃ p, p ∈ ps ∧ q = id_at hist p.
Proof using Hwf.
  intros Hb Hp. induction Hp as [b st|b st p b1 st1 ps b2 st2 He Hp IH]; [set_solver|].
  destruct (extend_bits _ _ _ _ _ Hb He) as [Hb1 Hq1]. destruct (IH Hb1) as [Hb2 Hq2]. split; [done|].
  intros q Hq. rewrite Hq2, Hq1 by done. destruct (Z.eqb_spec q (id_at hist p)); set_solver.
Qed.

Lemma path_app_inv b st ps1 p ps2 b' st' :
  path b st (ps1 ++ p :: ps2) b' st' →
  ∃ b1 st1 b2 st2, path b st ps1 b1 st1 ∧ extend b1 st1 p b2 st2 ∧ path b2 st2 ps2 b' st'.
Proof.
  revert b st. induction ps1 as [|q ps1 IH]; intros b st Hp; inversion Hp as [|? ? ? bx sx ? ? ? He Hr]; subst.
  - exists b, st, bx, sx. split; [constructor|done].
  - destruct (IH _ _ Hr) as (b1&st1&b2&st2&?&?&?). exists b1, st1, b2, st2. split; [by econstructor|done].
Qed.

(** The positions of a path are calls that were not linearized before it. *)
Lemma path_calls b st ps b' st' p :
  wf num b → path b st ps b' st' → p ∈ ps → is_call hist p ∧ bit b (id_at hist p) = false.
Proof using Hwf.
  intros Hb Hp Hin. apply list_elem_of_split in Hin as (ps1&ps2&->).
  apply path_app_inv in Hp as (b1&st1&b2&st2&Hp1&((Hrem&Hc&_)&_)&_). split; [done|].
  apply elem_of_rem in Hrem as [Hlt Hbit]. destruct (path_bits _ _ _ _ _ Hb Hp1) as [_ Hbits].
  destruct (bit b (id_at hist p)) eqn:E; [|done]. rewrite <- Hbit. symmetry. apply Hbits; [|by left].
  pose proof (id_range p Hlt). lia.
Qed.

Lemma path_NoDup b st ps b' st' : wf num b → path b st ps b' st' → NoDup ps.
Proof using Hwf.
  intros Hb Hp. induction Hp as [|b st p b1 st1 ps b2 st2 He Hp IH]; [constructor|].
  destruct (extend_bits _ _ _ _ _ Hb He) as [Hb1 Hq1]. constructor; [|by apply IH].
  intros Hin. destruct (path_calls _ _ _ _ _ p Hb1 Hp Hin) as [Hc Hbit].
  rewrite Hq1, Z.eqb_refl in Hbit; [done|]. pose proof (id_range p (is_call_lt _ _ Hc)). lia.
Qed.

(** ** The two views agree *)

Lemma elem_of_call_positions p : p ∈ call_positions ↔ is_call hist p.
Proof.
  unfold call_positions. rewrite list_elem_of_filter, elem_of_seq. split; [tauto|].
  intros Hc. split; [done|]. pose proof (is_call_lt _ _ Hc). lia.
Qed.

Lemma path_linearization ps b st :
  path (newBitset num) (Init model) ps b st → rem b = [] → linearization ps.
Proof using Hwf.
  intros Hp Hrem. pose proof (wf_newBitset num) as Hb0. split.
  - apply NoDup_Permutation; [by eapply path_NoDup|apply NoDup_filter, NoDup_seq|].
    intros p. rewrite elem_of_call_positions. split; [by intros; eapply path_calls|]. intros Hc.
    pose proof (is_call_lt _ _ Hc) as Hlt. pose proof (id_range p Hlt) as Hid.
    assert (bit b (id_at hist p) = true) as Hbit.
    { destruct (bit b (id_at hist p)) eqn:E; [done|]. assert (p ∈ rem b) by (by apply elem_of_rem).
      rewrite Hrem in *. set_solver. }
    destruct (path_bits _ _ _ _ _ Hb0 Hp) as [_ Hbits]. apply Hbits in Hbit as [Hbit|(p'&Hin&Hid')]; [|..|lia].
    { by rewrite bit_newBitset in Hbit by lia. }
    assert (p = p') as ->; [|done]. apply (wh_call_unique hist Hwf); [done|by eapply path_calls|done].
  - rewrite (path_ops _ _ _ _ _ Hp). done.
  - intros i j p q r Hij Hi Hj Hm.
    rewrite <- (take_drop_middle _ _ _ Hi) in Hp. apply path_app_inv in Hp as (b1&st1&b2&st2&Hp1&He&Hp2).
    destruct (path_bits _ _ _ _ _ Hb0 Hp1) as [Hb1 _]. destruct (extend_bits _ _ _ _ _ Hb1 He) as [Hb2 Hq2].
    assert (Hin : q ∈ drop (S i) ps).
    { apply (list_elem_of_lookup_2 _ (j - S i)%nat). rewrite lookup_drop. by replace (S i + (j - S i))%nat with j by lia. }
    destruct (path_calls _ _ _ _ _ q Hb2 Hp2 Hin) as [Hcq Hbitq].
    pose proof (id_range q (is_call_lt _ _ Hcq)) as Hidq. rewrite Hq2 in Hbitq by lia.
    apply orb_false_iff in Hbitq as [_ Hbitq]. destruct He as ((Hpr&Hcp&Hav)&_&_).
    apply mate_Some in Hm as (Hr&Hidr&Hqr); [|done..].
    destruct (decide (r < p)%nat) as [Hrp|].
    + destruct (call_not_ret hist r); [|done]. apply Hav; [|done]. apply elem_of_rem.
      rewrite Hidr. split; [by apply is_ret_lt|done].
    + destruct (decide (r = p)) as [->|]; [by destruct (call_not_ret hist p)|lia].
Qed.

Lemma linearization_calls ps p : linearization ps → p ∈ ps ↔ is_call hist p.
Proof. intros [Hall _ _]. by rewrite Hall, elem_of_call_positions. Qed.

(** The next operation of a linearization is available. *)
Lemma linearization_avail ps ps1 p ps2 b st :
  linearization ps → ps = ps1 ++ p :: ps2 → path (newBitset num) (Init model) ps1 b st → avail b p.
Proof using Hwf.
  intros Hln E Hp. pose proof (linearization_calls ps) as Hcall.
  destruct (path_bits _ _ _ _ _ (wf_newBitset num) Hp) as [Hb Hbits].
  assert (Hc : is_call hist p) by (apply (Hcall p Hln); rewrite E; set_solver).
  assert (Hnd : NoDup ps) by (rewrite (ln_all _ Hln); apply NoDup_filter, NoDup_seq).
  split; [|split; [done|]].
  - apply elem_of_rem. split; [by apply is_call_lt|]. destruct (bit b (id_at hist p)) eqn:Eb; [|done]. exfalso.
    pose proof (id_range p (is_call_lt _ _ Hc)). apply Hbits in Eb as [Eb|(q&Hin&Hid)]; [|..|lia].
    + by rewrite bit_newBitset in Eb by lia.
    + assert (p = q) as <-.
      { apply (wh_call_unique hist Hwf); [done| |done]. apply (Hcall q Hln). rewrite E. set_solver. }
      rewrite E, NoDup_app in Hnd. set_solver.
  - intros q [Hq Hbq]%elem_of_rem Hqp. destruct (call_or_ret hist q Hq) as [|Hr]; [done|]. exfalso.
    destruct (wh_ret_call hist Hwf q Hr) as (c&Hcc&Hidc&Hcq).
    assert (Hin : c ∈ ps) by (by apply (Hcall c Hln)). rewrite E in Hin.
    apply elem_of_app in Hin as [Hin|[->|[k Hk]%list_elem_of_lookup]%elem_of_cons]; [|lia|].
    + assert (bit b (id_at hist q) = true); [|congruence]. apply Hbits; [pose proof (id_range q Hq); lia|]. eauto.
    + assert (p < q)%nat; [|lia]. eapply (ln_order _ Hln (length ps1) (length ps1 + S k)%nat p c q); [lia|..].
      * rewrite E. by apply list_lookup_middle.
      * rewrite E, lookup_app_r by lia. by replace (length ps1 + S k - length ps1)%nat with (S k) by lia.
      * by apply mate_call.
Qed.

Lemma linearization_path ps :
  linearization ps → ∃ b st, path (newBitset num) (Init model) ps b st ∧ rem b = [].
Proof using Hwf.
  intros Hln.
  assert (Hgo : ∀ ps2 ps1 b st, ps = ps1 ++ ps2 → path (newBitset num) (Init model) ps1 b st →
    is_Some (apply_ops st ps2) → ∃ b' st', path (newBitset num) (Init model) ps b' st').
  { induction ps2 as [|p ps2 IH]; intros ps1 b st E Hp Hl; [rewrite app_nil_r in E; subst; eauto|].
    pose proof (linearization_avail ps ps1 p ps2 b st Hln E Hp) as Hav.
    destruct (path_bits _ _ _ _ _ (wf_newBitset num) Hp) as [Hb _].
    simpl in Hl. destruct (apply_op st p) as [st'|] eqn:Ea; simpl in Hl; [|by destruct Hl].
    pose proof Hav as (_&Hc&_). destruct (set_spec num b (id_at hist p) Hb (id_range p (is_call_lt _ _ Hc))) as (b'&Hs&_&_).
    apply (IH (ps1 ++ [p]) b' st'); [by rewrite <- app_assoc| |done]. by eapply path_snoc. }
  destruct (Hgo ps [] (newBitset num) (Init model)) as (b&st&Hp); [done|constructor|apply Hln|].
  exists b, st. split; [done|]. destruct (rem b) as [|q l] eqn:Er; [done|]. exfalso.
  assert (Hq : q ∈ rem b) by (rewrite Er; set_solver). apply elem_of_rem in Hq as [Hq Hbq].
  assert (Hc : ∃ c, is_call hist c ∧ id_at hist q = id_at hist c).
  { destruct (call_or_ret hist q Hq) as [|Hr]; [eauto|]. destruct (wh_ret_call hist Hwf q Hr) as (c&?&?&_); eauto. }
  destruct Hc as (c&Hc&Hid). destruct (path_bits _ _ _ _ _ (wf_newBitset num) Hp) as [_ Hbits].
  assert (bit b (id_at hist q) = true); [|congruence].
  apply Hbits; [pose proof (id_range q Hq); lia|]. right. exists c. split; [by apply (linearization_calls ps)|done].
Qed.

Lemma mate_in_rem b p m : is_call hist p → mate hist p = Some m → p ∈ rem b → m ∈ rem b.
Proof using Hwf.
  intros Hc Hm Hp. apply mate_Some in Hm as (Hr&Hid&_); [|done..].
  rewrite elem_of_rem in *. rewrite Hid. split; [by apply is_ret_lt|tauto].
Qed.
End Search.
Section Ids.
Context {V : Type} (hist : list (entry V)) (Hwf : wf_history hist).
Notation num := (len hist / 2).

(** ** Every id has its operation *)

Lemma kinds_split (l : list nat) :
  length l = (length (filter (is_call hist) l) + length (filter (λ p, ¬ is_call hist p) l))%nat.
Proof using. rewrite <-length_app. apply Permutation_length. symmetry. apply filter_app_complement. Qed.

Lemma ids_bound (l : list nat) : NoDup (id_at hist <$> l) → (∀ p, p ∈ l → (p < length hist)%nat) → Z.of_nat (length l) ≤ num.
Proof using Hwf.
  intros Hnd Hl. assert (Hsub : (id_at hist <$> l) ⊆+ seqZ 0 num).
  { apply NoDup_submseteq; [done|]. intros x (p&->&Hp)%list_elem_of_fmap. apply elem_of_seqZ. pose proof (wh_ids hist Hwf p (Hl p Hp)). lia. }
  apply submseteq_length in Hsub. rewrite length_fmap, length_seqZ in Hsub. assert (0 ≤ num) by (apply Z.div_pos; unfold len; lia). lia.
Qed.

Lemma NoDup_ids (l : list nat) : NoDup l → (∀ p q, p ∈ l → q ∈ l → id_at hist p = id_at hist q → p = q) → NoDup (id_at hist <$> l).
Proof using. intros Hnd Hinj. apply NoDup_fmap_2_strong; [|done]. intros p q Hp Hq. by apply Hinj. Qed.

Lemma id_call k : 0 ≤ k < num → ∃ p, is_call hist p ∧ id_at hist p = k.
Proof using Hwf.
  intros Hk. set (all := seq 0 (length hist)).
  assert (Hin : ∀ p, p ∈ all → (p < length hist)%nat) by (intros p [_ ?]%elem_of_seq; lia).
  pose proof (kinds_split all) as Hsplit. unfold all in Hsplit at 1. rewrite length_seq in Hsplit.
  assert (Hc : NoDup (id_at hist <$> filter (is_call hist) all)).
  { apply NoDup_ids; [apply NoDup_filter, NoDup_seq|]. intros p q [Hp _]%list_elem_of_filter [Hq _]%list_elem_of_filter. by apply (wh_call_unique hist Hwf). }
  assert (Hr : Z.of_nat (length (filter (λ p, ¬ is_call hist p) all)) ≤ num).
  { apply ids_bound; [|by intros p [_ ?]%list_elem_of_filter; auto]. apply NoDup_ids; [apply NoDup_filter, NoDup_seq|].
    intros p q [Hp Hp']%list_elem_of_filter [Hq Hq']%list_elem_of_filter.
    apply (wh_ret_unique hist Hwf); [by destruct (call_or_ret hist p (Hin p Hp'))|by destruct (call_or_ret hist q (Hin q Hq'))]. }
  assert (Hl : (id_at hist <$> filter (is_call hist) all) ≡ₚ seqZ 0 num).
  { apply submseteq_length_Permutation.
    - apply NoDup_submseteq; [done|]. intros x (p&->&[_ Hp]%list_elem_of_filter)%list_elem_of_fmap. apply elem_of_seqZ. pose proof (wh_ids hist Hwf p (Hin p Hp)). lia.
    - rewrite length_fmap, length_seqZ. pose proof (Z.div_mod (len hist) 2 ltac:(done)) as Hdm.
      pose proof (Z.mod_pos_bound (len hist) 2 ltac:(done)). unfold len in *. lia. }
  assert (Hk' : k ∈ seqZ 0 num) by (apply elem_of_seqZ; lia). rewrite <-Hl in Hk'.
  apply list_elem_of_fmap in Hk' as (p&->&[Hp _]%list_elem_of_filter). eauto.
Qed.

End Ids.
End PorcupineSearch.
