(* ===== verification/PorcupineRep.v ===== *)
(** * The store and the bit set of the search

    The linked list of the checker always holds exactly the entries of the
    operations that are not in the bit set. *)

From S2P Require Import Prelude PorcupineBitset Porcupine PorcupineList PorcupineLink PorcupineSearch.

Module PorcupineRep.
Import Bitset Porcupine PorcupineList PorcupineLink PorcupineSearch.

Lemma StronglySorted_seq s n : StronglySorted lt (seq s n).
Proof.
  revert s. induction n as [|n IH]; intros s; simpl; constructor; [apply IH|].
  apply Forall_forall. intros x [? _]%elem_of_seq. lia.
Qed.

(** Positions around one of a sorted list. *)
Lemma sorted_split X (p : nat) Y :
  StronglySorted lt (X ++ p :: Y) → (∀ q, q ∈ X → (q < p)%nat) ∧ (∀ q, q ∈ Y → (p < q)%nat).
Proof.
  intros Hs. split.
  - intros q Hq. apply (StronglySorted_app_1_elem_of lt X (p :: Y)); [done..|by left].
  - apply StronglySorted_app_1_r, StronglySorted_cons in Hs as [Hf _]. by rewrite Forall_forall in Hf.
Qed.

Section Rep.
Context {V St : Type} (model : Model V St) (hist : list (entry V)).
Notation num := (len hist / 2).
Notation head := (length hist).
Implicit Types h : heap V.

Lemma rem_sorted b : StronglySorted lt (rem hist b).
Proof. apply StronglySorted_filter, StronglySorted_seq. Qed.

Record rep h (b : bitset) : Prop := {
  rp_links : links h (head :: rem hist b);
  rp_data : ∀ p, (p < length hist)%nat → skel h !! p = node_data hist p
}.

Lemma rep_node h b p :
  rep h b → (p < length hist)%nat →
  ∃ nd e, hist !! p = Some e ∧ h !! p = Some nd ∧ nd_value nd = Some (en_value e) ∧
    nd_match nd = mate hist p ∧ nd_id nd = id_at hist p.
Proof.
  intros Hr Hp. destruct (lookup_lt_is_Some_2 hist p Hp) as [e He].
  pose proof (rp_data h b Hr p Hp) as Hd. unfold skel, node_data in Hd. rewrite lookup_fmap, He in Hd.
  destruct (h !! p) as [nd|]; simpl in Hd; [|done]. exists nd, e. unfold id_at. rewrite He. by simplify_eq.
Qed.

Lemma rep_head h b : rep h b → ∃ nd, h !! head = Some nd ∧ nd_next nd = first (rem hist b) None.
Proof. intros [[[nd (?&_&?)] _] _]. eauto. Qed.

Lemma rep_next h b X p Y nd :
  rep h b → rem hist b = X ++ p :: Y → h !! p = Some nd → nd_next nd = first Y None.
Proof.
  intros [[_ Hl] _] E Hp. rewrite E in Hl. apply seg_app in Hl as [_ [[nd' (?&_&?)] _]]. congruence.
Qed.

Lemma head_not_in b : NoDup (head :: rem hist b).
Proof. constructor; [|apply NoDup_rem]. intros [? _]%elem_of_rem. lia. Qed.

Context (Hwf : wf_history hist).

Lemma rem_split b p m :
  is_call hist p → mate hist p = Some m → p ∈ rem hist b →
  ∃ X Y Z, rem hist b = X ++ p :: Y ++ m :: Z.
Proof using Hwf.
  intros Hc Hm Hp. pose proof (mate_in_rem hist Hwf b p m Hc Hm Hp) as Hmr.
  destruct (mate_Some hist p m Hwf Hc Hm) as (_&_&Hlt).
  apply list_elem_of_split in Hp as (X&R&E). rewrite E in Hmr.
  pose proof (rem_sorted b) as Hs. rewrite E in Hs. apply sorted_split in Hs as [HX _].
  apply elem_of_app in Hmr as [Hin|[->|Hin]%elem_of_cons]; [specialize (HX m Hin); lia|lia|].
  apply list_elem_of_split in Hin as (Y&Z&->). by exists X, Y, Z.
Qed.

Lemma rem_extend b st p b' st' m X Y Z :
  wf num b → extend model hist b st p b' st' → mate hist p = Some m →
  rem hist b = X ++ p :: Y ++ m :: Z → rem hist b' = X ++ Y ++ Z.
Proof using Hwf.
  intros Hb He Hm E. destruct (extend_bits _ _ Hwf _ _ _ _ _ Hb He) as [_ Hbits].
  destruct He as ((_&Hc&_)&_&_).
  assert (Hf : rem hist b' = filter (λ q, id_at hist q ≠ id_at hist p) (rem hist b)).
  { unfold rem. rewrite list_filter_filter. apply filter_ext_elem. intros q [_ Hq]%elem_of_seq.
    rewrite Hbits by (pose proof (id_range hist Hwf q ltac:(lia)); lia). rewrite orb_false_iff, Z.eqb_neq. done. }
  pose proof (NoDup_rem hist b) as Hn. rewrite Hf, E. rewrite E in Hn.
  assert (Hother : ∀ q, q ∈ X ++ Y ++ Z → id_at hist q ≠ id_at hist p).
  { intros q Hq Hid. assert (Hlt : (q < length hist)%nat).
    { assert (Hin : q ∈ rem hist b) by (rewrite E; set_solver). by apply elem_of_rem in Hin as [? _]. }
    destruct (same_id hist Hwf p q m Hc Hm Hlt Hid) as [->| ->]; revert Hn;
      rewrite NoDup_app, NoDup_cons, NoDup_app, NoDup_cons; set_solver. }
  assert (Hidm : id_at hist m = id_at hist p) by (by apply mate_Some in Hm as (_&?&_)).
  rewrite filter_app, filter_cons, decide_False by tauto. rewrite filter_app, filter_cons, decide_False by tauto.
  rewrite !filter_all by set_solver. done.
Qed.

(** [lift] follows the bit set, and [unlift] undoes it. *)
Lemma rep_lift h b st p b' st' :
  wf num b → rep h b → extend model hist b st p b' st' →
  ∃ h', lift p h = Some h' ∧ rep h' b' ∧ unlift p h' = Some h.
Proof using Hwf.
  intros Hb Hr He. pose proof He as ((Hp&Hc&_)&_&_).
  destruct (mate_exists hist p Hwf Hc) as [m Hm]. destruct (rem_split b p m Hc Hm Hp) as (X&Y&Z&E).
  pose proof (rem_extend b st p b' st' m X Y Z Hb He Hm E) as E'.
  destruct (snoc_decompose head X) as (A&a&EA&_).
  assert (Hall : head :: rem hist b = A ++ [a] ++ p :: Y ++ m :: Z).
  { rewrite E. change (head :: X ++ p :: Y ++ m :: Z) with (([head] ++ X) ++ p :: Y ++ m :: Z).
    by rewrite EA, <- app_assoc. }
  assert (Hlinks : links h (A ++ [a] ++ p :: Y ++ m :: Z)) by (rewrite <- Hall; apply Hr).
  assert (Hnd : NoDup (A ++ [a] ++ p :: Y ++ m :: Z)) by (rewrite <- Hall; apply head_not_in).
  destruct (rep_node h b p Hr (is_call_lt _ _ Hc)) as (nd&e&_&Hnd'&_&Hmt&_).
  assert (Hof : nd_match <$> h !! p = Some (Some m)) by (rewrite Hnd'; simpl; congruence).
  destruct (lift_spec h A a p Y m Z Hnd Hlinks Hof) as (h'&El&[Hl' _ _]&Hs&_).
  exists h'. split; [done|]. split; [|by eapply unlift_lift].
  split; [|intros q Hq; rewrite Hs; by apply Hr].
  rewrite E'. change (head :: X ++ Y ++ Z) with (([head] ++ X) ++ Y ++ Z). rewrite EA, <- app_assoc. done.
Qed.
End Rep.
End PorcupineRep.
