(* ===== verification/PorcupineCheck.v ===== *)
(** * Correctness of [checkSingle]

    The invariant of the search, its preservation by every turn of the loop, and
    the measure that bounds the number of turns. *)

From S2P Require Import Prelude PorcupineBitset Porcupine PorcupineList PorcupineLink PorcupineSearch PorcupineRep.

Module PorcupineCheck.
Import Bitset Porcupine PorcupineList PorcupineLink PorcupineSearch PorcupineRep.

(** What the search needs of the equality of a model: it may identify states, but
    only states that accept the same operations. *)
Class GoodEqual {V St} (model : Model V St) (eq : St → St → bool) : Prop := {
  ge_eq : Equal model = Some eq;
  ge_refl : ∀ s, eq s s = true;
  ge_trans : ∀ s t u, eq s t = true → eq t u = true → eq s u = true;
  ge_step : ∀ s t i o s', eq s t = true → Step model s i o = Some (true, s') →
    ∃ t', Step model t i o = Some (true, t') ∧ eq s' t' = true
}.

Section Check.
Context {V St : Type} (model : Model V St) (hist : list (entry V)) (eq : St → St → bool).
Notation num := (len hist / 2).
Notation head := (length hist).
Notation root := (newBitset num).
Notation Cache := (gmap Z (list (cacheEntry St))).
Implicit Types h : heap V.
Implicit Types c : Cache.
Implicit Types s : CheckState V St.

(** Type assertions of the model succeed on the operations of the history. *)
Definition step_total : Prop :=
  ∀ st p m e r, mate hist p = Some m → hist !! p = Some e → hist !! m = Some r →
    is_Some (Step model st (en_value e) (en_value r)).

(** ** The cache *)

Definition cached c (b : bitset) (st : St) : Prop := mkCacheEntry b st ∈ default [] (c !! hash b).

Definition add_cache c (b : bitset) (st : St) : Cache :=
  <[hash b := default [] (c !! hash b) ++ [mkCacheEntry b st]]> c.

Lemma cached_add c b st b' st' : cached (add_cache c b' st') b st ↔ cached c b st ∨ (b = b' ∧ st = st').
Proof.
  unfold cached, add_cache. destruct (decide (hash b' = hash b)) as [E|E].
  - rewrite E, lookup_insert_eq. simpl. rewrite elem_of_app, list_elem_of_singleton.
    split; (intros [?|Hx]; [by left|right]); [by simplify_eq|by destruct Hx as [-> ->]].
  - rewrite lookup_insert_ne by done. split; [by left|]. intros [?|[-> ->]]; done.
Qed.

Lemma bucket_contains_spec (l : list (cacheEntry St)) e :
  bucket_contains eq l e = true ↔
  ∃ x, x ∈ l ∧ ce_linearized e = ce_linearized x ∧ eq (ce_state e) (ce_state x) = true.
Proof.
  induction l as [|x l IH]; simpl; [set_solver|].
  destruct (equals _ _ && eq _ _) eqn:E.
  - apply andb_true_iff in E as [E1%equals_spec E2]. split; [|done]. intros _. exists x. set_solver.
  - rewrite IH. split; [intros (y&?&?); exists y; set_solver|].
    intros (y&[->|Hy]%elem_of_cons&E1&E2); [|by exists y].
    apply andb_false_iff in E as [E|E]; [|congruence]. by rewrite (proj2 (equals_spec _ _) E1) in E.
Qed.

Context (Hgood : GoodEqual model eq).

Lemma cacheContains_spec c b st :
  ∃ found, cacheContains model c (mkCacheEntry b st) = Some found ∧
    (found = true ↔ ∃ st', cached c b st' ∧ eq st st' = true).
Proof using Hgood.
  unfold cacheContains. rewrite (ge_eq (model := model)). simpl. eexists. split; [done|].
  rewrite bucket_contains_spec. simpl. split.
  - intros ([b' st']&Hin&Hb&?). simpl in *. subst. by exists st'.
  - intros (st'&?&?). by exists (mkCacheEntry b st').
Qed.

(** ** The invariant *)

(** The calls made: the bit set and the state before each, and its entry. *)
Notation Frame := (bitset * St * nat)%type.

Definition frame_call (f : Frame) : callsEntry St := mkCallsEntry (f.2) (f.1.2).

Inductive stack (h0 : heap V) : list Frame → bitset → St → heap V → Prop :=
  | stack_nil : stack h0 [] root (Init model) h0
  | stack_snoc F b st h p b' st' h' :
      stack h0 F b st h → extend model hist b st p b' st' → lift p h = Some h' → unlift p h' = Some h →
      stack h0 (F ++ [(b, st, p)]) b' st' h'.

(** The outcome of trying [p] after [b] is settled. *)
Definition processed c (b : bitset) (st : St) (p : nat) : Prop :=
  ∀ st', apply_op model hist st p = Some st' →
    ∃ b' st'', set b (id_at hist p) = Some b' ∧ cached c b' st'' ∧ eq st' st'' = true.

Definition member c (b : bitset) (st : St) : Prop := (b = root ∧ st = Init model) ∨ cached c b st.

Definition cursor_ok (b : bitset) (entry : option nat) : Prop :=
  match entry with
  | Some p => p ∈ rem hist b ∧ ∀ q, q ∈ rem hist b → (q < p)%nat → is_call hist q
  | None => rem hist b = []
  end.

Definition before (entry : option nat) (q : nat) : Prop :=
  match entry with Some p => (q < p)%nat | None => True end.

(** A partial linearization, as the ids of its operations. *)
Definition partial (ids : list Z) : Prop :=
  ∃ ps b st, path model hist root (Init model) ps b st ∧ ids = id_at hist <$> ps ∧ (ps = [] → hist = []).

Record longest_ok s : Prop := {
  lo_len : length (cs_longest s) = Z.to_nat num;
  lo_ptr : ∀ p, Some p ∈ cs_longest s → (p < length (cs_seqs s))%nat;
  lo_seqs : Forall partial (cs_seqs s)
}.

Record Inv (h0 : heap V) (F : list Frame) s : Prop := {
  iv_stack : stack h0 F (cs_linearized s) (cs_state s) (cs_heap s);
  iv_calls : cs_calls s = frame_call <$> F;
  iv_cursor : cursor_ok (cs_linearized s) (cs_entry s);
  iv_closed : ∀ b st, member (cs_cache s) b st →
    (∀ q, avail hist b q → processed (cs_cache s) b st q) ∨ (∃ p, (b, st, p) ∈ F) ∨
    (b = cs_linearized s ∧ st = cs_state s);
  iv_frames : ∀ b st p, (b, st, p) ∈ F → ∀ q, avail hist b q → (q ≤ p)%nat → processed (cs_cache s) b st q;
  iv_current : ∀ q, avail hist (cs_linearized s) q → before (cs_entry s) q →
    processed (cs_cache s) (cs_linearized s) (cs_state s) q;
  iv_complete : ∀ b st, cached (cs_cache s) b st → rem hist b = [] → b = cs_linearized s;
  iv_longest : longest_ok s
}.

(** ** The longest partial linearizations *)

(** The length of the sequence noted for an operation. *)
Definition level (longest : list (option nat)) (seqs : list (list Z)) (id : nat) : nat :=
  match longest !! id with Some (Some p) => length (default [] (seqs !! p)) | _ => 0 end.

(** A noted sequence contains the operation it is noted for. *)
Definition own (longest : list (option nat)) (seqs : list (list Z)) : Prop :=
  ∀ id p seq, longest !! id = Some (Some p) → seqs !! p = Some seq → Z.of_nat id ∈ seq.

(** The operations of [b] have a sequence that is as long as [b] is large. *)
Definition covered s (b : bitset) : Prop :=
  ∀ id : nat, bit b (Z.of_nat id) = true → (length hist ≤ 2 * level (cs_longest s) (cs_seqs s) id + length (rem hist b))%nat.

Record Long (F : list Frame) s : Prop := {
  lg_own : own (cs_longest s) (cs_seqs s);
  lg_cover : ∀ b st, cached (cs_cache s) b st →
    (∃ st' p, (b, st', p) ∈ F) ∨ b = cs_linearized s ∨ covered s b
}.

(** The sequence noted for an operation is a longest one that contains it. *)
Definition longest_noted s : Prop :=
  ∀ ps b st (id : nat), path model hist root (Init model) ps b st → Z.of_nat id ∈ id_at hist <$> ps →
    (length ps ≤ level (cs_longest s) (cs_seqs s) id)%nat.

(** No operation can follow a noted sequence: the model refuses it. *)
Definition maximal s : Prop :=
  ∀ id p ps b st q, cs_longest s !! id = Some (Some p) → cs_seqs s !! p = Some (id_at hist <$> ps) →
    path model hist root (Init model) ps b st → avail hist b q → apply_op model hist st q = None.

Lemma longest_loop_spec seq ids longest seqs fresh longest' seqs' :
  longest_loop seq ids longest seqs fresh = Some (longest', seqs') →
  (∀ p, Some p ∈ longest → (p < length seqs)%nat) → (fresh = false → last seqs = Some seq) →
  (∀ id, (level longest seqs id ≤ level longest' seqs' id)%nat) ∧
  (∀ id : nat, Z.of_nat id ∈ ids → (length seq ≤ level longest' seqs' id)%nat) ∧
  ((∀ id, id ∈ ids → id ∈ seq) → own longest seqs → own longest' seqs').
Proof.
  revert longest seqs fresh. induction ids as [|id ids IH]; intros longest seqs fresh E Hptr Hf; cbn [longest_loop] in E.
  { injection E as <- <-. split_and!; [done|by intros id ?%elem_of_nil|done]. }
  destruct (longest@[id]) as [old|] eqn:Eo; [|done]. cbn [mbind option_bind] in E. pose proof Eo as (i&->&Hi)%idx_lookup.
  destruct (improves seq old seqs) as [better|] eqn:Eb; [|done]. cbn [mbind option_bind] in E. destruct better.
  - set (seqs1 := if fresh then seqs ++ [seq] else seqs) in *.
    assert (Hlast : seqs1 !! (length seqs1 - 1)%nat = Some seq ∧ (∀ p, (p < length seqs)%nat → seqs1 !! p = seqs !! p) ∧ (length seqs ≤ length seqs1)%nat ∧ last seqs1 = Some seq).
    { unfold seqs1. destruct fresh.
      - rewrite length_app. simpl. replace (length seqs + 1 - 1)%nat with (length seqs) by lia.
        split_and!; [by rewrite list_lookup_middle|intros p Hp; by rewrite lookup_app_l|lia|by rewrite last_snoc].
      - specialize (Hf eq_refl). split_and!; [|done|lia|done]. rewrite last_lookup in Hf. by rewrite Nat.sub_1_r. }
    destruct Hlast as (Hl1&Hl2&Hl3&Hl4). apply lookup_lt_Some in Hi as Hlt.
    rewrite upd_in_range in E by (unfold len; lia). rewrite Nat2Z.id in E. cbn [mbind option_bind] in E.
    destruct (IH _ _ _ E) as (H1&H2&H3); [|done|].
    { intros p [j Hj]%list_elem_of_lookup. apply list_lookup_insert_Some in Hj as [(_&[= <-]&_)|[_ Hj]].
      - by apply lookup_lt_Some in Hl1.
      - apply list_elem_of_lookup_2, Hptr in Hj. lia. }
    assert (Hid : level (<[i:=Some (length seqs1 - 1)%nat]> longest) seqs1 i = length seq).
    { unfold level. rewrite list_lookup_insert_eq by done. by rewrite Hl1. }
    assert (Hold : (level longest seqs i ≤ length seq)%nat).
    { unfold level. rewrite Hi. destruct old as [p|]; [|lia]. simpl in Eb. destruct (seqs !! p) as [l|]; [|done]. injection Eb as Eb.
      apply Z.ltb_lt in Eb. unfold len in Eb. simpl. lia. }
    assert (Hoth : ∀ j, j ≠ i → level (<[i:=Some (length seqs1 - 1)%nat]> longest) seqs1 j = level longest seqs j).
    { intros j Hj. unfold level. rewrite list_lookup_insert_ne by done. destruct (longest !! j) as [[p|]|] eqn:Ej; [|done..].
      rewrite Hl2; [done|]. apply Hptr. by eapply list_elem_of_lookup_2. }
    split_and!.
    + intros j. destruct (decide (j = i)) as [->|Hj]; [|rewrite <-Hoth by done]; (etrans; [|apply H1]); lia.
    + intros j [Hj|Hj]%elem_of_cons; [|by apply H2]. apply Nat2Z.inj in Hj as ->. etrans; [|apply H1]. lia.
    + intros Hin Ho. apply H3; [by intros; apply Hin; right|]. intros j p sq Hj Hp.
      apply list_lookup_insert_Some in Hj as [(<-&[= <-]&_)|[_ Hj]].
      * rewrite Hl1 in Hp. injection Hp as <-. apply Hin. by left.
      * eapply Ho; [done|]. rewrite <-Hl2; [done|]. apply Hptr. by eapply list_elem_of_lookup_2.
  - destruct (IH _ _ _ E Hptr Hf) as (H1&H2&H3). split_and!; [done| |intros Hin; apply H3; by intros; apply Hin; right].
    intros j [Hj|Hj]%elem_of_cons; [|by apply H2]. apply Nat2Z.inj in Hj as ->. etrans; [|apply H1].
    destruct old as [p|]; simpl in Eb; [|done]. unfold level. rewrite Hi. destruct (seqs !! p) as [l|]; [|done]. injection Eb as Eb.
    apply Z.ltb_ge in Eb. unfold len in Eb. simpl. lia.
Qed.

Context (Hwf : wf_history hist) (Htot : step_total).

Lemma stack_rep h0 F b st h :
  rep hist h0 root → stack h0 F b st h →
  wf num b ∧ rep hist h b ∧ path model hist root (Init model) (snd <$> F) b st.
Proof using Hwf.
  intros H0. induction 1 as [|F b st h p b' st' h' Hs IH He Hl Hu].
  - split; [apply wf_newBitset|]. split; [done|constructor].
  - destruct IH as (Hb&Hr&Hp). destruct (rep_lift model hist Hwf h b st p b' st' Hb Hr He) as (h1&E&Hr1&_).
    simplify_eq. split; [by eapply extend_bits|]. split; [done|]. rewrite fmap_app. by eapply path_snoc.
Qed.

(** ** The measure *)

(** Turns that may be spent on a list of [n] entries. *)
Fixpoint budget (n : nat) : nat :=
  match n with
  | O => 1
  | S O => 3
  | S (S m as k) => S k * (1 + budget m) + 1
  end.

Definition weight (b : bitset) : nat := 1 + budget (length (rem hist b) - 2).

Definition frame_cost (f : Frame) : nat :=
  length (filter (λ q, (f.2 < q)%nat) (rem hist (f.1.1))) * weight (f.1.1) + 1.
Definition cursor_cost (b : bitset) (entry : option nat) : nat :=
  match entry with
  | Some p => length (filter (λ q, (p ≤ q)%nat) (rem hist b)) * weight b + 1
  | None => 1
  end.
Definition cost (F : list Frame) s : nat :=
  cursor_cost (cs_linearized s) (cs_entry s) + sum_list_with frame_cost F.

Lemma budget_cost n : (n * (1 + budget (n - 2)) + 1 ≤ budget n)%nat.
Proof. destruct n as [|[|n]]; simpl; [lia|lia|]. rewrite Nat.sub_0_r. lia. Qed.

(** A cursor at the start costs at most the budget of the list. *)
Lemma cursor_cost_first b : (cursor_cost b (first (rem hist b) None) ≤ budget (length (rem hist b)))%nat.
Proof.
  unfold cursor_cost, weight. destruct (rem hist b) as [|p l] eqn:E; simpl first; [simpl; lia|].
  pose proof (length_filter (λ q, (p ≤ q)%nat) (p :: l)) as Hl.
  pose proof (budget_cost (length (p :: l))) as Hb. cbv iota. nia.
Qed.

(** The entries from [p] on are [p] and those after it. *)
Lemma count_from b X p Y :
  rem hist b = X ++ p :: Y →
  length (filter (λ q, (p ≤ q)%nat) (rem hist b)) = S (length Y) ∧
  length (filter (λ q, (p < q)%nat) (rem hist b)) = length Y.
Proof.
  intros E. pose proof (rem_sorted hist b) as Hs. rewrite E in *. apply sorted_split in Hs as [HX HY].
  rewrite !filter_app, !filter_cons, decide_True, decide_False by lia.
  assert (filter (λ q, (p ≤ q)%nat) X = [] ∧ filter (λ q, (p < q)%nat) X = []) as [-> ->].
  { clear -HX. induction X as [|x X IH]; [done|]. rewrite !filter_cons.
    pose proof (HX x ltac:(left)). rewrite !decide_False by lia. apply IH. intros q Hq. apply HX. by right. }
  rewrite !filter_all by (intros q Hq; specialize (HY q Hq); lia). done.
Qed.

(** ** Moving the cursor *)

Lemma cursor_next b X p Y :
  rem hist b = X ++ p :: Y → cursor_ok b (Some p) → is_call hist p →
  cursor_ok b (first Y None) ∧ (∀ q, q ∈ rem hist b → before (first Y None) q → (q ≤ p)%nat) ∧
  cursor_cost b (first Y None) = (length Y * weight b + 1)%nat.
Proof using All.
  intros E [Hp Hall] Hc. destruct (mate_exists hist p Hwf Hc) as [m Hm].
  pose proof (mate_in_rem hist Hwf b p m Hc Hm Hp) as Hmr. destruct (mate_Some hist p m Hwf Hc Hm) as (_&_&Hlt).
  pose proof (rem_sorted hist b) as Hs. rewrite E in Hs, Hmr. pose proof (sorted_split _ _ _ Hs) as [HX HY].
  destruct Y as [|y Y].
  { exfalso. apply elem_of_app in Hmr as [Hin|Hin%list_elem_of_singleton]; [specialize (HX m Hin)|]; lia. }
  assert (E' : rem hist b = (X ++ [p]) ++ y :: Y) by (by rewrite E, <- app_assoc).
  pose proof (rem_sorted hist b) as Hs'. rewrite E' in Hs'. apply sorted_split in Hs' as [HX' HY'].
  cbn [first]. assert (Hlow : ∀ q, q ∈ rem hist b → (q < y)%nat → q ∈ X ++ [p]).
  { intros q Hq Hqy. rewrite E' in Hq. apply elem_of_app in Hq as [?|[->|Hin]%elem_of_cons]; [done|lia|].
    specialize (HY' q Hin). lia. }
  split; [split|split].
  - rewrite E'. set_solver.
  - intros q Hq Hqy. specialize (Hlow q Hq Hqy). apply elem_of_app in Hlow as [Hin| ->%list_elem_of_singleton]; [|done].
    apply Hall; [done|]. by apply HX.
  - intros q Hq Hqy. simpl in Hqy. specialize (Hlow q Hq Hqy).
    apply elem_of_app in Hlow as [Hin| ->%list_elem_of_singleton]; [specialize (HX q Hin)|]; lia.
  - unfold cursor_cost. destruct (count_from b (X ++ [p]) y Y E') as [-> _]. simpl. lia.
Qed.

(** The cursor at a call is at an available operation. *)
Lemma cursor_avail b p : cursor_ok b (Some p) → is_call hist p → avail hist b p.
Proof. by intros [? ?] ?. Qed.

Lemma cursor_first b : cursor_ok b (first (rem hist b) None).
Proof.
  destruct (rem hist b) as [|p l] eqn:E; simpl; [done|]. split; [rewrite E; by left|].
  intros q Hq Hlt. pose proof (rem_sorted hist b) as Hs. rewrite E in Hs, Hq.
  apply (sorted_split [] p l) in Hs as [_ Hl]. apply elem_of_cons in Hq as [->|Hq]; [lia|specialize (Hl q Hq); lia].
Qed.

Lemma processed_mono c c' b st p :
  (∀ b st, cached c b st → cached c' b st) → processed c b st p → processed c' b st p.
Proof. intros Hc Hp st' Ha. destruct (Hp st' Ha) as (b'&st''&?&?&?). exists b', st''. auto. Qed.

(** ** The turns of the loop *)

Context (h0 : heap V) (H0 : rep hist h0 root).

(** The cursor's operation is settled: go to the next entry. *)
Lemma inv_advance F s X p Y :
  Inv h0 F s → cs_entry s = Some p → is_call hist p → rem hist (cs_linearized s) = X ++ p :: Y →
  processed (cs_cache s) (cs_linearized s) (cs_state s) p →
  Inv h0 F (advance (first Y None) s) ∧ (cost F (advance (first Y None) s) < cost F s)%nat.
Proof using All.
  intros [Hst Hca Hcu Hcl Hfr Hcr Hco [Hl1 Hl2 Hl3]] Ee Hc E Hp. rewrite Ee in Hcu.
  destruct (cursor_next _ X p Y E Hcu Hc) as (Hcu'&Hle&Hcost). split.
  - split; simpl; try done. intros q Hq Hb. destruct (decide (q = p)) as [->|]; [done|].
    apply Hcr; [done|]. rewrite Ee. simpl. destruct Hq as [Hq _]. specialize (Hle q Hq Hb). lia.
  - unfold cost. simpl. rewrite Hcost, Ee. unfold cursor_cost.
    destruct (count_from _ X p Y E) as [-> _]. unfold weight. lia.
Qed.

(** The operation is linearized. *)
Lemma inv_push F s p en b' st' :
  Inv h0 F s → cs_entry s = Some p → cs_heap s !! p = Some en → nd_id en = id_at hist p →
  extend model hist (cs_linearized s) (cs_state s) p b' st' →
  ∃ s', push head p en b' st' s = Some s' ∧
    Inv h0 (F ++ [(cs_linearized s, cs_state s, p)]) s' ∧
    (cost (F ++ [(cs_linearized s, cs_state s, p)]) s' < cost F s)%nat ∧
    cs_linearized s' = b' ∧ cs_cache s' = add_cache (cs_cache s) b' st' ∧
    cs_longest s' = cs_longest s ∧ cs_seqs s' = cs_seqs s.
Proof using All.
  intros [Hst Hca Hcu Hcl Hfr Hcr Hco [Hl1 Hl2 Hl3]] Ee Hen Hid He. pose proof He as ((Hp&Hc&Hav)&_&Hset).
  destruct (stack_rep _ _ _ _ _ H0 Hst) as (Hb&Hr&_).
  destruct (rep_lift model hist Hwf _ _ _ _ _ _ Hb Hr He) as (h'&El&Hr'&Eu).
  destruct (rep_head hist h' b' Hr') as (nd&Hnd&Hnx).
  destruct (mate_exists hist p Hwf Hc) as [m Hm]. destruct (rem_split hist Hwf _ p m Hc Hm Hp) as (X&Y&Z&E).
  pose proof (rem_extend model hist Hwf _ _ _ _ _ m X Y Z Hb He Hm E) as E'.
  unfold push. rewrite Hid, Hset. cbn [mbind option_bind]. rewrite El. cbn [mbind option_bind]. rewrite Hnd.
  cbn [mbind option_bind]. rewrite Hnx. eexists. split; [done|].
  fold (add_cache (cs_cache s) b' st'). match goal with |- ?A ∧ ?B ∧ _ => cut (A ∧ B); [by intros [? ?]; split_and!|] end.
  assert (Hmono : ∀ b st, cached (cs_cache s) b st → cached (add_cache (cs_cache s) b' st') b st)
    by (intros; apply cached_add; by left).
  split.
  - split; cbn [cs_heap cs_linearized cs_state cs_cache cs_calls cs_entry]; try done.
    + by econstructor.
    + by rewrite Hca, fmap_app.
    + apply cursor_first.
    + intros b st Hmem. assert (Hm' : member (cs_cache s) b st ∨ (b = b' ∧ st = st')).
      { destruct Hmem as [?|Hc'%cached_add]; [left; by left|]. destruct Hc'; [left; by right|by right]. }
      destruct Hm' as [Hm'|Hnew]; [|by right; right].
      destruct (Hcl b st Hm') as [Hall|[[q Hq]|[-> ->]]].
      * left. intros q Hq. eapply processed_mono; [done|by apply Hall].
      * right; left. exists q. set_solver.
      * right; left. exists p. set_solver.
    + intros b st q [Hin|[= -> -> ->]%list_elem_of_singleton]%elem_of_app r Hr1 Hr2.
      * eapply processed_mono; [done|by eapply Hfr].
      * destruct (decide (r = p)) as [->|].
        -- intros st1 Ha. destruct He as (_&Ha'&_). rewrite Ha' in Ha. simplify_eq.
           exists b', st1. split_and!; [done|apply cached_add; by right|apply (ge_refl (model := model))].
        -- eapply processed_mono; [done|]. apply Hcr; [done|]. rewrite Ee. simpl. lia.
    + intros q (Hq&_) Hbf. exfalso. destruct (rem hist b') as [|y l] eqn:Er; [set_solver|]. simpl in Hbf.
      pose proof (rem_sorted hist b') as Hs. rewrite Er in Hs. apply (sorted_split [] y l) in Hs as [_ Hl].
      apply elem_of_cons in Hq as [->|Hq]; [lia|specialize (Hl q Hq); lia].
    + intros b st [Hc1|[-> _]]%cached_add Hrem; [|done]. specialize (Hco b st Hc1 Hrem). subst b.
      rewrite Hrem in Hp. set_solver.
  - unfold cost. rewrite sum_list_with_app. cbn [cs_linearized cs_entry]. rewrite Ee.
    pose proof (cursor_cost_first b') as Hcc. destruct (count_from _ X p _ E) as [Hc1 Hc2].
    unfold cursor_cost at 2. cbn [sum_list_with]. unfold frame_cost. cbn [fst snd]. rewrite Hc1, Hc2. unfold weight.
    replace (length (rem hist (cs_linearized s)) - 2)%nat with (length (rem hist b')); [lia|].
    rewrite E, E', !length_app. simpl. rewrite !length_app. simpl. lia.
Qed.

Lemma stack_snoc_inv F b0 st0 p0 b st h :
  stack h0 (F ++ [(b0, st0, p0)]) b st h →
  ∃ h1, stack h0 F b0 st0 h1 ∧ extend model hist b0 st0 p0 b st ∧ lift p0 h1 = Some h ∧ unlift p0 h = Some h1.
Proof.
  intros Hs. inversion Hs as [E|F' b1 st1 h1 p1 b' st' h' ? ? ? ? E]; [by destruct F|].
  apply app_inj_tail in E as [-> [= -> -> ->]]. subst. by exists h1.
Qed.

Lemma stack_nil_inv F b st h : stack h0 F b st h → F = [] → b = root ∧ st = Init model.
Proof. destruct 1 as [|F b st h p b' st' h']; [done|]. by destruct F. Qed.

(** All the operations of the current bit set are settled when the cursor meets a
    return. *)
Lemma current_closed F s r :
  Inv h0 F s → cs_entry s = Some r → is_ret hist r →
  ∀ q, avail hist (cs_linearized s) q → processed (cs_cache s) (cs_linearized s) (cs_state s) q.
Proof.
  intros Hi Ee Hr q Hq. apply (iv_current h0 F s Hi q Hq). rewrite Ee. simpl.
  pose proof (iv_cursor h0 F s Hi) as Hcu. rewrite Ee in Hcu. destruct Hcu as [Hrr _], Hq as (_&Hc&Hav).
  destruct (decide (r < q)%nat) as [Hlt|]; [by destruct (call_not_ret hist r (Hav r Hrr Hlt))|].
  destruct (decide (r = q)) as [->|]; [by destruct (call_not_ret hist q)|lia].
Qed.

(** The last operation is taken back. *)
Lemma inv_pop F s b0 st0 p0 r :
  Inv h0 (F ++ [(b0, st0, p0)]) s → cs_entry s = Some r → is_ret hist r →
  ∃ s', pop s = Some s' ∧ Inv h0 F s' ∧ (cost F s' < cost (F ++ [(b0, st0, p0)]) s)%nat ∧
    cs_linearized s' = b0 ∧ cs_cache s' = cs_cache s ∧ cs_longest s' = cs_longest s ∧ cs_seqs s' = cs_seqs s.
Proof using All.
  intros Hi Ee Hret. pose proof (current_closed _ _ _ Hi Ee Hret) as Hclosed.
  destruct Hi as [Hst Hca Hcu Hcl Hfr Hcr Hco [Hl1 Hl2 Hl3]].
  apply stack_snoc_inv in Hst as (h1&Hst&He&El&Eu). pose proof He as ((Hp&Hc&Hav)&_&Hset).
  destruct (stack_rep _ _ _ _ _ H0 Hst) as (Hb0&Hr1&_).
  destruct (rep_lift model hist Hwf _ _ _ _ _ _ Hb0 Hr1 He) as (h'&El'&Hr&_). rewrite El in El'. simplify_eq.
  pose proof (is_call_lt _ _ Hc) as Hlt.
  destruct (rep_node hist _ _ p0 Hr Hlt) as (en&e&_&Hen&_&_&Hid).
  destruct (rep_node hist _ _ p0 Hr1 Hlt) as (en1&_&_&Hen1&_&_&_).
  pose proof Hp as Hp'. apply list_elem_of_split in Hp' as (X&Y&E).
  destruct (cursor_next b0 X p0 Y E) as (Hcu0&Hle&Hcost); [by split|done|].
  assert (Hclear : clear (cs_linearized s) (id_at hist p0) = Some b0).
  { apply (clear_set num); [done|by apply id_range| |done]. by apply elem_of_rem in Hp as [_ ?]. }
  unfold pop. rewrite Hca, fmap_app. cbn [fmap list_fmap]. rewrite last_snoc. cbn [mbind option_bind frame_call cl_entry cl_state fst snd].
  rewrite Hen. cbn [mbind option_bind]. rewrite Hid, Hclear. cbn [mbind option_bind]. rewrite Eu. cbn [mbind option_bind].
  rewrite Hen1. cbn [mbind option_bind]. rewrite (rep_next hist _ _ X p0 Y en1 Hr1 E Hen1).
  eexists. split; [done|]. match goal with |- ?A ∧ ?B ∧ _ => cut (A ∧ B); [by intros [? ?]; split_and!|] end. split.
  - split; cbn [cs_heap cs_linearized cs_state cs_cache cs_calls cs_entry]; try done.
    + rewrite length_app. simpl. replace (_ + 1 - 1)%nat with (length (frame_call <$> F)) by lia. apply take_app_length.
    + intros b st Hmem. destruct (Hcl b st Hmem) as [?|[[q Hq]|[-> ->]]]; [by left| |by left].
      apply elem_of_app in Hq as [Hq|[= -> -> ->]%list_elem_of_singleton]; [|by right; right]. right; left. eauto.
    + intros b st p Hin. apply Hfr. apply elem_of_app. by left.
    + intros q Hq Hbf. apply (Hfr b0 st0 p0); [apply elem_of_app; right; by left|done|].
      destruct Hq as [Hq _]. by apply Hle.
    + intros b st Hc1 Hrem. specialize (Hco b st Hc1 Hrem). subst b. rewrite Ee in Hcu.
      destruct Hcu as [Hin _]. rewrite Hrem in Hin. by apply not_elem_of_nil in Hin.
  - unfold cost. rewrite sum_list_with_app. cbn [cs_linearized cs_entry sum_list_with]. rewrite Hcost, Ee.
    assert (frame_cost (b0, st0, p0) = length Y * weight b0 + 1)%nat as ->.
    { unfold frame_cost. cbn [fst snd]. by destruct (count_from b0 X p0 Y E) as [_ ->]. }
    unfold cursor_cost. lia.
Qed.

(** ** Partial linearizations *)

Lemma longest_loop_ok seq ids (longest : list (option nat)) seqs fresh :
  (ids ≠ [] → partial seq) → Forall (λ id, 0 ≤ id < len longest) ids →
  (∀ p, Some p ∈ longest → (p < length seqs)%nat) → (fresh = false → seqs ≠ []) → Forall partial seqs →
  ∃ longest' seqs', longest_loop seq ids longest seqs fresh = Some (longest', seqs') ∧
    length longest' = length longest ∧ (∀ p, Some p ∈ longest' → (p < length seqs')%nat) ∧ Forall partial seqs'.
Proof.
  revert longest seqs fresh. induction ids as [|id ids IH]; intros longest seqs fresh Hseq Hids Hptr Hf Hs; simpl.
  { exists longest, seqs. done. }
  specialize (Hseq ltac:(done)).
  apply Forall_cons in Hids as [Hid Hids]. destruct (idx longest id) as [old|] eqn:Eo.
  2: { unfold idx in Eo. destruct (Z.leb_spec 0 id); [|lia]. apply lookup_ge_None in Eo. unfold len in Hid. lia. }
  cbn [mbind option_bind].
  assert (Hold : Some old = Some old → ∃ better, improves seq old seqs = Some better).
  { intros _. destruct old as [p|]; simpl; [|eauto]. destruct (lookup_lt_is_Some_2 seqs p) as [l ->]; [|simpl; eauto].
    apply Hptr. unfold idx in Eo. destruct (0 <=? id); [|done]. by eapply list_elem_of_lookup_2. }
  destruct (Hold eq_refl) as [better ->]. cbn [mbind option_bind]. destruct better; [|by apply IH].
  set (seqs1 := if fresh then seqs ++ [seq] else seqs).
  assert (H1 : seqs1 ≠ [] ∧ Forall partial seqs1 ∧ (length seqs ≤ length seqs1)%nat).
  { unfold seqs1. destruct fresh; [|by split_and!; auto]. split_and!; [by destruct seqs| |rewrite length_app; lia].
    apply Forall_app. split; [done|]. by constructor. }
  destruct H1 as (Hne&Hs1&Hle).
  unfold upd. destruct (Z.leb_spec 0 id); [|lia]. destruct (Z.ltb_spec id (len longest)); [|lia].
  cbn [andb mbind option_bind]. destruct (IH (<[Z.to_nat id := Some (length seqs1 - 1)%nat]> longest) seqs1 false)
    as (l'&s'&E&Hlen&?&?); [done|..|].
  - unfold len. by rewrite length_insert.
  - intros p [i Hi]%list_elem_of_lookup.
    apply list_lookup_insert_Some in Hi as [(_&[= <-]&_)|[_ Hi]].
    + destruct seqs1; [done|]. simpl. lia.
    + assert (p < length seqs)%nat; [|lia]. apply Hptr. by eapply list_elem_of_lookup_2.
  - done.
  - done.
  - exists l', s'. rewrite length_insert in Hlen. done.
Qed.

Lemma call_ids_spec F s :
  Inv h0 F s → call_ids (cs_heap s) (cs_calls s) = Some (id_at hist <$> (snd <$> F)) ∧
    (∀ p, p ∈ snd <$> F → is_call hist p) ∧ path model hist root (Init model) (snd <$> F) (cs_linearized s) (cs_state s).
Proof using All.
  intros Hi. destruct (stack_rep _ _ _ _ _ H0 (iv_stack _ _ _ Hi)) as (Hb&Hr&Hpath).
  assert (Hcalls : ∀ p, p ∈ snd <$> F → is_call hist p)
    by (intros p Hp; by eapply path_calls; [done|apply wf_newBitset|exact Hpath|]).
  split_and!; [|done|done].
  unfold call_ids. rewrite (iv_calls _ _ _ Hi), <- list_fmap_compose.
  apply mapM_Some_2, Forall2_fmap_2, Forall_Forall2_diag, Forall_forall.
  intros [[b st] p] Hin. simpl. destruct (rep_node hist _ _ p Hr) as (nd&e&_&->&_&_&<-); [|done].
  apply is_call_lt, Hcalls. apply list_elem_of_fmap. by exists (b, st, p).
Qed.

(** A sequence of all operations is empty only without operations. *)
Lemma complete_nonempty ps b st : path model hist root (Init model) ps b st → rem hist b = [] → ps = [] → hist = [].
Proof using All.
  intros Hp Hrem ->. inversion Hp; subst. destruct hist as [|e l] eqn:E; [done|]. exfalso. rewrite <-E in *.
  assert (H0' : 0%nat ∈ rem hist root); [|by rewrite Hrem in H0'; apply elem_of_nil in H0'].
  assert (Hlt : (0 < length hist)%nat) by (rewrite E; simpl; lia). apply elem_of_rem. split; [done|]. apply bit_newBitset.
  pose proof (wh_ids hist Hwf 0 Hlt). lia.
Qed.

Lemma inv_finish F s : Inv h0 F s → rem hist (cs_linearized s) = [] → ∃ s', finish s = Some s' ∧ longest_ok s'.
Proof using All.
  intros Hi Hrem. destruct (call_ids_spec F s Hi) as (Hids&_&Hp). unfold finish. rewrite Hids. cbn [mbind option_bind].
  destruct (iv_longest _ _ _ Hi) as [Hl1 Hl2 Hl3]. eexists. split; [done|]. split; simpl.
  - by rewrite length_replicate.
  - intros p [[= ->] _]%elem_of_replicate. rewrite length_app. simpl. lia.
  - apply Forall_app. split; [done|]. constructor; [|done]. exists (snd <$> F), (cs_linearized s), (cs_state s).
    split_and!; [done..|]. by eapply complete_nonempty.
Qed.

Lemma inv_longest F s :
  Inv h0 F s → ∃ s', update_longest s = Some s' ∧ Inv h0 F s' ∧ cost F s' = cost F s ∧
    cs_entry s' = cs_entry s.
Proof using All.
  intros Hi. pose proof Hi as [Hst Hca Hcu Hcl Hfr Hcr Hco [Hl1 Hl2 Hl3]].
  destruct (call_ids_spec F s Hi) as (Hids&Hcalls&Hpart).
  destruct (longest_loop_ok (id_at hist <$> (snd <$> F)) (id_at hist <$> (snd <$> F)) (cs_longest s) (cs_seqs s) true)
    as (l'&s'&E&Hlen&Hptr&Hseqs); [| |done|done|done|].
  { intros Hne. exists (snd <$> F), (cs_linearized s), (cs_state s). split_and!; [done..|]. intros E. by rewrite E in Hne. }
  { rewrite Forall_fmap, Forall_forall. intros p Hp. simpl. unfold len in *. rewrite Hl1.
    pose proof (id_range hist Hwf p (is_call_lt _ _ (Hcalls p Hp))) as Hidr. unfold len in *. lia. }
  unfold update_longest. rewrite Hids. cbn [mbind option_bind]. rewrite E. cbn [mbind option_bind].
  eexists. split; [done|]. split; [|done]. split; try done. split; [|done..]. simpl. by rewrite Hlen.
Qed.

(** ** Noted sequences along the search *)

(** Twice the length of a path, and what remains, make the history. *)
Lemma path_size ps b st b' st' : wf num b → path model hist b st ps b' st' →
  (2 * length ps + length (rem hist b') = length (rem hist b))%nat.
Proof using All.
  intros Hb Hp. revert Hb. induction Hp as [|b st p b1 st1 ps b2 st2 He Hp IH]; intros Hb; [done|].
  pose proof He as ((Hr&Hc&_)&_&_). destruct (mate_exists hist p Hwf Hc) as [m Hm]. destruct (rem_split hist Hwf b p m Hc Hm Hr) as (X&Y&Z&E).
  pose proof (rem_extend model hist Hwf _ _ _ _ _ m X Y Z Hb He Hm E) as E'. destruct (extend_bits model hist Hwf _ _ _ _ _ Hb He) as [Hb1 _].
  specialize (IH Hb1). apply (f_equal length) in E, E'. rewrite !length_app in E, E'. cbn [length] in *. rewrite ?length_app in E, E'. cbn [length] in *. lia.
Qed.

Lemma rem_root_length : length (rem hist root) = length hist.
Proof using All.
  unfold rem. rewrite filter_all, length_seq; [done|]. intros p [_ Hp]%elem_of_seq. apply bit_newBitset.
  pose proof (wh_ids hist Hwf p ltac:(lia)). lia.
Qed.

Lemma long_advance F s e : Long F s → Long F (advance e s).
Proof. by intros []. Qed.

Lemma long_push F s s' p b' st' : Long F s → cs_linearized s' = b' → cs_cache s' = add_cache (cs_cache s) b' st' →
  cs_longest s' = cs_longest s → cs_seqs s' = cs_seqs s → Long (F ++ [(cs_linearized s, cs_state s, p)]) s'.
Proof.
  intros [Ho Hc] E1 E2 E3 E4. split; [by rewrite E3, E4|]. rewrite E2, E1. intros b st [Hb|[-> _]]%cached_add; [|by right; left].
  destruct (Hc b st Hb) as [(st1&q&Hin)|[->|Hcov]].
  - left. exists st1, q. apply elem_of_app. by left.
  - left. exists (cs_state s), p. apply elem_of_app. right. by left.
  - right; right. unfold covered in *. by rewrite E3, E4.
Qed.

Lemma long_pop F s s' b0 st0 p0 : Long (F ++ [(b0, st0, p0)]) s → covered s (cs_linearized s) → cs_linearized s' = b0 →
  cs_cache s' = cs_cache s → cs_longest s' = cs_longest s → cs_seqs s' = cs_seqs s → Long F s'.
Proof.
  intros [Ho Hc] Hcur E1 E2 E3 E4. split; [by rewrite E3, E4|]. rewrite E2, E1. intros b st Hb.
  assert (Hcov : ∀ x, covered s x → covered s' x) by (unfold covered; by rewrite E3, E4).
  destruct (Hc b st Hb) as [(st1&q&[Hin|[= -> -> ->]%list_elem_of_singleton]%elem_of_app)|[->|Hx]]; eauto.
Qed.

(** Before an operation is taken back, the operations made so far are noted. *)
Lemma long_update F s s' : Inv h0 F s → Long F s → update_longest s = Some s' →
  Long F s' ∧ covered s' (cs_linearized s') ∧ cs_linearized s' = cs_linearized s.
Proof using All.
  intros Hi [Ho Hc] E. destruct (call_ids_spec F s Hi) as (Hids&Hcalls&Hpath). unfold update_longest in E. rewrite Hids in E. cbn [mbind option_bind] in E.
  destruct (longest_loop _ _ _ _ _) as [[l' q']|] eqn:El; [|done]. cbn [mbind option_bind] in E. injection E as <-.
  destruct (longest_loop_spec _ _ _ _ _ _ _ El) as (H1&H2&H3); [apply (lo_ptr _ (iv_longest _ _ _ Hi))|done|].
  cbn [cs_longest cs_seqs cs_cache cs_linearized]. split; [|split; [|done]].
  - split; [by apply H3|]. intros b st Hb. destruct (Hc b st Hb) as [?|[?|Hcov]]; [by left|by right; left|]. right; right.
    intros id Hid. cbn [cs_longest cs_seqs]. specialize (Hcov id Hid). specialize (H1 id). lia.
  - intros id Hid. cbn [cs_longest cs_seqs]. destruct (path_bits model hist Hwf _ _ _ _ _ (wf_newBitset num) Hpath) as [_ Hbits].
    apply Hbits in Hid as [Hr|(p&Hp&Hid)]; [|specialize (H2 id)|lia].
    + by rewrite bit_newBitset in Hr by lia.
    + pose proof (path_size _ _ _ _ _ (wf_newBitset num) Hpath) as Hsz. rewrite rem_root_length in Hsz. rewrite !length_fmap in H2. rewrite !length_fmap in Hsz.
      assert (length F ≤ level l' q' id)%nat; [apply H2; rewrite Hid; by apply list_elem_of_fmap_2|lia].
Qed.

(** ** One turn *)

(** A turn at a call entry. *)
Lemma turn_call cp F s p nd :
  Inv h0 F s → cs_entry s = Some p → is_call hist p →
  cs_heap s !! head = Some nd → is_Some (nd_next nd) →
  ∃ s' F', check_step model cp false head s = Some (inl s') ∧ Inv h0 F' s' ∧ (cost F' s' < cost F s)%nat ∧ (Long F s → Long F' s').
Proof using All.
  intros Hi Ee Hc Hnd [hn Hhn]. destruct (stack_rep _ _ _ _ _ H0 (iv_stack _ _ _ Hi)) as (Hb&Hr&_).
  pose proof (iv_cursor _ _ _ Hi) as Hcu. rewrite Ee in Hcu. pose proof (cursor_avail _ p Hcu Hc) as Hav.
  destruct (mate_exists hist p Hwf Hc) as [m Hm]. pose proof (mate_Some hist p m Hwf Hc Hm) as (Hret&_&_).
  destruct (rep_node hist _ _ p Hr (is_call_lt _ _ Hc)) as (en&e&He&Hen&Hv&Hmt&Hid).
  destruct (rep_node hist _ _ m Hr (is_ret_lt _ _ Hret)) as (mn&r&Hre&Hmn&Hv'&_&_).
  destruct Hcu as [Hin _]. destruct (list_elem_of_split _ _ Hin) as (X&Y&E).
  pose proof (rep_next hist _ _ X p Y en Hr E Hen) as Hnx.
  destruct (Htot (cs_state s) p m e r Hm He Hre) as [[ok st'] Hstep].
  assert (Ha : apply_op model hist (cs_state s) p = if ok then Some st' else None).
  { unfold apply_op. rewrite He. simpl. rewrite Hm. simpl. rewrite Hre. simpl. by rewrite Hstep. }
  unfold check_step. rewrite Hnd. cbn [mbind option_bind]. rewrite Hhn, Ee. cbn [mbind option_bind]. rewrite Hen.
  cbn [mbind option_bind]. rewrite Hmt, Hm, Hmn. cbn [mbind option_bind]. rewrite Hv, Hv'. cbn [mbind option_bind].
  rewrite Hstep. cbn [mbind option_bind]. rewrite Hid, Hnx. destruct ok.
  - destruct (set_spec num _ _ Hb (id_range hist Hwf p (is_call_lt _ _ Hc))) as (b'&Hset&_&_).
    unfold clone. rewrite Hset. cbn [mbind option_bind].
    destruct (cacheContains_spec (cs_cache s) b' st') as (found&->&Hfound). cbn [mbind option_bind].
    destruct found; cbn [negb].
    + destruct (inv_advance F s X p Y Hi Ee Hc E); [|eexists _, F; by split_and!; [..|apply long_advance]]. intros st1 Ha1. rewrite Ha in Ha1. simplify_eq.
      destruct (proj1 Hfound eq_refl) as (st''&?&?). eauto.
    + destruct (inv_push F s p en b' st' Hi Ee Hen Hid) as (s'&->&?&?&?&?&?&?); [done|]. cbn [mbind option_bind].
      eexists s', _. split_and!; [done..|]. intros. by eapply long_push.
  - destruct (inv_advance F s X p Y Hi Ee Hc E); [|eexists _, F; by split_and!; [..|apply long_advance]]. intros st1 Ha1. by rewrite Ha in Ha1.
Qed.

(** A turn at a return entry, with calls to take back. *)
Lemma turn_ret cp F f s p nd :
  Inv h0 (F ++ [f]) s → cs_entry s = Some p → is_ret hist p →
  cs_heap s !! head = Some nd → is_Some (nd_next nd) →
  ∃ s', check_step model cp false head s = Some (inl s') ∧ Inv h0 F s' ∧ (cost F s' < cost (F ++ [f]) s)%nat ∧
    (cp = true → Long (F ++ [f]) s → Long F s').
Proof using All.
  intros Hi Ee Hret Hnd [hn Hhn]. destruct (stack_rep _ _ _ _ _ H0 (iv_stack _ _ _ Hi)) as (Hb&Hr&_).
  destruct (rep_node hist _ _ p Hr (is_ret_lt _ _ Hret)) as (en&e&He&Hen&_&Hmt&_). rewrite mate_ret in Hmt by done.
  unfold check_step. rewrite Hnd. cbn [mbind option_bind]. rewrite Hhn, Ee. cbn [mbind option_bind]. rewrite Hen.
  cbn [mbind option_bind]. rewrite Hmt.
  assert ((len (cs_calls s) =? 0) = false) as ->.
  { apply Z.eqb_neq. rewrite (iv_calls _ _ _ Hi). unfold len. rewrite length_fmap, length_app. simpl. lia. }
  destruct f as [[b0 st0] p0].
  assert (Hu : ∃ s1, (if cp then update_longest s else Some s) = Some s1 ∧
    Inv h0 (F ++ [(b0, st0, p0)]) s1 ∧ cost (F ++ [(b0, st0, p0)]) s1 = cost (F ++ [(b0, st0, p0)]) s ∧
    cs_entry s1 = cs_entry s ∧
    (cp = true → Long (F ++ [(b0, st0, p0)]) s → Long (F ++ [(b0, st0, p0)]) s1 ∧ covered s1 (cs_linearized s1))).
  { destruct cp; [|by exists s]. destruct (inv_longest _ s Hi) as (s1&Es1&?&?&?). exists s1. split_and!; [done..|].
    intros _ Hl. by destruct (long_update _ s s1 Hi Hl Es1) as (?&?&_). }
  destruct Hu as (s1&->&Hi1&Hcost&Ee1&Hlong). cbn [mbind option_bind]. rewrite Ee in Ee1.
  destruct (inv_pop F s1 b0 st0 p0 p Hi1 Ee1 Hret) as (s2&->&?&?&?&?&?&?). cbn [mbind option_bind].
  exists s2. rewrite <- Hcost. split_and!; [done..|]. intros Hcp Hl. destruct (Hlong Hcp Hl) as [Hl1 Hcov]. by eapply long_pop.
Qed.

Lemma check_turn cp F s :
  Inv h0 F s →
  (rem hist (cs_linearized s) = [] ∧ check_step model cp false head s = Some (inr true)) ∨
  (check_step model cp false head s = Some (inr false) ∧ F = [] ∧ rem hist (cs_linearized s) ≠ [] ∧
     ∀ q, avail hist (cs_linearized s) q → processed (cs_cache s) (cs_linearized s) (cs_state s) q) ∨
  ∃ s' F', check_step model cp false head s = Some (inl s') ∧ Inv h0 F' s' ∧ (cost F' s' < cost F s)%nat ∧
    (cp = true → Long F s → Long F' s').
Proof using All.
  intros Hi. destruct (stack_rep _ _ _ _ _ H0 (iv_stack _ _ _ Hi)) as (Hb&Hr&_).
  destruct (rep_head hist _ _ Hr) as (nd&Hnd&Hnx).
  destruct (rem hist (cs_linearized s)) as [|q l] eqn:Er.
  { left. split; [done|]. unfold check_step. rewrite Hnd. cbn [mbind option_bind]. by rewrite Hnx. }
  right. pose proof (iv_cursor _ _ _ Hi) as Hcu. destruct (cs_entry s) as [p|] eqn:Ee; simpl in Hcu; [|congruence].
  assert (Hlt : (p < length hist)%nat) by (destruct Hcu as [Hp _]; by apply elem_of_rem in Hp as [? _]).
  assert (Hs : is_Some (nd_next nd)) by (rewrite Hnx; simpl; eauto).
  destruct (call_or_ret hist p Hlt) as [Hc|Hret].
  - right. destruct (turn_call cp F s p nd Hi Ee Hc Hnd Hs) as (s'&F'&?&?&?&?). eauto 6.
  - destruct F as [|f F _] using rev_ind.
    + left. split_and!; [|done|done|by eapply current_closed].
      destruct (rep_node hist _ _ p Hr Hlt) as (en&e&He&Hen&_&Hmt&_). rewrite mate_ret in Hmt by done.
      unfold check_step. rewrite Hnd. cbn [mbind option_bind]. destruct Hs as [? ->]. rewrite Ee.
      cbn [mbind option_bind]. rewrite Hen. cbn [mbind option_bind]. by rewrite Hmt, (iv_calls _ _ _ Hi).
    + right. destruct (turn_ret cp F f s p nd Hi Ee Hret Hnd Hs) as (s'&?&?&?&?). eauto 6.
Qed.

(** ** The answer *)

(** When every visited set is explored and none is complete, there is no
    linearization. *)
Lemma closed_path c ps b st :
  (∀ b st, member c b st → ∀ q, avail hist b q → processed c b st q) →
  path model hist root (Init model) ps b st → ∃ t, member c b t ∧ eq st t = true.
Proof using All.
  intros Hcl Hp. assert (Hgo : ∀ b1 st1 ps b2 st2, path model hist b1 st1 ps b2 st2 →
    (∃ t, member c b1 t ∧ eq st1 t = true) → ∃ t, member c b2 t ∧ eq st2 t = true).
  { clear Hp. induction 1 as [|b1 st1 p b2 st2 ps' b3 st3 (Hav&Ha&Hset) Hp IH]; [done|].
    intros (t&Hm&Ht). apply IH. unfold apply_op in Ha.
    destruct (hist !! p) as [e|] eqn:He; simpl in Ha; [|done]. destruct (mate hist p) as [m|] eqn:Hmt; simpl in Ha; [|done].
    destruct (hist !! m) as [r|] eqn:Hr; simpl in Ha; [|done].
    destruct (Step model st1 (en_value e) (en_value r)) as [[ok st']|] eqn:Es; simpl in Ha; [|done].
    destruct ok; [|done]. simplify_eq.
    destruct (ge_step (model := model) _ _ _ _ _ Ht Es) as (t'&Et&Ht').
    destruct (Hcl b1 t Hm p Hav t') as (b'&t''&Hs'&Hc'&Hq').
    { unfold apply_op. rewrite He. simpl. rewrite Hmt. simpl. rewrite Hr. simpl. by rewrite Et. }
    simplify_eq. exists t''. split; [by right|]. by eapply (ge_trans (model := model)). }
  apply (Hgo _ _ _ _ _ Hp). exists (Init model). split; [by left|apply (ge_refl (model := model))].
Qed.

Lemma closed_not_linearizable c :
  (∀ b st, member c b st → ∀ q, avail hist b q → processed c b st q) →
  (∀ b st, member c b st → rem hist b ≠ []) → ¬ linearizable model hist.
Proof using All.
  intros Hcl Hne [ps Hps]. destruct (linearization_path model hist Hwf ps Hps) as (b&st&Hp&Hrem).
  destruct (closed_path c ps b st Hcl Hp) as (t&Hm&_). by apply (Hne b t).
Qed.

(** At the end of a search without a linearization everything visited is explored. *)
Lemma final_closed F s :
  Inv h0 F s → F = [] → (∀ q, avail hist (cs_linearized s) q → processed (cs_cache s) (cs_linearized s) (cs_state s) q) →
  ∀ b st, member (cs_cache s) b st → ∀ q, avail hist b q → processed (cs_cache s) b st q.
Proof using.
  intros [Hst Hca Hcu Hcl Hfr Hcr Hco Hl] -> Hcur b st Hm. destruct (Hcl b st Hm) as [?|[[p Hp]|[-> ->]]]; [done| |done].
  by apply not_elem_of_nil in Hp.
Qed.

Lemma path_in_bits ps b st x : path model hist root (Init model) ps b st → x ∈ ps → bit b (id_at hist x) = true.
Proof using Hwf.
  intros Hp Hx. destruct (path_bits model hist Hwf _ _ _ _ _ (wf_newBitset num) Hp) as [_ Hbits].
  destruct (path_calls model hist Hwf _ _ _ _ _ x (wf_newBitset num) Hp Hx) as [Hcx _].
  pose proof (id_range hist Hwf x (is_call_lt _ _ Hcx)). apply Hbits; [lia|right; eauto].
Qed.

Lemma final_longest F s :
  Inv h0 F s → F = [] → (∀ q, avail hist (cs_linearized s) q → processed (cs_cache s) (cs_linearized s) (cs_state s) q) →
  Long F s → longest_noted s.
Proof using All.
  intros Hi HF Hcur [_ Hc] ps b st i Hpath (x&Hx&Hxin)%list_elem_of_fmap.
  pose proof (path_in_bits _ _ _ _ Hpath Hxin) as Hbit. rewrite <-Hx in Hbit.
  destruct (stack_nil_inv _ _ _ _ (iv_stack _ _ _ Hi) HF) as [Hroot _].
  assert (Hnr : b ≠ root) by (intros ->; rewrite bit_newBitset in Hbit; [done|lia]).
  destruct (closed_path (cs_cache s) _ _ _ (final_closed F s Hi HF Hcur) Hpath) as (t&[[? _]|Hcached]&_); [done|].
  destruct (Hc b t Hcached) as [(st1&q1&Hf)|[E|Hcov]]; [rewrite HF in Hf; by apply elem_of_nil in Hf|congruence|].
  specialize (Hcov i Hbit). pose proof (path_size _ _ _ _ _ (wf_newBitset num) Hpath) as Hsz. rewrite rem_root_length in Hsz. lia.
Qed.

(** What is longest and contains its own operation cannot be continued. *)
Lemma longest_maximal s : own (cs_longest s) (cs_seqs s) → longest_noted s → maximal s.
Proof using Hwf.
  intros Ho Hl i p ps b st q Hid Hp Hpath Hav. destruct (apply_op model hist st q) as [st'|] eqn:Ha; [|done]. exfalso.
  destruct (path_bits model hist Hwf _ _ _ _ _ (wf_newBitset num) Hpath) as [Hb _].
  pose proof Hav as (Hr&_&_). apply elem_of_rem in Hr as [Hlt _].
  destruct (set_spec num b (id_at hist q) Hb (id_range hist Hwf q Hlt)) as (b'&Hset&_&_).
  assert (Hpath' : path model hist root (Init model) (ps ++ [q]) b' st') by (eapply path_snoc; [exact Hpath|by split_and!]).
  assert (Hin : Z.of_nat i ∈ id_at hist <$> (ps ++ [q])) by (rewrite fmap_app; apply elem_of_app; left; eauto).
  specialize (Hl _ _ _ i Hpath' Hin). unfold level in Hl. rewrite Hid in Hl. cbn in Hl. rewrite Hp in Hl. cbn in Hl.
  rewrite length_fmap, length_app in Hl. cbn in Hl. lia.
Qed.

(** A complete sequence is noted for every operation. *)
Lemma finish_longest F s s' : Inv h0 F s → rem hist (cs_linearized s) = [] → finish s = Some s' → longest_noted s'.
Proof using All.
  intros Hi Hrem E ps b st i Hpath (x&Hx&Hxin)%list_elem_of_fmap. destruct (call_ids_spec F s Hi) as (Hids&_&HpathF).
  unfold finish in E. rewrite Hids in E. cbn [mbind option_bind] in E. injection E as <-. cbn [cs_longest cs_seqs].
  destruct (path_calls model hist Hwf _ _ _ _ _ x (wf_newBitset num) Hpath Hxin) as [Hcx _].
  pose proof (id_range hist Hwf x (is_call_lt _ _ Hcx)) as Hrange.
  unfold level. rewrite lookup_replicate_2. 2:{ destruct (iv_longest _ _ _ Hi) as [-> _ _]. lia. }
  cbn. rewrite list_lookup_middle by done. cbn. rewrite length_fmap.
  pose proof (path_size _ _ _ _ _ (wf_newBitset num) Hpath) as Hs1. pose proof (path_size _ _ _ _ _ (wf_newBitset num) HpathF) as Hs2.
  rewrite Hrem in Hs2. cbn in Hs2. lia.
Qed.

(** A complete sequence leaves nothing to follow. *)
Lemma finish_maximal F s s' : Inv h0 F s → rem hist (cs_linearized s) = [] → finish s = Some s' → maximal s'.
Proof using All.
  intros Hi Hrem E id p ps b st q Hid Hp Hpath (Hr&_). exfalso. destruct (call_ids_spec F s Hi) as (Hids&_&HpathF).
  unfold finish in E. rewrite Hids in E. cbn [mbind option_bind] in E. injection E as <-. cbn [cs_longest cs_seqs] in *.
  apply lookup_replicate in Hid as [[= ->] _]. rewrite list_lookup_middle in Hp by done. injection Hp as Hp.
  apply elem_of_rem in Hr as [Hlt Hbit]. pose proof (id_range hist Hwf q Hlt) as Hrange.
  destruct (path_bits model hist Hwf _ _ _ _ _ (wf_newBitset num) Hpath) as [_ Hbits].
  destruct (path_bits model hist Hwf _ _ _ _ _ (wf_newBitset num) HpathF) as [_ HbitsF].
  assert (Hq : bit (cs_linearized s) (id_at hist q) = true).
  { destruct (bit (cs_linearized s) (id_at hist q)) eqn:Eb; [done|]. assert (Hn : q ∈ rem hist (cs_linearized s)) by (apply elem_of_rem; split; [exact Hlt|exact Eb]). rewrite Hrem in Hn. by apply elem_of_nil in Hn. }
  apply HbitsF in Hq as [Hq|(x&Hx&Hidx)]; [by rewrite bit_newBitset in Hq by lia| |lia].
  assert (Hin : id_at hist q ∈ id_at hist <$> ps) by (rewrite <-Hp, Hidx; by apply list_elem_of_fmap_2).
  apply list_elem_of_fmap in Hin as (y&Hy&Hyin). rewrite (proj2 (Hbits (id_at hist q) ltac:(lia))) in Hbit; [done|]. right. eauto.
Qed.

(** A complete sequence contains every operation. *)
Lemma finish_own F s s' : Inv h0 F s → rem hist (cs_linearized s) = [] → finish s = Some s' → own (cs_longest s') (cs_seqs s').
Proof using All.
  intros Hi Hrem E id p seq Hid Hp. destruct (call_ids_spec F s Hi) as (Hids&_&HpathF). destruct (iv_longest _ _ _ Hi) as [Hl1 _ _].
  unfold finish in E. rewrite Hids in E. cbn [mbind option_bind] in E. injection E as <-. cbn [cs_longest cs_seqs] in *.
  apply lookup_replicate in Hid as [[= ->] Hlt]. rewrite list_lookup_middle in Hp by done. injection Hp as <-.
  destruct (id_call hist Hwf (Z.of_nat id)) as (q&Hc&Hq); [lia|]. pose proof (is_call_lt _ _ Hc) as Hqlt.
  assert (Hbit : bit (cs_linearized s) (id_at hist q) = true).
  { destruct (bit (cs_linearized s) (id_at hist q)) eqn:Eb; [done|]. assert (Hn : q ∈ rem hist (cs_linearized s)) by (by apply elem_of_rem). rewrite Hrem in Hn. by apply elem_of_nil in Hn. }
  destruct (path_bits model hist Hwf _ _ _ _ _ (wf_newBitset num) HpathF) as [_ HbitsF].
  apply HbitsF in Hbit as [Hb|(x&Hx&Hidx)]; [by rewrite bit_newBitset in Hb by lia| |lia]. rewrite <-Hq, Hidx. by apply list_elem_of_fmap_2.
Qed.

Lemma inv_false F s :
  Inv h0 F s → F = [] → rem hist (cs_linearized s) ≠ [] →
  (∀ q, avail hist (cs_linearized s) q → processed (cs_cache s) (cs_linearized s) (cs_state s) q) →
  ¬ linearizable model hist.
Proof using All.
  intros Hi HF Hne Hcur. apply (closed_not_linearizable (cs_cache s)); [by eapply final_closed|].
  destruct Hi as [Hst Hca Hcu Hcl Hfr Hcr Hco Hl]. subst F.
  intros b st [[-> ->]|Hc] Hrem.
  - destruct (stack_nil_inv _ _ _ _ Hst eq_refl) as [Hb _]. by rewrite Hb in Hne.
  - apply Hne. by rewrite <- (Hco b st Hc Hrem).
Qed.

Lemma check_loop_correct cp F s i fuel :
  Inv h0 F s → (cost F s ≤ fuel)%nat → (cp = true → Long F s) →
  ∃ ok s', check_loop model cp (λ _, false) head fuel i s = Finished ok s' ∧
    (ok = true ↔ linearizable model hist) ∧ longest_ok s' ∧
    (cp = true → own (cs_longest s') (cs_seqs s') ∧ longest_noted s' ∧ maximal s').
Proof using All.
  revert F s i. induction fuel as [|fuel IH]; intros F s i Hi Hf HL; simpl.
  { unfold cost, cursor_cost in Hf. destruct (cs_entry s); lia. }
  destruct (check_turn cp F s Hi) as [[Hrem ->]|[(->&HF&Hne&Hcur)|(s'&F'&->&Hi'&Hlt&HL')]].
  - pose proof (stack_rep _ _ _ _ _ H0 (iv_stack _ _ _ Hi)) as (_&Hr&Hp).
    destruct (inv_finish F s Hi Hrem) as (s'&E&Hs'). rewrite E. exists true, s'. split_and!; [done| |done|intros _; split_and!; [by eapply finish_own|by eapply finish_longest|by eapply finish_maximal]].
    split; [|done]. intros _. eexists. by eapply path_linearization.
  - exists false, s. split_and!; [done| |apply (iv_longest _ _ _ Hi)|intros Hcp; pose proof (final_longest F s Hi HF Hcur (HL Hcp)); destruct (HL Hcp); split_and!; [done..|by apply longest_maximal]]. split; [done|].
    intros Hl. by destruct (inv_false F s Hi HF Hne Hcur).
  - apply (IH F'); [done|lia|auto].
Qed.
End Check.

(** ** The start *)

Section Start.
Context {V St : Type} (model : Model V St) (hist : list (entry V)) (eq : St → St → bool).
Context (Hwf : wf_history hist).
Notation root := (newBitset (len hist / 2)).

Lemma rem_root : rem hist root = seq 0 (length hist).
Proof using Hwf.
  unfold rem. apply filter_all. intros p [_ Hp]%elem_of_seq. apply bit_newBitset.
  pose proof (wh_ids hist Hwf p ltac:(lia)). lia.
Qed.

Lemma check_start_spec :
  ∃ s, check_start model hist = Some s ∧ rep hist (cs_heap s) root ∧ cs_linearized s = root ∧
    cs_state s = Init model ∧ cs_cache s = ∅ ∧ cs_calls s = [] ∧ cs_entry s = first (rem hist root) None ∧
    length (cs_longest s) = Z.to_nat (len hist / 2) ∧ (∀ p, Some p ∉ cs_longest s) ∧ cs_seqs s = [].
Proof using Hwf.
  destruct (makeLinkedEntries_spec hist Hwf) as (h&E&Hl&Hd).
  set (nd := mkNode None None (-1) None None : node V).
  destruct (insertBefore_spec (<[length hist := nd]> h) (length hist) (seq 0 (length hist)) nd) as (h'&E'&Hl'&Hs'&_).
  - eapply seg_frame; [|exact Hl]. intros p [_ Hp]%elem_of_seq. by rewrite lookup_insert_ne by lia.
  - apply NoDup_cons. split; [rewrite elem_of_seq; lia|apply NoDup_seq].
  - by rewrite lookup_insert_eq.
  - done.
  - done.
  - unfold check_start. rewrite E. cbn [mbind option_bind].
    rewrite (list_length_spec h None (seq 0 (length hist))) by (done || by rewrite length_seq).
    cbn [mbind option_bind]. fold nd. rewrite E'. cbn [mbind option_bind].
    unfold len. rewrite length_seq. fold (len hist). eexists. split; [done|]. simpl.
    split; [|split_and!; try done; [by rewrite rem_root|by rewrite length_replicate|]].
    + split; [by rewrite rem_root|]. intros p Hp. rewrite Hs'. unfold skel. rewrite fmap_insert, lookup_insert_ne by lia.
      apply Hd.
    + by intros p [? _]%elem_of_replicate.
Qed.

Lemma inv_start s :
  cs_linearized s = root → cs_state s = Init model → cs_cache s = ∅ → cs_calls s = [] →
  cs_entry s = first (rem hist root) None → length (cs_longest s) = Z.to_nat (len hist / 2) →
  (∀ p, Some p ∉ cs_longest s) → cs_seqs s = [] →
  Inv model hist eq (cs_heap s) [] s ∧ (cost hist [] s ≤ budget (length hist))%nat ∧ Long hist [] s.
Proof using Hwf.
  intros Hb Hst Hc Hca He Hlen Hptr Hsq.
  assert (Hno : ∀ b st, ¬ cached (cs_cache s) b st).
  { intros b st. unfold cached. rewrite Hc, lookup_empty. apply not_elem_of_nil. }
  split.
  - split.
    + rewrite Hb, Hst. constructor.
    + done.
    + rewrite Hb, He. apply cursor_first.
    + intros b st [[-> ->]|Hx]; [right; right; by rewrite Hb, Hst|by destruct (Hno b st)].
    + intros b st p []%not_elem_of_nil.
    + rewrite Hb, He. intros q (Hq&_) Hbf. exfalso. rewrite rem_root in *.
      destruct (length hist) as [|k]; [by apply not_elem_of_nil in Hq|]. simpl in Hbf. lia.
    + intros b st Hx. by destruct (Hno b st).
    + split; [done| |by rewrite Hsq]. intros p Hp. by destruct (Hptr p).
  - split.
    + unfold cost. rewrite Hb, He. simpl. pose proof (cursor_cost_first hist root) as Hcc.
      rewrite rem_root in Hcc at 2. rewrite length_seq in Hcc. lia.
    + split; [|by intros b st ?%Hno]. intros id p seq Hp. exfalso. eapply Hptr. by eapply list_elem_of_lookup_2.
Qed.
End Start.
End PorcupineCheck.
