(* ===== verification/PorcupineParallel.v ===== *)
(** * Whole histories: [checkParallel], [checkOperations], [checkEvents]
    ([porcupine/checker.go], [porcupine.go]) and [computeVisualizationData]
    ([porcupine/visualization.go])

    The partitions are checked by goroutines; their results arrive in any order,
    and the time-out may come between any two of them: [checkParallel] takes that
    order as an argument.  A result that arrives before the loop ends comes from a
    goroutine that never saw the kill flag, which is set when the loop ends. *)

From S2P Require Import Prelude PorcupineBitset Porcupine.

Module PorcupineParallel.
Import Bitset Porcupine.

Inductive Arrival := Result (i : nat) | TimeUp.

Record linearizationInfo (V : Type) := mkInfo {
  li_history : list (list (entry V)); li_partials : list (list (list Z))
}.
Arguments mkInfo {V}. Arguments li_history {V}. Arguments li_partials {V}.

(** The select loop: whether all results were good, whether time was up, and how
    many results arrived; [None] when it still waits after the last arrival.  A
    nil time-out channel never fires. *)
Fixpoint select_loop (n : Z) (computeInfo hasTimeout : bool) (results : list bool) (arrivals : list Arrival)
    (count : Z) (ok : bool) : option (bool * bool * Z) :=
  match arrivals with
  | [] => None
  | Result i :: arrivals =>
      result ← results !! i;
      let count := count + 1 in
      let ok := ok && result in
      if negb ok && negb computeInfo then Some (ok, false, count)
      else if n <=? count then Some (ok, false, count)
      else select_loop n computeInfo hasTimeout results arrivals count ok
  | TimeUp :: arrivals => if hasTimeout then Some (ok, true, count) else None
  end.

Section Parallel.
Context {V St : Type} `{EqDecision St} `{SortByTime V}.
Context (sprint_op : V → V → string) (sprint_state : St → string).  (* fmt.Sprintf with %v *)

Definition fillDefault (model : Model V St) : Model V St :=
  mkModel
    (match Partition model with None => Some NoPartition | f => f end)
    (match PartitionEvent model with None => Some NoPartitionEvent | f => f end)
    (Init model) (Step model)
    (match Equal model with None => Some ShallowEqual | f => f end)
    (match DescribeOperation model with None => Some (λ i o, Some (sprint_op i o)) | f => f end)
    (match DescribeState model with None => Some sprint_state | f => f end).

(** The distinct partial linearizations a goroutine left; the code lists them in
    the order of a map, which is unspecified. *)
Definition partials_of (s : CheckState V St) : option (list (list Z)) :=
  mapM (λ p, cs_seqs s !! p) (remove_dups (omap id (cs_longest s))).

(** What goroutine [i] sends and leaves. *)
Definition outcome (o : Outcome V St) : option (bool * CheckState V St) :=
  match o with Finished ok s => Some (ok, s) | Panic | OutOfFuel => None end.

Definition checkParallel (model : Model V St) (history : list (list (entry V))) (computeInfo : bool) (timeout : Z)
    (fuel : nat) (kills : nat → nat → bool) (arrivals : list Arrival)
    : option (CheckResult * linearizationInfo V) :=
  runs ← mapM outcome (imap (λ i sub, checkSingle model sub computeInfo (kills i) fuel) history);
  '(ok, timedOut, count) ← select_loop (len history) computeInfo (0 <? timeout) (fst <$> runs) arrivals 0 true;
  info ← (if computeInfo then partials ← mapM partials_of (snd <$> runs); Some (mkInfo history partials)
          else Some (mkInfo [] []));
  Some (if negb (ok : bool) then Illegal else if timedOut : bool then Unknown else Ok, info).

Definition checkEvents (model : Model V St) (history : list (Event V)) (verbose : bool) (timeout : Z)
    (fuel : nat) (kills : nat → nat → bool) (arrivals : list Arrival) :=
  let model := fillDefault model in
  partition ← PartitionEvent model;
  partitions ← partition history;
  checkParallel model ((λ sub, convertEntries (renumber sub)) <$> partitions) verbose timeout fuel kills arrivals.

Definition checkOperations (model : Model V St) (history : list (Operation V)) (verbose : bool) (timeout : Z)
    (fuel : nat) (kills : nat → nat → bool) (arrivals : list Arrival) :=
  let model := fillDefault model in
  partition ← Partition model;
  partitions ← partition history;
  checkParallel model (makeEntries <$> partitions) verbose timeout fuel kills arrivals.

(** The exported functions ([porcupine.go]). *)
Definition CheckOperations model history fuel kills arrivals : option bool :=
  '(res, _) ← checkOperations model history false 0 fuel kills arrivals;
  Some (match res with Ok => true | _ => false end).
Definition CheckOperationsTimeout model history timeout fuel kills arrivals : option CheckResult :=
  '(res, _) ← checkOperations model history false timeout fuel kills arrivals; Some res.
Definition CheckOperationsVerbose model history timeout fuel kills arrivals :=
  checkOperations model history true timeout fuel kills arrivals.
Definition CheckEvents model history fuel kills arrivals : option bool :=
  '(res, _) ← checkEvents model history false 0 fuel kills arrivals;
  Some (match res with Ok => true | _ => false end).
Definition CheckEventsTimeout model history timeout fuel kills arrivals : option CheckResult :=
  '(res, _) ← checkEvents model history false timeout fuel kills arrivals; Some res.
Definition CheckEventsVerbose model history timeout fuel kills arrivals :=
  checkEvents model history true timeout fuel kills arrivals.

(** ** [computeVisualizationData] *)

Record historyElement := mkHistoryElement { he_ClientId : Z; he_Start : Z; he_End : Z; he_Description : string }.
Definition zero_element : historyElement := mkHistoryElement 0 0 0 "".

Record linearizationStep := mkLinearizationStep { ls_Index : Z; ls_StateDescription : string }.

Record partitionVisualizationData := mkPartitionData {
  pv_History : list historyElement;
  pv_PartialLinearizations : list (list linearizationStep);
  pv_Largest : gmap Z Z
}.

(** The table of the operations of a partition: the elements, and the call and
    return values by id. *)
Fixpoint history_loop (describe : V → V → option string) (entries : list (entry V))
    (history : list historyElement) (callValue returnValue : gmap Z V)
    : option (list historyElement * gmap Z V * gmap Z V) :=
  match entries with
  | [] => Some (history, callValue, returnValue)
  | elem :: entries =>
      x ← history@[en_id elem];
      match en_kind elem with
      | callEntry =>
          history ← upd history (en_id elem)
            (mkHistoryElement (en_clientId elem) (en_time elem) (he_End x) (he_Description x));
          history_loop describe entries history (<[en_id elem := en_value elem]> callValue) returnValue
      | returnEntry =>
          c ← callValue !! en_id elem;
          d ← describe c (en_value elem);
          history ← upd history (en_id elem) (mkHistoryElement (he_ClientId x) (he_Start x) (en_time elem) d);
          history_loop describe entries history callValue (<[en_id elem := en_value elem]> returnValue)
      end
  end.

(** One partial linearization, number [i]; a step the model refuses panics. *)
Fixpoint partial_loop (model : Model V St) (describe : St → string) (callValue returnValue : gmap Z V)
    (i size : Z) (state : St) (ids : list Z) (largestIndex largestSize : gmap Z Z)
    : option (list linearizationStep * gmap Z Z * gmap Z Z) :=
  match ids with
  | [] => Some ([], largestIndex, largestSize)
  | id :: ids =>
      c ← callValue !! id; r ← returnValue !! id;
      '(ok, state) ← Step model state c r;
      if negb (ok : bool) then None else
      let bigger := map_get largestSize id <? size in
      let largestSize := if bigger then <[id := size]> largestSize else largestSize in
      let largestIndex := if bigger then <[id := i]> largestIndex else largestIndex in
      '(steps, largestIndex, largestSize) ←
        partial_loop model describe callValue returnValue i size state ids largestIndex largestSize;
      Some (mkLinearizationStep id (describe state) :: steps, largestIndex, largestSize)
  end.

Fixpoint partials_loop (model : Model V St) (describe : St → string) (callValue returnValue : gmap Z V)
    (i : Z) (partials : list (list Z)) (largestIndex largestSize : gmap Z Z)
    : option (list (list linearizationStep) * gmap Z Z) :=
  match partials with
  | [] => Some ([], largestIndex)
  | partial :: partials =>
      '(steps, largestIndex, largestSize) ←
        partial_loop model describe callValue returnValue i (len partial) (Init model) partial largestIndex largestSize;
      '(rest, largestIndex) ← partials_loop model describe callValue returnValue (i + 1) partials largestIndex largestSize;
      Some (steps :: rest, largestIndex)
  end.

(** [sort.Slice(partials, longer first)]; ties come in any order. *)
Definition longer (a b : list Z) : Prop := (length b ≤ length a)%nat.
#[export] Instance longer_dec : RelDecision longer.
Proof. intros a b. unfold longer. apply _. Defined.

Definition partition_data (model : Model V St) (entries : list (entry V)) (partials : list (list Z))
    : option partitionVisualizationData :=
  describeOp ← DescribeOperation model;
  describeSt ← DescribeState model;
  '(history, callValue, returnValue) ←
    history_loop describeOp entries (replicate (Z.to_nat (len entries / 2)) zero_element) ∅ ∅;
  '(linearizations, largestIndex) ←
    partials_loop model describeSt callValue returnValue 0 (merge_sort longer partials) ∅ ∅;
  Some (mkPartitionData history linearizations largestIndex).

Definition computeVisualizationData (model : Model V St) (info : linearizationInfo V)
    : option (list partitionVisualizationData) :=
  let model := fillDefault model in
  mapM (λ partition, entries ← li_history info !! partition; partials ← li_partials info !! partition;
                     partition_data model entries partials) (seq 0 (length (li_history info))).
End Parallel.
End PorcupineParallel.
