(* ===== verification/PorcupineHistory.v ===== *)
(** * Histories of operations and of events

    [makeEntries] turns timed operations into a well-formed history that keeps
    their real-time order. *)

From S2P Require Import Prelude PorcupineBitset Porcupine PorcupineList PorcupineLink.

Module PorcupineHistory.
Import Porcupine PorcupineList PorcupineLink.

Section History.
Context {V : Type}.
Implicit Types a b c : entry V.

Lemma byTime_iff a b :
  byTime a b ↔ en_time a < en_time b ∨
    (en_time a = en_time b ∧ ¬ (en_kind b = callEntry ∧ en_kind a = returnEntry)).
Proof.
  unfold byTime, Less. destruct (Z.eqb_spec (en_time b) (en_time a)) as [E|E]; simpl.
  - rewrite andb_false_iff, !bool_decide_eq_false. split.
    + intros [?|?]; right; (split; [lia|tauto]).
    + intros [?|[_ Hn]]; [lia|]. destruct (decide (en_kind b = callEntry)); [right|left]; tauto.
  - rewrite Z.ltb_ge. intuition lia.
Qed.

#[export] Instance byTime_trans : Transitive (byTime (V := V)).
Proof.
  intros a b c. rewrite !byTime_iff. destruct (en_kind a), (en_kind b), (en_kind c); intuition (lia || congruence).
Qed.
#[export] Instance byTime_total : Total (byTime (V := V)).
Proof.
  intros a b. rewrite !byTime_iff. destruct (Z.lt_trichotomy (en_time a) (en_time b)) as [?|[?|?]]; [auto| |auto].
  destruct (en_kind a), (en_kind b); intuition (lia || congruence).
Qed.
#[export] Instance byTime_dec : RelDecision (byTime (V := V)).
Proof. intros a b. unfold byTime. apply _. Defined.

(** A stable merge sort is one of the allowed sorts. *)
Definition merge_sort_by_time : SortByTime V := {|
  sort_entries := merge_sort byTime;
  sort_entries_permutation := merge_sort_Permutation byTime;
  sort_entries_sorted := Sorted_merge_sort byTime
|}.

(** ** The entries of the operations *)

Definition call_of (i : nat) (o : Operation V) : entry V :=
  mkEntry callEntry (op_Input o) (Z.of_nat i) (op_Call o) (op_ClientId o).
Definition ret_of (i : nat) (o : Operation V) : entry V :=
  mkEntry returnEntry (op_Output o) (Z.of_nat i) (op_Return o) (op_ClientId o).

Lemma make_loop_elem k history x :
  x ∈ make_loop (Z.of_nat k) history ↔
  ∃ i o, history !! i = Some o ∧ (x = call_of (k + i) o ∨ x = ret_of (k + i) o).
Proof.
  revert k. induction history as [|o history IH]; intros k; simpl; [set_solver|].
  replace (Z.of_nat k + 1) with (Z.of_nat (S k)) by lia. rewrite !elem_of_cons, IH. split.
  - intros [->|[->|(i&o'&Hi&Hx)]].
    + exists 0%nat, o. split; [done|]. left. unfold call_of. by rewrite Nat.add_0_r.
    + exists 0%nat, o. split; [done|]. right. unfold ret_of. by rewrite Nat.add_0_r.
    + exists (S i), o'. split; [done|]. by replace (k + S i)%nat with (S k + i)%nat by lia.
  - intros ([|i]&o'&Hi&Hx); simpl in Hi.
    + simplify_eq. rewrite Nat.add_0_r in Hx. destruct Hx as [->| ->]; auto.
    + right; right. exists i, o'. split; [done|]. by replace (S k + i)%nat with (k + S i)%nat by lia.
Qed.

Lemma make_loop_length k history : length (make_loop (V := V) k history) = (2 * length history)%nat.
Proof. revert k. induction history as [|o history IH]; intros k; simpl; [done|]. rewrite IH. lia. Qed.

Definition tag (e : entry V) : bool * Z := (bool_decide (en_kind e = callEntry), en_id e).

Lemma make_loop_NoDup k history : NoDup (tag <$> make_loop (Z.of_nat k) history).
Proof.
  revert k. induction history as [|o history IH]; intros k; csimpl; [constructor|].
  replace (Z.of_nat k + 1) with (Z.of_nat (S k)) by lia.
  assert (Hlow : ∀ t, t ∈ tag <$> make_loop (Z.of_nat (S k)) history → Z.of_nat k < t.2).
  { intros t (x&->&(i&o'&_&[->| ->])%make_loop_elem)%list_elem_of_fmap; simpl; lia. }
  constructor; [|constructor; [|apply IH]].
  - intros [Hx|Hx]%elem_of_cons; [done|]. specialize (Hlow _ Hx). simpl in Hlow. lia.
  - intros Hx. specialize (Hlow _ Hx). simpl in Hlow. lia.
Qed.

Context `{SortByTime V} (history : list (Operation V)).
Notation E := (makeEntries history).

Lemma entries_elem x : x ∈ E ↔ ∃ i o, history !! i = Some o ∧ (x = call_of i o ∨ x = ret_of i o).
Proof. unfold makeEntries. rewrite sort_entries_permutation. apply (make_loop_elem 0). Qed.

Lemma entries_unique p q x y : E !! p = Some x → E !! q = Some y → tag x = tag y → p = q.
Proof.
  intros Hp Hq Ht. apply (NoDup_lookup (tag <$> E) p q (tag x)).
  - unfold makeEntries. rewrite sort_entries_permutation. apply (make_loop_NoDup 0).
  - by rewrite list_lookup_fmap, Hp.
  - by rewrite list_lookup_fmap, Hq, Ht.
Qed.

(** Earlier in the list is earlier in time, calls first. *)
Lemma entries_sorted p q x y : E !! p = Some x → E !! q = Some y → (p < q)%nat → byTime x y.
Proof.
  intros Hp Hq Hlt. assert (Hs : StronglySorted byTime E) by (apply (Sorted_StronglySorted _), sort_entries_sorted).
  rewrite <- (take_drop_middle _ _ _ Hp) in Hs. apply StronglySorted_app_1_r, StronglySorted_cons in Hs as [Hf _].
  rewrite Forall_forall in Hf. apply Hf. apply (list_elem_of_lookup_2 _ (q - S p)%nat).
  rewrite lookup_drop. by replace (S p + (q - S p))%nat with q by lia.
Qed.

Lemma entry_position x i o :
  history !! i = Some o → x = call_of i o ∨ x = ret_of i o → ∃ p, E !! p = Some x.
Proof. intros Hi Hx. apply list_elem_of_lookup, entries_elem. eauto. Qed.

(** The return of [i] comes before the call of [j] exactly when it happened before. *)
Lemma entries_order i j oi oj r p :
  E !! r = Some (ret_of i oi) → E !! p = Some (call_of j oj) → (r < p)%nat ↔ op_Return oi < op_Call oj.
Proof.
  intros Hr Hp. split.
  - intros Hlt. pose proof (entries_sorted _ _ _ _ Hr Hp Hlt) as Hb. rewrite byTime_iff in Hb. simpl in Hb.
    destruct Hb as [?|[_ Hn]]; [done|]. by destruct Hn.
  - intros Hlt. destruct (decide (r < p)%nat); [done|]. exfalso.
    destruct (decide (r = p)) as [->|]; [rewrite Hr in Hp; discriminate|].
    pose proof (entries_sorted _ _ _ _ Hp Hr ltac:(lia)) as Hb. rewrite byTime_iff in Hb. simpl in Hb. lia.
Qed.

Lemma id_at_entry p x : E !! p = Some x → id_at E p = en_id x.
Proof. intros Hp. unfold id_at. by rewrite Hp. Qed.

Lemma makeEntries_wf : (∀ o, o ∈ history → op_Call o ≤ op_Return o) → wf_history E.
Proof.
  intros Ht.
  assert (Hcall : ∀ p, is_call E p → ∃ i o, history !! i = Some o ∧ E !! p = Some (call_of i o)).
  { intros p (x&Hp&Hk). destruct (proj1 (entries_elem x) (list_elem_of_lookup_2 _ _ _ Hp)) as (i&o&Hi&[->| ->]); [eauto|done]. }
  assert (Hret : ∀ p, is_ret E p → ∃ i o, history !! i = Some o ∧ E !! p = Some (ret_of i o)).
  { intros p (x&Hp&Hk). destruct (proj1 (entries_elem x) (list_elem_of_lookup_2 _ _ _ Hp)) as (i&o&Hi&[->| ->]); [done|eauto]. }
  assert (Hbefore : ∀ i o p r, history !! i = Some o → E !! p = Some (call_of i o) → E !! r = Some (ret_of i o) → (p < r)%nat).
  { intros i o p r Hi Hp Hr. pose proof (proj1 (entries_order i i o o r p Hr Hp)) as Ho.
    specialize (Ht o (list_elem_of_lookup_2 _ _ _ Hi)).
    destruct (decide (r < p)%nat) as [Hlt|]; [specialize (Ho Hlt); lia|].
    destruct (decide (r = p)) as [->|]; [rewrite Hp in Hr; discriminate|lia]. }
  split.
  - intros p Hp. destruct (lookup_lt_is_Some_2 E p Hp) as [x Hx]. rewrite (id_at_entry p x Hx).
    destruct (proj1 (entries_elem x) (list_elem_of_lookup_2 _ _ _ Hx)) as (i&o&Hi%lookup_lt_Some&Hxx).
    assert (len E / 2 = len history) as ->.
    { unfold len, makeEntries. rewrite (Permutation_length (sort_entries_permutation _)), make_loop_length.
      replace (Z.of_nat (2 * length history)) with (Z.of_nat (length history) * 2) by lia. by rewrite Z.div_mul by lia. }
    unfold len. destruct Hxx as [->| ->]; simpl; lia.
  - intros p q (i&o&Hi&Hp)%Hcall (j&o'&Hj&Hq)%Hcall Hid. rewrite (id_at_entry _ _ Hp), (id_at_entry _ _ Hq) in Hid.
    simpl in Hid. eapply entries_unique; [done..|]. unfold tag. simpl. by rewrite Hid.
  - intros p q (i&o&Hi&Hp)%Hret (j&o'&Hj&Hq)%Hret Hid. rewrite (id_at_entry _ _ Hp), (id_at_entry _ _ Hq) in Hid.
    simpl in Hid. eapply entries_unique; [done..|]. unfold tag. simpl. by rewrite Hid.
  - intros p (i&o&Hi&Hp)%Hcall. destruct (entry_position (ret_of i o) i o Hi) as [r Hr]; [by right|].
    exists r. split; [by exists (ret_of i o)|]. rewrite (id_at_entry _ _ Hp), (id_at_entry _ _ Hr). split; [done|by eapply Hbefore].
  - intros r (i&o&Hi&Hr)%Hret. destruct (entry_position (call_of i o) i o Hi) as [p Hp]; [by left|].
    exists p. split; [by exists (call_of i o)|]. rewrite (id_at_entry _ _ Hp), (id_at_entry _ _ Hr). split; [done|by eapply Hbefore].
Qed.
End History.
End PorcupineHistory.
