(* ===== verification/PorcupineVisual.v ===== *)
(** * The parallel check and the visualization data

    The select loop of [checkParallel] computes the conjunction of the results,
    and [computeVisualizationData] never panics on what the checker leaves. *)

From S2P Require Import Prelude PorcupineBitset Porcupine PorcupineList PorcupineLink PorcupineSearch PorcupineRep PorcupineCheck PorcupineParallel.

Module PorcupineVisual.
Import Bitset Porcupine PorcupineList PorcupineLink PorcupineSearch PorcupineRep PorcupineCheck PorcupineParallel.

(** ** The select loop *)

Lemma select_loop_all n computeInfo hasTimeout results order count ok :
  order ≠ [] → count + len order = n → (∀ i, i ∈ order → is_Some (results !! i)) →
  ∃ count', select_loop n computeInfo hasTimeout results (Result <$> order) count ok =
    Some (ok && forallb (λ i, default false (results !! i)) order, false, count').
Proof.
  revert count ok. induction order as [|i order IH]; intros count ok Hne Hn Hi; [done|]. csimpl.
  destruct (Hi i ltac:(left)) as [r Hr]. rewrite Hr. cbn [mbind option_bind default from_option id].
  destruct (negb (ok && r) && negb computeInfo) eqn:Eb.
  { apply andb_true_iff in Eb as [Eb%negb_true_iff _]. exists (count + 1). by rewrite andb_assoc, Eb. }
  unfold len in *. simpl in Hn. destruct (Z.leb_spec n (count + 1)) as [Hle|Hgt].
  - exists (count + 1). destruct order; [|simpl in Hn; lia]. simpl. by rewrite andb_true_r.
  - destruct (IH (count + 1) (ok && r)) as [c' ->]; [by destruct order; simpl in *; [lia|]|lia| |].
    + intros j Hj. apply Hi. by right.
    + exists c'. by rewrite andb_assoc.
Qed.

(** ** Visualization *)

Section Visual.
Context {V St : Type} (model : Model V St) (hist : list (entry V)).
Context (Hwf : wf_history hist).
Notation num := (len hist / 2).

(** The values of the first [n] entries of one kind are in the table. *)
Definition vals (k : entryKind) (n : nat) (m : gmap Z V) : Prop :=
  ∀ p e, hist !! p = Some e → (p < n)%nat → en_kind e = k → m !! en_id e = Some (en_value e).

Lemma id_at_lookup p e : hist !! p = Some e → id_at hist p = en_id e.
Proof. intros Hp. unfold id_at. by rewrite Hp. Qed.

Lemma vals_unique p q e e' :
  hist !! p = Some e → hist !! q = Some e' → en_kind e = en_kind e' → en_id e = en_id e' → p = q.
Proof using Hwf.
  intros Hp Hq Hk Hid. rewrite <- (id_at_lookup p e Hp), <- (id_at_lookup q e' Hq) in Hid.
  destruct (en_kind e) eqn:Ek.
  - apply (wh_call_unique hist Hwf); [by exists e|by exists e'|done].
  - apply (wh_ret_unique hist Hwf); [by exists e|by exists e'|done].
Qed.

Lemma vals_insert k n m e :
  hist !! n = Some e → vals k n m →
  vals k (S n) (if decide (en_kind e = k) then <[en_id e := en_value e]> m else m).
Proof using Hwf.
  intros Hn Hv p x Hp Hlt Hk. destruct (decide (p = n)) as [->|Hne].
  - rewrite Hn in Hp. simplify_eq. by rewrite decide_True, lookup_insert_eq.
  - case_decide as Hke; [|apply (Hv p); [done|lia|done]].
    rewrite lookup_insert_ne; [apply (Hv p); [done|lia|done]|].
    intros Hid. apply Hne. by apply (vals_unique p n x e); [..|congruence|].
Qed.

Context (describe : V → V → option string).
Context (Hdesc : ∀ p m e r, mate hist p = Some m → hist !! p = Some e → hist !! m = Some r →
  is_Some (describe (en_value e) (en_value r))).

Lemma history_loop_ok suf n history cv rv :
  drop n hist = suf → length history = Z.to_nat num → vals callEntry n cv → vals returnEntry n rv →
  ∃ hs cv' rv', history_loop describe suf history cv rv = Some (hs, cv', rv') ∧
    vals callEntry (length hist) cv' ∧ vals returnEntry (length hist) rv'.
Proof using Hwf Hdesc.
  revert n history cv rv. induction suf as [|e suf IH]; intros n history cv rv Hsuf Hlen Hc Hr; simpl.
  - exists history, cv, rv. assert (length hist ≤ n)%nat.
    { apply (f_equal length) in Hsuf. rewrite length_drop in Hsuf. simpl in Hsuf. lia. }
    split_and!; [done|..]; intros p x Hp _; [apply (Hc p)|apply (Hr p)]; try done; apply lookup_lt_Some in Hp; lia.
  - assert (Hn : hist !! n = Some e) by (rewrite <- (Nat.add_0_r n), <- lookup_drop, Hsuf; done).
    assert (Hsuf' : drop (S n) hist = suf) by (rewrite <- (Nat.add_1_r n), <- drop_drop, Hsuf; done).
    pose proof (wh_ids hist Hwf n (lookup_lt_Some _ _ _ Hn)) as Hid. rewrite (id_at_lookup n e Hn) in Hid.
    pose proof (vals_insert callEntry n cv e Hn Hc) as Hc'. pose proof (vals_insert returnEntry n rv e Hn Hr) as Hr'.
    destruct (lookup_lt_is_Some_2 history (Z.to_nat (en_id e))) as [x Hx]; [lia|].
    assert (Hidx : history@[en_id e] = Some x) by (unfold idx; destruct (Z.leb_spec 0 (en_id e)); [done|lia]).
    assert (Hupd : ∀ v, upd history (en_id e) v = Some (<[Z.to_nat (en_id e) := v]> history)).
    { intros v. unfold upd, len. destruct (Z.leb_spec 0 (en_id e)); [|lia].
      by destruct (Z.ltb_spec (en_id e) (Z.of_nat (length history))); [|lia]. }
    rewrite Hidx. cbn [mbind option_bind]. destruct (en_kind e) eqn:Ek; rewrite ?Hupd; cbn [mbind option_bind].
    + apply (IH (S n)); [done|by rewrite length_insert|done|done].
    + assert (Hret : is_ret hist n) by (by exists e).
      destruct (wh_ret_call hist Hwf n Hret) as (p&Hcp&Hidp&Hpn). pose proof Hcp as (ec&Hec&Hkc).
      rewrite (id_at_lookup n e Hn), (id_at_lookup p ec Hec) in Hidp.
      rewrite Hidp, (Hc p ec Hec Hpn Hkc). cbn [mbind option_bind].
      destruct (Hdesc p n ec e) as [d ->]; [apply mate_call; [done..|by rewrite (id_at_lookup n e Hn), (id_at_lookup p ec Hec)]|done|done|].
      cbn [mbind option_bind]. rewrite <- Hidp, Hupd. cbn [mbind option_bind].
      apply (IH (S n)); [done|by rewrite length_insert|done|done].
Qed.

Context (describeSt : St → string).

Lemma partial_loop_ok cv rv i size b st ps b' st' li ls :
  vals callEntry (length hist) cv → vals returnEntry (length hist) rv →
  path model hist b st ps b' st' →
  ∃ r, partial_loop model describeSt cv rv i size st (id_at hist <$> ps) li ls = Some r.
Proof using Hwf.
  intros Hc Hr Hp. revert li ls. induction Hp as [|b st p b1 st1 ps b2 st2 ((_&Hcall&_)&Ha&_) Hp IH]; intros li ls; [by eexists|].
  csimpl. unfold apply_op in Ha. destruct (hist !! p) as [e|] eqn:He; simpl in Ha; [|done].
  destruct (mate hist p) as [m|] eqn:Hm; simpl in Ha; [|done]. destruct (hist !! m) as [r|] eqn:Hre; simpl in Ha; [|done].
  destruct (Step model st (en_value e) (en_value r)) as [[ok st']|] eqn:Es; simpl in Ha; [|done].
  destruct ok; [|done]. simplify_eq. destruct (mate_Some hist p m Hwf Hcall Hm) as (Hret&Hid&_).
  assert (Hke : en_kind e = callEntry) by (destruct Hcall as (?&?&?); congruence).
  assert (Hkr : en_kind r = returnEntry) by (destruct Hret as (?&?&?); congruence).
  rewrite (id_at_lookup p e He), (id_at_lookup m r Hre) in *.
  rewrite (Hc p e He (lookup_lt_Some _ _ _ He) Hke). cbn [mbind option_bind].
  rewrite <- Hid, (Hr m r Hre (lookup_lt_Some _ _ _ Hre) Hkr). cbn [mbind option_bind].
  rewrite Es. cbn [mbind option_bind negb].
  destruct (IH (if map_get ls (en_id r) <? size then <[en_id r:=i]> li else li)
              (if map_get ls (en_id r) <? size then <[en_id r:=size]> ls else ls)) as [[[? ?] ?] ->].
  by eexists.
Qed.

Lemma partials_loop_ok cv rv i partials li ls :
  vals callEntry (length hist) cv → vals returnEntry (length hist) rv → Forall (partial model hist) partials →
  ∃ r, partials_loop model describeSt cv rv i partials li ls = Some r.
Proof using Hwf.
  intros Hc Hr Hp. revert i li ls. induction Hp as [|ids partials (ps&b&st&Hpath&->&_) Hp IH]; intros i li ls; [by eexists|].
  simpl. destruct (partial_loop_ok cv rv i (len (id_at hist <$> ps)) _ _ _ _ _ li ls Hc Hr Hpath) as [[[? li'] ls'] E].
  cbn [fmap list_fmap] in E. rewrite E. cbn [mbind option_bind]. destruct (IH (i + 1) li' ls') as [[? ?] ->]. by eexists.
Qed.
End Visual.

(** A partial linearization that is reported has operations. *)
Definition reported {V St} (model : Model V St) (hist : list (entry V)) (ids : list Z) : Prop :=
  partial model hist ids ∧ ids ≠ [].

(** The model refuses whatever could follow. *)
Definition refused_next {V St} (model : Model V St) (hist : list (entry V)) (ids : list Z) : Prop :=
  ∀ ps b st q, path model hist (newBitset (len hist / 2)) (Init model) ps b st → ids = id_at hist <$> ps →
    avail hist b q → apply_op model hist st q = None.

(** What a finished goroutine leaves can be listed. *)
Lemma partials_of_ok {V St} (model : Model V St) hist (s : CheckState V St) :
  longest_ok model hist s → ∃ l, partials_of s = Some l ∧ Forall (reported model hist) l ∧
    (maximal model hist s → Forall (refused_next model hist) l).
Proof.
  intros [Hlen Hptr Hseqs]. unfold partials_of.
  assert (Hin : ∀ p, p ∈ remove_dups (omap id (cs_longest s)) → (p < length (cs_seqs s))%nat ∧ hist ≠ [] ∧ Some p ∈ cs_longest s).
  { intros p Hp. apply elem_of_remove_dups, list_elem_of_omap in Hp as (o&Ho&E). simpl in E. subst. split; [by apply Hptr|]. split; [|done].
    intros ->. simpl in Hlen. apply length_zero_iff_nil in Hlen. rewrite Hlen in Ho. by apply elem_of_nil in Ho. }
  induction (remove_dups (omap id (cs_longest s))) as [|p l IH]; [by exists []|].
  destruct IH as (l'&E&Hl'&Hm'); [intros q Hq; apply Hin; by right|].
  destruct (Hin p ltac:(left)) as (Hp&Hne&Hin0).
  destruct (lookup_lt_is_Some_2 (cs_seqs s) p Hp) as [sq Hsq].
  exists (sq :: l'). simpl. rewrite Hsq, E. split; [done|]. split.
  2:{ intros Hmax. constructor; [|by apply Hm']. intros ps b st q Hpath -> Hav. apply list_elem_of_lookup in Hin0 as [i Hi]. by eapply (Hmax i p). }
  constructor; [|done]. rewrite Forall_forall in Hseqs. pose proof (Hseqs sq (list_elem_of_lookup_2 _ _ _ Hsq)) as Hpart. split; [done|].
  destruct Hpart as (ps&b&st&_&->&Hps). intros E0%fmap_nil_inv. auto.
Qed.
End PorcupineVisual.
