(* ===== verification/PorcupinePage.v ===== *)
(** * The page that shows a check

    The script of the HTML template in [visualization.go]: [render] prepares the
    data that [computeVisualizationData] produced, computes the layout by a scan
    over the time stamps, draws the history and the partial linearizations, and
    installs the handlers of the mouse events.

    Numbers: a position is an integer number of units, [px] of them to a pixel, or
    [NaN]; the widths of texts, which the browser measures, are multiples of the unit,
    and sums are exact.  A time stamp is an integer; a tweaked end is the average of
    two, so that the layout counts time in halves.  A read outside an array or an
    object gives [undefined], which behaves as [NaN] in arithmetic; a property of
    [undefined] or [null] throws, and [None] is that exception. *)

From stdpp Require Import pretty.
From S2P Require Import Prelude PorcupineBitset Porcupine PorcupineParallel.

Module PorcupinePage.
Import Porcupine PorcupineParallel.

(** ** Numbers and helpers of the script *)

Notation num := (option Z).
Definition num_add (a b : num) : num := a ← a; b ← b; Some (a + b).
Definition num_sub (a b : num) : num := a ← a; b ← b; Some (a - b).
(** [Math.max]: [NaN] if one argument is. *)
Definition num_max (a b : num) : num := a ← a; b ← b; Some (Z.max a b).

Inductive JsVal := JNull | JNum (z : Z) | JBool (b : bool).
#[export] Instance JsVal_eq_dec : EqDecision JsVal.
Proof. solve_decision. Defined.

(** Arrays are never [null] here; two references to one array have equal elements. *)
Fixpoint arrayEq_loop (a b : list JsVal) : bool :=
  match a, b with
  | x :: a, y :: b => if bool_decide (x ≠ y) then false else arrayEq_loop a b
  | _, _ => true
  end.
Definition arrayEq (a b : list JsVal) : bool :=
  if negb (length a =? length b)%nat then false else arrayEq_loop a b.

Definition newArray {A} (n : nat) (fn : nat → A) : list A := fn <$> seq 0 n.

(** [Set.add], in insertion order. *)
Definition set_add (t : Z) (s : list Z) : list Z := if bool_decide (t ∈ s) then s else s ++ [t].

(** [arr.sort((a, b) => a - b)]. *)
Definition sort_numbers (l : list Z) : list Z := merge_sort Z.le l.

(** ** Preparation of the data *)

(** A history element with the fields the script adds; [el_End] counts halves. *)
Record el := mkEl {
  el_ClientId : Z;
  el_Start : Z;
  el_End : Z;
  el_OriginalEnd : Z;
  el_Description : string;
  el_Gid : nat
}.

Record partition := mkPartition {
  History : list el;
  PartialLinearizations : list (list linearizationStep);
  Largest : gmap Z Z
}.

(** A start in the unit of [el_End] and of the layout. *)
Definition start2 (e : el) : Z := 2 * el_Start e.

Definition elements (data : list partitionVisualizationData) : list historyElement := data ≫= pv_History.

Definition maxClient (data : list partitionVisualizationData) : Z :=
  foldl (λ m e, Z.max m (he_ClientId e)) (-1) (elements data).
Definition nClient data : Z := maxClient data + 1.

Definition allTimestamps data : list Z :=
  foldl (λ s e, set_add (he_End e) (set_add (he_Start e) s)) [] (elements data).
Definition startTimestamps data : list Z :=
  foldl (λ s e, set_add (he_Start e) s) [] (elements data).

Fixpoint nextTs (sortedTimestamps : list Z) : gmap Z Z :=
  match sortedTimestamps with
  | t :: ((t' :: _) as rest) => <[t := t']> (nextTs rest)
  | _ => ∅
  end.

(** The average of a shared end and the next time stamp, in halves. *)
Definition tweak data (e : historyElement) : option Z :=
  if bool_decide (he_End e ∈ startTimestamps data)
  then next ← nextTs (sort_numbers (allTimestamps data)) !! he_End e; Some (he_End e + next)
  else None.

Definition prepare_el data (gid : nat) (e : historyElement) : el :=
  mkEl (he_ClientId e) (he_Start e) (default (2 * he_End e) (tweak data e)) (he_End e) (he_Description e) gid.

Fixpoint prepare_from data (gid : nat) (parts : list partitionVisualizationData) : list partition :=
  match parts with
  | [] => []
  | p :: parts =>
      mkPartition (imap (λ i e, prepare_el data (gid + i) e) (pv_History p)) (pv_PartialLinearizations p) (pv_Largest p) ::
      prepare_from data (gid + length (pv_History p)) parts
  end.
Definition prepare data : list partition := prepare_from data 0 data.

(** [byGid] as an array: the elements in the order of their ids. *)
Definition byGid (parts : list partition) : list el := parts ≫= History.

Definition sortedTimestamps data : list Z :=
  sort_numbers (foldl (λ s e, match tweak data e with Some t => set_add t s | None => s end)
                  (Z.mul 2 <$> allTimestamps data) (elements data)).

Section Page.
(** Units per pixel, and the width of a text as drawn by the browser. *)
Context (px : Z) (textWidth : string → Z).

Definition PADDING : Z := 10 * px.
Definition BOX_HEIGHT : Z := 30 * px.
Definition BOX_SPACE : Z := 15 * px.
Definition XOFF : Z := 20 * px.
Definition EPSILON : Z := 20 * px.
Definition LINE_BLEED : Z := 5 * px.
Definition BOX_GAP : Z := 20 * px.
Definition BOX_TEXT_PADDING : Z := 10 * px.

(** ** Preprocessing for the layout *)

Record Event := mkEvent { ev_start : Z; ev_end : Z; ev_width : Z; ev_gid : nat }.

Definition box_width (e : el) : Z := textWidth (el_Description e) + 2 * BOX_TEXT_PADDING.
Definition event_of (e : el) : Event := mkEvent (start2 e) (el_End e) (box_width e) (el_Gid e).

Definition ends_before (a b : Event) : Prop := ev_end a ≤ ev_end b.
#[export] Instance ends_before_dec : RelDecision ends_before.
Proof. intros a b. unfold ends_before. apply _. Defined.

Definition byEnd (parts : list partition) : list Event := merge_sort ends_before (event_of <$> byGid parts).

(** The least end of the elements that are not included, [None] for [Infinity]. *)
Fixpoint minEnd_loop (included : list Z) (index : Z) (hist : list el) (m : option Z) : option Z :=
  match hist with
  | [] => m
  | e :: hist =>
      minEnd_loop included (index + 1) hist
        (if bool_decide (index ∈ included) then m
         else Some (match m with Some m => Z.min m (el_End e) | None => el_End e end))
  end.
Definition minEnd (included : list Z) (hist : list el) : option Z := minEnd_loop included 0 hist None.

Definition below_minEnd (e : el) (m : option Z) : bool := match m with Some m => start2 e <? m | None => true end.

(** The elements that could come next, with their indices: not included, and no
    other such element has to come earlier. *)
Definition illegal_next (included : list Z) (hist : list el) : list (Z * el) :=
  filter (λ '(index, e), index ∉ included ∧ below_minEnd e (minEnd included hist) = true)
         (imap (λ i e, (Z.of_nat i, e)) hist).

(** The tables over global ids. *)
Record Tables := mkTables {
  eventToLinearizations : list (list (nat * Z));   (* event -> [{index, position}] *)
  eventIllegalLast : list (list nat);              (* event -> [index] *)
  allLinearizations : list (list nat)
}.

(** [arr[i].push(x)]. *)
Definition push_at {A} (arr : list (list A)) (i : nat) (x : A) : option (list (list A)) :=
  l ← arr !! i; Some (<[i := l ++ [x]]> arr).

(** The elements of one partial linearization: its ids and the table. *)
Fixpoint globalize (hist : list el) (lgid : nat) (position : Z) (lin : list linearizationStep)
    (etl : list (list (nat * Z))) : option (list nat * list (list (nat * Z))) :=
  match lin with
  | [] => Some ([], etl)
  | id :: lin =>
      e ← hist@[ls_Index id];
      etl ← push_at etl (el_Gid e) (lgid, position);
      '(gids, etl) ← globalize hist lgid (position + 1) lin etl;
      Some (el_Gid e :: gids, etl)
  end.

Fixpoint push_illegal (lgid : nat) (next : list (Z * el)) (eil : list (list nat)) : option (list (list nat)) :=
  match next with
  | [] => Some eil
  | (_, e) :: next => eil ← push_at eil (el_Gid e) lgid; push_illegal lgid next eil
  end.

Fixpoint tables_lins (hist : list el) (lins : list (list linearizationStep)) (t : Tables) : option Tables :=
  match lins with
  | [] => Some t
  | lin :: lins =>
      let lgid := length (allLinearizations t) in
      '(globalized, etl) ← globalize hist lgid 0 lin (eventToLinearizations t);
      eil ← push_illegal lgid (illegal_next (ls_Index <$> lin) hist) (eventIllegalLast t);
      tables_lins hist lins (mkTables etl eil (allLinearizations t ++ [globalized]))
  end.

Fixpoint tables_parts (parts : list partition) (t : Tables) : option Tables :=
  match parts with
  | [] => Some t
  | p :: parts => t ← tables_lins (History p) (PartialLinearizations p) t; tables_parts parts t
  end.

Definition tables (parts : list partition) : option Tables :=
  let gid := length (byGid parts) in
  tables_parts parts (mkTables (newArray gid (λ _, [])) (newArray gid (λ _, [])) []).

(** ** The left-to-right scan *)

Definition get (xPos : gmap Z num) (t : Z) : num := mjoin (xPos !! t).

Section Scan.
Context (elems : list el) (tb : Tables).

(** The points of a linearization up to a position: [n] turns of the loop. *)
Fixpoint place_points (xPos : gmap Z num) (lin : list nat) (n : nat) (points : list num) : option (list num) :=
  match n with
  | O => Some points
  | S n =>
      nextGid ← lin !! length points;
      e ← elems !! nextGid;
      let here := get xPos (start2 e) in
      let nextPos := match last points with
                     | None => here
                     | Some prev => num_max here (num_add prev (Some EPSILON))
                     end in
      place_points xPos lin n (points ++ [nextPos])
  end.

Fixpoint place_lis (xPos : gmap Z num) (lis : list (nat * Z)) (pos : num) (lps : list (list num))
    : option (num * list (list num)) :=
  match lis with
  | [] => Some (pos, lps)
  | (index, position) :: lis =>
      points ← lps !! index;
      lin ← allLinearizations tb !! index;
      points ← place_points xPos lin (Z.to_nat (position + 1) - length points) points;
      place_lis xPos lis (num_max pos (mjoin (points@[position]))) (<[index := points]> lps)
  end.

Fixpoint place_illegal (lps : list (list num)) (indices : list nat) (pos : num) : option num :=
  match indices with
  | [] => Some pos
  | index :: indices =>
      points ← lps !! index;
      place_illegal lps indices (num_max pos (num_add (mjoin (last points)) (Some EPSILON)))
  end.

(** The end of one event: text, linearization points, illegal next points. *)
Definition place_event (xPos : gmap Z num) (ev : Event) (pos : num) (lps : list (list num))
    : option (num * list (list num)) :=
  let pos := num_max pos (num_add (get xPos (ev_start ev)) (Some (ev_width ev))) in
  lis ← eventToLinearizations tb !! ev_gid ev;
  illegal ← eventIllegalLast tb !! ev_gid ev;
  last_lis ← mapM (λ index, lin ← allLinearizations tb !! index; Some (index, len lin - 1)) illegal;
  '(pos, lps) ← place_lis xPos (lis ++ last_lis) pos lps;
  pos ← place_illegal lps illegal pos;
  Some (pos, lps).

(** The [while] loop: the events that end by [ts]. *)
Fixpoint place_events (xPos : gmap Z num) (ts : Z) (events : list Event) (pos : num) (lps : list (list num))
    : option (num * list (list num) * list Event) :=
  match events with
  | [] => Some (pos, lps, [])
  | ev :: rest =>
      if ev_end ev <=? ts
      then '(pos, lps) ← place_event xPos ev pos lps; place_events xPos ts rest pos lps
      else Some (pos, lps, events)
  end.

Fixpoint scan (prev : Z) (tss : list Z) (xPos : gmap Z num) (lps : list (list num)) (events : list Event)
    : option (gmap Z num * list (list num)) :=
  match tss with
  | [] => Some (xPos, lps)
  | ts :: tss =>
      '(pos, lps, events) ← place_events xPos ts events (num_add (get xPos prev) (Some BOX_GAP)) lps;
      scan ts tss (<[ts := pos]> xPos) lps events
  end.
End Scan.

(** [xPos] and [linearizationPositions]; without time stamps there is nothing to place. *)
Definition layout (parts : list partition) (tss : list Z) : option (gmap Z num * list (list num)) :=
  tb ← tables parts;
  let lps := newArray (length (allLinearizations tb)) (λ _, []) in
  match tss with
  | [] => Some (∅, lps)
  | t0 :: tss => scan (byGid parts) tb t0 tss {[ t0 := Some 0 ]} lps (byEnd parts)
  end.
End Page.
End PorcupinePage.
