(* ===== verification/PorcupinePageLayout.v ===== *)
(** * The layout of the page

    The scan of [render] solves its constraints: it gives every time stamp a
    position, and the positions are the least that keep time stamps apart and boxes
    wide enough for their text and for every linearization point that they show. *)

From S2P Require Import Prelude PorcupineBitset Porcupine PorcupineParallel PorcupinePage.

Module PorcupinePageLayout.
Import Porcupine PorcupineParallel PorcupinePage.

Section Layout.
Context (px : Z) (textWidth : string → Z).
Context (elems : list el) (tb : Tables) (T : list Z).
Notation lins := (allLinearizations tb).
Notation EPS := (EPSILON px).
Notation GAP := (BOX_GAP px).
Notation event_of := (event_of px textWidth).

(** ** The points of a linearization, as a function of the positions *)

Definition start_of (g : nat) : Z := default 0 (start2 <$> elems !! g).

Fixpoint pts (x : Z → Z) (prev : option Z) (lin : list nat) : list Z :=
  match lin with
  | [] => []
  | g :: lin =>
      let p := match prev with None => x (start_of g) | Some q => Z.max (x (start_of g)) (q + EPS) end in
      p :: pts x (Some p) lin
  end.

Lemma pts_length x prev lin : length (pts x prev lin) = length lin.
Proof. revert prev. induction lin as [|g lin IH]; intros prev; simpl; auto. Qed.

Lemma pts_snoc x prev lin g : pts x prev (lin ++ [g]) =
  pts x prev lin ++ [match (match last (pts x prev lin) with Some q => Some q | None => prev end) with
                     | None => x (start_of g) | Some q => Z.max (x (start_of g)) (q + EPS) end].
Proof.
  revert prev. induction lin as [|h lin IH]; intros prev; [done|]. cbn [app pts]. rewrite IH.
  set (p := match prev with None => _ | Some q => _ end). f_equal. f_equal. f_equal.
  destruct (pts x (Some p) lin) as [|q qs] eqn:E; [done|]. rewrite last_cons_cons.
  by destruct (last (q :: qs)) eqn:El; [|apply last_None in El].
Qed.

Lemma pts_take x prev lin k : pts x prev (take k lin) = take k (pts x prev lin).
Proof. revert prev k. induction lin as [|g lin IH]; intros prev [|k]; simpl; [done..|]. by rewrite IH. Qed.

Lemma pts_ext x y prev lin : (∀ g, g ∈ lin → x (start_of g) = y (start_of g)) → pts x prev lin = pts y prev lin.
Proof.
  revert prev. induction lin as [|g lin IH]; intros prev H; simpl; [done|].
  rewrite (H g) by left. f_equal. apply IH. intros h Hh. apply H. by right.
Qed.

Lemma pts_mono x y lin : (∀ g, g ∈ lin → x (start_of g) ≤ y (start_of g)) → ∀ prev prev',
  match prev, prev' with Some p, Some p' => p ≤ p' | None, _ => True | _, _ => False end →
  Forall2 Z.le (pts x prev lin) (pts y prev' lin).
Proof.
  induction lin as [|g lin IH]; intros H prev prev' Hp; simpl; [done|].
  pose proof (H g ltac:(left)). constructor; [destruct prev, prev'; try done; lia|].
  apply IH; [intros h Hh; apply H; by right|]. destruct prev, prev'; try done; lia.
Qed.

(** Point [position] of linearization [index]. *)
Definition lin_of (index : nat) : list nat := default [] (lins !! index).
Definition pt (x : Z → Z) (index position : nat) : Z := default 0 (pts x None (lin_of index) !! position).

Lemma pt_ext x y index position :
  (∀ g, g ∈ take (S position) (lin_of index) → x (start_of g) = y (start_of g)) → pt x index position = pt y index position.
Proof.
  intros H. unfold pt. f_equal. rewrite <-(lookup_take_lt _ (S position)) by lia.
  rewrite <-(lookup_take_lt (pts y _ _) (S position)) by lia. rewrite <-!pts_take. by rewrite (pts_ext x y _ _ H).
Qed.

Lemma pt_mono x y index position :
  (∀ g, g ∈ take (S position) (lin_of index) → x (start_of g) ≤ y (start_of g)) → pt x index position ≤ pt y index position.
Proof.
  intros H. unfold pt. rewrite <-(lookup_take_lt _ (S position)) by lia.
  rewrite <-(lookup_take_lt (pts y _ _) (S position)) by lia. rewrite <-!pts_take.
  pose proof (pts_mono x y _ H None None I) as HF.
  destruct (pts x None (take (S position) (lin_of index)) !! position) as [p|] eqn:E.
  - destruct (Forall2_lookup_l _ _ _ _ _ HF E) as (q&->&?). done.
  - apply lookup_ge_None in E. rewrite (Forall2_length _ _ _ HF) in E. rewrite (lookup_ge_None_2 _ _ E). done.
Qed.

(** ** The constraints *)

Definition lis_of (g : nat) : list (nat * Z) := default [] (eventToLinearizations tb !! g).
Definition illegal_of (g : nat) : list nat := default [] (eventIllegalLast tb !! g).

(** What the end of an event asks of its position [B]. *)
Definition demand (x : Z → Z) (ev : Event) (B : Z) : Prop :=
  x (ev_start ev) + ev_width ev ≤ B ∧
  (∀ index position, (index, position) ∈ lis_of (ev_gid ev) → pt x index (Z.to_nat position) ≤ B) ∧
  (∀ index, index ∈ illegal_of (ev_gid ev) → pt x index (length (lin_of index) - 1) + EPS ≤ B).

(** Positions for the time stamps that satisfy all constraints. *)
Record solves (x : Z → Z) : Prop := {
  so_nonneg t : t ∈ T → 0 ≤ x t;
  so_gap t t' : t ∈ T → t' ∈ T → t < t' → x t + GAP ≤ x t';
  so_demand e : e ∈ elems → demand x (event_of e) (x (el_End e))
}.

(** What the scan relies on. *)
Definition before (g : nat) (e : el) : Prop := ∃ e', elems !! g = Some e' ∧ start2 e' < el_End e.

Record scan_input : Prop := {
  si_gid g e : elems !! g = Some e → el_Gid e = g;
  si_etl : length (eventToLinearizations tb) = length elems;
  si_eil : length (eventIllegalLast tb) = length elems;
  si_lis g e index position : elems !! g = Some e → (index, position) ∈ lis_of g →
    0 ≤ position < len (lin_of index) ∧ ∀ g', g' ∈ take (S (Z.to_nat position)) (lin_of index) → before g' e;
  si_illegal g e index : elems !! g = Some e → index ∈ illegal_of g →
    lin_of index ≠ [] ∧ ∀ g', g' ∈ lin_of index → before g' e;
  si_all index lin j g : lins !! index = Some lin → lin !! j = Some g → (index, Z.of_nat j) ∈ lis_of g ∧ is_Some (elems !! g);
  si_time e : e ∈ elems → start2 e < el_End e ∧ start2 e ∈ T ∧ el_End e ∈ T;
  si_sorted : StronglySorted Z.lt T
}.

(** ** Placing the points of one linearization *)

Definition known (xPos : gmap Z num) (t : Z) : Prop := ∃ v, xPos !! t = Some (Some v).
Definition val (xPos : gmap Z num) (t : Z) : Z := default 0 (get xPos t).

Lemma known_get xPos t : known xPos t → get xPos t = Some (val xPos t).
Proof. intros [v E]. unfold val, get. by rewrite E. Qed.

Lemma val_extend xPos t v s : known xPos s → s ≠ t → val (<[t := Some v]> xPos) s = val xPos s.
Proof. intros _ Hne. unfold val, get. by rewrite lookup_insert_ne. Qed.

Lemma val_insert xPos t v : val (<[t := Some v]> xPos) t = v.
Proof. unfold val, get. by rewrite lookup_insert_eq. Qed.

(** The elements of [lin] up to [k] exist and have their start placed. *)
Definition ready (xPos : gmap Z num) (lin : list nat) (k : nat) : Prop :=
  ∀ g, g ∈ take k lin → ∃ e, elems !! g = Some e ∧ known xPos (start2 e).

Lemma place_points_ok xPos lin n k : (k + n ≤ length lin)%nat → ready xPos lin (k + n) →
  place_points px elems xPos lin n (Some <$> pts (val xPos) None (take k lin)) =
  Some (Some <$> pts (val xPos) None (take (k + n) lin)).
Proof.
  revert k. induction n as [|n IH]; intros k Hk Hr; [by rewrite Nat.add_0_r|]. cbn [place_points].
  rewrite length_fmap, pts_length, length_take, Nat.min_l by lia.
  destruct (lookup_lt_is_Some_2 lin k) as [g Hg]; [lia|]. rewrite Hg. cbn [mbind option_bind].
  destruct (Hr g) as (e&He&Hkn).
  { apply (list_elem_of_lookup_2 _ k). by rewrite lookup_take_lt by lia. }
  rewrite He. cbn [mbind option_bind]. rewrite (known_get _ _ Hkn).
  replace (k + S n)%nat with (S k + n)%nat by lia. rewrite <-IH; [|lia|by rewrite <-Nat.add_succ_comm in Hr].
  f_equal. rewrite (take_S_r _ _ _ Hg), pts_snoc, fmap_app. f_equal. cbn [fmap list_fmap]. f_equal.
  assert (Hs : start_of g = start2 e) by (unfold start_of; by rewrite He). rewrite Hs, fmap_last.
  by destruct (last (pts (val xPos) None (take k lin))).
Qed.

(** ** Placing the end of an event *)

(** The first [k] points of a linearization. *)
Definition points_of (xPos : gmap Z num) (index k : nat) : list num := Some <$> pts (val xPos) None (take k (lin_of index)).

(** Every array of points is a beginning of the points of its linearization. *)
Definition points_at (xPos : gmap Z num) (lps : list (list num)) (index k : nat) : Prop :=
  (k ≤ length (lin_of index))%nat ∧ ready xPos (lin_of index) k ∧
  lps !! index = Some (points_of xPos index k).
Definition lps_ok (xPos : gmap Z num) (lps : list (list num)) : Prop :=
  length lps = length lins ∧ ∀ index, (index < length lins)%nat → ∃ k, points_at xPos lps index k.

(** The points of [index] up to [position] are placed. *)
Definition covered (lps : list (list num)) (index : nat) (position : Z) : Prop :=
  ∃ points, lps !! index = Some points ∧ position < len points.
Definition grows (lps lps' : list (list num)) : Prop := ∀ index position, covered lps index position → covered lps' index position.

Lemma ready_mono xPos lin k k' : (k ≤ k')%nat → ready xPos lin k' → ready xPos lin k.
Proof.
  intros Hk Hr g (i&Hi)%list_elem_of_lookup. apply Hr, (list_elem_of_lookup_2 _ i).
  apply lookup_take_Some in Hi as [? ?]. by rewrite lookup_take_lt by lia.
Qed.

Lemma points_length xPos k index : (k ≤ length (lin_of index))%nat →
  length (points_of xPos index k) = k.
Proof. intros. unfold points_of. rewrite length_fmap, pts_length, length_take. lia. Qed.

Lemma points_lookup xPos index k position : (position < k)%nat → (k ≤ length (lin_of index))%nat →
  (points_of xPos index k) !! position = Some (Some (pt (val xPos) index position)).
Proof.
  intros Hp Hk. unfold points_of. rewrite list_lookup_fmap, pts_take, lookup_take_lt by done. unfold pt.
  destruct (lookup_lt_is_Some_2 (pts (val xPos) None (lin_of index)) position) as [v ->]; [rewrite pts_length; lia|done].
Qed.

(** One more demand on a position: the result is the least bound of the demands. *)
Definition lub (p' p : Z) (P : Z → Prop) : Prop := ∀ B, p' ≤ B ↔ p ≤ B ∧ P B.

Lemma lub_trans p p' p'' P Q : lub p' p P → lub p'' p' Q → lub p'' p (λ B, P B ∧ Q B).
Proof. intros H H' B. rewrite (H' B), (H B). tauto. Qed.
Lemma lub_iff p p' P Q : (∀ B, P B ↔ Q B) → lub p' p P → lub p' p Q.
Proof. intros HPQ H B. rewrite (H B), HPQ. tauto. Qed.

Lemma lub_none p (P : Z → Prop) : (∀ B, P B) → lub p p P.
Proof. intros H B. split; [auto|tauto]. Qed.

Definition li_ok (xPos : gmap Z num) (li : nat * Z) : Prop :=
  (li.1 < length lins)%nat ∧ 0 ≤ li.2 < len (lin_of li.1) ∧ ready xPos (lin_of li.1) (S (Z.to_nat (li.2))).

(** One turn of the loop over the linearizations of an event. *)
Lemma place_li_ok xPos index position lps : li_ok xPos (index, position) → lps_ok xPos lps →
  ∃ points k lin, lps !! index = Some points ∧ lins !! index = Some lin ∧ position < Z.of_nat k ∧
    place_points px elems xPos lin (Z.to_nat (position + 1) - length points) points =
      Some (points_of xPos index k) ∧
    (k ≤ length (lin_of index))%nat ∧ (length points ≤ k)%nat ∧ ready xPos (lin_of index) k.
Proof.
  intros (Hi&Hp&Hr) [Hlen Hok]. simpl in *. destruct (Hok index Hi) as (k&Hk&Hrk&E).
  destruct (lookup_lt_is_Some_2 lins index Hi) as [lin Hlin].
  assert (Hl : lin_of index = lin) by (unfold lin_of; by rewrite Hlin). unfold len in Hp.
  pose proof (points_length xPos k index Hk) as Hkl.
  eexists _, (Nat.max k (S (Z.to_nat position))), lin. split; [exact E|]. split; [done|]. split; [lia|]. rewrite Hkl.
  assert (Hr' : ready xPos (lin_of index) (Nat.max k (S (Z.to_nat position)))) by (destruct (Nat.max_spec k (S (Z.to_nat position))) as [[_ ->]|[_ ->]]; done).
  split; [|split_and!; [lia|lia|done]]. rewrite Hl in *.
  replace (Nat.max k (S (Z.to_nat position))) with (k + (Z.to_nat (position + 1) - k))%nat in * by lia.
  unfold points_of. rewrite Hl. by apply place_points_ok; [lia|].
Qed.

Lemma place_lis_ok xPos lis p lps : Forall (li_ok xPos) lis → lps_ok xPos lps →
  ∃ p' lps', place_lis px elems tb xPos lis (Some p) lps = Some (Some p', lps') ∧ lps_ok xPos lps' ∧ grows lps lps' ∧
    Forall (λ li, covered lps' li.1 li.2) lis ∧
    lub p' p (λ B, ∀ index position, (index, position) ∈ lis → pt (val xPos) index (Z.to_nat position) ≤ B).
Proof.
  revert p lps. induction lis as [|[index position] lis IH]; intros p lps Hlis Hok; simpl.
  { eexists p, lps. split_and!; [done|done|by intros ? ?|done|]. intros B. set_solver. }
  apply Forall_cons in Hlis as [Hli Hlis]. pose proof Hok as [Hlen Hall].
  destruct (place_li_ok xPos index position lps Hli Hok) as (points&k&lin&Hpts&Hlin&Hpk&E&Hk&Hgrow&Hr).
  rewrite Hpts, Hlin.
  cbn [mbind option_bind]. rewrite E. cbn [mbind option_bind]. destruct Hli as (Hi&Hp&_). simpl in *.
  assert (Hget : mjoin ((points_of xPos index k)@[position]) = Some (pt (val xPos) index (Z.to_nat position))).
  { replace position with (Z.of_nat (Z.to_nat position)) at 1 by lia. rewrite idx_nat. rewrite points_lookup by lia. done. }
  rewrite Hget. cbn [num_max mbind option_bind].
  set (pts' := points_of xPos index k).
  assert (Hok' : lps_ok xPos (<[index := pts']> lps)).
  { split; [by rewrite length_insert|]. intros j Hj. destruct (decide (index = j)) as [<-|Hne].
    - exists k. split_and!; [done..|]. apply list_lookup_insert_eq. lia.
    - destruct (Hall j Hj) as (kj&?&?&?). exists kj. split_and!; [done..|]. by rewrite list_lookup_insert_ne. }
  assert (Hcov : covered (<[index := pts']> lps) index position).
  { exists pts'. split; [apply list_lookup_insert_eq; lia|]. unfold pts', len. rewrite points_length by lia. lia. }
  assert (Hg : grows lps (<[index := pts']> lps)).
  { intros j q (ps&Hps&Hq). destruct (decide (index = j)) as [<-|Hne].
    - simplify_eq. exists pts'. split; [apply list_lookup_insert_eq; lia|].
      unfold pts', len. rewrite points_length by lia. unfold len in Hq. lia.
    - exists ps. by rewrite list_lookup_insert_ne. }
  destruct (IH (Z.max p (pt (val xPos) index (Z.to_nat position))) _ Hlis Hok') as (p'&lps'&->&?&Hg'&?&Hlub).
  exists p', lps'. split_and!; [done|done|by intros ???; apply Hg', Hg|by constructor; [apply Hg'|]|].
  intros B. rewrite (Hlub B). split.
  - intros [? Hrest]. split; [lia|]. intros i q [[=->->]|Hin]%elem_of_cons; [lia|eauto].
  - intros [? Hrest]. split; [|by intros; apply Hrest; right]. pose proof (Hrest index position ltac:(left)). lia.
Qed.

Lemma place_illegal_ok xPos lps indices p : lps_ok xPos lps →
  Forall (λ index, (index < length lins)%nat ∧ lin_of index ≠ [] ∧ covered lps index (len (lin_of index) - 1)) indices →
  ∃ p', place_illegal px lps indices (Some p) = Some (Some p') ∧
    lub p' p (λ B, ∀ index, index ∈ indices → pt (val xPos) index (length (lin_of index) - 1) + EPS ≤ B).
Proof.
  intros [Hlen Hall]. revert p. induction indices as [|index indices IH]; intros p Hin; simpl.
  { exists p. split; [done|]. intros B. set_solver. }
  apply Forall_cons in Hin as [(Hi&Hne&points&Hp&Hc) Hin]. destruct (Hall index Hi) as (k&Hk&_&E). rewrite Hp in E. injection E as ->.
  rewrite Hp. cbn [mbind option_bind]. unfold len in Hc. rewrite points_length in Hc by done.
  assert (Hlast : last (points_of xPos index k) = Some (Some (pt (val xPos) index (length (lin_of index) - 1)))).
  { rewrite last_lookup, points_length by done. assert (length (lin_of index) ≠ 0%nat) by (by destruct (lin_of index)).
    rewrite points_lookup by lia. do 3 f_equal. lia. }
  rewrite Hlast. cbn [mjoin option_join num_add num_max mbind option_bind].
  destruct (IH (Z.max p (pt (val xPos) index (length (lin_of index) - 1) + EPS)) Hin) as (p'&->&Hlub).
  exists p'. split; [done|]. intros B. rewrite (Hlub B). split.
  - intros [? Hrest]. split; [lia|]. intros i [->|?]%elem_of_cons; [lia|auto].
  - intros [? Hrest]. split; [|by intros; apply Hrest; right]. pose proof (Hrest index ltac:(left)). lia.
Qed.

Context (Hpx : 0 ≤ px) (Hin : scan_input).

(** All that the end of [e] needs has been placed. *)
Definition enough (xPos : gmap Z num) (e : el) : Prop := ∀ e', e' ∈ elems → start2 e' < el_End e → known xPos (start2 e').

Lemma enough_ready xPos e lin k : enough xPos e → (∀ g, g ∈ take k lin → before g e) → ready xPos lin k.
Proof using.
  intros He Hb g Hg. destruct (Hb g Hg) as (e'&Hl&Hlt). exists e'. split; [done|]. apply He; [|done]. by eapply list_elem_of_lookup_2.
Qed.

Lemma lin_of_lt index position : 0 ≤ position < len (lin_of index) → (index < length lins)%nat.
Proof using. intros H. unfold lin_of in H. destruct (lins !! index) eqn:E; [by apply lookup_lt_Some in E|]. simpl in H. unfold len in H. simpl in H. lia. Qed.

(** What the end of [e] has placed. *)
Definition event_covered (lps : list (list num)) (g : nat) : Prop :=
  Forall (λ li, covered lps li.1 li.2) (lis_of g).

Lemma place_event_ok xPos g e p lps : elems !! g = Some e → enough xPos e → lps_ok xPos lps →
  ∃ p' lps', place_event px elems tb xPos (event_of e) (Some p) lps = Some (Some p', lps') ∧ lps_ok xPos lps' ∧
    grows lps lps' ∧ event_covered lps' g ∧ lub p' p (demand (val xPos) (event_of e)).
Proof using All.
  intros Hg He Hok. pose proof (si_gid Hin g e Hg) as Hgid. pose proof (lookup_lt_Some _ _ _ Hg) as Hlt.
  destruct (lookup_lt_is_Some_2 (eventToLinearizations tb) g) as [lis Hlis]; [by rewrite (si_etl Hin)|].
  destruct (lookup_lt_is_Some_2 (eventIllegalLast tb) g) as [ill Hill]; [by rewrite (si_eil Hin)|].
  assert (El : lis_of g = lis) by (unfold lis_of; by rewrite Hlis). assert (Ei : illegal_of g = ill) by (unfold illegal_of; by rewrite Hill).
  assert (Hst : start2 e < el_End e) by apply (si_time Hin e (list_elem_of_lookup_2 _ _ _ Hg)).
  unfold place_event. cbn [ev_start ev_width ev_gid event_of]. rewrite (known_get xPos (start2 e)) by (apply He; [by eapply list_elem_of_lookup_2|done]).
  cbn [num_add num_max mbind option_bind]. rewrite Hgid, Hlis, Hill. cbn [mbind option_bind].
  assert (Hlo : Forall (li_ok xPos) lis).
  { apply Forall_forall. intros [index position] Hi. rewrite <-El in Hi. destruct (si_lis Hin g e index position Hg Hi) as [Hp Hb].
    split; [by eapply lin_of_lt|]. split; [done|]. by eapply enough_ready. }
  assert (Hio : Forall (λ index, (index < length lins)%nat ∧ lin_of index ≠ [] ∧ ready xPos (lin_of index) (length (lin_of index))) ill).
  { apply Forall_forall. intros index Hi. rewrite <-Ei in Hi. destruct (si_illegal Hin g e index Hg Hi) as [Hne Hb].
    split; [apply (lin_of_lt index 0); destruct (lin_of index); [done|rewrite len_cons; pose proof (len_nonneg l); lia]|]. split; [done|].
    eapply enough_ready; [done|]. by rewrite take_ge by lia. }
  assert (Hm : mapM (λ index, lin ← lins !! index; Some (index, len lin - 1)) ill = Some ((λ index, (index, len (lin_of index) - 1)) <$> ill)).
  { clear -Hio. induction Hio as [|index ill (Hi&_) Hio IH]; [done|]. cbn [mapM]. destruct (lookup_lt_is_Some_2 lins index Hi) as [lin E].
    rewrite fmap_cons, E. cbn [mbind option_bind]. rewrite IH. cbn [mbind option_bind mret option_ret]. unfold lin_of at 2. by rewrite E. }
  rewrite Hm. cbn [mbind option_bind].
  assert (Hlo' : Forall (li_ok xPos) (lis ++ ((λ index, (index, len (lin_of index) - 1)) <$> ill))).
  { apply Forall_app. split; [done|]. apply Forall_fmap. eapply Forall_impl; [exact Hio|]. intros index (Hi&Hne&Hr).
    assert (0 < len (lin_of index)) by (destruct (lin_of index); [done|rewrite len_cons; pose proof (len_nonneg l); lia]).
    split; [done|]. split; [simpl; lia|]. simpl. eapply ready_mono; [|done]. unfold len in *. lia. }
  destruct (place_lis_ok xPos _ (p `max` (val xPos (start2 e) + box_width px textWidth e)) lps Hlo' Hok) as (p1&lps1&->&Hok1&Hgr&Hcov&Hlub1).
  apply Forall_app in Hcov as [Hcov1 Hcov2]. cbn [mbind option_bind].
  destruct (place_illegal_ok xPos lps1 ill p1 Hok1) as (p2&->&Hlub2).
  { apply Forall_forall. intros index Hi. rewrite Forall_forall in Hio. destruct (Hio index Hi) as (?&?&_). split_and!; [done..|].
    rewrite Forall_fmap, Forall_forall in Hcov2. apply (Hcov2 index Hi). }
  cbn [mbind option_bind]. exists p2, lps1. split_and!; [done..|unfold event_covered; by rewrite El|].
  eapply lub_iff; [|eapply lub_trans; [eapply lub_trans; [|exact Hlub1]|exact Hlub2]; apply (lub_iff p _ (λ B, val xPos (start2 e) + box_width px textWidth e ≤ B)); [done|intros B; lia]].
  intros B. unfold demand. cbn [ev_start ev_width ev_gid event_of]. rewrite Hgid, El, Ei. split.
  - intros [[? H1] H2]. split_and!; [done| |done]. intros. apply H1. apply elem_of_app. by left.
  - intros (?&H1&H2). split_and!; [done| |done]. intros index position [Hi|Hi]%elem_of_app; [auto|].
    apply list_elem_of_fmap in Hi as (i&[= -> ->]&Hi). specialize (H2 i Hi). unfold EPSILON in H2.
    replace (Z.to_nat (len (lin_of i) - 1)) with (length (lin_of i) - 1)%nat by (unfold len; lia). lia.
Qed.

(** ** The scan *)

Definition by_end (a b : el) : Prop := el_End a ≤ el_End b.

Lemma lub_bounds p p' P : lub p' p P → p ≤ p' ∧ P p'.
Proof using. intros H. apply H. done. Qed.

Lemma place_events_ok xPos ts es p lps :
  (∀ e, e ∈ es → e ∈ elems) → StronglySorted by_end es → (∀ e, e ∈ es → el_End e ≤ ts → enough xPos e) → lps_ok xPos lps →
  ∃ p' lps' es1 es2, es = es1 ++ es2 ∧
    place_events px elems tb xPos ts (event_of <$> es) (Some p) lps = Some (Some p', lps', event_of <$> es2) ∧
    (∀ e, e ∈ es1 → el_End e ≤ ts) ∧ (∀ e, e ∈ es2 → ts < el_End e) ∧ lps_ok xPos lps' ∧ grows lps lps' ∧
    (∀ e, e ∈ es1 → event_covered lps' (el_Gid e)) ∧
    lub p' p (λ B, ∀ e, e ∈ es1 → demand (val xPos) (event_of e) B).
Proof using All.
  revert p lps. induction es as [|e es IH]; intros p lps Hsub Hsort Hen Hok.
  { exists p, lps, [], []. do 4 (split; [done || by intros ? ?%elem_of_nil|]). split; [done|]. split; [by intros ???|].
    split; [by intros ? ?%elem_of_nil|]. by apply lub_none; intros ?? ?%elem_of_nil. }
  rewrite fmap_cons. cbn [place_events ev_end event_of]. apply StronglySorted_inv in Hsort as [Hsort Hmin].
  destruct (Z.leb_spec (el_End e) ts) as [Hle|Hgt].
  - destruct (list_elem_of_lookup_1 elems e) as [g Hg]; [apply Hsub; left|]. pose proof (si_gid Hin g e Hg) as Hgid.
    destruct (place_event_ok xPos g e p lps Hg) as (p1&lps1&->&Hok1&Hgr1&Hcov1&Hlub1); [by apply Hen; [left|]|done|]. cbn [mbind option_bind].
    destruct (IH p1 lps1) as (p'&lps'&es1&es2&->&->&H1&H2&Hok'&Hgr'&Hcov'&Hlub'); [by intros; apply Hsub; right|done|by intros; apply Hen; [right|]|done|].
    exists p', lps', (e :: es1), es2. split_and!; [done|done| |done|done|by intros ???; apply Hgr', Hgr1| |].
    + intros x [->|?]%elem_of_cons; auto.
    + intros x [->|?]%elem_of_cons; [|by auto]. rewrite Hgid. unfold event_covered. eapply Forall_impl; [exact Hcov1|]. intros li. apply Hgr'.
    + eapply lub_iff; [|by eapply lub_trans]. intros B. simpl. split; [intros [? ?] x [->|?]%elem_of_cons; auto|].
      intros H. split; [apply H; left|intros; apply H; by right].
  - exists p, lps, [], (e :: es). do 3 (split; [done || by intros ? ?%elem_of_nil|]).
    split; [|split; [done|split; [by intros ???|split; [by intros ? ?%elem_of_nil|by apply lub_none; intros ?? ?%elem_of_nil]]]].
    intros x [->|Hx]%elem_of_cons; [done|]. rewrite Forall_forall in Hmin. specialize (Hmin x Hx). unfold by_end in Hmin. lia.
Qed.

Lemma demand_ext x y e B g : elems !! g = Some e →
  (∀ e', e' ∈ elems → start2 e' < el_End e → x (start2 e') = y (start2 e')) →
  demand x (event_of e) B → demand y (event_of e) B.
Proof using All.
  intros Hg Hxy (H1&H2&H3). pose proof (si_gid Hin g e Hg) as Hgid. pose proof (list_elem_of_lookup_2 _ _ _ Hg) as He.
  assert (Hb : ∀ g', before g' e → x (start_of g') = y (start_of g')).
  { intros g' (e'&He'&Hlt). unfold start_of. rewrite He'. simpl. apply Hxy; [by eapply list_elem_of_lookup_2|done]. }
  unfold demand in *. cbn [ev_start ev_width ev_gid event_of] in *. rewrite Hgid in *. split_and!.
  - rewrite <-Hxy; [done..|]. apply (si_time Hin e He).
  - intros index position Hi. rewrite <-(pt_ext x y); [by apply H2|]. intros g' Hg'. apply Hb. by apply (si_lis Hin g e index position Hg Hi).
  - intros index Hi. rewrite <-(pt_ext x y); [by apply H3|]. intros g' Hg'. apply Hb. apply (si_illegal Hin g e index Hg Hi).
    apply elem_of_take in Hg' as (i&Hi'&_). by eapply list_elem_of_lookup_2.
Qed.

Lemma demand_mono x y e B g : elems !! g = Some e →
  (∀ e', e' ∈ elems → start2 e' < el_End e → x (start2 e') ≤ y (start2 e')) →
  demand y (event_of e) B → demand x (event_of e) B.
Proof using All.
  intros Hg Hxy (H1&H2&H3). pose proof (si_gid Hin g e Hg) as Hgid. pose proof (list_elem_of_lookup_2 _ _ _ Hg) as He.
  assert (Hb : ∀ g', before g' e → x (start_of g') ≤ y (start_of g')).
  { intros g' (e'&He'&Hlt). unfold start_of. rewrite He'. simpl. apply Hxy; [by eapply list_elem_of_lookup_2|done]. }
  unfold demand in *. cbn [ev_start ev_width ev_gid event_of] in *. rewrite Hgid in *. split_and!.
  - pose proof (Hxy e He ltac:(apply (si_time Hin e He))). lia.
  - intros index position Hi. etrans; [|by apply (H2 index position)]. apply pt_mono. intros g' Hg'. apply Hb. by apply (si_lis Hin g e index position Hg Hi).
  - intros index Hi. etrans; [|by apply (H3 index)]. apply Z.add_le_mono_r, pt_mono. intros g' Hg'. apply Hb. apply (si_illegal Hin g e index Hg Hi).
    apply elem_of_take in Hg' as (i&Hi'&_). by eapply list_elem_of_lookup_2.
Qed.

(** The scan has passed the time stamps [dts]; [es] are the elements still to end. *)
Record scanned (dts : list Z) (xPos : gmap Z num) (lps : list (list num)) (es : list el) : Prop := {
  sc_known t : known xPos t ↔ t ∈ dts;
  sc_lps : lps_ok xPos lps;
  sc_nonneg t : t ∈ dts → 0 ≤ val xPos t;
  sc_gap t t' : t ∈ dts → t' ∈ dts → t < t' → val xPos t + GAP ≤ val xPos t';
  sc_done e : e ∈ elems → e ∈ es ∨ el_End e ∈ dts ∧
    demand (val xPos) (event_of e) (val xPos (el_End e)) ∧ event_covered lps (el_Gid e);
  sc_least y t : solves y → t ∈ dts → val xPos t ≤ y t;
  sc_sub e : e ∈ es → e ∈ elems;
  sc_sort : StronglySorted by_end es;
  sc_rest e t : e ∈ es → t ∈ dts → t < el_End e
}.

Lemma val_insert_ne xPos t v s : s ≠ t → val (<[t := Some v]> xPos) s = val xPos s.
Proof using. intros Hne. unfold val, get. by rewrite lookup_insert_ne. Qed.

Lemma known_insert xPos t v s : known xPos s → known (<[t := Some v]> xPos) s.
Proof using. intros [w E]. destruct (decide (s = t)) as [->|Hne]; [exists v|exists w]; by rewrite ?lookup_insert_eq, ?lookup_insert_ne. Qed.

(** A new time stamp leaves the points that are placed. *)
Lemma lps_ok_insert xPos t v lps : ¬ known xPos t → lps_ok xPos lps → lps_ok (<[t := Some v]> xPos) lps.
Proof using.
  intros Ht [Hlen Hall]. split; [done|]. intros index Hi. destruct (Hall index Hi) as (k&Hk&Hr&E). exists k. split_and!; [done| |].
  - intros g Hg. destruct (Hr g Hg) as (e&He&?). exists e. split; [done|]. by apply known_insert.
  - rewrite E. unfold points_of. do 2 f_equal. apply pts_ext. intros g Hg. destruct (Hr g Hg) as (e&He&Hkn).
    unfold start_of. rewrite He. simpl. rewrite val_insert_ne; [done|]. by intros <-.
Qed.

Lemma sorted_app_lt (dts : list Z) ts rest t : StronglySorted Z.lt (dts ++ ts :: rest) → t ∈ dts → t < ts.
Proof using. intros Hs Ht. eapply StronglySorted_app_1_elem_of; [done..|]. by left. Qed.

Lemma sorted_app_gt (dts : list Z) ts rest t : StronglySorted Z.lt (dts ++ ts :: rest) → t ∈ rest → ts < t.
Proof using.
  intros Hs Ht. apply StronglySorted_app_1_r, StronglySorted_inv in Hs as [_ Hall]. rewrite Forall_forall in Hall. by apply Hall.
Qed.

(** One turn of the scan. *)
Lemma scan_turn dts prev ts rest xPos lps es :
  T = (dts ++ [prev]) ++ ts :: rest → scanned (dts ++ [prev]) xPos lps es →
  ∃ p lps' es', place_events px elems tb xPos ts (event_of <$> es) (num_add (get xPos prev) (Some GAP)) lps =
      Some (Some p, lps', event_of <$> es') ∧
    scanned ((dts ++ [prev]) ++ [ts]) (<[ts := Some p]> xPos) lps' es'.
Proof using All.
  intros HT Hsc. pose proof Hsc as [Hkn Hlps Hnn Hgap Hdone Hleast Hsub Hsort Hrest].
  assert (Hprev : prev ∈ dts ++ [prev]) by (apply elem_of_app; right; by left).
  pose proof (si_sorted Hin) as HS. rewrite HT in HS.
  assert (Hlt : ∀ t, t ∈ dts ++ [prev] → t < ts) by (intros; by eapply sorted_app_lt).
  assert (Hold : ∀ t, t ∈ T → t < ts → t ∈ dts ++ [prev]).
  { intros t Ht Htl. rewrite HT in Ht. apply elem_of_app in Ht as [|[->|Ht]%elem_of_cons]; [done|lia|].
    pose proof (sorted_app_gt _ _ _ _ HS Ht). lia. }
  assert (Hle_prev : ∀ t, t ∈ dts ++ [prev] → t ≤ prev).
  { intros t [Ht|Ht%list_elem_of_singleton]%elem_of_app; [|lia]. rewrite <-app_assoc in HS. simpl in HS.
    pose proof (sorted_app_lt _ _ _ _ HS Ht). lia. }
  rewrite (known_get xPos prev) by (by apply Hkn). cbn [num_add mbind option_bind].
  assert (Hen : ∀ e, e ∈ es → el_End e ≤ ts → enough xPos e).
  { intros e He Hle e' He' Hst. apply Hkn, Hold; [by apply (si_time Hin e' He')|lia]. }
  destruct (place_events_ok xPos ts es (val xPos prev + GAP) lps Hsub Hsort Hen Hlps) as (p&lps'&es1&es2&->&->&H1&H2&Hok'&Hgr&Hcov&Hlub).
  exists p, lps', es2. split; [done|]. destruct (lub_bounds _ _ _ Hlub) as [Hpp Hpd].
  assert (Hnk : ¬ known xPos ts) by (intros Hk%Hkn; specialize (Hlt ts Hk); lia).
  assert (Hend : ∀ e, e ∈ es1 → el_End e = ts).
  { intros e He. specialize (H1 e He). destruct (Z.lt_ge_cases (el_End e) ts) as [Hl|]; [|lia]. exfalso.
    assert (Hee : e ∈ elems) by (apply Hsub; apply elem_of_app; by left).
    pose proof (Hold _ (proj2 (proj2 (si_time Hin e Hee))) Hl) as Hd.
    pose proof (Hrest e (el_End e) ltac:(apply elem_of_app; by left) Hd). lia. }
  assert (Hval : ∀ t, t ∈ dts ++ [prev] → val (<[ts := Some p]> xPos) t = val xPos t).
  { intros t Ht. apply val_insert_ne. specialize (Hlt t Ht). lia. }
  assert (Hval' : ∀ e e', el_End e ≤ ts → e' ∈ elems → start2 e' < el_End e → val xPos (start2 e') = val (<[ts := Some p]> xPos) (start2 e')).
  { intros e e' Hle He' Hst. rewrite Hval; [done|]. apply Hold; [by apply (si_time Hin e' He')|lia]. }
  assert (HG : 0 ≤ GAP) by (unfold BOX_GAP; lia).
  split.
  - intros t. rewrite elem_of_app, list_elem_of_singleton, <-Hkn. destruct (decide (t = ts)) as [->|Hne].
    + split; [auto|]. intros _. exists p. apply lookup_insert_eq.
    + unfold known. rewrite lookup_insert_ne by done. tauto.
  - by apply lps_ok_insert.
  - intros t [Ht| ->%list_elem_of_singleton]%elem_of_app; [rewrite Hval by done; auto|]. rewrite val_insert. specialize (Hnn prev Hprev). lia.
  - intros t t' [Ht| ->%list_elem_of_singleton]%elem_of_app [Ht'| ->%list_elem_of_singleton]%elem_of_app Htt.
    + rewrite !Hval by done. auto.
    + rewrite Hval, val_insert by done. destruct (decide (t = prev)) as [->|Hne]; [done|].
      pose proof (Hgap t prev Ht Hprev ltac:(specialize (Hle_prev t Ht); lia)). lia.
    + specialize (Hlt t' Ht'). lia.
    + lia.
  - intros e He. destruct (Hdone e He) as [[He1|He2]%elem_of_app|(Hd&Hdem&Hc)]; [right|by left|right].
    + split; [apply elem_of_app; right; rewrite (Hend e He1); by left|]. split; [|by apply Hcov].
      rewrite (Hend e He1), val_insert. destruct (list_elem_of_lookup_1 _ _ He) as [g Hg].
      eapply (demand_ext (val xPos)); [done| |by apply Hpd]. intros e'. apply Hval'. by apply H1.
    + split; [apply elem_of_app; by left|]. rewrite Hval by done. split; [|by eapply Forall_impl; [exact Hc|]; intros li; apply Hgr].
      destruct (list_elem_of_lookup_1 _ _ He) as [g Hg]. eapply (demand_ext (val xPos)); [done| |done]. intros e'. apply Hval'.
      specialize (Hlt _ Hd). lia.
  - intros y t Hy [Ht| ->%list_elem_of_singleton]%elem_of_app; [rewrite Hval by done; auto|]. rewrite val_insert. apply (Hlub (y ts)). split.
    + pose proof (Hleast y prev Hy Hprev). pose proof (so_gap y Hy prev ts ltac:(rewrite HT; apply elem_of_app; by left) ltac:(rewrite HT; apply elem_of_app; right; by left) (Hlt prev Hprev)). lia.
    + intros e He. assert (Hee : e ∈ elems) by (apply Hsub, elem_of_app; by left). destruct (list_elem_of_lookup_1 _ _ Hee) as [g Hg].
      eapply (demand_mono _ y); [done| |rewrite <-(Hend e He); by apply (so_demand y Hy)].
      intros e' He' Hst. apply Hleast; [done|]. apply Hold; [by apply (si_time Hin e' He')|rewrite (Hend e He) in Hst; lia].
  - intros e He. apply Hsub, elem_of_app. by right.
  - by eapply StronglySorted_app_1_r.
  - intros e t He [Ht| ->%list_elem_of_singleton]%elem_of_app; [|by apply H2]. apply Hrest; [apply elem_of_app; by right|done].
Qed.

Lemma scan_rest rest dts prev xPos lps es : T = (dts ++ [prev]) ++ rest → scanned (dts ++ [prev]) xPos lps es →
  ∃ xPos' lps' es', scan px elems tb prev rest xPos lps (event_of <$> es) = Some (xPos', lps') ∧ scanned T xPos' lps' es'.
Proof using All.
  revert dts prev xPos lps es. induction rest as [|ts rest IH]; intros dts prev xPos lps es HT Hsc.
  { exists xPos, lps, es. split; [done|]. by rewrite HT, app_nil_r. }
  destruct (scan_turn dts prev ts rest xPos lps es HT Hsc) as (p&lps1&es1&E&Hsc1). cbn [scan]. rewrite E. cbn [mbind option_bind].
  apply (IH (dts ++ [prev])); [|done]. by rewrite HT, <-!app_assoc.
Qed.

Lemma scanned_start t0 tss es : T = t0 :: tss → es ≡ₚ elems → StronglySorted by_end es →
  scanned [t0] {[ t0 := Some 0 ]} (newArray (length lins) (λ _, [])) es.
Proof using All.
  intros HT Hes Hsort.
  assert (Hv : val {[ t0 := Some 0 ]} t0 = 0) by (unfold val, get; by rewrite lookup_singleton_eq).
  assert (Hmin : ∀ t, t ∈ T → t0 ≤ t).
  { pose proof (si_sorted Hin) as HS. rewrite HT in *. apply StronglySorted_inv in HS as [_ Hall]. rewrite Forall_forall in Hall.
    intros t [->|Ht]%elem_of_cons; [lia|]. specialize (Hall t Ht). lia. }
  split.
  - intros t. rewrite list_elem_of_singleton. unfold known. destruct (decide (t = t0)) as [->|Hne].
    + rewrite lookup_singleton_eq. split; [done|]. eauto.
    + rewrite lookup_singleton_ne by done. split; [by intros [??]|done].
  - split; [unfold newArray; by rewrite length_fmap, length_seq|]. intros index Hi. exists 0%nat. split_and!; [lia|by intros g ?%elem_of_nil|].
    unfold newArray. rewrite list_lookup_fmap, lookup_seq_lt by done. done.
  - intros t ->%list_elem_of_singleton. by rewrite Hv.
  - intros t t' ->%list_elem_of_singleton ->%list_elem_of_singleton. lia.
  - intros e He. left. by rewrite Hes.
  - intros y t Hy ->%list_elem_of_singleton. rewrite Hv. apply (so_nonneg y Hy). rewrite HT. by left.
  - intros e. by rewrite Hes.
  - done.
  - intros e t He ->%list_elem_of_singleton. rewrite Hes in He. destruct (si_time Hin e He) as (?&Hs&_). specialize (Hmin _ Hs). lia.
Qed.

(** The scan solves the constraints with the least positions, and places every point. *)
Lemma scan_correct t0 tss es : T = t0 :: tss → es ≡ₚ elems → StronglySorted by_end es →
  ∃ xPos lps, scan px elems tb t0 tss {[ t0 := Some 0 ]} (newArray (length lins) (λ _, [])) (event_of <$> es) = Some (xPos, lps) ∧
    (∀ t, t ∈ T → known xPos t) ∧ solves (val xPos) ∧ (∀ y t, solves y → t ∈ T → val xPos t ≤ y t) ∧
    length lps = length lins ∧ ∀ index, (index < length lins)%nat → lps !! index = Some (Some <$> pts (val xPos) None (lin_of index)).
Proof using All.
  intros HT Hes Hsort. destruct (scan_rest tss [] t0 {[ t0 := Some 0 ]} (newArray (length lins) (λ _, [])) es) as (xPos&lps&es'&E&Hsc);
    [by rewrite HT|by eapply scanned_start|].
  destruct Hsc as [Hkn [Hlen Hlps] Hnn Hgap Hdone Hleast Hsub Hsort' Hrest].
  assert (Hd : ∀ e, e ∈ elems → demand (val xPos) (event_of e) (val xPos (el_End e)) ∧ event_covered lps (el_Gid e)).
  { intros e He. destruct (Hdone e He) as [He'|(_&?)]; [|done]. pose proof (Hrest e (el_End e) He' (proj2 (proj2 (si_time Hin e He)))). lia. }
  exists xPos, lps. split; [done|]. split; [intros; by apply Hkn|]. split; [split; [done..|]; intros; by apply Hd|]. split; [done|]. split; [done|].
  intros index Hi. destruct (Hlps index Hi) as (k&Hk&_&El). rewrite El. unfold points_of. do 2 f_equal. f_equal. apply take_ge.
  destruct (decide (length (lin_of index) ≤ k)%nat) as [|Hlt]; [done|]. exfalso.
  destruct (lookup_lt_is_Some_2 lins index Hi) as [lin Hlin]. assert (Hl : lin_of index = lin) by (unfold lin_of; by rewrite Hlin).
  rewrite Hl in *. destruct (lookup_lt_is_Some_2 lin k) as [g Hg]; [lia|]. destruct (si_all Hin index lin k g Hlin Hg) as [Hli [e He]].
  destruct (Hd e (list_elem_of_lookup_2 _ _ _ He)) as [_ Hc]. rewrite (si_gid Hin g e He) in Hc. unfold event_covered in Hc.
  rewrite Forall_forall in Hc. destruct (Hc _ Hli) as (points&Hp&Hlt'). simpl in Hp, Hlt'. rewrite El in Hp. injection Hp as <-.
  unfold len in Hlt'. rewrite points_length in Hlt' by (rewrite Hl; lia). lia.
Qed.
End Layout.
End PorcupinePageLayout.
