(* ===== verification/PorcupinePagePrep.v ===== *)
(** * The data of the page, prepared

    The time stamps, tweaked ends and tables of [render]: tweaking keeps the order
    of calls and returns and makes it strict, and the tables say which
    linearizations each element takes part in, so that the scan's input is what
    the scan needs. *)

From S2P Require Import Prelude PorcupineBitset Porcupine PorcupineParallel PorcupinePage PorcupinePageLayout.

Module PorcupinePagePrep.
Import Porcupine PorcupineParallel PorcupinePage PorcupinePageLayout.

(** ** Sets and sorting *)

Lemma elem_of_set_add t s x : x ∈ set_add t s ↔ x = t ∨ x ∈ s.
Proof.
  unfold set_add. case_bool_decide; [split; [auto|by intros [->|]]|]. rewrite elem_of_app, list_elem_of_singleton. tauto.
Qed.
Lemma NoDup_set_add t s : NoDup s → NoDup (set_add t s).
Proof.
  intros H. unfold set_add. case_bool_decide; [done|]. apply NoDup_app. split_and!; [done| |apply NoDup_singleton].
  intros x Hx ->%list_elem_of_singleton. done.
Qed.

Lemma sort_numbers_elem l x : x ∈ sort_numbers l ↔ x ∈ l.
Proof. unfold sort_numbers. by rewrite merge_sort_Permutation. Qed.

Lemma sort_numbers_sorted l : NoDup l → StronglySorted Z.lt (sort_numbers l).
Proof.
  intros Hnd. assert (Hnd' : NoDup (sort_numbers l)) by (unfold sort_numbers; by rewrite merge_sort_Permutation).
  assert (Hs : StronglySorted Z.le (sort_numbers l)) by (apply (StronglySorted_merge_sort Z.le)).
  induction Hs as [|x l' Hs IH Hall]; constructor; [apply IH; by apply NoDup_cons_1_2 in Hnd'|].
  apply NoDup_cons in Hnd' as [Hn _]. rewrite Forall_forall in *. intros y Hy. specialize (Hall y Hy). destruct (decide (x = y)) as [->|]; [done|lia].
Qed.

(** The next time stamp is the least later one. *)
Lemma nextTs_spec l t : StronglySorted Z.lt l → t ∈ l →
  match nextTs l !! t with
  | Some n => t < n ∧ n ∈ l ∧ ∀ t', t' ∈ l → t < t' → n ≤ t'
  | None => ∀ t', t' ∈ l → t' ≤ t
  end.
Proof.
  induction l as [|a l IH]; intros Hs Ht; [by apply elem_of_nil in Ht|].
  apply StronglySorted_inv in Hs as [Hs Hall]. rewrite Forall_forall in Hall. destruct l as [|b l].
  { apply list_elem_of_singleton in Ht as ->. cbn [nextTs]. rewrite lookup_empty. intros t' ->%list_elem_of_singleton. lia. }
  change (nextTs (a :: b :: l)) with (<[a := b]> (nextTs (b :: l))). destruct (decide (t = a)) as [->|Hne].
  - rewrite lookup_insert_eq. split; [apply Hall; left|]. split; [right; left|]. intros t' [->|[->|Ht']%elem_of_cons]%elem_of_cons Hlt; [lia|lia|].
    apply StronglySorted_inv in Hs as [_ Hb]. rewrite Forall_forall in Hb. specialize (Hb t' Ht'). lia.
  - rewrite lookup_insert_ne by done. apply elem_of_cons in Ht as [|Ht]; [done|]. specialize (IH Hs Ht).
    pose proof (Hall t Ht). destruct (nextTs (b :: l) !! t) as [n|].
    + destruct IH as (?&?&Hmin). split_and!; [done|by right|]. intros t' [->|?]%elem_of_cons Hlt; [lia|auto].
    + intros t' [->|?]%elem_of_cons; [lia|auto].
Qed.

(** ** Time stamps *)

Section Times.
Context (data : list partitionVisualizationData).

Lemma allTimestamps_spec t : t ∈ allTimestamps data ↔ ∃ e, e ∈ elements data ∧ (t = he_Start e ∨ t = he_End e).
Proof.
  unfold allTimestamps. assert (H : ∀ l s, t ∈ foldl (λ s e, set_add (he_End e) (set_add (he_Start e) s)) s l ↔
    t ∈ s ∨ ∃ e, e ∈ l ∧ (t = he_Start e ∨ t = he_End e)).
  { induction l as [|e l IH]; intros s; simpl; [set_solver|]. rewrite IH, !elem_of_set_add. set_solver. }
  rewrite H. set_solver.
Qed.

Lemma startTimestamps_spec t : t ∈ startTimestamps data ↔ ∃ e, e ∈ elements data ∧ t = he_Start e.
Proof.
  unfold startTimestamps. assert (H : ∀ l s, t ∈ foldl (λ s e, set_add (he_Start e) s) s l ↔ t ∈ s ∨ ∃ e, e ∈ l ∧ t = he_Start e).
  { induction l as [|e l IH]; intros s; simpl; [set_solver|]. rewrite IH, elem_of_set_add. set_solver. }
  rewrite H. set_solver.
Qed.

Lemma allTimestamps_NoDup : NoDup (allTimestamps data).
Proof.
  unfold allTimestamps. assert (H : ∀ l s, NoDup s → NoDup (foldl (λ s e, set_add (he_End e) (set_add (he_Start e) s)) s l)).
  { induction l as [|e l IH]; intros s Hs; simpl; [done|]. by apply IH, NoDup_set_add, NoDup_set_add. }
  apply H. constructor.
Qed.

Definition end2 (e : historyElement) : Z := default (2 * he_End e) (tweak data e).

Lemma tweaked_spec e : e ∈ elements data →
  2 * he_End e ≤ end2 e ∧ (∀ t, t ∈ allTimestamps data → he_End e < t → end2 e < 2 * t) ∧
  (he_End e ∈ startTimestamps data → 2 * he_End e < end2 e ∨ ∀ t, t ∈ allTimestamps data → t ≤ he_End e).
Proof.
  intros He. unfold end2, tweak. case_bool_decide as Hst; [|cbn; split_and!; [done|lia|done]].
  assert (Hin : he_End e ∈ sort_numbers (allTimestamps data)) by (apply sort_numbers_elem, allTimestamps_spec; eauto).
  pose proof (nextTs_spec _ _ (sort_numbers_sorted _ allTimestamps_NoDup) Hin) as Hn.
  destruct (nextTs _ !! _) as [n|]; cbn [mbind option_bind default from_option id].
  - destruct Hn as (Hlt&_&Hmin). split_and!; [lia| |lia]. intros t Ht Htl. specialize (Hmin t (proj2 (sort_numbers_elem _ _) Ht) Htl). lia.
  - split_and!; [done|lia|]. intros _. right. intros t Ht. by apply Hn, sort_numbers_elem.
Qed.

(** Tweaking keeps which calls come before which returns, a call at the time of a
    return included, and makes the order strict. *)
Lemma tweak_order e e' : (∀ x, x ∈ elements data → he_Start x < he_End x) → e ∈ elements data → e' ∈ elements data →
  2 * he_Start e' < end2 e ↔ he_Start e' ≤ he_End e.
Proof.
  intros Ht He He'. destruct (tweaked_spec e He) as (Hle&Hgt&Hst).
  assert (Hs : he_Start e' ∈ allTimestamps data) by (apply allTimestamps_spec; eauto).
  split; [intros Hlt; destruct (Z.le_gt_cases (he_Start e') (he_End e)) as [|Hc]; [done|]; specialize (Hgt _ Hs Hc); lia|].
  intros [Hlt|Heq]%Z.le_lteq; [lia|]. destruct Hst as [?|Hmax]; [apply startTimestamps_spec; eauto|lia|].
  pose proof (Hmax (he_End e') ltac:(apply allTimestamps_spec; eauto)). specialize (Ht e' He'). lia.
Qed.

Lemma sortedTimestamps_spec t : t ∈ sortedTimestamps data ↔ ∃ e, e ∈ elements data ∧ (t = 2 * he_Start e ∨ t = 2 * he_End e ∨ t = end2 e).
Proof.
  unfold sortedTimestamps. rewrite sort_numbers_elem.
  assert (H : ∀ l s, t ∈ foldl (λ s e, match tweak data e with Some t => set_add t s | None => s end) s l ↔
    t ∈ s ∨ ∃ e, e ∈ l ∧ tweak data e = Some t).
  { induction l as [|e l IH]; intros s; simpl; [set_solver|]. rewrite IH. destruct (tweak data e) as [u|] eqn:E.
    - rewrite elem_of_set_add. split; [|set_solver]. intros [[->|?]|(x&?&?)]; [right; exists e; set_solver|by left|right; exists x; set_solver].
    - set_solver. }
  rewrite H, list_elem_of_fmap. setoid_rewrite allTimestamps_spec. split.
  - intros [(u&->&e&He&[->| ->])|(e&He&E)]; exists e; [auto..|]. split; [done|]. right; right. unfold end2. by rewrite E.
  - intros (e&He&[->|[->| ->]]); [left; exists (he_Start e); eauto|left; exists (he_End e); eauto|]. unfold end2.
    destruct (tweak data e) as [u|] eqn:E; cbn [default from_option id]; [right; eauto|left; exists (he_End e); eauto].
Qed.

Lemma sortedTimestamps_sorted : StronglySorted Z.lt (sortedTimestamps data).
Proof.
  apply sort_numbers_sorted. assert (H : ∀ l s, NoDup s → NoDup (foldl (λ s e, match tweak data e with Some t => set_add t s | None => s end) s l)).
  { induction l as [|e l IH]; intros s Hs; simpl; [done|]. apply IH. destruct (tweak data e); [by apply NoDup_set_add|done]. }
  apply H, NoDup_fmap_2; [|apply allTimestamps_NoDup]. intros x y. lia.
Qed.
End Times.

(** ** Elements and their ids *)

Lemma byGid_prepare_from data gid parts :
  byGid (prepare_from data gid parts) = imap (λ i e, prepare_el data (gid + i) e) (parts ≫= pv_History).
Proof.
  unfold byGid. revert gid. induction parts as [|p parts IH]; intros gid; [done|]. csimpl. rewrite IH, imap_app. f_equal.
  apply imap_ext. intros i e _. simpl. f_equal. lia.
Qed.

Lemma byGid_prepare data : byGid (prepare data) = imap (prepare_el data) (elements data).
Proof. apply (byGid_prepare_from data 0). Qed.

Lemma byGid_lookup data g e : byGid (prepare data) !! g = Some e ↔ ∃ h, elements data !! g = Some h ∧ e = prepare_el data g h.
Proof.
  rewrite byGid_prepare, list_lookup_imap, fmap_Some. split; intros (h&?&->); eauto.
Qed.

(** An element of a prepared partition. *)
Lemma prepare_from_lookup data gid parts q P : prepare_from data gid parts !! q = Some P →
  ∃ p base, parts !! q = Some p ∧ PartialLinearizations P = pv_PartialLinearizations p ∧ Largest P = pv_Largest p ∧
    History P = imap (λ i e, prepare_el data (base + i) e) (pv_History p).
Proof.
  revert gid q. induction parts as [|p parts IH]; intros gid q; [done|]. destruct q as [|q]; simpl; [|apply IH].
  intros [= <-]. by exists p, gid.
Qed.

Lemma prepare_elem data P : P ∈ prepare data →
  ∃ p base, p ∈ data ∧ PartialLinearizations P = pv_PartialLinearizations p ∧
    History P = imap (λ i e, prepare_el data (base + i) e) (pv_History p).
Proof.
  intros (q&Hq)%list_elem_of_lookup. destruct (prepare_from_lookup _ _ _ _ _ Hq) as (p&base&Hp&?&?&?).
  exists p, base. split; [by eapply list_elem_of_lookup_2|done].
Qed.

(** An element of a partition is the one of its id. *)
Lemma history_byGid data P k e : P ∈ prepare data → History P !! k = Some e → byGid (prepare data) !! el_Gid e = Some e.
Proof.
  intros HP Hk. assert (He : e ∈ byGid (prepare data)).
  { apply list_elem_of_bind. exists P. split; [by eapply list_elem_of_lookup_2|done]. }
  apply list_elem_of_lookup in He as [g Hg]. pose proof Hg as (h&_&->)%byGid_lookup. done.
Qed.

(** ** Rows of the tables *)

Definition row {A} (arr : list (list A)) (g : nat) : list A := default [] (arr !! g).

Lemma push_at_ok {A} (arr : list (list A)) i x : (i < length arr)%nat →
  ∃ arr', push_at arr i x = Some arr' ∧ length arr' = length arr ∧
    ∀ g y, y ∈ row arr' g ↔ y ∈ row arr g ∨ g = i ∧ y = x.
Proof.
  intros Hi. destruct (lookup_lt_is_Some_2 arr i Hi) as [l Hl]. unfold push_at. rewrite Hl. cbn [mbind option_bind].
  eexists. split; [done|]. split; [apply length_insert|]. intros g y. unfold row. destruct (decide (g = i)) as [->|Hne].
  - rewrite list_lookup_insert_eq by done. rewrite Hl. cbn [default from_option id]. rewrite elem_of_app, list_elem_of_singleton. tauto.
  - rewrite list_lookup_insert_ne by done. tauto.
Qed.

Definition gids (P : partition) (lin : list linearizationStep) : list nat := omap (λ s, el_Gid <$> (History P)@[ls_Index s]) lin.

Definition lin_in (P : partition) (n : nat) (lin : list linearizationStep) : Prop :=
  Forall (λ s, ∃ e, (History P)@[ls_Index s] = Some e ∧ (el_Gid e < n)%nat) lin.

Lemma gids_cons P s lin e : (History P)@[ls_Index s] = Some e → gids P (s :: lin) = el_Gid e :: gids P lin.
Proof. intros E. unfold gids. simpl. by rewrite E. Qed.

Lemma globalize_ok P lgid pos lin etl : lin_in P (length etl) lin →
  ∃ etl', globalize (History P) lgid pos lin etl = Some (gids P lin, etl') ∧ length etl' = length etl ∧
    ∀ g x, x ∈ row etl' g ↔ x ∈ row etl g ∨ ∃ j, gids P lin !! j = Some g ∧ x = (lgid, pos + Z.of_nat j).
Proof.
  revert pos etl. induction lin as [|s lin IH]; intros pos etl Hin; cbn [globalize].
  { exists etl. split_and!; [done..|]. intros g x. split; [auto|]. by intros [|(j&?&_)]. }
  apply Forall_cons in Hin as [(e&He&Hlt) Hin]. rewrite He, (gids_cons _ _ _ _ He). cbn [mbind option_bind].
  destruct (push_at_ok etl (el_Gid e) (lgid, pos) Hlt) as (etl1&->&Hlen1&Hrow1). cbn [mbind option_bind].
  destruct (IH (pos + 1) etl1) as (etl2&->&Hlen2&Hrow2); [by rewrite Hlen1|]. cbn [mbind option_bind].
  exists etl2. split_and!; [done|congruence|]. intros g x. rewrite Hrow2, Hrow1. split.
  - intros [[?|[-> ->]]|(j&Hj&->)]; [by left|right; exists 0%nat; simpl; split; [done|f_equal; lia]|].
    right. exists (S j). split; [done|]. f_equal. lia.
  - intros [?|([|j]&Hj&->)]; [auto| |].
    + simpl in Hj. injection Hj as <-. left; right. split; [done|f_equal; lia].
    + right. exists j. split; [done|]. f_equal. lia.
Qed.

Lemma push_illegal_ok lgid next eil : Forall (λ ke : Z * el, (el_Gid ke.2 < length eil)%nat) next →
  ∃ eil', push_illegal lgid next eil = Some eil' ∧ length eil' = length eil ∧
    ∀ g x, x ∈ row eil' g ↔ x ∈ row eil g ∨ x = lgid ∧ ∃ ke, ke ∈ next ∧ el_Gid ke.2 = g.
Proof.
  revert eil. induction next as [|[k e] next IH]; intros eil Hin; cbn [push_illegal].
  { exists eil. split_and!; [done..|]. intros g x. set_solver. }
  apply Forall_cons in Hin as [Hlt Hin]. destruct (push_at_ok eil (el_Gid e) lgid Hlt) as (eil1&->&Hlen1&Hrow1). cbn [mbind option_bind].
  destruct (IH eil1) as (eil2&->&Hlen2&Hrow2); [by rewrite Hlen1|]. exists eil2. split_and!; [done|congruence|].
  intros g x. rewrite Hrow2, Hrow1. split.
  - intros [[?|[-> ->]]|(->&ke&?&?)]; [by left|right; split; [done|]; exists (k, e); split; [left|done]|].
    right. split; [done|]. exists ke. split; [by right|done].
  - intros [?|(->&ke&[->|Hke]%elem_of_cons&Hg)]; [auto|simpl in Hg; subst; auto|]. right. eauto.
Qed.

(** The tables after the linearizations [os], each with its partition. *)
Record tables_for (n : nat) (os : list (partition * list linearizationStep)) (t : Tables) : Prop := {
  tf_etl : length (eventToLinearizations t) = n;
  tf_eil : length (eventIllegalLast t) = n;
  tf_lins : allLinearizations t = (λ o, gids o.1 o.2) <$> os;
  tf_lis g index position : (index, position) ∈ row (eventToLinearizations t) g ↔
    ∃ o j, os !! index = Some o ∧ gids o.1 o.2 !! j = Some g ∧ position = Z.of_nat j;
  tf_illegal g index : index ∈ row (eventIllegalLast t) g ↔
    ∃ o ke, os !! index = Some o ∧ ke ∈ illegal_next (ls_Index <$> o.2) (History o.1) ∧ el_Gid ke.2 = g
}.

Lemma lookup_snoc_iff {A} (l : list A) x i y : (l ++ [x]) !! i = Some y ↔ l !! i = Some y ∨ i = length l ∧ y = x.
Proof. rewrite lookup_snoc_Some. naive_solver eauto using lookup_lt_Some. Qed.

Lemma tables_lin_ok n os t P lin : tables_for n os t → lin_in P n lin → Forall (λ e, (el_Gid e < n)%nat) (History P) →
  ∃ etl eil, globalize (History P) (length (allLinearizations t)) 0 lin (eventToLinearizations t) = Some (gids P lin, etl) ∧
    push_illegal (length (allLinearizations t)) (illegal_next (ls_Index <$> lin) (History P)) (eventIllegalLast t) = Some eil ∧
    tables_for n (os ++ [(P, lin)]) (mkTables etl eil (allLinearizations t ++ [gids P lin])).
Proof.
  intros [H1 H2 H3 H4 H5] Hlin Hall. rewrite H3, length_fmap.
  destruct (globalize_ok P (length os) 0 lin (eventToLinearizations t)) as (etl&->&Hl1&Hr1); [by rewrite H1|].
  destruct (push_illegal_ok (length os) (illegal_next (ls_Index <$> lin) (History P)) (eventIllegalLast t)) as (eil&->&Hl2&Hr2).
  { rewrite H2. apply Forall_forall. intros [k e] [_ Hi]%list_elem_of_filter. simpl. rewrite Forall_forall in Hall.
    apply elem_of_lookup_imap in Hi as (i&e'&[= -> ->]&?). apply Hall. by eapply list_elem_of_lookup_2. }
  exists etl, eil. split; [done|]. split; [done|]. split; simpl; [congruence|congruence|by rewrite fmap_app| |].
  - intros g index position. rewrite Hr1, H4. setoid_rewrite lookup_snoc_iff. split.
    + intros [(o&j&?&?&?)|(j&Hj&[= -> ->])]; [exists o, j; auto|]. exists (P, lin), j. auto.
    + intros (o&j&[Ho|[-> ->]]&Hj&->); [left; eauto|]. right. exists j. auto.
  - intros g index. rewrite Hr2, H5. setoid_rewrite lookup_snoc_iff. split.
    + intros [(o&ke&?&?&?)|(->&ke&?&?)]; [exists o, ke; auto|]. exists (P, lin), ke. auto.
    + intros (o&ke&[Ho|[-> ->]]&?&?); [left; eauto|right; eauto].
Qed.

Definition origins (parts : list partition) : list (partition * list linearizationStep) :=
  parts ≫= λ P, (P,.) <$> PartialLinearizations P.

Lemma tables_lins_ok n os t P lins : tables_for n os t → Forall (lin_in P n) lins → Forall (λ e, (el_Gid e < n)%nat) (History P) →
  ∃ t', tables_lins (History P) lins t = Some t' ∧ tables_for n (os ++ ((P,.) <$> lins)) t'.
Proof.
  intros Ht Hl Hall. revert os t Ht. induction Hl as [|lin lins Hlin Hl IH]; intros os t Ht; cbn [tables_lins].
  { exists t. by rewrite app_nil_r. }
  destruct (tables_lin_ok n os t P lin Ht Hlin Hall) as (etl&eil&->&E&Ht'). cbn [mbind option_bind]. rewrite E. cbn [mbind option_bind].
  destruct (IH _ _ Ht') as (t'&->&?). exists t'. split; [done|]. by rewrite fmap_cons, cons_middle, app_assoc.
Qed.

Definition partition_in (n : nat) (P : partition) : Prop :=
  Forall (lin_in P n) (PartialLinearizations P) ∧ Forall (λ e, (el_Gid e < n)%nat) (History P).

Lemma tables_ok parts : Forall (partition_in (length (byGid parts))) parts →
  ∃ t, tables parts = Some t ∧ tables_for (length (byGid parts)) (origins parts) t.
Proof.
  intros H. unfold tables. assert (Ht : tables_for (length (byGid parts)) [] (mkTables (newArray (length (byGid parts)) (λ _, [])) (newArray (length (byGid parts)) (λ _, [])) [])).
  { assert (Hr : ∀ A g, row (newArray (length (byGid parts)) (λ _, @nil A)) g = []).
    { intros A g. unfold row, newArray. rewrite list_lookup_fmap. by destruct (seq _ _ !! g). }
    split; simpl; [by unfold newArray; rewrite length_fmap, length_seq..|done| |]; intros; rewrite Hr; split; try (by intros ?%elem_of_nil).
    - by intros (?&?&?&_).
    - by intros (?&?&?&_). }
  change (origins parts) with ([] ++ origins parts). revert Ht. generalize (@nil (partition * list linearizationStep)) as os.
  generalize (mkTables (newArray (length (byGid parts)) (λ _, [])) (newArray (length (byGid parts)) (λ _, [])) []) as t0. revert H.
  generalize (length (byGid parts)) as n. intros n H. induction H as [|P parts [HP1 HP2] H IH]; intros t0 os Ht; cbn [tables_parts].
  { exists t0. by rewrite app_nil_r. }
  destruct (tables_lins_ok n os t0 P _ Ht HP1 HP2) as (t1&->&Ht1). cbn [mbind option_bind].
  destruct (IH t1 _ Ht1) as (t&->&?). exists t. split; [done|]. unfold origins. csimpl. by rewrite app_assoc.
Qed.

(** ** The next steps *)

Lemma minEnd_loop_below inc e hist i m :
  below_minEnd e (minEnd_loop inc i hist m) = true ↔
  below_minEnd e m = true ∧ ∀ k e', hist !! k = Some e' → i + Z.of_nat k ∉ inc → start2 e < el_End e'.
Proof.
  revert i m. induction hist as [|x hist IH]; intros i m; cbn [minEnd_loop]; [naive_solver|]. rewrite IH.
  assert (Hm : below_minEnd e (if bool_decide (i ∈ inc) then m else Some (match m with Some m => Z.min m (el_End x) | None => el_End x end)) = true
    ↔ below_minEnd e m = true ∧ (i ∉ inc → start2 e < el_End x)).
  { case_bool_decide; [naive_solver|]. unfold below_minEnd. destruct m as [m|]; rewrite ?Z.ltb_lt; [|naive_solver].
    split; [intros Hz; split; [|intros _]; lia|intros [? Hz]; specialize (Hz ltac:(done)); lia]. }
  rewrite Hm. split.
  - intros [[H1 H2] H3]. split; [done|]. intros [|k] e' Hk Hn; simpl in Hk; [injection Hk as <-; apply H2; by rewrite Z.add_0_r in Hn|].
    apply (H3 k e' Hk). by replace (i + 1 + Z.of_nat k) with (i + Z.of_nat (S k)) by lia.
  - intros [H1 H2]. split_and!; [done|intros Hn; apply (H2 0%nat); [done|by rewrite Z.add_0_r]|].
    intros k e' Hk Hn. apply (H2 (S k) e' Hk). by replace (i + Z.of_nat (S k)) with (i + 1 + Z.of_nat k) by lia.
Qed.

(** An element is a next step when it is not included and starts before every
    element that is not included ends. *)
Lemma illegal_next_spec inc hist k e : (k, e) ∈ illegal_next inc hist ↔
  hist@[k] = Some e ∧ k ∉ inc ∧ ∀ k' e', hist@[k'] = Some e' → k' ∉ inc → start2 e < el_End e'.
Proof.
  unfold illegal_next. rewrite list_elem_of_filter, elem_of_lookup_imap. unfold minEnd. rewrite minEnd_loop_below. split.
  - intros [(Hn&_&Hb) (i&x&[= -> ->]&Hi)]. rewrite idx_nat. split_and!; [done..|]. intros k' e' (j&->&Hj)%idx_lookup. by apply (Hb j).
  - intros ((i&->&Hi)%idx_lookup&Hn&Hb). split; [|eauto]. split_and!; [done..|]. intros j e' Hj. apply (Hb (Z.of_nat j)). by rewrite idx_nat.
Qed.

(** ** What the page expects of its data *)

(** Operations take time; a partial linearization is not empty, names elements of its
    partition, each once, and an element comes only when every element that is
    still to come returned no earlier than its call; [Largest] points to partial
    linearizations, and to the first one for its elements. *)
Record partition_ok (p : partitionVisualizationData) : Prop := {
  po_time e : e ∈ pv_History p → he_Start e < he_End e;
  po_nonempty lin : lin ∈ pv_PartialLinearizations p → lin ≠ [];
  po_nodup lin : lin ∈ pv_PartialLinearizations p → NoDup (ls_Index <$> lin);
  po_index lin s : lin ∈ pv_PartialLinearizations p → s ∈ lin → is_Some ((pv_History p)@[ls_Index s]);
  po_order lin j s e k e' : lin ∈ pv_PartialLinearizations p → lin !! j = Some s → (pv_History p)@[ls_Index s] = Some e →
    (pv_History p)@[k] = Some e' → k ∉ ls_Index <$> take j lin → he_Start e ≤ he_End e';
  po_largest k l : pv_Largest p !! k = Some l → 0 ≤ l < len (pv_PartialLinearizations p);
  po_first lin k : pv_PartialLinearizations p !! 0%nat = Some lin → k ∈ ls_Index <$> lin → pv_Largest p !! k = Some 0
}.

Section Ok.
Context (data : list partitionVisualizationData) (Hok : Forall partition_ok data).
Notation elems := (byGid (prepare data)).

Lemma data_time e : e ∈ elements data → he_Start e < he_End e.
Proof using Hok.
  intros (p&He&Hp)%list_elem_of_bind. rewrite Forall_forall in Hok. by apply (po_time p (Hok p Hp)).
Qed.

(** An element of a prepared partition, and the one it comes from. *)
Lemma history_idx P k e : P ∈ prepare data → (History P)@[k] = Some e →
  ∃ p h, p ∈ data ∧ PartialLinearizations P = pv_PartialLinearizations p ∧ (pv_History p)@[k] = Some h ∧
    h ∈ elements data ∧ elems !! el_Gid e = Some e ∧ e = prepare_el data (el_Gid e) h ∧
    ∀ k' e', (History P)@[k'] = Some e' → ∃ h', (pv_History p)@[k'] = Some h' ∧ h' ∈ elements data ∧ e' = prepare_el data (el_Gid e') h'.
Proof using.
  intros HP Hk. destruct (prepare_elem data P HP) as (p&base&Hp&HL&HH).
  assert (Hall : ∀ k' e', (History P)@[k'] = Some e' → ∃ h', (pv_History p)@[k'] = Some h' ∧ h' ∈ elements data ∧ e' = prepare_el data (el_Gid e') h').
  { intros k' e' (i&->&Hi)%idx_lookup. rewrite HH, list_lookup_imap in Hi. apply fmap_Some in Hi as (h&Hh&->). exists h.
    rewrite idx_nat. split_and!; [done| |done]. apply list_elem_of_bind. exists p. split; [by eapply list_elem_of_lookup_2|done]. }
  destruct (Hall k e Hk) as (h&?&?&?). exists p, h. apply idx_lookup in Hk as (i&->&Hi).
  split_and!; [done..|by eapply history_byGid|done|done].
Qed.

(** The next steps in the times of the data. *)
Lemma next_times q P p inc k : prepare data !! q = Some P → data !! q = Some p →
  k ∈ (illegal_next inc (History P)).*1 ↔
  ∃ x, (pv_History p)@[k] = Some x ∧ k ∉ inc ∧ ∀ k' y, (pv_History p)@[k'] = Some y → k' ∉ inc → he_Start x ≤ he_End y.
Proof using Hok.
  intros HP Hp. destruct (prepare_from_lookup _ _ _ _ _ HP) as (p'&base&Hp'&_&_&EH). rewrite Hp in Hp'. injection Hp' as <-.
  assert (Hel : ∀ i, (History P)@[Z.of_nat i] = prepare_el data (base + i) <$> (pv_History p)@[Z.of_nat i]).
  { intros i. by rewrite !idx_nat, EH, list_lookup_imap. }
  assert (Hin : ∀ i h, (pv_History p)@[i] = Some h → h ∈ elements data).
  { intros i h Hi%idx_elem_of. apply list_elem_of_bind. exists p. split; [done|by eapply list_elem_of_lookup_2]. }
  assert (Hlt : ∀ i j x y g g', (pv_History p)@[i] = Some x → (pv_History p)@[j] = Some y →
    start2 (prepare_el data g x) < el_End (prepare_el data g' y) ↔ he_Start x ≤ he_End y).
  { intros i j x y g g' Hx Hy. apply (tweak_order data y x data_time); eauto. }
  rewrite list_elem_of_fmap. split.
  - intros ([k' e]&->&(He&Hn&Hall)%illegal_next_spec). pose proof He as (i&->&_)%idx_lookup. rewrite Hel in He. apply fmap_Some in He as (x&Hx&->).
    exists x. split_and!; [done..|]. intros k' y Hy Hk'. pose proof Hy as (j&->&_)%idx_lookup. eapply (Hlt (Z.of_nat i) (Z.of_nat j)); [done..|].
    eapply Hall; [|exact Hk']. by rewrite Hel, Hy.
  - intros (x&Hx&Hn&Hall). pose proof Hx as (i&->&_)%idx_lookup. exists (Z.of_nat i, prepare_el data (base + i) x). split; [done|].
    apply illegal_next_spec. split_and!; [by rewrite Hel, Hx|done|]. intros k' e' He' Hk'. pose proof He' as (j&->&_)%idx_lookup.
    rewrite Hel in He'. apply fmap_Some in He' as (y&Hy&->). eapply Hlt; [done..|]. by eapply Hall.
Qed.

Lemma prepared_order P lin j s e k e' : P ∈ prepare data → lin ∈ PartialLinearizations P → lin !! j = Some s →
  (History P)@[ls_Index s] = Some e → (History P)@[k] = Some e' → k ∉ ls_Index <$> take j lin → start2 e < el_End e'.
Proof using Hok.
  intros HP Hlin Hj Hs Hk Hn. destruct (history_idx P k e' HP Hk) as (p&h'&Hp&HL&Hh'&He'&_&->&Hall).
  destruct (Hall _ _ Hs) as (h&Hh&He&->). unfold start2. cbn [el_Start el_End prepare_el].
  apply (tweak_order data h' h data_time He' He). rewrite Forall_forall in Hok. rewrite HL in Hlin. by eapply (po_order p (Hok p Hp)).
Qed.

Lemma lin_ok P lin : P ∈ prepare data → lin ∈ PartialLinearizations P →
  lin ≠ [] ∧ NoDup (ls_Index <$> lin) ∧ lin_in P (length elems) lin.
Proof using Hok.
  intros HP Hlin. destruct (prepare_elem data P HP) as (p&base&Hp&HL&HH). rewrite HL in Hlin. rewrite Forall_forall in Hok.
  pose proof (Hok p Hp) as Hpo. split_and!; [by apply (po_nonempty p Hpo)|by apply (po_nodup p Hpo)|].
  apply Forall_forall. intros s Hs. destruct (po_index p Hpo lin s Hlin Hs) as [h (i&E&Hi)%idx_lookup]. rewrite E.
  eexists. rewrite idx_nat, HH, list_lookup_imap, Hi. split; [done|].
  eapply lookup_lt_Some, history_byGid; [done|]. by rewrite HH, list_lookup_imap, Hi.
Qed.

Lemma gids_lookup P n lin j g : lin_in P n lin → gids P lin !! j = Some g ↔
  ∃ s e, lin !! j = Some s ∧ (History P)@[ls_Index s] = Some e ∧ el_Gid e = g.
Proof using.
  intros Hl. revert j. induction Hl as [|s lin (e&He&_) Hl IH]; intros j; [split; [done|by intros (?&?&?&_)]|].
  rewrite (gids_cons _ _ _ _ He). destruct j as [|j]; simpl; [|apply IH]. split; [intros [= <-]; eauto|].
  intros (s'&e'&[= <-]&?&?). simplify_eq. done.
Qed.

Lemma gids_length P n lin : lin_in P n lin → length (gids P lin) = length lin.
Proof using. induction 1 as [|s lin (e&He&_) Hl IH]; [done|]. rewrite (gids_cons _ _ _ _ He). simpl. congruence. Qed.

Lemma NoDup_take_lookup {A} (l : list A) i j x : NoDup l → l !! j = Some x → (i ≤ j)%nat → x ∉ take i l.
Proof using. intros Hnd Hj Hij (k&Hk&Hlt)%elem_of_take. assert (k = j) by (by eapply NoDup_lookup). lia. Qed.

Lemma origins_lookup parts index o : origins parts !! index = Some o → o.1 ∈ parts ∧ o.2 ∈ PartialLinearizations o.1.
Proof using.
  intros Ho%list_elem_of_lookup_2. unfold origins in Ho. apply list_elem_of_bind in Ho as (P&Ho&HP).
  apply list_elem_of_fmap in Ho as (lin&->&?). done.
Qed.

Lemma parts_in : Forall (partition_in (length elems)) (prepare data).
Proof using Hok.
  apply Forall_forall. intros P HP. split; apply Forall_forall.
  - intros lin Hlin. by apply lin_ok.
  - intros e (k&Hk)%list_elem_of_lookup. by eapply lookup_lt_Some, history_byGid.
Qed.

Lemma prepared_scan_input tb : tables_for (length elems) (origins (prepare data)) tb → scan_input elems tb (sortedTimestamps data).
Proof using Hok.
  intros [H1 H2 H3 H4 H5].
  assert (Hlin : ∀ index o, origins (prepare data) !! index = Some o → lin_of tb index = gids o.1 o.2).
  { intros index o Ho. unfold lin_of. by rewrite H3, list_lookup_fmap, Ho. }
  split; [|done|done| | | | |apply sortedTimestamps_sorted].
  - intros g e (h&_&->)%byGid_lookup. done.
  - intros g e index position Hg Hli. apply H4 in Hli as ([P lin]&j&Ho&Hj&->). rewrite (Hlin _ _ Ho), Nat2Z.id. simpl in *.
    destruct (origins_lookup _ _ _ Ho) as [HP HL]. simpl in *. destruct (lin_ok P lin HP HL) as (_&Hnd&Hin).
    pose proof (lookup_lt_Some _ _ _ Hj) as Hlt. split; [unfold len; lia|]. apply (gids_lookup _ _ _ _ _ Hin) in Hj as (s&e0&Hs&He0&Hg0).
    assert (e0 = e) as ->. { destruct (history_idx P _ e0 HP He0) as (_&_&_&_&_&_&E&_). rewrite Hg0 in E. congruence. }
    intros g' (i&Hi&Hij)%elem_of_take. apply (gids_lookup _ _ _ _ _ Hin) in Hi as (s'&e'&Hs'&He'&<-).
    exists e'. split; [by destruct (history_idx P _ e' HP He') as (_&_&_&_&_&_&E&_)|].
    eapply (prepared_order P lin i s' e' (ls_Index s) e); try done. rewrite fmap_take.
    apply (NoDup_take_lookup _ i j); [done|by rewrite list_lookup_fmap, Hs|lia].
  - intros g e index Hg Hi. apply H5 in Hi as ([P lin]&[k e0]&Ho&Hke&Hg0). rewrite (Hlin _ _ Ho). simpl in *.
    destruct (origins_lookup _ _ _ Ho) as [HP HL]. simpl in *. destruct (lin_ok P lin HP HL) as (Hne&Hnd&Hin).
    apply list_elem_of_filter in Hke as [[Hk _] Hke]. apply elem_of_lookup_imap in Hke as (i&e1&[= -> ->]&Hi). rewrite <-idx_nat in Hi.
    assert (e1 = e) as ->. { destruct (history_idx P _ e1 HP Hi) as (_&_&_&_&_&_&E&_). rewrite Hg0 in E. congruence. }
    split. { intros E. apply Hne, length_zero_iff_nil. by rewrite <-(gids_length _ _ _ Hin), E. }
    intros g' (j&Hj)%list_elem_of_lookup. apply (gids_lookup _ _ _ _ _ Hin) in Hj as (s'&e'&Hs'&He'&<-).
    exists e'. split; [by destruct (history_idx P _ e' HP He') as (_&_&_&_&_&_&E&_)|].
    eapply (prepared_order P lin j s' e' (Z.of_nat i) e); try done. intros Hc. apply Hk. rewrite fmap_take in Hc.
    apply elem_of_take in Hc as (q&Hq&_). by eapply list_elem_of_lookup_2.
  - intros index lin j g Hl Hj. rewrite H3, list_lookup_fmap in Hl. apply fmap_Some in Hl as ([P l]&Ho&->). simpl in *. split.
    + apply H4. exists (P, l), j. done.
    + destruct (origins_lookup _ _ _ Ho) as [HP HL]. simpl in *. destruct (lin_ok P l HP HL) as (_&_&Hin).
      apply (gids_lookup _ _ _ _ _ Hin) in Hj as (s&e0&Hs&He0&<-). destruct (history_idx P _ e0 HP He0) as (_&_&_&_&_&_&E&_). eauto.
  - intros e (g&(h&Hh&->)%byGid_lookup)%list_elem_of_lookup. apply list_elem_of_lookup_2 in Hh. unfold start2. cbn [el_Start el_End prepare_el].
    split; [apply (tweak_order data h h data_time Hh Hh); pose proof (data_time h Hh); lia|]. rewrite !sortedTimestamps_spec. split; exists h; auto.
Qed.
End Ok.
End PorcupinePagePrep.
