(* ===== verification/PorcupinePageUi.v ===== *)
(** * Drawing the page and its mouse events

    The second half of [render]: the boxes of the history, the points and lines of
    the partial linearizations and of their illegal next steps, and the handlers
    that highlight, select and jump.  What is drawn is a value; what the handlers
    change ([class] attributes, the tooltip, the jump link, [selected]) is the state
    [Page].  [None] is an exception, as in [PorcupinePage]. *)

From stdpp Require Import pretty.
From S2P Require Import Prelude PorcupineBitset Porcupine PorcupineParallel PorcupinePage.

Module PorcupinePageUi.
Import Porcupine PorcupineParallel PorcupinePage.

Section Draw.
Context (px : Z) (textWidth : string → Z).
Notation PADDING := (PADDING px).
Notation BOX_HEIGHT := (BOX_HEIGHT px).
Notation BOX_SPACE := (BOX_SPACE px).
Notation XOFF := (XOFF px).
Notation EPSILON := (EPSILON px).
Notation LINE_BLEED := (LINE_BLEED px).

(** ** The history *)

(** A box, and twice the position of the middle of its text. *)
Record Rect := mkRect { r_x : num; r_y : Z; r_width : num; r_text2 : num }.

Definition draw_el (xPos : gmap Z num) (e : el) : Rect :=
  let rx := get xPos (start2 e) in
  let width := num_sub (get xPos (el_End e)) rx in
  let x := num_add rx (Some (XOFF + PADDING)) in
  mkRect x (PADDING + el_ClientId e * (BOX_HEIGHT + BOX_SPACE)) width (num_add (num_add x x) width).

Definition draw_history (xPos : gmap Z num) (parts : list partition) : list (list Rect) :=
  (λ P, draw_el xPos <$> History P) <$> parts.

(** [height] and [width] of the drawing. *)
Definition page_height (data : list partitionVisualizationData) : Z :=
  2 * PADDING + BOX_HEIGHT * nClient data + BOX_SPACE * (nClient data - 1).
Definition page_width (xPos : gmap Z num) (tss : list Z) : num :=
  num_add (Some (2 * PADDING + XOFF)) (match last tss with Some t => get xPos t | None => Some 0 end).

(** ** Partial linearizations *)

Inductive LineClass := Point | Link | IllegalPoint | IllegalLink.
Record Line := mkLine { l_class : LineClass; l_x1 : num; l_x2 : num; l_y1 : Z; l_y2 : Z }.

(** [prevX], [prevY] and [prevEl], all [null] before the first point. *)
Record Prev := mkPrev { prevX : num; prevY : Z; prevEl : el }.

Definition lp_x (xPos : gmap Z num) (prev : option Prev) (e : el) : num :=
  let hereX := num_add (Some (PADDING + XOFF)) (get xPos (start2 e)) in
  match prev with Some p => num_max hereX (num_add (prevX p) (Some EPSILON)) | None => hereX end.
Definition lp_y (e : el) : Z := PADDING + el_ClientId e * (BOX_HEIGHT + BOX_SPACE) - LINE_BLEED.

(** The line from the previous point: between the facing edges of two rows. *)
Definition link (class : LineClass) (p : Prev) (x : num) (y : Z) (e : el) : Line :=
  mkLine class (prevX p) x
    (if el_ClientId (prevEl p) >=? el_ClientId e then prevY p else prevY p + BOX_HEIGHT + 2 * LINE_BLEED)
    (if el_ClientId (prevEl p) <=? el_ClientId e then y else y + BOX_HEIGHT + 2 * LINE_BLEED).
Definition point (class : LineClass) (x : num) (y : Z) : Line := mkLine class x x y (y + BOX_HEIGHT + 2 * LINE_BLEED).

Fixpoint draw_lin (xPos : gmap Z num) (hist : list el) (prev : option Prev) (lin : list linearizationStep)
    : option (list Line * option Prev) :=
  match lin with
  | [] => Some ([], prev)
  | id :: lin =>
      e ← hist@[ls_Index id];
      let x := lp_x xPos prev e in
      let y := lp_y e in
      '(lines, prev') ← draw_lin xPos hist (Some (mkPrev x y e)) lin;
      Some (match prev with Some p => [link Link p x y e] | None => [] end ++ [point Point x y] ++ lines, prev')
  end.

(** A point of an illegal next step; [ep_lin] is the linearization whose group holds it. *)
Record ErrorPoint := mkErrorPoint { ep_x : num; ep_partition : nat; ep_index : Z; ep_lin : nat }.

(** [largestIllegal] and [largestIllegalLength] of a partition. *)
Record Illegal := mkIllegal { il_largest : gmap Z Z; il_length : gmap Z Z }.
Definition note_illegal (index : Z) (linIndex : nat) (size : Z) (il : Illegal) : Illegal :=
  if match il_length il !! index with None => true | Some n => n <? size end
  then mkIllegal (<[index := Z.of_nat linIndex]> (il_largest il)) (<[index := size]> (il_length il))
  else il.

Fixpoint draw_next (xPos : gmap Z num) (part linIndex : nat) (lin : list linearizationStep) (prev : option Prev)
    (next : list (Z * el)) (il : Illegal) : option (list Line * list ErrorPoint * Illegal) :=
  match next with
  | [] => Some ([], [], il)
  | (index, e) :: next =>
      let x := lp_x xPos prev e in
      let y := lp_y e in
      p ← prev;
      final ← last lin;
      '(lines, points, il) ← draw_next xPos part linIndex lin prev next (note_illegal index linIndex (len lin) il);
      Some (link IllegalLink p x y e :: point IllegalPoint x y :: lines,
            mkErrorPoint x part (ls_Index final) linIndex :: points, il)
  end.

(** One linearization: its group of lines, the set of its illegal next steps, and
    its error points. *)
Record DrawnLin := mkDrawnLin { dl_lines : list Line; dl_illegal : list Z; dl_points : list ErrorPoint }.

Fixpoint draw_lins (xPos : gmap Z num) (part : nat) (hist : list el) (linIndex : nat)
    (lins : list (list linearizationStep)) (il : Illegal) : option (list DrawnLin * Illegal) :=
  match lins with
  | [] => Some ([], il)
  | lin :: lins =>
      '(lines, prev) ← draw_lin xPos hist None lin;
      let next := illegal_next (ls_Index <$> lin) hist in
      '(more, points, il) ← draw_next xPos part linIndex lin prev next il;
      '(rest, il) ← draw_lins xPos part hist (S linIndex) lins il;
      Some (mkDrawnLin (lines ++ more) (fst <$> next) points :: rest, il)
  end.

Record DrawnPart := mkDrawnPart { dp_lins : list DrawnLin; dp_largestIllegal : gmap Z Z }.

Fixpoint draw_parts (xPos : gmap Z num) (part : nat) (parts : list partition) : option (list DrawnPart) :=
  match parts with
  | [] => Some []
  | P :: parts =>
      '(lins, il) ← draw_lins xPos part (History P) 0 (PartialLinearizations P) (mkIllegal ∅ ∅);
      rest ← draw_parts xPos (S part) parts;
      Some (mkDrawnPart lins (il_largest il) :: rest)
  end.

(** [errorPoints.sort((a, b) => a.x - b.x)]; a [NaN] compares as equal. *)
Definition left_of (a b : ErrorPoint) : Prop :=
  match ep_x a, ep_x b with Some x, Some y => x ≤ y | _, _ => True end.
#[export] Instance left_of_dec : RelDecision left_of.
Proof. intros a b. unfold left_of. destruct (ep_x a), (ep_x b); apply _. Defined.

Definition error_points (drawn : list DrawnPart) : list ErrorPoint :=
  merge_sort left_of (drawn ≫= λ d, dp_lins d ≫= dl_points).

(** All that is drawn. *)
Record Drawn := mkDrawn {
  dr_parts : list partition;
  dr_rects : list (list Rect);
  dr_lins : list DrawnPart;
  dr_errorPoints : list ErrorPoint;
  dr_width : num;
  dr_height : Z
}.

Definition draw (data : list partitionVisualizationData) : option Drawn :=
  let parts := prepare data in
  let tss := sortedTimestamps data in
  '(xPos, _) ← layout px textWidth parts tss;
  lins ← draw_parts xPos 0 parts;
  Some (mkDrawn parts (draw_history xPos parts) lins (error_points lins) (page_width xPos tss) (page_height data)).
End Draw.

(** ** The handlers *)

(** Where the [hidden], [selected] and [inactive] classes are, the tooltip and the
    jump link; [jump_onclick] is the error point of the installed closure. *)
Record Page := mkPage {
  selected : bool;
  selectedIndex : Z * Z;
  historyHidden : list bool;
  partialHidden : list (list bool);
  rectSelected : list (list bool);
  lastTooltip : list JsVal;
  tooltip : string;
  tooltipShown : bool;
  tooltipAt : Z * Z;
  jumpInactive : bool;
  jump_onclick : option ErrorPoint
}.

Section Handlers.
Context (d : Drawn).
Notation parts := (dr_parts d).

Definition linearizationIndex (partition index : Z) : option (option Z) :=
  P ← parts@[partition]; dp ← (dr_lins d)@[partition];
  Some (match Largest P !! index with
        | Some l => Some l
        | None => dp_largestIllegal dp !! index
        end).

Definition point_hidden (partial : list (list bool)) (pt : ErrorPoint) : bool :=
  default false (h ← partial !! ep_partition pt; h !! ep_lin pt).

Definition updateJump (s : Page) : Page :=
  match List.find (λ pt, negb (point_hidden (partialHidden s) pt)) (dr_errorPoints d) with
  | Some pt => mkPage (selected s) (selectedIndex s) (historyHidden s) (partialHidden s) (rectSelected s)
                 (lastTooltip s) (tooltip s) (tooltipShown s) (tooltipAt s) false (Some pt)
  | None => mkPage (selected s) (selectedIndex s) (historyHidden s) (partialHidden s) (rectSelected s)
              (lastTooltip s) (tooltip s) (tooltipShown s) (tooltipAt s) true (jump_onclick s)
  end.

Definition set_view (h : list bool) (p : list (list bool)) (s : Page) : Page :=
  mkPage (selected s) (selectedIndex s) h p (rectSelected s) (lastTooltip s) (tooltip s) (tooltipShown s) (tooltipAt s)
    (jumpInactive s) (jump_onclick s).
Definition set_selected (b : bool) (i : Z * Z) (s : Page) : Page :=
  mkPage b i (historyHidden s) (partialHidden s) (rectSelected s) (lastTooltip s) (tooltip s) (tooltipShown s) (tooltipAt s)
    (jumpInactive s) (jump_onclick s).
Definition set_rects (r : list (list bool)) (s : Page) : Page :=
  mkPage (selected s) (selectedIndex s) (historyHidden s) (partialHidden s) r (lastTooltip s) (tooltip s)
    (tooltipShown s) (tooltipAt s) (jumpInactive s) (jump_onclick s).
Definition set_tooltip (l : list JsVal) (t : string) (b : bool) (s : Page) : Page :=
  mkPage (selected s) (selectedIndex s) (historyHidden s) (partialHidden s) (rectSelected s) l t b (tooltipAt s)
    (jumpInactive s) (jump_onclick s).

Definition set_position (x y : Z) (s : Page) : Page :=
  mkPage (selected s) (selectedIndex s) (historyHidden s) (partialHidden s) (rectSelected s) (lastTooltip s) (tooltip s)
    (tooltipShown s) (x, y) (jumpInactive s) (jump_onclick s).

(** [arr[p][i].classList.add/remove(..)]; an element that is not there throws. *)
Definition set_class (arr : list (list bool)) (p i : Z) (b : bool) : option (list (list bool)) :=
  l ← arr@[p]; l ← upd l i b; upd arr p l.

Definition highlight (partition index : Z) (s : Page) : option Page :=
  let history := imap (λ i _, negb (Z.of_nat i =? partition)) (historyHidden s) in
  let partial := (λ l : list bool, (λ _, true) <$> l) <$> partialHidden s in
  maxIndex ← linearizationIndex partition index;
  partial ← match maxIndex with Some m => set_class partial partition m false | None => Some partial end;
  Some (updateJump (set_view history partial s)).

Definition resetHighlight (s : Page) : Page :=
  updateJump (set_view ((λ _, false) <$> historyHidden s)
    ((λ l : list bool, imap (λ i _, negb (i =? 0)%nat) l) <$> partialHidden s) s).

Definition select (partition index : Z) (s : Page) : option Page :=
  s ← highlight partition index (set_selected true (partition, index) s);
  rects ← set_class (rectSelected s) partition index true;
  Some (set_rects rects s).

Definition deselect (s : Page) : option Page :=
  if negb (selected s) then Some s else
  let s := resetHighlight (set_selected false (selectedIndex s) s) in
  rects ← set_class (rectSelected s) (selectedIndex s).1 (selectedIndex s).2 false;
  Some (set_rects rects s).

Definition handleClick (partition index : Z) (s : Page) : option Page :=
  if selected s then
    if (partition =? (selectedIndex s).1) && (index =? (selectedIndex s).2) then deselect s
    else rects ← set_class (rectSelected s) (selectedIndex s).1 (selectedIndex s).2 false;
         select partition index (set_rects rects s)
  else select partition index s.

Definition handleBgClick (s : Page) : option Page := deselect s.

Definition handleMouseOver (partition index : Z) (s : Page) : option Page :=
  s ← (if negb (selected s) then highlight partition index s else Some s);
  Some (set_tooltip (lastTooltip s) (tooltip s) true s).

Definition nulls : list JsVal := [JNull; JNull; JNull; JNull; JNull].

Definition handleMouseOut (s : Page) : Page :=
  let s := if negb (selected s) then resetHighlight s else s in
  set_tooltip nulls (tooltip s) false s.

(** The loop of the tooltip: the step of [index] and the one before it. *)
Fixpoint find_step (index : Z) (lin : list linearizationStep) (curr : option linearizationStep)
    : option (option linearizationStep * linearizationStep) :=
  match lin with
  | [] => None
  | s :: lin => if ls_Index s =? index then Some (curr, s) else find_step index lin (Some s)
  end.

Definition call_ret (e : el) : string :=
  "<br><br>Call: " ++ pretty (el_Start e) ++ "<br><br>Return: " ++ pretty (el_OriginalEnd e).

Definition tooltip_text (sel : bool) (selIndex : Z * Z) (partition index : Z) : option string :=
  let '(sPartition, sIndex) := selIndex in
  maxIndex ← (if negb (sel) then linearizationIndex partition index else linearizationIndex sPartition sIndex);
  if sel && negb (sPartition =? partition) then Some "Not part of selected partition."%string else
  match maxIndex with
  | None =>
      Some (if negb (sel) then "Not part of any partial linearization."
            else "Selected element is not part of any partial linearization.")%string
  | Some maxIndex =>
      P ← parts@[partition];
      lin ← (PartialLinearizations P)@[maxIndex];
      e ← (History P)@[index];
      match find_step index lin None with
      | Some (prev, curr) =>
          Some ((match prev with
                 | Some prev => "<strong>Previous state:</strong><br>" ++ ls_StateDescription prev ++ "<br><br>"
                 | None => ""
                 end) ++ "<strong>New state:</strong><br>" ++ ls_StateDescription curr ++ call_ret e)%string
      | None =>
          dp ← (dr_lins d)@[partition]; dl ← (dp_lins dp)@[maxIndex];
          if bool_decide (index ∈ dl_illegal dl) then
            final ← last lin;
            Some ("<strong>Previous state:</strong><br>" ++ ls_StateDescription final ++
                  "<br><br><strong>New state:</strong><br>&langle;invalid op&rangle;" ++ call_ret e)%string
          else Some "Not part of selected element's partial linearization."%string
      end
  end.

(** [pageX] and [pageY] are in pixels. *)
Definition handleMouseMove (partition index pageX pageY : Z) (s : Page) : option Page :=
  let thisTooltip := [JNum partition; JNum index; JBool (selected s); JNum (selectedIndex s).1; JNum (selectedIndex s).2] in
  s ← (if negb (arrayEq (lastTooltip s) thisTooltip) then
         t ← tooltip_text (selected s) (selectedIndex s) partition index;
         Some (set_tooltip thisTooltip t (tooltipShown s) s)
       else Some s);
  Some (set_position (pageX + 20) (pageY + 20) s).

(** The closure [updateJump] installed; the scrolling is not part of the state. *)
Definition jumpClick (s : Page) : option Page :=
  match jump_onclick s with
  | Some pt => if negb (selected s) then select (Z.of_nat (ep_partition pt)) (ep_index pt) s else Some s
  | None => Some s
  end.

(** The page after [render]. *)
Definition initial_page : Page :=
  handleMouseOut
    (mkPage false (-1, -1) ((λ _, false) <$> parts) ((λ dp, (λ _, false) <$> dp_lins dp) <$> dr_lins d)
       ((λ r : list Rect, (λ _, false) <$> r) <$> dr_rects d) nulls "" false (0, 0) false None).

(** ** User events *)

Inductive UserEvent := Over (p i : Z) | Move (p i pageX pageY : Z) | Out | Click (p i : Z) | BgClick | Jump.

(** The mouse targets are the boxes; the jump link is not shown while inactive. *)
Definition enabled (s : Page) (u : UserEvent) : Prop :=
  match u with
  | Over p i | Move p i _ _ | Click p i => ∃ r, (dr_rects d)@[p] = Some r ∧ 0 ≤ i < len r
  | Out | BgClick => True
  | Jump => jumpInactive s = false
  end.

Definition handle (u : UserEvent) (s : Page) : option Page :=
  match u with
  | Over p i => handleMouseOver p i s
  | Move p i pageX pageY => handleMouseMove p i pageX pageY s
  | Out => Some (handleMouseOut s)
  | Click p i => handleClick p i s
  | BgClick => handleBgClick s
  | Jump => jumpClick s
  end.

(** A session: any sequence of enabled events. *)
Inductive session : Page → Prop :=
  | session_start : session initial_page
  | session_event s u s' : session s → enabled s u → handle u s = Some s' → session s'.
End Handlers.
End PorcupinePageUi.
