(* ===== verification/PorcupinePageDraw.v ===== *)
(** * The page is laid out and drawn correctly

    The constraints of the comments in [render], stated on the elements and partial
    linearizations: the layout satisfies them and is the least that does; every
    linearization point, legal or not, is drawn inside the box of its element. *)

From S2P Require Import Prelude PorcupineBitset Porcupine PorcupineParallel PorcupinePage PorcupinePageLayout PorcupinePagePrep PorcupinePageUi.

Module PorcupinePageDraw.
Import Porcupine PorcupineParallel PorcupinePage PorcupinePageLayout PorcupinePagePrep PorcupinePageUi.

Section Draw.
Context (px : Z) (textWidth : string → Z) (data : list partitionVisualizationData).
Notation parts := (prepare data).
Notation elems := (byGid (prepare data)).
Notation T := (sortedTimestamps data).
Notation EPS := (EPSILON px).

(** ** The constraints *)

(** Positions [q] for the points of a linearization: within the boxes, in order and
    apart, and with room for the illegal next points. *)
Record fits (x : Z → Z) (P : partition) (lin : list linearizationStep) (q : list Z) : Prop := {
  ft_length : length q = length lin;
  ft_inside j s e v : lin !! j = Some s → (History P)@[ls_Index s] = Some e → q !! j = Some v → x (start2 e) ≤ v ≤ x (el_End e);
  ft_apart j v v' : q !! j = Some v → q !! S j = Some v' → v + EPS ≤ v';
  ft_illegal k e v : last q = Some v → (k, e) ∈ illegal_next (ls_Index <$> lin) (History P) → v + EPS ≤ x (el_End e)
}.

(** Positions for time stamps: apart, boxes wide enough for their texts, and room
    for all linearization points. *)
Record good_layout (x : Z → Z) : Prop := {
  gl_nonneg t : t ∈ T → 0 ≤ x t;
  gl_gap t t' : t ∈ T → t' ∈ T → t < t' → x t + BOX_GAP px ≤ x t';
  gl_text e : e ∈ elems → x (start2 e) + box_width px textWidth e ≤ x (el_End e);
  gl_lins P lin : P ∈ parts → lin ∈ PartialLinearizations P → ∃ q, fits x P lin q
}.

Section Points.
Context (tb : Tables).
Notation pts := (pts px elems).

(** The computed points are the least that keep to the starts and the distance. *)
Lemma pts_apart x prev lin j v v' : pts x prev lin !! j = Some v → pts x prev lin !! S j = Some v' → v + EPS ≤ v'.
Proof.
  revert prev j. induction lin as [|g lin IH]; intros prev j; [done|]. destruct j as [|j]; cbn [PorcupinePageLayout.pts lookup list_lookup].
  - destruct lin as [|g' lin]; [done|]. simpl. intros [= <-] [= <-]. lia.
  - apply IH.
Qed.

Lemma pts_start x prev lin j g v : lin !! j = Some g → pts x prev lin !! j = Some v → x (start_of elems g) ≤ v.
Proof.
  revert prev j. induction lin as [|h lin IH]; intros prev j; [done|]. destruct j as [|j]; [|apply IH].
  simpl. intros [= ->] [= <-]. destruct prev; lia.
Qed.

Lemma pts_least x lin q prev : length q = length lin →
  (∀ j g v, lin !! j = Some g → q !! j = Some v → x (start_of elems g) ≤ v) →
  (∀ j v v', q !! j = Some v → q !! S j = Some v' → v + EPS ≤ v') →
  match prev, head q with Some p, Some v => p + EPS ≤ v | _, _ => True end →
  Forall2 Z.le (pts x prev lin) q.
Proof.
  revert q prev. induction lin as [|g lin IH]; intros q prev Hlen Hst Hap Hp; [by destruct q|].
  destruct q as [|v q]; [done|]. simpl in *. pose proof (Hst 0%nat g v eq_refl eq_refl).
  constructor; [destruct prev; lia|]. apply IH; [lia|by intros j; apply (Hst (S j))|by intros j; apply (Hap (S j))|].
  destruct q as [|v' q]; [done|]. simpl. pose proof (Hap 0%nat v v' eq_refl eq_refl). destruct prev; lia.
Qed.
End Points.

Context (Hpx : 0 ≤ px) (Hok : Forall partition_ok data).

(** ** The constraints of the scan are these constraints *)

Section Equivalent.
Context (tb : Tables) (Htb : tables_for (length elems) (origins parts) tb).

Lemma start_of_idx P k e : P ∈ parts → (History P)@[k] = Some e → start_of elems (el_Gid e) = start2 e.
Proof using. intros HP Hk. destruct (history_idx data P k e HP Hk) as (_&_&_&_&_&_&E&_). unfold start_of. by rewrite E. Qed.

Lemma origin_of P lin : P ∈ parts → lin ∈ PartialLinearizations P →
  ∃ index, origins parts !! index = Some (P, lin) ∧ lin_of tb index = gids P lin.
Proof using Htb.
  intros HP Hl. assert (Ho : (P, lin) ∈ origins parts).
  { unfold origins. apply list_elem_of_bind. exists P. split; [|done]. apply list_elem_of_fmap. eauto. }
  apply list_elem_of_lookup in Ho as [index Ho]. exists index. split; [done|].
  unfold lin_of. by rewrite (tf_lins _ _ _ Htb), list_lookup_fmap, Ho.
Qed.

Lemma elem_gid e : e ∈ elems → elems !! el_Gid e = Some e.
Proof using. intros (g&Hg)%list_elem_of_lookup. pose proof Hg as (h&_&->)%byGid_lookup. done. Qed.

Lemma illegal_next_idx P lin k e : (k, e) ∈ illegal_next (ls_Index <$> lin) (History P) → (History P)@[k] = Some e.
Proof using. intros [_ (i&e'&[= -> ->]&Hi)%elem_of_lookup_imap]%list_elem_of_filter. by rewrite idx_nat. Qed.

Lemma pt_gids x P lin index j v : lin_of tb index = gids P lin → pts px elems x None (gids P lin) !! j = Some v → pt px elems tb x index j = v.
Proof using. intros E H. unfold pt. by rewrite E, H. Qed.

Lemma solves_good x : solves px textWidth elems tb T x → good_layout x.
Proof using Hok Htb.
  intros [Hnn Hgap Hd]. split; [done|done|intros e He; apply (Hd e He)|]. intros P lin HP Hl.
  destruct (origin_of P lin HP Hl) as (index&Ho&E). destruct (lin_ok data Hok P lin HP Hl) as (Hne&Hnd&Hin).
  exists (pts px elems x None (gids P lin)). assert (Hlen : length (pts px elems x None (gids P lin)) = length lin) by (by rewrite pts_length, (gids_length _ _ _ Hin)).
  split; [done| |intros j v v'; apply pts_apart|].
  - intros j s e v Hj He Hv. assert (Hg : gids P lin !! j = Some (el_Gid e)) by (apply (gids_lookup _ _ _ _ _ Hin); eauto).
    pose proof (pts_start x None _ j _ v Hg Hv) as Hs. rewrite (start_of_idx P _ e HP He) in Hs. split; [done|].
    destruct (history_idx data P _ e HP He) as (_&_&_&_&_&_&Hb&_). destruct (Hd e (list_elem_of_lookup_2 _ _ _ Hb)) as (_&Hli&_).
    specialize (Hli index (Z.of_nat j)). rewrite Nat2Z.id, (pt_gids x P lin index j v E Hv) in Hli. apply Hli.
    apply (tf_lis _ _ _ Htb). exists (P, lin), j. auto.
  - intros k e v Hlast Hke. rewrite last_lookup, Hlen in Hlast. pose proof (illegal_next_idx P lin k e Hke) as Hk.
    destruct (history_idx data P k e HP Hk) as (_&_&_&_&_&_&Hb&_). destruct (Hd e (list_elem_of_lookup_2 _ _ _ Hb)) as (_&_&Hil).
    specialize (Hil index). rewrite E, (gids_length _ _ _ Hin) in Hil. replace (length lin - 1)%nat with (pred (length lin)) in Hil by lia.
    rewrite (pt_gids x P lin index _ v E Hlast) in Hil. apply Hil. apply (tf_illegal _ _ _ Htb). exists (P, lin), (k, e). auto.
Qed.

Lemma fits_le x P lin q : P ∈ parts → lin ∈ PartialLinearizations P → fits x P lin q →
  Forall2 Z.le (pts px elems x None (gids P lin)) q.
Proof using Hok.
  intros HP Hl [Hlen Hins Hap _]. destruct (lin_ok data Hok P lin HP Hl) as (_&_&Hin).
  apply pts_least; [by rewrite (gids_length _ _ _ Hin)| |done|by destruct (head q)].
  intros i g w Hg Hw. apply (gids_lookup _ _ _ _ _ Hin) in Hg as (s&e&Hs&He&<-). rewrite (start_of_idx P _ e HP He). by eapply Hins.
Qed.

Lemma fits_pts x P lin q index : P ∈ parts → lin ∈ PartialLinearizations P → lin_of tb index = gids P lin → fits x P lin q →
  ∀ j v, q !! j = Some v → pt px elems tb x index j ≤ v.
Proof using Hok.
  intros HP Hl E Hf j v Hv. destruct (Forall2_lookup_r _ _ _ _ _ (fits_le x P lin q HP Hl Hf) Hv) as (w&Hw&?).
  by rewrite (pt_gids x P lin index j w E Hw).
Qed.

(** If any points fit, the computed ones do. *)
Lemma least_fits x P lin q : P ∈ parts → lin ∈ PartialLinearizations P → fits x P lin q → fits x P lin (pts px elems x None (gids P lin)).
Proof using Hok.
  intros HP Hl Hf. pose proof (fits_le x P lin q HP Hl Hf) as Hle. pose proof (Forall2_length _ _ _ Hle) as Hlen.
  destruct (lin_ok data Hok P lin HP Hl) as (_&_&Hin). split; [by rewrite pts_length, (gids_length _ _ _ Hin)| |intros j v v'; apply pts_apart|].
  - intros j s e v Hj He Hv. assert (Hg : gids P lin !! j = Some (el_Gid e)) by (apply (gids_lookup _ _ _ _ _ Hin); eauto).
    pose proof (pts_start x None _ j _ v Hg Hv) as Hs. rewrite (start_of_idx P _ e HP He) in Hs.
    destruct (Forall2_lookup_l _ _ _ _ _ Hle Hv) as (w&Hw&?). pose proof (ft_inside _ _ _ _ Hf j s e w Hj He Hw). lia.
  - intros k e v Hv Hke. rewrite last_lookup, Hlen in Hv. destruct (Forall2_lookup_l _ _ _ _ _ Hle Hv) as (w&Hw&?).
    rewrite <-last_lookup in Hw. pose proof (ft_illegal _ _ _ _ Hf k e w Hw Hke). lia.
Qed.

Lemma good_solves x : good_layout x → solves px textWidth elems tb T x.
Proof using Hok Htb.
  intros [Hnn Hgap Htxt Hlins]. split; [done|done|]. intros e He. split; [by apply Htxt|]. cbn [ev_gid event_of].
  pose proof (elem_gid e He) as Hg. split.
  - intros index position ([P lin]&j&Ho&Hj&->)%(tf_lis _ _ _ Htb). rewrite Nat2Z.id. destruct (origins_lookup _ _ _ Ho) as [HP Hl]. simpl in *.
    assert (E : lin_of tb index = gids P lin) by (unfold lin_of; by rewrite (tf_lins _ _ _ Htb), list_lookup_fmap, Ho).
    destruct (Hlins P lin HP Hl) as [q Hq]. destruct (lin_ok data Hok P lin HP Hl) as (_&_&Hin).
    apply (gids_lookup _ _ _ _ _ Hin) in Hj as (s&e'&Hs&He'&Hge). assert (e' = e) as ->.
    { destruct (history_idx data P _ e' HP He') as (_&_&_&_&_&_&Hb&_). congruence. }
    destruct (lookup_lt_is_Some_2 q j) as [v Hv]; [rewrite (ft_length _ _ _ _ Hq); by eapply lookup_lt_Some|].
    pose proof (fits_pts x P lin q index HP Hl E Hq j v Hv). pose proof (ft_inside _ _ _ _ Hq j s e v Hs He' Hv). lia.
  - intros index ([P lin]&[k e']&Ho&Hke&Hge)%(tf_illegal _ _ _ Htb). destruct (origins_lookup _ _ _ Ho) as [HP Hl]. simpl in *.
    assert (E : lin_of tb index = gids P lin) by (unfold lin_of; by rewrite (tf_lins _ _ _ Htb), list_lookup_fmap, Ho).
    destruct (Hlins P lin HP Hl) as [q Hq]. destruct (lin_ok data Hok P lin HP Hl) as (Hne&_&Hin).
    assert (e' = e) as ->.
    { destruct (history_idx data P _ e' HP (illegal_next_idx P lin k e' Hke)) as (_&_&_&_&_&_&Hb&_). congruence. }
    rewrite E, (gids_length _ _ _ Hin). destruct (last q) as [v|] eqn:Hlast; [|apply last_None in Hlast; destruct Hq as [Hlen _ _ _]; rewrite Hlast in Hlen; by destruct lin].
    pose proof (ft_illegal _ _ _ _ Hq k e v Hlast Hke). rewrite last_lookup, (ft_length _ _ _ _ Hq) in Hlast.
    replace (length lin - 1)%nat with (pred (length lin)) by lia. pose proof (fits_pts x P lin q index HP Hl E Hq _ v Hlast). lia.
Qed.
End Equivalent.

(** ** The layout *)

Lemma byEnd_sorted : ∃ es, byEnd px textWidth parts = event_of px textWidth <$> es ∧ es ≡ₚ elems ∧ StronglySorted by_end es.
Proof using.
  assert (Htr : Transitive ends_before) by (intros a b c; unfold ends_before; lia). assert (Hto : Total ends_before) by (intros a b; unfold ends_before; lia).
  unfold byEnd. pose proof (merge_sort_Permutation ends_before (event_of px textWidth <$> elems)) as Hp.
  pose proof (StronglySorted_merge_sort ends_before (event_of px textWidth <$> elems)) as Hs.
  destruct (Permutation_map_inv _ _ Hp) as (es&E&Hes). exists es. rewrite E in *. split; [done|]. split; [by symmetry|].
  clear -Hs. change (map (event_of px textWidth) es) with (event_of px textWidth <$> es) in Hs. induction es as [|e es IH]; [constructor|].
  rewrite fmap_cons in Hs. apply StronglySorted_inv in Hs as [Hs Hall]. constructor; [by apply IH|]. by rewrite Forall_fmap in Hall.
Qed.

Lemma layout_correct : ∃ tb xPos lps, tables_for (length elems) (origins parts) tb ∧
  layout px textWidth parts T = Some (xPos, lps) ∧ (∀ t, t ∈ T → known xPos t) ∧
  good_layout (val xPos) ∧ (∀ y t, good_layout y → t ∈ T → val xPos t ≤ y t) ∧
  ∀ index P lin, origins parts !! index = Some (P, lin) → lps !! index = Some (Some <$> pts px elems (val xPos) None (gids P lin)).
Proof using Hok Hpx.
  destruct (tables_ok parts (parts_in data Hok)) as (tb&Et&Htb). pose proof (prepared_scan_input data Hok tb Htb) as Hsi.
  unfold layout. rewrite Et. cbn [mbind option_bind]. destruct T as [|t0 tss] eqn:ET.
  - assert (He : elems = []). { destruct elems as [|e es] eqn:Ee; [done|]. destruct (si_time _ _ _ Hsi e ltac:(left)) as (_&Hin&_). by apply elem_of_nil in Hin. }
    assert (Ho : origins parts = []).
    { destruct (origins parts) as [|[P lin] os] eqn:Eo; [done|]. destruct (origins_lookup parts 0 (P, lin)) as [HP Hl]; [by rewrite Eo|]. simpl in *.
      destruct (lin_ok data Hok P lin HP Hl) as (Hne&_&Hin). destruct Hin as [|s l (e&_&Hlt) _]; [done|]. rewrite He in Hlt. simpl in Hlt. lia. }
    eexists tb, _, _. rewrite <-ET. split; [done|]. split; [done|]. split; [intros t Ht; rewrite ET in Ht; by apply elem_of_nil in Ht|].
    split; [|split; [intros y t _ Ht; rewrite ET in Ht; by apply elem_of_nil in Ht|intros index P lin H; by rewrite Ho in H]].
    split; [intros t Ht; rewrite ET in Ht; by apply elem_of_nil in Ht|intros t t' Ht; rewrite ET in Ht; by apply elem_of_nil in Ht| |].
    + intros e Hin. rewrite He in Hin. by apply elem_of_nil in Hin.
    + intros P lin HP Hl. destruct (origin_of tb Htb P lin HP Hl) as (index&Hi&_). by rewrite Ho in Hi.
  - destruct byEnd_sorted as (es&->&Hes&Hsort). rewrite <-ET in *.
    destruct (scan_correct px textWidth elems tb T Hpx Hsi t0 tss es ET Hes Hsort) as (xPos&lps&->&Hkn&Hsol&Hleast&Hlen&Hlps).
    exists tb, xPos, lps. split; [done|]. split; [done|]. split; [done|]. split; [by apply (solves_good tb)|].
    split; [intros y t Hy Ht; apply Hleast; [by apply good_solves|done]|].
    intros index P lin Ho. assert (El : allLinearizations tb !! index = Some (gids P lin)) by (by rewrite (tf_lins _ _ _ Htb), list_lookup_fmap, Ho).
    rewrite Hlps by (by eapply lookup_lt_Some). unfold lin_of. by rewrite El.
Qed.

(** ** Drawing *)

Definition xs (class : LineClass) (lines : list Line) : list num :=
  omap (λ l, match class, l_class l with Point, Point | IllegalPoint, IllegalPoint => Some (l_x1 l) | _, _ => None end) lines.

Lemma xs_app class lines lines' : xs class (lines ++ lines') = xs class lines ++ xs class lines'.
Proof using. apply omap_app. Qed.

Notation PX := (PADDING px + XOFF px).
Definition shift (v : Z) : num := Some (PX + v).

(** The previous point of the drawing is the previous point of the layout. *)
Definition prev_at (prev : option Prev) (v : option Z) : Prop :=
  match prev, v with Some p, Some v => prevX p = shift v | None, None => True | _, _ => False end.

Lemma lp_x_eq xPos prev v e : known xPos (start2 e) → prev_at prev v →
  lp_x px xPos prev e = shift (match v with None => val xPos (start2 e) | Some q => Z.max (val xPos (start2 e)) (q + EPS) end).
Proof using.
  intros Hk Hp. unfold lp_x. rewrite (known_get _ _ Hk). destruct prev as [p|], v as [v|]; try done. cbn in Hp. rewrite Hp.
  unfold shift. cbn [num_add num_max mbind option_bind]. f_equal. lia.
Qed.

Section Lines.
Context (xPos : gmap Z num) (Hkn : ∀ t, t ∈ T → known xPos t).

Lemma start_known P k e : P ∈ parts → (History P)@[k] = Some e → known xPos (start2 e).
Proof using Hkn.
  intros HP Hk. destruct (history_idx data P k e HP Hk) as (_&h&_&_&_&Hh&_&E&_). apply Hkn, sortedTimestamps_spec.
  exists h. split; [done|]. left. by rewrite E.
Qed.

Lemma end_known P k e : P ∈ parts → (History P)@[k] = Some e → known xPos (el_End e).
Proof using Hkn.
  intros HP Hk. destruct (history_idx data P k e HP Hk) as (_&h&_&_&_&Hh&_&E&_). apply Hkn, sortedTimestamps_spec.
  exists h. split; [done|]. right; right. by rewrite E.
Qed.

Lemma draw_lin_ok P lin prev v : P ∈ parts → lin_in P (length elems) lin → prev_at prev v →
  ∃ lines prev', draw_lin px xPos (History P) prev lin = Some (lines, prev') ∧
    xs Point lines = shift <$> pts px elems (val xPos) v (gids P lin) ∧ xs IllegalPoint lines = [] ∧
    prev_at prev' (match last (pts px elems (val xPos) v (gids P lin)) with Some q => Some q | None => v end).
Proof using Hkn.
  intros HP Hin. revert prev v. induction Hin as [|s lin (e&He&_) Hin IH]; intros prev v Hp; cbn [draw_lin].
  { exists [], prev. by split_and!. }
  rewrite He, (gids_cons _ _ _ _ He). cbn [mbind option_bind PorcupinePageLayout.pts].
  rewrite (start_of_idx P _ e HP He), (lp_x_eq xPos prev v e (start_known P _ e HP He) Hp).
  set (w := match v with None => _ | Some q => _ end).
  destruct (IH (Some (mkPrev (shift w) (lp_y px e) e)) (Some w) eq_refl) as (lines&prev'&->&H1&H2&H3). cbn [mbind option_bind].
  eexists _, prev'. split; [done|]. rewrite !xs_app, H1, H2. split_and!; [by destruct prev|by destruct prev|].
  destruct (pts px elems (val xPos) (Some w) (gids P lin)) as [|q qs] eqn:E; [done|]. rewrite last_cons_cons.
  by destruct (last (q :: qs)) eqn:El; [|apply last_None in El].
Qed.

Definition illegal_x (v : Z) (ke : Z * el) : num := shift (Z.max (val xPos (start2 ke.2)) (v + EPS)).

Definition points_ok (part linIndex : nat) (lin : list linearizationStep) (points : list ErrorPoint) : Prop :=
  Forall (λ pt, ep_partition pt = part ∧ ep_lin pt = linIndex ∧ Some (ep_index pt) = ls_Index <$> last lin) points.

(** Only linearizations drawn so far are noted. *)
Definition noted (n : nat) (il : Illegal) : Prop := map_Forall (λ _ l, 0 ≤ l < Z.of_nat n) (il_largest il).

Lemma noted_mono n n' il : (n ≤ n')%nat → noted n il → noted n' il.
Proof using. intros Hn H k l Hl. specialize (H k l Hl). simpl in *. lia. Qed.

Lemma draw_next_ok part linIndex lin p v next il : lin ≠ [] → prev_at (Some p) (Some v) →
  Forall (λ ke, known xPos (start2 ke.2)) next → noted (S linIndex) il →
  ∃ lines points il', draw_next px xPos part linIndex lin (Some p) next il = Some (lines, points, il') ∧
    xs Point lines = [] ∧ xs IllegalPoint lines = illegal_x v <$> next ∧ points_ok part linIndex lin points ∧ noted (S linIndex) il'.
Proof using.
  intros Hne Hp Hk. revert il. induction Hk as [|[k e] next Hke Hk IH]; intros il Hn; cbn [draw_next].
  { exists [], [], il. split_and!; [done..|constructor|done]. }
  rewrite (lp_x_eq xPos (Some p) (Some v) e Hke Hp). cbn [mbind option_bind].
  destruct (last lin) as [final|] eqn:El; [|by apply last_None in El]. cbn [mbind option_bind].
  destruct (IH (note_illegal k linIndex (len lin) il)) as (lines&points&il'&->&H1&H2&H3&H4).
  { unfold note_illegal. destruct (match _ with None => _ | Some _ => _ end); [|done]. unfold noted. cbn [il_largest].
    apply map_Forall_insert_2; [lia|done]. }
  cbn [mbind option_bind]. eexists _, _, _. split; [done|]. split_and!; [done| |constructor; [by rewrite El|done]|done].
  cbn. by rewrite <-H2.
Qed.

(** What is drawn of a linearization. *)
Record lin_drawn (P : partition) (part linIndex : nat) (lin : list linearizationStep) (dl : DrawnLin) : Prop := {
  ld_points : xs Point (dl_lines dl) = shift <$> pts px elems (val xPos) None (gids P lin);
  ld_illegal : ∃ v, last (pts px elems (val xPos) None (gids P lin)) = Some v ∧
    xs IllegalPoint (dl_lines dl) = illegal_x v <$> illegal_next (ls_Index <$> lin) (History P);
  ld_set : dl_illegal dl = fst <$> illegal_next (ls_Index <$> lin) (History P);
  ld_error : points_ok part linIndex lin (dl_points dl)
}.

Lemma draw_lins_ok P part linIndex lins il : P ∈ parts →
  Forall (λ lin, lin ≠ [] ∧ lin_in P (length elems) lin) lins → noted linIndex il →
  ∃ dls il', draw_lins px xPos part (History P) linIndex lins il = Some (dls, il') ∧
    length dls = length lins ∧ (∀ l lin dl, lins !! l = Some lin → dls !! l = Some dl → lin_drawn P part (linIndex + l) lin dl) ∧
    noted (linIndex + length lins) il'.
Proof using Hkn.
  intros HP Hl. revert linIndex il. induction Hl as [|lin lins [Hne Hin] Hl IH]; intros linIndex il Hn; cbn [draw_lins].
  { exists [], il. split_and!; [done..|]. by rewrite Nat.add_0_r. }
  destruct (draw_lin_ok P lin None None HP Hin I) as (lines&prev&->&H1&H2&H3). cbn [mbind option_bind].
  destruct (last (pts px elems (val xPos) None (gids P lin))) as [v|] eqn:El; cycle 1.
  { apply last_None, (f_equal length) in El. rewrite pts_length, (gids_length _ _ _ Hin) in El. by destruct lin. }
  destruct prev as [p|]; [|done].
  destruct (draw_next_ok part linIndex lin p v (illegal_next (ls_Index <$> lin) (History P)) il) as (more&points&il1&->&H4&H5&H6&H7); [done..| |by eapply noted_mono; [|done]; lia|].
  { apply Forall_forall. intros [k e] Hke. simpl. by eapply start_known, illegal_next_idx. }
  cbn [mbind option_bind]. destruct (IH (S linIndex) il1 H7) as (dls&il'&->&Hlen&Hd&Hn'). cbn [mbind option_bind].
  eexists _, il'. split; [done|]. split; [simpl; congruence|]. split; [|simpl; by rewrite <-Nat.add_succ_comm].
  intros [|l] lin' dl; simpl.
  - intros [= <-] [= <-]. rewrite Nat.add_0_r. split; cbn [dl_lines dl_illegal dl_points]; [by rewrite xs_app, H1, H4, app_nil_r| |done|done].
    exists v. split; [done|]. by rewrite xs_app, H2, H5.
  - rewrite <-Nat.add_succ_comm. apply Hd.
Qed.

Lemma draw_parts_ok n ps : (∀ q P, ps !! q = Some P → parts !! (n + q)%nat = Some P) →
  ∃ dps, draw_parts px xPos n ps = Some dps ∧ length dps = length ps ∧
    ∀ q P dp, ps !! q = Some P → dps !! q = Some dp →
      length (dp_lins dp) = length (PartialLinearizations P) ∧
      (∀ l lin dl, PartialLinearizations P !! l = Some lin → dp_lins dp !! l = Some dl → lin_drawn P (n + q) l lin dl) ∧
      map_Forall (λ _ l, 0 ≤ l < len (PartialLinearizations P)) (dp_largestIllegal dp).
Proof using Hok Hkn.
  revert n. induction ps as [|P ps IH]; intros n Hps; cbn [draw_parts]; [by exists []|].
  assert (HP : P ∈ parts) by (eapply list_elem_of_lookup_2, (Hps 0%nat); done).
  destruct (draw_lins_ok P n 0 (PartialLinearizations P) (mkIllegal ∅ ∅) HP) as (dls&il&->&Hlen&Hd&Hn).
  { apply Forall_forall. intros lin Hl. destruct (lin_ok data Hok P lin HP Hl) as (?&_&?). done. }
  { apply map_Forall_empty. }
  cbn [mbind option_bind]. destruct (IH (S n)) as (dps&->&Hl&Hrest).
  { intros q Q Hq. rewrite Nat.add_succ_comm. by apply (Hps (S q)). }
  cbn [mbind option_bind]. eexists. split; [done|]. split; [simpl; congruence|].
  intros [|q] Q dp; simpl; [intros [= <-] [= <-]; rewrite Nat.add_0_r; by split_and!|].
  rewrite <-Nat.add_succ_comm. apply Hrest.
Qed.
End Lines.
End Draw.
End PorcupinePageDraw.
