(* ===== verification/PorcupinePageSession.v ===== *)
(** * Sessions on the page

    An abstract view of the page: which element is selected, and which one the mouse
    highlights.  Every handler follows it, for every sequence of mouse events, and
    none throws. *)

From S2P Require Import Prelude PorcupineBitset Porcupine PorcupineParallel PorcupinePage PorcupinePageLayout PorcupinePagePrep PorcupinePageUi PorcupinePageDraw.

Module PorcupinePageSession.
Import Porcupine PorcupineParallel PorcupinePage PorcupinePageLayout PorcupinePagePrep PorcupinePageUi PorcupinePageDraw.

(** ** Grids of classes *)

Lemma constant {A B} (l : list A) (b : B) : (λ _, b) <$> l = replicate (length l) b.
Proof. by apply const_fmap. Qed.

Definition grid (sizes : list nat) (f : nat → nat → bool) : list (list bool) := imap (λ k m, f k <$> seq 0 m) sizes.

Lemma grid_lookup sizes f k : grid sizes f !! k = (λ m, f k <$> seq 0 m) <$> sizes !! k.
Proof. unfold grid. by rewrite list_lookup_imap. Qed.

Lemma grid_ext sizes f g : (∀ k m l, sizes !! k = Some m → (l < m)%nat → f k l = g k l) → grid sizes f = grid sizes g.
Proof.
  intros H. apply list_eq. intros k. rewrite !grid_lookup. destruct (sizes !! k) as [m|] eqn:E; [|done]. simpl. f_equal.
  apply list_fmap_ext. intros i x [-> Hlt]%lookup_seq. apply (H k m); [done|lia].
Qed.

(** Operations that overwrite every class. *)
Lemma grid_overwrite sizes f (g : nat → bool) : (λ l : list bool, imap (λ i _, g i) l) <$> grid sizes f = grid sizes (λ _ i, g i).
Proof.
  apply list_eq. intros k. rewrite list_lookup_fmap, !grid_lookup. destruct (sizes !! k) as [m|]; [|done]. simpl. f_equal.
  apply list_eq. intros i. rewrite list_lookup_imap, !list_lookup_fmap. destruct (seq 0 m !! i) as [x|] eqn:E; [|done].
  simpl. apply lookup_seq in E as [-> _]. done.
Qed.

Lemma grid_all sizes f b : (λ l : list bool, (λ _, b) <$> l) <$> grid sizes f = grid sizes (λ _ _, b).
Proof.
  apply list_eq. intros k. rewrite list_lookup_fmap, !grid_lookup. destruct (sizes !! k) as [m|]; [|done]. simpl. f_equal. by rewrite <-list_fmap_compose.
Qed.

Lemma grid_rows {A} (rows : list (list A)) b : (λ r : list A, (λ _, b) <$> r) <$> rows = grid (length <$> rows) (λ _ _, b).
Proof.
  apply list_eq. intros k. rewrite grid_lookup, !list_lookup_fmap. destruct (rows !! k) as [r|]; [|done]. simpl. f_equal.
  by rewrite !constant, length_seq.
Qed.

(** One class changes. *)
Definition at_cell (p i : Z) (k l : nat) : bool := (Z.of_nat k =? p) && (Z.of_nat l =? i).

Lemma grid_set_class sizes f p i b m : sizes@[p] = Some m → 0 ≤ i < Z.of_nat m →
  set_class (grid sizes f) p i b = Some (grid sizes (λ k l, if at_cell p i k l then b else f k l)).
Proof.
  intros (k&->&Hk)%idx_lookup Hi. unfold set_class. rewrite idx_nat, grid_lookup, Hk. cbn [fmap option_fmap option_map mbind option_bind].
  rewrite upd_in_range by (unfold len; rewrite length_fmap, length_seq; lia). cbn [mbind option_bind].
  rewrite upd_in_range by (unfold len, grid; rewrite length_imap; apply lookup_lt_Some in Hk; lia). f_equal. rewrite Nat2Z.id.
  apply list_eq. intros k'. rewrite grid_lookup. unfold at_cell. destruct (decide (k = k')) as [<-|Hne].
  - rewrite list_lookup_insert_eq by (unfold grid; rewrite length_imap; by eapply lookup_lt_Some). rewrite Hk. simpl. f_equal.
    apply list_eq. intros l. rewrite Z.eqb_refl. simpl. rewrite list_lookup_fmap. destruct (decide (Z.to_nat i = l)) as [<-|Hnl].
    + rewrite list_lookup_insert_eq by (rewrite length_fmap, length_seq; lia). rewrite lookup_seq_lt by lia. simpl. by rewrite (proj2 (Z.eqb_eq _ _)) by lia.
    + rewrite list_lookup_insert_ne, list_lookup_fmap by done. destruct (seq 0 m !! l) as [x|] eqn:E; [|done]. apply lookup_seq in E as [-> _].
      simpl. by rewrite (proj2 (Z.eqb_neq _ _)) by lia.
  - rewrite list_lookup_insert_ne, grid_lookup by done. destruct (sizes !! k') as [m'|]; [|done]. simpl. do 2 f_equal.
    by rewrite (proj2 (Z.eqb_neq _ _)) by lia.
Qed.

Section Session.
Context (d : Drawn).
Notation parts := (dr_parts d).

(** ** What is drawn fits together *)

(** A box of the page. *)
Definition target (x : Z * Z) : Prop := ∃ r, (dr_rects d)@[x.1] = Some r ∧ 0 ≤ x.2 < len r.

Record drawn_ok : Prop := {
  do_rects : length <$> dr_rects d = (λ P, length (History P)) <$> parts;
  do_lins : (λ dp, length (dp_lins dp)) <$> dr_lins d = (λ P, length (PartialLinearizations P)) <$> parts;
  do_lin_ok P lin : P ∈ parts → lin ∈ PartialLinearizations P → lin ≠ [] ∧ Forall (λ s, is_Some ((History P)@[ls_Index s])) lin;
  do_largest p P k l : parts@[p] = Some P → Largest P !! k = Some l → 0 ≤ l < len (PartialLinearizations P);
  do_illegal p dp k l : (dr_lins d)@[p] = Some dp → dp_largestIllegal dp !! k = Some l → 0 ≤ l < len (dp_lins dp);
  do_error pt : pt ∈ dr_errorPoints d → ∃ P lin, parts !! ep_partition pt = Some P ∧
    PartialLinearizations P !! ep_lin pt = Some lin ∧ Some (ep_index pt) = ls_Index <$> last lin;
  do_first P lin k : P ∈ parts → PartialLinearizations P !! 0%nat = Some lin → k ∈ ls_Index <$> lin → Largest P !! k = Some 0
}.

(** ** The abstract page *)

(** The element that is selected, and the one that is highlighted. *)
Record View := mkView { v_selected : option (Z * Z); v_hover : option (Z * Z) }.
Definition shown (v : View) : option (Z * Z) := match v_selected v with Some x => Some x | None => v_hover v end.

(** The linearization an element shows. *)
Definition lin_shown (x : Z * Z) : option Z := mjoin (linearizationIndex d x.1 x.2).

(** Which layers are hidden. *)
Definition layer_hidden (o : option (Z * Z)) (k : nat) : bool :=
  match o with None => false | Some x => negb (Z.of_nat k =? x.1) end.
Definition lin_hidden (o : option (Z * Z)) (k l : nat) : bool :=
  match o with
  | None => negb (l =? 0)%nat
  | Some x => match lin_shown x with Some m => negb (at_cell x.1 m k l) | None => true end
  end.

(** Which boxes have the class [selected]. *)
Definition box (o : option (Z * Z)) (k l : nat) : bool := bool_decide (o = Some (Z.of_nat k, Z.of_nat l)).

Notation psizes := ((λ dp, length (dp_lins dp)) <$> dr_lins d).
Notation rsizes := (length <$> dr_rects d).

(** The first visible error point, from the left. *)
Definition first_error (o : option (Z * Z)) : option ErrorPoint :=
  List.find (λ pt, negb (point_hidden (grid psizes (lin_hidden o)) pt)) (dr_errorPoints d).

(** What an event does to the view. *)
Definition view_step (u : UserEvent) (v : View) : View :=
  match u with
  | Over p i => match v_selected v with None => mkView None (Some (p, i)) | Some _ => v end
  | Out => match v_selected v with None => mkView None None | Some _ => v end
  | Move _ _ _ _ => v
  | Click p i => if decide (v_selected v = Some (p, i)) then mkView None None else mkView (Some (p, i)) (v_hover v)
  | BgClick => match v_selected v with Some _ => mkView None None | None => v end
  | Jump =>
      match v_selected v, first_error (shown v) with
      | None, Some pt => mkView (Some (Z.of_nat (ep_partition pt), ep_index pt)) (v_hover v)
      | _, _ => v
      end
  end.

(** The page shows the view: the classes of all layers, lines and boxes, and the jump
    link to the first visible error. *)
Record shows (s : Page) (v : View) : Prop := {
  sh_selected : selected s = bool_decide (is_Some (v_selected v));
  sh_index x : v_selected v = Some x → selectedIndex s = x;
  sh_target x : shown v = Some x → target x;
  sh_history : historyHidden s = layer_hidden (shown v) <$> seq 0 (length parts);
  sh_partial : partialHidden s = grid psizes (lin_hidden (shown v));
  sh_rects : rectSelected s = grid rsizes (box (v_selected v));
  sh_jump : match first_error (shown v) with
            | Some pt => jumpInactive s = false ∧ jump_onclick s = Some pt
            | None => jumpInactive s = true
            end
}.

(** ** The handlers keep to it *)

Context (Hd : drawn_ok).

Lemma target_part x : target x → ∃ P dp r, parts@[x.1] = Some P ∧ (dr_lins d)@[x.1] = Some dp ∧ (dr_rects d)@[x.1] = Some r ∧
  length (dp_lins dp) = length (PartialLinearizations P) ∧ 0 ≤ x.2 < len (History P) ∧ length r = length (History P).
Proof using Hd.
  intros (r&(k&E&Hr)%idx_lookup&Hi). rewrite E, !idx_nat.
  pose proof (f_equal (.!! k) (do_rects Hd)) as H1. cbn beta in H1. rewrite !list_lookup_fmap, Hr in H1. destruct (parts !! k) as [P|] eqn:EP; [|done].
  pose proof (f_equal (.!! k) (do_lins Hd)) as H2. cbn beta in H2. rewrite !list_lookup_fmap, EP in H2. destruct (dr_lins d !! k) as [dp|] eqn:Ed; [|done].
  injection H1 as H1. injection H2 as H2. exists P, dp, r. unfold len in *. rewrite H1 in Hi. split_and!; [done..|lia|lia|done].
Qed.

(** Every box has a linearization to show, or none. *)
Lemma linearizationIndex_ok x : target x → linearizationIndex d x.1 x.2 = Some (lin_shown x) ∧
  ∀ m, lin_shown x = Some m → ∃ n, psizes@[x.1] = Some n ∧ 0 ≤ m < Z.of_nat n.
Proof using Hd.
  intros Hx. destruct (target_part x Hx) as (P&dp&r&HP&Hdp&_&Hlen&_&_). unfold lin_shown, linearizationIndex. rewrite HP, Hdp.
  cbn [mbind option_bind mjoin option_join]. split; [done|]. intros m Hm. pose proof Hdp as (k&E&Hk)%idx_lookup.
  exists (length (dp_lins dp)). split; [by rewrite E, idx_nat, list_lookup_fmap, Hk|].
  destruct (Largest P !! x.2) as [l|] eqn:El; [injection Hm as ->; pose proof (do_largest Hd _ _ _ _ HP El)|pose proof (do_illegal Hd _ _ _ _ Hdp Hm)]; unfold len in *; lia.
Qed.

(** [updateJump] sets the jump link and nothing else. *)
Lemma updateJump_ok o s : partialHidden s = grid psizes (lin_hidden o) →
  match first_error o with
  | Some pt => jumpInactive (updateJump d s) = false ∧ jump_onclick (updateJump d s) = Some pt
  | None => jumpInactive (updateJump d s) = true
  end ∧
  selected (updateJump d s) = selected s ∧ selectedIndex (updateJump d s) = selectedIndex s ∧
  historyHidden (updateJump d s) = historyHidden s ∧ partialHidden (updateJump d s) = partialHidden s ∧
  rectSelected (updateJump d s) = rectSelected s.
Proof using. intros E. unfold updateJump, first_error. rewrite E. destruct (List.find _ _); done. Qed.

(** Sizes do not change. *)
Definition sized (s : Page) : Prop :=
  length (historyHidden s) = length parts ∧ ∃ f, partialHidden s = grid psizes f.

Lemma shows_sized s v : shows s v → sized s.
Proof using. intros Hs. split; [rewrite (sh_history _ _ Hs), length_fmap, length_seq; done|]. rewrite (sh_partial _ _ Hs). eauto. Qed.

Lemma imap_index {A B} (f : nat → B) (l : list A) : imap (λ i _, f i) l = f <$> seq 0 (length l).
Proof using.
  apply list_eq. intros i. rewrite list_lookup_imap, list_lookup_fmap. destruct (l !! i) eqn:E; simpl.
  - rewrite lookup_seq_lt by (by eapply lookup_lt_Some). done.
  - rewrite (lookup_ge_None_2 (seq _ _)); [done|]. rewrite length_seq. by apply lookup_ge_None.
Qed.

(** A page whose classes and jump link are those of [o], with the rest of [s]. *)
Record viewing (o : option (Z * Z)) (s s' : Page) : Prop := {
  vw_selected : selected s' = selected s;
  vw_index : selectedIndex s' = selectedIndex s;
  vw_history : historyHidden s' = layer_hidden o <$> seq 0 (length parts);
  vw_partial : partialHidden s' = grid psizes (lin_hidden o);
  vw_rects : rectSelected s' = rectSelected s;
  vw_jump : match first_error o with Some pt => jumpInactive s' = false ∧ jump_onclick s' = Some pt | None => jumpInactive s' = true end
}.

Lemma highlight_ok x s : target x → sized s → ∃ s', highlight d x.1 x.2 s = Some s' ∧ viewing (Some x) s s'.
Proof using Hd.
  intros Hx [Hlen [f Hf]]. destruct (linearizationIndex_ok x Hx) as [E Hm]. unfold highlight. rewrite E, Hf, grid_all. cbn [mbind option_bind].
  assert (Hpart : match lin_shown x with Some m => set_class (grid psizes (λ _ _, true)) x.1 m false | None => Some (grid psizes (λ _ _, true)) end
    = Some (grid psizes (lin_hidden (Some x)))).
  { unfold lin_hidden. destruct (lin_shown x) as [m|]; [|done]. destruct (Hm m eq_refl) as (n&Hn&Hr).
    by rewrite (grid_set_class _ _ _ _ _ _ Hn Hr). }
  rewrite Hpart. cbn [mbind option_bind]. eexists. split; [done|]. rewrite imap_index, Hlen.
  match goal with |- viewing _ _ (updateJump d ?t) => destruct (updateJump_ok (Some x) t eq_refl) as (?&?&?&?&?&?) end. by split.
Qed.

Lemma resetHighlight_ok s : sized s → viewing None s (resetHighlight d s).
Proof using.
  intros [Hlen [f Hf]]. unfold resetHighlight. rewrite Hf, (grid_overwrite _ f (λ i, negb (i =? 0)%nat)).
  match goal with |- viewing _ _ (updateJump d ?t) => destruct (updateJump_ok None t eq_refl) as (?&?&?&Hh&?&?) end. split; try done.
  rewrite Hh. cbn [historyHidden set_view]. rewrite constant, Hlen. symmetry. rewrite <-(length_seq (length parts) 0) at 2. by apply const_fmap.
Qed.

Lemma target_size x : target x → ∃ n, rsizes@[x.1] = Some n ∧ 0 ≤ x.2 < Z.of_nat n.
Proof using. intros (r&(k&E&Hr)%idx_lookup&Hi). exists (length r). by rewrite E, idx_nat, list_lookup_fmap, Hr. Qed.

Lemma mark_box x o : target x → (∀ k l : nat, o = Some (Z.of_nat k, Z.of_nat l) → False) →
  set_class (grid rsizes (box o)) x.1 x.2 true = Some (grid rsizes (box (Some x))).
Proof using.
  intros Hx Ho. destruct (target_size x Hx) as (n&Hn&Hr). rewrite (grid_set_class _ _ _ _ _ _ Hn Hr). f_equal. apply grid_ext. intros k m l _ _.
  unfold at_cell, box. destruct x as [p i]; simpl. rewrite (bool_decide_eq_false_2 (o = _)) by (intros ?; eauto).
  destruct (Z.eqb_spec (Z.of_nat k) p) as [<-|], (Z.eqb_spec (Z.of_nat l) i) as [<-|]; simpl; symmetry;
    first [apply bool_decide_eq_true_2; congruence|apply bool_decide_eq_false_2; congruence].
Qed.

Lemma unmark_box x : target x → set_class (grid rsizes (box (Some x))) x.1 x.2 false = Some (grid rsizes (box None)).
Proof using.
  intros Hx. destruct (target_size x Hx) as (n&Hn&Hr). rewrite (grid_set_class _ _ _ _ _ _ Hn Hr). f_equal. apply grid_ext. intros k m l _ _.
  unfold at_cell, box. destruct x as [p i]; simpl.
  destruct (Z.eqb_spec (Z.of_nat k) p), (Z.eqb_spec (Z.of_nat l) i); simpl; [done|rewrite bool_decide_eq_false_2 by congruence; done..].
Qed.

(** Selecting a box while none is marked. *)
Lemma select_ok x s hover : target x → sized s → rectSelected s = grid rsizes (box None) →
  ∃ s', select d x.1 x.2 s = Some s' ∧ shows s' (mkView (Some x) hover).
Proof using Hd.
  intros Hx Hsz Hr. unfold select. destruct (highlight_ok x (set_selected true (x.1, x.2) s) Hx Hsz) as (s1&->&Hv). cbn [mbind option_bind].
  rewrite (vw_rects _ _ _ Hv). cbn [rectSelected set_selected]. rewrite Hr, (mark_box x None Hx) by done. cbn [mbind option_bind].
  eexists. split; [done|]. destruct Hv. split; cbn [selected selectedIndex historyHidden partialHidden rectSelected jumpInactive jump_onclick set_rects v_selected shown]; try done.
  - intros y [= <-]. destruct x. by rewrite vw_index0.
  - by intros y [= <-].
Qed.

Lemma deselect_ok x s hover : shows s (mkView (Some x) hover) → ∃ s', deselect d s = Some s' ∧ shows s' (mkView None None).
Proof using Hd.
  intros Hs. unfold deselect. rewrite (sh_selected _ _ Hs). cbn [v_selected]. rewrite bool_decide_eq_true_2 by eauto. cbn [negb].
  rewrite (sh_index _ _ Hs x eq_refl). pose proof (resetHighlight_ok (set_selected false x s) (shows_sized s _ Hs)) as Hv.
  rewrite (vw_rects _ _ _ Hv), (vw_index _ _ _ Hv). cbn [rectSelected selectedIndex set_selected]. rewrite (sh_rects _ _ Hs). cbn [v_selected].
  rewrite (unmark_box x (sh_target _ _ Hs x eq_refl)). cbn [mbind option_bind]. eexists. split; [done|]. destruct Hv.
  by split; cbn [selected selectedIndex historyHidden partialHidden rectSelected jumpInactive jump_onclick set_rects v_selected shown v_hover].
Qed.

Lemma shows_tooltip s v l t b : shows s v → shows (set_tooltip l t b s) v.
Proof using. by intros []; split. Qed.

(** The text of the tooltip over any box. *)
Lemma tooltip_text_ok s v p i : shows s v → target (p, i) → is_Some (tooltip_text d (selected s) (selectedIndex s) p i).
Proof using Hd.
  intros Hs Hx. unfold tooltip_text. destruct (selectedIndex s) as [sp si] eqn:Esel.
  assert (Hy : ∃ y, target y ∧ (if negb (selected s) then linearizationIndex d p i else linearizationIndex d sp si) = Some (lin_shown y) ∧
    (selected s && negb (sp =? p) = false → y.1 = p)).
  { rewrite (sh_selected _ _ Hs). destruct (v_selected v) as [y|] eqn:Ev.
    - rewrite bool_decide_eq_true_2 by eauto. assert (y = (sp, si)) as -> by (by rewrite <-Esel, (sh_index _ _ Hs y Ev)).
      assert (Hty : target (sp, si)) by (apply (sh_target _ _ Hs); unfold shown; by rewrite Ev).
      exists (sp, si). split; [done|]. split; [by apply (linearizationIndex_ok (sp, si))|]. simpl. intros H%negb_false_iff%Z.eqb_eq. done.
    - rewrite bool_decide_eq_false_2 by (by intros [? ?]). exists (p, i). split; [done|]. split; [by apply (linearizationIndex_ok (p, i))|done]. }
  destruct Hy as (y&Hy&->&Hp). cbn [mbind option_bind]. destruct (selected s && negb (sp =? p)); [by eexists|]. specialize (Hp eq_refl).
  destruct (linearizationIndex_ok y Hy) as [_ Hm]. destruct (lin_shown y) as [m|]; [|by eexists]. destruct (Hm m eq_refl) as (n&Hn&Hr).
  destruct (target_part (p, i) Hx) as (P&dp&r&HP&Hdp&_&Hlen&Hi&_). cbn [fst snd] in *. rewrite Hp in Hn.
  pose proof Hdp as (k&Ek&Hk)%idx_lookup. rewrite Ek, idx_nat, list_lookup_fmap, Hk in Hn. injection Hn as <-.
  rewrite HP, Hdp. cbn [mbind option_bind]. destruct (idx_in_range (PartialLinearizations P) m) as [lin Hlin]; [unfold len; lia|].
  destruct (idx_in_range (History P) i Hi) as [e He]. destruct (idx_in_range (dp_lins dp) m) as [dl Hdl]; [unfold len; lia|].
  rewrite Hlin, He. cbn [mbind option_bind]. destruct (find_step i lin None) as [[? ?]|]; [by eexists|]. rewrite Hdl. cbn [mbind option_bind].
  case_bool_decide; [|by eexists]. destruct (do_lin_ok Hd P lin) as [Hne _]; [by eapply idx_elem_of..|].
  destruct (last lin) eqn:El; [by eexists|by apply last_None in El].
Qed.

Lemma shows_position s v x y : shows s v → shows (set_position x y s) v.
Proof using. by intros []; split. Qed.

Lemma handleMouseMove_ok s v p i x y : shows s v → target (p, i) → ∃ s', handleMouseMove d p i x y s = Some s' ∧ shows s' v.
Proof using Hd.
  intros Hs Hx. unfold handleMouseMove. destruct (negb _); cbn [mbind option_bind].
  - destruct (tooltip_text_ok s _ p i Hs Hx) as [t ->]. cbn [mbind option_bind]. eexists. split; [done|]. by apply shows_position, shows_tooltip.
  - eexists. split; [done|]. by apply shows_position.
Qed.

Lemma error_target pt : pt ∈ dr_errorPoints d → target (Z.of_nat (ep_partition pt), ep_index pt).
Proof using Hd.
  intros Hpt. destruct (do_error Hd pt Hpt) as (P&lin&HP&Hlin&Hidx). destruct (last lin) as [st|] eqn:El; [|done]. injection Hidx as ->.
  destruct (do_lin_ok Hd P lin) as [_ Hall]; [by eapply list_elem_of_lookup_2..|]. rewrite Forall_forall in Hall.
  destruct (Hall st) as [e He]; [by apply last_Some_elem_of|]. apply idx_Some_range in He.
  pose proof (f_equal (.!! ep_partition pt) (do_rects Hd)) as H1. cbn beta in H1. rewrite !list_lookup_fmap, HP in H1.
  destruct (dr_rects d !! ep_partition pt) as [r|] eqn:Er; [|done]. injection H1 as H1. exists r. simpl. rewrite idx_nat. split; [done|]. unfold len in *. lia.
Qed.

Lemma first_error_elem o pt : first_error o = Some pt → pt ∈ dr_errorPoints d.
Proof using. intros [H _]%List.find_some. by apply list_elem_of_In. Qed.

(** A handler of an enabled event returns, and does what the event does to the view. *)
Lemma handle_ok s v u : shows s v → enabled d s u → ∃ s', handle d u s = Some s' ∧ shows s' (view_step u v).
Proof using Hd.
  intros Hs Hen. pose proof (shows_sized s v Hs) as Hsz. destruct v as [[x|] hover]; pose proof (sh_selected _ _ Hs) as Hsel; cbn [v_selected] in Hsel;
    rewrite ?(bool_decide_eq_true_2 (is_Some (Some x))), ?(bool_decide_eq_false_2 (is_Some None)) in Hsel by (eauto || by intros [? ?]).
  - (* an element is selected *)
    pose proof (sh_target _ _ Hs x eq_refl) as Hx. pose proof (sh_index _ _ Hs x eq_refl) as Hix.
    destruct u as [p i|p i pageX pageY| |p i| |]; cbn [handle view_step v_selected].
    + unfold handleMouseOver. rewrite Hsel. cbn. eexists. split; [done|]. by apply shows_tooltip.
    + by apply handleMouseMove_ok.
    + unfold handleMouseOut. rewrite Hsel. cbn. eexists. split; [done|]. by apply shows_tooltip.
    + unfold handleClick. rewrite Hsel, Hix. destruct x as [xp xi]. cbn [fst snd] in *. case_decide as Hdec.
      * injection Hdec as <- <-. rewrite !Z.eqb_refl. cbn [andb]. by eapply deselect_ok.
      * assert (((p =? xp) && (i =? xi)) = false) as ->.
        { apply not_true_iff_false. intros [->%Z.eqb_eq ->%Z.eqb_eq]%andb_true_iff. done. }
        rewrite (sh_rects _ _ Hs). cbn [v_selected]. pose proof (unmark_box (xp, xi) Hx) as Hu. cbn [fst snd] in Hu. rewrite Hu. cbn [mbind option_bind].
        by apply (select_ok (p, i) (set_rects (grid rsizes (box None)) s) hover).
    + by eapply deselect_ok.
    + unfold jumpClick. destruct (jump_onclick s) as [pt|]; rewrite ?Hsel; cbn; eauto.
  - (* none is *)
    destruct u as [p i|p i pageX pageY| |p i| |]; cbn [handle view_step v_selected].
    + unfold handleMouseOver. rewrite Hsel. cbn [negb]. destruct (highlight_ok (p, i) s Hen Hsz) as (s'&E&Hv). cbn [fst snd] in E. rewrite E.
      cbn [mbind option_bind]. eexists. split; [done|]. apply shows_tooltip. destruct Hv.
      split; cbn [v_selected shown v_hover]; try done; [by rewrite vw_selected0|by intros y [= <-]|by rewrite vw_rects0, (sh_rects _ _ Hs)].
    + by apply handleMouseMove_ok.
    + unfold handleMouseOut. rewrite Hsel. cbn [negb]. eexists. split; [done|]. apply shows_tooltip. destruct (resetHighlight_ok s Hsz).
      split; cbn [v_selected shown v_hover]; try done; [by rewrite vw_selected0|by rewrite vw_rects0, (sh_rects _ _ Hs)].
    + unfold handleClick. rewrite Hsel. rewrite decide_False by done. apply (select_ok (p, i) s hover Hen Hsz). by rewrite (sh_rects _ _ Hs).
    + unfold handleBgClick, deselect. rewrite Hsel. cbn. eauto.
    + unfold jumpClick. pose proof (sh_jump _ _ Hs) as Hj. cbn [enabled] in Hen. destruct (first_error (shown (mkView None hover))) as [pt|] eqn:Ef; [|congruence].
      destruct Hj as [_ ->]. rewrite Hsel. cbn [negb].
      apply (select_ok (Z.of_nat (ep_partition pt), ep_index pt) s hover); [by eapply error_target, first_error_elem|done|by rewrite (sh_rects _ _ Hs)].
Qed.

Lemma initial_ok : shows (initial_page d) (mkView None None).
Proof using Hd.
  unfold initial_page, handleMouseOut. cbn [selected negb]. apply shows_tooltip.
  match goal with |- shows (resetHighlight d ?t) _ => assert (Hsz : sized t); [|destruct (resetHighlight_ok t Hsz)] end.
  { split; [by cbn [historyHidden]; rewrite length_fmap|]. exists (λ _ _, false). cbn [partialHidden].
    pose proof (grid_rows (dp_lins <$> dr_lins d) false) as E. rewrite <-!list_fmap_compose in E. exact E. }
  split; cbn [v_selected shown v_hover]; try done. rewrite vw_rects0. cbn [rectSelected]. rewrite grid_rows. by apply grid_ext.
Qed.

Lemma session_shows s : session d s → ∃ v, shows s v.
Proof using Hd.
  induction 1 as [|s u s' _ [v IH] Hen E]; [exists (mkView None None); apply initial_ok|].
  destruct (handle_ok s v u IH Hen) as (s1&E1&Hs1). rewrite E in E1. injection E1 as ->. eauto.
Qed.

(** ** The tooltip *)

(** The text is the one of the last position the mouse was over. *)
Definition tooltip_cached (s : Page) : Prop :=
  ∀ p i sel sp si, lastTooltip s = [JNum p; JNum i; JBool sel; JNum sp; JNum si] → Some (tooltip s) = tooltip_text d sel (sp, si) p i.

Definition same_tooltip (s s' : Page) : Prop := lastTooltip s' = lastTooltip s ∧ tooltip s' = tooltip s.

Lemma same_cached s s' : same_tooltip s s' → tooltip_cached s → tooltip_cached s'.
Proof using. unfold tooltip_cached. by intros [-> ->]. Qed.

Lemma updateJump_tooltip s : same_tooltip s (updateJump d s).
Proof using. unfold updateJump. by destruct (List.find _ _). Qed.

Lemma highlight_tooltip p i s s' : highlight d p i s = Some s' → same_tooltip s s'.
Proof using.
  unfold highlight. destruct (linearizationIndex d p i) as [m|]; [|done]. cbn [mbind option_bind].
  destruct (match m with Some _ => _ | None => _ end) as [l|]; [|done]. cbn [mbind option_bind]. intros [= <-].
  match goal with |- same_tooltip _ (updateJump d ?t) => apply (updateJump_tooltip t) end.
Qed.

Lemma resetHighlight_tooltip s : same_tooltip s (resetHighlight d s).
Proof using. unfold resetHighlight. match goal with |- same_tooltip _ (updateJump d ?t) => apply (updateJump_tooltip t) end. Qed.

Lemma select_tooltip p i s s' : select d p i s = Some s' → same_tooltip s s'.
Proof using.
  unfold select. destruct (highlight d p i _) as [s1|] eqn:E; [|done]. cbn [mbind option_bind].
  apply highlight_tooltip in E as [H1 H2]. destruct (set_class _ _ _ _); [|done]. cbn [mbind option_bind]. intros [= <-].
  split; [exact H1|exact H2].
Qed.

Lemma deselect_tooltip s s' : deselect d s = Some s' → same_tooltip s s'.
Proof using.
  unfold deselect. destruct (negb (selected s)); [by intros [= <-]|].
  match goal with |- context [resetHighlight d ?t] => destruct (resetHighlight_tooltip t) as [H1 H2] end.
  destruct (set_class _ _ _ _); [|done]. cbn [mbind option_bind]. intros [= <-]. split; [exact H1|exact H2].
Qed.

Lemma handleClick_tooltip p i s s' : handleClick d p i s = Some s' → same_tooltip s s'.
Proof using.
  unfold handleClick. destruct (selected s); [|by apply select_tooltip]. destruct (_ && _); [by apply deselect_tooltip|].
  destruct (set_class _ _ _ _); [|done]. cbn [mbind option_bind]. intros H%select_tooltip. exact H.
Qed.

Lemma arrayEq_spec a b : arrayEq a b = bool_decide (a = b).
Proof using.
  unfold arrayEq. destruct (Nat.eqb_spec (length a) (length b)) as [El|Hne]; cbn [negb].
  2: { symmetry. apply bool_decide_eq_false_2. by intros ->. }
  revert b El. induction a as [|x a IH]; intros [|y b] El; try done; simpl in *.
  rewrite (IH b) by lia. case_bool_decide as Hxy; symmetry.
  - apply bool_decide_eq_false_2. congruence.
  - apply bool_decide_ext. split; [congruence|]. intros ->. destruct (decide (x = y)) as [->|]; [done|]. by destruct Hxy.
Qed.

(** Moving the mouse gives the text of the present position and selection, whether it
    is computed again or not. *)
Lemma handleMouseMove_tooltip p i x y s s' : tooltip_cached s → handleMouseMove d p i x y s = Some s' →
  tooltip_cached s' ∧ Some (tooltip s') = tooltip_text d (selected s') (selectedIndex s') p i.
Proof using.
  intros Hc. unfold handleMouseMove. destruct (selectedIndex s) as [sp si] eqn:Esel. rewrite arrayEq_spec. case_bool_decide as Heq; cbn [negb].
  - cbn [mbind option_bind]. intros [= <-]. split; [exact Hc|]. cbn [tooltip selected selectedIndex set_position]. rewrite Esel. by apply Hc.
  - destruct (tooltip_text d (selected s) (sp, si) p i) as [t|] eqn:Et; [|done]. cbn [mbind option_bind fst snd]. intros [= <-].
    cbn [tooltip selected selectedIndex set_position set_tooltip]. rewrite Esel, Et. split; [|done].
    intros p' i' sel sp' si'. cbn [lastTooltip tooltip set_position set_tooltip]. intros [= <- <- <- <- <-]. by rewrite Et.
Qed.

Lemma session_tooltip s : session d s → tooltip_cached s.
Proof using.
  assert (Hnull : ∀ s t b, tooltip_cached (set_tooltip nulls t b s)) by (intros s0 t b p i sel sp si [=]).
  induction 1 as [|s u s' _ IH _ E]; [apply Hnull|]. destruct u as [p i|p i x y| |p i| |]; cbn [handle] in E.
  - unfold handleMouseOver in E. destruct (negb (selected s)).
    + destruct (highlight d p i s) as [s1|] eqn:E1; [|done]. injection E as <-. eapply same_cached; [|exact IH]. by apply highlight_tooltip in E1.
    + injection E as <-. by eapply same_cached; [|exact IH].
  - by apply (handleMouseMove_tooltip p i x y s s' IH).
  - injection E as <-. apply Hnull.
  - eapply same_cached; [by eapply handleClick_tooltip|exact IH].
  - eapply same_cached; [by eapply deselect_tooltip|exact IH].
  - unfold jumpClick in E. destruct (jump_onclick s); [|by injection E as <-]. destruct (negb (selected s)); [|by injection E as <-].
    eapply same_cached; [by eapply select_tooltip|exact IH].
Qed.
End Session.
End PorcupinePageSession.
