(* ===== verification/PorcupineTheorems.v ===== *)
(** * Theorems about the linearizability checker *)

From S2P Require Import Prelude PorcupineBitset Porcupine PorcupineList PorcupineLink PorcupineSearch PorcupineRep PorcupineCheck PorcupineParallel PorcupineHistory PorcupineVisual PorcupineKv.

Module PorcupineTheorems.
Import Bitset Porcupine PorcupineList PorcupineLink PorcupineSearch PorcupineRep PorcupineCheck PorcupineParallel
  PorcupineHistory PorcupineVisual PorcupineKv.

Lemma checkSingle_finishes {V St} (model : Model V St) (hist : list (entry V)) (eq : St → St → bool) cp fuel :
  GoodEqual model eq → wf_history hist → step_total model hist → (budget (length hist) ≤ fuel)%nat →
  ∃ ok s, checkSingle model hist cp (λ _, false) fuel = Finished ok s ∧
    (ok = true ↔ linearizable model hist) ∧ longest_ok model hist s ∧
    (cp = true → own (cs_longest s) (cs_seqs s) ∧ longest_noted model hist s ∧ maximal model hist s).
Proof.
  intros Hg Hwf Htot Hf. unfold checkSingle.
  destruct (check_start_spec model hist Hwf) as (s&->&Hr&Hb&Hst&Hc&Hca&He&Hlen&Hptr&Hsq).
  destruct (inv_start model hist eq Hwf s Hb Hst Hc Hca He Hlen Hptr Hsq) as (Hi&Hcost&Hlong).
  eapply check_loop_correct; [done..| |done]. by etrans.
Qed.

(** C14: [checkSingle] decides linearizability: on a well-formed history it
    terminates within a budget that depends only on its length, never panics, and
    answers true exactly when the history is linearizable; the partial
    linearizations it leaves are prefixes the model accepts, and, where they are
    computed, the one noted for an operation contains it, no prefix the model accepts
    that contains it is longer, and whatever could follow, the model refuses. *)
Theorem checkSingle_correct {V St} (model : Model V St) (hist : list (entry V)) (eq : St → St → bool) cp fuel :
  GoodEqual model eq → wf_history hist → step_total model hist → (budget (length hist) ≤ fuel)%nat →
  ∃ ok s, checkSingle model hist cp (λ _, false) fuel = Finished ok s ∧
    (ok = true ↔ linearizable model hist) ∧ Forall (partial model hist) (cs_seqs s) ∧
    (cp = true → own (cs_longest s) (cs_seqs s) ∧ longest_noted model hist s ∧ maximal model hist s).
Proof.
  intros Hg Hwf Htot Hf. destruct (checkSingle_finishes model hist eq cp fuel) as (ok&s&?&?&[]&?); eauto 6.
Qed.

(** [unlift] undoes [lift] exactly: taking an entry and its return out of the
    list, anywhere after the head, and putting them back restores every node. *)
Theorem unlift_undoes_lift {V} (h : heap V) A a e B m C :
  NoDup (A ++ [a] ++ e :: B ++ m :: C) → links h (A ++ [a] ++ e :: B ++ m :: C) →
  nd_match <$> h !! e = Some (Some m) →
  ∃ h', lift e h = Some h' ∧ links h' (A ++ [a] ++ B ++ C) ∧ unlift e h' = Some h.
Proof.
  intros Hn Hl Hm. destruct (lift_spec h A a e B m C Hn Hl Hm) as (h'&E&[Hl' _ _]&_&_).
  exists h'. split_and!; [done..|]. by eapply unlift_lift.
Qed.

(** A bit set of [n] positions behaves as a set: [set], [clear] and [get] never
    panic below [n], change exactly the given element, [popcnt] counts, and
    [equals] is equality of the sets. *)
Theorem bitset_is_a_set n b b2 pos :
  wf n b → wf n b2 → 0 ≤ pos < n →
  (∃ b', set b pos = Some b' ∧ wf n b' ∧ ∀ q, 0 ≤ q → bit b' q = (q =? pos) || bit b q) ∧
  (∃ b', clear b pos = Some b' ∧ wf n b' ∧ ∀ q, 0 ≤ q → bit b' q = negb (q =? pos) && bit b q) ∧
  get b pos = Some (bit b pos) ∧
  popcnt b = len (elems b) ∧
  (equals b b2 = true ↔ ∀ q, 0 ≤ q → bit b q = bit b2 q).
Proof.
  intros Hb Hb2 Hp. split_and!; [by apply set_spec|by apply clear_spec| |apply popcnt_elems|].
  - destruct (word_in_range n b pos Hb Hp) as (w&Hw&_). unfold bit, get. simpl. by rewrite idx_div, Hw by lia.
  - rewrite equals_spec. split; [by intros ->|]. by apply (bitset_ext n).
Qed.

(** C17: [makeEntries] is faithful to the clock: from operations that return no
    earlier than they are called it makes a well-formed history in which the
    return of one operation precedes the call of another exactly when it happened
    strictly before. *)
Theorem makeEntries_correct `{SortByTime V} (history : list (Operation V)) :
  (∀ o, o ∈ history → op_Call o ≤ op_Return o) →
  wf_history (makeEntries history) ∧
  ∀ i j oi oj, history !! i = Some oi → history !! j = Some oj →
    ∃ r p, makeEntries history !! r = Some (ret_of i oi) ∧ makeEntries history !! p = Some (call_of j oj) ∧
      ((r < p)%nat ↔ op_Return oi < op_Call oj).
Proof.
  intros Ht. split; [by apply makeEntries_wf|]. intros i j oi oj Hi Hj.
  destruct (entry_position history (ret_of i oi) i oi Hi) as [r Hr]; [by right|].
  destruct (entry_position history (call_of j oj) j oj Hj) as [p Hp]; [by left|].
  exists r, p. split_and!; [done..|]. by apply (entries_order history i j).
Qed.

(** ** Partitions *)

Section Parallel.
Context {V St : Type} (model : Model V St) (eq : St → St → bool) {Hgood : GoodEqual model eq}.

(** What goroutine [i] is given, and what it computes. *)
Definition checkable (fuel : nat) (hist : list (entry V)) : Prop :=
  wf_history hist ∧ step_total model hist ∧ (budget (length hist) ≤ fuel)%nat.
Definition run_ok (ci : bool) (hist : list (entry V)) (r : bool * CheckState V St) : Prop :=
  (r.1 = true ↔ linearizable model hist) ∧ longest_ok model hist (r.2) ∧ (ci = true → maximal model hist (r.2)).

(** What is told of the partial linearizations of a partition. *)
Definition told (ci : bool) (hist : list (entry V)) (partials : list (list Z)) : Prop :=
  Forall (reported model hist) partials ∧ (ci = true → Forall (refused_next model hist) partials).

Lemma runs_ok ci fuel history :
  Forall (checkable fuel) history →
  ∃ runs, mapM outcome (imap (λ i sub, checkSingle model sub ci (λ _, false) fuel) history) = Some runs ∧
    Forall2 (run_ok ci) history runs.
Proof using Hgood.
  intros Hc. change (imap (λ i sub, checkSingle model sub ci (λ _, false) fuel) history) with
    (imap (const (λ sub, checkSingle model sub ci (λ _, false) fuel)) history). rewrite imap_const, mapM_fmap.
  apply mapM_exists. eapply Forall_impl; [exact Hc|]. intros hist (Hwf&Htot&Hf).
  destruct (checkSingle_finishes model hist eq ci fuel Hgood Hwf Htot Hf) as (ok&s&Es&?&?&Hm).
  exists (ok, s). rewrite Es. split; [done|]. split_and!; [done..|intros Hci; by destruct (Hm Hci) as (_&_&?)].
Qed.

Lemma forallb_runs ci history runs order :
  Forall2 (run_ok ci) history runs → order ≡ₚ seq 0 (length history) →
  forallb (λ i, default false ((fst <$> runs) !! i)) order = true ↔ Forall (linearizable model) history.
Proof.
  intros Hr Ho. rewrite forallb_forall, Forall_lookup. split.
  - intros Hall i hist Hi. destruct (Forall2_lookup_l _ _ _ _ _ Hr Hi) as ([ok s]&Hs&Hok&_).
    specialize (Hall i). rewrite list_lookup_fmap, Hs in Hall. apply Hok, Hall, list_elem_of_In. rewrite Ho.
    apply elem_of_seq. apply lookup_lt_Some in Hi. lia.
  - intros Hall i Hi%list_elem_of_In. rewrite Ho, elem_of_seq in Hi.
    destruct (lookup_lt_is_Some_2 history i) as [hist Hh]; [lia|].
    destruct (Forall2_lookup_l _ _ _ _ _ Hr Hh) as ([ok s]&Hs&Hok&_).
    rewrite list_lookup_fmap, Hs. simpl. by apply Hok, (Hall i).
Qed.

Lemma partials_ok ci history runs :
  Forall2 (run_ok ci) history runs →
  ∃ partials, mapM partials_of (snd <$> runs) = Some partials ∧
    Forall2 (told ci) history partials.
Proof.
  intros Hr. rewrite mapM_fmap.
  assert (Hx : ∃ k, mapM (λ r : bool * CheckState V St, partials_of (r.2)) runs = Some k ∧
    Forall2 (λ r ps, ∀ hist, run_ok ci hist r → told ci hist ps) runs k).
  { apply mapM_exists, Forall_lookup. intros i [ok s] Hs.
    destruct (Forall2_lookup_r _ _ _ _ _ Hr Hs) as (hist&_&_&Hl&_).
    destruct (partials_of_ok model hist s Hl) as (l&El&_). exists l. split; [done|]. intros hist' (_&Hl'&Hm').
    destruct (partials_of_ok model hist' s Hl') as (l'&El'&?&?). simpl in *. simplify_eq. split; auto. }
  destruct Hx as (k&->&Hk). exists k. split; [done|]. revert k Hk.
  induction Hr as [|hist r history runs Hr1 Hr IH]; intros k Hk; inversion Hk; subst; constructor; auto.
Qed.

Lemma checkParallel_ok history ci timeout fuel order :
  history ≠ [] → Forall (checkable fuel) history → order ≡ₚ seq 0 (length history) →
  ∃ res info, checkParallel model history ci timeout fuel (λ _ _, false) (Result <$> order) = Some (res, info) ∧
    (res = Ok ↔ Forall (linearizable model) history) ∧ res ≠ Unknown ∧
    (ci = true → li_history info = history ∧ Forall2 (told ci) history (li_partials info)).
Proof using Hgood.
  intros Hne Hc Ho. destruct (runs_ok ci fuel history Hc) as (runs&Er&Hr).
  pose proof (Forall2_length _ _ _ Hr) as Hlen. pose proof (Permutation_length Ho) as Hlo. rewrite length_seq in Hlo.
  unfold checkParallel. rewrite Er. cbn [mbind option_bind].
  destruct (select_loop_all (len history) ci (0 <? timeout) (fst <$> runs) order 0 true) as (count&->).
  - intros ->. simpl in Hlo. by destruct history.
  - unfold len. lia.
  - intros i Hi. rewrite Ho, elem_of_seq in Hi. rewrite list_lookup_fmap.
    destruct (lookup_lt_is_Some_2 runs i) as [? ->]; [lia|]. by eexists.
  - cbn [mbind option_bind andb]. pose proof (forallb_runs ci history runs order Hr Ho) as Hall.
    destruct (partials_ok ci history runs Hr) as (partials&Ep&Hp). rewrite Ep. cbn [mbind option_bind].
    destruct (forallb _ order); destruct ci; cbn [mbind option_bind negb]; eexists _, _; (split; [done|]);
      (split; [naive_solver|]); (split; [done|]); intros ?; done.
Qed.
End Parallel.
Section Operations.
Context {V St : Type} `{EqDecision St} `{SortByTime V}.
Context (sprint_op : V → V → string) (sprint_state : St → string).
Notation full := (fillDefault sprint_op sprint_state).

(** Without partitions the select loop waits for a result that no goroutine sends. *)
Lemma no_partitions_block (model : Model V St) verbose fuel kills arrivals :
  checkParallel model [] verbose 0 fuel kills arrivals = None.
Proof. unfold checkParallel. cbn. destruct arrivals as [|[[]|] arrivals]; done. Qed.

(** C15: [CheckOperations] decides whether every partition is linearizable, in
    whatever order the goroutines answer: on operations that return no earlier than
    they are called, with a model whose step does not panic on them, it returns if
    there is a partition, and returns true exactly when all are linearizable; if
    there is no partition it never returns, whatever arrives. *)
Theorem CheckOperations_correct (model : Model V St) eq history partition parts fuel order :
  GoodEqual (full model) eq → Partition (full model) = Some partition → partition history = Some parts →
  (∀ sub o, sub ∈ parts → o ∈ sub → op_Call o ≤ op_Return o) →
  (∀ sub, sub ∈ parts → step_total (full model) (makeEntries sub) ∧ (budget (2 * length sub) ≤ fuel)%nat) →
  order ≡ₚ seq 0 (length parts) →
  (parts ≠ [] → ∃ ok, CheckOperations sprint_op sprint_state model history fuel (λ _ _, false) (Result <$> order) = Some ok ∧
    (ok = true ↔ ∀ sub, sub ∈ parts → linearizable (full model) (makeEntries sub))) ∧
  (parts = [] → ∀ kills arrivals, CheckOperations sprint_op sprint_state model history fuel kills arrivals = None).
Proof.
  intros Hg Hp Hparts Ht Hs Ho. split; intros Hne.
  2: { intros kills arrivals. unfold CheckOperations, checkOperations. rewrite Hp. cbn [mbind option_bind]. rewrite Hparts, Hne.
       cbn [mbind option_bind fmap list_fmap]. by rewrite no_partitions_block. }
  destruct (checkParallel_ok (full model) eq (makeEntries <$> parts) false 0 fuel order) as (res&info&E&Hres&_&_).
  - by destruct parts.
  - rewrite Forall_fmap, Forall_forall. intros sub Hsub. destruct (Hs sub Hsub) as [Htot Hf].
    split; [apply makeEntries_wf; eauto|]. split; [done|]. unfold makeEntries.
    by rewrite (Permutation_length (sort_entries_permutation _)), make_loop_length.
  - by rewrite length_fmap.
  - unfold CheckOperations, checkOperations. rewrite Hp. cbn [mbind option_bind]. rewrite Hparts.
    cbn [mbind option_bind]. rewrite E. cbn [mbind option_bind]. eexists. split; [done|].
    rewrite Forall_fmap, Forall_forall in Hres. rewrite <- Hres. by destruct res.
Qed.

(** The visualization of a check never panics: the partial linearizations the
    checker reports are accepted step by step by the model when they are replayed,
    and every index is in range. *)
Theorem visualization_never_panics (model : Model V St) eq history timeout fuel order describe res info :
  GoodEqual (full model) eq → history ≠ [] → Forall (checkable (full model) fuel) history →
  order ≡ₚ seq 0 (length history) → DescribeOperation (full model) = Some describe →
  (∀ hist p m e r, hist ∈ history → mate hist p = Some m → hist !! p = Some e → hist !! m = Some r →
     is_Some (describe (en_value e) (en_value r))) →
  checkParallel (full model) history true timeout fuel (λ _ _, false) (Result <$> order) = Some (res, info) →
  is_Some (computeVisualizationData sprint_op sprint_state model info).
Proof.
  intros Hg Hne Hc Ho Hd Hdt E.
  destruct (checkParallel_ok (full model) eq history true timeout fuel order Hne Hc Ho) as (res'&info'&E'&_&_&Hi).
  rewrite E in E'. simplify_eq. destruct (Hi eq_refl) as [Eh Hp]. unfold computeVisualizationData. rewrite Eh.
  assert (Hst : ∃ d, DescribeState (full model) = Some d) by (unfold fillDefault; simpl; case_match; eauto).
  destruct Hst as [dst Hst].
  destruct (mapM_exists (λ partition, entries ← li_history info' !! partition; partials ← li_partials info' !! partition;
    partition_data (full model) entries partials) (λ _ _, True) (seq 0 (length history))) as (k&Ek&_).
  - apply Forall_forall. intros i [_ Hlt]%elem_of_seq. destruct (lookup_lt_is_Some_2 history i) as [hist Hh]; [lia|].
    destruct (Forall2_lookup_l _ _ _ _ _ Hp Hh) as (ps&Hps&Hpart&_). rewrite Eh, Hh. cbn [mbind option_bind].
    rewrite Hps. cbn [mbind option_bind]. unfold partition_data. rewrite Hd, Hst. cbn [mbind option_bind].
    rewrite Forall_lookup in Hc. destruct (Hc i hist Hh) as (Hwf&_&_).
    destruct (history_loop_ok hist Hwf describe (λ p m e r, Hdt hist p m e r (list_elem_of_lookup_2 _ _ _ Hh))
      hist 0 (replicate (Z.to_nat (len hist / 2)) zero_element) ∅ ∅) as (hs&cv&rv&->&Hcv&Hrv);
      [done|by rewrite length_replicate|intros ? ? ?; lia|intros ? ? ?; lia|]. cbn [mbind option_bind].
    destruct (partials_loop_ok (full model) hist Hwf dst cv rv 0 (merge_sort longer ps) ∅ ∅) as [[? ?] ->];
      [done|done|rewrite merge_sort_Permutation; eapply Forall_impl; [exact Hpart|]; by intros ? [? _]|]. cbn [mbind option_bind]. by eexists.
  - rewrite Eh in Ek. rewrite Ek. by eexists.
Qed.
End Operations.

(** Without partitions the check never returns: on an empty history, which
    [KvModel] splits into no partition at all, the select loop waits for a result
    that no goroutine will send, whatever arrives, unless there is a time-out. *)
Theorem empty_check_blocks `{SortByTime KvVal} sprint_op sprint_state verbose fuel kills arrivals :
  checkOperations sprint_op sprint_state KvModel [] verbose 0 fuel kills arrivals = None.
Proof.
  unfold checkOperations. cbn. destruct arrivals as [|[i|] arrivals]; [done| |done]. by destruct i.
Qed.

(** [KvModel] partitions by key: it panics exactly when some input is not a
    [KvInput], and otherwise gives, for the distinct keys in order, the operations
    on the key in the order of the history, losing none. *)
Theorem kv_Partition_correct history :
  (kv_Partition history = None ↔ ∃ o, o ∈ history ∧ op_key o = None) ∧
  ∀ parts, kv_Partition history = Some parts →
    ∃ keys, StronglySorted String.le keys ∧ NoDup keys ∧
      (∀ k, k ∈ keys ↔ ∃ o, o ∈ history ∧ op_key o = Some k) ∧
      parts = (λ k, filter (λ o, op_key o = Some k) history) <$> keys ∧ concat parts ≡ₚ history.
Proof.
  destruct (decide (Exists (λ o, op_key o = None) history)) as [(o&Ho&Hn)%Exists_exists|Hall].
  { unfold kv_Partition. rewrite (partition_loop_panic history ∅ o Ho Hn). split; [|done]. split; eauto. }
  assert (Hk : ∀ o, o ∈ history → is_Some (op_key o)).
  { intros o Ho. destruct (op_key o) eqn:E; [eauto|]. destruct Hall. apply Exists_exists. eauto. }
  destruct (partition_loop_spec history ∅ Hk) as (m&E&Hm). unfold kv_Partition. rewrite E. cbn [mbind option_bind].
  assert (Hdom : ∀ k, k ∈ dom m ↔ ∃ o, o ∈ history ∧ op_key o = Some k).
  { intros k. rewrite elem_of_dom, Hm, lookup_empty. destruct (of_key k history) as [|o l] eqn:Eo.
    - split; [by intros [? ?]|]. intros (o&Ho&Hko). assert (Hin : o ∈ of_key k history) by (by apply list_elem_of_filter).
      rewrite Eo in Hin. by apply not_elem_of_nil in Hin.
    - split; [|by eexists]. intros _. exists o. assert (Hin : o ∈ of_key k history) by (rewrite Eo; left).
      by apply list_elem_of_filter in Hin as [? ?]. }
  split; [split; [done|]; intros (o&Ho&Hn); destruct (Hk o Ho); congruence|].
  intros parts [= <-]. set (keys := merge_sort String.le (elements (dom m))).
  assert (Hkeys : ∀ k, k ∈ keys ↔ ∃ o, o ∈ history ∧ op_key o = Some k)
    by (intros k; unfold keys; by rewrite merge_sort_Permutation, elem_of_elements).
  assert (Hnd : NoDup keys) by (unfold keys; rewrite merge_sort_Permutation; apply NoDup_elements).
  assert (Hparts : (λ k, default [] (m !! k)) <$> keys = (λ k, of_key k history) <$> keys).
  { apply list_fmap_ext. intros i k _. rewrite Hm, lookup_empty. by destruct (of_key k history). }
  exists keys. split_and!; [apply (StronglySorted_merge_sort _)|done|done|done|].
  rewrite Hparts. apply concat_of_key; [done|]. intros o Ho. destruct (Hk o Ho) as [k Hko]. exists k. split; [done|].
  apply Hkeys. eauto.
Qed.

(** ** The theorems at work *)

#[export] Instance shallow_good {V St} `{EqDecision St} (model : Model V St) :
  Equal model = Some ShallowEqual → GoodEqual model ShallowEqual.
Proof.
  intros E. split; [done|..]; unfold ShallowEqual.
  - intros s. by apply bool_decide_eq_true.
  - intros s t u ->%bool_decide_eq_true ->%bool_decide_eq_true. by apply bool_decide_eq_true.
  - intros s t i o s' ->%bool_decide_eq_true Hs. exists s'. by rewrite bool_decide_eq_true.
Qed.

(** Key/value operations never fail a type assertion. *)
Lemma mate_values {V} (hist : list (entry V)) p m e r :
  mate hist p = Some m → hist !! p = Some e → hist !! m = Some r → en_kind e = callEntry ∧ en_kind r = returnEntry.
Proof.
  intros Hm He Hr. unfold mate in Hm. rewrite He in Hm. simpl in Hm. destruct (en_kind e); [|done]. split; [done|].
  apply fmap_Some in Hm as ([q x]&(Hq&[Hk _]&_)%list_find_Some&->). simpl in Hr. congruence.
Qed.

Definition kv_op (o : Operation KvVal) : Prop := (∃ i, op_Input o = VIn i) ∧ (∃ v, op_Output o = VOut v).

Lemma kv_values `{SortByTime KvVal} ops p m e r :
  (∀ o, o ∈ ops → kv_op o) → mate (makeEntries ops) p = Some m →
  makeEntries ops !! p = Some e → makeEntries ops !! m = Some r →
  (∃ i, en_value e = VIn i) ∧ (∃ v, en_value r = VOut v).
Proof.
  intros Hops Hm He Hr. destruct (mate_values _ _ _ _ _ Hm He Hr) as [Hke Hkr].
  apply list_elem_of_lookup_2, entries_elem in He as (i&o&Ho&[->| ->]); [|done].
  apply list_elem_of_lookup_2, entries_elem in Hr as (j&o'&Ho'&[->| ->]); [done|]. simpl.
  split; [apply (Hops o)|apply (Hops o')]; by eapply list_elem_of_lookup_2.
Qed.

Lemma kv_step_total `{SortByTime KvVal} (model : Model KvVal string) ops :
  Step model = kv_Step → (∀ o, o ∈ ops → kv_op o) → step_total model (makeEntries ops).
Proof.
  intros Hs Hops st p m e r Hm He Hr. destruct (kv_values ops p m e r Hops Hm He Hr) as [[i ->] [v ->]].
  rewrite Hs. simpl. repeat case_match; by eexists.
Qed.

#[local] Existing Instance merge_sort_by_time.

(** A put that overlaps two gets. *)
Definition demo_ops : list (Operation KvVal) :=
  [mkOperation 0 (VIn (mkKvInput 1 "k" "x")) 0 (VOut (mkKvOutput "")) 5;
   mkOperation 1 (VIn (mkKvInput 0 "k" "")) 1 (VOut (mkKvOutput "x")) 2;
   mkOperation 2 (VIn (mkKvInput 0 "k" "")) 3 (VOut (mkKvOutput "x")) 4].

Lemma demo_kv o : o ∈ demo_ops → kv_op o ∧ op_Call o ≤ op_Return o.
Proof.
  intros Ho. repeat (apply elem_of_cons in Ho as [->|Ho]; [split; [split; eauto|simpl; lia]|]).
  by apply not_elem_of_nil in Ho.
Qed.

Definition show_op (i o : KvVal) : string := "".
Definition kv_full : Model KvVal string := fillDefault show_op id KvModel.

Lemma demo_checkable : checkable kv_full (budget 6) (makeEntries demo_ops).
Proof.
  split; [apply makeEntries_wf; intros; by apply demo_kv|].
  split; [apply kv_step_total; [done|]; intros; by apply demo_kv|]. vm_compute. lia.
Qed.

Lemma checkSingle_correct_witness : linearizable kv_full (makeEntries demo_ops).
Proof.
  destruct demo_checkable as (Hwf&Htot&Hf).
  destruct (checkSingle_correct kv_full (makeEntries demo_ops) ShallowEqual true (budget 6)
    (shallow_good kv_full eq_refl) Hwf Htot Hf) as (ok&s&E&Hok&_).
  apply Hok. apply (f_equal (λ o, match o with Finished b _ => b | _ => false end)) in E. simpl in E.
  rewrite <- E. vm_compute. reflexivity.
Defined.

Definition demo_heap : heap nat :=
  {[0%nat := mkNode None None (-1) (Some 1%nat) None;
    1%nat := mkNode (Some 7%nat) (Some 2%nat) 0 (Some 2%nat) (Some 0%nat);
    2%nat := mkNode (Some 8%nat) None 0 None (Some 1%nat)]}.

Lemma unlift_undoes_lift_witness :
  ∃ h', lift 1 demo_heap = Some h' ∧ links h' [0%nat] ∧ unlift 1 h' = Some demo_heap.
Proof.
  apply (unlift_undoes_lift demo_heap [] 0 1 [] 2 []).
  - by apply (bool_decide_unpack _).
  - repeat split; (eexists; split; [reflexivity|split; reflexivity]).
  - reflexivity.
Defined.

Lemma bitset_is_a_set_witness :
  get (newBitset 70) 65 = Some (bit (newBitset 70) 65) ∧ popcnt (newBitset 70) = len (elems (newBitset 70)).
Proof.
  destruct (bitset_is_a_set 70 (newBitset 70) (newBitset 70) 65) as (_&_&Hg&Hp&_);
    [apply wf_newBitset|apply wf_newBitset|lia|]. split; [exact Hg|exact Hp].
Defined.

Lemma makeEntries_correct_witness : wf_history (makeEntries demo_ops).
Proof. apply (makeEntries_correct demo_ops). intros o Ho. by apply demo_kv. Defined.

Lemma CheckOperations_correct_witness :
  ∃ ok, CheckOperations show_op id KvModel demo_ops (budget 6) (λ _ _, false) [Result 0] = Some ok ∧
    (ok = true ↔ ∀ sub, sub ∈ [demo_ops] → linearizable kv_full (makeEntries sub)).
Proof.
  apply (CheckOperations_correct show_op id KvModel ShallowEqual demo_ops kv_Partition [demo_ops] (budget 6) [0%nat]).
  - by apply shallow_good.
  - reflexivity.
  - vm_compute. reflexivity.
  - intros sub o ->%list_elem_of_singleton Ho. by apply demo_kv.
  - intros sub ->%list_elem_of_singleton. destruct demo_checkable as (_&Htot&_). split; [exact Htot|done].
  - done.
  - done.
Defined.

Lemma visualization_never_panics_witness :
  ∃ res info, checkParallel kv_full [makeEntries demo_ops] true 0 (budget 6) (λ _ _, false) [Result 0] = Some (res, info) ∧
    is_Some (computeVisualizationData show_op id KvModel info).
Proof.
  eexists _, _. split; [vm_compute; reflexivity|].
  eapply (visualization_never_panics show_op id KvModel ShallowEqual [makeEntries demo_ops] 0 (budget 6) [0%nat]
    kv_DescribeOperation).
  - by apply shallow_good.
  - done.
  - apply Forall_singleton. apply demo_checkable.
  - done.
  - reflexivity.
  - intros hist p m e r ->%list_elem_of_singleton Hm He Hr.
    destruct (kv_values demo_ops p m e r) as [[i Hi] [v Hv]]; [intros; by apply demo_kv|exact Hm|exact He|exact Hr|].
    rewrite Hi, Hv. by eexists.
  - vm_compute. reflexivity.
Defined.
End PorcupineTheorems.
