(* ===== verification/PorcupineReport.v ===== *)
(** * From the check to the page

    What [computeVisualizationData] makes of a check is what the page expects: the
    elements have the times of their calls and returns, the partial linearizations
    respect them, and [Largest] points to the longest ones. *)

From S2P Require Import Prelude PorcupineBitset Porcupine PorcupineList PorcupineLink PorcupineSearch PorcupineRep PorcupineCheck PorcupineParallel PorcupineVisual PorcupinePage PorcupinePagePrep.

Module PorcupineReport.
Import Bitset Porcupine PorcupineList PorcupineLink PorcupineSearch PorcupineRep PorcupineCheck PorcupineParallel PorcupineVisual PorcupinePage PorcupinePagePrep.

(** A history whose entries are in the order of their times, calls first, and whose
    operations take time. *)
Record timed {V} (hist : list (entry V)) : Prop := {
  tm_sorted p q e e' : hist !! p = Some e → hist !! q = Some e' → (p ≤ q)%nat → en_time e ≤ en_time e';
  tm_ties p q e e' : hist !! p = Some e → hist !! q = Some e' → (p < q)%nat → en_kind e = returnEntry → en_kind e' = callEntry →
    en_time e < en_time e';
  tm_takes p m e r : mate hist p = Some m → hist !! p = Some e → hist !! m = Some r → en_time e < en_time r
}.

Section History.
Context {V : Type} (hist : list (entry V)) (Hwf : wf_history hist).
Notation num := (len hist / 2).

(** ** The elements have the times of their entries *)

Definition times_ok (n : nat) (history : list historyElement) : Prop :=
  len history = num ∧
  ∀ q e x, (q < n)%nat → hist !! q = Some e → history@[en_id e] = Some x →
    match en_kind e with callEntry => he_Start x = en_time e | returnEntry => he_End x = en_time e end.

Lemma times_ok_update n e history history' x y : hist !! n = Some e → times_ok n history → history@[en_id e] = Some x →
  upd history (en_id e) y = Some history' →
  match en_kind e with callEntry => he_Start y = en_time e ∧ he_End y = he_End x | returnEntry => he_End y = en_time e ∧ he_Start y = he_Start x end →
  times_ok (S n) history'.
Proof using Hwf.
  intros Hn [Hlen Ht] Hx Hu Hy. split; [by rewrite (len_upd _ _ _ _ Hu)|]. intros q e' z Hq He' Hz.
  rewrite (idx_upd _ _ _ _ _ Hu) in Hz. destruct (Z.eqb_spec (en_id e') (en_id e)) as [Hid|Hid].
  - injection Hz as <-. destruct (decide (q = n)) as [->|Hne].
    + rewrite Hn in He'. injection He' as <-. destruct (en_kind e); tauto.
    + assert (Hk : en_kind e' ≠ en_kind e) by (intros Hk; apply Hne; by apply (vals_unique hist Hwf q n e' e)).
      pose proof (Ht q e' x ltac:(lia) He' ltac:(congruence)) as Hold. destruct (en_kind e'), (en_kind e); try done; destruct Hy; congruence.
  - destruct (decide (q = n)) as [->|Hne]; [congruence|]. apply (Ht q e' z); [lia|done..].
Qed.

Lemma history_loop_times describe suf n history cv rv hs cv' rv' : drop n hist = suf → times_ok n history →
  history_loop describe suf history cv rv = Some (hs, cv', rv') → times_ok (length hist) hs.
Proof using Hwf.
  revert n history cv rv. induction suf as [|e suf IH]; intros n history cv rv Hsuf Ht E; cbn [history_loop] in E.
  - injection E as -> _ _. destruct Ht as [Hlen Ht]. split; [done|]. intros q e x Hq He. apply (Ht q e x); [|done].
    apply (f_equal length) in Hsuf. rewrite length_drop in Hsuf. simpl in Hsuf. apply lookup_lt_Some in He. lia.
  - assert (Hn : hist !! n = Some e) by (rewrite <- (Nat.add_0_r n), <- lookup_drop, Hsuf; done).
    assert (Hsuf' : drop (S n) hist = suf) by (rewrite <- (Nat.add_1_r n), <- drop_drop, Hsuf; done).
    destruct (history@[en_id e]) as [x|] eqn:Hx; [|done]. cbn [mbind option_bind] in E. destruct (en_kind e) eqn:Ek.
    + destruct (upd history _ _) as [history'|] eqn:Hu; [|done]. cbn [mbind option_bind] in E. eapply IH; [exact Hsuf'| |exact E].
      eapply times_ok_update; [done..|]. by rewrite Ek.
    + destruct (cv !! en_id e); [|done]. cbn [mbind option_bind] in E. destruct (describe _ _); [|done]. cbn [mbind option_bind] in E.
      destruct (upd history _ _) as [history'|] eqn:Hu; [|done]. cbn [mbind option_bind] in E. eapply IH; [exact Hsuf'| |exact E].
      eapply times_ok_update; [done..|]. by rewrite Ek.
Qed.

(** The element of an operation. *)
Lemma element_times hs k x : times_ok (length hist) hs → hs@[k] = Some x →
  ∃ p m e r, is_call hist p ∧ id_at hist p = k ∧ mate hist p = Some m ∧ hist !! p = Some e ∧ hist !! m = Some r ∧ is_ret hist m ∧
    he_Start x = en_time e ∧ he_End x = en_time r.
Proof using Hwf.
  intros [Hlen Ht] Hx. pose proof (idx_Some_range _ _ _ Hx) as Hk. rewrite Hlen in Hk. destruct (id_call hist Hwf k Hk) as (p&Hc&Hid).
  destruct (mate_exists hist p Hwf Hc) as [m Hm]. destruct (mate_Some hist p m Hwf Hc Hm) as (Hr&Hid'&_).
  pose proof Hc as (e&He&Hke). pose proof Hr as (r&Hre&Hkr). exists p, m, e, r.
  assert (He' : en_id e = k) by (by rewrite <-(id_at_lookup hist p e He)).
  assert (Hr' : en_id r = k) by (by rewrite <-(id_at_lookup hist m r Hre), Hid').
  pose proof (Ht p e x (lookup_lt_Some _ _ _ He) He ltac:(by rewrite He')) as H1. rewrite Hke in H1.
  pose proof (Ht m r x (lookup_lt_Some _ _ _ Hre) Hre ltac:(by rewrite Hr')) as H2. rewrite Hkr in H2. by split_and!.
Qed.
End History.

Section Partition.
Context {V St : Type} (model : Model V St) (hist : list (entry V)) (Hwf : wf_history hist) (Htm : timed hist).
Notation num := (len hist / 2).
Notation root := (newBitset num).

(** ** Partial linearizations respect the times *)

Lemma root_bit q : 0 ≤ q < num → bit root q = false.
Proof using. intros [? _]. by apply bit_newBitset. Qed.

(** An operation is linearized only before the return of every operation that is
    still to come. *)
Lemma path_order ps b st j p k q : path model hist root (Init model) ps b st → ps !! j = Some p →
  is_ret hist q → id_at hist q = k → k ∉ id_at hist <$> take j ps → (p < q)%nat.
Proof using Hwf.
  intros Hp Hj Hr Hk Hn. rewrite <-(take_drop_middle _ _ _ Hj) in Hp.
  apply path_app_inv in Hp as (b1&st1&b2&st2&Hp1&((Hrem&Hc&Hav)&_&_)&_).
  destruct (path_bits model hist Hwf _ _ _ _ _ (wf_newBitset num) Hp1) as [_ Hbits].
  pose proof (wh_ids hist Hwf q (is_ret_lt _ _ Hr)) as Hrange. rewrite Hk in Hrange.
  destruct (Nat.lt_trichotomy p q) as [|[->|Hlt]]; [done|by destruct (call_not_ret hist q)|].
  exfalso. eapply call_not_ret; [|exact Hr]. apply Hav; [|done]. apply elem_of_rem. split; [by apply is_ret_lt|].
  rewrite Hk. apply not_true_iff_false. intros [Hb|(p'&Hp'&Hid)]%Hbits; [by rewrite root_bit in Hb by done| |lia].
  apply Hn. rewrite Hid. by apply list_elem_of_fmap_2.
Qed.

Lemma partial_NoDup ps b st : path model hist root (Init model) ps b st → NoDup (id_at hist <$> ps).
Proof using Hwf.
  intros Hp. apply NoDup_ids; [by eapply path_NoDup, Hp; [done|apply wf_newBitset]|]. intros p q Hp' Hq.
  apply (wh_call_unique hist Hwf); by eapply path_calls; [done|apply wf_newBitset|done|].
Qed.

Lemma partial_index ids hs k : partial model hist ids → times_ok hist (length hist) hs → k ∈ ids → is_Some (hs@[k]).
Proof using Hwf.
  intros (ps&b&st&Hp&->&_) [Hlen _] (p&->&Hin)%list_elem_of_fmap.
  destruct (path_calls model hist Hwf _ _ _ _ _ p (wf_newBitset num) Hp Hin) as [Hc _].
  pose proof (wh_ids hist Hwf p (is_call_lt _ _ Hc)). destruct (idx_in_range hs (id_at hist p)) as [x ->]; [lia|]. by eexists.
Qed.

Lemma partial_order ids hs j i k x y : partial model hist ids → times_ok hist (length hist) hs →
  ids !! j = Some i → hs@[i] = Some x → hs@[k] = Some y → k ∉ take j ids → he_Start x ≤ he_End y.
Proof using Hwf Htm.
  intros (ps&b&st&Hp&->&_) Ht Hj Hx Hy Hn. rewrite list_lookup_fmap in Hj. apply fmap_Some in Hj as (p&Hj&->).
  destruct (element_times hist Hwf hs _ x Ht Hx) as (p1&_&e&_&Hc1&Hid1&_&He&_&_&->&_).
  destruct (element_times hist Hwf hs k y Ht Hy) as (p2&q&_&r&Hc2&Hid2&Hm&_&Hr&Hret&_&->).
  destruct (path_calls model hist Hwf _ _ _ _ _ p (wf_newBitset num) Hp (list_elem_of_lookup_2 _ _ _ Hj)) as [Hc _].
  assert (p1 = p) as -> by (by apply (wh_call_unique hist Hwf)). destruct (mate_Some hist p2 q Hwf Hc2 Hm) as (_&Hidq&_).
  assert (p < q)%nat; [|eapply (tm_sorted hist Htm p q); [done..|lia]].
  eapply path_order; [exact Hp|exact Hj|done|by rewrite Hidq|]. by rewrite fmap_take.
Qed.

(** ** [Largest] *)

(** The loops keep the ids, and give a place only to linearizations. *)
Lemma partial_loop_steps dst cv rv i size st ids li ls steps li' ls' :
  partial_loop model dst cv rv i size st ids li ls = Some (steps, li', ls') →
  ls_Index <$> steps = ids ∧ (∀ k l, li' !! k = Some l → li !! k = Some l ∨ l = i) ∧
  (∀ k l, li !! k = Some l → size ≤ map_get ls k → li' !! k = Some l ∧ map_get ls' k = map_get ls k) ∧
  (∀ k, k ∈ ids → 0 < size → map_get ls k < size → li' !! k = Some i ∧ map_get ls' k = size).
Proof using.
  revert st li ls steps. induction ids as [|id ids IH]; intros st li ls steps E; cbn [partial_loop] in E.
  { injection E as <- <- <-. split_and!; [done|auto|auto|by intros k ?%elem_of_nil]. }
  destruct (cv !! id); [|done]. destruct (rv !! id); [|done]. cbn [mbind option_bind] in E.
  destruct (Step model st _ _) as [[ok st']|]; [|done]. cbn [mbind option_bind] in E. destruct (negb ok); [done|].
  set (ls1 := if map_get ls id <? size then <[id := size]> ls else ls) in *. set (li1 := if map_get ls id <? size then <[id := i]> li else li) in *.
  destruct (partial_loop model dst cv rv i size st' ids li1 ls1) as [[[steps1 li2] ls2]|] eqn:E1; [|done].
  cbn [mbind option_bind] in E. injection E as <- <- <-. destruct (IH _ _ _ _ E1) as (H1&H2&H3&H4). split_and!.
  - csimpl. by rewrite H1.
  - intros k l Hl. destruct (H2 k l Hl) as [Hl1| ->]; [|by right]. unfold li1 in Hl1. destruct (map_get ls id <? size); [|by left].
    apply lookup_insert_Some in Hl1 as [[_ <-]|[_ ?]]; auto.
  - intros k l Hl Hs. assert (Hk : li1 !! k = Some l ∧ map_get ls1 k = map_get ls k).
    { unfold li1, ls1. destruct (Z.ltb_spec (map_get ls id) size) as [Hlt|]; [|done]. assert (id ≠ k) by (intros ->; lia).
      unfold map_get. by rewrite !lookup_insert_ne. }
    destruct Hk as [Hk1 Hk2]. rewrite <-Hk2 in Hs |- *. by apply H3.
  - intros k Hk Hs Hlt. destruct (decide (k = id)) as [->|Hne].
    + assert (Hin : li1 !! id = Some i ∧ map_get ls1 id = size).
      { unfold li1, ls1. rewrite (proj2 (Z.ltb_lt _ _) Hlt). unfold map_get. by rewrite !lookup_insert_eq. }
      destruct Hin as [Hi1 Hi2]. rewrite <-Hi2. by apply H3; [|lia].
    + apply elem_of_cons in Hk as [|Hk]; [done|]. apply H4; [done..|]. unfold ls1. destruct (map_get ls id <? size); [|done].
      unfold map_get. by rewrite lookup_insert_ne.
Qed.

Lemma partials_loop_steps dst cv rv i partials li ls lins li' :
  partials_loop model dst cv rv i partials li ls = Some (lins, li') → (∀ k l, li !! k = Some l → 0 ≤ l < i) → 0 ≤ i →
  (λ lin : list linearizationStep, ls_Index <$> lin) <$> lins = partials ∧ (∀ k l, li' !! k = Some l → 0 ≤ l < i + len partials) ∧
  ∀ k l, li !! k = Some l → Forall (λ ids, len ids ≤ map_get ls k) partials → li' !! k = Some l.
Proof using.
  revert i li ls lins. induction partials as [|ids partials IH]; intros i li ls lins E Hli Hi; cbn [partials_loop] in E.
  { injection E as <- <-. split_and!; [done| |done]. intros k l Hl. specialize (Hli k l Hl). unfold len. simpl. lia. }
  destruct (partial_loop _ _ _ _ _ _ _ _ _ _) as [[[steps li1] ls1]|] eqn:E1; [|done]. cbn [mbind option_bind] in E.
  destruct (partials_loop model dst cv rv (i + 1) partials li1 ls1) as [[rest li2]|] eqn:E2; [|done]. cbn [mbind option_bind] in E. injection E as <- <-.
  destruct (partial_loop_steps _ _ _ _ _ _ _ _ _ _ _ _ E1) as (H1&H2&H3&_).
  destruct (IH _ _ _ _ E2) as (H4&H5&H6); [|lia|].
  { intros k l Hl. destruct (H2 k l Hl) as [Hl'| ->]; [specialize (Hli k l Hl'); lia|lia]. }
  rewrite len_cons. split_and!; [csimpl; by rewrite H1, H4|intros k l Hl; specialize (H5 k l Hl); lia|].
  intros k l Hl [Hs Hall]%Forall_cons. destruct (H3 k l Hl Hs) as [Hk1 Hk2]. apply H6; [done|]. by rewrite Hk2.
Qed.

(** The elements of the first linearization, which is a longest one, show it. *)
Lemma largest_first dst cv rv partials lins li' ids :
  partials_loop model dst cv rv 0 partials ∅ ∅ = Some (lins, li') → head partials = Some ids → ids ≠ [] →
  Forall (λ x, (length x ≤ length ids)%nat) partials → ∀ k, k ∈ ids → li' !! k = Some 0.
Proof using.
  intros E Hh Hne Hall k Hk. destruct partials as [|ids0 partials]; [done|]. injection Hh as ->. cbn [partials_loop] in E.
  destruct (partial_loop _ _ _ _ _ _ _ _ _ _) as [[[steps li1] ls1]|] eqn:E1; [|done]. cbn [mbind option_bind] in E.
  destruct (partials_loop model dst cv rv (0 + 1) partials li1 ls1) as [[rest li2]|] eqn:E2; [|done]. cbn [mbind option_bind] in E. injection E as _ <-.
  destruct (partial_loop_steps _ _ _ _ _ _ _ _ _ _ _ _ E1) as (_&H2&_&H4).
  assert (0 < len ids) by (destruct ids; [done|rewrite len_cons; pose proof (len_nonneg ids); lia]).
  destruct (H4 k Hk) as [Hk1 Hk2]; [done|by unfold map_get; rewrite lookup_empty|].
  destruct (partials_loop_steps _ _ _ _ _ _ _ _ _ E2) as (_&_&H6); [|lia|].
  { intros k' l Hl. destruct (H2 k' l Hl) as [Hl'| ->]; [by rewrite lookup_empty in Hl'|lia]. }
  apply H6; [done|]. rewrite Hk2. apply Forall_cons in Hall as [_ Hall]. eapply Forall_impl; [exact Hall|]. unfold len. simpl. lia.
Qed.

Lemma longest_first (partials : list (list Z)) ids : head (merge_sort longer partials) = Some ids →
  Forall (λ x, (length x ≤ length ids)%nat) (merge_sort longer partials).
Proof using.
  assert (Htr : Transitive longer) by (intros a b c; unfold longer; lia). assert (Hto : Total longer) by (intros a b; unfold longer; lia).
  pose proof (StronglySorted_merge_sort longer partials) as Hs. destruct (merge_sort longer partials) as [|x l]; [done|].
  intros [= ->]. apply StronglySorted_inv in Hs as [_ Hall]. constructor; [lia|done].
Qed.

(** The data has the times of the entries, and the linearizations that were reported. *)
Lemma partition_data_parts partials p : partition_data model hist partials = Some p →
  times_ok hist (length hist) (pv_History p) ∧
  (λ lin : list linearizationStep, ls_Index <$> lin) <$> pv_PartialLinearizations p = merge_sort longer partials.
Proof using Hwf.
  intros E. unfold partition_data in E. destruct (DescribeOperation model) as [dop|]; [|done]. destruct (DescribeState model) as [dst|]; [|done].
  cbn [mbind option_bind] in E. destruct (history_loop _ _ _ _ _) as [[[hs cv] rv]|] eqn:Eh; [|done]. cbn [mbind option_bind] in E.
  destruct (partials_loop _ _ _ _ _ _ _ _) as [[lins li]|] eqn:Ep; [|done]. cbn [mbind option_bind] in E. injection E as <-. cbn [pv_History pv_PartialLinearizations].
  split; [|by destruct (partials_loop_steps _ _ _ _ _ _ _ _ _ Ep) as (Hids&_); [by intros k l ?%lookup_empty_Some|done|]].
  eapply (history_loop_times hist Hwf dop hist 0); [done| |exact Eh]. split; [|lia].
  unfold len at 1; rewrite length_replicate. assert (0 ≤ num) by (apply Z.div_pos; unfold len; lia). lia.
Qed.

(** After a partial linearization, the elements that were called before all others
    returned are the operations that could be linearized next. *)
Lemma next_avail hs ps b st k x : times_ok hist (length hist) hs → path model hist root (Init model) ps b st → hs@[k] = Some x →
  (k ∉ id_at hist <$> ps ∧ ∀ k' y, hs@[k'] = Some y → k' ∉ id_at hist <$> ps → he_Start x ≤ he_End y) ↔
  ∃ c, avail hist b c ∧ id_at hist c = k.
Proof using Hwf Htm.
  intros Ht Hp Hx. destruct (element_times hist Hwf hs k x Ht Hx) as (c&_&e&_&Hc&Hid&_&He&_&_&Hs&_).
  destruct (path_bits model hist Hwf _ _ _ _ _ (wf_newBitset num) Hp) as [_ Hbits].
  assert (Hbit : ∀ q, (q < length hist)%nat → bit b (id_at hist q) = false ↔ id_at hist q ∉ id_at hist <$> ps).
  { intros q Hq. pose proof (wh_ids hist Hwf q Hq) as Hr. rewrite <-not_true_iff_false, Hbits, root_bit, list_elem_of_fmap by lia. naive_solver. }
  split.
  - intros [Hn Hall]. exists c. split; [|done]. split_and!; [apply elem_of_rem; split; [by apply is_call_lt|apply Hbit; [by apply is_call_lt|by rewrite Hid]]|done|].
    intros q [Hlt Hq]%elem_of_rem Hqc. destruct (call_or_ret hist q Hlt) as [|(r&Hr&Hk)]; [done|]. exfalso.
    destruct Ht as [Hlen Ht]. pose proof (wh_ids hist Hwf q Hlt) as Hrange. destruct (idx_in_range hs (id_at hist q)) as [y Hy]; [lia|].
    specialize (Hall _ y Hy (proj1 (Hbit q Hlt) Hq)). rewrite (id_at_lookup hist q r Hr) in Hy. specialize (Ht q r y Hlt Hr Hy). rewrite Hk in Ht.
    destruct Hc as (e0&He0&Hke). rewrite He in He0. injection He0 as <-. pose proof (tm_ties hist Htm q c r e Hr He Hqc Hk Hke). lia.
  - intros (c'&(Hrem&Hc'&Hfirst)&Hid'). assert (c' = c) as -> by (apply (wh_call_unique hist Hwf); congruence).
    apply elem_of_rem in Hrem as [Hlt Hcb]. split; [rewrite <-Hid; by apply Hbit|]. intros k' y Hy Hk'.
    destruct (element_times hist Hwf hs k' y Ht Hy) as (p2&q&_&r&Hc2&Hid2&Hm&_&Hr&Hret&_&->). destruct (mate_Some hist p2 q Hwf Hc2 Hm) as (_&Hidq&_).
    rewrite Hs. destruct (decide (q < c)%nat) as [Hqc|Hge]; [|apply (tm_sorted hist Htm c q); [done..|lia]].
    exfalso. apply (call_not_ret hist q); [|done]. apply Hfirst; [|done]. apply elem_of_rem. split; [by apply is_ret_lt|].
    apply Hbit; [by apply is_ret_lt|]. congruence.
Qed.

Lemma partition_data_ok partials p : Forall (reported model hist) partials → partition_data model hist partials = Some p → partition_ok p.
Proof using Hwf Htm.
  intros Hrep E. unfold partition_data in E. destruct (DescribeOperation model) as [dop|]; [|done]. destruct (DescribeState model) as [dst|]; [|done].
  cbn [mbind option_bind] in E. destruct (history_loop _ _ _ _ _) as [[[hs cv] rv]|] eqn:Eh; [|done]. cbn [mbind option_bind] in E.
  destruct (partials_loop _ _ _ _ _ _ _ _) as [[lins li]|] eqn:Ep; [|done]. cbn [mbind option_bind] in E. injection E as <-.
  assert (Ht : times_ok hist (length hist) hs).
  { eapply (history_loop_times hist Hwf dop hist 0); [done| |exact Eh]. split; [unfold len at 1; rewrite length_replicate; assert (0 ≤ num) by (apply Z.div_pos; unfold len; lia); lia|lia]. }
  destruct (partials_loop_steps _ _ _ _ _ _ _ _ _ Ep) as (Hids&Hli&_); [by intros k l ?%lookup_empty_Some|done|].
  rewrite <-(merge_sort_Permutation longer) in Hrep. rewrite Forall_forall in Hrep.
  assert (Hlin : ∀ lin, lin ∈ lins → reported model hist (ls_Index <$> lin)).
  { intros lin Hlin. apply Hrep. rewrite <-Hids. apply list_elem_of_fmap. eauto. }
  split; cbn [pv_History pv_PartialLinearizations pv_Largest].
  - intros x (k&Hk)%list_elem_of_lookup. rewrite <-idx_nat in Hk. destruct (element_times hist Hwf hs _ x Ht Hk) as (q&m&e&r&_&_&Hm&He&Hr&_&->&->).
    by eapply (tm_takes hist Htm).
  - intros lin Hl ->. by destruct (Hlin [] Hl) as [_ ?].
  - intros lin Hl. destruct (Hlin lin Hl) as [(ps&b&st&Hp&->&_) _]. by eapply partial_NoDup.
  - intros lin s Hl Hs. destruct (Hlin lin Hl) as [Hp _]. eapply partial_index; [done..|]. by apply list_elem_of_fmap_2.
  - intros lin j s e k e' Hl Hj He He' Hn. destruct (Hlin lin Hl) as [Hp _]. rewrite fmap_take in Hn.
    eapply (partial_order (ls_Index <$> lin) hs j); [done|done|by rewrite list_lookup_fmap, Hj|done..].
  - intros k l Hl. specialize (Hli k l Hl). rewrite <-Hids in Hli. unfold len in *. rewrite length_fmap in Hli. lia.
  - intros lin k Hl Hk. assert (Hh : head (merge_sort longer partials) = Some (ls_Index <$> lin)).
    { rewrite <-Hids. destruct lins; [done|]. simpl in *. congruence. }
    eapply (largest_first dst cv rv _ lins li (ls_Index <$> lin)); [exact Ep|done| |by apply longest_first|done].
    destruct (Hlin lin) as [_ ?]; [by eapply list_elem_of_lookup_2|done].
Qed.
End Partition.
End PorcupineReport.
