(* ===== verification/PorcupinePageTheorems.v ===== *)
(** * Theorems on the page

    The layout, the drawing, the sessions and the jump link of the page, for data that
    a check produces. *)

From S2P Require Import Prelude PorcupineBitset Porcupine PorcupineKv PorcupineList PorcupineLink PorcupineSearch PorcupineRep PorcupineCheck PorcupineParallel PorcupineHistory PorcupineVisual PorcupineTheorems PorcupinePage PorcupinePageLayout PorcupinePagePrep PorcupinePageUi PorcupinePageDraw PorcupinePageSession PorcupineReport.

Module PorcupinePageTheorems.
Import Bitset Porcupine PorcupineKv PorcupineList PorcupineLink PorcupineSearch PorcupineCheck PorcupineParallel PorcupineHistory PorcupineVisual PorcupineTheorems.
Import PorcupinePage PorcupinePageLayout PorcupinePagePrep PorcupinePageUi PorcupinePageDraw PorcupinePageSession PorcupineReport.

Section Page.
Context (px : Z) (textWidth : string → Z) (data : list partitionVisualizationData).

(** ** What is drawn *)

(** The point at [x] is inside the box. *)
Definition inside (r : Rect) (x : num) : Prop :=
  ∃ x0 w v, r_x r = Some x0 ∧ r_width r = Some w ∧ x = Some v ∧ x0 ≤ v ≤ x0 + w.

(** The points of a linearization are in the boxes of their elements. *)
Definition points_inside (P : partition) (rects : list Rect) (lin : list linearizationStep) (dl : DrawnLin) : Prop :=
  Forall2 (λ s x, ∃ r, rects@[ls_Index s] = Some r ∧ inside r x) lin (xs Point (dl_lines dl)) ∧
  Forall2 (λ ke x, ∃ r, rects@[ke.1] = Some r ∧ inside r x) (illegal_next (ls_Index <$> lin) (History P)) (xs IllegalPoint (dl_lines dl)).

Definition part_drawn (P : partition) (rects : list Rect) (dp : DrawnPart) : Prop :=
  (∀ k e, History P !! k = Some e → ∃ r w, rects !! k = Some r ∧ r_width r = Some w ∧ box_width px textWidth e ≤ w) ∧
  (∀ l lin, PartialLinearizations P !! l = Some lin → ∃ dl, dp_lins dp !! l = Some dl ∧ points_inside P rects lin dl).

Lemma draw_el_inside xPos e v : known xPos (start2 e) → known xPos (el_End e) → val xPos (start2 e) ≤ v ≤ val xPos (el_End e) →
  inside (draw_el px xPos e) (shift px v).
Proof.
  intros Hs He Hv. unfold inside, draw_el, shift. cbn [r_x r_width]. rewrite (known_get _ _ Hs), (known_get _ _ He).
  cbn [num_add num_sub mbind option_bind]. eexists _, _, _. split_and!; [done..| |]; lia.
Qed.

Context (Hpx : 0 ≤ px) (Hok : Forall partition_ok data).

Lemma box_positive xPos P k e : good_layout px textWidth data (val xPos) → P ∈ prepare data → (History P)@[k] = Some e →
  val xPos (start2 e) ≤ val xPos (el_End e).
Proof using Hpx Hok.
  intros Hg HP Hk. destruct (history_idx data P k e HP Hk) as (_&h&_&_&_&Hh&_&E&_).
  pose proof (data_time data Hok h Hh) as Ht. pose proof (gl_gap _ _ _ _ Hg (start2 e) (el_End e)) as Hgap. unfold BOX_GAP in Hgap.
  rewrite E in *. cbn [start2 el_Start el_End prepare_el] in *. unfold start2 in *. cbn [el_Start] in *.
  assert (Hlt : 2 * he_Start h < end2 data h) by (apply (tweak_order data h h (data_time data Hok) Hh Hh); lia). unfold end2 in Hlt.
  assert (2 * he_Start h ∈ sortedTimestamps data) by (apply sortedTimestamps_spec; eauto).
  assert (end2 data h ∈ sortedTimestamps data) by (apply sortedTimestamps_spec; eauto 6). unfold end2 in *. specialize (Hgap ltac:(done) ltac:(done) Hlt). lia.
Qed.

Lemma lin_inside xPos P part l lin dl : (∀ t, t ∈ sortedTimestamps data → known xPos t) → good_layout px textWidth data (val xPos) →
  P ∈ prepare data → lin ∈ PartialLinearizations P →
  lin_drawn px data xPos P part l lin dl → points_inside P (draw_el px xPos <$> History P) lin dl.
Proof using Hpx Hok.
  intros Hkn Hg HP Hl [Hp (v&Hv&Hi) _ _]. destruct (lin_ok data Hok P lin HP Hl) as (_&_&Hin).
  destruct (gl_lins _ _ _ _ Hg P lin HP Hl) as [q Hq]. destruct (least_fits px data Hok _ P lin q HP Hl Hq) as [Hlen Hins Hap Hill]. split.
  - rewrite Hp. apply Forall2_same_length_lookup_2; [by rewrite length_fmap|]. intros j s x Hj Hx.
    rewrite list_lookup_fmap in Hx. apply fmap_Some in Hx as (w&Hw&->). pose proof Hin as Hin'. unfold lin_in in Hin'. rewrite Forall_lookup in Hin'.
    destruct (Hin' j s Hj) as (e&He&_). pose proof He as (k&Ek&Hk)%idx_lookup. exists (draw_el px xPos e).
    split; [by rewrite Ek, idx_nat, list_lookup_fmap, Hk|]. apply draw_el_inside; [by eapply start_known|by eapply end_known|by eapply Hins].
  - rewrite Hi. apply Forall2_fmap_r, Forall_Forall2_diag, Forall_forall. intros [k e] Hke. simpl.
    pose proof (illegal_next_idx P lin k e Hke) as He. pose proof He as (i&->&Hk)%idx_lookup. exists (draw_el px xPos e).
    split; [by rewrite idx_nat, list_lookup_fmap, Hk|]. apply draw_el_inside; [by eapply start_known|by eapply end_known|].
    simpl. pose proof (Hill _ e v Hv Hke). pose proof (box_positive xPos P _ e Hg HP He). lia.
Qed.

(** What is drawn fits together. *)
Lemma drawn_fits xPos dps w h : length dps = length (prepare data) →
  (∀ q P dp, prepare data !! q = Some P → dps !! q = Some dp →
    length (dp_lins dp) = length (PartialLinearizations P) ∧
    (∀ l lin dl, PartialLinearizations P !! l = Some lin → dp_lins dp !! l = Some dl → lin_drawn px data xPos P (0 + q) l lin dl) ∧
    map_Forall (λ _ l, 0 ≤ l < len (PartialLinearizations P)) (dp_largestIllegal dp)) →
  drawn_ok (mkDrawn (prepare data) (draw_history px xPos (prepare data)) dps (error_points dps) w h).
Proof using Hok.
  intros Hlen Hdp. rewrite Forall_forall in Hok.
  assert (Hpart : ∀ q P, prepare data !! q = Some P → ∃ dp p, dps !! q = Some dp ∧ p ∈ data ∧
    PartialLinearizations P = pv_PartialLinearizations p ∧ Largest P = pv_Largest p).
  { intros q P HP. destruct (lookup_lt_is_Some_2 dps q) as [dp Hq]; [rewrite Hlen; by eapply lookup_lt_Some|].
    destruct (prepare_from_lookup _ _ _ _ _ HP) as (p&base&Hp&HL&Hla&_). exists dp, p. split_and!; [done|by eapply list_elem_of_lookup_2|done..]. }
  split; cbn [dr_rects dr_lins dr_parts dr_errorPoints].
  - unfold draw_history. rewrite <-list_fmap_compose. apply list_fmap_ext. intros i P _. simpl. by rewrite length_fmap.
  - apply list_eq. intros q. rewrite !list_lookup_fmap. destruct (prepare data !! q) as [P|] eqn:HP.
    + destruct (Hpart q P HP) as (dp&_&Hq&_). rewrite Hq. simpl. by destruct (Hdp q P dp HP Hq) as (->&_).
    + by rewrite (lookup_ge_None_2 dps) by (rewrite Hlen; by apply lookup_ge_None).
  - intros P lin HP Hl. destruct (lin_ok data ltac:(by apply Forall_forall) P lin HP Hl) as (?&_&Hin). split; [done|].
    eapply Forall_impl; [exact Hin|]. intros s (e&->&_). by eexists.
  - intros q P k l (i&->&HP)%idx_lookup Hl. destruct (Hpart i P HP) as (_&p&_&Hp&->&E). rewrite E in Hl. by apply (po_largest p (Hok p Hp) k).
  - intros q dp k l (i&->&Hq)%idx_lookup Hl. destruct (lookup_lt_is_Some_2 (prepare data) i) as [P HP]; [rewrite <-Hlen; by eapply lookup_lt_Some|].
    destruct (Hdp i P dp HP Hq) as (Hl1&_&Hm). specialize (Hm k l Hl). simpl in Hm. unfold len in *. by rewrite Hl1.
  - intros pt Hpt. unfold error_points in Hpt. rewrite merge_sort_Permutation in Hpt.
    apply list_elem_of_bind in Hpt as (dp&(dl&Hpt&(l&Hdl)%list_elem_of_lookup)%list_elem_of_bind&(q&Hq)%list_elem_of_lookup).
    destruct (lookup_lt_is_Some_2 (prepare data) q) as [P HP]; [rewrite <-Hlen; by eapply lookup_lt_Some|].
    destruct (Hdp q P dp HP Hq) as (Hl1&Hd&_). destruct (lookup_lt_is_Some_2 (PartialLinearizations P) l) as [lin Hlin]; [rewrite <-Hl1; by eapply lookup_lt_Some|].
    pose proof (ld_error _ _ _ _ _ _ _ _ (Hd l lin dl Hlin Hdl)) as He. unfold points_ok in He. rewrite Forall_forall in He.
    destruct (He pt Hpt) as (->&->&E). exists P, lin. done.
  - intros P lin k (q&HP)%list_elem_of_lookup Hl Hk. destruct (Hpart q P HP) as (_&p&_&Hp&E1&E2). rewrite E1 in Hl. rewrite E2.
    by apply (po_first p (Hok p Hp) lin).
Qed.

(** All that is drawn, in one lemma. *)
Lemma draw_correct : ∃ xPos lps d, layout px textWidth (prepare data) (sortedTimestamps data) = Some (xPos, lps) ∧
  draw px textWidth data = Some d ∧ drawn_ok d ∧ dr_parts d = prepare data ∧
  ∀ q P, prepare data !! q = Some P → ∃ rects dp, dr_rects d !! q = Some rects ∧ dr_lins d !! q = Some dp ∧ part_drawn P rects dp.
Proof using Hpx Hok.
  destruct (layout_correct px textWidth data Hpx Hok) as (tb&xPos&lps&_&El&Hkn&Hg&_).
  destruct (draw_parts_ok px data Hok xPos Hkn 0 (prepare data)) as (dps&Ed&Hlen&Hdp); [done|].
  exists xPos, lps. unfold draw. rewrite El. cbn [mbind option_bind]. rewrite Ed. cbn [mbind option_bind].
  eexists. split; [done|]. split; [done|]. split; [|split; [done|]].
  - by apply drawn_fits.
  - intros q P HP. destruct (lookup_lt_is_Some_2 dps q) as [dp Hq]; [rewrite Hlen; by eapply lookup_lt_Some|].
    exists (draw_el px xPos <$> History P), dp. cbn [dr_rects dr_lins]. split; [unfold draw_history; by rewrite list_lookup_fmap, HP|]. split; [done|].
    destruct (Hdp q P dp HP Hq) as (Hl&Hdl&_). pose proof (list_elem_of_lookup_2 _ _ _ HP) as HPin. split.
    + intros k e Hk. rewrite list_lookup_fmap, Hk. eexists _, _. split; [done|]. unfold draw_el. cbn [r_width].
      assert (Hk' : (History P)@[Z.of_nat k] = Some e) by (by rewrite idx_nat).
      rewrite (known_get xPos (start2 e)), (known_get xPos (el_End e)) by (by eapply start_known || by eapply end_known).
      cbn [num_sub mbind option_bind]. split; [done|]. pose proof (gl_text _ _ _ _ Hg e) as Ht.
      destruct (history_idx data P _ e HPin Hk') as (_&_&_&_&_&_&Hb&_). specialize (Ht (list_elem_of_lookup_2 _ _ _ Hb)). lia.
    + intros l lin Hlin. destruct (lookup_lt_is_Some_2 (dp_lins dp) l) as [dl Hdl']; [rewrite Hl; by eapply lookup_lt_Some|].
      exists dl. split; [done|]. eapply (lin_inside xPos P (0 + q) l); [done..|by eapply list_elem_of_lookup_2|by eapply Hdl].
Qed.
End Page.

(** ** The theorems *)

(** C37: the layout of the page solves its constraints optimally, on the data of a check
    in which every operation starts strictly before it ends ([partition_ok]; see
    [instant_has_no_position] for the others): every time stamp gets a position, time stamps are kept apart, boxes are wide enough for their texts,
    every partial linearization and its illegal next steps have points in the boxes,
    in order and apart, and no solution has a smaller position for any time stamp. *)
Theorem layout_is_least px textWidth data : 0 ≤ px → Forall partition_ok data →
  ∃ xPos lps, layout px textWidth (prepare data) (sortedTimestamps data) = Some (xPos, lps) ∧
    (∀ t, t ∈ sortedTimestamps data → known xPos t) ∧ good_layout px textWidth data (val xPos) ∧
    ∀ y t, good_layout px textWidth data y → t ∈ sortedTimestamps data → val xPos t ≤ y t.
Proof.
  intros Hpx Hok. destruct (layout_correct px textWidth data Hpx Hok) as (_&xPos&lps&_&?&?&?&?&_). by exists xPos, lps.
Qed.

(** C38: on the data of a check in which every operation starts strictly before it ends
    drawing the page does not throw; every box is as wide as its text, and every
    linearization point and every point of an illegal next step is drawn inside the
    box of its element. *)
Theorem points_drawn_inside px textWidth data : 0 ≤ px → Forall partition_ok data →
  ∃ d, draw px textWidth data = Some d ∧ ∀ q P, prepare data !! q = Some P →
    ∃ rects dp, dr_rects d !! q = Some rects ∧ dr_lins d !! q = Some dp ∧ part_drawn px textWidth P rects dp.
Proof. intros Hpx Hok. destruct (draw_correct px textWidth data Hpx Hok) as (_&_&d&_&?&_&_&?). by exists d. Qed.

(** C39: in a session with any mouse events on the page of such data, no handler throws, and the page
    shows what the abstract view says: the boxes, layers and linearizations of the
    selected or highlighted element, and a jump link to the first visible error; a
    move of the mouse gives the tooltip of the present position and selection, cached
    or not. *)
Theorem session_follows_view px textWidth data d s : 0 ≤ px → Forall partition_ok data → draw px textWidth data = Some d → session d s →
  (∃ v, shows d s v ∧ ∀ u, enabled d s u → ∃ s', handle d u s = Some s' ∧ shows d s' (view_step d u v)) ∧
  ∀ p i x y s', handle d (Move p i x y) s = Some s' → Some (tooltip s') = tooltip_text d (selected s') (selectedIndex s') p i.
Proof.
  intros Hpx Hok E Hs. split; [|intros p i x y s' E'; by eapply handleMouseMove_tooltip; [apply session_tooltip|]]. destruct (draw_correct px textWidth data Hpx Hok) as (_&_&d'&_&E'&Hd&_). rewrite E in E'. injection E' as <-.
  destruct (session_shows d Hd s Hs) as [v Hv]. exists v. split; [done|]. intros u. by apply handle_ok.
Qed.

(** The jump link leads to what it promises: clicked while nothing is selected or
    highlighted, it selects an element whose linearization is the one with the
    first error point, so that the point stays visible. *)
Theorem jump_shows_first_error px textWidth data d s pt : 0 ≤ px → Forall partition_ok data → draw px textWidth data = Some d →
  shows d s (mkView None None) → first_error d None = Some pt →
  ∃ s', handle d Jump s = Some s' ∧ shows d s' (mkView (Some (Z.of_nat (ep_partition pt), ep_index pt)) None) ∧
    point_hidden (partialHidden s') pt = false.
Proof.
  intros Hpx Hok E Hs Hpt. destruct (draw_correct px textWidth data Hpx Hok) as (_&_&d'&_&E'&Hd&_). rewrite E in E'. injection E' as <-.
  pose proof (first_error_elem d None pt Hpt) as Hin. destruct (do_error d Hd pt Hin) as (P&lin&HP&Hlin&Hidx).
  pose proof (sh_jump _ _ _ Hs) as Hj. cbn [shown v_selected v_hover] in Hj. rewrite Hpt in Hj. destruct Hj as [Hj _].
  destruct (handle_ok d Hd s _ Jump Hs Hj) as (s'&E'&Hs'). cbn [view_step v_selected shown v_hover] in Hs'. rewrite Hpt in Hs'.
  exists s'. split_and!; [done..|]. rewrite (sh_partial _ _ _ Hs'). cbn [shown v_selected].
  destruct (target_part d Hd _ (error_target d Hd pt Hin)) as (P'&dp&_&HP'&Hdp&_&Hlen&_). cbn [fst snd] in *. rewrite idx_nat in HP'. rewrite idx_nat in Hdp.
  rewrite HP in HP'. injection HP' as <-. apply List.find_some in Hpt as [_ Hvis]. apply negb_true_iff in Hvis.
  unfold point_hidden in *. rewrite grid_lookup in *. rewrite list_lookup_fmap, Hdp in *. cbn [fmap option_fmap option_map mbind option_bind] in *.
  rewrite list_lookup_fmap, lookup_seq_lt in * by (rewrite Hlen; by eapply lookup_lt_Some). cbn [fmap option_fmap option_map default from_option id] in *.
  cbn [lin_hidden] in Hvis. apply negb_false_iff, Nat.eqb_eq in Hvis. rewrite Nat.add_0_l in *. rewrite Hvis in *.
  assert (Hls : lin_shown d (Z.of_nat (ep_partition pt), ep_index pt) = Some 0).
  { unfold lin_shown, linearizationIndex. cbn [fst snd]. rewrite !idx_nat, HP, Hdp. cbn [mbind option_bind mjoin option_join].
    rewrite (do_first d Hd P lin (ep_index pt)); [done|by eapply list_elem_of_lookup_2|done|].
    destruct (last lin) as [st|] eqn:El; [|done]. injection Hidx as ->. apply list_elem_of_fmap_2. by apply last_Some_elem_of. }
  unfold lin_hidden. rewrite Hls. unfold at_cell. cbn [fst]. by rewrite !Z.eqb_refl.
Qed.

(** ** From a check to its page *)


Section Check.
Context {V St : Type} `{EqDecision St} `{SortByTime V}.
Context (sprint_op : V → V → string) (sprint_state : St → string).
Notation full := (fillDefault sprint_op sprint_state).

Context (model : Model V St) (eq : St → St → bool) (Hg : GoodEqual (full model) eq).
Context (history : list (list (entry V))) (timeout : Z) (fuel : nat) (order : list nat) (describe : V → V → option string).
Context (res : CheckResult) (info : linearizationInfo V).
Context (Hne : history ≠ []) (Hc : Forall (checkable (full model) fuel) history) (Htm : Forall timed history).
Context (Ho : order ≡ₚ seq 0 (length history)) (Hd : DescribeOperation (full model) = Some describe).
Context (Hdt : ∀ hist p m e r, hist ∈ history → mate hist p = Some m → hist !! p = Some e → hist !! m = Some r →
  is_Some (describe (en_value e) (en_value r))).
Context (E : checkParallel (full model) history true timeout fuel (λ _ _, false) (Result <$> order) = Some (res, info)).



End Check.

(** ** Witnesses *)

(** A text is as wide as its length, in units of a pixel. *)
Definition fixed_width (t : string) : Z := 8 * Z.of_nat (String.length t).

(** Two overlapping operations and one after them; the last is refused. *)
Definition demo_page : list partitionVisualizationData :=
  [mkPartitionData
     [mkHistoryElement 0 0 10 "put"; mkHistoryElement 1 5 10 "get"; mkHistoryElement 0 10 30 "append"]
     [[mkLinearizationStep 1 "a"; mkLinearizationStep 0 "b"]]
     {[ 0 := 0; 1 := 0 ]}].

Lemma demo_page_ok : Forall partition_ok demo_page.
Proof.
  apply Forall_singleton. split; simpl.
  - intros e. rewrite !elem_of_cons, elem_of_nil. intros [->|[->|[->|[]]]]; simpl; lia.
  - by intros lin ->%list_elem_of_singleton.
  - intros lin ->%list_elem_of_singleton. by apply (bool_decide_unpack _).
  - intros lin s ->%list_elem_of_singleton. rewrite !elem_of_cons, elem_of_nil. intros [->|[->|[]]]; by eexists.
  - intros lin j s e k e' ->%list_elem_of_singleton Hj He He' _.
    assert (he_Start e ≤ 5). { destruct j as [|[|j]]; [injection Hj as <-..|done]; vm_compute in He; injection He as <-; done. }
    apply idx_elem_of in He'. rewrite !elem_of_cons, elem_of_nil in He'. destruct He' as [->|[->|[->|[]]]]; simpl; lia.
  - intros k l Hl. apply lookup_insert_Some in Hl as [[_ <-]|[_ [_ <-]%lookup_singleton_Some]]; unfold len; simpl; lia.
  - intros lin k [= <-]. cbn [fmap list_fmap ls_Index]. rewrite elem_of_cons, list_elem_of_singleton. intros [->| ->]; reflexivity.
Qed.

Lemma layout_is_least_witness :
  ∃ xPos lps, layout 1 fixed_width (prepare demo_page) (sortedTimestamps demo_page) = Some (xPos, lps) ∧
    (∀ t, t ∈ sortedTimestamps demo_page → known xPos t) ∧ good_layout 1 fixed_width demo_page (val xPos) ∧
    ∀ y t, good_layout 1 fixed_width demo_page y → t ∈ sortedTimestamps demo_page → val xPos t ≤ y t.
Proof. apply (layout_is_least 1 fixed_width demo_page); [lia|apply demo_page_ok]. Defined.

Lemma points_drawn_inside_witness :
  ∃ d, draw 1 fixed_width demo_page = Some d ∧ ∀ q P, prepare demo_page !! q = Some P →
    ∃ rects dp, dr_rects d !! q = Some rects ∧ dr_lins d !! q = Some dp ∧ part_drawn 1 fixed_width P rects dp.
Proof. apply (points_drawn_inside 1 fixed_width demo_page); [lia|apply demo_page_ok]. Defined.

Definition demo_drawn : Drawn := default (mkDrawn [] [] [] [] None 0) (draw 1 fixed_width demo_page).
Lemma demo_drawn_eq : draw 1 fixed_width demo_page = Some demo_drawn.
Proof. vm_compute. reflexivity. Qed.

Lemma session_follows_view_witness :
  (∃ v, shows demo_drawn (initial_page demo_drawn) v ∧
    ∀ u, enabled demo_drawn (initial_page demo_drawn) u → ∃ s', handle demo_drawn u (initial_page demo_drawn) = Some s' ∧ shows demo_drawn s' (view_step demo_drawn u v)) ∧
  ∀ p i x y s', handle demo_drawn (Move p i x y) (initial_page demo_drawn) = Some s' →
    Some (tooltip s') = tooltip_text demo_drawn (selected s') (selectedIndex s') p i.
Proof.
  apply (session_follows_view 1 fixed_width demo_page demo_drawn (initial_page demo_drawn));
    [lia|apply demo_page_ok|apply demo_drawn_eq|constructor].
Defined.

(** The first error of the page: the refused operation. *)
Definition demo_error : ErrorPoint := default (mkErrorPoint None 0 0 0) (first_error demo_drawn None).

Lemma jump_shows_first_error_witness :
  ∃ s', handle demo_drawn Jump (initial_page demo_drawn) = Some s' ∧
    shows demo_drawn s' (mkView (Some (Z.of_nat (ep_partition demo_error), ep_index demo_error)) None) ∧
    point_hidden (partialHidden s') demo_error = false.
Proof.
  apply (jump_shows_first_error 1 fixed_width demo_page demo_drawn (initial_page demo_drawn) demo_error);
    [lia|apply demo_page_ok|apply demo_drawn_eq| |vm_compute; reflexivity].
  apply initial_ok. destruct (draw_correct 1 fixed_width demo_page) as (_&_&d&_&E&Hd&_); [lia|apply demo_page_ok|].
  rewrite demo_drawn_eq in E. injection E as <-. exact Hd.
Defined.

#[local] Existing Instance merge_sort_by_time.








(** An operation that returns at the moment of its call, at the end of the history:
    its end is not moved, and the scan reads its start before it is placed, so that
    the last time stamp has no position and its box no width. *)
Definition instant_page : list partitionVisualizationData :=
  [mkPartitionData [mkHistoryElement 0 0 10 "put"; mkHistoryElement 1 20 20 "get"] [] ∅].

Theorem instant_has_no_position :
  ∃ d xPos lps, draw 1 fixed_width instant_page = Some d ∧
    layout 1 fixed_width (prepare instant_page) (sortedTimestamps instant_page) = Some (xPos, lps) ∧
    40 ∈ sortedTimestamps instant_page ∧ get xPos 40 = None ∧ dr_width d = None ∧
    ∃ rects r, dr_rects d !! 0%nat = Some rects ∧ rects !! 1%nat = Some r ∧ r_width r = None.
Proof.
  eexists _, _, _. split; [vm_compute; reflexivity|]. split; [vm_compute; reflexivity|].
  split; [apply (bool_decide_unpack _); vm_compute; exact I|]. split; [vm_compute; reflexivity|]. split; [vm_compute; reflexivity|].
  eexists _, _. split; [vm_compute; reflexivity|]. split; vm_compute; reflexivity.
Qed.
End PorcupinePageTheorems.
