(* ===== verification/LabRpc.v ===== *)
(** * The simulated network: [labrpc/labrpc.go]

    The network's tables, its administration calls, and the life of one request
    in [processReq] as a machine whose steps interleave with administration calls:
    between two steps servers may be deleted and replaced and ends disabled.
    Servers are shared objects, compared by pointer: they live in a store, and a
    pointer is a position in it.  Random choices are arguments of the steps.
    [None] is a panic or [log.Fatalf]. *)

From Stdlib Require Import Ascii.
From S2P Require Import Prelude.

Module LabRpc.

(** Counters of fixed width. *)
Definition wrap (bits x : Z) : Z := (x + 2 ^ (bits - 1)) mod 2 ^ bits - 2 ^ (bits - 1).
Definition AddInt32 (x d : Z) : Z := wrap 32 (x + d).
Definition AddInt64 (x d : Z) : Z := wrap 64 (x + d).

(** ** Services and servers *)

(** A method of a receiver, as reflection shows it; [me_func] runs it on encoded
    arguments and gives the encoded reply.  [W] is the state of the receivers. *)
Record Method (W : Type) := mkMethod {
  me_name : string; me_exported : bool; me_numIn : Z; me_replyIsPtr : bool; me_numOut : Z;
  me_func : string → W → W * string
}.
Arguments mkMethod {W}. Arguments me_name {W}. Arguments me_exported {W}. Arguments me_numIn {W}.
Arguments me_replyIsPtr {W}. Arguments me_numOut {W}. Arguments me_func {W}.

Record Service (W : Type) := mkService { sv_name : string; sv_methods : gmap string (Method W) }.
Arguments mkService {W}. Arguments sv_name {W}. Arguments sv_methods {W}.

Record Server (W : Type) := mkServer { sr_services : gmap string (Service W); sr_count : Z }.
Arguments mkServer {W}. Arguments sr_services {W}. Arguments sr_count {W}.

Record replyMsg := mkReplyMsg { rm_ok : bool; rm_reply : string }.
Record reqMsg (Name : Type) := mkReqMsg { rq_endname : Name; rq_svcMeth : string; rq_args : string }.
Arguments mkReqMsg {Name}. Arguments rq_endname {Name}. Arguments rq_svcMeth {Name}. Arguments rq_args {Name}.

Section Services.
Context {W : Type}.

(** A method can handle RPCs. *)
Definition suitable (m : Method W) : bool :=
  negb (negb (me_exported m) || negb (me_numIn m =? 3) || negb (me_replyIsPtr m) || negb (me_numOut m =? 0)).

Definition MakeService (name : string) (methods : list (Method W)) : Service W :=
  mkService name (fold_left (λ ms m, if suitable m then <[me_name m := m]> ms else ms) methods ∅).

Definition MakeServer : Server W := mkServer ∅ 0.

Definition AddService (svc : Service W) (rs : Server W) : Server W :=
  mkServer (<[sv_name svc := svc]> (sr_services rs)) (sr_count rs).

(** [strings.LastIndex(s, ".")] and the two slices around it; without a dot the
    first slice expression panics. *)
Fixpoint split_dot (s : string) : option (string * string) :=
  match s with
  | EmptyString => None
  | String c s' =>
      match split_dot s' with
      | Some (a, b) => Some (String c a, b)
      | None => if Ascii.eqb c "." then Some ("", s') else None
      end
  end.

Definition service_dispatch (svc : Service W) (methname args : string) (w : W) : option (W * replyMsg) :=
  m ← sv_methods svc !! methname;
  let '(w, reply) := me_func m args w in Some (w, mkReplyMsg true reply).

Definition server_dispatch (rs : Server W) (svcMeth args : string) (w : W) : option (Server W * W * replyMsg) :=
  let rs := mkServer (sr_services rs) (sr_count rs + 1) in
  '(serviceName, methodName) ← split_dot svcMeth;
  svc ← sr_services rs !! serviceName;
  '(w, r) ← service_dispatch svc methodName args w;
  Some (rs, w, r).

Definition server_GetCount (rs : Server W) : Z := sr_count rs.
End Services.

(** ** The network *)

Section Network.
Context {Name : Type} `{Countable Name} {W : Type}.

Record Network := mkNetwork {
  reliable : bool; longDelays : bool; longReordering : bool;
  ends : gset Name;                        (* names of the client ends *)
  enabled : gmap Name bool;
  servers : gmap Name (option nat);        (* pointers into the store, or nil *)
  connections : gmap Name (option Name);
  count : Z; bytes : Z;
  done : bool;                             (* the done channel is closed *)
  store : list (Server W)                  (* the servers *)
}.

Definition with_flags r d o (n : Network) := mkNetwork r d o (ends n) (enabled n) (servers n) (connections n) (count n) (bytes n) (done n) (store n).
Definition with_tables e s c (n : Network) := mkNetwork (reliable n) (longDelays n) (longReordering n) (ends n) e s c (count n) (bytes n) (done n) (store n).
Definition with_stats c b (n : Network) := mkNetwork (reliable n) (longDelays n) (longReordering n) (ends n) (enabled n) (servers n) (connections n) c b (done n) (store n).
Definition with_store st (n : Network) := mkNetwork (reliable n) (longDelays n) (longReordering n) (ends n) (enabled n) (servers n) (connections n) (count n) (bytes n) (done n) st.

Definition MakeNetwork : Network := mkNetwork true false false ∅ ∅ ∅ ∅ 0 0 false [].

Definition Cleanup (n : Network) : option Network :=
  if done n then None   (* close of a closed channel *)
  else Some (mkNetwork (reliable n) (longDelays n) (longReordering n) (ends n) (enabled n) (servers n) (connections n) (count n) (bytes n) true (store n)).

Definition Reliable (yes : bool) (n : Network) := with_flags yes (longDelays n) (longReordering n) n.
Definition LongReordering (yes : bool) (n : Network) := with_flags (reliable n) (longDelays n) yes n.
Definition LongDelays (yes : bool) (n : Network) := with_flags (reliable n) yes (longReordering n) n.

(** Fails when the end exists. *)
Definition MakeEnd (endname : Name) (n : Network) : option Network :=
  if decide (endname ∈ ends n) then None
  else Some (mkNetwork (reliable n) (longDelays n) (longReordering n) ({[endname]} ∪ ends n)
               (<[endname := false]> (enabled n)) (servers n) (<[endname := None]> (connections n))
               (count n) (bytes n) (done n) (store n)).

Definition AddServer (servername : Name) (rs : nat) (n : Network) :=
  with_tables (enabled n) (<[servername := Some rs]> (servers n)) (connections n) n.
Definition DeleteServer (servername : Name) (n : Network) :=
  with_tables (enabled n) (<[servername := None]> (servers n)) (connections n) n.
Definition Connect (endname servername : Name) (n : Network) :=
  with_tables (enabled n) (servers n) (<[endname := Some servername]> (connections n)) n.
Definition Enable (endname : Name) (yes : bool) (n : Network) :=
  with_tables (<[endname := yes]> (enabled n)) (servers n) (connections n) n.

(** [MakeServer] as the callers use it: a new object. *)
Definition new_server (n : Network) : nat * Network := (length (store n), with_store (store n ++ [MakeServer]) n).

Definition server_at (n : Network) (servername : Name) : option nat := default None (servers n !! servername).

Definition GetCount (servername : Name) (n : Network) : option Z :=
  p ← server_at n servername; rs ← store n !! p; Some (server_GetCount rs).
Definition GetTotalCount (n : Network) : Z := count n.
Definition GetTotalBytes (n : Network) : Z := bytes n.

(** The goroutine of [MakeNetwork] takes a request off the channel. *)
Definition accept (req : reqMsg Name) (n : Network) : Network :=
  with_stats (AddInt32 (count n) 1) (AddInt64 (bytes n) (Z.of_nat (String.length (rq_args req)))) n.

Definition readEndnameInfo (endname : Name) (n : Network) : bool * option Name * option nat * bool * bool :=
  let servername := default None (connections n !! endname) in
  (default false (enabled n !! endname), servername,
   match servername with Some s => server_at n s | None => None end, reliable n, longReordering n).

Definition isServerDead (endname servername : Name) (server : nat) (n : Network) : bool :=
  negb (default false (enabled n !! endname)) || negb (bool_decide (server_at n servername = Some server)).

(** ** One request *)

(** Where [processReq] is.  [Running] carries what [readEndnameInfo] returned and
    the message the handler's goroutine offers on [ech], once it has run;
    [Sending] is past the last check, about to send the answer, [Delayed] the timer
    that will send it later; [Replied] is what was sent to the caller.  The goroutine outlives a request
    that gives up on it. *)
Inductive Phase :=
  | Begin
  | Running (servername : Name) (server : nat) (rel longre : bool) (ech : option replyMsg)
  | Checking (servername : Name) (server : nat) (rel longre : bool) (reply : option replyMsg)
  | NoServer
  | Sending (reply : replyMsg)
  | Delayed (reply : replyMsg)
  | Replied (reply : replyMsg).

Record Call := mkCall { ca_net : Network; ca_world : W; ca_phase : Phase;
  ca_handler : option nat;          (* the goroutine that is to call the handler, and its server *)
  ca_runs : list (nat * replyMsg)   (* the handler executions of this request *) }.

Definition no_reply : replyMsg := mkReplyMsg false "".

(** The steps of the request, with its random choices, and of the rest of the
    world: any administration call. *)
Inductive Step :=
  | Read (drop : bool)                  (* look up the end; maybe drop the request *)
  | Dispatch                            (* the handler runs *)
  | Receive                             (* its reply arrives *)
  | Poll                                (* 100 ms later: is the server dead? *)
  | Decide (drop delay : bool)          (* the last check, and what to answer *)
  | Fire                                (* an answer is sent, at once or delayed *)
  | Admin (f : Network → Network)       (* anything the tester does to the tables *)
  | World (f : W → W).                  (* anything that happens to the receivers *)

Definition processReq (req : reqMsg Name) (s : Step) (c : Call) : option Call :=
  let n := ca_net c in
  let goto ph := Some (mkCall n (ca_world c) ph (ca_handler c) (ca_runs c)) in
  let answer (r : replyMsg) :=
    Some (mkCall (with_stats (count n) (AddInt64 (bytes n) (Z.of_nat (String.length (rm_reply r)))) n)
            (ca_world c) (Replied r) (ca_handler c) (ca_runs c)) in
  match s, ca_phase c with
  | Read drop, Begin =>
      match readEndnameInfo (rq_endname req) n with
      | (true, Some servername, Some server, rel, longre) =>
          if negb rel && drop then goto (Replied no_reply)
          else Some (mkCall n (ca_world c) (Running servername server rel longre None) (Some server) (ca_runs c))
      | _ => goto NoServer
      end
  | Dispatch, ph =>
      server ← ca_handler c;
      rs ← store n !! server;
      '(rs, w, r) ← server_dispatch rs (rq_svcMeth req) (rq_args req) (ca_world c);
      Some (mkCall (with_store (<[server := rs]> (store n)) n) w
              (match ph with
               | Running servername server' rel longre None => Running servername server' rel longre (Some r)
               | ph => ph
               end) None (ca_runs c ++ [(server, r)]))
  | Receive, Running servername server rel longre (Some r) => goto (Checking servername server rel longre (Some r))
  | Poll, Running servername server rel longre ech =>
      if isServerDead (rq_endname req) servername server n
      then goto (Checking servername server rel longre None) else Some c
  | Decide drop delay, Checking servername server rel longre reply =>
      let serverDead := isServerDead (rq_endname req) servername server n in
      match reply with
      | None => goto (Replied no_reply)
      | Some r =>
          if serverDead then goto (Replied no_reply)
          else if negb rel && drop then goto (Replied no_reply)
          else if longre && delay then goto (Delayed r)
          else goto (Sending r)
      end
  | Fire, NoServer => goto (Replied no_reply)
  | Fire, (Sending r | Delayed r) => answer r
  | Admin f, ph => Some (mkCall (f n) (ca_world c) ph (ca_handler c) (ca_runs c))
  | World f, ph => Some (mkCall n (f (ca_world c)) ph (ca_handler c) (ca_runs c))
  | _, _ => None
  end.

Fixpoint run_call (req : reqMsg Name) (c : Call) (ls : list Step) : option Call :=
  match ls with [] => Some c | l :: ls => c ← processReq req l c; run_call req c ls end.
End Network.
Arguments Network : clear implicits. Arguments Call : clear implicits. Arguments Phase : clear implicits.
Arguments Network Name {_ _} W. Arguments Call Name {_ _} W.

(** ** [ClientEnd.Call] *)

Section Client.
Context {Name Args Reply : Type} (encode : Args → string) (decode : string → option Reply).  (* labgob *)

Definition make_req (endname : Name) (svcMeth : string) (args : Args) : reqMsg Name :=
  mkReqMsg endname svcMeth (encode args).

(** What [Call] returns for the message on the reply channel, and the caller's
    reply variable; a reply that does not decode is fatal. *)
Definition Call_result (old : Reply) (rep : replyMsg) : option (bool * Reply) :=
  if rm_ok rep then r ← decode (rm_reply rep); Some (true, r) else Some (false, old).
End Client.

(** [Call] sends the request: the network's goroutine takes it, or the network has
    been destroyed and the call fails, or it waits. *)
Definition Call_send {Name W : Type} `{Countable Name} (taken : bool) (n : Network Name W) : option bool :=
  if taken then Some true else if done n then Some false else None.
End LabRpc.
