(* ===== verification/LabRpcTheorems.v ===== *)
(** * Theorems about the simulated network

    Invariants of one request under any interleaving with the rest of the world,
    and the theorems C26 and C27. *)

From S2P Require Import Prelude LabRpc.

Module LabRpcTheorems.
Import LabRpc.

Section Request.
Context {Name : Type} `{Countable Name} {W : Type}.
Local Arguments readEndnameInfo : simpl never.
Local Arguments isServerDead : simpl never.
Local Arguments server_dispatch : simpl never.
Implicit Types n : Network Name W.
Implicit Types c : Call Name W.

(** What is known of a request: its handler ran at most once, and a positive
    message is what the handler produced. *)
Definition call_ok c : Prop :=
  match ca_handler c with
  | Some server => ca_runs c = [] ∧
      match ca_phase c with
      | Begin | NoServer | Sending _ | Delayed _ | Checking _ _ _ _ (Some _) | Running _ _ _ _ (Some _) => False
      | Running _ server' _ _ None => server' = server
      | Checking _ _ _ _ None => True
      | Replied r => rm_ok r = false
      end
  | None =>
      match ca_phase c with
      | Begin | NoServer => ca_runs c = []
      | Running _ server _ _ (Some r) | Checking _ server _ _ (Some r) => ca_runs c = [(server, r)]
      | Running _ _ _ _ None => False
      | Checking _ _ _ _ None => ∃ x, ca_runs c = [x]
      | Sending r | Delayed r => ∃ server, ca_runs c = [(server, r)]
      | Replied r => (rm_ok r = false ∧ (length (ca_runs c) ≤ 1)%nat) ∨ ∃ server, ca_runs c = [(server, r)]
      end
  end.

(** Case analysis on everything a step tests. *)
Ltac step_cases :=
  repeat match goal with
  | E : _ ≫= _ = Some _ |- _ => apply bind_Some in E as (?&?&?); simpl in *
  | E : context [match ?x with _ => _ end] |- _ => destruct x eqn:?; simplify_eq/=
  end; simplify_eq/=.

Lemma call_ok_step req s c c' : call_ok c → processReq req s c = Some c' → call_ok c'.
Proof.
  intros Hok E. destruct c as [n w ph hd runs]. unfold call_ok, processReq in *. simpl in *.
  destruct s, ph; step_cases; try done; try (by destruct Hok); naive_solver lia.
Qed.

Lemma call_ok_run req ls c c' : call_ok c → run_call req c ls = Some c' → call_ok c'.
Proof.
  revert c. induction ls as [|l ls IH]; intros c Hok E; simpl in E; [by simplify_eq|].
  apply bind_Some in E as (c1&E1&E2). eauto using call_ok_step.
Qed.

Lemma call_ok_length c : call_ok c → (length (ca_runs c) ≤ 1)%nat.
Proof.
  destruct c as [n w ph hd runs]. unfold call_ok. simpl.
  repeat case_match; intros; destruct_and?; destruct_or?; repeat match goal with Hx : ∃ _, _ |- _ => destruct Hx end; simplify_eq/=; try done; lia.
Qed.

(** After the look-up, only the server found there can run the handler. *)
Definition bound_to (server : nat) c : Prop :=
  ca_phase c ≠ Begin ∧ (∀ p, ca_handler c = Some p → p = server) ∧ ∀ x, x ∈ ca_runs c → x.1 = server.

Lemma bound_to_step req s c c' server : bound_to server c → processReq req s c = Some c' → bound_to server c'.
Proof.
  intros (Hph&Hh&Hr) E. destruct c as [n w ph hd runs]. unfold bound_to, processReq in *. simpl in *.
  assert (Hadd : ∀ p r, hd = Some p → ∀ x : nat * replyMsg, x ∈ runs ++ [(p, r)] → x.1 = server).
  { intros p r Hp x [Hx|Hx]%elem_of_app; [by apply Hr|]. apply list_elem_of_singleton in Hx as ->. by apply Hh. }
  destruct s, ph; step_cases; try done; split_and!; try naive_solver. by destruct ech.
Qed.

Lemma bound_to_run req ls c c' server : bound_to server c → run_call req c ls = Some c' → bound_to server c'.
Proof.
  revert c. induction ls as [|l ls IH]; intros c Hb E; simpl in E; [by simplify_eq|].
  apply bind_Some in E as (c1&E1&E2). eauto using bound_to_step.
Qed.

Definition fresh_call n (w : W) : Call Name W := mkCall n w Begin None [].

(** The look-up binds the request to the server the end leads to, if any. *)
Lemma Read_binds req drop n w c1 : processReq req (Read drop) (fresh_call n w) = Some c1 →
  (∃ sname server rel longre, readEndnameInfo (rq_endname req) n = (true, Some sname, Some server, rel, longre) ∧
     bound_to server c1) ∨ ∀ server, bound_to server c1.
Proof.
  unfold processReq, fresh_call. cbn [ca_phase ca_net ca_world ca_handler ca_runs]. intros E.
  assert (Hnone : ∀ server ph, ph ≠ Begin → bound_to server (mkCall n w ph None [])).
  { intros server ph Hph. split_and!; simpl; [done|done|]. intros x Hx. by apply not_elem_of_nil in Hx. }
  destruct (readEndnameInfo (rq_endname req) n) as [[[[[] [sn|]] [sv|]] rel] lr]; simplify_eq; try (right; intros; by apply Hnone).
  left. exists sn, sv, rel, lr. split; [done|]. destruct (negb rel && drop); simplify_eq; [by apply Hnone|].
  split_and!; simpl; [done|by intros p [= ->]|]. intros x Hx. by apply not_elem_of_nil in Hx.
Qed.

(** The handler runs only on the server that the end led to. *)
Lemma runs_after_read req ls c c' :
  ca_phase c = Begin → ca_handler c = None → ca_runs c = [] → run_call req c ls = Some c' →
  ∀ server r, (server, r) ∈ ca_runs c' →
  ∃ ls1 drop ls2 c1 sname rel longre, ls = ls1 ++ Read drop :: ls2 ∧ run_call req c ls1 = Some c1 ∧
    readEndnameInfo (rq_endname req) (ca_net c1) = (true, Some sname, Some server, rel, longre).
Proof.
  revert c. induction ls as [|l ls IH]; intros c Hph Hh Hr E server r Hin.
  { simpl in E. simplify_eq. rewrite Hr in Hin. by apply not_elem_of_nil in Hin. }
  simpl in E. apply bind_Some in E as (c1&E1&E2). destruct c as [n w ph hd runs]. simpl in *. subst.
  assert (Hgo : ca_phase c1 = Begin → ca_handler c1 = None → ca_runs c1 = [] → ∃ ls1 drop ls2 c2 sname rel longre,
    l :: ls = ls1 ++ Read drop :: ls2 ∧ run_call req (mkCall n w Begin None []) ls1 = Some c2 ∧
    readEndnameInfo (rq_endname req) (ca_net c2) = (true, Some sname, Some server, rel, longre)).
  { intros H1 H2 H3. destruct (IH c1 H1 H2 H3 E2 server r Hin) as (ls1&d&ls2&c2&sn&rel&lr&->&Hrun&Hread).
    exists (l :: ls1), d, ls2, c2, sn, rel, lr. split; [done|]. split; [|done]. simpl. by rewrite E1. }
  destruct l; [|unfold processReq in E1; simpl in E1; simplify_eq/=; by apply Hgo..].
  assert (Hall : ∀ server', bound_to server' c1 → server' = server).
  { intros server' Hb. destruct (bound_to_run _ _ _ _ _ Hb E2) as (_&_&Hx). symmetry. exact (Hx _ Hin). }
  destruct (Read_binds _ _ _ _ _ E1) as [(sn&sv&rel&lr&Eread&Hb)|Hb].
  - exists [], drop, ls, (mkCall n w Begin None []), sn, rel, lr. split; [done|]. split; [done|].
    cbn [ca_net]. by rewrite Eread, (Hall sv Hb).
  - pose proof (Hall (S server) (Hb (S server))). lia.
Qed.

(** C26: an RPC runs its handler at most once, and never lies: in every
    interleaving with the rest of the world, if the caller gets a positive reply
    then the handler ran exactly once, on the server the end was connected to when
    the request was read (and the end was enabled), and the reply is what it
    returned. *)
Theorem rpc_runs_once_and_replies_truthfully req n w ls c :
  run_call req (fresh_call n w) ls = Some c →
  (length (ca_runs c) ≤ 1)%nat ∧
  ∀ r, ca_phase c = Replied r → rm_ok r = true →
    ∃ server, ca_runs c = [(server, r)] ∧
    ∃ ls1 drop ls2 c1 sname rel longre, ls = ls1 ++ Read drop :: ls2 ∧
      run_call req (fresh_call n w) ls1 = Some c1 ∧
      readEndnameInfo (rq_endname req) (ca_net c1) = (true, Some sname, Some server, rel, longre).
Proof.
  intros E. assert (Hok : call_ok c) by (by eapply call_ok_run; [|exact E]). split.
  - by apply call_ok_length.
  - intros r Hph Hr. assert (Hruns : ∃ server, ca_runs c = [(server, r)]).
    { unfold call_ok in Hok. rewrite Hph in Hok. destruct (ca_handler c); [naive_solver congruence|].
      destruct Hok as [[? _]|?]; [congruence|done]. }
    destruct Hruns as [server Hs]. exists server. split; [done|].
    eapply runs_after_read; [..|exact E|rewrite Hs; by left]; done.
Qed.

(** ** Deleted servers *)

(** The request is bound to a server that is gone. *)
Definition doomed req c : Prop :=
  match ca_phase c with
  | Begin | Sending _ | Delayed _ => False
  | NoServer => True
  | Running sname server _ _ _ | Checking sname server _ _ _ =>
      isServerDead (rq_endname req) sname server (ca_net c) = true
  | Replied r => rm_ok r = false
  end.

(** An administration call that brings no dead server back. *)
Definition no_revival req (f : Network Name W → Network Name W) : Prop :=
  ∀ n sname server, isServerDead (rq_endname req) sname server n = true →
    isServerDead (rq_endname req) sname server (f n) = true.

Definition quiet req (s : Step (Name := Name) (W := W)) : Prop := match s with Admin f => no_revival req f | _ => True end.

Lemma isServerDead_store e sname server st n :
  isServerDead e sname server (with_store st n) = isServerDead e sname server n.
Proof. done. Qed.

Lemma doomed_step req s c c' : doomed req c → quiet req s → processReq req s c = Some c' → doomed req c'.
Proof.
  intros Hd Hq E. destruct c as [n w ph hd runs]. unfold doomed, processReq in *. simpl in *.
  destruct s, ph; step_cases; try done; try congruence; try (by apply Hq). by destruct ech.
Qed.

Lemma doomed_run req ls c c' : doomed req c → Forall (quiet req) ls → run_call req c ls = Some c' → doomed req c'.
Proof.
  intros Hd Hq. revert c Hd. induction Hq as [|l ls Hl Hls IH]; intros c Hd E; simpl in E; [by simplify_eq|].
  apply bind_Some in E as (c1&E1&E2). eauto using doomed_step.
Qed.

Lemma no_revival_DeleteServer req sname : no_revival req (DeleteServer sname).
Proof.
  intros n sn server. unfold isServerDead, server_at, DeleteServer. simpl. intros Hd.
  apply orb_true_iff in Hd as [Hd|Hd]; apply orb_true_iff; [by left|right].
  destruct (decide (sname = sn)) as [->|]; [by rewrite lookup_insert_eq|by rewrite lookup_insert_ne].
Qed.

Lemma no_revival_disable req e : no_revival req (Enable e false).
Proof.
  intros n sn server. unfold isServerDead, server_at, Enable. simpl. intros Hd.
  apply orb_true_iff in Hd as [Hd|Hd]; apply orb_true_iff; [left|by right].
  destruct (decide (e = rq_endname req)) as [->|]; [by rewrite lookup_insert_eq|by rewrite lookup_insert_ne].
Qed.

(** Once the server of a request is gone before the last check, and is not put back,
    the caller gets a failure, even if the handler runs to completion. *)
Lemma doomed_request_fails req c ls c' sname server rel longre ech r :
  ca_phase c = Running sname server rel longre ech ∨ ca_phase c = Checking sname server rel longre ech →
  isServerDead (rq_endname req) sname server (ca_net c) = true →
  Forall (quiet req) ls → run_call req c ls = Some c' → ca_phase c' = Replied r → rm_ok r = false.
Proof.
  intros Hph Hdead Hq E Hr. assert (Hd : doomed req c) by (unfold doomed; by destruct Hph as [-> | ->]).
  pose proof (doomed_run _ _ _ _ Hd Hq E) as Hd'. unfold doomed in Hd'. by rewrite Hr in Hd'.
Qed.

(** ** The last check *)

(** The answer on its way to the caller. *)
Definition pending (ph : Phase Name) : option replyMsg :=
  match ph with Sending r | Delayed r | Replied r => Some r | _ => None end.

(** A positive answer gets on its way only in the last check, at a live server. *)
Lemma pending_step req s c c' r : processReq req s c = Some c' → pending (ca_phase c') = Some r → rm_ok r = true →
  pending (ca_phase c) = Some r ∨
  ∃ drop delay sname server rel longre, s = Decide drop delay ∧ ca_phase c = Checking sname server rel longre (Some r) ∧
    isServerDead (rq_endname req) sname server (ca_net c) = false.
Proof.
  intros E Hp Hr. destruct c as [n w ph hd runs]. unfold pending, processReq in *. simpl in *.
  destruct s, ph; step_cases; try done; try (by left); right; eauto 10.
Qed.

Lemma pending_run req ls c c' r : run_call req c ls = Some c' → pending (ca_phase c') = Some r → rm_ok r = true →
  pending (ca_phase c) = Some r ∨
  ∃ ls1 drop delay ls2 c1 sname server rel longre, ls = ls1 ++ Decide drop delay :: ls2 ∧ run_call req c ls1 = Some c1 ∧
    ca_phase c1 = Checking sname server rel longre (Some r) ∧ isServerDead (rq_endname req) sname server (ca_net c1) = false.
Proof.
  revert c. induction ls as [|l ls IH]; intros c E Hp Hr; simpl in E; [left; by simplify_eq|].
  apply bind_Some in E as (c1&E1&E2).
  destruct (IH c1 E2 Hp Hr) as [Hp1|(ls1&d&y&ls2&c2&sn&sv&rel&lr&->&Hrun&Hph&Hal)].
  - destruct (pending_step _ _ _ _ _ E1 Hp1 Hr) as [|(d&y&sn&sv&rel&lr&->&Hph&Hal)]; [by left|right].
    by exists [], d, y, ls, c, sn, sv, rel, lr.
  - right. exists (l :: ls1), d, y, ls2, c2, sn, sv, rel, lr. split; [done|]. split; [|done]. simpl. by rewrite E1.
Qed.

(** C27: a dead server does not answer: in every interleaving with the rest of the
    world, if the caller gets a positive reply, then when [processReq] made its last
    check, the reply being at hand, the end was enabled and its server was still the
    object the request was sent to, neither deleted nor superseded.  What happens
    between that check and the sending of the reply is not looked at. *)
Theorem dead_server_never_answers req n w ls c r :
  run_call req (fresh_call n w) ls = Some c → ca_phase c = Replied r → rm_ok r = true →
  ∃ ls1 drop delay ls2 c1 sname server rel longre,
    ls = ls1 ++ Decide drop delay :: ls2 ∧ run_call req (fresh_call n w) ls1 = Some c1 ∧
    ca_phase c1 = Checking sname server rel longre (Some r) ∧
    default false (enabled (ca_net c1) !! rq_endname req) = true ∧
    server_at (ca_net c1) sname = Some server ∧ ca_runs c1 = [(server, r)].
Proof.
  intros E Hph Hr. destruct (pending_run req ls (fresh_call n w) c r E) as [|(ls1&d&y&ls2&c1&sn&sv&rel&lr&->&E1&Hph1&Hal)];
    [by rewrite Hph|done|done|]. exists ls1, d, y, ls2, c1, sn, sv, rel, lr. unfold isServerDead in Hal.
  apply orb_false_iff in Hal as [Hen%negb_false_iff Hsv%negb_false_iff%bool_decide_eq_true]. split_and!; [done..|].
  assert (Hok : call_ok c1) by (by eapply call_ok_run; [|exact E1]). unfold call_ok in Hok. rewrite Hph1 in Hok.
  destruct (ca_handler c1); [by destruct Hok|done].
Qed.

(** A reliable network delivers: with the end enabled and connected to a server
    that has the method, and no administration in between, the request ends with
    the handler's reply whatever the random choices, and the server's count grows
    by one. *)
Theorem reliable_call_succeeds req n w sname server rs svc m sn mn w' reply drop1 drop2 delay :
  readEndnameInfo (rq_endname req) n = (true, Some sname, Some server, true, false) →
  store n !! server = Some rs → split_dot (rq_svcMeth req) = Some (sn, mn) →
  sr_services rs !! sn = Some svc → sv_methods svc !! mn = Some m → me_func m (rq_args req) w = (w', reply) →
  ∃ c, run_call req (fresh_call n w) [Read drop1; Dispatch; Receive; Decide drop2 delay; Fire] = Some c ∧
    ca_phase c = Replied (mkReplyMsg true reply) ∧ ca_world c = w' ∧
    GetCount sname (ca_net c) = Some (sr_count rs + 1).
Proof.
  intros Hread Hst Hsplit Hsvc Hm Hf.
  set (rs' := mkServer (sr_services rs) (sr_count rs + 1)). set (n' := with_store (<[server := rs']> (store n)) n).
  assert (E1 : processReq req (Read drop1) (fresh_call n w) =
    Some (mkCall n w (Running sname server true false None) (Some server) [])).
  { unfold processReq, fresh_call. cbn [ca_phase ca_net ca_world ca_handler ca_runs]. by rewrite Hread. }
  assert (E2 : processReq req Dispatch (mkCall n w (Running sname server true false None) (Some server) []) =
    Some (mkCall n' w' (Running sname server true false (Some (mkReplyMsg true reply))) None [(server, mkReplyMsg true reply)])).
  { unfold processReq. cbn -[server_dispatch]. rewrite Hst. cbn -[server_dispatch]. unfold server_dispatch.
    rewrite Hsplit. cbn. rewrite Hsvc. cbn. unfold service_dispatch. rewrite Hm. cbn. by rewrite Hf. }
  unfold readEndnameInfo in Hread. injection Hread as Hen Hcon Hsv Hrel Hlong. rewrite Hcon in Hsv.
  assert (Hdead : isServerDead (rq_endname req) sname server n' = false).
  { unfold n'. rewrite isServerDead_store. unfold isServerDead. rewrite Hen, Hsv. simpl. by rewrite bool_decide_eq_true_2. }
  cbn [run_call]. rewrite E1. cbn [mbind option_bind]. rewrite E2. cbn [mbind option_bind].
  unfold processReq at 2. cbn [ca_phase mbind option_bind]. unfold processReq.
  cbn [ca_phase ca_net mbind option_bind ca_world ca_handler ca_runs]. rewrite Hdead. cbn [negb andb].
  eexists. split; [done|]. split; [done|]. split; [done|].
  unfold GetCount, server_at. cbn. unfold server_at in Hsv. rewrite Hsv. cbn.
  by rewrite list_lookup_insert_eq by (by eapply lookup_lt_Some).
Qed.
End Request.

(** ** The theorems at work *)

Definition echo : Method nat := mkMethod "Echo" true 3 true 0 (λ args w, (S w, args)).
Definition demo_net : Network string nat :=
  Enable "end" true (Connect "end" "srv" (AddServer "srv" 0
    (with_store [AddService (MakeService "Test" [echo]) MakeServer]
      (default MakeNetwork (MakeEnd "end" MakeNetwork))))).
Definition demo_req : reqMsg string := mkReqMsg "end" "Test.Echo" "hello".
Definition demo_steps : list (Step (Name := string) (W := nat)) := [Read true; Dispatch; Receive; Decide true true; Fire].

Definition demo_call (ls : list (Step (Name := string) (W := nat))) (c : Call string nat) : Call string nat :=
  default c (run_call demo_req c ls).
Definition demo_done : Call string nat := demo_call demo_steps (fresh_call demo_net 0%nat).

Lemma rpc_runs_once_and_replies_truthfully_witness :
  run_call demo_req (fresh_call demo_net 0%nat) demo_steps = Some demo_done ∧
  ca_phase demo_done = Replied (mkReplyMsg true "hello") ∧
  ∃ server, ca_runs demo_done = [(server, mkReplyMsg true "hello")].
Proof.
  assert (E : run_call demo_req (fresh_call demo_net 0%nat) demo_steps = Some demo_done) by (vm_compute; reflexivity).
  assert (Hp : ca_phase demo_done = Replied (mkReplyMsg true "hello")) by (vm_compute; reflexivity).
  split; [exact E|]. split; [exact Hp|].
  destruct (rpc_runs_once_and_replies_truthfully demo_req demo_net 0%nat demo_steps demo_done E) as [_ Hr].
  destruct (Hr _ Hp eq_refl) as (server&Hs&_). exists server. exact Hs.
Defined.

Definition demo_dead : Call string nat :=
  demo_call [Read true; Dispatch; Admin (DeleteServer "srv")] (fresh_call demo_net 0%nat).

(** The handler has run, but the server is deleted before the last check. *)
Lemma demo_dead_fails : ca_phase (demo_call [Receive; Decide true true] demo_dead) = Replied no_reply.
Proof. vm_compute. reflexivity. Qed.

Lemma dead_server_never_answers_witness :
  ca_phase demo_done = Replied (mkReplyMsg true "hello") ∧
  ∃ ls1 drop delay ls2 c1, demo_steps = ls1 ++ Decide drop delay :: ls2 ∧ run_call demo_req (fresh_call demo_net 0%nat) ls1 = Some c1 ∧
    default false (enabled (ca_net c1) !! "end") = true.
Proof.
  assert (Hp : ca_phase demo_done = Replied (mkReplyMsg true "hello")) by (vm_compute; reflexivity). split; [exact Hp|].
  destruct (dead_server_never_answers demo_req demo_net 0%nat demo_steps demo_done (mkReplyMsg true "hello"))
    as (ls1&d&y&ls2&c1&sn&sv&rel&lr&E&E1&_&Hen&_); [vm_compute; reflexivity|exact Hp|reflexivity|].
  exists ls1, d, y, ls2, c1. split; [exact E|]. split; [exact E1|exact Hen].
Defined.

Lemma reliable_call_succeeds_witness :
  ∃ c, run_call demo_req (fresh_call demo_net 0%nat) demo_steps = Some c ∧
    ca_phase c = Replied (mkReplyMsg true "hello") ∧ ca_world c = 1%nat ∧ GetCount "srv" (ca_net c) = Some 1.
Proof.
  exact (reliable_call_succeeds demo_req demo_net 0%nat "srv" 0 (AddService (MakeService "Test" [echo]) MakeServer)
    (MakeService "Test" [echo]) echo "Test" "Echo" 1%nat "hello" true true true
    eq_refl eq_refl eq_refl eq_refl eq_refl eq_refl).
Defined.
End LabRpcTheorems.
