(* ===== verification/RaftTester.v ===== *)
(** * The Raft test harness: [raft/config.go] and [raft/persister.go]

    The harness's [config]: the simulated network, the servers' instances and
    persisters, and the committed entries it has seen.  [*Raft] and [*Persister]
    values are shared with the running servers: they live in stores, and a pointer
    is a position in one.  An operation returns a value, ends the test with the
    error it reports ([log.Fatalf], [t.Fatalf]), or panics.  Random names are
    arguments; what a check sees of a running server is its state in the store at
    that moment. *)

From S2P Require Import Prelude RaftServer LabRpc.

Module RaftTester.
Import RaftServer LabRpc.

(** ** [persister.go] *)

Record Persister := mkPersister { raftstate : list Byte.byte; snapshot : list Byte.byte }.

Definition MakePersister : Persister := mkPersister [] [].
Definition clone (orig : list Byte.byte) : list Byte.byte := orig.
Definition Copy (ps : Persister) : Persister := mkPersister (raftstate ps) (snapshot ps).
Definition SaveRaftState (st : list Byte.byte) (ps : Persister) : Persister := mkPersister (clone st) (snapshot ps).
Definition ReadRaftState (ps : Persister) : list Byte.byte := clone (raftstate ps).
Definition RaftStateSize (ps : Persister) : Z := len (raftstate ps).
Definition SaveStateAndSnapshot (st snap : list Byte.byte) (ps : Persister) : Persister := mkPersister (clone st) (clone snap).
Definition ReadSnapshot (ps : Persister) : list Byte.byte := clone (snapshot ps).
Definition SnapshotSize (ps : Persister) : Z := len (snapshot ps).

(** ** Results *)

(** Names in the network: outgoing ends are strings, servers are numbers. *)
Inductive NetName := EndName (s : string) | ServerName (i : Z).
#[export] Instance NetName_eq_dec : EqDecision NetName.
Proof. solve_decision. Defined.
#[export] Instance NetName_countable : Countable NetName.
Proof.
  refine (inj_countable' (λ x, match x with EndName s => inl s | ServerName i => inr i end)
    (λ x, match x with inl s => EndName s | inr i => ServerName i end) _); by intros [].
Defined.

(** The errors the harnesses report; each message is a non-empty string. *)
Inductive TestError :=
  | CommitMismatch (index i j : Z)
  | OutOfOrder (i index : Z)
  | NilSnapshot | SnapshotDecode | SnapshotIndexMismatch (i : Z)
  | DuplicateEnd
  | ManyLeaders (term leaders : Z) | NoLeader
  | TermsDisagree | UnexpectedLeader (i : Z)
  | ValuesDiffer (index : Z) | ApplyError (i : Z) | OnlyDecided (nd index n : Z)
  | LogTooBig (size limit : Z) | SnapshotNotEmpty | NoAgreement
  | TestTooLong.

Inductive Res (A : Type) := Ret (a : A) | Fatal (e : TestError) | Panicked.
Arguments Ret {A}. Arguments Fatal {A}. Arguments Panicked {A}.

#[export] Instance Res_ret : MRet Res := @Ret.
#[export] Instance Res_bind : MBind Res := λ A B f m,
  match m with Ret a => f a | Fatal e => Fatal e | Panicked => Panicked end.

(** [checkTimeout]: [failed] is what [t.Failed] says, [elapsed] the nanoseconds since
    the start of the test. *)
Definition checkTimeout (failed : bool) (elapsed : Z) : Res unit :=
  if negb failed && (elapsed >? 120 * 10 ^ 9) then Fatal TestTooLong else Ret tt.

Definition try {A} (o : option A) : Res A := match o with Some a => Ret a | None => Panicked end.

(** A counted loop. *)
Fixpoint for_each {S} (js : list Z) (body : Z → S → Res S) (s : S) : Res S :=
  match js with [] => Ret s | j :: js => s ← body j s; for_each js body s end.

Section Tester.
Context {Cmd : Type} `{EqDecision Cmd} {W : Type}.
Notation Net := (Network NetName W).

(** Reflection over the methods of an instance, and [labgob] on a snapshot. *)
Context (raft_service : nat → Service W).
Context (encode_snap : Z → list (option Cmd) → list Byte.byte)
        (decode_snap : list Byte.byte → option (Z * list (option Cmd))).

Record config := mkConfig {
  finished : Z;
  net : Net;
  n : Z;
  rafts : list (option nat);                  (* pointers to instances, or nil *)
  applyErr : list (option TestError);
  connected : list bool;
  saved : list (option nat);                  (* pointers to persisters, or nil *)
  endnames : list (option (list string));     (* None is nil *)
  logs : list (gmap Z (option Cmd));
  cfg_lastApplied : list Z;
  rpcs0 : Z; cmds0 : Z; bytes0 : Z;
  maxIndex : Z; maxIndex0 : Z;
  instances : list (Raft Cmd);                (* the Raft objects *)
  persisters : list Persister                 (* the Persister objects *)
}.

Definition with_net v (c : config) := mkConfig (finished c) v (n c) (rafts c) (applyErr c) (connected c) (saved c) (endnames c) (logs c) (cfg_lastApplied c) (rpcs0 c) (cmds0 c) (bytes0 c) (maxIndex c) (maxIndex0 c) (instances c) (persisters c).
Definition with_connected v (c : config) := mkConfig (finished c) (net c) (n c) (rafts c) (applyErr c) v (saved c) (endnames c) (logs c) (cfg_lastApplied c) (rpcs0 c) (cmds0 c) (bytes0 c) (maxIndex c) (maxIndex0 c) (instances c) (persisters c).
Definition with_endnames v (c : config) := mkConfig (finished c) (net c) (n c) (rafts c) (applyErr c) (connected c) (saved c) v (logs c) (cfg_lastApplied c) (rpcs0 c) (cmds0 c) (bytes0 c) (maxIndex c) (maxIndex0 c) (instances c) (persisters c).
Definition with_rafts v h (c : config) := mkConfig (finished c) (net c) (n c) v (applyErr c) (connected c) (saved c) (endnames c) (logs c) (cfg_lastApplied c) (rpcs0 c) (cmds0 c) (bytes0 c) (maxIndex c) (maxIndex0 c) h (persisters c).
Definition with_saved v h (c : config) := mkConfig (finished c) (net c) (n c) (rafts c) (applyErr c) (connected c) v (endnames c) (logs c) (cfg_lastApplied c) (rpcs0 c) (cmds0 c) (bytes0 c) (maxIndex c) (maxIndex0 c) (instances c) h.
Definition with_logs v m (c : config) := mkConfig (finished c) (net c) (n c) (rafts c) (applyErr c) (connected c) (saved c) (endnames c) v (cfg_lastApplied c) (rpcs0 c) (cmds0 c) (bytes0 c) m (maxIndex0 c) (instances c) (persisters c).
Definition with_lastApplied v (c : config) := mkConfig (finished c) (net c) (n c) (rafts c) (applyErr c) (connected c) (saved c) (endnames c) (logs c) v (rpcs0 c) (cmds0 c) (bytes0 c) (maxIndex c) (maxIndex0 c) (instances c) (persisters c).

(** ** Attaching and detaching servers *)

Definition enable (endname : string) (yes : bool) (c : config) : config :=
  with_net (Enable (EndName endname) yes (net c)) c.

(** [cfg.endnames[i][j]]; indexing a nil slice panics. *)
Definition end_of (c : config) (i j : Z) : Res string :=
  names ← try ((endnames c)@[i]); try (default [] names)@[j].

Definition connect (i : Z) (c : config) : Res config :=
  conn ← try (upd (connected c) i true);
  let c := with_connected conn c in
  (* outgoing, then incoming ClientEnds *)
  c ← for_each (seqZ 0 (n c)) (λ j c,
        on ← try ((connected c)@[j]);
        if on : bool then e ← end_of c i j; Ret (enable e true c) else Ret c) c;
  for_each (seqZ 0 (n c)) (λ j c,
        on ← try ((connected c)@[j]);
        if on : bool then e ← end_of c j i; Ret (enable e true c) else Ret c) c.

Definition disconnect (i : Z) (c : config) : Res config :=
  conn ← try (upd (connected c) i false);
  let c := with_connected conn c in
  c ← for_each (seqZ 0 (n c)) (λ j c,
        names ← try ((endnames c)@[i]);
        match names with Some _ => e ← end_of c i j; Ret (enable e false c) | None => Ret c end) c;
  for_each (seqZ 0 (n c)) (λ j c,
        names ← try ((endnames c)@[j]);
        match names with Some _ => e ← end_of c j i; Ret (enable e false c) | None => Ret c end) c.

(** ** Crashing and starting servers *)

Definition alloc_persister (ps : Persister) (c : config) : nat * config :=
  (length (persisters c), with_saved (saved c) (persisters c ++ [ps]) c).

(** [saved[i]] replaced by a new object with the contents [f] of the old one. *)
Definition replace_saved (i : Z) (f : Persister → Persister) (c : config) : Res config :=
  old ← try ((saved c)@[i]);
  match old with
  | None => Ret c
  | Some p =>
      ps ← try (persisters c !! p);
      let '(q, c) := alloc_persister (f ps) c in
      sv ← try (upd (saved c) i (Some q));
      Ret (with_saved sv (persisters c) c)
  end.

Definition crash1 (i : Z) (c : config) : Res config :=
  c ← disconnect i c;
  let c := with_net (DeleteServer (ServerName i) (net c)) c in
  c ← replace_saved i Copy c;
  rf ← try ((rafts c)@[i]);
  c ← (match rf with
       | None => Ret c
       | Some p =>
           inst ← try (instances c !! p);
           rs ← try (upd (rafts c) i None);
           Ret (with_rafts rs (<[p := Kill inst]> (instances c)) c)
       end);
  replace_saved i (λ ps, SaveStateAndSnapshot (ReadRaftState ps) (ReadSnapshot ps) MakePersister) c.

(** [snap] is nil for [None]; the error is returned, [None] when there is none. *)
Definition ingestSnap (i : Z) (snap : option (list Byte.byte)) (index : Z) (c : config)
  : Res (config * option TestError) :=
  match snap with
  | None => Fatal NilSnapshot
  | Some snap =>
      match decode_snap snap with
      | None => Fatal SnapshotDecode
      | Some (lastIncludedIndex, xlog) =>
          if negb (index =? -1) && negb (index =? lastIncludedIndex) then Ret (c, Some (SnapshotIndexMismatch i))
          else
            let log : gmap Z (option Cmd) := list_to_map (zip (seqZ 0 (len xlog)) xlog) in
            ls ← try (upd (logs c) i log);
            la ← try (upd (cfg_lastApplied c) i lastIncludedIndex);
            Ret (with_lastApplied la (with_logs ls (maxIndex c) c), None)
      end
  end.

(** A fresh end for the connection from server [i] to server [j]. *)
Definition make_end (endname : string) (j : Z) (c : config) : Res config :=
  match MakeEnd (EndName endname) (net c) with
  | None => Fatal DuplicateEnd
  | Some nt => Ret (with_net (Connect (EndName endname) (ServerName j) nt) c)
  end.

(** [names] are the results of [randstring]; [r] feeds the new instance's timer. *)
Definition start1 (r : Z) (names : list string) (i : Z) (c : config) : Res config :=
  c ← crash1 i c;
  let names := take (Z.to_nat (n c)) names in
  es ← try (upd (endnames c) i (Some names));
  let c := with_endnames es c in
  c ← for_each (seqZ 0 (n c)) (λ j c, e ← try (names@[j]); make_end e j c) c;
  la ← try (upd (cfg_lastApplied c) i 0);
  let c := with_lastApplied la c in
  sv ← try ((saved c)@[i]);
  c ← (match sv with
       | Some _ =>
           c ← replace_saved i Copy c;
           sv ← try ((saved c)@[i]);
           ps ← try (sv ≫= λ p, persisters c !! p);
           let snap := ReadSnapshot ps in
           if len snap >? 0 then
             '(c, err) ← ingestSnap i (Some snap) (-1) c;
             match err with Some e => Fatal e | None => Ret c end
           else Ret c
       | None =>
           let '(q, c) := alloc_persister MakePersister c in
           sv ← try (upd (saved c) i (Some q)); Ret (with_saved sv (persisters c) c)
       end);
  sv ← try ((saved c)@[i]);
  ps ← try (sv ≫= λ p, persisters c !! p);
  let rf := length (instances c) in
  rs ← try (upd (rafts c) i (Some rf));
  let c := with_rafts rs (instances c ++ [Make r (n c) i (ReadRaftState ps)]) c in
  let '(srv, nt) := new_server (net c) in
  let nt := with_store (alter (AddService (raft_service rf)) srv (store nt)) nt in
  Ret (with_net (AddServer (ServerName i) srv nt) c).

(** The fields of a new [config]. *)
Definition new_config (servers : Z) (unreliable : bool) : config :=
  let k := Z.to_nat servers in
  mkConfig 0 (LongDelays true (Reliable (negb unreliable) MakeNetwork)) servers
    (replicate k None) (replicate k None) (replicate k false) (replicate k None) (replicate k None)
    (replicate k ∅) (replicate k 0) 0 0 0 0 0 [] [].

(** [names i] are the ends of server [i]. *)
Definition make_config (servers : Z) (unreliable : bool) (r : Z → Z) (names : Z → list string) : Res config :=
  let c := new_config servers unreliable in
  c ← for_each (seqZ 0 servers) (λ i c, start1 (r i) (names i) i c) c;
  for_each (seqZ 0 servers) connect c.

(** ** Watching the apply channels *)

(** Some server has another value at the index of the message: the last one. *)
Definition mismatch (i : Z) (m : ApplyMsg Cmd) (j : Z) (log : gmap Z (option Cmd)) : option TestError :=
  match log !! CommandIndex m with
  | Some old => if decide (old = am_Command m) then None else Some (CommitMismatch (CommandIndex m) i j)
  | None => None
  end.

Definition scan_logs (i : Z) (m : ApplyMsg Cmd) (ls : list (gmap Z (option Cmd))) : option TestError :=
  fold_left (λ err jl, match mismatch i m jl.1 jl.2 with Some e => Some e | None => err end)
    (zip (seqZ 0 (len ls)) ls) None.

(** The error, if any, and whether the previous index is in the log. *)
Definition checkLogs (i : Z) (m : ApplyMsg Cmd) (c : config) : Res (config * option TestError * bool) :=
  let err := scan_logs i m (logs c) in
  log ← try ((logs c)@[i]);
  let prevok := bool_decide (is_Some (log !! (CommandIndex m - 1))) in
  ls ← try (upd (logs c) i (<[CommandIndex m := am_Command m]> log));
  Ret (with_logs ls (Z.max (maxIndex c) (CommandIndex m)) c, err, prevok).

(** One message read by [applier]. *)
Definition applier (i : Z) (m : ApplyMsg Cmd) (c : config) : Res config :=
  if negb (CommandValid m) then Ret c
  else
    '(c, err, prevok) ← checkLogs i m c;
    let err := if (CommandIndex m >? 1) && negb prevok then Some (OutOfOrder i (CommandIndex m)) else err in
    match err with Some e => Fatal e | None => Ret c end.

Definition SnapShotInterval : Z := 10.

(** One message read by [applierSnap], for the instance [rf] it started with; the
    snapshot it hands to [rf.Snapshot] is returned ([Snapshot] ignores it). *)
Definition applierSnap (rf : nat) (i : Z) (m : ApplyMsg Cmd) (c : config)
  : Res (config * option (Z * list Byte.byte)) :=
  inst ← try (instances c !! rf);
  if SnapshotValid m then
    if CondInstallSnapshot (SnapshotTerm m) (SnapshotIndex m) (am_Snapshot m) inst then
      '(c, err) ← ingestSnap i (Some (am_Snapshot m)) (SnapshotIndex m) c;
      match err with Some e => Fatal e | None => Ret (c, None) end
    else Ret (c, None)
  else if CommandValid m then
    la ← try ((cfg_lastApplied c)@[i]);
    '(c, err) ←
      (if negb (CommandIndex m =? la + 1) then Ret (c, Some (OutOfOrder i (CommandIndex m)))
       else
         '(c, err, prevok) ← checkLogs i m c;
         Ret (c, if (CommandIndex m >? 1) && negb prevok then Some (OutOfOrder i (CommandIndex m)) else err));
    la ← try (upd (cfg_lastApplied c) i (CommandIndex m));
    let c := with_lastApplied la c in
    '(c, snap) ←
      (if Z.rem (CommandIndex m + 1) SnapShotInterval =? 0 then
         log ← try ((logs c)@[i]);
         let xlog := (λ j, default None (log !! j)) <$> seqZ 0 (CommandIndex m + 1) in
         let snap := encode_snap (CommandIndex m) xlog in
         Ret (with_rafts (rafts c) (alter (Snapshot (CommandIndex m) snap) rf (instances c)) c,
              Some (CommandIndex m, snap))
       else Ret (c, None));
    match err with Some e => Fatal e | None => Ret (c, snap) end
  else Ret (c, None).

(** ** Checks on the running servers *)

(** [cfg.rafts[i].GetState()]; a nil instance panics. *)
Definition state_of (i : Z) (c : config) : Res (Z * bool) :=
  rf ← try ((rafts c)@[i]);
  inst ← try (rf ≫= λ p, instances c !! p);
  Ret (GetState inst).

(** The connected servers that claim to lead, by term. *)
Definition find_leaders (c : config) : Res (gmap Z (list Z)) :=
  for_each (seqZ 0 (n c)) (λ i leaders,
    on ← try ((connected c)@[i]);
    if on : bool then
      '(term, leader) ← state_of i c;
      if leader : bool then Ret (<[term := default [] (leaders !! term) ++ [i]]> leaders) else Ret leaders
    else Ret leaders) ∅.

(** One look at the servers: [Ret None] means no leader yet. *)
Definition look_for_leader (c : config) : Res (option Z) :=
  leaders ← find_leaders c;
  lastTerm ← fold_left (λ (acc : Res Z) tl, last ← acc;
      if len tl.2 >? 1 then Fatal (ManyLeaders tl.1 (len tl.2)) else Ret (Z.max last tl.1))
    (map_to_list leaders) (Ret (-1));
  if decide (leaders = ∅) then Ret None
  else l ← try (default [] (leaders !! lastTerm))@[0]; Ret (Some l).

(** [views] are the configurations seen in the ten rounds. *)
Fixpoint leader_rounds (views : list config) : Res Z :=
  match views with
  | [] => Fatal NoLeader
  | c :: views => l ← look_for_leader c; match l with Some l => Ret l | None => leader_rounds views end
  end.
Definition checkOneLeader (views : nat → config) : Res Z := leader_rounds (views <$> seq 0 10).

Definition checkTerms (c : config) : Res Z :=
  for_each (seqZ 0 (n c)) (λ i term,
    on ← try ((connected c)@[i]);
    if on : bool then
      '(xterm, _) ← state_of i c;
      if term =? -1 then Ret xterm else if negb (term =? xterm) then Fatal TermsDisagree else Ret term
    else Ret term) (-1).

Definition checkNoLeader (c : config) : Res unit :=
  for_each (seqZ 0 (n c)) (λ i u,
    on ← try ((connected c)@[i]);
    if on : bool then
      '(_, is_leader) ← state_of i c;
      if is_leader : bool then Fatal (UnexpectedLeader i) else Ret u
    else Ret u) tt.

(** How many servers committed the index, and the command. *)
Definition nCommitted (index : Z) (c : config) : Res (Z * option Cmd) :=
  for_each (seqZ 0 (len (rafts c))) (λ i '(count, cmd),
    err ← try ((applyErr c)@[i]);
    match err with
    | Some e => Fatal (ApplyError i)
    | None =>
        log ← try ((logs c)@[i]);
        match log !! index with
        | Some cmd1 =>
            if (count >? 0) && negb (bool_decide (cmd = cmd1)) then Fatal (ValuesDiffer index)
            else Ret (count + 1, cmd1)
        | None => Ret (count, cmd)
        end
    end) (0, None).

(** Some server's term is past [startTerm]; a nil instance panics. *)
Definition moved_on (startTerm : Z) (c : config) : Res bool :=
  for_each (seqZ 0 (len (rafts c))) (λ i moved,
    if moved : bool then Ret true
    else '(t, _) ← state_of i c; Ret (t >? startTerm)) false.

(** The loop of [wait]: [Ret false] is the early return of -1.  [views] are the
    configurations seen: before and after each sleep. *)
Fixpoint wait_rounds (iters : nat) (views : nat → config) (k : nat) (index want startTerm : Z) : Res (bool * nat) :=
  match iters with
  | O => Ret (true, k)
  | S iters =>
      '(nd, _) ← nCommitted index (views k);
      if nd >=? want then Ret (true, S k)
      else
        moved ← (if startTerm >? -1 then moved_on startTerm (views (S k)) else Ret false);
        if moved : bool then Ret (false, k)
        else wait_rounds iters views (S (S k)) index want startTerm
  end.

(** [None] is the result -1. *)
Definition wait (views : nat → config) (index want startTerm : Z) : Res (option (option Cmd)) :=
  '(go_on, k) ← wait_rounds 30 views 0 index want startTerm;
  if go_on : bool then
    '(nd, cmd) ← nCommitted index (views k);
    if nd <? want then Fatal (OnlyDecided nd index want) else Ret (Some cmd)
  else Ret None.

(** ** Statistics *)

Definition rpcCount (server : Z) (c : config) : Res Z := try (GetCount (ServerName server) (net c)).
Definition rpcTotal (c : config) : Z := GetTotalCount (net c).
Definition bytesTotal (c : config) : Z := GetTotalBytes (net c).
Definition setunreliable (unrel : bool) (c : config) : config := with_net (Reliable (negb unrel) (net c)) c.
Definition setlongreordering (longrel : bool) (c : config) : config := with_net (LongReordering longrel (net c)) c.
Definition checkFinished (c : config) : bool := negb (finished c =? 0).

Definition LogSize (c : config) : Res Z :=
  for_each (seqZ 0 (n c)) (λ i logsize,
    sv ← try ((saved c)@[i]);
    ps ← try (sv ≫= λ p, persisters c !! p);
    Ret (if RaftStateSize ps >? logsize then RaftStateSize ps else logsize)) 0.

(** Resets the counters a test reports. *)
Definition begin (c : config) : config :=
  mkConfig (finished c) (net c) (n c) (rafts c) (applyErr c) (connected c) (saved c) (endnames c) (logs c)
    (cfg_lastApplied c) (rpcTotal c) 0 (bytesTotal c) (maxIndex c) (maxIndex c) (instances c) (persisters c).

(** The numbers [end] prints, next to the time: servers, requests, bytes and
    commands of the test. *)
Definition end_test (failed : bool) (elapsed : Z) (c : config) : Res (option (Z * Z * Z * Z)) :=
  _ ← checkTimeout failed elapsed;
  Ret (if negb failed then Some (n c, rpcTotal c - rpcs0 c, bytesTotal c - bytes0 c, maxIndex c - maxIndex0 c) else None).
End Tester.
Arguments config : clear implicits. Arguments config Cmd W.
(** ** Facts about loops and results *)

Lemma for_each_ind {S} (P : list Z → S → Prop) body js (s s' : S) :
  P [] s → (∀ done j s s', P done s → body j s = Ret s' → P (done ++ [j]) s') →
  for_each js body s = Ret s' → P js s'.
Proof.
  intros H0 Hstep. assert (Hgo : ∀ todo done s, P done s → for_each todo body s = Ret s' → P (done ++ todo) s').
  { induction todo as [|j todo IH]; intros done s1 Hs E; simpl in E; [by simplify_eq; rewrite app_nil_r|].
    unfold mbind, Res_bind in E. destruct (body j s1) as [s2| |] eqn:Ej; [|done..].
    replace (done ++ j :: todo) with ((done ++ [j]) ++ todo) by (by rewrite <-app_assoc). eauto. }
  intros E. exact (Hgo js [] s H0 E).
Qed.

Lemma bind_Ret {A B} (m : Res A) (f : A → Res B) b : m ≫= f = Ret b → ∃ a, m = Ret a ∧ f a = Ret b.
Proof. unfold mbind, Res_bind. destruct m; naive_solver. Qed.

Lemma try_Ret {A} (o : option A) a : try o = Ret a → o = Some a.
Proof. destruct o; simpl; congruence. Qed.

(** Opens the binds of a computation that returned. *)
Ltac binds :=
  repeat match goal with
  | E : _ ≫= _ = Ret _ |- _ => apply bind_Ret in E as (?&?&?)
  | E : try _ = Ret _ |- _ => apply try_Ret in E
  | E : Ret _ = Ret _ |- _ => injection E as ?
  | E : (let '_ := ?x in _) = Ret _ |- _ => destruct x eqn:?
  end; subst.

(** A loop whose rounds all return, returns. *)
Lemma for_each_total {S} (P : list Z → S → Prop) body js (s : S) :
  P [] s → (∀ done j rest s, js = done ++ j :: rest → P done s → ∃ s', body j s = Ret s' ∧ P (done ++ [j]) s') →
  ∃ s', for_each js body s = Ret s' ∧ P js s'.
Proof.
  intros H0 Hstep. assert (Hgo : ∀ todo done s, js = done ++ todo → P done s → ∃ s', for_each todo body s = Ret s' ∧ P js s').
  { induction todo as [|j todo IH]; intros done s1 E Hs; simpl; [exists s1; by rewrite app_nil_r in E; subst|].
    destruct (Hstep done j todo s1 E Hs) as (s2&->&Hs2). apply (IH (done ++ [j])); [by rewrite <-app_assoc|done]. }
  by apply (Hgo js []).
Qed.
End RaftTester.
