(* ===== verification/HarnessNet.v ===== *)
(** * What the test harnesses do to their network

    Each harness holds a network and a table of the names of its servers' outgoing
    ends.  [NetHolder] is what the lemmas need of a harness state; they describe the
    loops that make fresh ends and the switches that open and close ends. *)

From S2P Require Import Prelude LabRpc RaftTester.

Module HarnessNet.
Import LabRpc RaftTester.

(** A state that holds a network whose ends are named by strings. *)
Class NetHolder (Name W S : Type) `{Countable Name} := {
  get_net : S → Network Name W;
  set_net : Network Name W → S → S;
  end_name : string → Name;
  end_name_inj : Inj (=) (=) end_name;
  get_set n s : get_net (set_net n s) = n;
  set_get s : set_net (get_net s) s = s;
  set_set n n' s : set_net n (set_net n' s) = set_net n s
}.
#[export] Existing Instance end_name_inj.

Section Ends.
Context {Name W S : Type} `{NetHolder Name W S}.
Implicit Types s : S.

(** The network lets requests of the end through. *)
Definition opened s (e : string) : Prop := enabled (get_net s) !! end_name e = Some true.

Definition switch (e : string) (yes : bool) s : S := set_net (Enable (end_name e) yes (get_net s)) s.

Lemma opened_switch s e e' yes : opened (switch e yes s) e' ↔ (e' = e ∧ yes = true) ∨ (e' ≠ e ∧ opened s e').
Proof.
  unfold opened, switch. rewrite get_set. simpl. destruct (decide (e' = e)) as [->|Hne].
  - rewrite lookup_insert_eq. naive_solver.
  - rewrite lookup_insert_ne by (intros E; by apply (inj end_name) in E). naive_solver.
Qed.

Lemma ends_switch s e yes : ends (get_net (switch e yes s)) = ends (get_net s).
Proof. unfold switch. by rewrite get_set. Qed.

(** [MakeEnd] and [Connect]. *)
Definition add_end (e : string) (srv : Name) s : Res S :=
  match MakeEnd (end_name e) (get_net s) with
  | None => Fatal DuplicateEnd
  | Some nt => Ret (set_net (Connect (end_name e) srv nt) s)
  end.

Lemma add_end_Ret e srv s s' : add_end e srv s = Ret s' →
  s' = set_net (get_net s') s ∧ end_name e ∉ ends (get_net s) ∧
  ends (get_net s') = {[end_name e]} ∪ ends (get_net s) ∧ ∀ e', opened s' e' ↔ e' ≠ e ∧ opened s e'.
Proof.
  unfold add_end, MakeEnd. destruct (decide _) as [|Hnew]; [done|]. intros [= <-]. rewrite get_set.
  split; [done|]. split; [done|]. split; [done|]. intros e'. unfold opened. rewrite get_set. simpl.
  destruct (decide (e' = e)) as [->|Hne]; [rewrite lookup_insert_eq; naive_solver|].
  rewrite lookup_insert_ne by (intros E; by apply (inj end_name) in E). naive_solver.
Qed.

(** The fresh ends: new to the network, pairwise different, closed. *)
Record fresh_ends (names : list string) (js : list Z) s s' : Prop := {
  fe_frame : s' = set_net (get_net s') s;
  fe_mono : ends (get_net s) ⊆ ends (get_net s');
  fe_some j : j ∈ js → is_Some (names@[j]);
  fe_ends e : end_name e ∈ ends (get_net s') ↔ end_name e ∈ ends (get_net s) ∨ ∃ j, j ∈ js ∧ names@[j] = Some e;
  fe_new j e : j ∈ js → names@[j] = Some e → end_name e ∉ ends (get_net s);
  fe_inj j j' e : j ∈ js → j' ∈ js → names@[j] = Some e → names@[j'] = Some e → j = j';
  fe_opened e : opened s' e ↔ opened s e ∧ ¬ ∃ j, j ∈ js ∧ names@[j] = Some e
}.

Lemma add_end_loop (dest : Z → Name) names js s s' :
  for_each js (λ j s, e ← try (names@[j]); add_end e (dest j) s) s = Ret s' → fresh_ends names js s s'.
Proof.
  apply (for_each_ind (λ js s', fresh_ends names js s s')).
  - assert (Hnil : ∀ (P : Z → Prop), ¬ ∃ j, j ∈ @nil Z ∧ P j) by (intros P (j&Hj&_); by apply not_elem_of_nil in Hj).
    split; [by rewrite set_get|done|..]; try (intros j; intros; exfalso; by eapply not_elem_of_nil).
    + intros e. split; [by left|]. intros [?|Hx]; [done|by apply Hnil in Hx].
    + intros e. split; [|by intros []]. intros He. split; [done|apply Hnil].
  - intros done_ j c1 c2 [] E. apply bind_Ret in E as (e0&He0&E). apply try_Ret in He0.
    apply add_end_Ret in E as (Hframe&Hnew&Hends&Hon).
    assert (Hsnoc : ∀ e, (∃ j0, j0 ∈ done_ ++ [j] ∧ names@[j0] = Some e) ↔ (∃ j0, j0 ∈ done_ ∧ names@[j0] = Some e) ∨ e = e0).
    { intros e. setoid_rewrite elem_of_app. setoid_rewrite list_elem_of_singleton. naive_solver. }
    rewrite fe_ends0 in Hnew. split.
    + by rewrite Hframe, fe_frame0, !set_set, get_set.
    + rewrite Hends. set_solver.
    + intros j0 [?|Hj%list_elem_of_singleton]%elem_of_app; [eauto|by subst].
    + intros e. rewrite Hsnoc, Hends, elem_of_union, elem_of_singleton, fe_ends0. split; [|naive_solver].
      intros [->%(inj end_name)|?]; naive_solver.
    + intros j0 e [?|Hj%list_elem_of_singleton]%elem_of_app Hj0; [eauto|]. subst. naive_solver.
    + intros j1 j2 e [?|Hj1%list_elem_of_singleton]%elem_of_app [?|Hj2%list_elem_of_singleton]%elem_of_app E1 E2;
        subst; [eauto|exfalso..|done]; naive_solver.
    + intros e. rewrite Hsnoc, Hon, fe_opened0. naive_solver.
Qed.
End Ends.

(** ** Tables of ends *)

(** The name in row [i] and column [j]; a row may be nil. *)
Definition cell (es : list (option (list string))) (i j : Z) : option string :=
  names ← es@[i]; names ← names; names@[j].

Lemma cell_Some es i j e : cell es i j = Some e → ∃ names, es@[i] = Some (Some names) ∧ names@[j] = Some e.
Proof. unfold cell. intros ([names|]&E&F)%bind_Some; [|done]. eauto. Qed.

(** [k] rows of [k] names, all different and all ends of the network. *)
Record grid_ok {Name W : Type} `{Countable Name} (mk : string → Name) (nt : Network Name W) (k : Z) (es : list (option (list string))) : Prop := {
  gr_rows : len es = k;
  gr_names i names : es@[i] = Some (Some names) → len names = k;
  gr_inj i j i' j' e : cell es i j = Some e → cell es i' j' = Some e → i = i' ∧ j = j';
  gr_ends i j e : cell es i j = Some e → mk e ∈ ends nt
}.

Lemma cell_range {Name W} `{Countable Name} mk (nt : Network Name W) k es i j e : grid_ok mk nt k es → cell es i j = Some e → 0 <= i < k ∧ 0 <= j < k.
Proof.
  intros Hg (names&Hi&Hj)%cell_Some. pose proof (gr_names _ _ _ _ Hg _ _ Hi). pose proof (gr_rows _ _ _ _ Hg).
  apply idx_Some_range in Hi, Hj. lia.
Qed.

Lemma grid_ok_mono {Name W} `{Countable Name} mk (nt nt' : Network Name W) k es : ends nt ⊆ ends nt' → grid_ok mk nt k es → grid_ok mk nt' k es.
Proof. intros Hsub []. split; eauto. Qed.

Section Grid.
Context {Name W S : Type} `{NetHolder Name W S}.
Implicit Types s : S.
Notation mk := (@end_name Name W S _ _ _).

Lemma cell_upd es i names es' a b : upd es i (Some names) = Some es' → cell es' a b = if a =? i then names@[b] else cell es a b.
Proof. intros Hu. unfold cell. rewrite (idx_upd _ _ _ _ _ Hu). by destruct (a =? i). Qed.

(** A row replaced by fresh ends. *)
Lemma grid_ok_new s s' k es es' i names : grid_ok mk (get_net s) k es → len names <= k →
  upd es i (Some names) = Some es' → fresh_ends names (seqZ 0 k) s s' → grid_ok mk (get_net s') k es'.
Proof.
  intros Hg Hlen Hu Hf. assert (Hln : len names = k).
  { apply upd_Some in Hu as [_ Hr]. pose proof (gr_rows _ _ _ _ Hg).
    destruct (fe_some _ _ _ _ Hf (k - 1)) as [x Hx%idx_Some_range]; [rewrite elem_of_seqZ; lia|lia]. }
  assert (Hmem : ∀ b e, names@[b] = Some e → b ∈ seqZ 0 k).
  { intros b e Hb%idx_Some_range. rewrite elem_of_seqZ. lia. }
  split.
  - rewrite (len_upd _ _ _ _ Hu). apply (gr_rows _ _ _ _ Hg).
  - intros a nm. rewrite (idx_upd _ _ _ _ _ Hu). destruct (a =? i); [by intros [= <-]|apply (gr_names _ _ _ _ Hg)].
  - intros a b a' b' e. rewrite !(cell_upd _ _ _ _ _ _ Hu). destruct (a =? i) eqn:Ea, (a' =? i) eqn:Ea'; bools; intros E1 E2; subst.
    + split; [done|]. eapply (fe_inj _ _ _ _ Hf); eauto.
    + exfalso. eapply (fe_new _ _ _ _ Hf); [|exact E1|]; eauto using gr_ends.
    + exfalso. eapply (fe_new _ _ _ _ Hf); [|exact E2|]; eauto using gr_ends.
    + by eapply (gr_inj _ _ _ _ Hg).
  - intros a b e. rewrite (cell_upd _ _ _ _ _ _ Hu), (fe_ends _ _ _ _ Hf). destruct (a =? i); [eauto|]. left. by eapply (gr_ends _ _ _ _ Hg).
Qed.

End Grid.
End HarnessNet.
