(* ===== verification/RaftTesterTheorems.v ===== *)
(** * Theorems about the Raft test harness

    The connections the harness keeps in the network, and what its apply
    checks accept. *)

From S2P Require Import Prelude RaftServer LabRpc RaftTester HarnessNet.

Module RaftTesterTheorems.
Import RaftServer LabRpc RaftTester HarnessNet.

Section Connectivity.
Context {Cmd : Type} `{EqDecision Cmd} {W : Type}.
Context (raft_service : nat → Service W) (decode_snap : list Byte.byte → option (Z * list (option Cmd))).
Notation config := (config Cmd W).
Implicit Types c : config.

(** The current end from server [i] to server [j]. *)
Definition slot c (i j : Z) : option string := names ← (endnames c)@[i]; names ← names; names@[j].
Definition up c (i : Z) : Prop := (connected c)@[i] = Some true.
(** The network lets requests of the end through. *)
Definition on c (e : string) : Prop := enabled (net c) !! EndName e = Some true.

(** Only the tables of the network that [Enable] and [MakeEnd] change. *)
Record same_tables c c' : Prop := {
  same_n : n c' = n c;
  same_endnames : endnames c' = endnames c;
  same_connected : connected c' = connected c;
  same_ends : ends (net c') = ends (net c)
}.

Lemma end_of_slot c i j e : end_of c i j = Ret e ↔ slot c i j = Some e.
Proof.
  unfold end_of, slot. destruct ((endnames c)@[i]) as [[names|]|]; simpl; [|by unfold idx; destruct (0 <=? j)|done].
  destruct (names@[j]); simpl; split; congruence.
Qed.

(** A loop that enables or disables, in each round, the end [sel] picks. *)
Lemma switch_loop (yes : bool) (sel : Z → option string) body js c c' :
  (∀ j c1 c2, same_tables c c1 → body j c1 = Ret c2 →
     c2 = match sel j with Some e => enable e yes c1 | None => c1 end) →
  for_each js body c = Ret c' →
  same_tables c c' ∧
  ∀ e, on c' e ↔ if yes then on c e ∨ ∃ j, j ∈ js ∧ sel j = Some e
                 else on c e ∧ ¬ ∃ j, j ∈ js ∧ sel j = Some e.
Proof.
  intros Hbody. apply (for_each_ind (λ done c', same_tables c c' ∧
    ∀ e, on c' e ↔ if yes then on c e ∨ ∃ j, j ∈ done ∧ sel j = Some e
                   else on c e ∧ ¬ ∃ j, j ∈ done ∧ sel j = Some e)).
  - split; [done|]. intros e. destruct yes; [|].
    + split; [by left|]. intros [?|(j&Hj&_)]; [done|by apply not_elem_of_nil in Hj].
    + split; [|by intros [? _]]. intros Ho. split; [done|]. intros (j&Hj&_). by apply not_elem_of_nil in Hj.
  - intros done_ j c1 c2 [Hs Hon] E. rewrite (Hbody j c1 c2 Hs E). split.
    { destruct (sel j); [|done]. destruct Hs. by split. }
    intros e. specialize (Hon e).
    assert (Hsnoc : (∃ j0, j0 ∈ done_ ++ [j] ∧ sel j0 = Some e) ↔ (∃ j0, j0 ∈ done_ ∧ sel j0 = Some e) ∨ sel j = Some e).
    { setoid_rewrite elem_of_app. setoid_rewrite list_elem_of_singleton. naive_solver. }
    assert (Hnew : on (match sel j with Some e => enable e yes c1 | None => c1 end) e ↔
                   (sel j = Some e ∧ yes = true) ∨ (sel j ≠ Some e ∧ on c1 e)).
    { unfold on. destruct (sel j) as [e0|]; [|naive_solver]. unfold enable, Enable, with_tables. simpl.
      destruct (decide (e0 = e)) as [->|Hne]; [rewrite lookup_insert_eq; naive_solver|].
      rewrite lookup_insert_ne by congruence. naive_solver. }
    rewrite Hnew. destruct yes; rewrite Hon, Hsnoc; destruct (decide (sel j = Some e)); naive_solver.
Qed.

Record conn_ok c : Prop := {
  ok_connected : len (connected c) = n c;
  ok_endnames : len (endnames c) = n c;
  ok_names i names : (endnames c)@[i] = Some (Some names) → len names = n c;
  ok_inj i j i' j' e : slot c i j = Some e → slot c i' j' = Some e → i = i' ∧ j = j';
  ok_ends i j e : slot c i j = Some e → EndName e ∈ ends (net c);
  ok_on e : on c e ↔ ∃ i j, slot c i j = Some e ∧ up c i ∧ up c j
}.

Lemma slot_Some c i j e : slot c i j = Some e → ∃ names, (endnames c)@[i] = Some (Some names) ∧ names@[j] = Some e.
Proof. unfold slot. intros ([names|]&E&F)%bind_Some; [|done]. eauto. Qed.

Lemma slot_range c i j e : conn_ok c → slot c i j = Some e → i ∈ seqZ 0 (n c) ∧ j ∈ seqZ 0 (n c).
Proof.
  intros Hok (names&Hi&Hj)%slot_Some. rewrite !elem_of_seqZ.
  pose proof (ok_names _ Hok _ _ Hi). pose proof (ok_endnames _ Hok).
  apply idx_Some_range in Hi, Hj. lia.
Qed.

Lemma up_range c i : conn_ok c → up c i → i ∈ seqZ 0 (n c).
Proof. intros Hok Hi%idx_Some_range. rewrite elem_of_seqZ. pose proof (ok_connected _ Hok). lia. Qed.

(** What the servers' own data and the counters do not influence. *)
Record same_conn c c' : Prop := {
  sc_tables :> same_tables c c';
  sc_enabled : enabled (net c') = enabled (net c)
}.

Lemma conn_ok_ext c c' : same_conn c c' → conn_ok c → conn_ok c'.
Proof.
  intros [[Hn He Hc Hends] Hen] []. split; unfold slot, up, on in *; rewrite ?Hn, ?He, ?Hc, ?Hends, ?Hen; eauto.
Qed.

#[local] Instance same_conn_trans : Transitive same_conn.
Proof. intros c1 c2 c3 [[] ?] [[] ?]. split; [split|]; congruence. Qed.

#[local] Instance up_dec c i : Decision (up c i).
Proof. unfold up. apply _. Defined.

Lemma conn_ok_switch c c' : conn_ok c → n c' = n c → endnames c' = endnames c → ends (net c') = ends (net c) →
  len (connected c') = len (connected c) →
  (∀ e, on c' e ↔ ∃ i j, slot c i j = Some e ∧ up c' i ∧ up c' j) → conn_ok c'.
Proof.
  intros [] Hn He Hends Hl Hon. split; unfold slot in *; rewrite ?Hn, ?He, ?Hends; eauto. congruence.
Qed.

(** ** [connect] and [disconnect] *)

Lemma up_set c i b conn : upd (connected c) i b = Some conn → ∀ j, up (with_connected conn c) j ↔ if decide (j = i) then b = true else up c j.
Proof.
  intros E j. unfold up. simpl. rewrite (idx_upd _ _ _ _ _ E). destruct (decide (j = i)) as [->|Hne].
  - rewrite Z.eqb_refl. split; congruence.
  - by rewrite (proj2 (Z.eqb_neq _ _) Hne).
Qed.

Lemma connect_spec i c c' : connect i c = Ret c' → conn_ok c → conn_ok c' ∧ (∀ j, up c' j ↔ j = i ∨ up c j).
Proof.
  unfold connect. intros E Hok. binds. rename x into conn, x0 into c1.
  set (c0 := with_connected conn c) in *.
  assert (Hup : ∀ j, up c0 j ↔ j = i ∨ up c j).
  { intros j. unfold c0. rewrite (up_set _ _ _ _ H). destruct (decide (j = i)); naive_solver. }
  apply (switch_loop true (λ j, if decide (up c0 j) then slot c0 i j else None)) in H0 as [Hs1 Hon1].
  2: { intros j c1' c2 [Hn He Hc _] E. binds; rewrite Hc in H2.
       - apply end_of_slot in H3. rewrite decide_True by done. unfold slot in *. rewrite He in H3. by rewrite H3.
       - by rewrite decide_False by (unfold up; congruence). }
  apply (switch_loop true (λ j, if decide (up c0 j) then slot c0 j i else None)) in H1 as [Hs2 Hon2].
  2: { intros j c1' c2 [Hn He Hc _] E. destruct Hs1 as [Hn1 He1 Hc1 _]. binds; rewrite Hc, Hc1 in H0.
       - apply end_of_slot in H2. rewrite decide_True by done. unfold slot in *. rewrite He, He1 in H2. by rewrite H2.
       - by rewrite decide_False by (unfold up; congruence). }
  destruct Hs1 as [Hn1 He1 Hc1 Hen1], Hs2 as [Hn2 He2 Hc2 Hen2].
  assert (Hup' : ∀ j, up c' j ↔ up c0 j) by (intros j; unfold up; by rewrite Hc2, Hc1).
  assert (Hrange : ∀ j, up c0 j → j ∈ seqZ 0 (n c0)).
  { intros j Hj%idx_Some_range. rewrite elem_of_seqZ. apply len_upd in H. simpl in *. pose proof (ok_connected _ Hok). lia. }
  split; [|intros j; by rewrite Hup', Hup].
  apply (conn_ok_switch c); [done|by rewrite Hn2, Hn1|by rewrite He2, He1|by rewrite Hen2, Hen1|rewrite Hc2, Hc1; apply (len_upd _ _ _ _ H)|].
  intros e. rewrite Hon2, Hon1, Hn1. setoid_rewrite Hup'. change (on c0 e) with (on c e). split.
  - intros [[Ho|(j&_&Hj)]|(j&_&Hj)].
    + apply (ok_on _ Hok) in Ho as (a&b&?&?&?). exists a, b. rewrite !Hup. naive_solver.
    + destruct (decide (up c0 j)); [|done]. exists i, j. rewrite (Hup i). naive_solver.
    + destruct (decide (up c0 j)); [|done]. exists j, i. rewrite (Hup i). naive_solver.
  - intros (a&b&Hab&Ha&Hb). destruct (decide (a = i)) as [->|Hai].
    { left. right. exists b. split; [by apply Hrange|]. by rewrite decide_True. }
    destruct (decide (b = i)) as [->|Hbi].
    { right. exists a. split; [by apply Hrange|]. by rewrite decide_True. }
    left. left. apply (ok_on _ Hok). exists a, b. rewrite Hup in Ha, Hb. naive_solver.
Qed.

Lemma disconnect_spec i c c' : disconnect i c = Ret c' → conn_ok c → conn_ok c' ∧ (∀ j, up c' j ↔ j ≠ i ∧ up c j) ∧
  same_tables (with_connected (connected c') c) c'.
Proof.
  unfold disconnect. intros E Hok. binds. rename x into conn, x0 into c1.
  set (c0 := with_connected conn c) in *.
  assert (Hup : ∀ j, up c0 j ↔ j ≠ i ∧ up c j).
  { intros j. unfold c0. rewrite (up_set _ _ _ _ H). destruct (decide (j = i)); naive_solver. }
  apply (switch_loop false (λ j, slot c0 i j)) in H0 as [Hs1 Hon1].
  2: { intros j c1' c2 [Hn He Hc _] E. binds.
       - apply end_of_slot in H3. unfold slot in *. rewrite He in H3. by rewrite H3.
       - unfold slot. rewrite <-He, H2. done. }
  apply (switch_loop false (λ j, slot c0 j i)) in H1 as [Hs2 Hon2].
  2: { intros j c1' c2 [Hn He Hc _] E. destruct Hs1 as [Hn1 He1 Hc1 _]. binds.
       - apply end_of_slot in H2. unfold slot in *. rewrite He, He1 in H2. by rewrite H2.
       - unfold slot. rewrite <-He1, <-He, H0. done. }
  destruct Hs1 as [Hn1 He1 Hc1 Hen1], Hs2 as [Hn2 He2 Hc2 Hen2].
  assert (Hup' : ∀ j, up c' j ↔ up c0 j) by (intros j; unfold up; by rewrite Hc2, Hc1).
  split; [|split; [intros j; by rewrite Hup', Hup|split; simpl; by rewrite ?Hn2, ?Hn1, ?He2, ?He1, ?Hen2, ?Hen1]].
  apply (conn_ok_switch c); [done|by rewrite Hn2, Hn1|by rewrite He2, He1|by rewrite Hen2, Hen1|rewrite Hc2, Hc1; apply (len_upd _ _ _ _ H)|].
  intros e. rewrite Hon2, Hon1, Hn1. setoid_rewrite Hup'. setoid_rewrite Hup.
  change (on c0 e) with (on c e). change (slot c0) with (slot c). change (n c0) with (n c). rewrite (ok_on _ Hok e). split.
  - intros [[(a&b&Hab&Ha&Hb) Hout] Hin]. exists a, b. destruct (slot_range _ _ _ _ Hok Hab).
    split_and!; try done; intros ->; [apply Hout|apply Hin]; eauto.
  - intros (a&b&Hab&[Hai Ha]&[Hbi Hb]). split; [split; [by exists a, b|]|];
      intros (j&_&Hj); destruct (ok_inj _ Hok _ _ _ _ _ Hab Hj); congruence.
Qed.

(** ** [crash1] and [start1] *)

Lemma replace_saved_same i f c c' : replace_saved i f c = Ret c' → same_conn c c'.
Proof. unfold replace_saved. intros E. binds; unfold alloc_persister in *; simplify_eq; by repeat split.
Qed.

(** Steps that leave the connections alone. *)
Ltac solve_same :=
  repeat match goal with
  | Hr : replace_saved _ _ _ = Ret _ |- _ => apply replace_saved_same in Hr
  | Hr : alloc_persister _ _ = _ |- _ => unfold alloc_persister in Hr; simplify_eq/=
  | Hr : new_server _ = _ |- _ => unfold new_server in Hr; simplify_eq/=
  | Hr : same_conn _ _ |- _ => destruct Hr as [[] ?]
  end; simpl in *; repeat split; simpl in *; congruence.

Lemma crash1_spec i c c' : crash1 i c = Ret c' → conn_ok c →
  conn_ok c' ∧ (∀ j, up c' j ↔ j ≠ i ∧ up c j) ∧ (∀ a b, slot c' a b = slot c a b).
Proof.
  unfold crash1. intros E Hok. apply bind_Ret in E as (x&H&E).
  destruct (disconnect_spec _ _ _ H Hok) as (Hok1&Hup&Ht).
  assert (Hsame : same_conn x c').
  { binds; solve_same. }
  split; [by eapply conn_ok_ext|]. destruct Hsame as [[Hn He Hc _] _]. split.
  - intros j. unfold up. rewrite Hc. apply Hup.
  - intros a b. unfold slot. rewrite He. by rewrite (same_endnames _ _ Ht).
Qed.

#[local] Instance tester_net : NetHolder NetName W config.
Proof. refine {| get_net := net; set_net := with_net; end_name := EndName |}; [by intros ?? [=]|done|by intros []|done]. Defined.

Lemma ingestSnap_same i snap index c c' err : ingestSnap decode_snap i snap index c = Ret (c', err) → same_conn c c'.
Proof.
  unfold ingestSnap. intros E. destruct snap as [sn|]; [|done]. destruct (decode_snap sn) as [[last xlog]|]; [|done].
  destruct (negb _ && _); binds; simplify_eq; by repeat split.
Qed.

(** The ends of server [i] are replaced by fresh ones while it is detached. *)
Lemma new_ends_ok i names es c c' :
  conn_ok c → ¬ up c i → len names <= n c → upd (endnames c) i (Some names) = Some es →
  fresh_ends names (seqZ 0 (n c)) (with_endnames es c) c' → conn_ok c'.
Proof.
  intros Hok Hi Hlen Hes [Hfr _ Hsome Hends Hnew Hinj Hon]. simpl in *.
  assert (Hn : n c' = n c) by (by rewrite Hfr). assert (He : endnames c' = es) by (by rewrite Hfr).
  assert (Hc : connected c' = connected c) by (by rewrite Hfr).
  assert (Hr : 0 <= i < n c) by (apply upd_Some in Hes as [_ ?]; pose proof (ok_endnames _ Hok); lia).
  assert (Hln : len names = n c).
  { destruct (Hsome (n c - 1)) as [x Hx%idx_Some_range]; [rewrite elem_of_seqZ; lia|lia]. }
  assert (Hslot : ∀ a b, slot c' a b = if a =? i then names@[b] else slot c a b).
  { intros a b. unfold slot. rewrite He, (idx_upd _ _ _ _ _ Hes). by destruct (a =? i). }
  assert (Hmem : ∀ b e, names@[b] = Some e → b ∈ seqZ 0 (n c)).
  { intros b e Hb%idx_Some_range. rewrite elem_of_seqZ. lia. }
  split.
  - rewrite Hc, Hn. apply (ok_connected _ Hok).
  - rewrite He, Hn, (len_upd _ _ _ _ Hes). apply (ok_endnames _ Hok).
  - intros a nm. rewrite He, Hn, (idx_upd _ _ _ _ _ Hes). destruct (a =? i); [by intros [= <-]|apply (ok_names _ Hok)].
  - intros a b a' b' e. rewrite !Hslot. destruct (a =? i) eqn:Ea, (a' =? i) eqn:Ea'; bools; intros E1 E2; subst.
    + split; [done|]. eauto.
    + exfalso. eapply Hnew; [|exact E1|]; eauto using ok_ends.
    + exfalso. eapply Hnew; [|exact E2|]; eauto using ok_ends.
    + by eapply (ok_inj _ Hok).
  - intros a b e. rewrite Hslot, Hends. destruct (a =? i); [eauto|]. left. by eapply (ok_ends _ Hok).
  - intros e. change (on c' e) with (opened c' e). rewrite Hon. change (opened (with_endnames es c) e) with (on c e). rewrite (ok_on _ Hok e).
    assert (Hup : ∀ j, up c' j ↔ up c j) by (intros j; unfold up; by rewrite Hc).
    setoid_rewrite Hup. setoid_rewrite Hslot. split.
    + intros [(a&b&Hab&Ha&Hb) _]. exists a, b. destruct (Z.eqb_spec a i) as [->|]; done.
    + intros (a&b&Hab&Ha&Hb). destruct (Z.eqb_spec a i) as [->|]; [done|]. split; [by exists a, b|].
      intros (j&Hj&Hne). eapply Hnew; [exact Hj|exact Hne|]. by eapply (ok_ends _ Hok).
Qed.

Lemma start1_spec r names i c c' : start1 raft_service decode_snap r names i c = Ret c' → conn_ok c →
  conn_ok c' ∧ (∀ j, up c' j ↔ j ≠ i ∧ up c j).
Proof.
  unfold start1. intros E Hok. apply bind_Ret in E as (c1&Hcr&E).
  destruct (crash1_spec _ _ _ Hcr Hok) as (Hok1&Hup&_).
  apply bind_Ret in E as (es&Hes&E). apply try_Ret in Hes. apply bind_Ret in E as (c2&Hloop&E).
  pose proof (add_end_loop (S := config) ServerName (take (Z.to_nat (n c1)) names) _ _ _ Hloop) as Hfresh. clear Hloop.
  assert (Hok2 : conn_ok c2).
  { eapply new_ends_ok; [exact Hok1|by rewrite Hup; intros []| |exact Hes|exact Hfresh].
    unfold len. rewrite length_take. pose proof (ok_endnames _ Hok1). pose proof (len_nonneg (endnames c1)). lia. }
  assert (Hsame : same_conn c2 c').
  { binds; repeat match goal with Hr : ingestSnap _ _ _ _ _ = Ret _ |- _ => apply ingestSnap_same in Hr end; solve_same. }
  split; [by eapply conn_ok_ext|]. intros j. destruct Hsame as [[_ _ Hc _] _]. unfold up. rewrite Hc, (fe_frame _ _ _ _ Hfresh). apply Hup.
Qed.

(** What a test does to the servers. *)
Inductive TestOp :=
  | StartServer (i r : Z) (names : list string) | CrashServer (i : Z)
  | ConnectServer (i : Z) | DisconnectServer (i : Z) | SetUnreliable (unrel : bool).

Definition test_op (op : TestOp) c : Res config :=
  match op with
  | StartServer i r names => start1 raft_service decode_snap r names i c
  | CrashServer i => crash1 i c
  | ConnectServer i => connect i c
  | DisconnectServer i => disconnect i c
  | SetUnreliable unrel => Ret (setunreliable unrel c)
  end.

Fixpoint test_ops (ops : list TestOp) c : Res config :=
  match ops with [] => Ret c | op :: ops => c ← test_op op c; test_ops ops c end.

Lemma new_config_ok servers unreliable : 0 <= servers → conn_ok (new_config (Cmd := Cmd) (W := W) servers unreliable).
Proof.
  intros Hs. assert (Hno : ∀ i j, slot (new_config (Cmd := Cmd) (W := W) servers unreliable) i j = None).
  { intros i j. unfold slot, idx. simpl. destruct (0 <=? i); [|done].
    destruct (replicate _ _ !! _) as [x|] eqn:E; [|done]. apply lookup_replicate in E as [-> _]. done. }
  split; simpl; try (by intros ????? E; rewrite Hno in E); try (unfold len; rewrite length_replicate; lia).
  - intros i names E%idx_elem_of. apply elem_of_replicate in E as [? _]. done.
  - intros i j e E. by rewrite Hno in E.
  - intros e. split; [|intros (i&j&E&_); by rewrite Hno in E]. unfold on. simpl. by rewrite lookup_empty.
Qed.

Lemma test_ops_ok ops c c' : conn_ok c → test_ops ops c = Ret c' → conn_ok c'.
Proof.
  revert c. induction ops as [|op ops IH]; intros c Hok E; simpl in E; [by injection E as <-|].
  apply bind_Ret in E as (c1&E1&E2). eapply IH; [|exact E2]. destruct op; simpl in E1.
  - by apply start1_spec in E1 as [? _].
  - by apply crash1_spec in E1 as [? _].
  - by apply connect_spec in E1 as [? _].
  - by apply disconnect_spec in E1 as [? _].
  - injection E1 as <-. eapply conn_ok_ext; [|exact Hok]. by repeat split.
Qed.

(** The harness partitions the network as it says: whatever servers a test
    starts, crashes, attaches and detaches, the network lets requests of an end
    through exactly when it is the current end from a server to another and both
    are attached; the ends of a crashed or replaced instance stay closed. *)
Theorem connectivity_correct servers unreliable ops c : 0 <= servers →
  test_ops ops (new_config servers unreliable) = Ret c →
  ∀ e, on c e ↔ ∃ i j, slot c i j = Some e ∧ up c i ∧ up c j.
Proof. intros Hs E. by apply ok_on, (test_ops_ok _ _ _ (new_config_ok servers unreliable Hs) E). Qed.
End Connectivity.

Section Watching.
Context {Cmd : Type} `{EqDecision Cmd} {W : Type}.
Notation config := (config Cmd W).
Implicit Types c : config.
Implicit Types m : ApplyMsg Cmd.

(** Messages in the order the appliers read them, with the server they come from. *)
Fixpoint watch (ms : list (Z * ApplyMsg Cmd)) c : Res config :=
  match ms with [] => Ret c | (i, m) :: ms => c ← applier i m c; watch ms c end.

Lemma watch_app ms1 ms2 c : watch (ms1 ++ ms2) c = (c ← watch ms1 c; watch ms2 c).
Proof.
  revert c. induction ms1 as [|[i m] ms1 IH]; intros c; [done|]. simpl. unfold mbind, Res_bind in *.
  destruct (applier i m c); [apply IH|done..].
Qed.

(** What a correct service may deliver: one command per index, and each server
    its commands in order. *)
Definition consistent (ms : list (Z * ApplyMsg Cmd)) : Prop :=
  ∀ x y, x ∈ ms → y ∈ ms → CommandIndex x.2 = CommandIndex y.2 → am_Command x.2 = am_Command y.2.
Definition ordered (ms : list (Z * ApplyMsg Cmd)) : Prop :=
  ∀ ms1 i m ms2, ms = ms1 ++ (i, m) :: ms2 → CommandIndex m > 1 →
    ∃ m', (i, m') ∈ ms1 ∧ CommandIndex m' = CommandIndex m - 1.

Lemma last_error_None {A} (f : A → option TestError) (l : list A) acc :
  fold_left (λ err x, match f x with Some e => Some e | None => err end) l acc = None ↔
  acc = None ∧ ∀ x, x ∈ l → f x = None.
Proof.
  revert acc. induction l as [|x l IH]; intros acc; simpl.
  - split; [|by intros []]. intros ->. split; [done|]. intros x Hx. by apply not_elem_of_nil in Hx.
  - rewrite IH. setoid_rewrite elem_of_cons. destruct (f x) eqn:E; naive_solver.
Qed.

Lemma scan_logs_None i m ls : scan_logs i m ls = None ↔
  ∀ j log old, ls@[j] = Some log → log !! CommandIndex m = Some old → old = am_Command m.
Proof.
  unfold scan_logs. rewrite last_error_None.
  assert (Hz : ∀ j log, (j, log) ∈ zip (seqZ 0 (len ls)) ls ↔ ls@[j] = Some log).
  { intros j log. rewrite list_elem_of_lookup. setoid_rewrite lookup_zip_with_Some. split.
    - intros (k&j'&log'&[= -> ->]&Hj&Hl). apply lookup_seqZ in Hj as [-> _]. by rewrite Z.add_0_l, idx_nat.
    - intros E. pose proof (idx_Some_range _ _ _ E). exists (Z.to_nat j), j, log. split; [done|]. split.
      + apply lookup_seqZ. lia.
      + by rewrite <-idx_nat, Z2Nat.id by lia. }
  unfold mismatch. split.
  - intros [_ Hall] j log old Hj Hold. specialize (Hall (j, log) (proj2 (Hz _ _) Hj)). simpl in Hall.
    rewrite Hold in Hall. by destruct (decide (old = am_Command m)).
  - intros Hall. split; [done|]. intros [j log] Hj%Hz. simpl.
    destruct (log !! CommandIndex m) as [old|] eqn:E; [|done]. by rewrite decide_True by eauto.
Qed.

(** The harness's copy of the logs holds the commands delivered so far. *)
Definition tracks (ms : list (Z * ApplyMsg Cmd)) c : Prop :=
  ∀ i log, (logs c)@[i] = Some log → ∀ k v, log !! k = Some v ↔ ∃ m, (i, m) ∈ ms ∧ CommandIndex m = k ∧ am_Command m = v.

Definition valid_msgs (servers : Z) (ms : list (Z * ApplyMsg Cmd)) : Prop :=
  ∀ x, x ∈ ms → CommandValid x.2 = true ∧ 0 <= x.1 < servers.

(** One message: accepted exactly when it agrees with all logs and its
    predecessor is there. *)
Lemma applier_spec i m c log : CommandValid m = true → (logs c)@[i] = Some log →
  (∃ c', applier i m c = Ret c') ↔
  (∀ j log old, (logs c)@[j] = Some log → log !! CommandIndex m = Some old → old = am_Command m) ∧
  (CommandIndex m > 1 → is_Some (log !! (CommandIndex m - 1))).
Proof.
  intros Hv Hlog. pose proof (idx_Some_range _ _ _ Hlog) as Hr.
  unfold applier, checkLogs. rewrite Hv. simpl. rewrite Hlog. simpl. rewrite upd_in_range by done. simpl.
  rewrite <-scan_logs_None.
  assert (Hend : ∀ (err : option TestError) (x : config),
    (∃ c', match err with Some e => Fatal e | None => Ret x end = Ret c') ↔ err = None).
  { intros [e|] x; split; [by intros []|done|done|by eexists]. }
  rewrite Hend. destruct (CommandIndex m >? 1) eqn:E1; simpl.
  - apply Z.gtb_lt in E1. destruct (decide (is_Some (log !! (CommandIndex m - 1)))) as [Hs|Hs].
    + rewrite bool_decide_eq_true_2 by done. simpl. split; [done|by intros []].
    + rewrite bool_decide_eq_false_2 by done. simpl. split; [done|]. intros [_ Hx]. destruct Hs. apply Hx. lia.
  - rewrite Z.gtb_ltb in E1. bools. split; [intros ->; split; [done|lia]|by intros []].
Qed.

Lemma applier_logs i m c c' : CommandValid m = true → applier i m c = Ret c' →
  ∃ log, (logs c)@[i] = Some log ∧ upd (logs c) i (<[CommandIndex m := am_Command m]> log) = Some (logs c').
Proof.
  unfold applier. intros ->. cbn [negb]. intros E. apply bind_Ret in E as ([[c1 err] prevok]&E&E').
  assert (c1 = c') as -> by (destruct (if _ : bool then _ else err); congruence). unfold checkLogs in E.
  apply bind_Ret in E as (log&Hlog%try_Ret&E). apply bind_Ret in E as (ls&Hls%try_Ret&E).
  injection E as <- _ _. by exists log.
Qed.

Lemma tracks_snoc ms i m c c' : CommandValid m = true → tracks ms c → applier i m c = Ret c' → tracks (ms ++ [(i, m)]) c'.
Proof.
  intros Hv Ht E. destruct (applier_logs _ _ _ _ Hv E) as (log&Hlog&Hupd).
  destruct (proj1 (applier_spec i m c log Hv Hlog)) as [Hag _]; [by eexists|].
  intros j lg. rewrite (idx_upd _ _ _ _ _ Hupd). intros Hj k v. setoid_rewrite elem_of_app. setoid_rewrite list_elem_of_singleton.
  destruct (Z.eqb_spec j i) as [->|Hne].
  - injection Hj as <-. destruct (decide (CommandIndex m = k)) as [<-|Hk].
    + rewrite lookup_insert_eq. split; [intros [= <-]; exists m; naive_solver|].
      intros (m'&[Hin|[= ->]]&Hi&<-); [|done]. f_equal. symmetry. eapply Hag; [exact Hlog|]. apply (Ht _ _ Hlog). eauto.
    + rewrite lookup_insert_ne by done. rewrite (Ht _ _ Hlog). naive_solver.
  - rewrite (Ht _ _ Hj). naive_solver.
Qed.

Lemma consistent_snoc ms i m : consistent (ms ++ [(i, m)]) ↔
  consistent ms ∧ ∀ x, x ∈ ms → CommandIndex x.2 = CommandIndex m → am_Command x.2 = am_Command m.
Proof.
  unfold consistent. setoid_rewrite elem_of_app. setoid_rewrite list_elem_of_singleton. split.
  - intros Hc. split; [intros x y Hx Hy; apply Hc; by left|]. intros x Hx. apply (Hc x (i, m)); [by left|by right].
  - intros [Hc Hm] x y [Hx|Hx] [Hy|Hy] E; subst; simpl in *; eauto. symmetry. eauto.
Qed.

Lemma ordered_snoc ms i m : ordered (ms ++ [(i, m)]) ↔
  ordered ms ∧ (CommandIndex m > 1 → ∃ m', (i, m') ∈ ms ∧ CommandIndex m' = CommandIndex m - 1).
Proof.
  unfold ordered. split.
  - intros Ho. split; [|by apply (Ho ms i m [])]. intros ms1 j m1 ms2 ->. apply (Ho ms1 j m1 (ms2 ++ [(i, m)])).
    by rewrite <-app_assoc.
  - intros [Ho Hm] ms1 j m1 ms2 E. destruct ms2 as [|y ms2 _] using rev_ind.
    + apply app_inj_tail in E as [-> [= -> ->]]. done.
    + rewrite app_comm_cons, app_assoc in E. apply app_inj_tail in E as [-> _]. by eapply Ho.
Qed.

(** The messages seen so far decide the verdict, and the harness's logs hold them. *)
Lemma accepts_iff ms c :
  valid_msgs (len (logs c)) ms → (∀ i log, (logs c)@[i] = Some log → log = ∅) →
  (∃ c', watch ms c = Ret c') ↔ consistent ms ∧ ordered ms.
Proof.
  intros Hv Hempty.
  enough (Hgo : ((∃ c', watch ms c = Ret c') ↔ consistent ms ∧ ordered ms) ∧
    ∀ c', watch ms c = Ret c' → tracks ms c' ∧ len (logs c') = len (logs c)) by apply Hgo.
  induction ms as [|[i m] ms IH] using rev_ind.
  { split.
    - split; [|by eexists]. intros _. split; [intros x y Hx; by apply not_elem_of_nil in Hx|].
      intros [|] ? ? ? ?; done.
    - intros c' [= <-]. split; [|done]. intros i log Hi k v. rewrite (Hempty _ _ Hi), lookup_empty. split; [done|].
      intros (m&Hm&_). by apply not_elem_of_nil in Hm. }
  destruct (Hv (i, m)) as [Hvm Hi]; [apply elem_of_app; right; by left|]. simpl in Hvm, Hi.
  destruct IH as [IHiff IHt]; [intros x Hx; apply Hv, elem_of_app; by left|].
  rewrite watch_app, consistent_snoc, ordered_snoc. destruct (watch ms c) as [c1|e|] eqn:E1.
  2,3: split; [|done]; split; [by intros []|]; intros [[? _] [? _]]; by destruct (proj2 IHiff) as [? ?].
  destruct (IHt c1 eq_refl) as [Ht Hlen]. destruct (proj1 IHiff) as [Hc Ho]; [by eexists|].
  destruct (idx_in_range (logs c1) i) as [log Hlog]; [by rewrite Hlen|].
  cbn [mbind Res_bind watch].
  assert (Hiff : (∃ c', (applier i m c1 ≫= λ c', Ret c') = Ret c') ↔ ∃ c', applier i m c1 = Ret c').
  { by destruct (applier i m c1). }
  split.
  - rewrite Hiff, (applier_spec _ _ _ _ Hvm Hlog). split.
    + intros [Hag Hprev]. split; (split; [done|]).
      * intros [j mj] Hx Hk. simpl in *. destruct (idx_in_range (logs c1) j) as [lj Hj].
        { rewrite Hlen. apply (Hv (j, mj)), elem_of_app. by left. }
        eapply Hag; [exact Hj|]. rewrite <-Hk. apply (Ht _ _ Hj). eauto.
      * intros [v (m'&?&?&?)%(Ht _ _ Hlog)]%Hprev. eauto.
    + intros [[_ Hag] [_ Hprev]]. split.
      * intros j lj old Hj (m'&Hin&Hk&<-)%(Ht _ _ Hj). apply (Hag (j, m')); done.
      * intros (m'&?&?)%Hprev. exists (am_Command m'). apply (Ht _ _ Hlog). eauto.
  - intros c' E. destruct (applier i m c1) as [c2| |] eqn:E2; simplify_eq/=. split; [by eapply tracks_snoc|].
    destruct (applier_logs _ _ _ _ Hvm E2) as (?&_&Hu). by rewrite (len_upd _ _ _ _ Hu).
Qed.

(** The harness's apply checks are exact: fed the messages of all servers in
    any interleaving, it accepts them if and only if no index is delivered with two
    different commands, at one server or at two, and every server gets each index
    (from 2 on) after its predecessor. *)
Theorem applier_accepts_iff ms c :
  valid_msgs (len (logs c)) ms → (∀ i log, (logs c)@[i] = Some log → log = ∅) →
  (∃ c', watch ms c = Ret c') ↔ consistent ms ∧ ordered ms.
Proof. apply accepts_iff. Qed.
End Watching.

(** ** The theorems at work *)

Definition no_service (p : nat) : Service unit := MakeService "Raft" [].
Definition no_snapshot (b : list Byte.byte) : option (Z * list (option nat)) := None.
(** Two servers are started and attached, then the second crashes and restarts. *)
Definition demo_ops : list TestOp :=
  [StartServer 0 5 ["a00"; "a01"]; StartServer 1 5 ["a10"; "a11"]; ConnectServer 0; ConnectServer 1;
   CrashServer 1; StartServer 1 5 ["b10"; "b11"]].
Definition demo_config (ops : list TestOp) : config nat unit :=
  match test_ops no_service no_snapshot ops (new_config 2 false) with Ret c => c | _ => new_config 2 false end.

Lemma connectivity_correct_witness :
  test_ops no_service no_snapshot demo_ops (new_config 2 false) = Ret (demo_config demo_ops) ∧
  on (demo_config demo_ops) "a00" ∧ slot (demo_config demo_ops) 1 0 = Some "b10" ∧ ¬ on (demo_config demo_ops) "b10" ∧
  ∀ e, on (demo_config demo_ops) e ↔
    ∃ i j, slot (demo_config demo_ops) i j = Some e ∧ up (demo_config demo_ops) i ∧ up (demo_config demo_ops) j.
Proof.
  split; [vm_compute; reflexivity|]. split; [vm_compute; reflexivity|]. split; [vm_compute; reflexivity|].
  split; [unfold on; vm_compute; discriminate|].
  apply (connectivity_correct no_service no_snapshot 2 false demo_ops); [lia|vm_compute; reflexivity].
Defined.

Lemma applier_accepts_iff_witness :
  (∃ c', watch [(0, command_msg (Some 7%nat) 1); (1, command_msg (Some 7%nat) 1); (0, command_msg (Some 8%nat) 2)]
     (demo_config demo_ops) = Ret c') ∧
  ¬ ∃ c', watch [(0, command_msg (Some 7%nat) 1); (1, command_msg (Some 9%nat) 1)] (demo_config demo_ops) = Ret c'.
Proof.
  assert (Hempty : ∀ i log, (logs (demo_config demo_ops))@[i] = Some log → log = ∅).
  { intros i log Hi%idx_elem_of. revert Hi. change (logs (demo_config demo_ops)) with [∅ : gmap Z (option nat); ∅].
    intros [->|[->|[]%not_elem_of_nil]%elem_of_cons]%elem_of_cons; reflexivity. }
  split; [vm_compute; eexists; reflexivity|].
  rewrite (applier_accepts_iff (W := unit)); [|intros x; rewrite !elem_of_cons, elem_of_nil; vm_compute; naive_solver|exact Hempty].
  intros [Hc _]. specialize (Hc (0, command_msg (Some 7%nat) 1) (1, command_msg (Some 9%nat) 1)).
  discriminate Hc; [by left|by right; left|reflexivity].
Defined.
End RaftTesterTheorems.
