(* ===== verification/RaftHarness.v ===== *)
(** * The harness watching a cluster

    The peers of [RaftCluster] deliver commands on their apply channels; the
    appliers of the harness ([RaftTester]) read them in some interleaving.  What
    the cluster guarantees and what the harness checks meet here. *)

From S2P Require Import Prelude RaftServer RaftCluster RaftInvariants RaftScenarios LabRpc RaftTester RaftTesterTheorems.

Module RaftHarness.
Import RaftServer RaftCluster RaftInvariants RaftScenarios LabRpc RaftTester RaftTesterTheorems.

Section Harness.
Context {Cmd : Type} `{EqDecision Cmd} {W : Type}.
Notation watched := (list (Z * ApplyMsg Cmd)).

(** The messages of server [i], in the order they were read. *)
Definition from (i : nat) (ms : watched) : list (ApplyMsg Cmd) :=
  snd <$> filter (λ x, x.1 = Z.of_nat i) ms.

(** [ms] interleaves the messages the peers have sent. *)
Definition interleaves (c : Cluster) (ms : watched) : Prop :=
  (∀ x, x ∈ ms → 0 <= x.1 < len (nodes c)) ∧ ∀ i nd, nodes c !! i = Some nd → from i ms = applyCh nd.

(** No two peers have delivered different commands at one index. *)
Definition agreement (c : Cluster (Cmd := Cmd)) : Prop :=
  ∀ i j ni nj mi mj, nodes c !! i = Some ni → nodes c !! j = Some nj → mi ∈ applyCh ni → mj ∈ applyCh nj →
    CommandIndex mi = CommandIndex mj → am_Command mi = am_Command mj.

Lemma elem_of_from i m ms : m ∈ from i ms ↔ (Z.of_nat i, m) ∈ ms.
Proof.
  unfold from. rewrite list_elem_of_fmap. setoid_rewrite list_elem_of_filter. split.
  - intros ([j m']&->&Hj&Hin). simpl in *. by subst.
  - intros Hin. by exists (Z.of_nat i, m).
Qed.

Lemma interleaves_node c ms x : interleaves c ms → x ∈ ms →
  ∃ i nd, x.1 = Z.of_nat i ∧ nodes c !! i = Some nd ∧ x.2 ∈ applyCh nd.
Proof.
  intros [Hr Hf] Hx. pose proof (Hr _ Hx) as Hi. destruct x as [z m]. simpl in *.
  assert (is_Some (nodes c !! Z.to_nat z)) as [nd Hnd] by (apply lookup_lt_is_Some_2; unfold len in Hi; lia).
  exists (Z.to_nat z), nd. split; [lia|]. split; [done|]. rewrite <-(Hf _ _ Hnd), elem_of_from.
  by rewrite Z2Nat.id by lia.
Qed.

(** The order in which a peer delivers is the order the harness asks for. *)
Lemma interleaves_ordered n r c ms : reachable n r c → interleaves c ms → ordered ms.
Proof.
  intros Hr Hi ms1 z m ms2 Hms Hgt.
  destruct (interleaves_node c ms (z, m) Hi) as (i&nd&Hz&Hnd&_); [rewrite Hms; set_solver|]. simpl in Hz. subst z.
  destruct (applied_reachable _ _ _ _ _ Hr Hnd) as [_ Hidx].
  assert (Hsplit : applyCh nd = from i ms1 ++ m :: from i ms2).
  { rewrite <-(proj2 Hi _ _ Hnd), Hms. unfold from. rewrite filter_app, filter_cons_True by done. by rewrite fmap_app. }
  destruct (Hidx (length (from i ms1)) m) as [_ Hm]; [by rewrite Hsplit, list_lookup_middle|].
  destruct (from i ms1) as [|m' l _] eqn:E using rev_ind; [simpl in Hm; lia|].
  exists m'. split; [apply elem_of_from; rewrite E; apply elem_of_app; right; by left|].
  destruct (Hidx (length l) m') as [_ Hm'].
  { rewrite Hsplit, <-app_assoc. simpl. by apply list_lookup_middle. }
  rewrite length_app in Hm. simpl in Hm. lia.
Qed.

Lemma interleaves_consistent c ms : interleaves c ms → consistent ms ↔ agreement c.
Proof.
  intros Hi. split.
  - intros Hc i j ni nj mi mj Hni Hnj Hmi Hmj E.
    rewrite <-(proj2 Hi _ _ Hni) in Hmi. rewrite <-(proj2 Hi _ _ Hnj) in Hmj.
    apply elem_of_from in Hmi, Hmj. exact (Hc _ _ Hmi Hmj E).
  - intros Ha x y Hx Hy E.
    destruct (interleaves_node _ _ _ Hi Hx) as (i&ni&_&Hni&Hmi), (interleaves_node _ _ _ Hi Hy) as (j&nj&_&Hnj&Hmj).
    by eapply (Ha i j).
Qed.

(** C28: the harness's verdict on this Raft: whatever a cluster of [n] peers has
    done and in whatever order the harness reads the peers' messages, it never finds
    them out of order, and it lets them pass if and only if no two peers have
    delivered different commands at one index. *)
Theorem harness_verdict n r c ms (cfg : config Cmd W) :
  reachable n r c → interleaves c ms → len (logs cfg) = Z.of_nat n →
  (∀ i log, (logs cfg)@[i] = Some log → log = ∅) →
  ordered ms ∧ ((∃ cfg', watch ms cfg = Ret cfg') ↔ agreement c).
Proof.
  intros Hr Hi Hn Hempty. pose proof (interleaves_ordered _ _ _ _ Hr Hi) as Ho. split; [done|].
  rewrite <-(interleaves_consistent _ _ Hi), (accepts_iff ms cfg); [naive_solver| |done].
  intros x Hx. destruct (interleaves_node _ _ _ Hi Hx) as (i&nd&Hz&Hnd&Hm). split.
  - apply list_elem_of_lookup in Hm as [k Hk]. by apply (applied_reachable _ _ _ _ _ Hr Hnd) in Hk as [? _].
  - rewrite Hn. pose proof (proj1 Hi _ Hx) as Hx'. unfold len in Hx'. by rewrite (wf_len _ _ (wf_reachable _ _ _ Hr)) in Hx'.
Qed.
End Harness.

(** ** The harness on the run with two leaders *)

Definition fresh_cfg : config nat unit := new_config 3 false.
Definition conflicting : list (Z * ApplyMsg nat) := [(2, command_msg (Some 20%nat) 1); (1, command_msg (Some 10%nat) 1)].

Lemma harness_verdict_witness :
  ordered conflicting ∧ ¬ agreement (after split_commit) ∧ ¬ ∃ cfg', watch conflicting fresh_cfg = Ret cfg'.
Proof.
  assert (Hi : interleaves (after split_commit) conflicting).
  { split.
    - intros x [->|[->|[]%not_elem_of_nil]%elem_of_cons]%elem_of_cons; split; vm_compute; congruence.
    - intros [|[|[|i]]] nd; [intros E; vm_compute in E; injection E as <-; vm_compute; reflexivity..|].
      intros E. vm_compute in E. discriminate E. }
  assert (Hempty : ∀ i log, (logs fresh_cfg)@[i] = Some log → log = ∅).
  { intros i log Hl%idx_elem_of. apply (elem_of_replicate 3 ∅ log) in Hl as [-> _]. reflexivity. }
  destruct (harness_verdict 3 zero_rand (after split_commit) conflicting fresh_cfg) as [Ho Hiff].
  - apply after_reachable. vm_compute. reflexivity.
  - exact Hi.
  - reflexivity.
  - exact Hempty.
  - assert (Hno : ¬ ∃ cfg', watch conflicting fresh_cfg = Ret cfg').
    { intros [cfg' E]. vm_compute in E. discriminate E. }
    split; [exact Ho|]. split; [|exact Hno]. intros Ha. apply Hno, Hiff, Ha.
Defined.
End RaftHarness.
