(* ===== verification/RaftAgree.v ===== *)
(** * Agreement in the Raft test harness: [one] and [cleanup] of [raft/config.go]

    [one] submits a command to whoever claims to lead and waits until enough servers
    have delivered it.  Its loops end by the clock: how often each time test succeeds
    is an argument, a list with one number of polls per round.  While it sleeps the
    servers run on: [pass k] is what happens to the configuration during the [k]-th
    sleep, any function. *)

From S2P Require Import Prelude RaftServer LabRpc RaftTester.

Module RaftAgree.
Import RaftServer LabRpc RaftTester.

Section One.
Context {Cmd : Type} `{EqDecision Cmd} {W : Type}.
Notation config := (config Cmd W).
Implicit Types c : config.
Context (pass : nat → config → config).

(** One turn over the servers: the index -1 when nobody claims to lead. *)
Fixpoint try_servers (turns : nat) (cmd : Cmd) (starts : Z) (c : config) : Res (Z * Z * config) :=
  match turns with
  | O => Ret (-1, starts, c)
  | S turns =>
      let starts := Z.rem (starts + 1) (n c) in
      on ← try ((connected c)@[starts]);
      rf ← (if on : bool then try ((rafts c)@[starts]) else Ret None);
      match rf with
      | Some p =>
          inst ← try (instances c !! p);
          '(inst, (index1, _, ok)) ← try (Start cmd inst);
          let c := with_rafts (rafts c) (<[p := inst]> (instances c)) c in
          if ok : bool then Ret (index1, starts, c) else try_servers turns cmd starts c
      | None => try_servers turns cmd starts c
      end
  end.

(** Polls until enough servers have the command at the index. *)
Fixpoint poll (polls : nat) (cmd : Cmd) (expectedServers index : Z) (now : nat) (c : config) : Res (bool * nat * config) :=
  match polls with
  | O => Ret (false, now, c)
  | S polls =>
      '(nd, cmd1) ← nCommitted index c;
      if (nd >? 0) && (nd >=? expectedServers) && bool_decide (cmd1 = Some cmd) then Ret (true, now, c)
      else poll polls cmd expectedServers index (S now) (pass now c)
  end.

Fixpoint one_rounds (rounds : list nat) (cmd : Cmd) (expectedServers : Z) (retry : bool) (starts : Z) (now : nat) (c : config) : Res (Z * config) :=
  let ended := if checkFinished c then Ret (-1, c) else Fatal NoAgreement in
  match rounds with
  | [] => ended
  | polls :: rounds =>
      if checkFinished c then ended
      else
        '(index, starts, c) ← try_servers (Z.to_nat (n c)) cmd starts c;
        if negb (index =? -1) then
          '(agreed, now, c) ← poll polls cmd expectedServers index now c;
          if agreed : bool then Ret (index, c)
          else if negb retry then Fatal NoAgreement
          else one_rounds rounds cmd expectedServers retry starts now c
        else one_rounds rounds cmd expectedServers retry starts (S now) (pass now c)
  end.

Definition one (rounds : list nat) (cmd : Cmd) (expectedServers : Z) (retry : bool) (c : config) : Res (Z * config) :=
  one_rounds rounds cmd expectedServers retry 0 0 c.

(** Up to the check of the elapsed time. *)
Definition cleanup (c : config) : Res config :=
  let c := mkConfig 1 (net c) (n c) (rafts c) (applyErr c) (connected c) (saved c) (endnames c) (logs c) (cfg_lastApplied c)
             (rpcs0 c) (cmds0 c) (bytes0 c) (maxIndex c) (maxIndex0 c) (instances c) (persisters c) in
  c ← for_each (seqZ 0 (len (rafts c))) (λ i c,
        rf ← try ((rafts c)@[i]);
        match rf with Some p => Ret (with_rafts (rafts c) (alter Kill p (instances c)) c) | None => Ret c end) c;
  nt ← try (Cleanup (net c));
  Ret (with_net nt c).

(** ** What the result of [one] means *)

(** Server [i] has a value at the index. *)
Definition has c (index i : Z) : bool :=
  match (logs c)@[i] with Some log => bool_decide (is_Some (log !! index)) | None => false end.
Definition holders c (index : Z) (js : list Z) : list Z := filter (λ i, has c index i = true) js.

Lemma holders_snoc c index js i : holders c index (js ++ [i]) = holders c index js ++ (if has c index i then [i] else []).
Proof. unfold holders. rewrite filter_app. f_equal. by destruct (has c index i) eqn:E; [rewrite filter_cons_True|rewrite filter_cons_False by congruence]. Qed.

(** [nCommitted] counts the servers that have a value at the index, and they all
    have the one it returns. *)
Lemma nCommitted_spec index c nd v : nCommitted index c = Ret (nd, v) →
  nd = len (holders c index (seqZ 0 (len (rafts c)))) ∧
  ∀ i log x, i ∈ seqZ 0 (len (rafts c)) → (logs c)@[i] = Some log → log !! index = Some x → x = v.
Proof.
  set (P := λ js '((nd, v) : Z * option Cmd), nd = len (holders c index js) ∧
    ∀ i log x, i ∈ js → (logs c)@[i] = Some log → log !! index = Some x → x = v).
  change (nCommitted index c = Ret (nd, v) → P (seqZ 0 (len (rafts c))) (nd, v)). apply for_each_ind.
  - split; [done|]. by intros i ?? ?%not_elem_of_nil.
  - intros js i [count cmd] [count' cmd'] [Hcount Hall] E. apply bind_Ret in E as ([e|]&_&E); [done|].
    apply bind_Ret in E as (log&Hlog%try_Ret&E). unfold P. rewrite holders_snoc. unfold has. rewrite Hlog.
    destruct (log !! index) as [cmd1|] eqn:Hi.
    + destruct ((count >? 0) && negb (bool_decide (cmd = cmd1))) eqn:Eb; [done|]. simplify_eq.
      rewrite bool_decide_true by eauto. rewrite len_app. split; [unfold len; simpl; lia|].
      intros j lg x [Hj|Hj%list_elem_of_singleton]%elem_of_app Hlg Hx; [|congruence].
      assert (Hin : j ∈ holders c index js).
      { apply list_elem_of_filter. split; [|done]. unfold has. rewrite Hlg. apply bool_decide_true. eauto. }
      assert (0 < len (holders c index js)).
      { destruct (holders c index js); [by apply not_elem_of_nil in Hin|unfold len; simpl; lia]. }
      assert (Hx1 : x = cmd) by eauto. subst x. apply andb_false_iff in Eb as [Eb|Eb].
      * destruct (Z.gtb_spec (len (holders c index js)) 0); [done|lia].
      * apply negb_false_iff, bool_decide_eq_true in Eb. congruence.
    + simplify_eq. rewrite bool_decide_false by (by intros [? ?]). rewrite app_nil_r. split; [done|].
      intros j lg x [Hj|Hj%list_elem_of_singleton]%elem_of_app Hlg Hx; [by eauto|congruence].
Qed.

Lemma poll_agreed polls cmd expectedServers index now c now' c' :
  poll polls cmd expectedServers index now c = Ret (true, now', c') →
  ∃ nd, nCommitted index c' = Ret (nd, Some cmd) ∧ 0 < nd ∧ expectedServers <= nd.
Proof.
  revert now c. induction polls as [|polls IH]; intros now c E; simpl in E; [done|].
  apply bind_Ret in E as ([nd cmd1]&En&E).
  destruct (_ && _) eqn:Eb in E; [|by eauto]. simplify_eq. bools. exists nd. split_and!; [|lia|lia].
  congruence.
Qed.

(** The servers agree when [one] says so: it returns -1 only after the test was
    ended, and otherwise an index at which at least [expectedServers] servers, and
    at least one, have delivered the command and no server another. *)
Theorem one_returns_agreement rounds cmd expectedServers retry c index c' :
  one rounds cmd expectedServers retry c = Ret (index, c') →
  (index = -1 ∧ checkFinished c' = true) ∨
  (0 < len (holders c' index (seqZ 0 (len (rafts c')))) ∧ expectedServers <= len (holders c' index (seqZ 0 (len (rafts c')))) ∧
   ∀ i log x, i ∈ seqZ 0 (len (rafts c')) → (logs c')@[i] = Some log → log !! index = Some x → x = Some cmd).
Proof.
  unfold one. generalize 0 at 1. generalize 0%nat. revert c. induction rounds as [|polls rounds IH]; intros c now starts E; cbn [one_rounds] in E.
  { destruct (checkFinished c) eqn:Ef; [|done]. simplify_eq. by left. }
  destruct (checkFinished c) eqn:Ef; [rewrite ?Ef in E; simplify_eq; by left|].
  apply bind_Ret in E as ([[idx st] c1]&_&E). destruct (negb (idx =? -1)); [|by eapply IH].
  apply bind_Ret in E as ([[agreed now'] c2]&Ep&E). destruct agreed; [|destruct retry; cbn [negb] in E; [by eapply IH|done]]. simplify_eq.
  right. apply poll_agreed in Ep as (nd&En&?&?). destruct (nCommitted_spec _ _ _ _ En) as [-> Hall]. eauto.
Qed.
End One.
End RaftAgree.
