(* ===== verification/Labgob.v ===== *)
(** * The encoder wrapper: [labgob/labgob.go]

    [labgob] walks the types it is asked to encode or decode and complains about
    lower-case fields, and the values it decodes into and complains about
    non-default ones.  Types form a graph (a struct may point to itself): a type is
    a name [T], and [desc] tells what reflection shows of it.  Values may share and
    be cyclic too: pointers lead into a store.  [encoding/gob] and the tables of
    [unicode] are parameters. *)

From S2P Require Import Prelude GoRunes.

Module Labgob.
Export GoRunes.

(** ** Types *)

Record Field (T : Type) := mkField { f_name : string; f_type : T; f_embedded : bool }.
Arguments mkField {T}. Arguments f_name {T}. Arguments f_type {T}. Arguments f_embedded {T}.

(** [t.Kind()] with what the switch reads of the type. *)
Inductive Desc (T : Type) :=
  | KStruct (name : string) (fields : list (Field T))
  | KSlice (elem : T) | KArray (elem : T) | KPtr (elem : T)
  | KMap (key elem : T)
  | KScalar (name : string)      (* booleans, numbers, strings *)
  | KOther.                      (* interfaces, functions, channels, complex numbers *)
Arguments KStruct {T}. Arguments KSlice {T}. Arguments KArray {T}. Arguments KPtr {T}.
Arguments KMap {T}. Arguments KScalar {T}. Arguments KOther {T}.

(** What is printed. *)
Inductive Warning := LowerCase (field type : string) | NonDefault (what : string).

Section Types.
Context {T : Type} `{Countable T} (desc : T → Desc T) (IsUpper : Z → bool).

(** The package's variables; a nil [checked] reads as an empty one. *)
Record Lab := mkLab { errorCount : Z; checked : gset T; printed : list Warning }.
Definition init : Lab := mkLab 0 ∅ [].

Definition complain (w : Warning) (st : Lab) : Lab := mkLab (errorCount st + 1) (checked st) (printed st ++ [w]).
Definition mark (t : T) (st : Lab) : Lab := mkLab (errorCount st) ({[t]} ∪ checked st) (printed st).

Definition capital (fname : string) : bool := IsUpper (DecodeRune fname).

(** The loop over the fields of a struct; [rec] is the recursive call. *)
Fixpoint check_fields (rec : T → Lab → option Lab) (tname : string) (fs : list (Field T)) (st : Lab) : option Lab :=
  match fs with
  | [] => Some st
  | f :: fs =>
      let st := if capital (f_name f) then st else complain (LowerCase (f_name f) tname) st in
      st ← rec (f_type f) st;
      check_fields rec tname fs st
  end.

(** [None]: the fuel, a bound on the depth of the recursion, is used up. *)
Fixpoint checkType (fuel : nat) (t : T) (st : Lab) : option Lab :=
  match fuel with
  | O => None
  | S fuel =>
      if decide (t ∈ checked st) then Some st
      else
        let st := mark t st in
        match desc t with
        | KStruct name fs => check_fields (checkType fuel) name fs st
        | KSlice e | KArray e | KPtr e => checkType fuel e st
        | KMap k e => st ← checkType fuel e st; checkType fuel k st
        | KScalar _ | KOther => Some st
        end
  end.
End Types.
Arguments Lab T {_ _}.

(** ** Values *)

(** How a [reflect.Value] was reached: through exported fields only, through an
    unexported embedded field, or through another unexported field. *)
Inductive RO := NoRO | EmbedRO | StickyRO.

(** A value of a type; pointers are locations of the store, [None] is nil. *)
Inductive Val := VStruct (fields : list Val) | VPtr (p : option nat) | VScalar (isZero : bool) | VOther.

Section Values.
Context {T : Type} `{Countable T} (desc : T → Desc T) (IsUpper : Z → bool).
Context (store : nat → Val).   (* the memory pointers lead to *)

(** [Value.Field(i)]: exported fields of an embedded one are accessible. *)
Definition field_ro (f : Field T) (ro : RO) : RO :=
  let ro := match ro with StickyRO => StickyRO | _ => NoRO end in
  if capital IsUpper (f_name f) then ro
  else match ro with StickyRO => StickyRO | _ => if f_embedded f then EmbedRO else StickyRO end.

(** The scalar case: [value.Interface()] panics on what was reached through an
    unexported field; the warning is printed for the first error only. *)
Definition check_scalar (tname name : string) (ro : RO) (isZero : bool) (st : Lab T) : option (Lab T) :=
  match ro with
  | NoRO =>
      if isZero then Some st
      else
        let what := if String.eqb name "" then tname else name in
        let out := if errorCount st <? 1 then printed st ++ [NonDefault what] else printed st in
        Some (mkLab (errorCount st + 1) (checked st) out)
  | _ => None
  end.

(** [k] is 4 - depth: the recursion stops at depth 4.  [None] is a panic (also for
    a value that is not of its type, which cannot occur). *)
Fixpoint checkDefault1 (k : nat) (t : T) (ro : RO) (v : Val) (name : string) (st : Lab T) : option (Lab T) :=
  match k with
  | O => Some st
  | S k =>
      match desc t, v with
      | KStruct _ fs, VStruct vs =>
          (fix go (fs : list (Field T)) (vs : list Val) (st : Lab T) : option (Lab T) :=
             match fs, vs with
             | [], [] => Some st
             | f :: fs, v :: vs =>
                 let name1 := if String.eqb name "" then f_name f else name +:+ "." +:+ f_name f in
                 st ← checkDefault1 k (f_type f) (field_ro f ro) v name1 st;
                 go fs vs st
             | _, _ => None
             end) fs vs st
      | KPtr _, VPtr None => Some st
      | KPtr e, VPtr (Some p) => checkDefault1 k e ro (store p) name st
      | KScalar tname, VScalar isZero => check_scalar tname name ro isZero st
      | (KSlice _ | KArray _ | KMap _ _ | KOther), VOther => Some st
      | _, _ => None
      end
  end.

(** An [interface{}]: nil, or a value with its type. *)
Definition Iface : Type := option (T * Val).

Definition checkDefault (value : Iface) (st : Lab T) : option (Lab T) :=
  match value with None => Some st | Some (t, v) => checkDefault1 3 t NoRO v "" st end.

(** [reflect.TypeOf(nil)] is nil, and its [Kind] panics. *)
Definition checkValue (fuel : nat) (value : Iface) (st : Lab T) : option (Lab T) :=
  '(t, _) ← value; checkType desc IsUpper fuel t st.

(** ** The encoder, the decoder and the registry *)

(** What [encoding/gob] does: the new stream and whether there was an error. *)
Context {Stream : Type} (gob_Encode : Iface → Stream → Stream * bool) (gob_Decode : Iface → Stream → Stream * bool).
Context {Registry : Type} (gob_Register : option string → Iface → Registry → Registry).

Definition Encode (fuel : nat) (e : Iface) (s : Stream) (st : Lab T) : option (Lab T * (Stream * bool)) :=
  st ← checkValue fuel e st; Some (st, gob_Encode e s).

Definition EncodeValue (fuel : nat) (value : Iface) (s : Stream) (st : Lab T) : option (Lab T * (Stream * bool)) :=
  st ← checkValue fuel value st; Some (st, gob_Encode value s).

Definition Decode (fuel : nat) (e : Iface) (s : Stream) (st : Lab T) : option (Lab T * (Stream * bool)) :=
  st ← checkValue fuel e st; st ← checkDefault e st; Some (st, gob_Decode e s).

Definition Register (fuel : nat) (value : Iface) (g : Registry) (st : Lab T) : option (Lab T * Registry) :=
  st ← checkValue fuel value st; Some (st, gob_Register None value g).

Definition RegisterName (fuel : nat) (name : string) (value : Iface) (g : Registry) (st : Lab T)
  : option (Lab T * Registry) :=
  st ← checkValue fuel value st; Some (st, gob_Register (Some name) value g).
End Values.
End Labgob.
