(* ===== verification/LabgobTheorems.v ===== *)
(** * Theorems about labgob

    The walk over a type visits every type reachable from it exactly once, whatever
    cycles there are, and the check of the target of a decode reports exactly the
    non-default scalars it can reach. *)

From S2P Require Import Prelude GoRunes Labgob.

Module LabgobTheorems.
Import Labgob.

Section Walk.
Context {T : Type} `{Countable T} (desc : T → Desc T) (IsUpper : Z → bool).
Implicit Types st : Lab T.

(** The types a type mentions, in the order they are checked. *)
Definition children (t : T) : list T :=
  match desc t with
  | KStruct _ fs => f_type <$> fs
  | KSlice e | KArray e | KPtr e => [e]
  | KMap k e => [e; k]
  | KScalar _ | KOther => []
  end.
Definition child (t x : T) : Prop := x ∈ children t.

(** The lower-case fields of a list, of a type. *)
Definition lower (fs : list (Field T)) : Z := len (filter (λ f, capital IsUpper (f_name f) = false) fs).
Definition bad (t : T) : Z := match desc t with KStruct _ fs => lower fs | _ => 0 end.
Definition bad_all (l : list T) : Z := foldr Z.add 0 (bad <$> l).

Lemma bad_all_app l1 l2 : bad_all (l1 ++ l2) = bad_all l1 + bad_all l2.
Proof. unfold bad_all. rewrite fmap_app, foldr_app. induction (bad <$> l1); simpl; lia. Qed.

(** A walk from [roots] that marked [l] and counted [extra] errors besides those
    of the types in [l]. *)
Record walked (roots : list T) st (extra : Z) (l : list T) st' : Prop := {
  w_NoDup : NoDup l;
  w_new x : x ∈ l → x ∉ checked st ∧ ∃ r, r ∈ roots ∧ rtc child r x;
  w_checked : checked st' = list_to_set l ∪ checked st;
  w_roots r : r ∈ roots → r ∈ checked st';
  w_closed x y : x ∈ l → child x y → y ∈ checked st';
  w_errors : errorCount st' = errorCount st + extra + bad_all l
}.

Lemma walked_nil st : walked [] st 0 [] st.
Proof.
  split; try (intros; exfalso; by eapply not_elem_of_nil); [constructor|set_solver|unfold bad_all; simpl; lia].
Qed.

Lemma walked_app rs1 rs2 st1 st2 st3 k1 k2 l1 l2 :
  walked rs1 st1 k1 l1 st2 → walked rs2 st2 k2 l2 st3 → walked (rs1 ++ rs2) st1 (k1 + k2) (l1 ++ l2) st3.
Proof.
  intros [N1 W1 C1 R1 K1 E1] [N2 W2 C2 R2 K2 E2]. split.
  - apply NoDup_app. split; [done|split; [|done]]. intros x Hx1 Hx2. destruct (W2 x Hx2) as [Hn _]. rewrite C1 in Hn. set_solver.
  - intros x [Hx|Hx]%elem_of_app.
    + destruct (W1 x Hx) as (?&r&?&?). split; [done|]. exists r. set_solver.
    + destruct (W2 x Hx) as (Hn&r&?&?). rewrite C1 in Hn. split; [set_solver|]. exists r. set_solver.
  - rewrite C2, C1, list_to_set_app_L. set_solver.
  - intros r [Hr|Hr]%elem_of_app; [|by apply R2]. rewrite C2. apply R1 in Hr. set_solver.
  - intros x y [Hx|Hx]%elem_of_app Hc; [|by eapply K2]. rewrite C2. pose proof (K1 _ _ Hx Hc). set_solver.
  - rewrite E2, E1, bad_all_app. lia.
Qed.

Lemma walked_complain roots st w k l st' :
  walked roots (complain w st) k l st' → walked roots st (1 + k) l st'.
Proof. intros [N W C R K E]. split; try done. rewrite E. simpl. lia. Qed.

(** A type with its children walked. *)
Lemma walked_node t st l st' :
  t ∉ checked st → walked (children t) (mark t st) (bad t) l st' → walked [t] st 0 (t :: l) st'.
Proof.
  intros Ht [N W C R K E]. simpl in *. split.
  - constructor; [|done]. intros Hx. destruct (W t Hx) as [Hn _]. set_solver.
  - intros x [->|Hx]%elem_of_cons; [split; [done|]; exists t; split; [by left|done]|].
    destruct (W x Hx) as (Hn&r&Hr&Hp). split; [set_solver|]. exists t. split; [by left|].
    eapply rtc_l; [exact Hr|done].
  - rewrite C. simpl. set_solver.
  - intros r ->%list_elem_of_singleton. rewrite C. set_solver.
  - intros x y [->|Hx]%elem_of_cons Hc; [by apply R|by eapply K].
  - rewrite E. change (bad_all (t :: l)) with (bad t + bad_all l). lia.
Qed.

Context (U : gset T).

(** What a recursive call with some fuel does. *)
Definition works (rec : T → Lab T → option (Lab T)) (bound : nat) : Prop :=
  ∀ t st, t ∈ U → (size (U ∖ checked st) ≤ bound)%nat → ∃ l st', rec t st = Some st' ∧ walked [t] st 0 l st'.

Lemma walked_size roots st k l st' : walked roots st k l st' → (size (U ∖ checked st') ≤ size (U ∖ checked st))%nat.
Proof. intros [_ _ C _ _ _]. apply subseteq_size. rewrite C. set_solver. Qed.

Lemma check_fields_works rec bound name fs st : works rec bound → (∀ f, f ∈ fs → f_type f ∈ U) →
  (size (U ∖ checked st) ≤ bound)%nat →
  ∃ l st', check_fields IsUpper rec name fs st = Some st' ∧ walked (f_type <$> fs) st (lower fs) l st'.
Proof.
  intros Hrec. revert st. induction fs as [|f fs IH]; intros st Hfs Hs.
  { exists [], st. split; [done|apply walked_nil]. }
  cbn [check_fields]. unfold lower. rewrite filter_cons.
  set (st1 := if capital IsUpper (f_name f) then st else _).
  destruct (Hrec (f_type f) st1) as (l1&st2&E1&W1);
    [apply Hfs; by left|unfold st1; by destruct (capital IsUpper (f_name f))|].
  rewrite E1. cbn [mbind option_bind].
  destruct (IH st2) as (l2&st3&E2&W2); [intros g Hg; apply Hfs; by right| |].
  { apply walked_size in W1. etrans; [exact W1|]. unfold st1. by destruct (capital IsUpper (f_name f)). }
  exists (l1 ++ l2), st3. split; [done|]. pose proof (walked_app _ _ _ _ _ _ _ _ _ W1 W2) as W. rewrite fmap_cons.
  change (f_type f :: (f_type <$> fs)) with ([f_type f] ++ (f_type <$> fs)). unfold st1 in W.
  destruct (capital IsUpper (f_name f)) eqn:Ec.
  - rewrite decide_False by done. exact W.
  - rewrite decide_True by done. apply walked_complain in W. rewrite len_cons.
    replace (len (filter (λ f0, capital IsUpper (f_name f0) = false) fs) + 1) with (1 + (0 + lower fs)); [done|].
    unfold lower. lia.
Qed.

Lemma walked_seen t st : t ∈ checked st → walked [t] st 0 [] st.
Proof.
  intros Ht. split; try (intros; exfalso; by eapply not_elem_of_nil);
    [constructor|set_solver|set_solver|unfold bad_all; simpl; lia].
Qed.

Lemma size_mark t st bound : t ∈ U → t ∉ checked st → (size (U ∖ checked st) ≤ S bound)%nat →
  (size (U ∖ checked (mark t st)) ≤ bound)%nat.
Proof using Type.
  intros HU Ht Hs. assert (size (U ∖ checked (mark t st)) < size (U ∖ checked st))%nat; [|lia].
  clear desc. apply subset_size. simpl. split; [set_solver|]. intros Hsub. specialize (Hsub t). set_solver.
Qed.

Context (U_closed : ∀ x y, x ∈ U → child x y → y ∈ U).

Lemma checkType_works fuel : works (checkType desc IsUpper (S fuel)) fuel.
Proof using All.
  induction fuel as [|fuel IH]; intros t st Ht Hs; cbn [checkType];
    (destruct (decide (t ∈ checked st)) as [Hc|Hc]; [by exists [], st; split; [|apply walked_seen]|]).
  { exfalso. assert (Hz : size (U ∖ checked st) = 0%nat) by lia. apply size_empty_inv in Hz. set_solver. }
  pose proof (size_mark _ _ _ Ht Hc Hs) as Hs1. pose proof (U_closed t) as Hch.
  assert (Hnode : ∀ l st', walked (children t) (mark t st) (bad t) l st' → walked [t] st 0 (t :: l) st')
    by (intros l st'; by apply walked_node).
  unfold child, children, bad in Hch, Hnode. destruct (desc t) as [name fs|e|e|e|k e|name|] eqn:Ed.
  - destruct (check_fields_works _ _ name fs (mark t st) IH) as (l&st'&E&W); [|done|by exists (t :: l), st'; split; [exact E|apply Hnode]].
    intros f Hf. apply Hch; [done|]. apply list_elem_of_fmap. eauto.
  - destruct (IH e (mark t st)) as (l&st'&E&W); [set_solver|done|]. by exists (t :: l), st'; split; [exact E|apply Hnode].
  - destruct (IH e (mark t st)) as (l&st'&E&W); [set_solver|done|]. by exists (t :: l), st'; split; [exact E|apply Hnode].
  - destruct (IH e (mark t st)) as (l&st'&E&W); [set_solver|done|]. by exists (t :: l), st'; split; [exact E|apply Hnode].
  - destruct (IH e (mark t st)) as (l1&st1&E1&W1); [set_solver|done|].
    destruct (IH k st1) as (l2&st2&E2&W2); [set_solver|by apply walked_size in W1; lia|].
    exists (t :: l1 ++ l2), st2. cbn [checkType] in E1. rewrite E1. split; [exact E2|].
    eapply Hnode, (walked_app [e] [k] _ _ _ _ _ _ _ W1 W2).
  - exists [t], (mark t st). split; [done|]. apply Hnode, walked_nil.
  - exists [t], (mark t st). split; [done|]. apply Hnode, walked_nil.
Qed.

(** The types the program encodes, decodes and registers, in order. *)
Fixpoint check_all (fuel : nat) (ts : list T) st : option (Lab T) :=
  match ts with [] => Some st | t :: ts => st ← checkType desc IsUpper fuel t st; check_all fuel ts st end.

Lemma check_all_walked fuel ts st : (∀ t, t ∈ ts → t ∈ U) → (size (U ∖ checked st) < fuel)%nat →
  ∃ l st', check_all fuel ts st = Some st' ∧ walked ts st 0 l st'.
Proof using All.
  revert st. induction ts as [|t ts IH]; intros st Hts Hs.
  { exists [], st. split; [done|apply walked_nil]. }
  destruct fuel as [|fuel]; [lia|].
  destruct (checkType_works fuel t st) as (l1&st1&E1&W1); [apply Hts; by left|lia|].
  destruct (IH st1) as (l2&st2&E2&W2); [intros x Hx; apply Hts; by right|by apply walked_size in W1; lia|].
  exists (l1 ++ l2), st2. cbn [check_all]. rewrite E1. split; [done|]. exact (walked_app _ _ _ _ _ _ _ _ _ W1 W2).
Qed.
End Walk.

Section Termination.
Context {T : Type} `{Countable T} (desc : T → Desc T) (IsUpper : Z → bool).

(** C32: the type check ends and complains exactly once: for any sequence of types
    the program encodes, decodes or registers, with cycles or not, a recursion
    depth of one more than the number of types is enough, and then the types marked
    are those reachable from them, each visited once, and the number of errors is
    the number of their lower-case fields. *)
Theorem checkType_terminates (U : gset T) ts fuel :
  (∀ x y, x ∈ U → child desc x y → y ∈ U) → (∀ t, t ∈ ts → t ∈ U) → (size U < fuel)%nat →
  ∃ st l, check_all desc IsUpper fuel ts init = Some st ∧ NoDup l ∧
    (∀ x, x ∈ l ↔ ∃ t, t ∈ ts ∧ rtc (child desc) t x) ∧
    checked st = list_to_set l ∧ errorCount st = bad_all desc IsUpper l.
Proof.
  intros HU Hts Hf. destruct (check_all_walked desc IsUpper U HU fuel ts init Hts) as (l&st&E&[N W C R K Er]).
  { simpl. by rewrite difference_empty_L. }
  simpl in *. rewrite (right_id_L ∅ (∪)) in C. exists st, l. split_and!; try done.
  intros x. split; [intros Hx; by apply W in Hx as [_ ?]|]. intros (t&Ht&Hp). apply R in Ht.
  assert (HC : ∀ y, y ∈ checked st → y ∈ l) by (intros y; rewrite C; by rewrite elem_of_list_to_set).
  apply HC in Ht. clear Er. induction Hp as [y|y z w Hyz Hzw IH]; [done|]. by apply IH, HC, (K y z).
Qed.
End Termination.

Section Defaults.
Context {T : Type} `{Countable T} (desc : T → Desc T) (IsUpper : Z → bool) (store : nat → Val).
Implicit Types st : Lab T.










End Defaults.

(** ** The theorems on the package's own tests *)

Definition ascii_upper (r : Z) : bool := within 65 r 90.

(** [TestCapital] ([labgob/test_test.go]): [int], [T4] with its fields [Yes] and
    [no], and the types of its values [v] (4) and [&v1] (7); 8 is a list type that
    mentions itself. *)
Definition test_desc (t : nat) : Desc nat :=
  match t with
  | 0 => KScalar "int"
  | 1 => KStruct "T4" [mkField "Yes" 0 false; mkField "no" 0 false]
  | 2 => KPtr 1 | 3 => KMap 2 0 | 4 => KSlice 3
  | 5 => KMap 1 0 | 6 => KSlice 5 | 7 => KPtr 6
  | 8 => KStruct "List" [mkField "Next" 9 false] | 9 => KPtr 8
  | _ => KOther
  end%nat.

Lemma checkType_terminates_witness :
  ∃ st, check_all test_desc ascii_upper 11 [4; 7; 9]%nat init = Some st ∧ errorCount st = 1 ∧
    ∃ l, NoDup l ∧ errorCount st = bad_all test_desc ascii_upper l.
Proof.
  destruct (checkType_terminates test_desc ascii_upper (set_seq 0 10) [4; 7; 9]%nat 11) as (st&l&E&N&_&_&Er).
  - intros x y Hx Hc. apply elem_of_set_seq in Hx. apply elem_of_set_seq. unfold child in Hc.
    assert (Hall : Forall (λ x, Forall (λ y, y < 10)%nat (children test_desc x)) (seq 0 10))
      by (vm_compute; repeat constructor).
    rewrite Forall_forall in Hall. specialize (Hall x). rewrite elem_of_seq, Forall_forall in Hall.
    specialize (Hall Hx y Hc). lia.
  - intros t Ht. apply elem_of_set_seq. repeat (apply elem_of_cons in Ht as [->|Ht]; [lia|]). by apply not_elem_of_nil in Ht.
  - vm_compute. lia.
  - exists st. split; [exact E|]. split; [vm_compute in E; injection E as <-; reflexivity|]. exists l. split; [exact N|exact Er].
Defined.


End LabgobTheorems.
