(* ===== verification/Kvraft.v ===== *)
(** * The replicated key/value service: [kvraft/common.go], [client.go], [server.go]

    The clerk's operations and the server's handlers have empty bodies in the
    source. *)

From S2P Require Import Prelude RaftServer.

Module Kvraft.
Import RaftServer.

Definition OK : string := "OK".
Definition ErrNoKey : string := "ErrNoKey".
Definition ErrWrongLeader : string := "ErrWrongLeader".

Record PutAppendArgs := mkPutAppendArgs { pa_Key : string; pa_Value : string; pa_Op : string }.
Record PutAppendReply := mkPutAppendReply { pr_Err : string }.
Record GetArgs := mkGetArgs { ga_Key : string }.
Record GetReply := mkGetReply { gr_Err : string; gr_Value : string }.

Record Clerk (End : Type) := mkClerk { servers : list End }.
Arguments mkClerk {End}. Arguments servers {End}.

Definition MakeClerk {End} (srvs : list End) : Clerk End := mkClerk srvs.
Definition Get {End} (key : string) (ck : Clerk End) : string := "".
Definition PutAppend {End} (key value op : string) (ck : Clerk End) : Clerk End := ck.
Definition Put {End} (key value : string) (ck : Clerk End) : Clerk End := PutAppend key value "Put" ck.
Definition Append {End} (key value : string) (ck : Clerk End) : Clerk End := PutAppend key value "Append" ck.

Inductive Op := mkOp.

Record KVServer := mkKVServer { kv_me : Z; kv_rf : Raft Op; kv_dead : Z; kv_maxraftstate : Z }.

Definition KVServer_Get (args : GetArgs) (reply : GetReply) (kv : KVServer) : KVServer * GetReply := (kv, reply).
Definition KVServer_PutAppend (args : PutAppendArgs) (reply : PutAppendReply) (kv : KVServer) : KVServer * PutAppendReply := (kv, reply).

Definition KVServer_Kill (kv : KVServer) : KVServer := mkKVServer (kv_me kv) (Kill (kv_rf kv)) 1 (kv_maxraftstate kv).
Definition KVServer_killed (kv : KVServer) : bool := kv_dead kv =? 1.

Definition StartKVServer (r nservers me : Z) (data : list Byte.byte) (maxraftstate : Z) : KVServer :=
  mkKVServer me (Make r nservers me data) 0 maxraftstate.
End Kvraft.
