(* ===== verification/Shardctrler.v ===== *)
(** * The shard controller: [shardctrler/common.go], [client.go], [server.go]

    The clerk repeats an RPC at every known replica until one of them answers that
    it is the leader.  RPCs act on the rest of the world, a type [W]: the interface
    [Ctrlers] says what a call to a replica does to it and what comes back ([None]
    when [Call] returns false).  The loops are unbounded: they run for a number of
    rounds, and [None] means that the clerk is still trying.  The replica's own
    handlers are empty in the source. *)

From S2P Require Import Prelude RaftServer.

Module Shardctrler.
Import RaftServer.

(** ** [common.go] *)

Definition NShards : Z := 10.

Record Config := mkConfig { Num : Z; Shards : list Z; Groups : gmap Z (list string) }.

(** The zero value; [Shards] is an array of [NShards] numbers. *)
Definition zero_config : Config := mkConfig 0 (replicate (Z.to_nat NShards) 0) ∅.

Definition OK : string := "OK".

Record JoinArgs := mkJoinArgs { ja_Servers : gmap Z (list string) }.
Record JoinReply := mkJoinReply { jr_WrongLeader : bool; jr_Err : string }.
Record LeaveArgs := mkLeaveArgs { la_GIDs : list Z }.
Record LeaveReply := mkLeaveReply { lr_WrongLeader : bool; lr_Err : string }.
Record MoveArgs := mkMoveArgs { ma_Shard : Z; ma_GID : Z }.
Record MoveReply := mkMoveReply { mr_WrongLeader : bool; mr_Err : string }.
Record QueryArgs := mkQueryArgs { qa_Num : Z }.
Record QueryReply := mkQueryReply { qr_WrongLeader : bool; qr_Err : string; qr_Config : Config }.

(** ** The RPC interface *)

Inductive Rpc := RQuery | RJoin | RLeave | RMove.

Definition Args (m : Rpc) : Type :=
  match m with RQuery => QueryArgs | RJoin => JoinArgs | RLeave => LeaveArgs | RMove => MoveArgs end.
Definition Reply (m : Rpc) : Type :=
  match m with RQuery => QueryReply | RJoin => JoinReply | RLeave => LeaveReply | RMove => MoveReply end.
Definition WrongLeader (m : Rpc) : Reply m → bool :=
  match m with RQuery => qr_WrongLeader | RJoin => jr_WrongLeader | RLeave => lr_WrongLeader | RMove => mr_WrongLeader end.

(** [time.Sleep] lets the world move on. *)
Class Ctrlers (W End : Type) := {
  Call : ∀ m : Rpc, End → Args m → W → W * option (Reply m);
  Sleep : W → W
}.

(** ** [client.go] *)

Section Clerk.
Context {W End : Type} `{Ctrlers W End}.

Record Clerk := mkClerk { servers : list End }.
Definition MakeClerk (servers : list End) : Clerk := mkClerk servers.

(** One pass over the known servers: the first positive answer of a leader. *)
Fixpoint sweep (m : Rpc) (args : Args m) (srvs : list End) (w : W) : W * option (Reply m) :=
  match srvs with
  | [] => (w, None)
  | srv :: srvs =>
      let '(w, reply) := Call m srv args w in
      match reply with
      | Some r => if negb (WrongLeader m r) then (w, Some r) else sweep m args srvs w
      | None => sweep m args srvs w
      end
  end.

(** The endless loop, for [rounds] rounds. *)
Fixpoint retry (rounds : nat) (m : Rpc) (args : Args m) (srvs : list End) (w : W) : W * option (Reply m) :=
  match rounds with
  | O => (w, None)
  | S rounds =>
      let '(w, reply) := sweep m args srvs w in
      match reply with
      | Some r => (w, Some r)
      | None => retry rounds m args srvs (Sleep w)
      end
  end.

Definition Query (rounds : nat) (num : Z) (ck : Clerk) (w : W) : W * option Config :=
  let '(w, reply) := retry rounds RQuery (mkQueryArgs num) (servers ck) w in (w, qr_Config <$> reply).

Definition Join (rounds : nat) (srvs : gmap Z (list string)) (ck : Clerk) (w : W) : W * option unit :=
  let '(w, reply) := retry rounds RJoin (mkJoinArgs srvs) (servers ck) w in (w, (λ _, tt) <$> reply).

Definition Leave (rounds : nat) (gids : list Z) (ck : Clerk) (w : W) : W * option unit :=
  let '(w, reply) := retry rounds RLeave (mkLeaveArgs gids) (servers ck) w in (w, (λ _, tt) <$> reply).

Definition Move (rounds : nat) (shard gid : Z) (ck : Clerk) (w : W) : W * option unit :=
  let '(w, reply) := retry rounds RMove (mkMoveArgs shard gid) (servers ck) w in (w, (λ _, tt) <$> reply).
End Clerk.
Arguments Clerk : clear implicits.

(** ** [server.go] *)

Section Server.

(** The commands of the replicated log; [Op] is an empty struct. *)
Inductive Op := mkOp.

Record ShardCtrler := mkShardCtrler { sc_me : Z; sc_rf : Raft Op; sc_configs : list Config }.

(** The handlers leave the reply as it is. *)
Definition ShardCtrler_Join (args : JoinArgs) (reply : JoinReply) (sc : ShardCtrler) : ShardCtrler * JoinReply := (sc, reply).
Definition ShardCtrler_Leave (args : LeaveArgs) (reply : LeaveReply) (sc : ShardCtrler) : ShardCtrler * LeaveReply := (sc, reply).
Definition ShardCtrler_Move (args : MoveArgs) (reply : MoveReply) (sc : ShardCtrler) : ShardCtrler * MoveReply := (sc, reply).
Definition ShardCtrler_Query (args : QueryArgs) (reply : QueryReply) (sc : ShardCtrler) : ShardCtrler * QueryReply := (sc, reply).

Definition ShardCtrler_Kill (sc : ShardCtrler) : ShardCtrler := mkShardCtrler (sc_me sc) (Kill (sc_rf sc)) (sc_configs sc).
Definition ShardCtrler_Raft (sc : ShardCtrler) : Raft Op := sc_rf sc.

(** [data] is what the persister holds, [r] feeds the timer. *)
Definition StartServer (r nservers me : Z) (data : list Byte.byte) : ShardCtrler :=
  mkShardCtrler me (Make r nservers me data) [zero_config].

(** The reply a handler is given. *)
Definition zero_reply (m : Rpc) : Reply m :=
  match m with
  | RQuery => mkQueryReply false "" zero_config
  | RJoin => mkJoinReply false "" | RLeave => mkLeaveReply false "" | RMove => mkMoveReply false ""
  end.

(** What a replica of this source answers. *)
Definition serve (m : Rpc) : Args m → ShardCtrler → ShardCtrler * Reply m :=
  match m return Args m → ShardCtrler → ShardCtrler * Reply m with
  | RQuery => λ args, ShardCtrler_Query args (zero_reply RQuery)
  | RJoin => λ args, ShardCtrler_Join args (zero_reply RJoin)
  | RLeave => λ args, ShardCtrler_Leave args (zero_reply RLeave)
  | RMove => λ args, ShardCtrler_Move args (zero_reply RMove)
  end.
End Server.
End Shardctrler.
