(* ===== verification/Shardkv.v ===== *)
(** * The sharded key/value service: [shardkv/common.go], [client.go], [server.go]

    The clerk finds the group of a key in its copy of the configuration, tries the
    servers of the group one after the other, and asks the controller for a new
    configuration when none of them answers.  The server's handlers are empty in
    the source. *)

From Stdlib Require Import Ascii.
From S2P Require Import Prelude RaftServer Shardctrler.

Module Shardkv.
Import RaftServer.

(** ** [common.go] *)

Definition OK : string := "OK".
Definition ErrNoKey : string := "ErrNoKey".
Definition ErrWrongGroup : string := "ErrWrongGroup".
Definition ErrWrongLeader : string := "ErrWrongLeader".

Record PutAppendArgs := mkPutAppendArgs { pa_Key : string; pa_Value : string; pa_Op : string }.
Record PutAppendReply := mkPutAppendReply { pr_Err : string }.
Record GetArgs := mkGetArgs { ga_Key : string }.
Record GetReply := mkGetReply { gr_Err : string; gr_Value : string }.

(** ** [client.go] *)

(** The shard of a key: its first byte. *)
Definition key2shard (key : string) : Z :=
  let shard := match key with EmptyString => 0 | String c _ => Z.of_N (N_of_ascii c) end in
  Z.rem shard Shardctrler.NShards.

(** RPCs to key/value servers, and [make_end]. *)
Class KvServers (W End : Type) := {
  CallGet : End → GetArgs → W → W * option GetReply;
  CallPutAppend : End → PutAppendArgs → W → W * option PutAppendReply;
  make_end : string → W → W * End
}.

(** What one pass over the servers of a group comes to. *)
Inductive Pass (A : Type) := Answered (a : A) | WrongGroup | NoAnswer.
Arguments Answered {A}. Arguments WrongGroup {A}. Arguments NoAnswer {A}.

(** What has become of a call after some rounds. *)
Inductive Outcome (A : Type) := Returned (a : A) | Trying | Panicked.
Arguments Returned {A}. Arguments Trying {A}. Arguments Panicked {A}.

Section Clerk.
Context {W End : Type} `{Shardctrler.Ctrlers W End, KvServers W End}.

Record Clerk := mkClerk { sm : Shardctrler.Clerk End; config : Shardctrler.Config }.
Definition MakeClerk (ctrlers : list End) : Clerk := mkClerk (Shardctrler.MakeClerk ctrlers) Shardctrler.zero_config.

(** [ck.config.Groups[ck.config.Shards[key2shard(key)]]]; the outer [None] is an
    index out of range. *)
Definition group_of (key : string) (cfg : Shardctrler.Config) : option (option (list string)) :=
  gid ← (Shardctrler.Shards cfg)@[key2shard key];
  Some (Shardctrler.Groups cfg !! gid).

Fixpoint get_pass (args : GetArgs) (srvs : list string) (w : W) : W * Pass string :=
  match srvs with
  | [] => (w, NoAnswer)
  | name :: srvs =>
      let '(w, srv) := make_end name w in
      let '(w, reply) := CallGet srv args w in
      match reply with
      | Some r =>
          if String.eqb (gr_Err r) OK || String.eqb (gr_Err r) ErrNoKey then (w, Answered (gr_Value r))
          else if String.eqb (gr_Err r) ErrWrongGroup then (w, WrongGroup)
          else get_pass args srvs w
      | None => get_pass args srvs w
      end
  end.

Fixpoint put_pass (args : PutAppendArgs) (srvs : list string) (w : W) : W * Pass unit :=
  match srvs with
  | [] => (w, NoAnswer)
  | name :: srvs =>
      let '(w, srv) := make_end name w in
      let '(w, reply) := CallPutAppend srv args w in
      match reply with
      | Some r =>
          if String.eqb (pr_Err r) OK then (w, Answered tt)
          else if String.eqb (pr_Err r) ErrWrongGroup then (w, WrongGroup)
          else put_pass args srvs w
      | None => put_pass args srvs w
      end
  end.

(** The endless loop of [Get] and [PutAppend], for [rounds] rounds; each call to
    the controller gets [qrounds] rounds of its own. *)
Fixpoint kv_loop {A} (pass : list string → W → W * Pass A) (rounds qrounds : nat) (key : string) (ck : Clerk) (w : W)
  : W * Clerk * Outcome A :=
  match rounds with
  | O => (w, ck, Trying)
  | S rounds =>
      match group_of key (config ck) with
      | None => (w, ck, Panicked)
      | Some grp =>
          let '(w, res) := match grp with Some srvs => pass srvs w | None => (w, NoAnswer) end in
          match res with
          | Answered a => (w, ck, Returned a)
          | _ =>
              let '(w, cfg) := Shardctrler.Query qrounds (-1) (sm ck) (Shardctrler.Sleep w) in
              match cfg with
              | Some cfg => kv_loop pass rounds qrounds key (mkClerk (sm ck) cfg) w
              | None => (w, ck, Trying)
              end
          end
      end
  end.

Definition Get (rounds qrounds : nat) (key : string) (ck : Clerk) (w : W) : W * Clerk * Outcome string :=
  kv_loop (get_pass (mkGetArgs key)) rounds qrounds key ck w.

Definition PutAppend (rounds qrounds : nat) (key value op : string) (ck : Clerk) (w : W) : W * Clerk * Outcome unit :=
  kv_loop (put_pass (mkPutAppendArgs key value op)) rounds qrounds key ck w.

Definition Put (rounds qrounds : nat) (key value : string) (ck : Clerk) (w : W) := PutAppend rounds qrounds key value "Put" ck w.
Definition Append (rounds qrounds : nat) (key value : string) (ck : Clerk) (w : W) := PutAppend rounds qrounds key value "Append" ck w.
End Clerk.
Arguments Clerk : clear implicits.

(** ** [server.go] *)

Inductive Op := mkOp.

Record ShardKV := mkShardKV { kv_me : Z; kv_rf : Raft Op; kv_gid : Z; kv_maxraftstate : Z }.

(** The handlers leave the reply as it is. *)
Definition ShardKV_Get (args : GetArgs) (reply : GetReply) (kv : ShardKV) : ShardKV * GetReply := (kv, reply).
Definition ShardKV_PutAppend (args : PutAppendArgs) (reply : PutAppendReply) (kv : ShardKV) : ShardKV * PutAppendReply := (kv, reply).
Definition ShardKV_Kill (kv : ShardKV) : ShardKV := mkShardKV (kv_me kv) (Kill (kv_rf kv)) (kv_gid kv) (kv_maxraftstate kv).
Definition StartServer (r nservers me : Z) (data : list Byte.byte) (maxraftstate gid : Z) : ShardKV :=
  mkShardKV me (Make r nservers me data) gid maxraftstate.
End Shardkv.
