(* ===== verification/ShardTheorems.v ===== *)
(** * Theorems about the clerks of the shard controller and the sharded service

    What a clerk's [Get] may return and that it never panics, that it returns once
    the system has settled, and that against the empty handlers of the source it
    never does. *)

From Stdlib Require Import Ascii.
From S2P Require Import Prelude RaftServer Shardctrler Shardkv.

Module ShardTheorems.
Import Shardctrler Shardkv.

Lemma key2shard_range key : 0 <= key2shard key < NShards.
Proof.
  unfold key2shard, NShards. apply Z.rem_bound_pos; [|lia]. destruct key; [lia|]. apply N2Z.is_nonneg.
Qed.

Definition wf_config (cfg : Shardctrler.Config) : Prop := len (Shards cfg) = NShards.

Lemma group_of_total key cfg : wf_config cfg → ∃ g, group_of key cfg = Some g.
Proof.
  intros Hwf. unfold group_of. destruct (idx_in_range (Shards cfg) (key2shard key)) as [gid ->]; [|by eexists].
  rewrite Hwf. apply key2shard_range.
Qed.

Section Clerks.
Context {W End : Type} `{Ctrlers W End, KvServers W End}.
Implicit Types w : W.

(** ** The controller's clerk *)

Lemma sweep_Some m args srvs w w' r : sweep m args srvs w = (w', Some r) →
  ∃ e w1, e ∈ srvs ∧ Call m e args w1 = (w', Some r) ∧ WrongLeader m r = false.
Proof.
  revert w. induction srvs as [|e srvs IH]; intros w E; simpl in E; [done|].
  destruct (Call m e args w) as [w1 [r1|]] eqn:Ec; [destruct (WrongLeader m r1) eqn:El; simpl in E|].
  - apply IH in E as (e'&w2&?&?&?). exists e', w2. split; [by right|done].
  - simplify_eq. exists e, w. split; [by left|done].
  - apply IH in E as (e'&w2&?&?&?). exists e', w2. split; [by right|done].
Qed.

Lemma retry_Some rounds m args srvs w w' r : retry rounds m args srvs w = (w', Some r) →
  ∃ e w1, e ∈ srvs ∧ Call m e args w1 = (w', Some r) ∧ WrongLeader m r = false.
Proof.
  revert w. induction rounds as [|rounds IH]; intros w E; simpl in E; [done|].
  destruct (sweep m args srvs w) as [w1 [r1|]] eqn:Es; [|by apply IH in E]. simplify_eq. by eapply sweep_Some.
Qed.

(** A configuration the clerk got from a leader. *)
Definition queried (ck : Clerk End) (cfg : Shardctrler.Config) : Prop :=
  ∃ e w1 w2 q, e ∈ servers (sm ck) ∧ Call RQuery e (mkQueryArgs (-1)) w1 = (w2, Some q) ∧
    qr_WrongLeader q = false ∧ qr_Config q = cfg.

Lemma Query_Some rounds ck w w' cfg : Query rounds (-1) (sm ck) w = (w', Some cfg) → queried ck cfg.
Proof.
  unfold Query. intros E. destruct (retry rounds RQuery _ _ w) as [w1 [r|]] eqn:Er; simplify_eq/=.
  apply (retry_Some rounds RQuery) in Er as (e&w2&?&?&?). by exists e, w2, w', r.
Qed.

(** ** The loop of [Get] and [PutAppend] *)

Lemma kv_loop_Returned {A} (pass : list string → W → W * Pass A) rounds qrounds key ck w w' ck' a :
  kv_loop pass rounds qrounds key ck w = (w', ck', Returned a) →
  sm ck' = sm ck ∧ (ck' = ck ∨ queried ck (config ck')) ∧
  ∃ srvs w1, group_of key (config ck') = Some (Some srvs) ∧ pass srvs w1 = (w', Answered a).
Proof.
  revert ck w. induction rounds as [|rounds IH]; intros ck w E; simpl in E; [done|].
  destruct (group_of key (config ck)) as [g|] eqn:Eg; [|done].
  destruct (match g with Some srvs => pass srvs w | None => (w, NoAnswer) end) as [w1 res] eqn:Ep.
  assert (Hnext : (let '(w0, cfg) := Query qrounds (-1) (sm ck) (Sleep w1) in
      match cfg with Some cfg => kv_loop pass rounds qrounds key (mkClerk (sm ck) cfg) w0 | None => (w0, ck, Trying) end)
        = (w', ck', Returned a) → sm ck' = sm ck ∧ (ck' = ck ∨ queried ck (config ck')) ∧
      ∃ srvs w1, group_of key (config ck') = Some (Some srvs) ∧ pass srvs w1 = (w', Answered a)).
  { destruct (Query qrounds (-1) (sm ck) (Sleep w1)) as [w2 [cfg|]] eqn:Eq; [|done]. intros E'.
    apply IH in E' as (Hsm&Hck&Hp). simpl in Hsm. split; [done|]. split; [|done]. right.
    destruct Hck as [->|Hq]; [by eapply Query_Some|done]. }
  destruct res as [a'| |]; [|by apply Hnext..]. simplify_eq. split; [done|]. split; [by left|].
  destruct g as [srvs|]; [|done]. by exists srvs, w.
Qed.

Lemma kv_loop_never_panics {A} (pass : list string → W → W * Pass A) rounds qrounds key ck w :
  wf_config (config ck) → (∀ cfg, queried ck cfg → wf_config cfg) → (kv_loop pass rounds qrounds key ck w).2 ≠ Panicked.
Proof.
  revert ck w. induction rounds as [|rounds IH]; intros ck w Hwf Hq; simpl; [done|].
  destruct (group_of_total key _ Hwf) as [g ->].
  destruct (match g with Some srvs => pass srvs w | None => (w, NoAnswer) end) as [w1 [a| |]]; [done|..];
    (destruct (Query qrounds (-1) (sm ck) (Sleep w1)) as [w2 [cfg|]] eqn:Eq; [|done];
     apply IH; simpl; [by eapply Hq, Query_Some|]; intros cfg' Hq'; by apply Hq).
Qed.

Lemma get_pass_Answered args srvs w w' v : get_pass args srvs w = (w', Answered v) →
  ∃ name w1 w2 srv r, name ∈ srvs ∧ make_end name w1 = (w2, srv) ∧ CallGet srv args w2 = (w', Some r) ∧
    (gr_Err r = OK ∨ gr_Err r = ErrNoKey) ∧ gr_Value r = v.
Proof.
  revert w. induction srvs as [|name srvs IH]; intros w E; simpl in E; [done|].
  assert (Hrec : ∀ w0, get_pass args srvs w0 = (w', Answered v) → ∃ name0 w1 w2 srv r, name0 ∈ name :: srvs ∧
    make_end name0 w1 = (w2, srv) ∧ CallGet srv args w2 = (w', Some r) ∧
    (gr_Err r = OK ∨ gr_Err r = ErrNoKey) ∧ gr_Value r = v).
  { intros w0 (nm&w1&w2&srv&r&?&?)%IH. exists nm, w1, w2, srv, r. split; [by right|done]. }
  destruct (make_end name w) as [w1 srv] eqn:Em, (CallGet srv args w1) as [w2 [r|]] eqn:Ec; [|by eauto].
  destruct (String.eqb_spec (gr_Err r) OK) as [Hok|]; [|destruct (String.eqb_spec (gr_Err r) ErrNoKey) as [Hno|]]; simpl in E.
  - simplify_eq. exists name, w, w1, srv, r. split; [by left|]. auto.
  - simplify_eq. exists name, w, w1, srv, r. split; [by left|]. auto.
  - destruct (String.eqb (gr_Err r) ErrWrongGroup); [done|eauto].
Qed.

(** C31: [Get] never panics and returns only what an owner of the key answered:
    [key2shard] always falls within the array of shards, and a value that [Get]
    returns was sent, with OK or ErrNoKey, by a server of the group that holds the
    key's shard in the configuration the clerk ends with, which is the one it began
    with or one that a leader of the controller gave it. *)
Theorem Get_returns_owners_answer rounds qrounds key ck w :
  wf_config (config ck) → (∀ cfg, queried ck cfg → wf_config cfg) →
  (Get rounds qrounds key ck w).2 ≠ Panicked ∧
  ∀ w' ck' v, Get rounds qrounds key ck w = (w', ck', Returned v) →
    (ck' = ck ∨ queried ck (config ck')) ∧
    ∃ srvs name w1 w2 srv r, group_of key (config ck') = Some (Some srvs) ∧ name ∈ srvs ∧
      make_end name w1 = (w2, srv) ∧ CallGet srv (mkGetArgs key) w2 = (w', Some r) ∧
      (gr_Err r = OK ∨ gr_Err r = ErrNoKey) ∧ gr_Value r = v.
Proof.
  intros Hwf Hq. split; [by apply kv_loop_never_panics|]. intros w' ck' v E.
  apply kv_loop_Returned in E as (_&Hck&srvs&w0&Hg&Hp). split; [done|].
  apply get_pass_Answered in Hp as (name&w1&w2&srv&r&?&?). by exists srvs, name, w1, w2, srv, r.
Qed.

(** ** A settled system *)

(** In the worlds of [P], which no call leaves, some replica of the controller
    leads and all that answer give [cfg]; no server of the key's group in [cfg]
    disowns the key, one of them always answers, and every answer to the key is
    [v]. *)
Record settled (P : W → Prop) (ctrlers : list End) (cfg : Shardctrler.Config) (key v : string) (srvs : list string) : Prop := {
  se_sleep w : P w → P (Sleep w);
  se_end w name : P w → P (make_end name w).1;
  se_get w srv args : P w → P (CallGet srv args w).1;
  se_ctrl w m e args : P w → P (Call m e args w).1;
  se_cfg w e r : P w → e ∈ ctrlers → (Call RQuery e (mkQueryArgs (-1)) w).2 = Some r → qr_WrongLeader r = false → qr_Config r = cfg;
  se_leader : ∃ e, e ∈ ctrlers ∧ ∀ w, P w → ∃ r, (Call RQuery e (mkQueryArgs (-1)) w).2 = Some r ∧ qr_WrongLeader r = false;
  se_group : group_of key cfg = Some (Some srvs);
  se_owner w srv r : P w → (CallGet srv (mkGetArgs key) w).2 = Some r →
    ((gr_Err r = OK ∨ gr_Err r = ErrNoKey) → gr_Value r = v) ;
  se_keep w name r : P w → name ∈ srvs →
    (CallGet (make_end name w).2 (mkGetArgs key) (make_end name w).1).2 = Some r → gr_Err r ≠ ErrWrongGroup;
  se_server : ∃ name, name ∈ srvs ∧ ∀ w, P w →
    ∃ r, (CallGet (make_end name w).2 (mkGetArgs key) (make_end name w).1).2 = Some r ∧ (gr_Err r = OK ∨ gr_Err r = ErrNoKey)
}.

Section Settled.
Context (P : W → Prop) (ctrlers : list End) (cfg : Shardctrler.Config) (key v : string) (srvs : list string).
Context (S : settled P ctrlers cfg key v srvs).

Lemma settled_sweep w es : P w → (∀ e, e ∈ es → e ∈ ctrlers) →
  (∃ e, e ∈ es ∧ ∀ w, P w → ∃ r, (Call RQuery e (mkQueryArgs (-1)) w).2 = Some r ∧ qr_WrongLeader r = false) →
  ∃ w' r, sweep RQuery (mkQueryArgs (-1)) es w = (w', Some r) ∧ qr_Config r = cfg ∧ P w'.
Proof using S.
  revert w. induction es as [|e es IH]; intros w Hw Hsub (e0&He0&Hl); [by apply not_elem_of_nil in He0|].
  cbn [sweep]. pose proof (se_ctrl _ _ _ _ _ _ S w RQuery e (mkQueryArgs (-1)) Hw) as Hw1.
  pose proof (se_cfg _ _ _ _ _ _ S w e) as Hcfg. specialize (Hl w Hw) as Hle.
  destruct (Call RQuery e (mkQueryArgs (-1)) w) as [w1 [r|]] eqn:Ec; simpl in *.
  - destruct (qr_WrongLeader r) eqn:El; simpl.
    + apply IH; [done|intros x Hx; apply Hsub; by right|]. exists e0. split; [|done].
      apply elem_of_cons in He0 as [->|?]; [|done]. rewrite Ec in Hle. destruct Hle as (r'&[= <-]&?). congruence.
    + exists w1, r. split; [done|]. split; [|done]. apply Hcfg; [done|apply Hsub; by left|done|done].
  - apply IH; [done|intros x Hx; apply Hsub; by right|]. exists e0. split; [|done].
    apply elem_of_cons in He0 as [->|?]; [|done]. rewrite Ec in Hle. by destruct Hle as (r'&?&_).
Qed.

(** A pass over servers that never disown the key returns [v] or nothing. *)
Lemma settled_pass w names : P w →
  (∃ w', P w' ∧ (get_pass (mkGetArgs key) names w = (w', Answered v) ∨
    (get_pass (mkGetArgs key) names w).1 = w' ∧ ((get_pass (mkGetArgs key) names w).2 = WrongGroup ∨
       (get_pass (mkGetArgs key) names w).2 = NoAnswer))).
Proof using S.
  revert w. induction names as [|name names IH]; intros w Hw; [exists w; cbn; auto|]. cbn [get_pass].
  pose proof (se_end _ _ _ _ _ _ S w name Hw) as Hw1. destruct (make_end name w) as [w1 srv]. simpl in Hw1.
  pose proof (se_get _ _ _ _ _ _ S w1 srv (mkGetArgs key) Hw1) as Hw2.
  pose proof (se_owner _ _ _ _ _ _ S w1 srv) as Ho.
  destruct (CallGet srv (mkGetArgs key) w1) as [w2 [r|]]; simpl in *; [|by apply IH].
  destruct (String.eqb_spec (gr_Err r) OK) as [Hok|]; [|destruct (String.eqb_spec (gr_Err r) ErrNoKey) as [Hno|]]; simpl.
  - exists w2. split; [done|]. left. by rewrite (Ho r Hw1 eq_refl (or_introl Hok)).
  - exists w2. split; [done|]. left. by rewrite (Ho r Hw1 eq_refl (or_intror Hno)).
  - destruct (String.eqb (gr_Err r) ErrWrongGroup); [|by apply IH]. exists w2. split; [done|]. right. auto.
Qed.

Lemma settled_owner w names : P w → (∀ name, name ∈ names → name ∈ srvs) →
  (∃ name, name ∈ names ∧ ∀ w, P w → ∃ r,
    (CallGet (make_end name w).2 (mkGetArgs key) (make_end name w).1).2 = Some r ∧ (gr_Err r = OK ∨ gr_Err r = ErrNoKey)) →
  ∃ w', get_pass (mkGetArgs key) names w = (w', Answered v).
Proof using S.
  revert w. induction names as [|name names IH]; intros w Hw Hsub (n0&Hn0&Hans); [by apply not_elem_of_nil in Hn0|].
  cbn [get_pass]. pose proof (se_end _ _ _ _ _ _ S w name Hw) as Hw1.
  pose proof (se_keep _ _ _ _ _ _ S w name) as Hk. specialize (Hans w Hw) as Ha.
  destruct (make_end name w) as [w1 srv] eqn:Em. simpl in *.
  pose proof (se_get _ _ _ _ _ _ S w1 srv (mkGetArgs key) Hw1) as Hw2.
  pose proof (se_owner _ _ _ _ _ _ S w1 srv) as Ho.
  assert (Hrest : (name = n0 → False) → ∀ w0, P w0 → ∃ w', get_pass (mkGetArgs key) names w0 = (w', Answered v)).
  { intros Hne w0 Hw0. apply IH; [done|intros x Hx; apply Hsub; by right|]. exists n0. split; [|done].
    apply elem_of_cons in Hn0 as [->|?]; [by destruct Hne|done]. }
  destruct (CallGet srv (mkGetArgs key) w1) as [w2 [r|]] eqn:Ec; simpl in *.
  - destruct (String.eqb_spec (gr_Err r) OK) as [Hok|Hok]; [|destruct (String.eqb_spec (gr_Err r) ErrNoKey) as [Hno|Hno]]; simpl.
    + exists w2. by rewrite (Ho r Hw1 eq_refl (or_introl Hok)).
    + exists w2. by rewrite (Ho r Hw1 eq_refl (or_intror Hno)).
    + destruct (String.eqb_spec (gr_Err r) ErrWrongGroup) as [Hg|Hg].
      { exfalso. eapply Hk; [done|apply Hsub; by left|done|done]. }
      apply Hrest; [|done]. intros <-. rewrite Em in Ha. simpl in Ha. rewrite Ec in Ha. destruct Ha as (r'&[= <-]&[?|?]); done.
  - apply Hrest; [|done]. intros <-. rewrite Em in Ha. simpl in Ha. rewrite Ec in Ha. by destruct Ha as (r'&?&_).
Qed.
End Settled.

(** C30: [Get] succeeds once the system has settled: with whatever configuration the
    clerk starts, one round with it, one question to the controller and one more
    round are enough to return the value of the key. *)
Theorem Get_returns_when_settled P cfg key v srvs ck w :
  settled P (servers (sm ck)) cfg key v srvs → wf_config (config ck) → P w →
  ∃ w' ck', Get 2 1 key ck w = (w', ck', Returned v).
Proof.
  intros HS Hwf Hw. unfold Get. cbn [kv_loop]. destruct (group_of_total key _ Hwf) as [g ->].
  assert (Hfirst : ∃ w1 res, match g with Some s => get_pass (mkGetArgs key) s w | None => (w, NoAnswer) end = (w1, res) ∧
    P w1 ∧ (res = Answered v ∨ res = WrongGroup ∨ res = NoAnswer)).
  { destruct g as [names|]; [|by exists w, NoAnswer; auto].
    destruct (settled_pass _ _ _ _ _ _ HS w names Hw) as (w1&Hw1&[E|[Ew Hr]]); [by exists w1, (Answered v); auto|].
    subst w1.
    exists (get_pass (mkGetArgs key) names w).1, (get_pass (mkGetArgs key) names w).2. split; [by destruct (get_pass _ _ _)|auto]. }
  destruct Hfirst as (w1&res&->&Hw1&Hres).
  destruct (settled_sweep _ _ _ _ _ _ HS (Sleep w1) (servers (sm ck))) as (w2&q&Eq&Hcfg&Hw2);
    [by apply (se_sleep _ _ _ _ _ _ HS)|done|apply (se_leader _ _ _ _ _ _ HS)|].
  assert (HQ : Query 1 (-1) (sm ck) (Sleep w1) = (w2, Some cfg)).
  { unfold Query. cbn [retry]. rewrite Eq. simpl. by rewrite Hcfg. }
  destruct (settled_owner _ _ _ _ _ _ HS w2 srvs Hw2) as (w3&E3); [done|apply (se_server _ _ _ _ _ _ HS)|].
  destruct Hres as [-> | [-> | ->]]; [by eauto|..];
    (rewrite HQ; cbn [config]; rewrite (se_group _ _ _ _ _ _ HS), E3; eauto).
Qed.

(** The handlers of the source answer nothing of use: as long as the controller's
    replies are those of its empty [Query], a new clerk's [Get] never returns. *)
Lemma stub_Get_never_returns ctrlers rounds qrounds key w :
  (∀ e w1 q, (Call RQuery e (mkQueryArgs (-1)) w1).2 = Some q → ∃ sc, q = (serve RQuery (mkQueryArgs (-1)) sc).2) →
  (Get rounds qrounds key (Shardkv.MakeClerk ctrlers) w).2 = Trying.
Proof.
  intros Hstub. unfold Get, Shardkv.MakeClerk. revert w.
  assert (Hg : group_of key zero_config = Some None).
  { unfold group_of. destruct (idx_in_range (Shards zero_config) (key2shard key)) as [gid Hgid]; [apply key2shard_range|].
    rewrite Hgid. cbn. by rewrite lookup_empty. }
  induction rounds as [|rounds IH]; intros w; cbn [kv_loop config]; [done|]. rewrite Hg.
  destruct (Query qrounds (-1) _ (Sleep w)) as [w1 [cfg|]] eqn:Eq; [|done].
  unfold Query in Eq. destruct (retry qrounds RQuery _ _ _) as [w2 [q|]] eqn:Er; simplify_eq/=.
  apply (retry_Some qrounds RQuery) in Er as (e&w3&_&Hc&_).
  destruct (Hstub e w3 q) as [sc ->]; [by rewrite Hc|]. apply IH.
Qed.
End Clerks.

(** ** A concrete system *)

(** Two replicas of the controller, the second of which leads; one group of two
    servers, the first of which is down; the world counts the calls. *)
Definition demo_config : Shardctrler.Config :=
  mkConfig 1 (replicate 10 100) {[ 100 := ["s0"; "s1"] ]}.

#[local] Instance demo_ctrlers : Ctrlers nat string := {
  Call m e args w := (S w, match m return option (Reply m) with
    | RQuery => Some (mkQueryReply (String.eqb e "c0") "" demo_config) | m => Some (zero_reply m) end);
  Sleep := id
}.

#[local] Instance demo_servers : KvServers nat string := {
  CallGet e args w := (S w, if String.eqb e "s1" then Some (mkGetReply OK "blue") else None);
  CallPutAppend e args w := (S w, Some (mkPutAppendReply OK));
  make_end name w := (w, name)
}.

Definition demo_clerk : Shardkv.Clerk string := Shardkv.MakeClerk ["c0"; "c1"].

Lemma demo_wf cfg : queried demo_clerk cfg → wf_config cfg.
Proof. intros (e&w1&w2&q&_&[= _ <-]&_&<-). reflexivity. Qed.

(** The clerk starts without a configuration; it asks both replicas, tries both
    servers and returns: four calls. *)
Lemma Get_returns_owners_answer_witness :
  Get 2 1 "colour" demo_clerk 0%nat = (4%nat, mkClerk (sm demo_clerk) demo_config, Returned "blue") ∧
  ∃ srvs name w1 w2 srv r, group_of "colour" demo_config = Some (Some srvs) ∧ name ∈ srvs ∧
    make_end name w1 = (w2, srv) ∧ CallGet srv (mkGetArgs "colour") w2 = (4%nat, Some r) ∧
    (gr_Err r = OK ∨ gr_Err r = ErrNoKey) ∧ gr_Value r = "blue".
Proof.
  assert (E : Get 2 1 "colour" demo_clerk 0%nat = (4%nat, mkClerk (sm demo_clerk) demo_config, Returned "blue")) by (vm_compute; reflexivity).
  split; [exact E|].
  exact (proj2 (proj2 (Get_returns_owners_answer 2 1 "colour" demo_clerk 0%nat eq_refl demo_wf) _ _ _ E)).
Defined.

Lemma demo_settled : settled (λ _ : nat, True) ["c0"; "c1"] demo_config "colour" "blue" ["s0"; "s1"].
Proof.
  split; try done.
  - by intros w e r _ _ [= <-] _.
  - exists "c1". split; [set_solver|]. intros w _. eexists. by split.
  - intros w srv r _. simpl. destruct (String.eqb srv "s1"); [|done]. by intros [= <-].
  - intros w name r _ _. simpl. destruct (String.eqb name "s1"); [|done]. by intros [= <-].
  - exists "s1". split; [set_solver|]. intros w _. eexists. split; [done|]. by left.
Qed.

Lemma Get_returns_when_settled_witness : ∃ w' ck', Get 2 1 "colour" demo_clerk 7%nat = (w', ck', Returned "blue").
Proof.
  exact (Get_returns_when_settled (λ _ : nat, True) demo_config "colour" "blue" ["s0"; "s1"] demo_clerk 7%nat demo_settled eq_refl I).
Defined.
End ShardTheorems.
