(* ===== verification/ServiceConfig.v ===== *)
(** * The test harness of the replicated services: [kvraft/config.go]

    [shardctrler/config.go] is a copy of [kvraft/config.go] for another server; what
    the two share is written once, for any server that can be killed and has a Raft
    peer ([Replica]).  [KvraftConfig] and [ShardctrlerConfig] add what differs.

    Server objects, persisters and clerks are shared with running goroutines: they
    live in stores, and a pointer is a position in one.  A server object carries the
    persister it was started with, to which it may write for as long as it runs,
    also after the harness has given it up.  Random names and numbers are
    arguments. *)

From S2P Require Import Prelude RaftServer LabRpc RaftTester.

Module ServiceConfig.
Import RaftServer LabRpc.
Import RaftTester.

(** ** Random choices *)

(** [rand.Intn(k)], for a raw random number [r]. *)
Definition Intn (r k : Z) : Z := r mod k.

(** [l[i], l[j] = l[j], l[i]] *)
Definition swap {A} (i j : Z) (l : list A) : Res (list A) :=
  x ← try (l@[j]); y ← try (l@[i]);
  l ← try (upd l i x); try (upd l j y).

Definition random_handles {A} (rnd : Z → Z) (kvh : list A) : Res (list A) :=
  for_each (seqZ 0 (len kvh)) (λ i sa, swap i (Intn (rnd i) (i + 1)) sa) kvh.

(** ** The configuration *)

(** What the harness needs of a server. *)
Class Replica (Srv Cmd : Type) := {
  sv_Kill : Srv → Srv;
  sv_rf : Srv → Raft Cmd
}.

Section Service.
Context {Srv Cmd W : Type} `{Replica Srv Cmd}.
Notation Net := (Network NetName W).

(** Reflection over the methods of a server object and of its Raft peer. *)
Context (kv_service rf_service : nat → Service W).

Record Object := mkObject { ob_server : Srv; ob_persister : nat }.

Record config := mkConfig {
  net : Net;
  n : Z;
  servers : list (option nat);                (* pointers to server objects, or nil *)
  saved : list (option nat);                  (* pointers to persisters, or nil *)
  endnames : list (option (list string));     (* None is nil *)
  clerks : gmap nat (list string);            (* by clerk pointer *)
  nextClientId : Z;
  objects : list Object;
  persisters : list Persister;
  clerk_ends : list (list string)             (* the clerks' handles *)
}.

Definition with_net v (c : config) := mkConfig v (n c) (servers c) (saved c) (endnames c) (clerks c) (nextClientId c) (objects c) (persisters c) (clerk_ends c).
Definition with_endnames v (c : config) := mkConfig (net c) (n c) (servers c) (saved c) v (clerks c) (nextClientId c) (objects c) (persisters c) (clerk_ends c).
Definition with_servers v h (c : config) := mkConfig (net c) (n c) v (saved c) (endnames c) (clerks c) (nextClientId c) h (persisters c) (clerk_ends c).
Definition with_saved v h (c : config) := mkConfig (net c) (n c) (servers c) v (endnames c) (clerks c) (nextClientId c) (objects c) h (clerk_ends c).
Definition with_clerks v i h (c : config) := mkConfig (net c) (n c) (servers c) (saved c) (endnames c) v i (objects c) (persisters c) h.

Definition enable (endname : string) (yes : bool) (c : config) : config :=
  with_net (Enable (EndName endname) yes (net c)) c.

(** [cfg.endnames[i][j]]; indexing a nil slice panics. *)
Definition end_of (c : config) (i j : Z) : Res string :=
  names ← try ((endnames c)@[i]); try (default [] names)@[j].

(** ** Connections between servers *)

Definition connectUnlocked (i : Z) (to : list Z) (c : config) : Res config :=
  c ← for_each to (λ k c, e ← end_of c i k; Ret (enable e true c)) c;
  for_each to (λ k c, e ← end_of c k i; Ret (enable e true c)) c.

(** The second loop tests [endnames[j]] for nil, and indexes [endnames[from[j]]]. *)
Definition disconnectUnlocked (i : Z) (from : list Z) (c : config) : Res config :=
  c ← for_each from (λ k c,
        names ← try ((endnames c)@[i]);
        match names with Some _ => e ← end_of c i k; Ret (enable e false c) | None => Ret c end) c;
  for_each (seqZ 0 (len from)) (λ j c,
        names ← try ((endnames c)@[j]);
        match names with
        | Some _ => k ← try (from@[j]); e ← end_of c k i; Ret (enable e false c)
        | None => Ret c
        end) c.

(** The same under the mutex of the harness. *)
Definition connect (i : Z) (to : list Z) (c : config) : Res config := connectUnlocked i to c.
Definition disconnect (i : Z) (from : list Z) (c : config) : Res config := disconnectUnlocked i from c.

Definition All (c : config) : list Z := seqZ 0 (n c).

Definition ConnectAll (c : config) : Res config :=
  for_each (seqZ 0 (n c)) (λ i c, connectUnlocked i (All c) c) c.

Definition partition (p1 p2 : list Z) (c : config) : Res config :=
  c ← for_each p1 (λ i c, c ← disconnectUnlocked i p2 c; connectUnlocked i p1 c) c;
  for_each p2 (λ i c, c ← disconnectUnlocked i p1 c; connectUnlocked i p2 c) c.

(** ** Clients *)

(** A fresh end, connected to server [j]. *)
Definition make_end (endname : string) (j : Z) (c : config) : Res config :=
  match MakeEnd (EndName endname) (net c) with
  | None => Fatal DuplicateEnd
  | Some nt => Ret (with_net (Connect (EndName endname) (ServerName j) nt) c)
  end.

Definition set_client (yes : bool) (ck : nat) (js : list Z) (c : config) : Res config :=
  let names := default [] (clerks c !! ck) in
  for_each js (λ j c, s ← try (names@[j]); Ret (enable s yes c)) c.

Definition ConnectClientUnlocked (ck : nat) (to : list Z) (c : config) : Res config := set_client true ck to c.
Definition DisconnectClientUnlocked (ck : nat) (from : list Z) (c : config) : Res config := set_client false ck from c.

Definition ConnectClient (ck : nat) (to : list Z) (c : config) : Res config := ConnectClientUnlocked ck to c.
Definition DisconnectClient (ck : nat) (from : list Z) (c : config) : Res config := DisconnectClientUnlocked ck from c.

(** [names] are the results of [randstring], [rnd] those of [rand]. *)
Definition makeClient (names : list string) (rnd : Z → Z) (to : list Z) (c : config) : Res (config * nat) :=
  let names := take (Z.to_nat (n c)) names in
  c ← for_each (seqZ 0 (n c)) (λ j c, e ← try (names@[j]); make_end e j c) c;
  hs ← random_handles rnd names;
  let ck := length (clerk_ends c) in
  let c := with_clerks (<[ck := names]> (clerks c)) (nextClientId c + 1) (clerk_ends c ++ [hs]) c in
  c ← ConnectClientUnlocked ck to c;
  Ret (c, ck).

(** The files [os.Remove] is asked to remove do not exist. *)
Definition deleteClient (ck : nat) (c : config) : config :=
  with_clerks (delete ck (clerks c)) (nextClientId c) (clerk_ends c) c.

(** ** Stopping and starting servers *)

(** [saved[i]] replaced by a copy; [nil] stays. *)
Definition copy_saved (i : Z) (c : config) : Res config :=
  old ← try ((saved c)@[i]);
  match old with
  | None => Ret c
  | Some p =>
      ps ← try (persisters c !! p);
      sv ← try (upd (saved c) i (Some (length (persisters c))));
      Ret (with_saved sv (persisters c ++ [Copy ps]) c)
  end.

Definition ShutdownServer (i : Z) (c : config) : Res config :=
  c ← disconnectUnlocked i (All c) c;
  let c := with_net (DeleteServer (ServerName i) (net c)) c in
  c ← copy_saved i c;
  kv ← try ((servers c)@[i]);
  match kv with
  | None => Ret c
  | Some p =>
      ob ← try (objects c !! p);
      ss ← try (upd (servers c) i None);
      Ret (with_servers ss (<[p := mkObject (sv_Kill (ob_server ob)) (ob_persister ob)]> (objects c)) c)
  end.

(** [start] is the service's constructor: number of peers, own index, persister. *)
Definition StartServer (start : Z → Z → Persister → Srv) (names : list string) (i : Z) (c : config) : Res config :=
  let names := take (Z.to_nat (n c)) names in
  es ← try (upd (endnames c) i (Some names));
  let c := with_endnames es c in
  c ← for_each (seqZ 0 (n c)) (λ j c, e ← try (names@[j]); make_end e j c) c;
  sv ← try ((saved c)@[i]);
  c ← (match sv with
       | Some _ => copy_saved i c
       | None =>
           sv ← try (upd (saved c) i (Some (length (persisters c))));
           Ret (with_saved sv (persisters c ++ [MakePersister]) c)
       end);
  sv ← try ((saved c)@[i]);
  p ← try sv;
  ps ← try (persisters c !! p);
  let kv := length (objects c) in
  ss ← try (upd (servers c) i (Some kv));
  let c := with_servers ss (objects c ++ [mkObject (start (n c) i ps) p]) c in
  let '(srv, nt) := new_server (net c) in
  let nt := with_store (alter (λ s, AddService (rf_service kv) (AddService (kv_service kv) s)) srv (store nt)) nt in
  Ret (with_net (AddServer (ServerName i) srv nt) c).

(** A running server saves its state: what its Raft peer does with its persister. *)
Definition persist (p : nat) (st snap : list Byte.byte) (c : config) : Res config :=
  ob ← try (objects c !! p);
  Ret (with_saved (saved c) (alter (SaveStateAndSnapshot st snap) (ob_persister ob) (persisters c)) c).

(** ** Set-up, statistics and shutting down *)

Definition new_config (k : Z) : config :=
  mkConfig MakeNetwork k (replicate (Z.to_nat k) None) (replicate (Z.to_nat k) None) (replicate (Z.to_nat k) None) ∅ (k + 1000) [] [] [].

Definition make_config (start : Z → Z → Z → Persister → Srv) (k : Z) (unreliable : bool) (names : Z → list string) : Res config :=
  c ← for_each (seqZ 0 k) (λ i c, StartServer (start i) (names i) i c) (new_config k);
  c ← ConnectAll c;
  Ret (with_net (Reliable (negb unreliable) (net c)) c).

(** The largest of a measure over the persisters; a nil persister panics. *)
Definition max_over (size : Persister → Z) (c : config) : Res Z :=
  for_each (seqZ 0 (n c)) (λ i m,
    sv ← try ((saved c)@[i]);
    ps ← try (sv ≫= λ p, persisters c !! p);
    Ret (if size ps >? m then size ps else m)) 0.

Definition LogSize (c : config) : Res Z := max_over RaftStateSize c.

(** Up to the check of the elapsed time. *)
Definition cleanup (c : config) : Res config :=
  c ← for_each (seqZ 0 (len (servers c))) (λ i c,
        kv ← try ((servers c)@[i]);
        match kv with
        | None => Ret c
        | Some p => Ret (with_servers (servers c) (alter (λ ob, mkObject (sv_Kill (ob_server ob)) (ob_persister ob)) p (objects c)) c)
        end) c;
  nt ← try (Cleanup (net c));
  Ret (with_net nt c).

(** Whether the object leads. *)
Definition leads (c : config) (p : nat) : Res bool :=
  ob ← try (objects c !! p); Ret (GetState (sv_rf (ob_server ob))).2.
End Service.
Arguments Object : clear implicits. Arguments config : clear implicits. Arguments config Srv W.

(** ** Two partitions, the leader in the smaller one *)

(** Puts the servers other than [l] into [p1] and then [p2], and [l] last. *)
Definition fill (k l : Z) : Res (list Z * list Z) :=
  let p1 := replicate (Z.to_nat (k ÷ 2 + 1)) 0 in
  let p2 := replicate (Z.to_nat (k ÷ 2)) 0 in
  '(p1, p2, _) ← for_each (seqZ 0 k) (λ i '(p1, p2, j),
      if negb (i =? l) then
        if j <? len p1 then p1 ← try (upd p1 j i); Ret (p1, p2, j + 1)
        else p2 ← try (upd p2 (j - len p1) i); Ret (p1, p2, j + 1)
      else Ret (p1, p2, j)) (p1, p2, 0);
  p2 ← try (upd p2 (len p2 - 1) l);
  Ret (p1, p2).
End ServiceConfig.
