(* ===== verification/KvraftConfig.v ===== *)
(** * The kvraft test harness: what [kvraft/config.go] adds to [ServiceConfig]

    The server under test, the size limit of its log, the counters of a test, and
    the search for the leader, which dereferences a nil server. *)

From S2P Require Import Prelude RaftServer LabRpc RaftTester Kvraft ServiceConfig.

Module KvraftConfig.
Import RaftServer LabRpc RaftTester Kvraft ServiceConfig.

#[export] Instance KVServer_replica : Replica KVServer Op := { sv_Kill := KVServer_Kill; sv_rf := kv_rf }.

Section Kvraft.
Context {W : Type} (kv_service rf_service : nat → Service W).

Record kv_config := mkKvConfig {
  kc_base : ServiceConfig.config KVServer W;
  kc_maxraftstate : Z;
  kc_rpcs0 : Z;
  kc_ops : Z
}.

Definition on_base (f : ServiceConfig.config KVServer W → Res (ServiceConfig.config KVServer W)) (c : kv_config) : Res kv_config :=
  b ← f (kc_base c); Ret (mkKvConfig b (kc_maxraftstate c) (kc_rpcs0 c) (kc_ops c)).

(** The constructor the harness calls; [r] feeds the peer's timer. *)
Definition start_kv (maxraftstate r nservers me : Z) (ps : Persister) : KVServer :=
  StartKVServer r nservers me (ReadRaftState ps) maxraftstate.

Definition kv_StartServer (r : Z) (names : list string) (i : Z) (c : kv_config) : Res kv_config :=
  on_base (StartServer kv_service rf_service (start_kv (kc_maxraftstate c) r) names i) c.

Definition kv_make_config (r : Z → Z) (k : Z) (unreliable : bool) (maxraftstate : Z) (names : Z → list string) : Res kv_config :=
  b ← make_config kv_service rf_service (λ i, start_kv maxraftstate (r i)) k unreliable names;
  Ret (mkKvConfig b maxraftstate 0 0).

Definition kv_SnapshotSize (c : kv_config) : Res Z := max_over RaftTester.SnapshotSize (kc_base c).

(** The first server that leads; a nil server panics. *)
Definition kv_Leader (c : kv_config) : Res (bool * Z) :=
  let b := kc_base c in
  for_each (seqZ 0 (n b)) (λ i '(found, l),
    if found : bool then Ret (found, l)
    else kv ← try ((servers b)@[i]); p ← try kv; is_leader ← leads b p;
         Ret (if is_leader : bool then (true, i) else (false, 0))) (false, 0).

Definition kv_make_partition (c : kv_config) : Res (list Z * list Z) :=
  '(_, l) ← kv_Leader c; fill (n (kc_base c)) l.

Definition kv_rpcTotal (c : kv_config) : Z := GetTotalCount (net (kc_base c)).
Definition kv_begin (c : kv_config) : kv_config := mkKvConfig (kc_base c) (kc_maxraftstate c) (kv_rpcTotal c) 0.
Definition kv_op (c : kv_config) : kv_config := mkKvConfig (kc_base c) (kc_maxraftstate c) (kc_rpcs0 c) (AddInt32 (kc_ops c) 1).

Definition kv_checkTimeout : bool → Z → Res unit := checkTimeout.

(** The numbers [end] prints, next to the time: servers, requests and operations. *)
Definition kv_end (failed : bool) (elapsed : Z) (c : kv_config) : Res (option (Z * Z * Z)) :=
  _ ← kv_checkTimeout failed elapsed;
  Ret (if negb failed then Some (n (kc_base c), kv_rpcTotal c - kc_rpcs0 c, kc_ops c) else None).
End Kvraft.
Arguments kv_config : clear implicits.
End KvraftConfig.
