(* ===== verification/ShardctrlerConfig.v ===== *)
(** * The shard controller's test harness: [shardctrler/config.go]

    The operations of [ServiceConfig] on [ShardCtrler] servers, and the search for
    the leader, which skips servers that are down. *)

From S2P Require Import Prelude RaftServer LabRpc RaftTester Shardctrler ServiceConfig.

Module ShardctrlerConfig.
Import RaftServer LabRpc RaftTester Shardctrler ServiceConfig.

#[export] Instance ShardCtrler_replica : Replica ShardCtrler Op := { sv_Kill := ShardCtrler_Kill; sv_rf := sc_rf }.

Section Ctrler.
Context {W : Type} (sc_service rf_service : nat → Service W).
Notation config := (ServiceConfig.config ShardCtrler W).

Definition sc_random_handles : (Z → Z) → list string → Res (list string) := random_handles.
Definition sc_checkTimeout : bool → Z → Res unit := checkTimeout.
Definition sc_cleanup : config → Res config := cleanup.
Definition sc_LogSize : config → Res Z := LogSize.
Definition sc_connectUnlocked : Z → list Z → config → Res config := connectUnlocked.
Definition sc_disconnectUnlocked : Z → list Z → config → Res config := disconnectUnlocked.
Definition sc_connect : Z → list Z → config → Res config := connect.
Definition sc_disconnect : Z → list Z → config → Res config := disconnect.
Definition sc_All : config → list Z := All.
Definition sc_ConnectAll : config → Res config := ConnectAll.
Definition sc_partition : list Z → list Z → config → Res config := partition.
Definition sc_makeClient : list string → (Z → Z) → list Z → config → Res (config * nat) := makeClient.
Definition sc_deleteClient : nat → config → config := deleteClient.
Definition sc_ConnectClientUnlocked : nat → list Z → config → Res config := ConnectClientUnlocked.
Definition sc_DisconnectClientUnlocked : nat → list Z → config → Res config := DisconnectClientUnlocked.
Definition sc_ConnectClient : nat → list Z → config → Res config := ConnectClient.
Definition sc_DisconnectClient : nat → list Z → config → Res config := DisconnectClient.
Definition sc_ShutdownServer : Z → config → Res config := ShutdownServer.

(** The constructor the harness calls; [r] feeds the peer's timer. *)
Definition start_sc (r nservers me : Z) (ps : Persister) : ShardCtrler :=
  Shardctrler.StartServer r nservers me (ReadRaftState ps).

Definition sc_StartServer (r : Z) : list string → Z → config → Res config :=
  ServiceConfig.StartServer sc_service rf_service (start_sc r).

Definition sc_Leader (c : config) : Res (bool * Z) :=
  for_each (seqZ 0 (n c)) (λ i '(found, l),
    if found : bool then Ret (found, l)
    else
      s ← try ((ServiceConfig.servers c)@[i]);
      match s with
      | Some p => is_leader ← leads c p; Ret (if is_leader : bool then (true, i) else (false, 0))
      | None => Ret (false, 0)
      end) (false, 0).

Definition sc_make_partition (c : config) : Res (list Z * list Z) := '(_, l) ← sc_Leader c; fill (n c) l.

Definition sc_make_config (r : Z → Z) : Z → bool → (Z → list string) → Res config :=
  make_config sc_service rf_service (λ i, start_sc (r i)).
End Ctrler.
End ShardctrlerConfig.
