(* ===== verification/ServiceWires.v ===== *)
(** * The connections of the replicated services' harness

    The partitions it makes, which ends its operations open and close, and the
    operations of a test as a sequence. *)

From S2P Require Import Prelude RaftServer LabRpc RaftTester HarnessNet ServiceConfig.

Module ServiceWires.
Import RaftServer LabRpc RaftTester HarnessNet ServiceConfig.

(** ** Shuffling *)

Lemma swap_perm {A} (l : list A) i j : 0 <= i < len l → 0 <= j < len l → ∃ l', swap i j l = Ret l' ∧ l' ≡ₚ l.
Proof.
  intros Hi Hj. unfold swap. destruct (idx_in_range l j Hj) as [x Ex], (idx_in_range l i Hi) as [y Ey]. rewrite Ex, Ey. simpl.
  rewrite (upd_in_range l i x Hi). simpl. rewrite upd_in_range by (unfold len in *; by rewrite length_insert). simpl.
  eexists. split; [done|]. unfold idx in *. rewrite (proj2 (Z.leb_le _ _)) in Ex by lia. rewrite (proj2 (Z.leb_le _ _)) in Ey by lia.
  set (a := Z.to_nat i) in *. set (b := Z.to_nat j) in *. clearbody a b. clear -Ex Ey.
  rewrite Permutation_inj. split; [by rewrite !length_insert|].
  exists (λ k, if decide (k = a) then b else if decide (k = b) then a else k). split.
  - intros u v. repeat case_decide; congruence.
  - intros k. pose proof (lookup_lt_Some _ _ _ Ex). pose proof (lookup_lt_Some _ _ _ Ey).
    destruct (decide (k = b)) as [->|Hkb].
    + rewrite list_lookup_insert_eq by (by rewrite length_insert). case_decide; [subst; congruence|done].
    + rewrite list_lookup_insert_ne by done. case_decide; [subst; by rewrite list_lookup_insert_eq|].
      by rewrite list_lookup_insert_ne by done.
Qed.

Lemma random_handles_perm {A} rnd (kvh : list A) : ∃ sa, random_handles rnd kvh = Ret sa ∧ sa ≡ₚ kvh.
Proof.
  apply (for_each_total (λ _ sa, sa ≡ₚ kvh)); [done|]. intros done_ i rest sa E Hp.
  assert (Hi : i ∈ seqZ 0 (len kvh)) by (rewrite E; set_solver). apply elem_of_seqZ in Hi.
  assert (Hl : len sa = len kvh) by (unfold len; by rewrite Hp).
  destruct (swap_perm sa i (Intn (rnd i) (i + 1))) as (sa'&Es&Hs); [lia| |].
  - unfold Intn. pose proof (Z.mod_pos_bound (rnd i) (i + 1)). lia.
  - exists sa'. split; [done|by rewrite Hs].
Qed.

(** ** The two partitions *)

Lemma upd_pad xs m x y : upd (xs ++ replicate (S m) y) (len xs) x = Some ((xs ++ [x]) ++ replicate m (y : Z)).
Proof.
  rewrite upd_in_range by (rewrite len_app; unfold len; rewrite length_replicate; lia).
  unfold len. rewrite Nat2Z.id. f_equal. rewrite insert_app_r_alt by lia. rewrite Nat.sub_diag. by rewrite <-app_assoc.
Qed.

(** The state of [fill] after the servers [os]. *)
Definition packed (k1 k2 : nat) (os : list Z) : list Z * list Z * Z :=
  (take k1 os ++ replicate (k1 - length os) 0, drop k1 os ++ replicate (k2 - (length os - k1)) 0, len os).

Lemma packed_step k1 k2 os i : (length os < k1 + k2)%nat →
  (let '(p1, p2, j) := packed k1 k2 os in
   if j <? len p1 then p1 ← try (upd p1 j i); Ret (p1, p2, j + 1)
   else p2 ← try (upd p2 (j - len p1) i); Ret (p1, p2, j + 1)) = Ret (packed k1 k2 (os ++ [i])).
Proof.
  intros Hlt. unfold packed. assert (Hl1 : len (take k1 os ++ replicate (k1 - length os) 0) = Z.of_nat k1).
  { unfold len. rewrite length_app, length_take, length_replicate. lia. }
  cbn beta iota. rewrite Hl1. unfold len at 1. destruct (Z.ltb_spec (Z.of_nat (length os)) (Z.of_nat k1)) as [Hk|Hk].
  - rewrite take_ge, (drop_ge os) by lia. replace (k1 - length os)%nat with (S (k1 - length os - 1)) by lia.
    rewrite upd_pad. simpl. rewrite length_app, len_app. simpl. rewrite take_ge, drop_ge by (rewrite length_app; simpl; lia).
    replace (k1 - (length os + 1))%nat with (k1 - length os - 1)%nat by lia.
    by replace (k2 - (length os + 1 - k1))%nat with (k2 - (length os - k1))%nat by lia.
  - replace (len os - Z.of_nat k1) with (len (drop k1 os)) by (unfold len; rewrite length_drop; lia).
    replace (k2 - (length os - k1))%nat with (S (k2 - (length os - k1) - 1)) by lia. rewrite upd_pad. simpl.
    rewrite length_app, len_app, take_app_le, drop_app_le by lia. simpl.
    replace (k1 - (length os + 1))%nat with (k1 - length os)%nat by lia.
    by replace (k2 - (length os + 1 - k1))%nat with (k2 - (length os - k1) - 1)%nat by lia.
Qed.

Definition others (l : Z) (js : list Z) : list Z := filter (λ i, i ≠ l) js.

Lemma others_snoc l js i : others l (js ++ [i]) = others l js ++ (if decide (i = l) then [] else [i]).
Proof.
  unfold others. rewrite filter_app. f_equal. case_decide; [rewrite filter_cons_False by auto|rewrite filter_cons_True by auto]; done.
Qed.

Lemma fill_loop k1 k2 l js : (length (others l js) ≤ k1 + k2)%nat →
  for_each js (λ i '(p1, p2, j),
      if negb (i =? l) then
        if j <? len p1 then p1 ← try (upd p1 j i); Ret (p1, p2, j + 1)
        else p2 ← try (upd p2 (j - len p1) i); Ret (p1, p2, j + 1)
      else Ret (p1, p2, j)) (packed k1 k2 []) = Ret (packed k1 k2 (others l js)).
Proof.
  intros Hlen. match goal with |- for_each _ ?f _ = _ => set (body := f) end.
  destruct (for_each_total (λ js s, s = packed k1 k2 (others l js)) body js (packed k1 k2 [])) as (s&->&->); [done| |done].
  intros done_ i rest s -> ->. eexists. split; [|done]. rewrite others_snoc. unfold body at 1.
  destruct (Z.eqb_spec i l) as [->|Hne]; simpl.
  - rewrite decide_True, app_nil_r by done. done.
  - rewrite decide_False by done. pose proof (packed_step k1 k2 (others l done_) i) as Hs.
    apply Hs.
    unfold others in *. rewrite filter_app, filter_cons_True, length_app in Hlen by done. simpl in Hlen. lia.
Qed.

Lemma others_perm l k : 0 <= l < k → others l (seqZ 0 k) ++ [l] ≡ₚ seqZ 0 k.
Proof.
  intros Hl. rewrite <-Permutation_cons_append. symmetry. apply NoDup_Permutation; [apply NoDup_seqZ|constructor|].
  - unfold others. rewrite list_elem_of_filter. tauto.
  - apply NoDup_filter, NoDup_seqZ.
  - intros x. unfold others. rewrite elem_of_cons, list_elem_of_filter, elem_of_seqZ.
    destruct (decide (x = l)); subst; intuition lia.
Qed.

Lemma others_length l k : 0 <= l < k → length (others l (seqZ 0 k)) = (Z.to_nat k - 1)%nat.
Proof.
  intros Hp%others_perm%Permutation_length. rewrite length_app, length_seqZ in Hp. simpl in Hp. lia.
Qed.

(** For an odd number of servers nothing of the zeroes is left. *)
Lemma fill_odd k l : 1 <= k → 0 <= l < 2 * k + 1 →
  fill (2 * k + 1) l = Ret (take (Z.to_nat (k + 1)) (others l (seqZ 0 (2 * k + 1))),
                            drop (Z.to_nat (k + 1)) (others l (seqZ 0 (2 * k + 1))) ++ [l]).
Proof.
  intros Hk Hl. pose proof (others_length l (2 * k + 1) Hl) as Hlen. unfold fill.
  replace ((2 * k + 1) ÷ 2) with k by (rewrite Z.quot_div_nonneg by lia; apply (Z.div_unique _ _ _ 1); lia).
  set (k1 := Z.to_nat (k + 1)). set (k2 := Z.to_nat k). set (os := others l _) in *.
  assert (Hinit : (replicate k1 0, replicate k2 0, 0) = packed k1 k2 []).
  { unfold packed. rewrite take_nil, drop_nil. simpl. by rewrite !Nat.sub_0_r. }
  rewrite Hinit, fill_loop by (fold os; lia). fold os. unfold packed. simpl.
  replace (k1 - length os)%nat with 0%nat by lia. replace (k2 - (length os - k1))%nat with 1%nat by lia.
  rewrite app_nil_r. pose proof (upd_pad (drop k1 os) 0 l 0) as Hu. rewrite app_nil_r in Hu.
  rewrite len_app. replace (len (drop k1 os) + len (replicate 1 0) - 1) with (len (drop k1 os)) by (change (len (replicate 1 0)) with 1; lia).
  by rewrite Hu.
Qed.

Lemma fill_splits k l : 1 <= k → 0 <= l < 2 * k + 1 →
  ∃ p1 p2, fill (2 * k + 1) l = Ret (p1, p2) ∧ p1 ++ p2 ≡ₚ seqZ 0 (2 * k + 1) ∧ len p1 = k + 1 ∧ len p2 = k ∧ l ∈ p2.
Proof.
  intros Hk Hl. rewrite (fill_odd k l Hk Hl). pose proof (others_length l (2 * k + 1) Hl) as Hlen.
  do 2 eexists. split; [done|]. rewrite app_assoc, take_drop. split; [by apply others_perm|].
  unfold len. rewrite length_app, length_take, length_drop, Hlen. simpl. split_and!; [lia|lia|].
  apply elem_of_app. right. by apply list_elem_of_singleton.
Qed.

Section Service.
Context {Srv Cmd W : Type} `{Replica Srv Cmd}.
Context (kv_service rf_service : nat → Service W).
Notation config := (config Srv W).
Implicit Types c : config.

#[export] Instance service_net : NetHolder NetName W config.
Proof. refine {| get_net := net; set_net := with_net; end_name := EndName |}; [by intros ?? [=]|done|by intros []|done]. Defined.

(** The current end from server [i] to server [j]. *)
Definition slot c (i j : Z) : option string := cell (endnames c) i j.
(** Every server has its ends, and the network knows them. *)
Definition wired c : Prop :=
  grid_ok EndName (net c) (n c) (endnames c) ∧ ∀ i, 0 <= i < n c → ∃ names, (endnames c)@[i] = Some (Some names).

Lemma slot_in_range c i j : wired c → 0 <= i < n c → 0 <= j < n c → ∃ e, slot c i j = Some e ∧ end_of c i j = Ret e.
Proof.
  intros [Hg Hall] Hi Hj. destruct (Hall i Hi) as [names Hn]. pose proof (gr_names _ _ _ _ Hg _ _ Hn) as Hl.
  destruct (idx_in_range names j) as [e He]; [lia|]. exists e. unfold slot, cell, end_of. rewrite Hn. simpl. by rewrite He.
Qed.

(** ** Switching ends *)

(** Opening or closing the end between two servers. *)
Definition set_wire (c : config) (w : Z * Z * bool) : config :=
  match slot c w.1.1 w.1.2 with Some e => enable e w.2 c | None => c end.
Definition set_wires (ws : list (Z * Z * bool)) c : config := fold_left set_wire ws c.

(** Switching changes the table of enabled ends only. *)
Definition switched c c' : Prop := ∃ en, c' = with_net (with_tables en (LabRpc.servers (net c)) (connections (net c)) (net c)) c.

#[export] Instance switched_refl : Reflexive switched.
Proof. intros []. exists (enabled net0). by destruct net0. Qed.
#[export] Instance switched_trans : Transitive switched.
Proof. intros c1 c2 c3 [en ->] [en' ->]. exists en'. done. Qed.

Lemma switched_wired c c' : switched c c' → wired c → wired c'.
Proof. intros [en ->] [Hg Hall]. split; [|exact Hall]. by apply (grid_ok_mono EndName (net c)). Qed.

Lemma set_wire_switched c w : switched c (set_wire c w).
Proof. unfold set_wire. destruct (slot _ _ _); [eexists; reflexivity|reflexivity]. Qed.

Lemma set_wires_switched ws c : switched c (set_wires ws c).
Proof. revert c. induction ws as [|w ws IH]; intros c; [done|]. etrans; [apply set_wire_switched|apply IH]. Qed.

Lemma set_wires_app ws ws' c : set_wires (ws ++ ws') c = set_wires ws' (set_wires ws c).
Proof. apply fold_left_app. Qed.

(** An end that is switched one way only is in that position. *)
Lemma on_set_wires ws c a b e u : wired c → slot c a b = Some e → (∀ v, (a, b, v) ∈ ws → v = u) →
  (a, b, u) ∈ ws ∨ (opened c e ↔ u = true) → (opened (set_wires ws c) e ↔ u = true).
Proof.
  revert c. induction ws as [|[[i j] v] ws IH]; intros c Hw Hs Hall Hor; simpl.
  { destruct Hor as [[]%not_elem_of_nil|?]; done. }
  assert (Hsw := set_wire_switched c (i, j, v)). assert (Hw' := switched_wired _ _ Hsw Hw).
  apply IH; [done|by destruct Hsw as [en ->]|intros v' Hv'; apply Hall; by right|].
  destruct (decide ((i, j) = (a, b))) as [[= -> ->]|Hne].
  - right. assert (v = u) as -> by (apply Hall; by left). unfold set_wire. simpl. rewrite Hs.
    change (opened (switch e u c) e ↔ u = true). rewrite opened_switch. naive_solver.
  - assert (Hsame : opened (set_wire c (i, j, v)) e ↔ opened c e).
    { unfold set_wire. simpl. destruct (slot c i j) as [e'|] eqn:E'; [|done].
      change (opened (switch e' v c) e ↔ opened c e). rewrite opened_switch.
      assert (e ≠ e'); [|naive_solver]. intros <-. apply Hne. destruct Hw as [Hg _].
      by destruct (gr_inj _ _ _ _ Hg _ _ _ _ _ E' Hs) as [-> ->]. }
    rewrite Hsame. destruct Hor as [Hin|?]; [|by right]. left. apply elem_of_cons in Hin as [[= <- <- <-]|?]; [by destruct Hne|done].
Qed.

Lemma on_set_wires_other ws c e : (∀ i j, slot c i j ≠ Some e) → opened (set_wires ws c) e ↔ opened c e.
Proof.
  revert c. induction ws as [|w ws IH]; intros c Hno; simpl; [done|].
  assert (Hsw := set_wire_switched c w). rewrite IH by (by destruct Hsw as [en ->]).
  unfold set_wire. destruct (slot c w.1.1 w.1.2) as [e'|] eqn:E'; [|done].
  change (opened (switch e' w.2 c) e ↔ opened c e). rewrite opened_switch.
  assert (e ≠ e') by (intros <-; by eapply Hno). naive_solver.
Qed.

(** A loop whose rounds switch ends. *)
Lemma wires_loop js body (g : Z → list (Z * Z * bool)) c : wired c →
  (∀ j c1, j ∈ js → wired c1 → n c1 = n c → body j c1 = Ret (set_wires (g j) c1)) →
  for_each js body c = Ret (set_wires (js ≫= g) c).
Proof.
  intros Hw Hbody. destruct (for_each_total (λ js c', c' = set_wires (js ≫= g) c) body js c) as (c'&->&->); [done| |done].
  intros done_ j rest c1 E ->. eexists. split; [|done]. rewrite bind_app. csimpl. rewrite app_nil_r, set_wires_app.
  assert (Hsw := set_wires_switched (done_ ≫= g) c). apply Hbody; [rewrite E; set_solver|by eapply switched_wired|].
  by destruct Hsw as [en ->].
Qed.

Definition out_wires (i : Z) (yes : bool) (k : Z) : list (Z * Z * bool) := [(i, k, yes)].
Definition in_wires (i : Z) (yes : bool) (k : Z) : list (Z * Z * bool) := [(k, i, yes)].
Definition links (i : Z) (ks : list Z) (yes : bool) : list (Z * Z * bool) := (ks ≫= out_wires i yes) ++ (ks ≫= in_wires i yes).

Lemma elem_of_links i ks yes a b v : (a, b, v) ∈ links i ks yes ↔ v = yes ∧ (a = i ∧ b ∈ ks ∨ b = i ∧ a ∈ ks).
Proof.
  unfold links, out_wires, in_wires. rewrite elem_of_app, !list_elem_of_bind. setoid_rewrite list_elem_of_singleton. naive_solver.
Qed.

Lemma enable_wire c i j yes : wired c → 0 <= i < n c → 0 <= j < n c →
  (e ← end_of c i j; Ret (enable e yes c)) = Ret (set_wires [(i, j, yes)] c).
Proof. intros Hw Hi Hj. destruct (slot_in_range c i j Hw Hi Hj) as (e&Hs&->). cbn. unfold set_wire. simpl. by rewrite Hs. Qed.

Definition within (k : Z) (ks : list Z) : Prop := ∀ j, j ∈ ks → 0 <= j < k.

Lemma connectUnlocked_wires c i to : wired c → 0 <= i < n c → within (n c) to →
  connectUnlocked i to c = Ret (set_wires (links i to true) c).
Proof.
  intros Hw Hi Hto. unfold connectUnlocked, links. rewrite (wires_loop to _ (out_wires i true)), set_wires_app; [|done|].
  - cbn [mbind Res_bind]. assert (Hsw := set_wires_switched (to ≫= out_wires i true) c).
    rewrite (wires_loop to _ (in_wires i true)); [done|by eapply switched_wired|].
    intros j c1 Hj Hw1 Hn. destruct Hsw as [en Hsw]. rewrite Hsw in Hn. specialize (Hto j Hj). apply enable_wire; [done|rewrite Hn; simpl; lia..].
  - intros j c1 Hj Hw1 Hn. specialize (Hto j Hj). apply enable_wire; [done|lia..].
Qed.

(** What [disconnectUnlocked] closes, in its order. *)
Definition cut (i : Z) (from : list Z) (j : Z) : list (Z * Z * bool) :=
  match from@[j] with Some k => in_wires i false k | None => [] end.
Definition cuts (i : Z) (from : list Z) : list (Z * Z * bool) :=
  (from ≫= out_wires i false) ++ (seqZ 0 (len from) ≫= cut i from).

Lemma elem_of_cuts i from x : x ∈ cuts i from ↔ x ∈ links i from false.
Proof.
  unfold links, cuts. rewrite !elem_of_app, !list_elem_of_bind.
  assert (Hiff : (∃ y, x ∈ cut i from y ∧ y ∈ seqZ 0 (len from)) ↔ ∃ y, x ∈ in_wires i false y ∧ y ∈ from); [|by rewrite Hiff].
  split.
  - intros (y&Hx&_). unfold cut in Hx. destruct (from@[y]) as [k|] eqn:Ek; [|by apply not_elem_of_nil in Hx].
    exists k. split; [done|by eapply idx_elem_of].
  - intros (k&Hx&(m&Hm)%list_elem_of_lookup). exists (Z.of_nat m). unfold cut. rewrite idx_nat, Hm. split; [done|].
    apply elem_of_seqZ. apply lookup_lt_Some in Hm. unfold len. lia.
Qed.

(** No more servers than rows: the second loop stays within the table. *)
Lemma disconnectUnlocked_wires c i from : wired c → 0 <= i < n c → within (n c) from → len from <= n c →
  disconnectUnlocked i from c = Ret (set_wires (cuts i from) c).
Proof.
  intros Hw Hi Hfrom Hlen. unfold disconnectUnlocked, cuts.
  rewrite (wires_loop from _ (out_wires i false)), set_wires_app; [|done|].
  - cbn [mbind Res_bind]. assert (Hsw := set_wires_switched (from ≫= out_wires i false) c).
    assert (Hw' := switched_wired _ _ Hsw Hw). rewrite (wires_loop _ _ (cut i from)); [done|done|].
    intros j c1 Hj%elem_of_seqZ Hw1 Hn. destruct Hsw as [en Hsw]. rewrite Hsw in Hn. simpl in Hn.
    destruct (proj2 Hw1 j) as [names Hnm]; [lia|]. rewrite Hnm. cbn [try mbind Res_bind].
    unfold cut. destruct (idx_in_range from j) as [k Hk]; [lia|]. rewrite Hk. cbn [try mbind Res_bind].
    specialize (Hfrom k (idx_elem_of _ _ _ Hk)). apply (enable_wire c1); [done|lia..].
  - intros j c1 Hj Hw1 Hn. destruct (proj2 Hw1 i) as [names Hnm]; [lia|]. rewrite Hnm. cbn [try mbind Res_bind].
    specialize (Hfrom j Hj). apply (enable_wire c1); [done|lia..].
Qed.

(** ** Two partitions *)

Definition side_wires (here there : list Z) (i : Z) : list (Z * Z * bool) := cuts i there ++ links i here true.

Lemma side_loop c here there : wired c → within (n c) here → within (n c) there → len there <= n c →
  for_each here (λ i c, c ← disconnectUnlocked i there c; connectUnlocked i here c) c
  = Ret (set_wires (here ≫= side_wires here there) c).
Proof.
  intros Hw Hh Ht Hlen. apply wires_loop; [done|]. intros i c1 Hi Hw1 Hn. specialize (Hh i Hi) as Hir. unfold within in *.
  rewrite disconnectUnlocked_wires; [|done|lia|intros j Hj; specialize (Ht j Hj); lia|lia]. cbn [mbind Res_bind].
  assert (Hsw := set_wires_switched (cuts i there) c1). assert (Hn2 : n (set_wires (cuts i there) c1) = n c) by (destruct Hsw as [en ->]; simpl; lia).
  rewrite connectUnlocked_wires; [by unfold side_wires; rewrite set_wires_app|by eapply switched_wired|lia|].
  intros j Hj. specialize (Hh j Hj). lia.
Qed.

Definition same_side (p1 p2 : list Z) (i j : Z) : Prop := (i ∈ p1 ∧ j ∈ p1) ∨ (i ∈ p2 ∧ j ∈ p2).

Lemma elem_of_side here there a b v : (a, b, v) ∈ (here ≫= side_wires here there) ↔
  (v = false ∧ (a ∈ here ∧ b ∈ there ∨ b ∈ here ∧ a ∈ there)) ∨ (v = true ∧ a ∈ here ∧ b ∈ here).
Proof.
  rewrite list_elem_of_bind. unfold side_wires. setoid_rewrite elem_of_app. setoid_rewrite elem_of_cuts.
  setoid_rewrite elem_of_links. naive_solver.
Qed.

#[export] Instance same_side_dec p1 p2 i j : Decision (same_side p1 p2 i j).
Proof. unfold same_side. apply _. Defined.

Lemma elem_of_sides p1 p2 i j v : (i ∈ p1 → i ∈ p2 → False) → (j ∈ p1 → j ∈ p2 → False) → i ∈ p1 ∨ i ∈ p2 → j ∈ p1 ∨ j ∈ p2 →
  (i, j, v) ∈ (p1 ≫= side_wires p1 p2) ++ (p2 ≫= side_wires p2 p1) ↔
    (v = true ∧ same_side p1 p2 i j) ∨ (v = false ∧ ¬ same_side p1 p2 i j).
Proof.
  intros Hdi Hdj Hi Hj. rewrite elem_of_app, !elem_of_side. unfold same_side. destruct Hi, Hj; tauto.
Qed.

Lemma partition_spec c p1 p2 : wired c → p1 ++ p2 ≡ₚ seqZ 0 (n c) →
  ∃ c', partition p1 p2 c = Ret c' ∧ endnames c' = endnames c ∧
    (∀ i j e, slot c i j = Some e → opened c' e ↔ same_side p1 p2 i j) ∧
    (∀ e, (∀ i j, slot c i j ≠ Some e) → opened c' e ↔ opened c e).
Proof.
  intros Hw Hp. assert (Hin : ∀ i, i ∈ p1 ∨ i ∈ p2 ↔ 0 <= i < n c).
  { intros i. rewrite <-elem_of_app, Hp, elem_of_seqZ. lia. }
  assert (Hlen : len p1 + len p2 = n c).
  { pose proof (gr_rows _ _ _ _ (proj1 Hw)). pose proof (len_nonneg (endnames c)). rewrite <-len_app. unfold len at 1. rewrite Hp, length_seqZ. lia. }
  pose proof (len_nonneg p1). pose proof (len_nonneg p2).
  assert (Hdisj : ∀ i, i ∈ p1 → i ∈ p2 → False).
  { assert (Hnd : NoDup (p1 ++ p2)) by (rewrite Hp; apply NoDup_seqZ). apply NoDup_app in Hnd as (_&Hd&_). eauto. }
  set (ws1 := p1 ≫= side_wires p1 p2). set (ws2 := p2 ≫= side_wires p2 p1).
  assert (Hsw := set_wires_switched (ws1 ++ ws2) c). assert (Hsw1 := set_wires_switched ws1 c).
  assert (Hn1 : n (set_wires ws1 c) = n c) by (by destruct Hsw1 as [en ->]).
  exists (set_wires (ws1 ++ ws2) c). split_and!.
  - unfold partition. rewrite side_loop; [|done|intros i ?; apply Hin; auto..|lia]. cbn [mbind Res_bind]. rewrite set_wires_app. fold ws1.
    apply side_loop; [by eapply switched_wired|intros i ?; rewrite Hn1; apply Hin; auto..|lia].
  - by destruct Hsw as [en ->].
  - intros i j e Hs. destruct (cell_range EndName _ _ _ _ _ _ (proj1 Hw) Hs) as [Hi%Hin Hj%Hin].
    pose proof (λ v, elem_of_sides p1 p2 i j v (Hdisj i) (Hdisj j) Hi Hj) as Hmem. fold ws1 ws2 in Hmem.
    destruct (decide (same_side p1 p2 i j)) as [Hy|Hy].
    + transitivity (true = true); [|tauto]. apply (on_set_wires _ _ i j); [done|done| |left; apply Hmem; tauto].
      intros v Hv%Hmem. tauto.
    + transitivity (false = true); [|split; [done|tauto]]. apply (on_set_wires _ _ i j); [done|done| |left; apply Hmem; tauto].
      intros v Hv%Hmem. tauto.
  - intros e Hno. by apply on_set_wires_other.
Qed.

(** ** What a test does *)

Inductive HarnessOp :=
  | OpShutdown (i : Z)
  | OpStart (start : Z → Z → Persister → Srv) (names : list string) (i : Z)
  | OpConnect (i : Z) (to : list Z) | OpDisconnect (i : Z) (from : list Z)
  | OpConnectAll | OpPartition (p1 p2 : list Z)
  | OpMakeClient (names : list string) (rnd : Z → Z) (to : list Z)
  | OpSetClient (yes : bool) (ck : nat) (js : list Z) | OpDeleteClient (ck : nat)
  | OpPersist (p : nat) (st snap : list Byte.byte).       (* a server object saves its state *)

Definition harness_op (op : HarnessOp) c : Res config :=
  match op with
  | OpShutdown i => ShutdownServer i c
  | OpStart start names i => StartServer kv_service rf_service start names i c
  | OpConnect i to => connectUnlocked i to c
  | OpDisconnect i from => disconnectUnlocked i from c
  | OpConnectAll => ConnectAll c
  | OpPartition p1 p2 => partition p1 p2 c
  | OpMakeClient names rnd to => '(c, _) ← makeClient names rnd to c; Ret c
  | OpSetClient yes ck js => set_client yes ck js c
  | OpDeleteClient ck => Ret (deleteClient ck c)
  | OpPersist p st snap => persist p st snap c
  end.

Fixpoint harness_ops (ops : list HarnessOp) c : Res config :=
  match ops with [] => Ret c | op :: ops => c ← harness_op op c; harness_ops ops c end.

(** ** Operations that only switch ends *)

Lemma loop_switched js body c c' : (∀ j c1 c2, body j c1 = Ret c2 → switched c1 c2) → for_each js body c = Ret c' → switched c c'.
Proof.
  intros Hbody. apply (for_each_ind (λ _ c', switched c c')); [done|]. intros _ j c1 c2 Hs E%Hbody. by etrans.
Qed.

Lemma enable_switched e yes c : switched c (enable e yes c).
Proof. by eexists. Qed.

Lemma connect_switched i to c c' : connectUnlocked i to c = Ret c' → switched c c'.
Proof.
  unfold connectUnlocked. intros E. apply bind_Ret in E as (c1&E1&E2). transitivity c1; (eapply loop_switched; [|eassumption]);
    intros j d1 d2 E; simpl in E; binds; apply enable_switched.
Qed.

Lemma disconnect_switched i from c c' : disconnectUnlocked i from c = Ret c' → switched c c'.
Proof.
  unfold disconnectUnlocked. intros E. apply bind_Ret in E as (c1&E1&E2). transitivity c1; (eapply loop_switched; [|eassumption]);
    intros j d1 d2 E; simpl in E; apply bind_Ret in E as ([]&_&E); binds; first [apply enable_switched|reflexivity].
Qed.

Lemma set_client_switched yes ck js c c' : set_client yes ck js c = Ret c' → switched c c'.
Proof. unfold set_client. apply loop_switched. intros j d1 d2 E. simpl in E. binds. apply enable_switched. Qed.

Lemma ConnectAll_switched c c' : ConnectAll c = Ret c' → switched c c'.
Proof. apply loop_switched. intros j d1 d2. apply connect_switched. Qed.

Lemma partition_switched p1 p2 c c' : partition p1 p2 c = Ret c' → switched c c'.
Proof.
  unfold partition. intros E. apply bind_Ret in E as (c1&E1&E2). transitivity c1; (eapply loop_switched; [|eassumption]);
    intros j d1 d2 E; simpl in E; apply bind_Ret in E as (d&Ed%disconnect_switched&Ec%connect_switched); by etrans.
Qed.

(** ** The table of ends *)

Definition grid c : Prop := grid_ok EndName (net c) (n c) (endnames c).
(** A started server stays started. *)
Definition rows_kept c c' : Prop := n c' = n c ∧ ∀ i names, (endnames c)@[i] = Some (Some names) → ∃ names', (endnames c')@[i] = Some (Some names').

#[export] Instance rows_kept_trans : Transitive rows_kept.
Proof. intros c1 c2 c3 [? H1] [? H2]. split; [congruence|]. intros i names [? Hi]%H1. eauto. Qed.

Lemma rows_kept_same c c' : n c' = n c → endnames c' = endnames c → rows_kept c c'.
Proof. intros ? E. split; [done|]. rewrite E. eauto. Qed.

Lemma grid_same c c' : n c' = n c → endnames c' = endnames c → ends (net c) ⊆ ends (net c') → grid c → grid c' ∧ rows_kept c c'.
Proof.
  intros Hn He Hsub Hg. split; [|by apply rows_kept_same]. unfold grid. rewrite Hn, He. by eapply grid_ok_mono.
Qed.

Lemma switched_grid c c' : switched c c' → grid c → grid c' ∧ rows_kept c c'.
Proof. intros [en ->]. by apply grid_same. Qed.

(** The loop that makes the ends of a server or a client. *)
Lemma make_ends_fresh names js c c' : for_each js (λ j c, e ← try (names@[j]); make_end e j c) c = Ret c' → fresh_ends names js c c'.
Proof. intros E. exact (add_end_loop ServerName names js c c' E). Qed.

(** What is left of [StartServer]: fresh ends, a copy of the persister (or a new one)
    and an object that holds it. *)
Record started (start : Z → Z → Persister → Srv) (row : list string) (i : Z) (ps : Persister) c c' : Prop := {
  st_row : ∃ c1, upd (endnames c) i (Some row) = Some (endnames c') ∧
           fresh_ends row (seqZ 0 (n c)) (with_endnames (endnames c') c) c1 ∧ ends (net c') = ends (net c1);
  st_n : n c' = n c;
  st_state : ∃ sv, (saved c)@[i] = Some sv ∧ match sv with Some q => persisters c !! q = Some ps | None => ps = MakePersister end;
  st_saved : upd (saved c) i (Some (length (persisters c))) = Some (saved c');
  st_persisters : persisters c' = persisters c ++ [ps];
  st_servers : upd (servers c) i (Some (length (objects c))) = Some (servers c');
  st_objects : objects c' = objects c ++ [mkObject (start (n c) i ps) (length (persisters c))]
}.

Lemma Copy_id ps : Copy ps = ps.
Proof. by destruct ps. Qed.

Lemma copy_saved_Some i q c c' : copy_saved i c = Ret c' → (saved c)@[i] = Some (Some q) →
  ∃ ps sv, persisters c !! q = Some ps ∧ upd (saved c) i (Some (length (persisters c))) = Some sv ∧
    c' = with_saved sv (persisters c ++ [ps]) c.
Proof. unfold copy_saved. intros E Hq. rewrite Hq in E. simpl in E. binds. rewrite Copy_id. eauto. Qed.

Lemma Start_parts start names i c c' : StartServer kv_service rf_service start names i c = Ret c' →
  ∃ ps, started start (take (Z.to_nat (n c)) names) i ps c c'.
Proof.
  unfold StartServer. intros E. apply bind_Ret in E as (es&Hu%try_Ret&E). apply bind_Ret in E as (c1&Hf%make_ends_fresh&E).
  set (row := take (Z.to_nat (n c)) names) in *.
  assert (Hfr : n c1 = n c ∧ saved c1 = saved c ∧ persisters c1 = persisters c ∧ servers c1 = servers c ∧ objects c1 = objects c ∧ endnames c1 = es)
    by (rewrite (fe_frame _ _ _ _ Hf); by split_and!).
  destruct Hfr as (Hn&Hsaved&Hpers&Hserv&Hobj&Hes).
  apply bind_Ret in E as (sv&Hsv%try_Ret&E). apply bind_Ret in E as (c2&E2&E). rewrite Hsaved in Hsv.
  assert (Hc2 : ∃ ps sv', match sv with Some q => persisters c !! q = Some ps | None => ps = MakePersister end ∧
     upd (saved c) i (Some (length (persisters c))) = Some sv' ∧ c2 = with_saved sv' (persisters c ++ [ps]) c1).
  { destruct sv as [q|].
    - destruct (copy_saved_Some i q _ _ E2) as (ps&sv&Hps&Hup&->); [congruence|]. rewrite Hsaved, Hpers in *. by exists ps, sv.
    - binds. rewrite Hsaved, Hpers in *. by eexists _, _. }
  destruct Hc2 as (ps&sv'&Hps&Hsv'&->). exists ps.
  apply bind_Ret in E as (sv2&Hsv2%try_Ret&E). apply bind_Ret in E as (p&Hp%try_Ret&E). apply bind_Ret in E as (ps'&Hps'%try_Ret&E).
  simpl in Hsv2, Hps'. rewrite (idx_upd _ _ _ _ _ Hsv'), Z.eqb_refl in Hsv2. simplify_eq.
  rewrite lookup_app_r, Nat.sub_diag in Hps' by lia. simpl in Hps'. simplify_eq.
  apply bind_Ret in E as (ss&Hss%try_Ret&E). unfold new_server in E. simpl in E, Hss. injection E as <-.
  rewrite Hserv, Hobj in Hss. split; simpl; rewrite ?Hobj, ?Hn; try done; [by exists c1|by exists sv].
Qed.

Lemma Start_grid start row i ps c c' : started start row i ps c c' → len row <= n c → grid c →
  grid c' ∧ rows_kept c c' ∧ ∃ row', (endnames c')@[i] = Some (Some row').
Proof.
  intros Hst Hlen Hg. destruct (st_row _ _ _ _ _ _ Hst) as (c1&Hu&Hf&Hends).
  pose proof (grid_ok_new (S := config) (with_endnames (endnames c') c) c1 (n c) (endnames c) (endnames c') i row Hg Hlen Hu Hf) as Hg1.
  pose proof (st_n _ _ _ _ _ _ Hst) as Hn. split_and!.
  - unfold grid. rewrite Hn. apply (grid_ok_mono EndName (net c1)); [by rewrite Hends|done].
  - split; [done|]. intros a nm Ha. rewrite (idx_upd _ _ _ _ _ Hu). destruct (a =? i); eauto.
  - rewrite (idx_upd _ _ _ _ _ Hu), Z.eqb_refl. eauto.
Qed.

(** What is left of [ShutdownServer]: the harness keeps a copy of the persister for
    itself, and the object is killed and forgotten. *)
Record stopped (i : Z) c c' : Prop := {
  sp_n : n c' = n c;
  sp_endnames : endnames c' = endnames c;
  sp_ends : ends (net c') = ends (net c);
  sp_saved : ∃ sv, (saved c)@[i] = Some sv ∧
    match sv with
    | Some q => ∃ ps, persisters c !! q = Some ps ∧ upd (saved c) i (Some (length (persisters c))) = Some (saved c') ∧
                      persisters c' = persisters c ++ [ps]
    | None => saved c' = saved c ∧ persisters c' = persisters c
    end;
  sp_servers : upd (servers c) i None = Some (servers c');
  sp_objects p : ob_persister <$> objects c' !! p = ob_persister <$> objects c !! p
}.

Lemma Shutdown_parts i c c' : ShutdownServer i c = Ret c' → stopped i c c'.
Proof.
  unfold ShutdownServer. intros E. apply bind_Ret in E as (c1&[en ->]%disconnect_switched&E). apply bind_Ret in E as (c2&E2&E).
  assert (Hc2 : net c2 = DeleteServer (ServerName i) (with_tables en (LabRpc.servers (net c)) (connections (net c)) (net c)) ∧
    n c2 = n c ∧ endnames c2 = endnames c ∧ servers c2 = servers c ∧ objects c2 = objects c ∧ ∃ sv, (saved c)@[i] = Some sv ∧
    match sv with
    | Some q => ∃ ps, persisters c !! q = Some ps ∧ upd (saved c) i (Some (length (persisters c))) = Some (saved c2) ∧
                      persisters c2 = persisters c ++ [ps]
    | None => saved c2 = saved c ∧ persisters c2 = persisters c
    end).
  { destruct ((saved c)@[i]) as [[q|]|] eqn:Hq; [|unfold copy_saved in E2; simpl in E2; rewrite Hq in E2; simplify_eq/=..].
    - destruct (copy_saved_Some i q _ _ E2 Hq) as (ps&sv&Hps&Hup&->). simpl in *. split_and!; try done. eexists. split; [done|]. by exists ps.
    - split_and!; try done. by eexists. }
  destruct Hc2 as (Hnet&Hn&He&Hs&Ho&Hsv). apply bind_Ret in E as (kv&Hkv%try_Ret&E). rewrite Hs in Hkv.
  destruct kv as [p|].
  - apply bind_Ret in E as (ob&Hob%try_Ret&E). apply bind_Ret in E as (ss&Hss%try_Ret&E). injection E as <-.
    split; simpl; rewrite ?Hnet; try done; [congruence|]. intros p0. rewrite Ho in *.
    destruct (decide (p0 = p)) as [->|]; [|by rewrite list_lookup_insert_ne by done].
    by rewrite list_lookup_insert_eq, Hob by (by eapply lookup_lt_Some).
  - injection E as <-. split; simpl; rewrite ?Hnet, ?Ho; try done. rewrite Hs.
    pose proof (idx_Some_range _ _ _ Hkv). rewrite upd_in_range by done. f_equal. apply list_insert_id.
    unfold idx in Hkv. by rewrite (proj2 (Z.leb_le _ _)) in Hkv by lia.
Qed.

Lemma makeClient_parts names rnd to c c' ck : makeClient names rnd to c = Ret (c', ck) →
  n c' = n c ∧ endnames c' = endnames c ∧ ends (net c) ⊆ ends (net c') ∧ servers c' = servers c ∧ saved c' = saved c ∧
  objects c' = objects c ∧ persisters c' = persisters c.
Proof.
  unfold makeClient. intros E. apply bind_Ret in E as (c1&Hf%make_ends_fresh&E). apply bind_Ret in E as (hs&_&E).
  apply bind_Ret in E as (c2&[en ->]%set_client_switched&E). simplify_eq/=.
  pose proof (fe_mono _ _ _ _ Hf) as Hm. rewrite (fe_frame _ _ _ _ Hf). by split_and!.
Qed.
End Service.
End ServiceWires.
