(* ===== verification/ServiceTheorems.v ===== *)
(** * Theorems about the harness of the replicated services

    Partitions put the leader in the minority and cut the network; a
    restarted server gets the state its predecessor saved last, whatever old
    instances go on writing (C34). *)

From S2P Require Import Prelude RaftServer LabRpc RaftTester HarnessNet ServiceConfig ServiceWires Kvraft KvraftConfig Shardctrler ShardctrlerConfig.

Module ServiceTheorems.
Import RaftServer LabRpc RaftTester HarnessNet ServiceConfig ServiceWires.

Section Service.
Context {Srv Cmd W : Type} `{Replica Srv Cmd}.
Notation config := (config Srv W).
Implicit Types c : config.

(** ** Who holds which persister *)

(** Objects hold different persisters, and the one the harness keeps for server [i]
    is held by the running server [i] and by nobody else. *)
Record mem_ok c : Prop := {
  mo_objects p ob : objects c !! p = Some ob → (ob_persister ob < length (persisters c))%nat;
  mo_saved i q : (saved c)@[i] = Some (Some q) → (q < length (persisters c))%nat;
  mo_private p p' ob ob' : objects c !! p = Some ob → objects c !! p' = Some ob' → ob_persister ob = ob_persister ob' → p = p';
  mo_distinct i j q : (saved c)@[i] = Some (Some q) → (saved c)@[j] = Some (Some q) → i = j;
  mo_running i p : (servers c)@[i] = Some (Some p) → ∃ ob, objects c !! p = Some ob ∧ (saved c)@[i] = Some (Some (ob_persister ob));
  mo_own p ob i : objects c !! p = Some ob → (saved c)@[i] = Some (Some (ob_persister ob)) → (servers c)@[i] = Some (Some p)
}.

Lemma mem_ok_frame c c' : servers c' = servers c → saved c' = saved c → objects c' = objects c →
  length (persisters c') = length (persisters c) → mem_ok c → mem_ok c'.
Proof. intros Hs Hsv Ho Hp []. split; rewrite ?Hs, ?Hsv, ?Ho, ?Hp; eauto. Qed.

Lemma mem_ok_started start row i ps c c' : started start row i ps c c' → mem_ok c → mem_ok c'.
Proof.
  intros [_ _ _ Hsv Hp Hs Ho] []. set (q := length (persisters c)) in *. set (p := length (objects c)) in *.
  assert (Hsaved : ∀ j x, (saved c')@[j] = Some (Some x) ↔ (j = i ∧ x = q) ∨ (j ≠ i ∧ (saved c)@[j] = Some (Some x))).
  { intros j x. rewrite (idx_upd _ _ _ _ _ Hsv). destruct (Z.eqb_spec j i); naive_solver. }
  assert (Hserv : ∀ j x, (servers c')@[j] = Some (Some x) ↔ (j = i ∧ x = p) ∨ (j ≠ i ∧ (servers c)@[j] = Some (Some x))).
  { intros j x. rewrite (idx_upd _ _ _ _ _ Hs). destruct (Z.eqb_spec j i); naive_solver. }
  assert (Hobj : ∀ x ob, objects c' !! x = Some ob ↔ objects c !! x = Some ob ∨ (x = p ∧ ob = mkObject (start (n c) i ps) q)).
  { intros x ob. rewrite Ho, lookup_app_Some. split.
    - intros [?|[? [Hx ?]%list_lookup_singleton_Some]]; [by left|]. right. split; [unfold p; lia|done].
    - intros [?|[-> ->]]; [by left|]. right. unfold p. by rewrite Nat.sub_diag. }
  assert (Hlen : length (persisters c') = S q) by (rewrite Hp, length_app; simpl; lia).
  assert (Hold : ∀ x ob, objects c !! x = Some ob → x ≠ p ∧ (ob_persister ob < q)%nat).
  { intros x ob Hx. split; [apply lookup_lt_Some in Hx; unfold p; lia|eauto]. }
  split.
  - intros x ob [Hx|[-> ->]]%Hobj; rewrite Hlen; [apply Hold in Hx; lia|simpl; lia].
  - intros j x [[-> ->]|[_ Hx%mo_saved0]]%Hsaved; rewrite Hlen; unfold q; lia.
  - intros x x' ob ob' [Hx|[-> ->]]%Hobj [Hx'|[-> ->]]%Hobj E; simpl in E;
      [by eauto|apply Hold in Hx as [_ ?]; lia|apply Hold in Hx' as [_ ?]; lia|done].
  - intros j j' x [[-> ->]|[Hj Hx]]%Hsaved [[-> Hx2]|[Hj' Hx']]%Hsaved; try done; [|subst|by eauto].
    + apply mo_saved0 in Hx'. unfold q in Hx'. lia.
    + apply mo_saved0 in Hx. unfold q in Hx. lia.
  - intros j x [[-> ->]|[Hj Hx]]%Hserv.
    + eexists. split; [apply Hobj; by right|]. apply Hsaved. by left.
    + destruct (mo_running0 _ _ Hx) as (ob&Hob&Hso). exists ob. split; [apply Hobj; by left|]. apply Hsaved. by right.
  - intros x ob j [Hx|[-> ->]]%Hobj [[-> E]|[Hj Hso]]%Hsaved; apply Hserv; try (by left).
    + apply Hold in Hx as [_ ?]. lia.
    + right. eauto.
    + simpl in Hso. apply mo_saved0 in Hso. unfold q in Hso. lia.
Qed.

Lemma mem_ok_stopped i c c' : stopped i c c' → mem_ok c → mem_ok c'.
Proof.
  intros [_ _ _ (sv&Hsv&Hcase) Hs Ho] [].
  assert (Hserv : ∀ j x, (servers c')@[j] = Some (Some x) → j ≠ i ∧ (servers c)@[j] = Some (Some x)).
  { intros j x. rewrite (idx_upd _ _ _ _ _ Hs). destruct (Z.eqb_spec j i); naive_solver. }
  assert (Hserv' : ∀ j x, j ≠ i → (servers c)@[j] = Some (Some x) → (servers c')@[j] = Some (Some x)).
  { intros j x Hj. rewrite (idx_upd _ _ _ _ _ Hs). by rewrite (proj2 (Z.eqb_neq _ _) Hj). }
  assert (Hobj : ∀ x ob, objects c' !! x = Some ob → ∃ ob0, objects c !! x = Some ob0 ∧ ob_persister ob0 = ob_persister ob).
  { intros x ob Hx. specialize (Ho x). rewrite Hx in Ho. simpl in Ho. destruct (objects c !! x); naive_solver. }
  assert (Hobj' : ∀ x ob, objects c !! x = Some ob → ∃ ob', objects c' !! x = Some ob' ∧ ob_persister ob' = ob_persister ob).
  { intros x ob Hx. specialize (Ho x). rewrite Hx in Ho. simpl in Ho. destruct (objects c' !! x); naive_solver. }
  assert (Hnew : (length (persisters c) ≤ length (persisters c'))%nat ∧ ∀ j x, (saved c')@[j] = Some (Some x) →
     (j = i ∧ x = length (persisters c) ∧ (x < length (persisters c'))%nat) ∨ (j ≠ i ∧ (saved c)@[j] = Some (Some x))).
  { destruct sv as [q|].
    - destruct Hcase as (ps&_&Hu&Hp). rewrite Hp, length_app. simpl. split; [lia|]. intros j x. rewrite (idx_upd _ _ _ _ _ Hu).
      destruct (Z.eqb_spec j i) as [->|]; [intros [= <-]; left; split_and!; [done|done|lia]|by right].
    - destruct Hcase as [-> ->]. split; [lia|]. intros j x Hx. right. split; [|done]. intros ->. congruence. }
  destruct Hnew as [Hlen Hsaved].
  assert (Hsaved' : ∀ j, j ≠ i → (saved c')@[j] = (saved c)@[j]).
  { intros j Hj. destruct sv as [q|]; [destruct Hcase as (ps&_&Hu&_)|by destruct Hcase as [-> _]].
    rewrite (idx_upd _ _ _ _ _ Hu). by rewrite (proj2 (Z.eqb_neq _ _) Hj). }
  split.
  - intros x ob (ob0&Hx%mo_objects0&<-)%Hobj. lia.
  - intros j x [(_&_&?)|[_ ?%mo_saved0]]%Hsaved; lia.
  - intros x x' ob ob' (o&Ho1&<-)%Hobj (o'&Ho2&<-)%Hobj. eauto.
  - intros j j' x [(->&->&_)|[Hj Hx]]%Hsaved [(->&Hx2&_)|[Hj' Hx']]%Hsaved; try done; [|subst|by eauto].
    + apply mo_saved0 in Hx'. lia.
    + apply mo_saved0 in Hx. lia.
  - intros j x [Hj (ob&Hob&Hso)%mo_running0]%Hserv. apply Hobj' in Hob as (ob'&Hob'&E). exists ob'. by rewrite E, Hsaved'.
  - intros x ob j (ob0&Hx&<-)%Hobj [(_&E&_)|[Hj Hso]]%Hsaved; [apply mo_objects0 in Hx; lia|eauto].
Qed.
Context (kv_service rf_service : nat → Service W).
Notation harness_op := (harness_op kv_service rf_service).
Notation harness_ops := (harness_ops kv_service rf_service).

(** ** Reachable configurations *)

Definition harness_ok c : Prop := mem_ok c ∧ grid c.

Lemma switched_ok c c' : switched c c' → harness_ok c → harness_ok c' ∧ rows_kept c c'.
Proof.
  intros Hs [Hm Hg]. destruct (switched_grid _ _ Hs Hg) as [Hg' Hr]. split; [split; [|done]|done].
  destruct Hs as [en ->]. by apply (mem_ok_frame c).
Qed.

Lemma harness_op_ok op c c' : harness_op op c = Ret c' → harness_ok c → harness_ok c' ∧ rows_kept c c'.
Proof.
  intros E Hok. destruct op; simpl in E.
  - apply Shutdown_parts in E. destruct Hok as [Hm Hg].
    destruct (grid_same c c') as [Hg' Hr]; [apply E|apply E|by rewrite (sp_ends _ _ _ E)|done|].
    split; [split; [by eapply mem_ok_stopped|done]|done].
  - destruct (Start_parts _ _ _ _ _ _ _ E) as [ps Hst]. destruct Hok as [Hm Hg].
    destruct (Start_grid _ _ _ _ _ _ Hst) as (Hg'&Hr&_); [|done|split; [split; [by eapply mem_ok_started|done]|done]].
    unfold len. rewrite length_take. pose proof (gr_rows _ _ _ _ Hg). pose proof (len_nonneg (endnames c)). lia.
  - by eapply switched_ok, Hok; eapply connect_switched.
  - by eapply switched_ok, Hok; eapply disconnect_switched.
  - by eapply switched_ok, Hok; eapply ConnectAll_switched.
  - by eapply switched_ok, Hok; eapply partition_switched.
  - apply bind_Ret in E as ([c1 ck]&E&E1). simpl in E1. injection E1 as ->. destruct Hok as [Hm Hg].
    apply makeClient_parts in E as (?&?&?&?&?&?&Hp). destruct (grid_same c c') as [Hg' Hr]; [done..|].
    split; [split; [|done]|done]. apply (mem_ok_frame c); try done. by rewrite Hp.
  - by eapply switched_ok, Hok; eapply set_client_switched.
  - injection E as <-. destruct Hok as [Hm Hg]. split; [split; [by apply (mem_ok_frame c)|done]|by apply rows_kept_same].
  - unfold persist in E. binds. destruct Hok as [Hm Hg]. split; [split; [apply (mem_ok_frame c); try done|done]|by apply rows_kept_same].
    simpl. apply length_alter.
Qed.

Lemma harness_ops_ok ops c c' : harness_ops ops c = Ret c' → harness_ok c → harness_ok c' ∧ rows_kept c c'.
Proof.
  revert c. induction ops as [|op ops IH]; intros c E Hok; simpl in E; [injection E as <-; split; [done|by apply rows_kept_same]|].
  apply bind_Ret in E as (c1&E1&E2). destruct (harness_op_ok _ _ _ E1 Hok) as [Hok1 Hr1].
  destruct (IH _ E2 Hok1) as [Hok2 Hr2]. split; [done|by etrans].
Qed.

Lemma rows_kept_wired c c' : rows_kept c c' → grid c' → wired c → wired c'.
Proof. intros [Hn Hr] Hg [_ Hall]. split; [done|]. intros i Hi. destruct (Hall i) as [names Hi']; [lia|]. eauto. Qed.

Lemma new_config_harness_ok k : 0 <= k → harness_ok (new_config k).
Proof.
  intros Hk. assert (Hnil : ∀ {A} i (x : A), (replicate (Z.to_nat k) None)@[i] = Some (Some x) → False).
  { intros A i x E%idx_elem_of. by apply elem_of_replicate in E as [? _]. }
  assert (Hno : ∀ i j e, cell (replicate (Z.to_nat k) None) i j = Some e → False).
  { intros i j e (names&Hi&_)%cell_Some. by eapply Hnil. }
  split; split; simpl; try (intros; exfalso; by eauto); try done.
  unfold len. rewrite length_replicate. lia.
Qed.

Lemma make_config_ok start k unreliable names c : 0 <= k → make_config kv_service rf_service start k unreliable names = Ret c →
  harness_ok c ∧ wired c ∧ n c = k.
Proof using All.
  unfold make_config. intros Hk E. apply bind_Ret in E as (c1&E1&E). apply bind_Ret in E as (c2&E2&E). injection E as <-.
  assert (H1 : harness_ok c1 ∧ n c1 = k ∧ ∀ i, i ∈ seqZ 0 k → ∃ row, (endnames c1)@[i] = Some (Some row)).
  { revert E1. apply (for_each_ind (λ js c1, harness_ok c1 ∧ n c1 = k ∧ ∀ i, i ∈ js → ∃ row, (endnames c1)@[i] = Some (Some row))).
    - split; [by apply new_config_harness_ok|]. split; [done|]. by intros i ?%not_elem_of_nil.
    - intros js i d1 d2 (Hok&Hn&Hrows) E. destruct (harness_op_ok (OpStart (start i) (names i) i) _ _ E Hok) as [Hok' [Hn' Hr]].
      split; [done|]. split; [congruence|]. intros j [Hj|Hj]%elem_of_app.
      + destruct (Hrows j Hj) as [row Hrow]. eauto.
      + apply list_elem_of_singleton in Hj as ->. destruct (Start_parts _ _ _ _ _ _ _ E) as [ps Hst].
        apply (Start_grid _ _ _ _ _ _ Hst); [|apply Hok]. unfold len. rewrite length_take. lia. }
  destruct H1 as (Hok1&Hn1&Hrows). destruct (harness_op_ok OpConnectAll c1 c2 E2 Hok1) as [Hok2 Hr2].
  assert (Hw2 : wired c2).
  { eapply rows_kept_wired; [done|apply Hok2|]. split; [apply Hok1|]. intros i Hi. apply Hrows, elem_of_seqZ. lia. }
  assert (Hg2 : grid (with_net (Reliable (negb unreliable) (net c2)) c2)) by (by apply (grid_ok_mono EndName (net c2)), Hok2).
  split; [|split].
  - split; [by apply (mem_ok_frame c2), Hok2|exact Hg2].
  - split; [exact Hg2|exact (proj2 Hw2)].
  - simpl. destruct Hr2 as [-> _]. done.
Qed.

(** [partition] cuts the network in two: at any time in a test, given two lists
    that split the servers, it returns, and then the end from a server to another is
    open exactly when the two are on the same side; the ends of clients stay as they
    were. *)
Theorem partition_isolates start k unreliable names ops c0 c p1 p2 :
  0 <= k → make_config kv_service rf_service start k unreliable names = Ret c0 → harness_ops ops c0 = Ret c →
  p1 ++ p2 ≡ₚ seqZ 0 k →
  ∃ c', partition p1 p2 c = Ret c' ∧
    (∀ i j e, slot c i j = Some e → opened c' e ↔ same_side p1 p2 i j) ∧
    (∀ e, (∀ i j, slot c i j ≠ Some e) → opened c' e ↔ opened c e).
Proof.
  intros Hk E0 E Hp. destruct (make_config_ok _ _ _ _ _ Hk E0) as (Hok0&Hw0&Hn0).
  destruct (harness_ops_ok _ _ _ E Hok0) as [Hok Hr].
  destruct (partition_spec c p1 p2) as (c'&?&_&?&?); [by eapply rows_kept_wired, Hw0; [|apply Hok]| |eauto].
  destruct Hr as [-> _]. by rewrite Hn0.
Qed.

(** ** Restarting *)

(** Server [i] is down and the harness keeps [ps] for it. *)
Definition parked (i : Z) (ps : Persister) c : Prop :=
  ∃ q, (servers c)@[i] = Some None ∧ (saved c)@[i] = Some (Some q) ∧ persisters c !! q = Some ps.

Lemma stopped_parks i p ob ps c c' : mem_ok c → stopped i c c' → (servers c)@[i] = Some (Some p) → objects c !! p = Some ob →
  persisters c !! ob_persister ob = Some ps → parked i ps c'.
Proof.
  intros Hm [_ _ _ (sv&Hsv&Hcase) Hs _] Hp Hob Hps. destruct (mo_running _ Hm _ _ Hp) as (ob'&Hob'&Hso). simplify_eq.
  destruct Hcase as (ps'&Hps'&Hu&Hpers). simplify_eq. exists (length (persisters c)).
  rewrite (idx_upd _ _ _ _ _ Hs), (idx_upd _ _ _ _ _ Hu), Z.eqb_refl. split_and!; [done..|].
  by rewrite Hpers, lookup_app_r, Nat.sub_diag by lia.
Qed.

Definition starts (i : Z) (op : HarnessOp (Srv := Srv)) : Prop := match op with OpStart _ _ j => j = i | _ => False end.

Lemma parked_frame i ps c c' : servers c' = servers c → saved c' = saved c → persisters c' = persisters c → parked i ps c → parked i ps c'.
Proof. unfold parked. by intros -> -> ->. Qed.

Lemma switched_parked i ps c c' : switched c c' → parked i ps c → parked i ps c'.
Proof. intros [en ->]. by apply parked_frame. Qed.

(** Nobody else writes to the persister of a server that is down. *)
Lemma parked_step i ps op c c' : harness_ok c → ¬ starts i op → harness_op op c = Ret c' → parked i ps c → parked i ps c'.
Proof.
  intros [Hm _] Hns E Hpk. destruct op; simpl in E.
  - destruct (Shutdown_parts _ _ _ E) as [_ _ _ (sv&Hsv&Hcase) Hs _]. destruct Hpk as (q&Hi&Hq&Hps).
    assert (Hi' : (servers c')@[i] = Some None) by (rewrite (idx_upd _ _ _ _ _ Hs); by destruct (i =? i0)).
    destruct sv as [q0|]; [|destruct Hcase as [Hsv' Hp']; exists q; by rewrite Hsv', Hp'].
    destruct Hcase as (ps0&Hps0&Hu&Hp). destruct (decide (i = i0)) as [->|Hne].
    + simplify_eq. exists (length (persisters c)). rewrite (idx_upd _ _ _ _ _ Hu), Z.eqb_refl, Hp.
      by rewrite lookup_app_r, Nat.sub_diag by lia.
    + exists q. rewrite (idx_upd _ _ _ _ _ Hu), (proj2 (Z.eqb_neq _ _) Hne), Hp. split_and!; [done..|by apply lookup_app_l_Some].
  - destruct (Start_parts _ _ _ _ _ _ _ E) as [ps0 [_ _ _ Hsv Hp Hs _]]. destruct Hpk as (q&Hi&Hq&Hps). exists q.
    assert (Hne : i ≠ i0) by (intros ->; by apply Hns).
    rewrite (idx_upd _ _ _ _ _ Hs), (idx_upd _ _ _ _ _ Hsv), (proj2 (Z.eqb_neq _ _) Hne), Hp.
    split_and!; [done..|by apply lookup_app_l_Some].
  - by eapply switched_parked, Hpk; eapply connect_switched.
  - by eapply switched_parked, Hpk; eapply disconnect_switched.
  - by eapply switched_parked, Hpk; eapply ConnectAll_switched.
  - by eapply switched_parked, Hpk; eapply partition_switched.
  - apply bind_Ret in E as ([c1 ck]&E&E1). simpl in E1. injection E1 as ->. apply makeClient_parts in E as (?&?&?&?&?&?&?).
    by apply (parked_frame i ps c).
  - by eapply switched_parked, Hpk; eapply set_client_switched.
  - injection E as <-. by apply (parked_frame i ps c).
  - unfold persist in E. apply bind_Ret in E as (ob&Hob%try_Ret&E). injection E as <-. destruct Hpk as (q&Hi&Hq&Hps).
    exists q. simpl. split_and!; [done..|]. rewrite list_lookup_alter_ne; [done|]. intros <-.
    pose proof (mo_own _ Hm _ _ _ Hob Hq). congruence.
Qed.

Lemma parked_steps i ps ops c c' : harness_ok c → Forall (λ op, ¬ starts i op) ops → harness_ops ops c = Ret c' → parked i ps c → parked i ps c' ∧ harness_ok c'.
Proof.
  revert c. induction ops as [|op ops IH]; intros c Hok Hns E Hpk; simpl in E; [by injection E as <-|].
  apply bind_Ret in E as (c1&E1&E2). inversion_clear Hns. eapply IH; [|done|done|by eapply parked_step].
  by eapply harness_op_ok.
Qed.

(** C34: a restarted server gets the state that its predecessor saved last before it
    was shut down, whatever happens in between, also if the old instance, or any
    other server object, goes on saving: the harness keeps copies that no instance
    holds. *)
Theorem restart_gets_last_saved start0 k unreliable names0 pre c0 c i p ob ps mid start names c1 c2 c' :
  0 <= k → make_config kv_service rf_service start0 k unreliable names0 = Ret c0 → harness_ops pre c0 = Ret c →
  (servers c)@[i] = Some (Some p) → objects c !! p = Some ob → persisters c !! ob_persister ob = Some ps →
  ShutdownServer i c = Ret c1 → Forall (λ op, ¬ starts i op) mid → harness_ops mid c1 = Ret c2 →
  StartServer kv_service rf_service start names i c2 = Ret c' →
  ∃ p' q', (servers c')@[i] = Some (Some p') ∧ objects c' !! p' = Some (mkObject (start k i ps) q') ∧ persisters c' !! q' = Some ps.
Proof.
  intros Hk E0 Epre Hp Hob Hps E1 Hmid E2 E'. destruct (make_config_ok _ _ _ _ _ Hk E0) as (Hok0&_&Hn0).
  destruct (harness_ops_ok _ _ _ Epre Hok0) as [Hok [Hn _]]. pose proof (Shutdown_parts _ _ _ E1) as Hst.
  destruct (harness_op_ok (OpShutdown i) _ _ E1 Hok) as [Hok1 [Hn1 _]].
  assert (Hpk : parked i ps c1) by (eapply stopped_parks; [apply Hok|done..]).
  destruct (harness_ops_ok _ _ _ E2 Hok1) as [_ [Hn2 _]].
  destruct (parked_steps _ _ _ _ _ Hok1 Hmid E2 Hpk) as [(q&_&Hq&Hps2) _].
  destruct (Start_parts _ _ _ _ _ _ _ E') as [ps' [_ _ (sv&Hsv&Hst') Hsv' Hpers Hserv Hobj]]. simplify_eq.
  exists (length (objects c2)), (length (persisters c2)). rewrite (idx_upd _ _ _ _ _ Hserv), Z.eqb_refl, Hobj, Hpers.
  rewrite !lookup_app_r, !Nat.sub_diag by lia. split_and!; [done| |done]. simpl. by rewrite Hn2, Hn1, Hn.
Qed.

(** ** The search for the leader *)

(** Whether server [i] runs and leads. *)
Definition lead_at c (i : Z) : bool :=
  match (servers c)@[i] with
  | Some (Some p) => match objects c !! p with Some ob => (GetState (sv_rf (ob_server ob))).2 | None => false end
  | _ => false
  end.

(** The loop stops looking at the first leader. *)
Lemma first_leader c (look : Z → Res (bool * Z)) :
  (∀ i, i ∈ seqZ 0 (n c) → look i = Ret (if lead_at c i then (true, i) else (false, 0))) → 0 < n c →
  ∃ found l, for_each (seqZ 0 (n c)) (λ i '(found, l), if found : bool then Ret (found, l) else look i) (false, 0) = Ret (found, l) ∧
    0 <= l < n c ∧ (if found then lead_at c l = true else ∀ i, 0 <= i < n c → lead_at c i = false).
Proof.
  intros Hlook Hn.
  destruct (for_each_total (λ js '(found, l), 0 <= l < n c ∧ (if found : bool then lead_at c l = true else ∀ i, i ∈ js → lead_at c i = false))
    (λ i '(found, l), if found : bool then Ret (found, l) else look i) (seqZ 0 (n c)) (false, 0)) as ([found l]&E&Hl&Hf).
  - split; [lia|]. by intros i ?%not_elem_of_nil.
  - intros js i rest [found l] E [Hl Hf]. destruct found; [by exists (true, l)|].
    assert (Hi : i ∈ seqZ 0 (n c)) by (rewrite E; set_solver). rewrite (Hlook i Hi). apply elem_of_seqZ in Hi.
    eexists. split; [done|]. destruct (lead_at c i) eqn:Ei; [by split; [lia|]|]. split; [lia|].
    intros j [Hj|Hj%list_elem_of_singleton]%elem_of_app; [by apply Hf|by subst].
  - exists found, l. split; [done|]. split; [done|]. destruct found; [done|]. intros i Hi. apply Hf, elem_of_seqZ. lia.
Qed.

(** The split that both harnesses make, once the leader is found. *)
Lemma split_with_leader c k found l : 1 <= k → n c = 2 * k + 1 → 0 <= l < n c →
  (if found : bool then lead_at c l = true else ∀ i, 0 <= i < n c → lead_at c i = false) →
  ∃ p1 p2, fill (n c) l = Ret (p1, p2) ∧ p1 ++ p2 ≡ₚ seqZ 0 (n c) ∧ len p1 = k + 1 ∧ len p2 = k ∧
    ∀ i, 0 <= i < n c → lead_at c i = true → ∃ j, j ∈ p2 ∧ lead_at c j = true.
Proof.
  intros Hk Hn Hl Hf. rewrite Hn in *. destruct (fill_splits k l Hk Hl) as (p1&p2&E&Hp&H1&H2&Hin). exists p1, p2.
  split_and!; [done..|]. intros i Hi Hlead. destruct found; [eauto|]. specialize (Hf i Hi). congruence.
Qed.
End Service.

Section Kv.
Import KvraftConfig.
Context {W : Type}.

(** With an odd number of servers (three or more), all running, kvraft's
    [make_partition] returns two lists that split the servers, the first larger by
    one, and if there is a leader then a leader is in the smaller one. *)
Theorem kv_make_partition_correct (c : kv_config W) k :
  1 <= k → n (kc_base c) = 2 * k + 1 →
  (∀ i, 0 <= i < n (kc_base c) → ∃ p ob, (servers (kc_base c))@[i] = Some (Some p) ∧ objects (kc_base c) !! p = Some ob) →
  ∃ p1 p2, kv_make_partition c = Ret (p1, p2) ∧ p1 ++ p2 ≡ₚ seqZ 0 (n (kc_base c)) ∧ len p1 = k + 1 ∧ len p2 = k ∧
    ∀ i, 0 <= i < n (kc_base c) → lead_at (kc_base c) i = true → ∃ j, j ∈ p2 ∧ lead_at (kc_base c) j = true.
Proof.
  intros Hk Hn Hrun. destruct (first_leader (kc_base c) (λ i, kv ← try ((servers (kc_base c))@[i]); p ← try kv;
    is_leader ← leads (kc_base c) p; Ret (if is_leader : bool then (true, i) else (false, 0)))) as (found&l&El&Hl&Hf).
  - intros i Hi%elem_of_seqZ. destruct (Hrun i) as (p&ob&Hs&Ho); [lia|]. unfold lead_at, leads. by rewrite Hs, Ho; simpl; rewrite Ho.
  - lia.
  - unfold kv_make_partition, kv_Leader. cbv zeta. rewrite El. simpl. by eapply split_with_leader.
Qed.
End Kv.

Section Ctrler.
Import ShardctrlerConfig.
Context {W : Type}.

(** The controller's harness looks at the running servers only: the same holds
    whichever of its servers are down. *)
Lemma sc_make_partition_correct (c : ServiceConfig.config Shardctrler.ShardCtrler W) k :
  1 <= k → n c = 2 * k + 1 → len (servers c) = n c →
  (∀ i p, (servers c)@[i] = Some (Some p) → is_Some (objects c !! p)) →
  ∃ p1 p2, sc_make_partition c = Ret (p1, p2) ∧ p1 ++ p2 ≡ₚ seqZ 0 (n c) ∧ len p1 = k + 1 ∧ len p2 = k ∧
    ∀ i, 0 <= i < n c → lead_at c i = true → ∃ j, j ∈ p2 ∧ lead_at c j = true.
Proof.
  intros Hk Hn Hlen Hptr. destruct (first_leader c (λ i, s ← try ((servers c)@[i]);
      match s with
      | Some p => is_leader ← leads c p; Ret (if is_leader : bool then (true, i) else (false, 0))
      | None => Ret (false, 0)
      end)) as (found&l&El&Hl&Hf).
  - intros i Hi%elem_of_seqZ. destruct (idx_in_range (servers c) i) as [[p|] Hs]; [lia|..]; unfold lead_at, leads; rewrite Hs; [|done].
    destruct (Hptr i p Hs) as [ob Ho]. rewrite Ho. simpl. by rewrite Ho.
  - lia.
  - unfold sc_make_partition, sc_Leader. rewrite El. simpl. by eapply split_with_leader.
Qed.
End Ctrler.

(** With an even number of servers the two lists overlap and server 3's share is
    missing: server 0 appears in both. *)
Lemma fill_even : fill 4 1 = Ret ([0; 2; 3], [0; 1]).
Proof. reflexivity. Qed.

(** ** The theorems at work *)

Import Kvraft KvraftConfig.
Import ServiceConfig.

Definition no_kv_service (p : nat) : Service unit := MakeService "KVServer" [].
Definition no_rf_service (p : nat) : Service unit := MakeService "Raft" [].
Definition demo_names (i : Z) : list string :=
  if i =? 0 then ["a0"; "a1"; "a2"] else if i =? 1 then ["b0"; "b1"; "b2"] else ["c0"; "c1"; "c2"].
Definition or_new {A} (d : A) (r : Res A) : A := match r with Ret a => a | _ => d end.
Definition returns {A} (r : Res A) : bool := match r with Ret _ => true | _ => false end.
Lemma or_new_Ret {A} (d : A) r : returns r = true → r = Ret (or_new d r).
Proof. by destruct r. Qed.
Definition demo_kv : kv_config unit :=
  or_new (mkKvConfig (new_config 3) 0 0 0) (kv_make_config no_kv_service no_rf_service (λ _, 0) 3 false (-1) demo_names).
(** Server 1 leads. *)
Definition demo_led : kv_config unit :=
  let b := kc_base demo_kv in
  mkKvConfig (with_servers (servers b)
    (alter (λ ob, mkObject (mkKVServer 1 (conevrtToLeader (kv_rf (ob_server ob))).1 0 (-1)) (ob_persister ob)) 1%nat (objects b)) b) (-1) 0 0.

Lemma kv_make_partition_correct_witness :
  kv_make_partition demo_led = Ret ([0; 2], [1]) ∧ lead_at (kc_base demo_led) 1 = true ∧
  ∃ p1 p2, kv_make_partition demo_led = Ret (p1, p2) ∧ p1 ++ p2 ≡ₚ seqZ 0 3 ∧ len p1 = 2 ∧ len p2 = 1 ∧
    ∀ i, 0 <= i < 3 → lead_at (kc_base demo_led) i = true → ∃ j, j ∈ p2 ∧ lead_at (kc_base demo_led) j = true.
Proof.
  split; [vm_compute; reflexivity|]. split; [vm_compute; reflexivity|].
  apply (kv_make_partition_correct demo_led 1); [lia|vm_compute; reflexivity|].
  intros i Hi. change (n (kc_base demo_led)) with 3 in Hi.
  assert (i = 0 ∨ i = 1 ∨ i = 2) as [-> | [-> | ->]] by lia; do 2 eexists; split; vm_compute; reflexivity.
Defined.

Definition start3 (i : Z) := start_kv (-1) 0.
Definition demo_base : ServiceConfig.config KVServer unit :=
  or_new (new_config 3) (make_config no_kv_service no_rf_service start3 3 false demo_names).
(** A client, then server 2 is shut down and started again. *)
Definition demo_ops : list (HarnessOp (Srv := KVServer)) :=
  [OpMakeClient ["k0"; "k1"; "k2"] (λ i, i) [0; 1]; OpShutdown 2; OpStart (start3 2) ["d0"; "d1"; "d2"] 2; OpConnect 2 [0; 1; 2]].
Definition demo_run (ops : list (HarnessOp (Srv := KVServer))) : ServiceConfig.config KVServer unit :=
  or_new demo_base (harness_ops no_kv_service no_rf_service ops demo_base).

Lemma partition_isolates_witness :
  slot (demo_run demo_ops) 2 0 = Some "d0" ∧ opened (demo_run demo_ops) "d0" ∧
  ∃ c', partition [1; 0] [2] (demo_run demo_ops) = Ret c' ∧
    (∀ i j e, slot (demo_run demo_ops) i j = Some e → opened c' e ↔ same_side [1; 0] [2] i j) ∧
    (∀ e, (∀ i j, slot (demo_run demo_ops) i j ≠ Some e) → opened c' e ↔ opened (demo_run demo_ops) e).
Proof.
  split; [vm_compute; reflexivity|]. split; [vm_compute; reflexivity|].
  apply (partition_isolates no_kv_service no_rf_service start3 3 false demo_names demo_ops demo_base); [lia|..].
  - apply or_new_Ret. vm_compute. reflexivity.
  - apply or_new_Ret. vm_compute. reflexivity.
  - change ([1; 0; 2] ≡ₚ [0; 1; 2]). apply perm_swap.
Defined.

(** Server 1 saves, is shut down, and saves again although it has been given up. *)
Lemma restart_gets_last_saved_witness :
  let s1 := [Byte.x01] in let s2 := [Byte.x02] in
  let c := demo_run [OpPersist 1 s1 []] in
  let c1 := or_new c (ShutdownServer 1 c) in
  let c2 := or_new c (harness_ops no_kv_service no_rf_service [OpPersist 1 s2 []] c1) in
  let c' := or_new c (StartServer no_kv_service no_rf_service (start3 1) ["e0"; "e1"; "e2"] 1 c2) in
  persisters c2 !! 1%nat = Some (mkPersister s2 []) ∧
  ∃ p' q', (servers c')@[1] = Some (Some p') ∧ objects c' !! p' = Some (mkObject (start3 1 3 1 (mkPersister s1 [])) q') ∧
    persisters c' !! q' = Some (mkPersister s1 []).
Proof.
  intros s1 s2 c c1 c2 c'. split; [vm_compute; reflexivity|].
  apply (restart_gets_last_saved no_kv_service no_rf_service start3 3 false demo_names [OpPersist 1%nat s1 []]
    demo_base c 1 1%nat (mkObject (start3 1 3 1 MakePersister) 1) (mkPersister s1 []) [OpPersist 1%nat s2 []] (start3 1) ["e0"; "e1"; "e2"] c1 c2 c').
  - lia.
  - apply or_new_Ret. vm_compute. reflexivity.
  - apply or_new_Ret. vm_compute. reflexivity.
  - vm_compute. reflexivity.
  - vm_compute. reflexivity.
  - vm_compute. reflexivity.
  - apply or_new_Ret. vm_compute. reflexivity.
  - constructor; [intros []|constructor].
  - apply or_new_Ret. vm_compute. reflexivity.
  - apply or_new_Ret. vm_compute. reflexivity.
Defined.
End ServiceTheorems.
