(* ===== verification/ServiceView.v ===== *)
(** * What a test sees of the network: an abstract view of the service harnesses

    A test thinks of servers that are up or down and of connections between servers
    and from clients to servers.  The harness works with end names, tables of the
    network and server objects.  [View] is the abstract state, [view_op] what each
    operation of a test means there, and [shows] the refinement relation. *)

From S2P Require Import Prelude RaftServer LabRpc LabRpcTheorems RaftTester HarnessNet ServiceConfig ServiceWires ServiceTheorems Kvraft KvraftConfig.

Module ServiceView.
Import RaftServer LabRpc LabRpcTheorems RaftTester HarnessNet ServiceConfig ServiceWires ServiceTheorems.

(** ** The view *)

Record View := mkView {
  v_n : Z;                        (* servers *)
  v_started : gset Z;             (* servers started at least once *)
  v_up : gset Z;                  (* servers that run *)
  v_links : gset (Z * Z);         (* open connections between servers *)
  v_clients : gmap nat (gset Z);  (* the servers each client is connected to *)
  v_next : nat;                   (* the next client *)
  v_objects : nat;                (* server objects made so far *)
  v_used : gset string            (* end names in use *)
}.

Definition with_links l v := mkView (v_n v) (v_started v) (v_up v) l (v_clients v) (v_next v) (v_objects v) (v_used v).
Definition with_clients m v := mkView (v_n v) (v_started v) (v_up v) (v_links v) m (v_next v) (v_objects v) (v_used v).

Definition view0 (k : Z) : View := mkView k ∅ ∅ ∅ ∅ 0 0 ∅.

(** The connections between [i] and the servers of a list, both ways. *)
Definition star (i : Z) (ks : list Z) : gset (Z * Z) := list_to_set (((λ j, (i, j)) <$> ks) ++ ((λ j, (j, i)) <$> ks)).
Definition complete_net (k : Z) : gset (Z * Z) := list_to_set (a ← seqZ 0 k; b ← seqZ 0 k; [(a, b)]).
Definition row_of (v : View) (names : list string) : list string := take (Z.to_nat (v_n v)) names.

Section Ops.
Context {Srv : Type}.
Notation HarnessOp := (HarnessOp (Srv := Srv)).

Definition view_op (op : HarnessOp) (v : View) : View :=
  match op with
  | OpShutdown i => mkView (v_n v) (v_started v) (v_up v ∖ {[i]}) (v_links v ∖ star i (seqZ 0 (v_n v))) (v_clients v) (v_next v) (v_objects v) (v_used v)
  | OpStart _ names i =>
      mkView (v_n v) ({[i]} ∪ v_started v) ({[i]} ∪ v_up v) (filter (λ p, p.1 ≠ i) (v_links v)) (v_clients v) (v_next v) (S (v_objects v))
        (list_to_set (row_of v names) ∪ v_used v)
  | OpConnect i to => with_links (star i to ∪ v_links v) v
  | OpDisconnect i from => with_links (v_links v ∖ star i from) v
  | OpConnectAll => with_links (complete_net (v_n v)) v
  | OpPartition p1 p2 => with_links (filter (λ p, same_side p1 p2 p.1 p.2) (complete_net (v_n v))) v
  | OpMakeClient names _ to =>
      mkView (v_n v) (v_started v) (v_up v) (v_links v) (<[v_next v := list_to_set to]> (v_clients v)) (S (v_next v)) (v_objects v)
        (list_to_set (row_of v names) ∪ v_used v)
  | OpSetClient yes ck js => with_clients (alter (λ s, if yes : bool then list_to_set js ∪ s else s ∖ list_to_set js) ck (v_clients v)) v
  | OpDeleteClient ck => with_clients (delete ck (v_clients v)) v
  | OpPersist _ _ _ => v
  end.

(** Names for a server's or a client's ends: enough, different, and new. *)
Definition new_names (v : View) (names : list string) : Prop :=
  len (row_of v names) = v_n v ∧ NoDup (row_of v names) ∧ Forall (λ e, e ∉ v_used v) (row_of v names).
Definition all_started (v : View) : Prop := Forall (λ i, i ∈ v_started v) (seqZ 0 (v_n v)).

(** What a test may do: servers and clients that exist, names that are new. *)
Definition legal (op : HarnessOp) (v : View) : Prop :=
  match op with
  | OpShutdown i => 0 <= i < v_n v ∧ all_started v
  | OpStart _ names i => 0 <= i < v_n v ∧ new_names v names
  | OpConnect i to => 0 <= i < v_n v ∧ within (v_n v) to ∧ all_started v
  | OpDisconnect i from => 0 <= i < v_n v ∧ within (v_n v) from ∧ len from <= v_n v ∧ all_started v
  | OpConnectAll => all_started v
  | OpPartition p1 p2 => p1 ++ p2 ≡ₚ seqZ 0 (v_n v) ∧ all_started v
  | OpMakeClient names _ to => new_names v names ∧ within (v_n v) to
  | OpSetClient _ ck js => is_Some (v_clients v !! ck) ∧ within (v_n v) js
  | OpDeleteClient _ => True
  | OpPersist p _ _ => (p < v_objects v)%nat
  end.

#[export] Instance within_dec k ks : Decision (within k ks).
Proof. refine (cast_if (decide (Forall (λ j, 0 <= j < k) ks))); unfold within; by rewrite <-Forall_forall. Defined.
#[export] Instance legal_dec op v : Decision (legal op v).
Proof. destruct op; unfold legal, all_started, new_names; apply _. Defined.

Fixpoint view_ops (ops : list HarnessOp) (v : View) : View :=
  match ops with [] => v | op :: ops => view_ops ops (view_op op v) end.
Fixpoint legal_ops (ops : list HarnessOp) (v : View) : Prop :=
  match ops with [] => True | op :: ops => legal op v ∧ legal_ops ops (view_op op v) end.

#[export] Instance legal_ops_dec ops v : Decision (legal_ops ops v).
Proof. revert v. induction ops; intros v; simpl; apply _. Defined.
End Ops.

Section Refinement.
Context {Srv Cmd W : Type} `{Replica Srv Cmd}.
Context (kv_service rf_service : nat → Service W).
Notation config := (config Srv W).
Implicit Types (c : config) (v : View).
Notation harness_op := (harness_op kv_service rf_service).
Notation harness_ops := (harness_ops kv_service rf_service).

(** ** The refinement relation *)

(** The end leads to server [j]. *)
Definition leads_to_server c (e : string) (j : Z) : Prop := connections (net c) !! EndName e = Some (Some (ServerName j)).

(** The services of server object [p], as [StartServer] registers them. *)
Definition services_of (p : nat) : Server W := AddService (rf_service p) (AddService (kv_service p) MakeServer).

(** The network reaches the object that runs as server [j], or nobody. *)
Definition hosts c (j : Z) : Prop :=
  match (servers c)@[j] with
  | Some (Some p) => ∃ srv, server_at (net c) (ServerName j) = Some srv ∧ store (net c) !! srv = Some (services_of p)
  | Some None => server_at (net c) (ServerName j) = None
  | None => False
  end.

(** The ends of a client. *)
Record client_ok c (names : list string) (s : gset Z) : Prop := {
  co_len : len names = n c;
  co_open j e : names@[j] = Some e → opened c e ↔ j ∈ s;
  co_dest j e : names@[j] = Some e → leads_to_server c e j;
  co_known j e : names@[j] = Some e → EndName e ∈ ends (net c);
  co_inj j j' e : names@[j] = Some e → names@[j'] = Some e → j = j';
  co_apart j e a b : names@[j] = Some e → slot c a b ≠ Some e
}.

Record repr v c : Prop := {
  re_n : n c = v_n v;
  re_mem : mem_ok c;
  re_grid : grid c;
  re_rows i : i ∈ v_started v → ∃ names, (endnames c)@[i] = Some (Some names);
  re_saved : len (saved c) = n c;
  re_servers : len (servers c) = n c;
  re_objects : length (objects c) = v_objects v;
  re_links i j e : slot c i j = Some e → opened c e ↔ (i, j) ∈ v_links v;
  re_dest i j e : slot c i j = Some e → leads_to_server c e j;
  re_up j : 0 <= j < n c → hosts c j ∧ (j ∈ v_up v ↔ ∃ p, (servers c)@[j] = Some (Some p));
  re_next : length (clerk_ends c) = v_next v;
  re_clerks ck : is_Some (clerks c !! ck) ↔ is_Some (v_clients v !! ck);
  re_old ck : is_Some (clerks c !! ck) → (ck < v_next v)%nat;
  re_client ck names s : clerks c !! ck = Some names → v_clients v !! ck = Some s → client_ok c names s;
  re_handles ck names : clerks c !! ck = Some names → ∃ hs, clerk_ends c !! ck = Some hs ∧ hs ≡ₚ names;
  re_apart ck ck' names names' j j' e : clerks c !! ck = Some names → clerks c !! ck' = Some names' →
    names@[j] = Some e → names'@[j'] = Some e → ck = ck';
  re_used e : EndName e ∈ ends (net c) → e ∈ v_used v
}.

Lemma repr_wired v c : repr v c → all_started v → wired c.
Proof. intros Hr Hs. split; [apply (re_grid _ _ Hr)|]. intros i Hi. rewrite (re_n _ _ Hr) in Hi. apply (re_rows _ _ Hr). unfold all_started in Hs. rewrite Forall_forall in Hs. apply Hs, elem_of_seqZ. lia. Qed.

(** ** Switching *)

(** Operations that only switch ends. *)
Lemma repr_switched v c c' l m : repr v c → switched c c' →
  (∀ i j e, slot c i j = Some e → opened c' e ↔ (i, j) ∈ l) →
  (∀ ck, is_Some (m !! ck) ↔ is_Some (v_clients v !! ck)) →
  (∀ ck names s j e, clerks c !! ck = Some names → m !! ck = Some s → names@[j] = Some e → opened c' e ↔ j ∈ s) →
  repr (with_clients m (with_links l v)) c'.
Proof.
  intros [] Hsw Hl Hm Ho. pose proof (proj1 (switched_grid _ _ Hsw re_grid0)) as Hg. destruct Hsw as [en ->].
  split; simpl; try done.
  - by apply (mem_ok_frame c).
  - intros ck. by rewrite Hm.
  - intros ck names s Hc Hs. destruct (v_clients v !! ck) as [s0|] eqn:E0; [|by destruct (proj1 (Hm ck)) as [? ?]; [rewrite Hs|congruence]].
    destruct (re_client0 ck names s0 Hc E0) as [Hlen Hop Hd Hk Hi Ha]. split; [exact Hlen| |exact Hd|exact Hk|exact Hi|exact Ha].
    intros j e Hj. by eapply Ho.
Qed.

(** Wires that are all switched the same way. *)
Lemma opened_wires ws yes c a b e : wired c → slot c a b = Some e → (∀ w, w ∈ ws → w.2 = yes) →
  opened (set_wires ws c) e ↔ ((a, b, yes) ∈ ws ∧ yes = true) ∨ ((a, b, yes) ∉ ws ∧ opened c e).
Proof.
  intros Hw Hs Hall. destruct (decide ((a, b, yes) ∈ ws)) as [Hin|Hin].
  - rewrite (on_set_wires ws c a b e yes) by (done || auto || (intros u Hu; by apply Hall in Hu)). naive_solver.
  - assert (Hno : ∀ u, (a, b, u) ∉ ws) by (intros u Hu; pose proof (Hall _ Hu) as E; simpl in E; by subst).
    assert (∃ u, opened c e ↔ u = true) as [u Hu].
    { destruct (decide (enabled (net c) !! EndName e = Some true)) as [Ho|Ho]; [by exists true|exists false]. split; [by intros ?|done]. }
    rewrite (on_set_wires ws c a b e u), Hu; [naive_solver|done|done|by intros u' ?%Hno|by right].
Qed.

(** Switching the connections between servers. *)
Lemma repr_wires v c ws yes l : repr v c → wired c → (∀ w, w ∈ ws → w.2 = yes) →
  (∀ i j, 0 <= i < n c → 0 <= j < n c → (i, j) ∈ l ↔ ((i, j, yes) ∈ ws ∧ yes = true) ∨ ((i, j, yes) ∉ ws ∧ (i, j) ∈ v_links v)) →
  repr (with_links l v) (set_wires ws c).
Proof.
  intros Hr Hw Hall Hl. change (with_links l v) with (with_clients (v_clients v) (with_links l v)).
  apply (repr_switched v c); [done|apply set_wires_switched| |done|].
  - intros i j e Hs. rewrite (opened_wires ws yes c i j e Hw Hs Hall), (re_links _ _ Hr _ _ _ Hs).
    destruct (cell_range EndName _ _ _ _ _ _ (re_grid _ _ Hr) Hs). by rewrite Hl.
  - intros ck names s j e Hc Hs Hj. pose proof (re_client _ _ Hr ck names s Hc Hs) as Hco.
    rewrite on_set_wires_other by (intros a b; by eapply (co_apart _ _ _ Hco)). by eapply (co_open _ _ _ Hco).
Qed.

Lemma elem_of_star i ks a b : (a, b) ∈ star i ks ↔ (a = i ∧ b ∈ ks) ∨ (b = i ∧ a ∈ ks).
Proof. unfold star. rewrite elem_of_list_to_set, elem_of_app, !list_elem_of_fmap. naive_solver. Qed.

Lemma elem_of_complete k a b : (a, b) ∈ complete_net k ↔ 0 <= a < k ∧ 0 <= b < k.
Proof.
  unfold complete_net. rewrite elem_of_list_to_set, list_elem_of_bind. setoid_rewrite list_elem_of_bind.
  setoid_rewrite list_elem_of_singleton. setoid_rewrite elem_of_seqZ. split; [intros (?&(?&[= -> ->]&?)&?); lia|].
  intros [? ?]. exists a. split; [|lia]. exists b. split; [done|lia].
Qed.

(** The operation returns, and the view says what has become of the network. *)
Definition follows (op : HarnessOp (Srv := Srv)) v c : Prop := ∃ c', harness_op op c = Ret c' ∧ repr (view_op op v) c'.

Lemma connect_follows v c i to : repr v c → legal (Srv := Srv) (OpConnect i to) v → follows (OpConnect i to) v c.
Proof.
  intros Hr (Hi&Hto&Hall). pose proof (repr_wired _ _ Hr Hall) as Hw. rewrite <-(re_n _ _ Hr) in *. eexists. split; [by apply connectUnlocked_wires|].
  apply (repr_wires _ _ _ true); [done..| |].
  - intros [[a b] u] Hin. by apply elem_of_links in Hin as [-> _].
  - intros a b _ _. rewrite elem_of_union, elem_of_star, elem_of_links.
    destruct (decide ((a = i ∧ b ∈ to) ∨ (b = i ∧ a ∈ to))); tauto.
Qed.

Lemma disconnect_follows v c i from : repr v c → legal (Srv := Srv) (OpDisconnect i from) v →
  disconnectUnlocked i from c = Ret (set_wires (cuts i from) c) ∧ repr (with_links (v_links v ∖ star i from) v) (set_wires (cuts i from) c).
Proof.
  intros Hr (Hi&Hfr&Hlen&Hall). pose proof (repr_wired _ _ Hr Hall) as Hw. rewrite <-(re_n _ _ Hr) in *.
  split; [by apply disconnectUnlocked_wires|]. apply (repr_wires _ _ _ false); [done..| |].
  - intros [[a b] u] Hin. by apply elem_of_cuts, elem_of_links in Hin as [-> _].
  - intros a b _ _. rewrite elem_of_difference, elem_of_star, elem_of_cuts, elem_of_links. naive_solver.
Qed.

Lemma ConnectAll_follows v c : repr v c → legal (Srv := Srv) OpConnectAll v → follows OpConnectAll v c.
Proof.
  intros Hr Hall. pose proof (repr_wired _ _ Hr Hall) as Hw. simpl in Hall.
  exists (set_wires (seqZ 0 (n c) ≫= λ i, links i (seqZ 0 (n c)) true) c). split.
  - apply (wires_loop (seqZ 0 (n c)) _ (λ i, links i (seqZ 0 (n c)) true)); [done|]. intros i c1 Hi%elem_of_seqZ Hw1 Hn.
    unfold ServiceConfig.All. rewrite <-Hn in *. apply connectUnlocked_wires; [done|lia|]. intros j Hj%elem_of_seqZ. lia.
  - simpl. rewrite <-(re_n _ _ Hr). apply (repr_wires _ _ _ true); [done..| |].
    + intros [[a b] u] (i&Hin&_)%list_elem_of_bind. by apply elem_of_links in Hin as [-> _].
    + intros a b Ha Hb. rewrite elem_of_complete, list_elem_of_bind. setoid_rewrite elem_of_links. setoid_rewrite elem_of_seqZ.
      split; [|tauto]. intros _. left. split; [|done]. exists a. split; [split; [done|left; split; [done|lia]]|lia].
Qed.

Lemma partition_follows v c p1 p2 : repr v c → legal (Srv := Srv) (OpPartition p1 p2) v → follows (OpPartition p1 p2) v c.
Proof.
  intros Hr [Hp Hall]. pose proof (repr_wired _ _ Hr Hall) as Hw. rewrite <-(re_n _ _ Hr) in Hp.
  destruct (partition_spec c p1 p2 Hw Hp) as (c'&E&_&Hs&Ho). exists c'. split; [done|]. simpl.
  change (with_links ?l v) with (with_clients (v_clients v) (with_links l v)).
  apply (repr_switched v c); [done|by eapply partition_switched| |done|].
  - intros i j e He. rewrite (Hs _ _ _ He), elem_of_filter, elem_of_complete. destruct (cell_range EndName _ _ _ _ _ _ (re_grid _ _ Hr) He).
    rewrite <-(re_n _ _ Hr). simpl. tauto.
  - intros ck names s j e Hc Hsv Hj. pose proof (re_client _ _ Hr ck names s Hc Hsv) as Hco.
    rewrite Ho by (intros a b; by eapply (co_apart _ _ _ Hco)). by eapply (co_open _ _ _ Hco).
Qed.

(** A client's ends are switched one by one. *)
Lemma set_client_loop yes names js c : within (len names) js → ∃ c',
  for_each js (λ j c, s ← try (names@[j]); Ret (enable s yes c)) c = Ret c' ∧ switched c c' ∧
  ∀ e, opened c' e ↔ ((∃ j, j ∈ js ∧ names@[j] = Some e) ∧ yes = true) ∨ ((¬ ∃ j, j ∈ js ∧ names@[j] = Some e) ∧ opened c e).
Proof.
  intros Hin. apply (for_each_total (λ js c', switched c c' ∧ ∀ e, opened c' e ↔
    ((∃ j, j ∈ js ∧ names@[j] = Some e) ∧ yes = true) ∨ ((¬ ∃ j, j ∈ js ∧ names@[j] = Some e) ∧ opened c e))).
  - split; [done|]. intros e. split; [|by intros [[(j&Hj%not_elem_of_nil&_) _]|[_ ?]]]. intros Ho. right. split; [|done].
    by intros (j&Hj%not_elem_of_nil&_).
  - intros done_ j rest c1 E [Hsw Ho]. destruct (idx_in_range names j) as [s Hs]; [apply Hin; rewrite E; set_solver|].
    rewrite Hs. cbn [try mbind Res_bind]. eexists. split; [done|]. split; [etrans; [done|by apply enable_switched]|].
    intros e. change (opened (switch s yes c1) e ↔ ((∃ j0, j0 ∈ done_ ++ [j] ∧ names@[j0] = Some e) ∧ yes = true) ∨
      ((¬ ∃ j0, j0 ∈ done_ ++ [j] ∧ names@[j0] = Some e) ∧ opened c e)).
    rewrite opened_switch, Ho.
    assert (Hsnoc : (∃ j0, j0 ∈ done_ ++ [j] ∧ names@[j0] = Some e) ↔ (∃ j0, j0 ∈ done_ ∧ names@[j0] = Some e) ∨ e = s).
    { setoid_rewrite elem_of_app. setoid_rewrite list_elem_of_singleton. naive_solver. }
    rewrite Hsnoc. destruct (decide (e = s)); tauto.
Qed.

Lemma with_links_same v : with_links (v_links v) v = v.
Proof. by destruct v. Qed.

Lemma set_client_follows v c yes ck js : repr v c → legal (Srv := Srv) (OpSetClient yes ck js) v → follows (OpSetClient yes ck js) v c.
Proof.
  intros Hr [[s0 Hs0] Hjs]. destruct (proj2 (re_clerks _ _ Hr ck)) as [names Hn]; [by rewrite Hs0|].
  pose proof (re_client _ _ Hr _ _ _ Hn Hs0) as Hco.
  destruct (set_client_loop yes names js c) as (c'&E&Hsw&Ho); [by rewrite (co_len _ _ _ Hco), (re_n _ _ Hr)|].
  exists c'. split; [simpl; unfold set_client; by rewrite Hn|]. simpl. rewrite <-(with_links_same v) at 2. apply (repr_switched v c); [done|done|..].
  - intros i j e He. rewrite Ho, <-(re_links _ _ Hr _ _ _ He).
    assert (¬ ∃ k, k ∈ js ∧ names@[k] = Some e); [|tauto]. intros (k&_&Hk). by eapply (co_apart _ _ _ Hco).
  - intros ck'. by rewrite lookup_alter_is_Some.
  - intros ck' names' s j e Hn' Hs Hj. rewrite Ho. destruct (decide (ck' = ck)) as [->|Hne].
    + rewrite lookup_alter_eq, Hs0 in Hs. rewrite Hn in Hn'. injection Hn' as <-. injection Hs as <-.
      assert (Hex : (∃ k, k ∈ js ∧ names@[k] = Some e) ↔ j ∈ js).
      { split; [|eauto]. intros (k&Hk&Hke). by rewrite <-(co_inj _ _ _ Hco _ _ _ Hke Hj). }
      rewrite Hex, (co_open _ _ _ Hco _ _ Hj). destruct yes; set_unfold; destruct (decide (j ∈ js)); tauto || naive_solver.
    + rewrite lookup_alter_ne in Hs by done. rewrite (co_open _ _ _ (re_client _ _ Hr _ _ _ Hn' Hs) _ _ Hj).
      assert (¬ ∃ k, k ∈ js ∧ names@[k] = Some e); [|tauto]. intros (k&_&Hk). apply Hne. by eapply (re_apart _ _ Hr).
Qed.

Lemma delete_follows v c ck : repr v c → follows (OpDeleteClient ck) v c.
Proof.
  intros []. eexists. split; [done|]. assert (Hdel : ∀ {A} (m : gmap nat A) k x, delete ck m !! k = Some x → k ≠ ck ∧ m !! k = Some x)
    by (intros A m k x [? ?]%lookup_delete_Some; done).
  split; simpl; try done.
  - by apply (mem_ok_frame c).
  - intros k. rewrite !lookup_delete_is_Some. specialize (re_clerks0 k). naive_solver.
  - intros k [x [_ Hx]%Hdel]. eauto.
  - intros k names s [_ Hn]%Hdel [_ Hs]%Hdel. destruct (re_client0 k names s Hn Hs). by split.
  - intros k names [_ Hn]%Hdel. eauto.
  - intros k k' names names' j j' e [_ Hn]%Hdel [_ Hn']%Hdel. eauto.
Qed.

Lemma persist_follows v c p st snap : repr v c → legal (Srv := Srv) (OpPersist p st snap) v → follows (OpPersist p st snap) v c.
Proof.
  intros Hr Hp. simpl in Hp. rewrite <-(re_objects _ _ Hr) in Hp. apply lookup_lt_is_Some_2 in Hp as [ob Hob].
  eexists. split; [simpl; unfold persist; by rewrite Hob|]. destruct Hr. split; simpl; try done.
  - apply (mem_ok_frame c); try done. simpl. by rewrite length_alter.
  - intros ck names s Hn Hs. destruct (re_client0 ck names s Hn Hs). by split.
Qed.

(** ** Stopping a server *)

(** A server is cut off from all. *)
Lemma shutdown_cuts v c i : repr v c → legal (Srv := Srv) (OpShutdown i) v → legal (Srv := Srv) (OpDisconnect i (seqZ 0 (n c))) v.
Proof.
  intros Hr [Hi Hall]. rewrite (re_n _ _ Hr). split; [done|]. split; [intros j Hj%elem_of_seqZ; lia|]. split; [|done].
  unfold len. rewrite length_seqZ. lia.
Qed.

(** The harness has the persister and the object of a server it stops. *)
Lemma Shutdown_returns v c i : repr v c → legal (Srv := Srv) (OpShutdown i) v → ∃ c', ShutdownServer i c = Ret c' ∧
  net c' = DeleteServer (ServerName i) (net (set_wires (cuts i (seqZ 0 (n c))) c)) ∧ clerks c' = clerks c ∧ clerk_ends c' = clerk_ends c ∧
  len (saved c') = len (saved c) ∧ length (objects c') = length (objects c).
Proof.
  intros Hr [Hi Hall]. unfold ShutdownServer, ServiceConfig.All.
  destruct (disconnect_follows v c i (seqZ 0 (n c)) Hr (shutdown_cuts _ _ _ Hr (conj Hi Hall))) as [E _].
  rewrite <-(re_n _ _ Hr) in Hi. rewrite E. cbn [mbind Res_bind]. destruct (set_wires_switched (cuts i (seqZ 0 (n c))) c) as [en ->].
  destruct (idx_in_range (saved c) i) as [sv Hsv]; [rewrite (re_saved _ _ Hr); lia|].
  destruct (idx_in_range (servers c) i) as [kv Hkv]; [rewrite (re_servers _ _ Hr); lia|].
  pose proof (re_mem _ _ Hr) as Hm.
  set (c1 := with_net _ (with_net _ c)). assert (Hcopy : ∃ c2, copy_saved i c1 = Ret c2 ∧ net c2 = net c1 ∧ clerks c2 = clerks c ∧ clerk_ends c2 = clerk_ends c ∧
    servers c2 = servers c ∧ objects c2 = objects c ∧ len (saved c2) = len (saved c)).
  { unfold copy_saved. change (saved c1) with (saved c). change (persisters c1) with (persisters c). rewrite Hsv. cbn [try mbind Res_bind].
    destruct sv as [q|]; [|by eexists]. pose proof (mo_saved _ Hm _ _ Hsv) as Hq. apply lookup_lt_is_Some_2 in Hq as [ps Hps]. rewrite Hps. cbn [try mbind Res_bind].
    destruct (upd (saved c) i _) as [l|] eqn:Eu; [|rewrite upd_in_range in Eu by (rewrite (re_saved _ _ Hr); lia); done].
    cbn [try mbind Res_bind]. eexists. split_and!; try done. simpl. by eapply len_upd. }
  destruct Hcopy as (c2&->&Hnet&Hck&Hce&Hs&Ho&Hl). cbn [mbind Res_bind]. rewrite Hs, Hkv. cbn [try mbind Res_bind].
  destruct kv as [p|]; [|exists c2; by rewrite Hnet, Ho]. destruct (mo_running _ Hm _ _ Hkv) as (ob&Hob&_). rewrite Ho, Hob. cbn [try mbind Res_bind].
  destruct (upd (servers c) i None) as [l|] eqn:Eu; [|rewrite upd_in_range in Eu by (rewrite (re_servers _ _ Hr); lia); done].
  cbn [try mbind Res_bind]. eexists. split; [done|]. simpl. rewrite Hnet, length_insert. by split_and!.
Qed.

(** The ends are as they were; servers come and go. *)
Lemma client_ok_frame c c' names s : n c' = n c → endnames c' = endnames c → connections (net c') = connections (net c) →
  ends (net c') = ends (net c) → (∀ e, opened c' e ↔ opened c e) → client_ok c names s → client_ok c' names s.
Proof.
  intros Hn He Hc Hen Ho [Hlen Hop Hd Hk Hi Ha]. split; unfold leads_to_server, slot; rewrite ?Hn, ?He, ?Hc, ?Hen; try done.
  intros j e Hj. rewrite Ho. by apply Hop.
Qed.

Lemma shutdown_follows v c i : repr v c → legal (Srv := Srv) (OpShutdown i) v → follows (OpShutdown i) v c.
Proof.
  intros Hr Hleg. destruct (Shutdown_returns v c i Hr Hleg) as (c'&E&Hnet&Hck&Hce&Hsvl&Hol). exists c'. split; [done|].
  pose proof (Shutdown_parts _ _ _ E) as Hst. destruct (disconnect_follows _ _ _ _ Hr (shutdown_cuts _ _ _ Hr Hleg)) as [_ Hd].
  rewrite (re_n _ _ Hr) in Hd at 1. set (d := set_wires _ _) in *. destruct (set_wires_switched (cuts i (seqZ 0 (n c))) c) as [en Hen]. fold d in Hen.
  assert (Hslot : slot c' = slot d) by (unfold slot; by rewrite (sp_endnames _ _ _ Hst), Hen).
  assert (Ho : ∀ e, opened c' e ↔ opened d e) by (intros e; unfold opened; simpl; by rewrite Hnet).
  assert (Hserv : ∀ j, (servers c')@[j] = if j =? i then Some None else (servers c)@[j]) by (intros j; apply (idx_upd _ _ _ _ _ (sp_servers _ _ _ Hst))).
  assert (Hn : n c' = n d) by (rewrite (sp_n _ _ _ Hst); by rewrite Hen).
  destruct Hd as [Hdn Hdm Hdg Hdr Hdsv Hdse Hdo Hdl Hdd Hdu Hdnx Hdc Hdold Hdcl Hdh Hda Hdus]. simpl in *.
  split; simpl; unfold leads_to_server; rewrite ?Hnet, ?Hn, ?Hck, ?Hce; simpl; try done.
  - eapply mem_ok_stopped, (re_mem _ _ Hr). done.
  - apply (grid_same d c'); [by rewrite Hn|by rewrite (sp_endnames _ _ _ Hst), Hen|by rewrite Hnet|done].
  - intros j Hj. rewrite (sp_endnames _ _ _ Hst). destruct (Hdr j Hj) as [names Hnm]. rewrite Hen in Hnm. by exists names.
  - rewrite Hsvl, Hen. apply (re_saved _ _ Hr).
  - rewrite (len_upd _ _ _ _ (sp_servers _ _ _ Hst)), Hen. apply (re_servers _ _ Hr).
  - rewrite Hol. apply (re_objects _ _ Hr).
  - rewrite Hslot. intros a b e He. rewrite Ho. by apply Hdl.
  - rewrite Hslot. intros a b e He. by eapply Hdd.
  - intros j Hj. specialize (Hdu j Hj) as [Hh Hu]. unfold hosts in *. rewrite Hserv. rewrite Hen in Hh, Hu. simpl in Hh, Hu. rewrite Hnet, Hen.
    unfold server_at in *. simpl. destruct (Z.eqb_spec j i) as [->|Hne].
    + rewrite lookup_insert_eq. split; [done|]. split; [set_solver|by intros [p ?]].
    + rewrite lookup_insert_ne by congruence. split; [done|]. rewrite <-Hu. set_solver.
  - rewrite Hen in Hdnx. exact Hdnx.
  - rewrite Hen in Hdc. exact Hdc.
  - rewrite Hen in Hdold. exact Hdold.
  - intros ck names s Hc Hs. apply (client_ok_frame d); [done|by rewrite (sp_endnames _ _ _ Hst), Hen|by rewrite Hnet|by rewrite Hnet|done|].
    apply (Hdcl ck); [by rewrite Hen|done].
  - rewrite Hen in Hdh. exact Hdh.
  - rewrite Hen in Hda. exact Hda.
Qed.

(** ** Making ends *)

Notation make_ends names js := (for_each js (λ j c, e ← try (names@[j]); make_end e j c)).

(** Where the fresh ends lead; nothing else changes. *)
Record ends_made (names : list string) (js : list Z) c c' : Prop := {
  em_conn j e : j ∈ js → names@[j] = Some e → leads_to_server c' e j;
  em_other e : (¬ ∃ j, j ∈ js ∧ names@[j] = Some e) → connections (net c') !! EndName e = connections (net c) !! EndName e;
  em_servers : LabRpc.servers (net c') = LabRpc.servers (net c);
  em_store : store (net c') = store (net c)
}.

Lemma make_ends_made names js c c' : make_ends names js c = Ret c' → (∀ j j' e, j ∈ js → j' ∈ js → names@[j] = Some e → names@[j'] = Some e → j = j') → ends_made names js c c'.
Proof.
  intros E. revert E. apply (for_each_ind (λ js c', (∀ j j' e, j ∈ js → j' ∈ js → names@[j] = Some e → names@[j'] = Some e → j = j') → ends_made names js c c')).
  - intros _. split; try done. by intros j e ?%not_elem_of_nil.
  - intros done_ j c1 c2 Hc1 E Hinj. destruct Hc1 as [Hcn Hot Hsv Hst]; [intros ????? ; apply Hinj; set_solver|].
    apply bind_Ret in E as (e0&He0%try_Ret&E). unfold make_end, MakeEnd in E. destruct (decide _); [done|]. injection E as <-.
    split; simpl; unfold leads_to_server; simpl; [..|done|done].
    + intros j0 e Hj0 He. destruct (decide (e = e0)) as [->|Hne].
      * rewrite lookup_insert_eq. do 3 f_equal. apply (Hinj _ _ e0); [set_solver|done..].
      * rewrite !lookup_insert_ne by congruence. apply Hcn; [|done]. apply elem_of_app in Hj0 as [?|Hj0%list_elem_of_singleton]; [done|congruence].
    + intros e Hno. assert (e ≠ e0) by (intros ->; apply Hno; exists j; set_solver). rewrite !lookup_insert_ne by congruence.
      apply Hot. intros (j0&?&?). apply Hno. exists j0. set_solver.
Qed.

(** New names are accepted. *)
Lemma make_ends_returns names js c : (∀ j, j ∈ js → ∃ e, names@[j] = Some e ∧ EndName e ∉ ends (net c)) → NoDup js →
  (∀ j j' e, names@[j] = Some e → names@[j'] = Some e → j = j') → ∃ c', make_ends names js c = Ret c'.
Proof.
  intros Hnew Hnd Hinj. destruct (for_each_total (λ js c', ∀ e, EndName e ∈ ends (net c') ↔ EndName e ∈ ends (net c) ∨ ∃ j, j ∈ js ∧ names@[j] = Some e)
    (λ j c, e ← try (names@[j]); make_end e j c) js c) as (c'&E&_); [|..|by exists c'].
  - intros e. split; [by left|]. by intros [?|(j&?%not_elem_of_nil&_)].
  - intros done_ j rest c1 E Hends. destruct (Hnew j) as (e&He&Hn); [rewrite E; set_solver|]. rewrite He. cbn [try mbind Res_bind]. unfold make_end, MakeEnd.
    rewrite decide_False.
    + eexists. split; [done|]. intros e'. simpl. rewrite elem_of_union, elem_of_singleton, Hends. setoid_rewrite elem_of_app. setoid_rewrite list_elem_of_singleton.
      split; [intros [[= ->]|[?|?]]; naive_solver|]. intros [?|(j0&[?| ->]&?)]; naive_solver.
    + rewrite Hends. intros [?|(j0&Hj0&He0)]; [done|]. rewrite (Hinj _ _ _ He He0) in E. rewrite E in Hnd. apply NoDup_app in Hnd as (_&Hd&_).
      apply (Hd j0); [done|by left].
Qed.

(** The names of a row are different. *)
Lemma NoDup_idx_inj (l : list string) j j' e : NoDup l → l@[j] = Some e → l@[j'] = Some e → j = j'.
Proof.
  intros Hnd Hj Hj'. pose proof (idx_Some_range _ _ _ Hj). pose proof (idx_Some_range _ _ _ Hj'). unfold idx in *.
  rewrite (proj2 (Z.leb_le 0 j)) in Hj by lia. rewrite (proj2 (Z.leb_le 0 j')) in Hj' by lia. pose proof (NoDup_lookup _ _ _ _ Hnd Hj Hj'). lia.
Qed.

Lemma row_ends v c names : repr v c → new_names v names →
  let row := row_of v names in
  len row = n c ∧ NoDup row ∧ (∀ j, j ∈ seqZ 0 (n c) → ∃ e, row@[j] = Some e ∧ EndName e ∉ ends (net c)) ∧
  (∀ j e, row@[j] = Some e → 0 <= j < n c ∧ EndName e ∉ ends (net c)).
Proof.
  intros Hr (Hl&Hnd&Hnew) row. rewrite Forall_forall in Hnew. rewrite (re_n _ _ Hr). assert (Hn : ∀ j e, row@[j] = Some e → EndName e ∉ ends (net c)).
  { intros j e He Hin. apply (re_used _ _ Hr) in Hin. by apply (Hnew e); [eapply idx_elem_of|]. }
  split_and!; [done..| |].
  - intros j Hj%elem_of_seqZ. destruct (idx_in_range row j) as [e He]; [unfold row; lia|]. eauto.
  - intros j e He. pose proof (idx_Some_range _ _ _ He). unfold row in *. split; [lia|eauto].
Qed.

(** A row of new ends in the network of [c1], next to those of [c]. *)
Record added (row : list string) c c1 : Prop := {
  ad_range j e : row@[j] = Some e → 0 <= j < n c;
  ad_inj j j' e : row@[j] = Some e → row@[j'] = Some e → j = j';
  ad_known e : EndName e ∈ ends (net c) → ¬ ∃ j, row@[j] = Some e;
  ad_opened e : opened c1 e ↔ opened c e ∧ ¬ ∃ j, row@[j] = Some e;
  ad_conn j e : row@[j] = Some e → leads_to_server c1 e j;
  ad_other e : (¬ ∃ j, row@[j] = Some e) → connections (net c1) !! EndName e = connections (net c) !! EndName e;
  ad_ends e : EndName e ∈ ends (net c1) ↔ EndName e ∈ ends (net c) ∨ ∃ j, row@[j] = Some e
}.

Lemma added_row v c c0 c1 names : repr v c → new_names v names → net c0 = net c →
  make_ends (row_of v names) (seqZ 0 (n c)) c0 = Ret c1 → added (row_of v names) c c1.
Proof.
  intros Hr Hnew Hnet E. destruct (row_ends v c names Hr Hnew) as (_&Hnd&_&Hin). set (row := row_of v names) in *.
  pose proof (make_ends_fresh _ _ _ _ E) as Hf. pose proof (make_ends_made _ _ _ _ E (λ j j' e _ _, NoDup_idx_inj row j j' e Hnd)) as Hem.
  assert (Hall : ∀ j e, row@[j] = Some e → j ∈ seqZ 0 (n c)) by (intros j e [? _]%Hin; apply elem_of_seqZ; lia).
  assert (Hfresh : ∀ e, (∃ j, j ∈ seqZ 0 (n c) ∧ row@[j] = Some e) ↔ ∃ j, row@[j] = Some e) by naive_solver.
  split.
  - by intros j e [? _]%Hin.
  - intros j j' e. by apply NoDup_idx_inj.
  - intros e Hk (j&Hj). by apply Hin in Hj as [_ ?].
  - intros e. rewrite <-Hfresh, (fe_opened _ _ _ _ Hf e). unfold opened. simpl. by rewrite Hnet.
  - intros j e Hj. by apply (em_conn _ _ _ _ Hem); eauto.
  - intros e He. rewrite <-Hnet. apply (em_other _ _ _ _ Hem). by rewrite Hfresh.
  - intros e. rewrite <-Hnet, <-Hfresh. apply (fe_ends _ _ _ _ Hf e).
Qed.

(** ** Starting a server *)

(** What [StartServer] does to the network and to the clients. *)
Record start_net (row : list string) (i : Z) c c' : Prop := {
  sn_loop : ∃ c1, make_ends row (seqZ 0 (n c)) (with_endnames (endnames c') c) = Ret c1 ∧ enabled (net c') = enabled (net c1) ∧
            connections (net c') = connections (net c1) ∧ ends (net c') = ends (net c1);
  sn_servers : LabRpc.servers (net c') = <[ServerName i := Some (length (store (net c)))]> (LabRpc.servers (net c));
  sn_store : store (net c') = store (net c) ++ [services_of (length (objects c))];
  sn_clerks : clerks c' = clerks c;
  sn_handles : clerk_ends c' = clerk_ends c
}.

Lemma Start_returns v c start names i : repr v c → legal (OpStart start names i) v →
  ∃ c', StartServer kv_service rf_service start names i c = Ret c' ∧ start_net (row_of v names) i c c'.
Proof.
  intros Hr [Hi Hnew]. destruct (row_ends v c names Hr Hnew) as (Hl&Hnd&Hsome&Hin). rewrite <-(re_n _ _ Hr) in Hi.
  unfold StartServer, row_of in *. rewrite <-(re_n _ _ Hr) in *. set (row := take _ names) in *.
  rewrite upd_in_range by (rewrite (gr_rows _ _ _ _ (re_grid _ _ Hr)); lia). cbn [try mbind Res_bind]. set (es := <[Z.to_nat i := Some row]> (endnames c)).
  set (c0 := with_endnames es c). destruct (make_ends_returns row (seqZ 0 (n c0)) c0) as [c1 E1]; [exact Hsome|apply NoDup_seqZ|intros j j' e; by apply NoDup_idx_inj|].
  rewrite E1. cbn [mbind Res_bind]. pose proof (make_ends_fresh _ _ _ _ E1) as Hf.
  pose proof (make_ends_made _ _ _ _ E1 (λ j j' e _ _, NoDup_idx_inj row j j' e Hnd)) as Hem.
  assert (Hfr : saved c1 = saved c ∧ persisters c1 = persisters c ∧ servers c1 = servers c ∧ objects c1 = objects c ∧ endnames c1 = es ∧ clerks c1 = clerks c ∧ clerk_ends c1 = clerk_ends c ∧ n c1 = n c)
    by (rewrite (fe_frame _ _ _ _ Hf); by split_and!).
  destruct Hfr as (Hsv&Hps&Hse&Hob&Hes&Hck&Hce&Hn1).
  destruct (idx_in_range (saved c) i) as [sv Hsvi]; [rewrite (re_saved _ _ Hr); lia|]. rewrite Hsv, Hsvi. cbn [try mbind Res_bind].
  assert (Hu : ∀ x, upd (saved c) i x = Some (<[Z.to_nat i := x]> (saved c))) by (intros x; apply upd_in_range; rewrite (re_saved _ _ Hr); lia).
  assert (Hc2 : ∃ ps, (match sv with Some _ => copy_saved i c1 | None => sv ← try (upd (saved c) i (Some (length (persisters c1)))); Ret (with_saved sv (persisters c1 ++ [MakePersister]) c1) end)
      = Ret (with_saved (<[Z.to_nat i := Some (length (persisters c))]> (saved c)) (persisters c ++ [ps]) c1)).
  { destruct sv as [q|]; [|exists MakePersister; by rewrite Hps, Hu]. unfold copy_saved. rewrite Hsv, Hsvi. cbn [try mbind Res_bind].
    destruct (lookup_lt_is_Some_2 (persisters c) q) as [ps Hq]; [by eapply (mo_saved _ (re_mem _ _ Hr))|]. exists ps. rewrite Hps, Hq. cbn [try mbind Res_bind]. by rewrite Hu, Copy_id. }
  destruct Hc2 as [ps ->]. cbn [mbind Res_bind]. set (c2 := with_saved _ _ c1).
  assert (Hi2 : (saved c2)@[i] = Some (Some (length (persisters c)))) by (unfold c2; simpl; by rewrite (idx_upd _ _ _ _ _ (Hu _)), Z.eqb_refl).
  rewrite Hi2. cbn [try mbind Res_bind]. unfold c2 at 1. simpl persisters. rewrite lookup_app_r, Nat.sub_diag by lia. cbn [try mbind Res_bind lookup list_lookup].
  change (servers c2) with (servers c1). change (objects c2) with (objects c1). rewrite Hse, Hob.
  rewrite upd_in_range by (rewrite (re_servers _ _ Hr); lia). cbn [try mbind Res_bind]. unfold new_server. eexists. split; [done|].
  split; simpl; rewrite ?(em_servers _ _ _ _ Hem), ?(em_store _ _ _ _ Hem); try done.
  - exists c1. rewrite Hes. by split_and!.
  - change (store (net c0)) with (store (net c)). apply list_eq. intros k. destruct (decide (k = length (store (net c)))) as [->|Hk].
    + by rewrite list_lookup_alter_eq, !lookup_app_r, Nat.sub_diag by lia.
    + rewrite list_lookup_alter_ne by done. destruct (decide (k < length (store (net c)))%nat); [by rewrite !lookup_app_l|].
      rewrite !lookup_app_r by lia. by destruct (k - length (store (net c)))%nat eqn:Ek; [lia|].
Qed.

(** A client's ends are none of the new ones. *)
Lemma client_ok_added row c c' c1 names s : added row c c1 → (∀ a b, slot c' a b = slot c a b ∨ slot c' a b = row@[b]) → n c' = n c →
  connections (net c') = connections (net c1) → ends (net c') = ends (net c1) →
  (∀ e, EndName e ∈ ends (net c) → opened c' e ↔ opened c e) → client_ok c names s → client_ok c' names s.
Proof.
  intros Ha Hslot Hn Hcn Hends Ho [Hlen Hop Hd Hk Hinj Hap]. split; [by rewrite Hn|..|done|].
  - intros j e Hj. rewrite Ho by eauto. eauto.
  - intros j e Hj. unfold leads_to_server. rewrite Hcn, (ad_other _ _ _ Ha) by (by eapply (ad_known _ _ _ Ha), Hk). by apply Hd.
  - intros j e Hj. rewrite Hends. apply (ad_ends _ _ _ Ha). eauto.
  - intros j e a b Hj He. destruct (Hslot a b) as [E|E]; rewrite E in He; [by eapply Hap|]. by eapply (ad_known _ _ _ Ha e); [eauto|eexists].
Qed.

Lemma start_follows v c start names i : repr v c → legal (OpStart start names i) v → follows (OpStart start names i) v c.
Proof.
  intros Hr Hleg. destruct (Start_returns v c start names i Hr Hleg) as (c'&E&[(c1&E1&Hen&Hcn&Hends) Hsv Hst Hck Hce]). exists c'. split; [done|].
  destruct Hleg as [Hi Hnew]. pose proof (added_row v c (with_endnames (endnames c') c) c1 names Hr Hnew eq_refl E1) as Ha.
  destruct (Start_parts _ _ _ _ _ _ _ E) as [ps Hp]. rewrite <-(re_n _ _ Hr) in Hi.
  assert (Hrow : take (Z.to_nat (n c)) names = row_of v names) by (unfold row_of; by rewrite (re_n _ _ Hr)). rewrite Hrow in Hp.
  pose proof (proj1 Hnew) as Hl. set (row := row_of v names) in *.
  destruct (st_row _ _ _ _ _ _ Hp) as (_&Hes&_). pose proof (st_n _ _ _ _ _ _ Hp) as Hn.
  assert (Hslot : ∀ a b, slot c' a b = if a =? i then row@[b] else slot c a b).
  { intros a b. unfold slot, cell. rewrite (idx_upd _ _ _ _ _ Hes). by destruct (a =? i). }
  assert (Ho : ∀ e, opened c' e ↔ opened c e ∧ ¬ ∃ j, row@[j] = Some e) by (intros e; rewrite <-(ad_opened _ _ _ Ha e); unfold opened; simpl; by rewrite Hen).
  assert (Hgr : ∀ a b e, slot c a b = Some e → ¬ ∃ j, row@[j] = Some e) by (intros a b e He; by eapply (ad_known _ _ _ Ha), (gr_ends _ _ _ _ (re_grid _ _ Hr))).
  split; simpl; rewrite ?Hn, ?Hck, ?Hce; try (by apply Hr).
  - eapply mem_ok_started, (re_mem _ _ Hr). done.
  - eapply (Start_grid _ _ _ _ _ _ Hp), (re_grid _ _ Hr). rewrite Hl, (re_n _ _ Hr). lia.
  - intros j Hj. rewrite (idx_upd _ _ _ _ _ Hes). destruct (Z.eqb_spec j i); [eauto|]. apply (re_rows _ _ Hr). set_solver.
  - rewrite (len_upd _ _ _ _ (st_saved _ _ _ _ _ _ Hp)). apply (re_saved _ _ Hr).
  - rewrite (len_upd _ _ _ _ (st_servers _ _ _ _ _ _ Hp)). apply (re_servers _ _ Hr).
  - rewrite (st_objects _ _ _ _ _ _ Hp), length_app, (re_objects _ _ Hr). simpl. lia.
  - intros a b e He. rewrite Hslot in He. rewrite Ho, elem_of_filter. simpl. destruct (Z.eqb_spec a i) as [->|Hne].
    + split; [|tauto]. intros [_ []]. by exists b.
    + rewrite (re_links _ _ Hr _ _ _ He). specialize (Hgr _ _ _ He). tauto.
  - intros a b e He. rewrite Hslot in He. unfold leads_to_server. rewrite Hcn. destruct (Z.eqb_spec a i) as [->|Hne]; [by apply (ad_conn _ _ _ Ha)|].
    rewrite (ad_other _ _ _ Ha) by (by eapply Hgr). by eapply (re_dest _ _ Hr).
  - intros j Hj. destruct (re_up _ _ Hr j Hj) as [Hh Hu]. unfold hosts in *. rewrite (idx_upd _ _ _ _ _ (st_servers _ _ _ _ _ _ Hp)).
    unfold server_at in *. rewrite Hsv, Hst. destruct (Z.eqb_spec j i) as [->|Hne].
    + split; [|split; [eauto|set_solver]]. exists (length (store (net c))). rewrite lookup_insert_eq. split; [done|].
      by rewrite lookup_app_r, Nat.sub_diag by lia.
    + rewrite lookup_insert_ne by congruence. split; [|rewrite <-Hu; set_solver]. destruct ((servers c)@[j]) as [[p|]|]; [|done..].
      destruct Hh as (srv&?&?). exists srv. split; [done|]. by apply lookup_app_l_Some.
  - intros ck nms sc Hc Hs. eapply (client_ok_added row c c' c1); [done| |done..| |by eapply (re_client _ _ Hr)].
    + intros a b. rewrite Hslot. destruct (a =? i); auto.
    + intros e He%(ad_known _ _ _ Ha). rewrite Ho. tauto.
  - intros e. rewrite Hends, (ad_ends _ _ _ Ha), elem_of_union, elem_of_list_to_set.
    intros [He|(j&Hj)]; [right; by apply (re_used _ _ Hr)|left; by eapply idx_elem_of].
Qed.

(** ** Clients *)

Lemma random_handles_Permutation {A} rnd (l : list A) : ∃ hs, random_handles rnd l = Ret hs ∧ hs ≡ₚ l.
Proof.
  unfold random_handles. apply (for_each_total (λ _ sa, sa ≡ₚ l)); [done|]. intros done_ i rest sa E Hp.
  assert (Hi : i ∈ seqZ 0 (len l)) by (rewrite E; set_solver). apply elem_of_seqZ in Hi.
  assert (Hlen : len sa = len l) by (unfold len; by rewrite Hp). pose proof (Z.mod_pos_bound (rnd i) (i + 1) ltac:(lia)) as Hj.
  unfold swap, Intn. set (j := rnd i mod (i + 1)) in *. destruct (idx_in_range sa i) as [y Hy]; [lia|]. destruct (idx_in_range sa j) as [x Hx]; [lia|].
  rewrite Hx, Hy. cbn [try mbind Res_bind]. rewrite upd_in_range by lia. cbn [try mbind Res_bind].
  rewrite upd_in_range by (unfold len in *; rewrite length_insert; lia). eexists. split; [done|]. rewrite <-Hp.
  unfold idx in Hx, Hy. rewrite (proj2 (Z.leb_le 0 i)) in Hy by lia. rewrite (proj2 (Z.leb_le 0 j)) in Hx by lia. by apply exchange_Permutation.
Qed.

(** What [makeClient] does: fresh ends, some of them open, in the hands of a clerk. *)
Record client_made (row : list string) (to : list Z) c c' : Prop := {
  cm_loop : ∃ c1, make_ends row (seqZ 0 (n c)) c = Ret c1 ∧ connections (net c') = connections (net c1) ∧ ends (net c') = ends (net c1) ∧
    ∀ e, opened c' e ↔ ((∃ j, j ∈ to ∧ row@[j] = Some e) ∧ true = true) ∨ ((¬ ∃ j, j ∈ to ∧ row@[j] = Some e) ∧ opened c1 e);
  cm_net : LabRpc.servers (net c') = LabRpc.servers (net c) ∧ store (net c') = store (net c);
  cm_clerks : clerks c' = <[length (clerk_ends c) := row]> (clerks c);
  cm_handles : ∃ hs, clerk_ends c' = clerk_ends c ++ [hs] ∧ hs ≡ₚ row
}.

Lemma makeClient_returns v c names rnd to : repr v c → legal (Srv := Srv) (OpMakeClient names rnd to) v →
  ∃ c' ck, makeClient names rnd to c = Ret (c', ck) ∧ client_made (row_of v names) to c c'.
Proof.
  intros Hr [Hnew Hto]. destruct (row_ends v c names Hr Hnew) as (Hl&Hnd&Hsome&Hin). unfold makeClient, row_of in *. rewrite <-(re_n _ _ Hr) in *.
  set (row := take _ names) in *. destruct (make_ends_returns row (seqZ 0 (n c)) c) as [c1 E1]; [exact Hsome|apply NoDup_seqZ|intros j j' e; by apply NoDup_idx_inj|].
  rewrite E1. cbn [mbind Res_bind]. pose proof (make_ends_fresh _ _ _ _ E1) as Hf.
  pose proof (make_ends_made _ _ _ _ E1 (λ j j' e _ _, NoDup_idx_inj row j j' e Hnd)) as Hem.
  assert (Hfr : clerks c1 = clerks c ∧ clerk_ends c1 = clerk_ends c) by (rewrite (fe_frame _ _ _ _ Hf); by split). destruct Hfr as [Hck Hce].
  destruct (random_handles_Permutation rnd row) as (hs&->&Hhs). cbn [mbind Res_bind]. rewrite Hck, Hce. set (ck := length (clerk_ends c)).
  set (c2 := with_clerks _ _ _ c1). destruct (set_client_loop true row to c2) as (c3&E3&[en Hsw]&Ho); [by rewrite Hl|].
  unfold ConnectClientUnlocked, set_client. change (clerks c2) with (<[ck := row]> (clerks c)). rewrite lookup_insert_eq. simpl default. rewrite E3.
  cbn [mbind Res_bind]. do 2 eexists. split; [done|]. rewrite Hsw in Ho |- *. split.
  - exists c1. by split_and!.
  - split; [exact (em_servers _ _ _ _ Hem)|exact (em_store _ _ _ _ Hem)].
  - done.
  - by exists hs.
Qed.

Lemma new_client_ok row to c c' c1 : added row c c1 →
  (∀ e, opened c' e ↔ ((∃ j, j ∈ to ∧ row@[j] = Some e) ∧ true = true) ∨ ((¬ ∃ j, j ∈ to ∧ row@[j] = Some e) ∧ opened c1 e)) →
  connections (net c') = connections (net c1) → ends (net c') = ends (net c1) → len row = n c' →
  (∀ a b e, slot c' a b = Some e → EndName e ∈ ends (net c)) → client_ok c' row (list_to_set to).
Proof.
  intros Ha Ho Hcn Hends Hl Hslot. split; [done|..].
  - intros j e Hj. rewrite Ho, (ad_opened _ _ _ Ha e), elem_of_list_to_set.
    assert (Hex : (∃ j0, j0 ∈ to ∧ row@[j0] = Some e) ↔ j ∈ to) by (split; [intros (j0&?&Hj0); by rewrite (ad_inj _ _ _ Ha j j0 e)|eauto]).
    rewrite Hex. naive_solver.
  - intros j e Hj. unfold leads_to_server. rewrite Hcn. by apply (ad_conn _ _ _ Ha).
  - intros j e Hj. rewrite Hends. apply (ad_ends _ _ _ Ha). right. by exists j.
  - apply (ad_inj _ _ _ Ha).
  - intros j e a b Hj Hs. apply (ad_known _ _ _ Ha e); [by eapply Hslot|by exists j].
Qed.

Lemma make_client_follows v c names rnd to : repr v c → legal (Srv := Srv) (OpMakeClient names rnd to) v → follows (OpMakeClient names rnd to) v c.
Proof.
  intros Hr Hleg. destruct (makeClient_returns v c names rnd to Hr Hleg) as (c'&ck0&E&[(c1&E1&Hcn&Hends&Ho1) [Hsv Hst] Hck (hs&Hce&Hhs)]).
  exists c'. split; [simpl; by rewrite E|]. destruct Hleg as [Hnew Hto]. pose proof (added_row v c _ c1 names Hr Hnew eq_refl E1) as Ha.
  destruct (makeClient_parts _ _ _ _ _ _ E) as (Hn&He&Hsub&Hse&Hsa&Hob&Hpe). pose proof (proj1 Hnew) as Hl. set (row := row_of v names) in *.
  assert (Hslot : slot c' = slot c) by (unfold slot; by rewrite He).
  assert (Hnext : length (clerk_ends c) = v_next v) by apply (re_next _ _ Hr). rewrite Hnext in Hck.
  assert (Hold : ∀ e, EndName e ∈ ends (net c) → opened c' e ↔ opened c e).
  { intros e Hk%(ad_known _ _ _ Ha). rewrite Ho1, (ad_opened _ _ _ Ha e). assert (¬ ∃ j, j ∈ to ∧ row@[j] = Some e) by naive_solver. tauto. }
  assert (Hlk : ∀ k nms, clerks c' !! k = Some nms ↔ (k = v_next v ∧ nms = row) ∨ (k ≠ v_next v ∧ clerks c !! k = Some nms)).
  { intros k nms. rewrite Hck, lookup_insert_Some. naive_solver. }
  assert (Hoc : ∀ k nms j e, clerks c !! k = Some nms → nms@[j] = Some e → ¬ ∃ j, row@[j] = Some e).
  { intros k nms j e Hk Hj. destruct (proj1 (re_clerks _ _ Hr k) (mk_is_Some _ _ Hk)) as [s Hs].
    eapply (ad_known _ _ _ Ha). by eapply (co_known _ _ _ (re_client _ _ Hr _ _ _ Hk Hs)). }
  split; simpl; rewrite ?Hn, ?Hslot, ?He, ?Hsa, ?Hse, ?Hob; try (by apply Hr).
  - apply (mem_ok_frame c); try done; [by rewrite Hpe|apply (re_mem _ _ Hr)].
  - apply (grid_same c); [done..|apply (re_grid _ _ Hr)].
  - intros a b e Hs. rewrite Hold by (by eapply (gr_ends _ _ _ _ (re_grid _ _ Hr))). by apply (re_links _ _ Hr).
  - intros a b e Hs. unfold leads_to_server. rewrite Hcn, (ad_other _ _ _ Ha); [by eapply (re_dest _ _ Hr)|].
    by eapply (ad_known _ _ _ Ha), (gr_ends _ _ _ _ (re_grid _ _ Hr)).
  - intros j Hj. destruct (re_up _ _ Hr j Hj) as [Hh Hu]. unfold hosts, server_at in *. rewrite Hse, Hsv, Hst. done.
  - rewrite Hce, length_app, Hnext. simpl. lia.
  - intros k. rewrite Hck, !lookup_insert_is_Some. pose proof (re_clerks _ _ Hr k). naive_solver.
  - intros k [nms [[-> _]|[_ Hk]]%Hlk]; [lia|]. pose proof (re_old _ _ Hr _ (mk_is_Some _ _ Hk)). lia.
  - intros k nms s [[-> ->]|[Hkn Hk]]%Hlk Hs.
    + rewrite lookup_insert_eq in Hs. injection Hs as <-. apply (new_client_ok row to c c' c1); [done..|by rewrite Hn, Hl, (re_n _ _ Hr)|].
      intros a b e Hab. rewrite Hslot in Hab. by eapply (gr_ends _ _ _ _ (re_grid _ _ Hr)).
    + rewrite lookup_insert_ne in Hs by done. eapply (client_ok_added row c c' c1); [done|left; by rewrite Hslot|done..|by eapply (re_client _ _ Hr)].
  - intros k nms [[-> ->]|[Hkn Hk]]%Hlk; rewrite Hce.
    + exists hs. split; [|done]. by rewrite lookup_app_r, Hnext, Nat.sub_diag by lia.
    + destruct (re_handles _ _ Hr _ _ Hk) as (hs'&?&?). exists hs'. split; [by apply lookup_app_l_Some|done].
  - intros k k' nms nms' j j' e [[-> ->]|[Hkn Hk]]%Hlk [[-> ->]|[Hkn' Hk']]%Hlk Hj Hj'; [done|exfalso..|by eapply (re_apart _ _ Hr)].
    + eapply (Hoc k' nms' j' e); [done..|by exists j].
    + eapply (Hoc k nms j e); [done..|by exists j'].
  - intros e. rewrite Hends, (ad_ends _ _ _ Ha), elem_of_union, elem_of_list_to_set.
    intros [Hk|(j&Hj)]; [right; by apply (re_used _ _ Hr)|left; by eapply idx_elem_of].
Qed.

(** ** A whole test *)

Lemma op_follows op v c : repr v c → legal op v → follows op v c.
Proof.
  intros Hr Hl. destruct op.
  - by apply shutdown_follows.
  - by apply start_follows.
  - by apply connect_follows.
  - destruct (disconnect_follows _ _ _ _ Hr Hl) as [E ?]. eexists. by split.
  - by apply ConnectAll_follows.
  - by apply partition_follows.
  - by apply make_client_follows.
  - by apply set_client_follows.
  - by apply delete_follows.
  - by apply persist_follows.
Qed.

Lemma ops_follow ops v c : repr v c → legal_ops ops v → ∃ c', harness_ops ops c = Ret c' ∧ repr (view_ops ops v) c'.
Proof.
  revert v c. induction ops as [|op ops IH]; intros v c Hr Hl; [by exists c|]. destruct Hl as [Hop Hl].
  destruct (op_follows op v c Hr Hop) as (c1&E1&Hr1). destruct (IH _ _ Hr1 Hl) as (c'&E&Hr'). exists c'. split; [|done]. simpl. by rewrite E1.
Qed.

(** [make_config] starts the servers and connects them. *)
Definition boot (k : Z) (start : Z → Z → Z → Persister → Srv) (names : Z → list string) : list (HarnessOp (Srv := Srv)) :=
  ((λ i, OpStart (start i) (names i) i) <$> seqZ 0 k) ++ [OpConnectAll].

Lemma harness_ops_app ops ops' c : harness_ops (ops ++ ops') c = (c ← harness_ops ops c; harness_ops ops' c).
Proof. revert c. induction ops as [|op ops IH]; intros c; simpl; [done|]. destruct (harness_op op c); simpl; [apply IH|done..]. Qed.

Lemma boot_loop js (start : Z → Z → Z → Persister → Srv) names c :
  harness_ops ((λ i, OpStart (start i) (names i) i) <$> js) c = for_each js (λ i c, StartServer kv_service rf_service (start i) (names i) i c) c.
Proof. revert c. induction js as [|i js IH]; intros c; csimpl; [done|]. destruct (StartServer _ _ _ _ _ _); simpl; [apply IH|done..]. Qed.

Lemma make_config_boot start k unreliable names :
  make_config kv_service rf_service start k unreliable names =
  (c ← harness_ops (boot k start names) (new_config k); Ret (with_net (Reliable (negb unreliable) (net c)) c)).
Proof.
  unfold make_config, boot. rewrite harness_ops_app, boot_loop. destruct (for_each _ _ _) as [c| |]; simpl; [|done..].
  by destruct (ConnectAll c).
Qed.

Lemma repr_Reliable v c yes : repr v c → repr v (with_net (Reliable yes (net c)) c).
Proof.
  intros []. split; try done.
  - by apply (mem_ok_frame c).
  - by apply (grid_same c).
  - intros ck nms s Hn Hs. destruct (re_client0 ck nms s Hn Hs). by split.
Qed.

Lemma repr_new k : 0 <= k → repr (view0 k) (new_config k).
Proof.
  intros Hk. destruct (new_config_harness_ok (Srv := Srv) (W := W) k Hk) as [Hm Hg].
  assert (Hnil : ∀ {A} i (x : option A), (replicate (Z.to_nat k) None)@[i] = Some x → x = None).
  { intros A i x E%idx_elem_of. by apply elem_of_replicate in E as [? _]. }
  assert (Hno : ∀ i j e, slot (new_config (Srv := Srv) (W := W) k) i j = Some e → False).
  { intros i j e (nms&Hi&_)%cell_Some. by apply Hnil in Hi. }
  assert (Hlen : ∀ A (x : A), len (replicate (Z.to_nat k) x) = k) by (intros A x; unfold len; rewrite length_replicate; lia).
  split; simpl; try done; try (by intros ? ?%lookup_empty_Some); try (by intros ? [? ?%lookup_empty_Some]).
  - intros i j e He. by apply Hno in He.
  - intros j Hj. unfold hosts. simpl. destruct (idx_in_range (replicate (Z.to_nat k) (@None nat)) j) as [x Hx]; [by rewrite Hlen|].
    rewrite Hx. apply Hnil in Hx as ->. split; [done|]. split; [set_solver|by intros [p ?]].
  - intros ck. by rewrite !lookup_empty.
Qed.

(** What a request through an end meets: whether the end is open, the server it leads
    to, and the services of the object that runs as this server. *)
Definition reaches c (e : string) (j : Z) (on up : Prop) : Prop :=
  let '(enabled, servername, server, _, _) := readEndnameInfo (EndName e) (net c) in
  (enabled = true ↔ on) ∧ servername = Some (ServerName j) ∧
  (up → ∃ p srv, (servers c)@[j] = Some (Some p) ∧ server = Some srv ∧ store (net c) !! srv = Some (services_of p)) ∧
  (¬ up → (servers c)@[j] = Some None ∧ server = None).

Definition shows v c : Prop :=
  (∀ i j, 0 <= i < v_n v → 0 <= j < v_n v → ∃ e, slot c i j = Some e ∧ reaches c e j ((i, j) ∈ v_links v) (j ∈ v_up v)) ∧
  (∀ ck s, v_clients v !! ck = Some s → ∃ handles names, clerk_ends c !! ck = Some handles ∧ handles ≡ₚ names ∧ len names = v_n v ∧
     ∀ j e, names@[j] = Some e → reaches c e j (j ∈ s) (j ∈ v_up v)).

Lemma repr_reaches v c e j on : repr v c → 0 <= j < n c → (opened c e ↔ on) → leads_to_server c e j → reaches c e j on (j ∈ v_up v).
Proof.
  intros Hr Hj Ho Hd. destruct (re_up _ _ Hr j Hj) as [Hh Hu]. unfold reaches, readEndnameInfo. unfold leads_to_server in Hd. rewrite Hd. simpl. split_and!; [|done|..].
  - rewrite <-Ho. unfold opened. simpl. destruct (enabled (net c) !! EndName e) as [[]|]; simpl; naive_solver.
  - intros [p Hp]%Hu. unfold hosts in Hh. rewrite Hp in Hh. destruct Hh as (srv&?&?). by exists p, srv.
  - intros Hnu. unfold hosts in Hh. destruct ((servers c)@[j]) as [[p|]|]; [|done..]. destruct Hnu. apply Hu. by exists p.
Qed.

Lemma repr_shows v c : repr v c → all_started v → shows v c.
Proof.
  intros Hr Hall. pose proof (repr_wired _ _ Hr Hall) as Hw. split.
  - intros i j Hi Hj. rewrite <-(re_n _ _ Hr) in Hi, Hj. destruct (slot_in_range c i j Hw Hi Hj) as (e&He&_). exists e. split; [done|].
    apply repr_reaches; [done..|by apply (re_links _ _ Hr)|by eapply (re_dest _ _ Hr)].
  - intros ck s Hs. destruct (proj2 (re_clerks _ _ Hr ck)) as [names Hn]; [by rewrite Hs|]. destruct (re_handles _ _ Hr _ _ Hn) as (hs&Hh&Hp).
    pose proof (re_client _ _ Hr _ _ _ Hn Hs) as Hco. exists hs, names. split_and!; [done..|by rewrite (co_len _ _ _ Hco), (re_n _ _ Hr)|].
    intros j e Hj. pose proof (idx_Some_range _ _ _ Hj). rewrite (co_len _ _ _ Hco) in *.
    apply repr_reaches; [done..|by apply (co_open _ _ _ Hco)|by apply (co_dest _ _ _ Hco)].
Qed.

Lemma started_op (op : HarnessOp (Srv := Srv)) v : v_n (view_op op v) = v_n v ∧ v_started v ⊆ v_started (view_op op v).
Proof. destruct op; simpl; split; set_solver. Qed.

Lemma started_ops (ops : list (HarnessOp (Srv := Srv))) v : v_n (view_ops ops v) = v_n v ∧ v_started v ⊆ v_started (view_ops ops v).
Proof.
  revert v. induction ops as [|op ops IH]; intros v; simpl; [done|]. destruct (IH (view_op op v)) as [-> ?], (started_op op v) as [-> ?]. split; [done|set_solver].
Qed.

Lemma view_ops_app (ops ops' : list (HarnessOp (Srv := Srv))) v : view_ops (ops ++ ops') v = view_ops ops' (view_ops ops v).
Proof. revert v. induction ops as [|op ops IH]; intros v; simpl; [done|apply IH]. Qed.

Lemma boot_started start names js v i : i ∈ js → i ∈ v_started (view_ops ((λ i, OpStart (Srv := Srv) (start i) (names i) i) <$> js) v).
Proof.
  revert v. induction js as [|j js IH]; intros v Hi; [by apply not_elem_of_nil in Hi|]. csimpl. apply elem_of_cons in Hi as [->|Hi]; [|by apply IH].
  apply (proj2 (started_ops _ _)). simpl. set_solver.
Qed.

Lemma test_represented start k unreliable names ops :
  0 <= k → legal_ops (boot k start names) (view0 k) → legal_ops ops (view_ops (boot k start names) (view0 k)) →
  let v := view_ops ops (view_ops (boot k start names) (view0 k)) in
  ∃ c0 c, make_config kv_service rf_service start k unreliable names = Ret c0 ∧ harness_ops ops c0 = Ret c ∧ repr v c ∧ all_started v ∧ v_n v = k.
Proof.
  intros Hk Hb Hops v. destruct (ops_follow _ _ _ (repr_new k Hk) Hb) as (c1&E1&Hr1).
  destruct (ops_follow _ _ _ (repr_Reliable _ _ (negb unreliable) Hr1) Hops) as (c&E&Hr).
  assert (Hn : v_n v = k) by (unfold v; by rewrite (proj1 (started_ops _ _)), (proj1 (started_ops _ _))).
  eexists _, c. split; [rewrite make_config_boot, E1; done|]. split_and!; [exact E|done| |done].
  apply Forall_forall. intros i Hi. rewrite Hn in Hi. unfold v. apply (proj2 (started_ops _ _)).
  unfold boot. rewrite view_ops_app. apply (proj2 (started_ops _ _)). by apply boot_started.
Qed.

(** C35: The harness does to its network what the test means.  With new end names and
    within the numbers of servers and clients, [make_config] and every operation of a
    test return, and after them an end from a server to a server, or from a client to
    a server, is open exactly when the abstract view says so, leads to that server,
    and finds there the services of the object that runs, or nobody when the server
    is down.  A clerk holds one end to each server. *)
Theorem harness_follows_view start k unreliable names ops :
  0 <= k → legal_ops (boot k start names) (view0 k) → legal_ops ops (view_ops (boot k start names) (view0 k)) →
  ∃ c0 c, make_config kv_service rf_service start k unreliable names = Ret c0 ∧ harness_ops ops c0 = Ret c ∧
    shows (view_ops ops (view_ops (boot k start names) (view0 k))) c.
Proof.
  intros Hk Hb Hops. destruct (test_represented start k unreliable names ops Hk Hb Hops) as (c0&c&E0&E&Hr&Hall&_).
  exists c0, c. split_and!; [done..|by apply repr_shows].
Qed.

(** ** Calls of a client *)

(** The harness does nothing in the meantime. *)
Definition calm (st : Step (Name := NetName) (W := W)) : bool := match st with Admin _ => false | _ => true end.

(** Through a closed end, or to a server that is down, no handler runs. *)
Lemma refused_call req n w ls cl : (∀ sn srv rel lr, readEndnameInfo (rq_endname req) n ≠ (true, Some sn, Some srv, rel, lr)) →
  Forall (λ st, calm st = true) ls → run_call req (fresh_call n w) ls = Some cl →
  ca_runs cl = [] ∧ ∀ r, ca_phase cl = Replied r → r = no_reply.
Proof.
  intros Hno. assert (Hgo : ∀ cl0, ca_net cl0 = n → ca_handler cl0 = None → ca_runs cl0 = [] →
    (ca_phase cl0 = Begin ∨ ca_phase cl0 = NoServer ∨ ca_phase cl0 = Replied no_reply) →
    Forall (λ st, calm st = true) ls → run_call req cl0 ls = Some cl → ca_runs cl = [] ∧ ∀ r, ca_phase cl = Replied r → r = no_reply).
  2: { intros Hall E. eapply Hgo; [..|exact E]; [done..|by left|done]. }
  induction ls as [|st ls IH]; intros cl0 Hn Hh Hr Hp Hall E; simpl in E.
  { simplify_eq. split; [done|]. intros r Hpr. destruct Hp as [Hp|[Hp|Hp]]; congruence. }
  inversion_clear Hall as [|?? Hst Hall']. destruct (processReq req st cl0) as [cl1|] eqn:E1; simpl in E; [|done].
  assert (Hinv : ca_net cl1 = n ∧ ca_handler cl1 = None ∧ ca_runs cl1 = [] ∧ (ca_phase cl1 = Begin ∨ ca_phase cl1 = NoServer ∨ ca_phase cl1 = Replied no_reply)).
  { unfold processReq in E1. rewrite Hh, Hr, Hn in E1. destruct Hp as [Hp|[Hp|Hp]]; rewrite Hp in E1; destruct st; cbn -[readEndnameInfo] in E1; try done;
      try (injection E1 as <-; simpl; by eauto 10).
    destruct (readEndnameInfo (rq_endname req) n) as [[[[[] [sn|]] [srv|]] rel] lr] eqn:Er;
      [by destruct (Hno sn srv rel lr)|by injection E1 as <-; simpl; eauto 10..]. }
  destruct Hinv as (?&?&?&?). by eapply (IH cl1).
Qed.

(** C29: A clerk talks to the servers the test has connected it to.  Whatever the test has
    done, each end that the clerk of a client holds leads to one server.  If the
    client is connected to it and it runs, then on a reliable network a call is
    answered by the service of the object that runs there; otherwise no handler runs
    and the only answer is a failure. *)
Theorem calls_follow_view start k unreliable names ops c0 c ck s handles e :
  0 <= k → legal_ops (boot k start names) (view0 k) → legal_ops ops (view_ops (boot k start names) (view0 k)) →
  make_config kv_service rf_service start k unreliable names = Ret c0 → harness_ops ops c0 = Ret c →
  let v := view_ops ops (view_ops (boot k start names) (view0 k)) in
  v_clients v !! ck = Some s → clerk_ends c !! ck = Some handles → e ∈ handles →
  ∃ j, 0 <= j < k ∧
    (j ∈ s ∧ j ∈ v_up v → reliable (net c) = true → longReordering (net c) = false →
       ∃ p, (servers c)@[j] = Some (Some p) ∧
         ∀ req w sn mn m w' reply drop1 drop2 delay,
           rq_endname req = EndName e → split_dot (rq_svcMeth req) = Some (sn, mn) → sn = sv_name (kv_service p) → sn ≠ sv_name (rf_service p) →
           sv_methods (kv_service p) !! mn = Some m → me_func m (rq_args req) w = (w', reply) →
           ∃ cl, run_call req (fresh_call (net c) w) [Read drop1; Dispatch; Receive; Decide drop2 delay; Fire] = Some cl ∧
             ca_phase cl = Replied (mkReplyMsg true reply) ∧ ca_world cl = w') ∧
    (¬ (j ∈ s ∧ j ∈ v_up v) → ∀ req w ls cl, rq_endname req = EndName e → Forall (λ st, calm st = true) ls →
       run_call req (fresh_call (net c) w) ls = Some cl → ca_runs cl = [] ∧ ∀ r, ca_phase cl = Replied r → r = no_reply).
Proof.
  intros Hk Hb Hops E0 E v Hs Hh He. destruct (test_represented start k unreliable names ops Hk Hb Hops) as (c0'&c'&E0'&E'&Hr&Hall&Hn).
  rewrite E0 in E0'. injection E0' as <-. rewrite E in E'. injection E' as <-. fold v in Hr, Hall, Hn.
  destruct (repr_shows _ _ Hr Hall) as [_ Hcl]. destruct (Hcl ck s Hs) as (hs&nms&Hh'&Hp&Hl&Hreach). rewrite Hh in Hh'. injection Hh' as <-.
  rewrite Hp in He. apply list_elem_of_lookup in He as [i Hi]. rewrite <-idx_nat in Hi. specialize (Hreach _ _ Hi). pose proof (idx_Some_range _ _ _ Hi) as Hj.
  set (j := Z.of_nat i) in *. exists j. split; [lia|]. unfold reaches in Hreach.
  destruct (readEndnameInfo (EndName e) (net c)) as [[[[on sn0] srv0] rel] lr] eqn:Er. destruct Hreach as (Hon&->&Hup&Hdown). split.
  - intros [Hjs Hju] Hrel Hlr. destruct (Hup Hju) as (p&srv&Hp'&->&Hst). apply Hon in Hjs. subst on.
    assert (rel = true ∧ lr = false) as [-> ->] by (unfold readEndnameInfo in Er; by simplify_eq).
    exists p. split; [done|]. intros req w sn mn m w' reply drop1 drop2 delay Hreq Hsp Hsn Hne Hm Hf.
    destruct (reliable_call_succeeds req (net c) w (ServerName j) srv (services_of p) (kv_service p) m sn mn w' reply drop1 drop2 delay) as (cl&?&?&?&_);
      [by rewrite Hreq|done..| |done|done|by exists cl].
    unfold services_of. simpl. rewrite lookup_insert_ne by congruence. subst sn. apply lookup_insert_eq.
  - intros Hno req w ls cl Hreq Hcalm Hrun. apply (refused_call req (net c) w ls cl); [|done..]. rewrite Hreq. intros sn srv rel' lr' Er'. rewrite Er in Er'. simplify_eq.
    apply Hno. split; [by apply Hon|]. destruct (decide (j ∈ v_up v)); [done|]. by destruct Hdown.
Qed.
End Refinement.

(** ** The theorem at work *)

Import Kvraft KvraftConfig.

(** A client of two servers, a restart, a partition, and a second connection. *)
Definition demo_test : list (HarnessOp (Srv := KVServer)) :=
  [OpMakeClient ["k0"; "k1"; "k2"] (λ i, i) [0; 1]; OpShutdown 2; OpStart (start3 2) ["d0"; "d1"; "d2"] 2; OpConnect 2 [0; 1; 2];
   OpPartition [0; 2] [1]; OpSetClient false 0 [1]; OpShutdown 0].
Definition demo_view : View := view_ops demo_test (view_ops (boot 3 start3 demo_names) (view0 3)).

Lemma harness_follows_view_witness :
  v_links demo_view = {[(1, 1); (2, 2)]} ∧ v_up demo_view = {[1; 2]} ∧ v_clients demo_view !! 0%nat = Some {[0]} ∧
  ∃ c0 c, make_config no_kv_service no_rf_service start3 3 false demo_names = Ret c0 ∧
    harness_ops no_kv_service no_rf_service demo_test c0 = Ret c ∧ shows no_kv_service no_rf_service demo_view c.
Proof.
  split; [vm_compute; reflexivity|]. split; [vm_compute; reflexivity|]. split; [vm_compute; reflexivity|].
  apply (harness_follows_view no_kv_service no_rf_service start3 3 false demo_names demo_test); [lia|..];
    apply (bool_decide_unpack _); vm_compute; exact I.
Defined.

(** A service that counts its calls. *)
Definition echo_service (p : nat) : Service nat := MakeService "KVServer" [mkMethod "Get" true 3 true 0 (λ args w, (S w, args))].
Definition idle_service (p : nat) : Service nat := MakeService "Raft" [].
Definition echo_base : ServiceConfig.config KVServer nat :=
  or_new (new_config 3) (make_config echo_service idle_service start3 3 false demo_names).
Definition echo_end : ServiceConfig.config KVServer nat := or_new echo_base (harness_ops echo_service idle_service (take 6 demo_test) echo_base).
Definition echo_view : View := view_ops (take 6 demo_test) (view_ops (boot 3 start3 demo_names) (view0 3)).

(** The client's first end leads to server 0, which answers. *)
Lemma calls_follow_view_witness :
  ∃ j, 0 <= j < 3 ∧ (j ∈ ({[0]} : gset Z) ∧ j ∈ v_up echo_view →
    ∃ p, (ServiceConfig.servers echo_end)@[j] = Some (Some p) ∧
      ∃ cl, run_call (mkReqMsg (EndName "k0") "KVServer.Get" "x") (fresh_call (net echo_end) 4%nat) [Read true; Dispatch; Receive; Decide true true; Fire] = Some cl ∧
        ca_phase cl = Replied (mkReplyMsg true "x") ∧ ca_world cl = 5%nat).
Proof.
  assert (E0 : make_config echo_service idle_service start3 3 false demo_names = Ret echo_base) by (apply or_new_Ret; vm_compute; reflexivity).
  assert (E : harness_ops echo_service idle_service (take 6 demo_test) echo_base = Ret echo_end) by (apply or_new_Ret; vm_compute; reflexivity).
  destruct (calls_follow_view echo_service idle_service start3 3 false demo_names (take 6 demo_test) echo_base echo_end 0%nat {[0]} ["k0"; "k1"; "k2"] "k0") as (j&Hj&Hyes&_).
  - lia.
  - apply (bool_decide_unpack _). vm_compute. exact I.
  - apply (bool_decide_unpack _). vm_compute. exact I.
  - exact E0.
  - exact E.
  - vm_compute. reflexivity.
  - vm_compute. reflexivity.
  - left.
  - exists j. split; [exact Hj|]. intros Hju. destruct (Hyes Hju) as (p&Hp&Hcall); [vm_compute; reflexivity..|]. exists p. split; [exact Hp|].
    eapply Hcall; [reflexivity|reflexivity|reflexivity|discriminate|reflexivity|reflexivity].
Defined.
End ServiceView.
