(* ===== verification/ShardkvConfig.v ===== *)
(** * The test harness of the sharded service: [shardkv/config.go]

    Three replicas of the shard controller and three groups of key/value servers on
    one network, in which servers are named by strings.  Server objects, persisters
    and clerks live in stores, as in [ServiceConfig].  [randstring] draws the next
    string of a stream. *)

From stdpp Require Import pretty.
From S2P Require Import Prelude RaftServer LabRpc RaftTester Shardctrler Shardkv ServiceConfig.

Module ShardkvConfig.
Import RaftServer LabRpc RaftTester.

Record group := mkGroup {
  g_gid : Z;
  g_servers : list (option nat);                 (* pointers to servers, or nil *)
  g_saved : list (option nat);                   (* pointers to persisters, or nil *)
  g_endnames : list (option (list string));      (* None is nil *)
  g_mendnames : list (option (list string))
}.

(** A server object and the persister it was given. *)
Record KvObject := mkKvObject { o_kv : Shardkv.ShardKV; o_persister : nat }.

Record config (W : Type) := mkConfig {
  net : Network string W;
  nctrlers : Z;
  ctrlerservers : list (option nat);             (* pointers to controllers, or nil *)
  mck : list string;                             (* the ends of the harness's own clerk *)
  ngroups : Z;
  n : Z;                                         (* servers per group *)
  groups : list (option group);                  (* None is nil *)
  clerks : gmap nat (list string);
  nextClientId : Z;
  maxraftstate : Z;
  ctrlers : list Shardctrler.ShardCtrler;        (* the controller objects *)
  kvservers : list KvObject;                       (* the server objects *)
  persisters : list Persister;
  clerk_ends : list (list string);               (* the clerks' handles *)
  drawn : nat                                    (* random strings drawn so far *)
}.
Arguments mkConfig {W}. Arguments net {W}. Arguments nctrlers {W}. Arguments ctrlerservers {W}. Arguments mck {W}.
Arguments ngroups {W}. Arguments n {W}. Arguments groups {W}. Arguments clerks {W}. Arguments nextClientId {W}.
Arguments maxraftstate {W}. Arguments ctrlers {W}. Arguments kvservers {W}. Arguments persisters {W}.
Arguments clerk_ends {W}. Arguments drawn {W}.

Definition ctrlername (i : Z) : string := "ctrler" +:+ pretty i.
Definition servername (gid i : Z) : string := "server-" +:+ pretty gid +:+ "-" +:+ pretty i.

Section Harness.
Context {W : Type} (rand : nat → string).
(** Reflection over the methods of the objects. *)
Context (kv_service kv_rf_service sc_service sc_rf_service : nat → Service W).
Notation config := (config W).

Definition with_net v (c : config) : config := mkConfig v (nctrlers c) (ctrlerservers c) (mck c) (ngroups c) (n c) (groups c) (clerks c) (nextClientId c) (maxraftstate c) (ctrlers c) (kvservers c) (persisters c) (clerk_ends c) (drawn c).
Definition with_ctrlers v h (c : config) : config := mkConfig (net c) (nctrlers c) v (mck c) (ngroups c) (n c) (groups c) (clerks c) (nextClientId c) (maxraftstate c) h (kvservers c) (persisters c) (clerk_ends c) (drawn c).
Definition with_mck v (c : config) : config := mkConfig (net c) (nctrlers c) (ctrlerservers c) v (ngroups c) (n c) (groups c) (clerks c) (nextClientId c) (maxraftstate c) (ctrlers c) (kvservers c) (persisters c) (clerk_ends c) (drawn c).
Definition with_groups v (c : config) : config := mkConfig (net c) (nctrlers c) (ctrlerservers c) (mck c) (ngroups c) (n c) v (clerks c) (nextClientId c) (maxraftstate c) (ctrlers c) (kvservers c) (persisters c) (clerk_ends c) (drawn c).
Definition with_clerks v i h (c : config) : config := mkConfig (net c) (nctrlers c) (ctrlerservers c) (mck c) (ngroups c) (n c) (groups c) v i (maxraftstate c) (ctrlers c) (kvservers c) (persisters c) h (drawn c).
Definition with_stores ks ps (c : config) : config := mkConfig (net c) (nctrlers c) (ctrlerservers c) (mck c) (ngroups c) (n c) (groups c) (clerks c) (nextClientId c) (maxraftstate c) (ctrlers c) ks ps (clerk_ends c) (drawn c).
Definition with_drawn v (c : config) : config := mkConfig (net c) (nctrlers c) (ctrlerservers c) (mck c) (ngroups c) (n c) (groups c) (clerks c) (nextClientId c) (maxraftstate c) (ctrlers c) (kvservers c) (persisters c) (clerk_ends c) v.

(** ** Names and ends *)

Definition randstring (c : config) : string * config := (rand (drawn c), with_drawn (S (drawn c)) c).

(** [MakeEnd], [Connect] and [Enable]: an end that reaches [dest]. *)
Definition dial (name dest : string) (c : config) : Res config :=
  match MakeEnd name (net c) with
  | None => Fatal DuplicateEnd
  | Some nt => Ret (with_net (Enable name true (Connect name dest nt)) c)
  end.

(** The [make_end] the harness gives to clerks and servers. *)
Definition make_end (dest : string) (c : config) : Res (string * config) :=
  let '(name, c) := randstring c in c ← dial name dest c; Ret (name, c).

(** Fresh ends to all controllers. *)
Definition ctrler_ends (c : config) : Res (list string * config) :=
  for_each (seqZ 0 (nctrlers c)) (λ j '(ends, c), '(name, c) ← make_end (ctrlername j) c; Ret (ends ++ [name], c)) ([], c).

Definition set_group (gi : Z) (gg : group) (c : config) : Res config :=
  gs ← try (upd (groups c) gi (Some gg)); Ret (with_groups gs c).

(** [cfg.groups[gi]], whose fields are used next: nil panics. *)
Definition group_at (gi : Z) (c : config) : Res group := gg ← try ((groups c)@[gi]); try gg.

(** ** Clients *)

(** [endnames] has room for [n] names and gets one for each controller. *)
Definition makeClient (c : config) : Res (nat * config) :=
  '(endnames, ends, c) ← for_each (seqZ 0 (nctrlers c)) (λ j '(endnames, ends, c),
      let '(name, c) := randstring c in
      endnames ← try (upd endnames j name);
      c ← dial name (ctrlername j) c; Ret (endnames, ends ++ [name], c))
    (replicate (Z.to_nat (n c)) "", [], c);
  let ck := length (clerk_ends c) in
  Ret (ck, with_clerks (<[ck := endnames]> (clerks c)) (nextClientId c + 1) (clerk_ends c ++ [ends]) c).

Definition deleteClient (ck : nat) (c : config) : config := with_clerks (delete ck (clerks c)) (nextClientId c) (clerk_ends c) c.

(** ** Servers *)

(** [saved[i]] replaced by a copy, or by a new persister where [fresh]. *)
Definition copy_saved (fresh : bool) (i : Z) (gg : group) (c : config) : Res (group * config) :=
  old ← try ((g_saved gg)@[i]);
  let put (ps : Persister) :=
    sv ← try (upd (g_saved gg) i (Some (length (persisters c))));
    Ret (mkGroup (g_gid gg) (g_servers gg) sv (g_endnames gg) (g_mendnames gg), with_stores (kvservers c) (persisters c ++ [ps]) c) in
  match old with
  | Some p => ps ← try (persisters c !! p); put (Copy ps)
  | None => if fresh then put MakePersister else Ret (gg, c)
  end.

Definition disable_row (names : list string) (js : list Z) (c : config) : Res config :=
  for_each js (λ j c, name ← try (names@[j]); Ret (with_net (Enable name false (net c)) c)) c.

Definition ShutdownServer (gi i : Z) (c : config) : Res config :=
  gg ← group_at gi c;
  (* gg.endnames[i] is looked up in each round of the loop *)
  c ← for_each (seqZ 0 (len (g_servers gg))) (λ j c,
        row ← try ((g_endnames gg)@[i]); disable_row (default [] row) [j] c) c;
  mrow ← try ((g_mendnames gg)@[i]);
  c ← disable_row (default [] mrow) (seqZ 0 (len (default [] mrow))) c;
  let c := with_net (DeleteServer (servername (g_gid gg) i) (net c)) c in
  '(gg, c) ← copy_saved false i gg c;
  kv ← try ((g_servers gg)@[i]);
  match kv with
  | None => set_group gi gg c
  | Some p =>
      let ks := alter (λ o, mkKvObject (Shardkv.ShardKV_Kill (o_kv o)) (o_persister o)) p (kvservers c) in
      ss ← try (upd (g_servers gg) i None);
      set_group gi (mkGroup (g_gid gg) ss (g_saved gg) (g_endnames gg) (g_mendnames gg)) (with_stores ks (persisters c) c)
  end.

Definition ShutdownGroup (gi : Z) (c : config) : Res config := for_each (seqZ 0 (n c)) (λ i c, ShutdownServer gi i c) c.

(** [k] random strings. *)
Fixpoint draw (k : nat) (c : config) : list string * config :=
  match k with
  | O => ([], c)
  | S k => let '(name, c) := randstring c in let '(names, c) := draw k c in (name :: names, c)
  end.

Definition StartServer (r : Z) (gi i : Z) (c : config) : Res config :=
  gg ← group_at gi c;
  let '(names, c) := draw (Z.to_nat (n c)) c in
  es ← try (upd (g_endnames gg) i (Some names));
  c ← for_each (seqZ 0 (n c)) (λ j c, name ← try (names@[j]); dial name (servername (g_gid gg) j) c) c;
  ms ← try (upd (g_mendnames gg) i (Some (replicate (Z.to_nat (nctrlers c)) "")));
  '(mends, c) ← ctrler_ends c;
  ms ← try (upd ms i (Some mends));
  '(gg, c) ← copy_saved true i (mkGroup (g_gid gg) (g_servers gg) (g_saved gg) es ms) c;
  sv ← try ((g_saved gg)@[i]);
  p ← try sv;
  ps ← try (persisters c !! p);
  let kv := length (kvservers c) in
  ss ← try (upd (g_servers gg) i (Some kv));
  let server := Shardkv.StartServer r (n c) i (ReadRaftState ps) (maxraftstate c) (g_gid gg) in
  c ← set_group gi (mkGroup (g_gid gg) ss (g_saved gg) (g_endnames gg) (g_mendnames gg))
        (with_stores (kvservers c ++ [mkKvObject server p]) (persisters c) c);
  let '(srv, nt) := new_server (net c) in
  let nt := with_store (alter (λ s, AddService (kv_rf_service kv) (AddService (kv_service kv) s)) srv (store nt)) nt in
  Ret (with_net (AddServer (servername (g_gid gg) i) srv nt) c).

Definition StartGroup (r : Z → Z) (gi : Z) (c : config) : Res config := for_each (seqZ 0 (n c)) (λ i c, StartServer (r i) gi i c) c.

(** ** The controller *)

Definition StartCtrlerserver (r : Z) (i : Z) (c : config) : Res config :=
  '(_, c) ← ctrler_ends c;
  let sc := length (ctrlers c) in
  ss ← try (upd (ctrlerservers c) i (Some sc));
  let server := Shardctrler.StartServer r (nctrlers c) i (ReadRaftState MakePersister) in
  let c := with_ctrlers ss (ctrlers c ++ [server]) c in
  let '(srv, nt) := new_server (net c) in
  let nt := with_store (alter (λ s, AddService (sc_rf_service sc) (AddService (sc_service sc) s)) srv (store nt)) nt in
  Ret (with_net (AddServer (ctrlername i) srv nt) c).

Definition shardclerk (c : config) : Res (list string * config) := ctrler_ends c.

(** What [joinm] and [leavem] ask of the controller. *)
Definition join_groups (gis : list Z) (c : config) : Res (gmap Z (list string)) :=
  for_each gis (λ g m, gg ← group_at g c; Ret (<[g_gid gg := servername (g_gid gg) <$> seqZ 0 (n c)]> m)) ∅.
Definition leave_gids (gis : list Z) (c : config) : Res (list Z) :=
  for_each gis (λ g gids, gg ← group_at g c; Ret (gids ++ [g_gid gg])) [].

Section Calls.
Context {V : Type} `{Shardctrler.Ctrlers V string}.

Definition joinm (rounds : nat) (gis : list Z) (c : config) (w : V) : Res (V * option unit) :=
  m ← join_groups gis c; Ret (Shardctrler.Join rounds m (Shardctrler.MakeClerk (mck c)) w).
Definition join (rounds : nat) (gi : Z) (c : config) (w : V) : Res (V * option unit) := joinm rounds [gi] c w.
Definition leavem (rounds : nat) (gis : list Z) (c : config) (w : V) : Res (V * option unit) :=
  gids ← leave_gids gis c; Ret (Shardctrler.Leave rounds gids (Shardctrler.MakeClerk (mck c)) w).
Definition leave (rounds : nat) (gi : Z) (c : config) (w : V) : Res (V * option unit) := leavem rounds [gi] c w.
End Calls.

(** ** Set-up, checks and shutting down *)

Definition new_config (maxraft : Z) : config :=
  mkConfig MakeNetwork 3 (replicate 3 None) [] 0 0 [] ∅ 0 maxraft [] [] [] [] 0.

Definition new_group (k m : Z) (gi : Z) : group :=
  mkGroup (100 + gi) (replicate (Z.to_nat k) None) (replicate (Z.to_nat k) None) (replicate (Z.to_nat k) None) (replicate (Z.to_nat m) None).

(** [mendnames] has room for as many rows as there are controllers. *)
Definition make_config (r : Z → Z → Z) (k : Z) (unreliable : bool) (maxraft : Z) : Res config :=
  let c := new_config maxraft in
  c ← for_each (seqZ 0 (nctrlers c)) (λ i c, StartCtrlerserver (r (-1) i) i c) c;
  '(ends, c) ← shardclerk c;
  let c := mkConfig (net c) (nctrlers c) (ctrlerservers c) ends 3 k (replicate 3 None) (clerks c) (nextClientId c) (maxraftstate c)
             (ctrlers c) (kvservers c) (persisters c) (clerk_ends c) (drawn c) in
  c ← for_each (seqZ 0 (ngroups c)) (λ gi c,
        c ← set_group gi (new_group (n c) (nctrlers c) gi) c;
        for_each (seqZ 0 (n c)) (λ i c, StartServer (r gi i) gi i c) c) c;
  let c := with_clerks ∅ (n c + 1000) (clerk_ends c) c in
  Ret (with_net (Reliable (negb unreliable) (net c)) c).

Definition checklogs (c : config) : Res unit :=
  for_each (seqZ 0 (ngroups c)) (λ gi _,
    for_each (seqZ 0 (n c)) (λ i _,
      gg ← group_at gi c;
      sv ← try ((g_saved gg)@[i]);
      ps ← try (sv ≫= λ p, persisters c !! p);
      let raft := RaftStateSize ps in
      let snap := len (ReadSnapshot ps) in
      if (maxraftstate c >=? 0) && (raft >? 8 * maxraftstate c) then Fatal (LogTooBig raft (maxraftstate c))
      else if (maxraftstate c <? 0) && (snap >? 0) then Fatal SnapshotNotEmpty
      else Ret tt) tt) tt.

(** Up to the check of the elapsed time. *)
Definition cleanup (c : config) : Res config :=
  c ← for_each (seqZ 0 (ngroups c)) ShutdownGroup c;
  c ← for_each (seqZ 0 (nctrlers c)) (λ i c,
        s ← try ((ctrlerservers c)@[i]); p ← try s;
        Ret (with_ctrlers (ctrlerservers c) (alter Shardctrler.ShardCtrler_Kill p (ctrlers c)) c)) c;
  nt ← try (Cleanup (net c));
  Ret (with_net nt c).

Definition skv_checkTimeout : bool → Z → Res unit := checkTimeout.
End Harness.

(** No operation of this harness uses it. *)
Definition skv_random_handles : (Z → Z) → list string → Res (list string) := ServiceConfig.random_handles.
End ShardkvConfig.
