(* ===== verification/ShardkvTheorems.v ===== *)
(** * Theorems about the harness of the sharded service

    When its set-up and its clients work, and that the names it hands to the
    controller tell all servers apart. *)

From stdpp Require Import pretty.
From S2P Require Import Prelude RaftServer LabRpc RaftTester Shardctrler Shardkv ShardkvConfig MrWorkerFacts.

Module ShardkvTheorems.
Import RaftServer LabRpc RaftTester ShardkvConfig.

Lemma for_each_app {S} js1 js2 (body : Z → S → Res S) s : for_each (js1 ++ js2) body s = (s ← for_each js1 body s; for_each js2 body s).
Proof. revert s. induction js1 as [|j js1 IH]; intros s; simpl; [done|]. unfold mbind, Res_bind in *. destruct (body j s); [apply IH|done..]. Qed.

(** The rounds before the one that panics return. *)
Lemma for_each_panics {S} (P : S → Prop) k m (body : Z → S → Res S) s : 0 <= m < k → P s →
  (∀ j s, 0 <= j < m → P s → ∃ s', body j s = Ret s' ∧ P s') → (∀ s, P s → body m s = Panicked) →
  for_each (seqZ 0 k) body s = Panicked.
Proof.
  intros Hm Hs Hret Hpan. replace k with (m + (k - m)) by lia. rewrite seqZ_app by lia. rewrite for_each_app.
  destruct (for_each_total (λ _ s, P s) body (seqZ 0 m) s Hs) as (s'&->&Hs').
  { intros done_ j rest s0 E Hs0. apply Hret; [|done].
    assert (Hj : j ∈ seqZ 0 m) by (rewrite E; set_solver). apply elem_of_seqZ in Hj. lia. }
  cbn [mbind Res_bind]. rewrite seqZ_cons by lia. cbn [for_each]. replace (0 + m) with m by lia. by rewrite Hpan.
Qed.

Section Harness.
Context {W : Type} (rand : nat → string) (Hrand : Inj (=) (=) rand).
Context (kv_service kv_rf_service sc_service sc_rf_service : nat → Service W).
Notation config := (config W).
Notation StartServer := (StartServer rand kv_service kv_rf_service).
Notation StartCtrlerserver := (StartCtrlerserver rand sc_service sc_rf_service).
Notation make_config := (make_config rand kv_service kv_rf_service sc_service sc_rf_service).
Implicit Types c : config.

(** ** Fresh names *)

(** The ends of the network are among the first [m] random strings. *)
Definition used (m : nat) c : Prop := ∀ e, e ∈ ends (net c) → ∃ k, (k < m)%nat ∧ e = rand k.
(** Nothing but the network and the stream of names has changed. *)
Definition net_only c c' : Prop := c' = with_drawn (drawn c') (with_net (net c') c).

#[local] Instance net_only_refl : Reflexive net_only.
Proof. by intros []. Qed.
#[local] Instance net_only_trans : Transitive net_only.
Proof. intros c1 c2 c3 H1 H2. unfold net_only in *. rewrite H2, H1. done. Qed.

Lemma dial_returns m dest c : used m c → ∃ c', dial (rand m) dest c = Ret c' ∧ used (S m) c' ∧ c' = with_net (net c') c.
Proof using Hrand.
  intros Hu. unfold dial, MakeEnd. rewrite decide_False.
  - eexists. split; [done|]. split; [|done]. intros e. simpl. rewrite elem_of_union, elem_of_singleton.
    intros [->|(k&?&->)%Hu]; [exists m; split; [lia|done]|exists k; split; [lia|done]].
  - intros (k&Hk&E)%Hu. apply (inj rand) in E. lia.
Qed.

Lemma make_end_returns dest c : used (drawn c) c →
  ∃ c', make_end rand dest c = Ret (rand (drawn c), c') ∧ used (drawn c') c' ∧ net_only c c'.
Proof using Hrand.
  intros Hu. unfold make_end, randstring. destruct (dial_returns (drawn c) dest (with_drawn (S (drawn c)) c)) as (c'&E&Hu'&Hc').
  { intros e He. apply Hu, He. }
  rewrite E. cbn. exists c'. split; [done|]. assert (Hd : drawn c' = S (drawn c)) by (by rewrite Hc'). rewrite Hd. split; [done|].
  unfold net_only. rewrite Hd. rewrite Hc' at 1. done.
Qed.

Lemma ctrler_ends_returns c : used (drawn c) c →
  ∃ es c', ctrler_ends rand c = Ret (es, c') ∧ used (drawn c') c' ∧ net_only c c' ∧ length es = Z.to_nat (nctrlers c).
Proof using Hrand.
  intros Hu. unfold ctrler_ends.
  destruct (for_each_total (λ js '(es, c'), used (drawn c') c' ∧ net_only c c' ∧ length es = length js)
    (λ j '(ends, c), '(name, c) ← make_end rand (ctrlername j) c; Ret (ends ++ [name], c)) (seqZ 0 (nctrlers c)) ([], c)) as ([es c']&E&Hu'&Hn&Hl).
  - split; [done|]. by split.
  - intros js j rest [es c1] _ (Hu1&Hn1&Hl1). destruct (make_end_returns (ctrlername j) c1 Hu1) as (c2&->&Hu2&Hn2).
    cbn. eexists. split; [done|]. split; [done|]. split; [by etrans|]. rewrite !length_app. simpl. lia.
  - exists es, c'. rewrite length_seqZ in Hl. auto.
Qed.

(** Drawing names makes none of them an end. *)
Lemma draw_spec k c : draw rand k c = (rand <$> seq (drawn c) k, with_drawn (drawn c + k) c).
Proof.
  revert c. induction k as [|k IH]; intros c; simpl; [rewrite Nat.add_0_r; by destruct c|].
  rewrite IH. replace (drawn c + S k)%nat with (S (drawn c) + k)%nat by lia. done.
Qed.

(** The ends to the other servers of the group. *)
Lemma dial_row_returns gid k c : 0 <= k → used (drawn c) c →
  ∃ c', for_each (seqZ 0 k) (λ j c0, name ← try ((rand <$> seq (drawn c) (Z.to_nat k))@[j]); dial name (servername gid j) c0)
          (with_drawn (drawn c + Z.to_nat k) c) = Ret c' ∧ used (drawn c') c' ∧ net_only c c'.
Proof using Hrand.
  intros Hk Hu.
  destruct (for_each_total (λ js c', used (drawn c + length js) c' ∧ net_only c c' ∧ drawn c' = (drawn c + Z.to_nat k)%nat)
    (λ j c0, name ← try ((rand <$> seq (drawn c) (Z.to_nat k))@[j]); dial name (servername gid j) c0)
    (seqZ 0 k) (with_drawn (drawn c + Z.to_nat k) c)) as (c'&E&Hu'&Hn&Hd).
  - simpl. rewrite Nat.add_0_r. split; [exact Hu|]. split; [by destruct c|done].
  - intros js j rest c1 E (Hu1&Hn1&Hd1).
    assert (Hj : seqZ 0 k !! length js = Some j) by (rewrite E; by apply list_lookup_middle).
    apply lookup_seqZ in Hj as [Hj Hlt]. rewrite Z.add_0_l in Hj. subst j.
    rewrite idx_nat, list_lookup_fmap, lookup_seq_lt by lia. cbn [try fmap option_fmap option_map mbind Res_bind].
    destruct (dial_returns (drawn c + length js) (servername gid (Z.of_nat (length js))) c1 Hu1) as (c2&->&Hu2&Hc2).
    exists c2. split; [done|]. rewrite length_app. simpl. replace (drawn c + (length js + 1))%nat with (S (drawn c + length js)) by lia.
    split; [done|]. assert (Hd2 : drawn c2 = drawn c1) by (by rewrite Hc2). split; [|congruence].
    etrans; [exact Hn1|]. unfold net_only. rewrite Hd2, Hc2. by destruct c1.
  - exists c'. split; [done|]. split; [|done]. rewrite Hd. by rewrite length_seqZ in Hu'.
Qed.

(** ** Groups *)

(** [k] servers, [m] rows for ends to the controllers, persisters among the first [np]. *)
Record group_ok (k m : Z) (np : nat) (gg : group) : Prop := {
  go_servers : len (g_servers gg) = k;
  go_saved : len (g_saved gg) = k;
  go_endnames : len (g_endnames gg) = k;
  go_mendnames : len (g_mendnames gg) = m;
  go_ptr i q : (g_saved gg)@[i] = Some (Some q) → (q < np)%nat
}.

Definition conf_ok (k : Z) c : Prop :=
  used (drawn c) c ∧ nctrlers c = 3 ∧ n c = k ∧ len (groups c) = 3 ∧
  ∀ gi gg, (groups c)@[gi] = Some (Some gg) → group_ok k 3 (length (persisters c)) gg.

Lemma group_ok_mono k m np np' gg : (np ≤ np')%nat → group_ok k m np gg → group_ok k m np' gg.
Proof. intros Hle []. split; try done. intros i q Hq%go_ptr0. lia. Qed.

Lemma copy_saved_returns k m i gg c : group_ok k m (length (persisters c)) gg → 0 <= i < k →
  ∃ sv ps, upd (g_saved gg) i (Some (length (persisters c))) = Some sv ∧
    copy_saved true i gg c = Ret (mkGroup (g_gid gg) (g_servers gg) sv (g_endnames gg) (g_mendnames gg),
                                  with_stores (kvservers c) (persisters c ++ [ps]) c).
Proof.
  intros [Hs Hsv _ _ Hptr] Hi. unfold copy_saved. rewrite (upd_in_range (g_saved gg)) by lia.
  destruct (idx_in_range (g_saved gg) i) as [[q|] Hq]; [lia|..]; rewrite Hq; cbn [try mbind Res_bind].
  - destruct (lookup_lt_is_Some_2 _ _ (Hptr _ _ Hq)) as [ps ->]. cbn. eexists _, _. eauto.
  - eexists _, _. eauto.
Qed.

Lemma group_at_Some gi gg c : (groups c)@[gi] = Some (Some gg) → group_at gi c = Ret gg.
Proof. intros E. unfold group_at. by rewrite E. Qed.

Lemma StartServer_returns r k gi i gg c : conf_ok k c → (groups c)@[gi] = Some (Some gg) → 0 <= i < k → i < 3 →
  ∃ c', StartServer r gi i c = Ret c' ∧ conf_ok k c' ∧ (∃ gg', (groups c')@[gi] = Some (Some gg') ∧ g_gid gg' = g_gid gg).
Proof using Hrand.
  intros (Hu&Hnc&Hn&Hlg&Hgs) Hgi Hi Hi3. pose proof (Hgs _ _ Hgi) as Hgg. unfold ShardkvConfig.StartServer.
  rewrite (group_at_Some _ _ _ Hgi). cbn [mbind Res_bind]. rewrite draw_spec, Hn.
  rewrite (upd_in_range (g_endnames gg)) by (rewrite (go_endnames _ _ _ _ Hgg); lia). cbn [try mbind Res_bind].
  destruct (dial_row_returns (g_gid gg) k c) as (c1&E1&Hu1&Hf1); [lia|done|].
  change (n (with_drawn (drawn c + Z.to_nat k) c)) with (n c). rewrite Hn, E1. cbn [mbind Res_bind].
  rewrite (upd_in_range (g_mendnames gg)) by (rewrite (go_mendnames _ _ _ _ Hgg); lia). cbn [try mbind Res_bind].
  destruct (ctrler_ends_returns c1 Hu1) as (mends&c2&->&Hu2&Hf2&_). cbn [mbind Res_bind].
  assert (Hf : persisters c2 = persisters c ∧ groups c2 = groups c ∧ n c2 = n c ∧ nctrlers c2 = nctrlers c).
  { rewrite (net_only_trans _ _ _ Hf1 Hf2). by split_and!. }
  destruct Hf as (Hp2&Hg2&Hn2&Hc2).
  rewrite upd_in_range by (unfold len; rewrite length_insert; fold (len (g_mendnames gg)); rewrite (go_mendnames _ _ _ _ Hgg); lia).
  cbn [try mbind Res_bind].
  match goal with |- context [copy_saved true i ?g c2] => set (gg1 := g) end.
  assert (Hgg1 : group_ok k 3 (length (persisters c2)) gg1).
  { destruct Hgg. split; simpl; [done|done|unfold len; by rewrite length_insert|unfold len; by rewrite !length_insert|].
    intros i0 q Hq%go_ptr0. by rewrite Hp2. }
  destruct (copy_saved_returns k 3 i gg1 c2 Hgg1 Hi) as (sv&ps&Hsv&->). cbn [mbind Res_bind g_saved].
  rewrite (idx_upd _ _ _ _ _ Hsv), Z.eqb_refl. cbn [try mbind Res_bind persisters with_stores].
  rewrite lookup_app_r, Nat.sub_diag by lia. cbn [lookup list_lookup try mbind Res_bind g_servers].
  rewrite (upd_in_range (g_servers gg1)) by (rewrite (go_servers _ _ _ _ Hgg1); lia). cbn [try mbind Res_bind].
  unfold set_group. cbn [groups with_stores]. pose proof (idx_Some_range _ _ _ Hgi) as Hr.
  destruct (upd (groups c2) gi _) as [gs|] eqn:Eg; [|rewrite upd_in_range in Eg by (rewrite Hg2; lia); done].
  cbn [try mbind Res_bind]. unfold new_server. cbn [net with_groups with_stores]. eexists. split; [done|].
  pose proof (idx_upd _ _ _ _ gi Eg) as Hnew. rewrite Z.eqb_refl in Hnew.
  split; [|eexists; split; [exact Hnew|done]].
  split_and!; [exact Hu2|simpl; congruence|simpl; congruence|simpl; rewrite (len_upd _ _ _ _ Eg); congruence|].
  intros gj g'. simpl. rewrite (idx_upd _ _ _ _ gj Eg), length_app, Hp2. simpl. destruct (gj =? gi).
  - intros [= <-]. destruct Hgg1. split; simpl; [unfold len; by rewrite length_insert|by rewrite (len_upd _ _ _ _ Hsv)|done|done|].
    intros j q. rewrite (idx_upd _ _ _ _ _ Hsv), Hp2 in *. destruct (j =? i); [intros [= <-]; lia|]. intros Hq%go_ptr0. lia.
  - rewrite Hg2. intros Hg'%Hgs. eapply group_ok_mono; [|done]. lia.
Qed.

(** The row for the ends to the controllers is missing. *)
Lemma StartServer_panics r k gi i gg c : conf_ok k c → (groups c)@[gi] = Some (Some gg) → 3 <= i < k → StartServer r gi i c = Panicked.
Proof using Hrand.
  intros (Hu&Hnc&Hn&Hlg&Hgs) Hgi Hi. pose proof (Hgs _ _ Hgi) as Hgg. unfold ShardkvConfig.StartServer.
  rewrite (group_at_Some _ _ _ Hgi). cbn [mbind Res_bind]. rewrite draw_spec, Hn.
  rewrite (upd_in_range (g_endnames gg)) by (rewrite (go_endnames _ _ _ _ Hgg); lia). cbn [try mbind Res_bind].
  destruct (dial_row_returns (g_gid gg) k c) as (c1&E1&Hu1&Hf1); [lia|done|].
  change (n (with_drawn (drawn c + Z.to_nat k) c)) with (n c). rewrite Hn, E1. cbn [mbind Res_bind].
  destruct (upd (g_mendnames gg) i _) as [ms|] eqn:E; [|done]. apply upd_Some in E as [_ E]. rewrite (go_mendnames _ _ _ _ Hgg) in E. lia.
Qed.

(** ** The controllers *)

Lemma StartCtrlerserver_returns r i c : used (drawn c) c → len (ctrlerservers c) = 3 → 0 <= i < 3 →
  ∃ c', StartCtrlerserver r i c = Ret c' ∧ used (drawn c') c' ∧ len (ctrlerservers c') = 3 ∧ nctrlers c' = nctrlers c ∧ persisters c' = persisters c.
Proof using Hrand.
  intros Hu Hl Hi. unfold ShardkvConfig.StartCtrlerserver. destruct (ctrler_ends_returns c Hu) as (es&c1&->&Hu1&Hf&_). cbn [mbind Res_bind].
  assert (Hc1 : ctrlerservers c1 = ctrlerservers c ∧ nctrlers c1 = nctrlers c ∧ persisters c1 = persisters c) by (rewrite Hf; by split_and!).
  destruct Hc1 as (Hcs&Hcn&Hp). rewrite upd_in_range by (rewrite Hcs; lia). cbn [try mbind Res_bind]. unfold new_server.
  eexists. split; [done|]. split_and!; [exact Hu1|simpl; unfold len in *; by rewrite length_insert, Hcs|done|done].
Qed.

(** ** The set-up *)

Lemma new_group_ok k m np gi : 0 <= k → 0 <= m → group_ok k m np (new_group k m gi).
Proof.
  intros Hk Hm. split; simpl; try (unfold len; rewrite length_replicate; lia).
  intros i q E%idx_elem_of. by apply elem_of_replicate in E as [? _].
Qed.

(** A group before its servers are started. *)
Lemma set_group_returns k gi c : 0 <= k → conf_ok k c → 0 <= gi < 3 →
  ∃ c', set_group gi (new_group (n c) (nctrlers c) gi) c = Ret c' ∧ conf_ok k c' ∧
    ∃ gg, (groups c')@[gi] = Some (Some gg) ∧ g_gid gg = 100 + gi.
Proof.
  intros Hk (Hu&Hnc&Hn&Hlg&Hgs) Hgi. unfold set_group. destruct (upd (groups c) gi _) as [gs|] eqn:Eg; [|by rewrite upd_in_range in Eg by lia].
  cbn [try mbind Res_bind]. eexists. split; [done|]. split.
  - split_and!; try done; simpl; [by rewrite (len_upd _ _ _ _ Eg)|]. intros gj gg. rewrite (idx_upd _ _ _ _ gj Eg).
    destruct (gj =? gi); [|apply Hgs]. intros [= <-]. rewrite Hn, Hnc. apply new_group_ok; lia.
  - simpl. rewrite (idx_upd _ _ _ _ gi Eg), Z.eqb_refl. eauto.
Qed.

Notation group_body r := (λ gi c, c ← set_group gi (new_group (n c) (nctrlers c) gi) c;
        for_each (seqZ 0 (n c)) (λ i c, StartServer (r gi i) gi i c) c).

Lemma group_returns r k gi c : 0 <= k <= 3 → conf_ok k c → 0 <= gi < 3 → ∃ c', group_body r gi c = Ret c' ∧ conf_ok k c'.
Proof using Hrand.
  intros Hk Hok Hgi. destruct (set_group_returns k gi c) as (c1&->&Hok1&gg&Hgg&_); [lia|done|done|]. cbn [mbind Res_bind].
  destruct (for_each_total (λ _ c', conf_ok k c' ∧ ∃ gg, (groups c')@[gi] = Some (Some gg)) (λ i c, StartServer (r gi i) gi i c) (seqZ 0 (n c1)) c1)
    as (c'&->&Hok'&_); [eauto| |eauto].
  intros js i rest c2 E (Hok2&gg2&Hgg2). assert (Hi : i ∈ seqZ 0 (n c1)) by (rewrite E; set_solver). apply elem_of_seqZ in Hi.
  destruct Hok1 as (_&_&Hn1&_). destruct (StartServer_returns (r gi i) k gi i gg2 c2) as (c3&->&Hok3&gg3&?&_); [done|done|lia|lia|eauto].
Qed.

Lemma group_panics r k gi c : 3 < k → conf_ok k c → 0 <= gi < 3 → group_body r gi c = Panicked.
Proof using Hrand.
  intros Hk Hok Hgi. destruct (set_group_returns k gi c) as (c1&->&Hok1&gg&Hgg&_); [lia|done|done|]. cbn [mbind Res_bind].
  apply (for_each_panics (λ c', conf_ok k c' ∧ ∃ gg, (groups c')@[gi] = Some (Some gg)) (n c1) 3);
    [destruct Hok1 as (_&_&Hn1&_); lia|by eauto|..].
  - intros i c2 Hi (Hok2&gg2&Hgg2). destruct (StartServer_returns (r gi i) k gi i gg2 c2) as (c3&->&Hok3&gg3&?&_); [done|done|lia|lia|eauto].
  - intros c2 (Hok2&gg2&Hgg2). by eapply StartServer_panics; [done|done|lia].
Qed.

(** The controllers and the harness's clerk, before the groups. *)
Lemma ctrlers_return (r : Z → Z) maxraft :
  ∃ c1 es c2, for_each (seqZ 0 3) (λ i c, StartCtrlerserver (r i) i c) (new_config maxraft) = Ret c1 ∧
    shardclerk rand c1 = Ret (es, c2) ∧ used (drawn c2) c2 ∧ nctrlers c2 = 3.
Proof using Hrand.
  destruct (for_each_total (λ _ c, used (drawn c) c ∧ len (ctrlerservers c) = 3 ∧ nctrlers c = 3) (λ i c, StartCtrlerserver (r i) i c)
    (seqZ 0 3) (new_config maxraft)) as (c1&E1&Hu1&_&Hn1).
  - split_and!; [|done|done]. by intros e ?%elem_of_empty.
  - intros js i rest c E (Hu&Hl&Hn). assert (Hi : i ∈ seqZ 0 3) by (rewrite E; set_solver). apply elem_of_seqZ in Hi.
    destruct (StartCtrlerserver_returns (r i) i c Hu Hl) as (c'&->&?&?&Hn'&_); [lia|]. exists c'. split; [done|]. rewrite Hn'. by split_and!.
  - destruct (ctrler_ends_returns c1 Hu1) as (es&c2&E2&Hu2&Hf&_). exists c1, es, c2. split_and!; [done..|]. by rewrite Hf.
Qed.

Lemma make_config_cases r k unreliable maxraft : 0 <= k →
  (k <= 3 → ∃ c, make_config r k unreliable maxraft = Ret c ∧ conf_ok k c) ∧ (3 < k → make_config r k unreliable maxraft = Panicked).
Proof using Hrand.
  intros Hk. unfold ShardkvConfig.make_config. cbv zeta. destruct (ctrlers_return (r (-1)) maxraft) as (c1&es&c2&E1&E2&Hu2&Hn2).
  change (nctrlers (new_config maxraft)) with 3. rewrite E1. cbn [mbind Res_bind]. rewrite E2. cbn [mbind Res_bind ngroups].
  set (c3 := mkConfig _ _ _ _ _ _ _ _ _ _ _ _ _ _ _). assert (Hok3 : conf_ok k c3).
  { split_and!; [exact Hu2|exact Hn2|done|done|]. intros gi gg E%idx_elem_of. by apply (elem_of_replicate 3) in E as [? _]. }
  split; intros Hk3.
  - destruct (for_each_total (λ _ c', conf_ok k c') (group_body r) (seqZ 0 3) c3) as (c4&->&Hok4); [done| |].
    + intros js gi rest c E Hok. assert (Hgi : gi ∈ seqZ 0 3) by (rewrite E; set_solver). apply elem_of_seqZ in Hgi. apply group_returns; [lia|done|lia].
    + cbn [mbind Res_bind]. eexists. split; [done|]. exact Hok4.
  - rewrite (for_each_panics (conf_ok k) 3 0 (group_body r) c3); [done|lia|done|lia|]. intros c Hok. by apply (group_panics r k).
Qed.

(** ** Clients *)

Lemma client_round k names ends c j : used (drawn c) c → len names = k → 0 <= j < k →
  ∃ names' c', (let '(name, c) := randstring rand c in
      endnames ← try (upd names j name); c ← dial name (ctrlername j) c; Ret (endnames, ends ++ [name], c)) = Ret (names', ends ++ [rand (drawn c)], c') ∧
    used (drawn c') c' ∧ len names' = k.
Proof using Hrand.
  intros Hu Hl Hj. unfold randstring. rewrite upd_in_range by lia. cbn [try mbind Res_bind].
  destruct (dial_returns (drawn c) (ctrlername j) (with_drawn (S (drawn c)) c)) as (c'&->&Hu'&Hc'); [intros e He; apply Hu, He|].
  cbn [mbind Res_bind]. eexists _, _. split; [done|]. assert (drawn c' = S (drawn c)) as -> by (by rewrite Hc'). split; [done|].
  unfold len in *. by rewrite length_insert.
Qed.

Lemma makeClient_cases k c : 0 <= k → conf_ok k c →
  (3 <= k → ∃ ck c', makeClient rand c = Ret (ck, c')) ∧ (k < 3 → makeClient rand c = Panicked).
Proof using Hrand.
  intros Hk (Hu&Hnc&Hn&_). unfold makeClient. rewrite Hnc, Hn.
  match goal with |- context [for_each (seqZ 0 3) ?f ?s] => set (body := f); set (s0 := s) end.
  assert (Hs0 : used (drawn s0.2) s0.2 ∧ len s0.1.1 = k) by (split; [done|]; simpl; unfold len; rewrite length_replicate; lia).
  assert (Hround : ∀ j s, 0 <= j < k → used (drawn s.2) s.2 ∧ len s.1.1 = k → ∃ s', body j s = Ret s' ∧ (used (drawn s'.2) s'.2 ∧ len s'.1.1 = k)).
  { intros j [[names es] c0] Hj [Hu0 Hl0]. destruct (client_round k names es c0 j Hu0 Hl0 Hj) as (names'&c'&E&Hu'&Hl').
    eexists. split; [exact E|done]. }
  split; intros Hk3.
  - destruct (for_each_total (λ _ s, used (drawn s.2) s.2 ∧ len s.1.1 = k) body (seqZ 0 3) s0 Hs0) as ([[names es] c']&->&_).
    + intros js j rest s E Hs. assert (Hj : j ∈ seqZ 0 3) by (rewrite E; set_solver). apply elem_of_seqZ in Hj. apply Hround; [lia|done].
    + cbn [mbind Res_bind]. eauto.
  - rewrite (for_each_panics (λ s, used (drawn s.2) s.2 ∧ len s.1.1 = k) 3 k body s0); [done|lia|done|done|].
    intros [[names es] c0] [_ Hl]. simpl in *. unfold upd. rewrite Hl, Z.ltb_irrefl, andb_false_r. done.
Qed.

(** The harness of the sharded service works for groups of three only: as long as
    [randstring] does not repeat itself, the set-up returns for up to three servers
    per group and panics for more (the table of ends to the controllers has one row
    per controller), and after it a client can be made exactly when there are three
    (the client's list of ends has one place per server of a group). *)
Theorem harness_needs_three r k unreliable maxraft : 0 <= k →
  (k <= 3 → ∃ c, make_config r k unreliable maxraft = Ret c ∧
     (k = 3 → ∃ ck c', makeClient rand c = Ret (ck, c')) ∧ (k < 3 → makeClient rand c = Panicked)) ∧
  (3 < k → make_config r k unreliable maxraft = Panicked).
Proof using Hrand.
  intros Hk. destruct (make_config_cases r k unreliable maxraft Hk) as [Hret Hpan]. split; [|done]. intros Hk3.
  destruct (Hret Hk3) as (c&E&Hok). exists c. split; [done|]. destruct (makeClient_cases k c Hk Hok) as [H3 Hlt].
  split; [intros ->; apply H3; lia|done].
Qed.
End Harness.

(** ** The names sent to the controller *)

Lemma servername_inj gid i gid' i' : 0 <= gid → 0 <= gid' → servername gid i = servername gid' i' → gid = gid' ∧ i = i'.
Proof.
  intros Hg Hg' E. unfold servername in E. apply (inj (String.append "server-")) in E.
  apply MrWorkerFacts.split_at_dash in E as [?%(inj pretty) ?%(inj pretty)]; auto using MrWorkerFacts.no_dash_pretty.
Qed.

(** ** The theorem at work *)

Definition demo_rand (k : nat) : string := pretty (Z.of_nat k).
#[local] Instance demo_rand_inj : Inj (=) (=) demo_rand.
Proof. intros k k' E%(inj pretty). lia. Qed.
Definition no_service (p : nat) : Service unit := MakeService "none" [].

Lemma harness_needs_three_witness :
  (∃ c, make_config demo_rand no_service no_service no_service no_service (λ _ _, 0) 3 false 1000 = Ret c ∧
     ∃ ck c', makeClient demo_rand c = Ret (ck, c')) ∧
  make_config demo_rand no_service no_service no_service no_service (λ _ _, 0) 5 false 1000 = Panicked.
Proof.
  split.
  - destruct (harness_needs_three demo_rand demo_rand_inj no_service no_service no_service no_service (λ _ _, 0) 3 false 1000) as [H3 _]; [lia|].
    destruct H3 as (c&E&Hc&_); [lia|]. exists c. split; [exact E|]. apply Hc. reflexivity.
  - apply (harness_needs_three demo_rand demo_rand_inj no_service no_service no_service no_service (λ _ _, 0) 5 false 1000); lia.
Defined.

(** The set-up run on its own: twelve servers with their 66 ends, and a group joining. *)
Lemma join_groups_example :
  (c ← make_config demo_rand no_service no_service no_service no_service (λ _ _, 0) 3 false 1000; m ← join_groups [1] c; Ret (m !! 101, drawn c))
  = Ret (Some ["server-101-0"; "server-101-1"; "server-101-2"], 66%nat).
Proof. vm_compute. reflexivity. Qed.
End ShardkvTheorems.
